(* ===== verification/_CoqProject ===== *)
-Q . S2P
Prelude.v
Groups.v
Addr.v
Packet.v
MultiList.v
RecvQueue.v
SendQueue.v
Stats.v
SpeedControl.v
InFlight.v
LockedList.v
Memory.v
Connection.v
Channel.v
Socket.v
UDPQueue.v
Transport.v
MessageIO.v
Leaf.v
FileTree.v
Framing.v
Serializer.v
Messages.v
Names.v
References.v
NameServer.v
NameClient.v
NameService.v
FileCache.v
NativeFile.v
ReadJobs.v
ReadService.v
Scheduler.v
Directory.v
Watcher.v
ConnStream.v
LocalFS.v
Periodic.v
