(* ===== verification/Prelude.v ===== *)
(** * FastTransport: the protocol core of SimpleNetworkProtocol, verified

    FastTransport sends packets reliably and in order over UDP.  A program makes a
    [FastTransportContext]; it connects to a peer or accepts one, and gets
    [Connection]s, into which it puts lists of packets and from which it takes lists of
    packets.  On top of it a file system is served: a client shows the kernel (by FUSE)
    the files of a server, and caches what it has read in memory and on disk.  This
    development translates the protocol and the cache of the file system into executable Rocq
    definitions and proves what makes them correct.  Paths below are relative to
    [SimpleNetworkProtocol/]; [SNP] is [SimpleNetworkProtocol/SimpleNetworkProtocolLib].

    ** The program and the files

    From the wire upwards:

    - [Packet]: [Packet/include/IPacket.hpp], [HeaderTypes.hpp],
      [SNP/include/HeaderBuffer.hpp], [SNP/src/Packet.cpp].  Raw buffers of bytes,
      [memcpy] accessors [Header], [Acks], [Payload] at the constants of the header
      layout.  [Packet.Packet] is the C++ class; the typeclass [IPacket] with its laws
      [IPacketLaws] is the interface, [Packet] an instance.  All files below are proved
      against the interface.
    - [Addr]: [ConnectionAddr] and [ConnectionKey]: comparison, hashing, ports.
    - [MultiList]: [LockedList/include/MultiList.hpp], the chunked list that carries
      all packets.  [multilist_refines_list] proves it a plain list with an index as
      iterator; the other files use plain lists for [IPacket::List] and
      [OutgoingPacket::List].
    - [RecvQueue], [SendQueue], [InFlight]: the three queues of a connection.  The
      receive queue reorders and collects acknowledgements; the send queue numbers
      packets and gives resends priority; the in-flight queue keeps packets until they
      are acknowledged, and gives lost ones back to the send queue.
    - [Stats], [SpeedControl]: samples of round-trip times in a sliding window, the
      settings and their subscribers, and the pacing of packets.
    - [LockedList]: [Thread/include/SpinLock.hpp] and
      [LockedList/include/LockedList.hpp]: the locks as step relations.
    - [Connection]: [Connection.cpp], [IConnectionState.cpp], [Statistics.cpp]: the
      record of a connection, its operations, and one Module for each class of state
      ([SendingSynState], [WaitingSynState], [SendingSynAckState], [WaitingSynAckState],
      [DataState]; [ListenState] and the virtual calls are in [ConnectionRun]).
    - [Channel]: no code of its own: two [Connection]s and a network that loses, repeats and
      reorders packets, as a step relation.
    - [Groups], [Socket]: the grouping of packets by peer into segmented datagrams, the
      [sendmmsg] loop, the cutting of received datagrams ([SNP/src/Socket.cpp]).
    - [UDPQueue]: the four shared lists between the context and the socket threads, and
      the turns of those threads ([UDPQueue.cpp], [SendThreadQueue.cpp]).
    - [Transport]: [FastTransportProtocol.cpp]: the connections of an endpoint over a
      store of shared objects, dispatch of received and of returned packets, accept,
      connect, and removal of closed connections.
    - [MessageIO]: [MessageWriter.cpp] and [MessageReader.cpp]: values and lists of
      packets laid out over the payloads of packets.
    - [Memory]: [Memory/]: the pools of freed blocks, one for each thread and one for all,
      over a memory resource (the classes [MemoryResource], [MemoryResourceLaws]); threads
      are a step relation.

    The file system, from the data upwards:

    - [Framing]: [Protocol/src/MessageTypeReadJob.cpp]: what a connection receives is cut
      into messages, and each is given to the job of its type.
    - [Serializer]: [LeafSerializer.hpp], [ByteStream.hpp] and the jobs [MergeRequest],
      [MergeOut], [MergeIn]: the tree of the server is copied to the client.  Streams are
      the classes [OutputStream] and [InputStream]; [MessageWriter] and [MessageReader]
      are instances.
    - [Leaf]: [FileSystem/src/Leaf.cpp] (the data of a leaf), [Range.cpp],
      [PiecesStatus.cpp], [BufferView.hpp]: the packets of a file that have arrived, in
      ranges and blocks, and who reads them.
    - [FileTree]: [FileSystem/src/Leaf.cpp] (the tree and the lifetime of leaves) and
      [FileTree.cpp]: leaves in a store under their addresses, their owners, the index of
      server inodes, the references of the kernel and the accounts of cached packets.
    - [FileCache]: [FileSystem/src/FileCache/FileCache.cpp]: the open files of the disk
      cache.  [NativeFile]: [NativeFile.cpp]: reading and writing files, whose system calls
      are the class [PosixFile] with the laws [PosixFileLaws], and the descriptors of the
      files of a process ([NativeFile.Descriptors]).
    - [ReadJobs]: the jobs under [Protocol/src/FileSystem/] that serve a read:
      [FuseReadFileJob] answers it from the cache, schedules a read of the disk, or asks
      the server for blocks ([RequestReadFileJob]) and waits; [ResponseReadFileJob] is
      the server's answer; [ResponseReadFileInJob] and [ApplyBlockCacheJob] put it into
      the cache, wake the reads that wait and evict other blocks, which
      [WriteFileCacheJob] writes to the disk.  [ReadService]: what they do together.
    - [Messages]: what every job under [Protocol/src/FileSystem/] writes into its message
      and what the job that takes it reads.
    - [Names]: the other callbacks of [RemoteFileSystem] and their jobs: lookups,
      attributes, opening, listing, releasing and forgetting, on the client
      ([Names.Client]) and on the server ([Names.Server], with [ProcessInotifyEventJob]).
      [References] counts the references of leaves and says what an operation may do to
      the tree of the server; [NameServer] and [NameClient] prove that the jobs keep to
      it; [NameService] puts both sides, the kernel, the messages under way and the
      changes on the disk together as a step relation.
    - [Scheduler]: [Protocol/src/TaskScheduler.cpp] and [Queue.cpp]: the queues and their
      threads, to which queue a job of each class goes, and the lambdas that run jobs and
      move packets between them, the connection and the lists of free packets.
    - [Directory]: [DirectoryEntryWriter.cpp] and the walk of
      [ResponseReadDirPlusInJob.cpp]: the bytes of a listing.  What libfuse writes is the
      class [FuseDirent] with [FuseDirentLaws]; the layout of Linux is an instance.
    - [Watcher]: [FileSystem/src/InotifyWatcher.cpp]: the watcher, the disk that changes
      and the queue of inotify between them, turn by turn.  What it reports goes to
      [Names.Server.ProcessInotifyEventJob].
    - [ConnStream]: [ConnectionReader.cpp], [ConnectionWriter.cpp]: streams of bytes over
      a connection; the writer has a thread that sends.
    - [LocalFS]: [FileSystem/src/FileSystem.cpp]: the callbacks of the base class, which
      serve a local tree, and the tracker of requests.
    - [Periodic]: [SNP/src/PeriodicExecutor.cpp].

    ** How the code is represented

    - A field is a record field, a method a [Definition] that takes the object and
      gives the new one; a method of several effects gives them as a tuple, in the
      order of the code's parameters and result.  A method that can fail lives in the
      monad [res] of this file: [Ret], or [Err] with the fault ([throw], a failed
      [assert], undefined behaviour, or a loop without fuel).
    - Machine integers are [Z] with [wrap] (unsigned) and [swrap] (signed) where the
      code can overflow; bytes are [Z]s below 256.
    - [std::unordered_map] and [unordered_set] are [gmap] and [gset] where their order
      does not show, or association lists searched with the code's own comparison
      ([ConnectionKey.matches]); heaps are extraction of a least element; a connection
      held by [shared_ptr] is an entry of the store [ft_objects], so that the map of
      connections, the accept queue and the user see the same object.
    - Clock readings are arguments.  A wait on a condition variable is [None] or a
      [wait_outcome] when it blocks in the given state.
    - Two threads over one object are sequences of the critical sections of either, in
      any order ([rtc] of a step relation); theorems about them are by induction on the
      sequence ([rtc_invariant]).
    - The system calls [sendmmsg] and [recvmmsg] and [inet_pton] are Section variables;
      hypotheses about the first two state what their documentation promises, and the
      witnesses instantiate them.

    ** What the theorems show

    - End to end: [channel_refines_fifo], [channel_loses_nothing], [channel_complete]: over
      a network that loses, repeats and reorders, what a user takes is the beginning of
      what the other one put, nothing is lost while the connection is open, and when
      nothing is held any more everything has arrived.
    - Reads of files: [read_answers_right] (the specification is [right_answer]: a file is
      its bytes, and caches are invisible), [read_answered_once], [no_read_forgotten],
      [read_jobs_return], for any order of reads, jobs and answers, also refusals of
      blocks, for which the reads of such a block wait for ever.  They rest on [BlockInv],
      which ties the status of a block to the cache, the disk and what is under way for it.
    - The cache and the tree: [cache_reads_file], for arrivals in whole packets,
      [evicted_block_whole], [accounts_exact], which counts also what invalidations and
      colliding ranges destroy, [file_cache_lru], for an order that is computed from the
      calls alone; [tree_in_order], [references_keep_leaf], [find_by_inode],
      [removed_child_unreachable].
    - Names: [name_jobs_return], [references_balanced], [inodes_name_files],
      [name_requests_answered_once]: however the kernel, the messages, the disk and the
      releases are interleaved, no job meets a leaf that is gone, only the open of a file
      that cannot be opened asserts, a reference is lost only with an answer that the client
      gives up and none is released twice, and an inode of the kernel stays the file it
      was found as.
      They rest on the invariant [NameService.Inv].
    - Listings and jobs: [listing_roundtrip]; [queues_run_in_order],
      [scheduler_keeps_packets], [tasks_return].
    - The served directory: [directories_watched] (when the disk is left alone every
      directory gets its watch), [watcher_tells_truth] (a change of the attributes of a
      directory is reported by its parent's watch and by its own).
    - Streams: [stream_roundtrip]: what is read is what was passed to the calls that write,
      where no value lies over the end of a packet.  It rests on [writer_streams] and [reads_in_order].
    - A local file system: [local_callbacks], all callbacks that are registered, with the
      replies that libfuse refuses.
    - Delivery: [delivery_in_order_exactly_once], [delivery_complete],
      [process_terminates], [acks_complete], [DataState_sends_acks]: the user receives
      packets 1, 2, 3, ... once each for any order, loss and duplication of arrivals, up
      to the first gap, and what arrived is acknowledged.
    - Retransmission: [sendqueue_numbers_and_conserves], [GetPacketsToSend_spec],
      [AddQueue_sorts], [ProcessAcks_frees_acknowledged], [no_ack_lost]: packets are
      numbered consecutively and kept until acknowledged, also when acknowledgements
      arrive while the send thread works on the queue.
    - Connection: [handshake_completes], [received_packet_kept_or_returned],
      [GetPacketsToSend_within_allowance], [Run_timeout]: the opening of two ends, the
      conservation of packets, the limit of the pacing, the timeouts.
    - Endpoint: [context_wf], [OnReceive_routes], [OnReceive_unknown],
      [sent_packets_return], [closed_connection_removed]: the map of connections stays
      consistent in every interleaving, packets go where they are addressed to, and
      nothing of a closed connection is left.
    - UDP: [SendMsg_sends_all], [RecvMsg_segments], [WriteThread_sends],
      [udp_conserves]: segmentation is undone by the receiver, and no packet is lost
      between the threads.
    - Data: [multilist_refines_list], [splice_range_moves], [header_roundtrip],
      [acks_roundtrip], [header_wire_format], [message_roundtrip],
      [message_with_packets_roundtrip], [framing_recovers_messages], [tree_roundtrip],
      [merge_copies_tree], for trees that fit into a packet, and [messages_delivered], for
      messages that do and lists that are not empty.
    - Memory: [pools_refine_resource] (the pools are a memory resource again),
      [pools_return_everything], [pools_bounded_and_total].
    - Locks: [mutual_exclusion], [data_wakeup_not_lost].
    - Where the code does not do what it means to, a theorem states what it does:
      [run_overwrites_state], [unexpected_packet_throws], [Recv_size_starves],
      [speed_controller_stalls], [write_crossing_overwrites], and ordinary theorems such
      as [IsValid_does_not_bound_payload], [splice_range_empty_undefined],
      [crossed_bounds_undefined], [close_wakeup_can_be_lost],
      [failed_fetch_forgets_readers], [same_name_reads_other_file],
      [shutdown_forgets_reads], [invalidated_block_comes_back],
      [contained_arrival_shrinks], [orphan_path_undefined], [early_answer_asserts],
      [closed_connection_spins], [moved_directory_unwatched], [stale_event_unwatches],
      [crossing_never_returns], [write_waits_forever], [flush_waits_forever],
      [failed_open_keeps_reference] and others at the ends of [Leaf], [FileTree],
      [NativeFile], [ReadService], [Messages], [NameService], [Scheduler], [Directory],
      [Watcher], [ConnStream] and [LocalFS].

    ** Loops and fuel

    Loops over a list recur on it.  The others have fuel, always computed from the
    state, and a theorem or lemma that it suffices: [Proccess_loop] has the size of the
    queue plus one ([process_terminates]); [take_resends] the number of waiting
    resends; [chunks] the length of the list; [send_loop] the number of messages, each
    call sending at least one by the hypothesis on [sendmmsg] ([SendMsg_sends_all] and
    [SendMsg_total]); [UDPQueue.write_loop] the number of packets
    ([WriteThread_sends]); [send_acks] the number of acknowledgements; the loops of
    [MessageIO] the number of bytes and packets ([message_roundtrip]).
    [GetData_loop] has the number of bytes to read, each turn reads one at least;
    [FileTree.walk] and [drop_ref] have the number of leaves, which the invariant of the
    tree makes enough; [ReadJobs.evict] has the number of cached packets, each turn
    takes one at least ([read_jobs_return]).
    [LeafSerializer.Serialize] and [Deserialize] have the number of leaves, which bounds
    the height of a tree; [MessageTypeReadJob.run] the number of lists and packets received.
    [Scheduler.alloc_loop] takes one answer of [Send2] per turn and ends when it has packets
    enough ([tasks_return]); [DirectoryWalk.populate_loop] has the length of the packet,
    every entry is at least a byte; [ConnectionReader.read_loop] needs one turn within a
    packet ([read_loop_within]) and has none that suffices across the end of one
    ([crossing_never_returns]).  The watcher and the sending thread are step relations;
    [watcher_catches_up] says that the watcher comes to rest.
    [MultiList.visit] takes the number of elements.  [Recv_loop], which waits on other
    threads, has the number of rounds as an argument and no claim of termination;
    [Recv_size_starves] is about every number of rounds.

    ** Bounds of the read service

    Its theorems are about reads of at most a block, as the kernel asks for them (at most
    1 MiB), of files whose names differ ([same_name_reads_other_file] says why), which do
    not change on the server while they are read.  The server may refuse a block; the reads
    that wait for it are then never answered ([failed_fetch_forgets_readers]).
    The tree does not change meanwhile; its own operations are in [FileTree].  Each job is a step: the jobs of one file run on
    one thread, and those of different files share only the counter of cached packets.

    ** Bounds of the name service

    Its steps assume of the kernel what its documentation says: it forgets what it has been
    told about, at most as often, keeps inodes in use and their parents, and closes what it
    has opened, once ([permits]).  A step is a job; each waits until its message has come.
    There are fewer than 2^63 references ([Bounded]); a descriptor is not -1 and a failing
    [close] sets [errno] ([OSOk]), but both [open] and [close] may fail: the first stops the
    server with an assertion ([unopened_file_asserts]), the second leaves the handle of the
    client open ([left_open]).  The leaves of the server are made at addresses other
    than the one of the client's root ([server_address]).  A name is not used again on the server while the client may
    still have it for another leaf ([names_free]): [recreated_name_misleads] shows that the
    code does not cope with that.  A callback is one step; [forget_reads_destroyed_leaf]
    is about a release that runs in the middle of one.

    ** Bounds of the watcher and of the streams

    A path of the watcher is relative to the root, and names a directory without symbolic
    links, which the code follows (a link gives a directory a second path).  The queue of
    inotify does not overflow and does not drop an event equal to the last one.  An event of
    a directory itself, without a name, is told by its own watch.
    [directories_watched] is about histories in which no directory is moved and no name
    of one used again; [moved_directory_unwatched] and [stale_event_unwatches] show that it
    does not hold beyond them.  The disk may change between any two turns of the watcher.

    The writer is given packets by [Send2] as the environment decides; a thread that
    waits sleeps until it is notified, or asked to stop.  Packets that are received have
    something in them.

    ** What is not modelled

    Opening and configuring sockets ([setsockopt], [bind], [select], the non-Linux
    branches): bare system calls.  [BBQState]: never instantiated.  Logging, counters
    and thread names: output.  Making, mounting and running a session of libfuse
    ([FileSystem::Init], [Start]), tests and user interface: calls into libraries and the
    operating system.  [CachedFile]: a stub that nothing uses.
    [Protocol/include/httplib.hpp] is third-party code.  The destructors that stop and join
    threads, but for what that of [TaskScheduler] does to jobs ([ReadJobs.destroy_jobs]). *)
From Stdlib Require Export ZArith Lia.
From stdpp Require Export base tactics option list gmap sets numbers strings sorting relations.

(** ** Faults and the error monad *)

(** What a C++ operation can do instead of returning: throw a
    [std::runtime_error], fail an [assert], or run into undefined behaviour
    (out-of-range access, dereferencing [end()], ...).  [OutOfFuel] is no
    behaviour of the code: a loop given too little fuel yields it, and the
    termination theorems say that the fuel used suffices. *)
Inductive fault :=
  | Throws (what : string)
  | AssertFails
  | Undefined
  | OutOfFuel.

#[export] Instance fault_eq_dec : EqDecision fault.
Proof. solve_decision. Defined.

Inductive res (A : Type) :=
  | Ret (a : A)
  | Err (f : fault).
Arguments Ret {_} _.
Arguments Err {_} _.

#[export] Instance res_eq_dec `{EqDecision A} : EqDecision (res A).
Proof.
  intros [a|f] [b|g].
  - destruct (decide (a = b)); [left|right]; congruence.
  - right; discriminate.
  - right; discriminate.
  - destruct (decide (f = g)); [left|right]; congruence.
Defined.

#[export] Instance res_ret : MRet res := λ A a, Ret a.
#[export] Instance res_bind : MBind res := λ A B k m,
  match m with Ret a => k a | Err f => Err f end.
#[export] Instance res_fmap : FMap res := λ A B g m,
  match m with Ret a => Ret (g a) | Err f => Err f end.

#[export] Instance Ret_inj {A} : Inj (=) (=) (@Ret A).
Proof. by injection 1. Qed.

(** [assert(b)] of the source. *)
Definition assert_that (b : bool) : res () := if b then Ret () else Err AssertFails.

(** An access the language leaves undefined unless [b] holds. *)
Definition defined_if (b : bool) : res () := if b then Ret () else Err Undefined.

(** The value of a computation known to return. *)
Definition from_res {A} (d : A) (m : res A) : A := match m with Ret a => a | Err _ => d end.

Definition is_ret {A} (m : res A) : bool := match m with Ret _ => true | Err _ => false end.

Lemma bind_ret {A B} (k : A → res B) (m : res A) (b : B) :
  (m ≫= k) = Ret b ↔ ∃ a, m = Ret a ∧ k a = Ret b.
Proof. destruct m; cbn; naive_solver. Qed.

Lemma bind_assoc {A B C} (m : res A) (f : A → res B) (g : B → res C) :
  (m ≫= f) ≫= g = m ≫= λ a, f a ≫= g.
Proof. by destruct m. Qed.

Lemma assert_that_ret (b : bool) : assert_that b = Ret () ↔ b = true.
Proof. destruct b; cbn; naive_solver. Qed.

Lemma defined_if_ret (b : bool) : defined_if b = Ret () ↔ b = true.
Proof. destruct b; cbn; naive_solver. Qed.

(** ** Machine integers *)

Definition wrap (w z : Z) : Z := (z `mod` 2 ^ w)%Z.
Abbreviation u16 := (wrap 16).
Abbreviation u32 := (wrap 32).
Abbreviation u64 := (wrap 64).

(** [static_cast] to a signed type of width [w]. *)
Definition swrap (w z : Z) : Z := ((z + 2 ^ (w - 1)) `mod` 2 ^ w - 2 ^ (w - 1))%Z.
Abbreviation i32 := (swrap 32).

Lemma wrap_range w z : (0 ≤ w → 0 ≤ wrap w z < 2 ^ w)%Z.
Proof. intros. apply Z.mod_pos_bound. lia. Qed.

Lemma wrap_small w z : (0 ≤ z < 2 ^ w → wrap w z = z)%Z.
Proof. apply Z.mod_small. Qed.

Lemma wrap_add_l w a b : wrap w (wrap w a + b) = wrap w (a + b).
Proof. apply Zplus_mod_idemp_l. Qed.

Lemma wrap_add_r w a b : wrap w (a + wrap w b) = wrap w (a + b).
Proof. apply Zplus_mod_idemp_r. Qed.

Lemma wrap_sub_l w a b : wrap w (wrap w a - b) = wrap w (a - b).
Proof. apply Zminus_mod_idemp_l. Qed.

Lemma wrap_sub_r w a b : wrap w (a - wrap w b) = wrap w (a - b).
Proof. apply Zminus_mod_idemp_r. Qed.

Lemma wrap_wrap w z : wrap w (wrap w z) = wrap w z.
Proof. apply Z.mod_mod_divide, Z.divide_refl. Qed.

(** ** Byte strings *)

(** [memcpy] of an [n]-byte integer to memory on the (little-endian) host. *)
Fixpoint le_split (n : nat) (z : Z) : list Z :=
  match n with
  | O => []
  | S n => (z `mod` 256)%Z :: le_split n (z / 256)%Z
  end.

(** [memcpy] from memory back to an unsigned integer. *)
Fixpoint le_combine (l : list Z) : Z :=
  match l with
  | [] => 0%Z
  | b :: l => (b + 256 * le_combine l)%Z
  end.

Definition is_byte (b : Z) : Prop := (0 ≤ b < 256)%Z.

Lemma length_le_split n z : length (le_split n z) = n.
Proof. revert z. induction n; intros; cbn; auto. Qed.

Lemma le_split_bytes n z : Forall is_byte (le_split n z).
Proof.
  revert z. induction n; intros; cbn; constructor; auto.
  apply Z.mod_pos_bound. lia.
Qed.

Lemma le_combine_split n z : le_combine (le_split n z) = wrap (8 * Z.of_nat n) z.
Proof.
  revert z. induction n as [|n IH]; intros z.
  { unfold wrap. cbn. by rewrite Z.mod_1_r. }
  cbn [le_split le_combine]. rewrite IH. unfold wrap.
  replace (8 * Z.of_nat (S n))%Z with (8 + 8 * Z.of_nat n)%Z by lia.
  rewrite Z.pow_add_r by lia. change (2 ^ 8)%Z with 256%Z.
  rewrite Z.rem_mul_r by lia. lia.
Qed.

Lemma le_combine_range l :
  Forall is_byte l → (0 ≤ le_combine l < 2 ^ (8 * Z.of_nat (length l)))%Z.
Proof.
  induction 1 as [|b l Hb _ IH]; cbn [le_combine length]; [done|].
  replace (8 * Z.of_nat (S (length l)))%Z with (8 + 8 * Z.of_nat (length l))%Z by lia.
  rewrite Z.pow_add_r by lia. unfold is_byte in Hb. lia.
Qed.

Lemma le_split_combine l : Forall is_byte l → le_split (length l) (le_combine l) = l.
Proof.
  induction 1 as [|b l Hb _ IH]; cbn [le_combine le_split length]; [done|].
  unfold is_byte in Hb. f_equal.
  - rewrite Z.mul_comm, Z.mod_add by lia. apply Z.mod_small. lia.
  - rewrite Z.mul_comm, Z.div_add by lia. rewrite (Z.div_small b) by lia. done.
Qed.

(** [span.subspan(off).first(n)]. *)
Definition slice {A} (off n : nat) (l : list A) : list A := take n (drop off l).

Lemma length_slice {A} off n (l : list A) :
  off + n ≤ length l → length (slice off n l) = n.
Proof. intros. unfold slice. rewrite length_take, length_drop. lia. Qed.

Lemma lookup_slice {A} off n (l : list A) i :
  slice off n l !! i = if decide (i < n) then l !! (off + i) else None.
Proof.
  unfold slice. case_decide.
  - by rewrite lookup_take_lt, lookup_drop.
  - apply lookup_take_ge. lia.
Qed.

(** Reading back what [memcpy] wrote. *)
Lemma slice_inserts_eq {A} off (k l : list A) :
  off + length k ≤ length l → slice off (length k) (list_inserts off k l) = k.
Proof.
  intros H. apply list_eq. intros i. rewrite lookup_slice. case_decide as Hi.
  - rewrite list_lookup_inserts by lia. f_equal. lia.
  - symmetry. apply lookup_ge_None. lia.
Qed.

(** A write outside a range leaves the range unchanged. *)
Lemma slice_inserts_ne {A} off n off' (k l : list A) :
  off + n ≤ off' ∨ off' + length k ≤ off →
  slice off n (list_inserts off' k l) = slice off n l.
Proof.
  intros H. apply list_eq. intros i. rewrite !lookup_slice. case_decide; [|done].
  destruct H; [rewrite list_lookup_inserts_lt by lia|rewrite list_lookup_inserts_ge by lia]; done.
Qed.

(** ** Lists *)

(** Replace the last element by the elements [f] makes of it. *)
Fixpoint on_back {A} (f : A → list A) (l : list A) : list A :=
  match l with
  | [] => []
  | [x] => f x
  | x :: l => x :: on_back f l
  end.

Lemma on_back_snoc {A} (f : A → list A) l x : on_back f (l ++ [x]) = l ++ f x.
Proof. induction l as [|y [|z l] IH]; [done..|]. cbn in *. by rewrite IH. Qed.

Lemma lookup_split {A} (l : list A) i x :
  l !! i = Some x → ∃ l1 l2, l = l1 ++ x :: l2 ∧ i = length l1.
Proof.
  intros H. exists (take i l), (drop (S i) l). split; [by rewrite take_drop_middle|].
  apply lookup_lt_Some in H. rewrite length_take. lia.
Qed.

(** Wrapped consecutive numbers depend on the wrapped first one only. *)
Lemma wrap_seqZ w a b n : wrap w a = wrap w b → wrap w <$> seqZ a n = wrap w <$> seqZ b n.
Proof.
  intros H. apply list_eq. intros i. rewrite !list_lookup_fmap.
  destruct (decide (Z.of_nat i < n)%Z).
  - rewrite !lookup_seqZ_lt by lia. cbn. f_equal. by rewrite <- wrap_add_l, H, wrap_add_l.
  - by rewrite !lookup_seqZ_ge by lia.
Qed.

(** ** Transition systems *)

(** What holds at the start and is kept by every step holds in every reachable state. *)
Lemma rtc_invariant {A} (R : relation A) (I : A → Prop) x y :
  I x → (∀ a b, I a → R a b → I b) → rtc R x y → I y.
Proof. intros Hx Hstep H. revert Hx. induction H; eauto. Qed.

(** ** Automation *)

Create HintDb ft.
Create Rewrite HintDb ft_len.
#[export] Hint Resolve wrap_range le_split_bytes : ft.
#[export] Hint Rewrite @length_app @length_inserts @length_take @length_drop
  length_le_split @length_replicate : ft_len.

(** Normalise the lengths of a goal and finish with [lia]. *)
Ltac len := autorewrite with ft_len in *; cbn [length] in *; lia.

Create Rewrite HintDb ft_wrap.
#[export] Hint Rewrite wrap_add_l wrap_add_r wrap_sub_l wrap_sub_r wrap_wrap : ft_wrap.

(** Equality of two wrapped sums: drop the inner wraps, compare the sums. *)
Ltac wrap_eq := autorewrite with ft_wrap; f_equal; len.

(** Split every conjunction and bind equation of the context. *)
Ltac inv_res :=
  repeat match goal with
    | H : mret _ = Ret _ |- _ => unfold mret, res_ret in H
    | H : Ret _ = Ret _ |- _ => apply (inj Ret) in H; simplify_eq
    | H : Err _ = Ret _ |- _ => discriminate H
    | H : Ret _ = Err _ |- _ => discriminate H
    | H : (_ ≫= _) = Ret _ |- _ => apply bind_ret in H as (? & ? & ?)
    | H : assert_that _ = Ret _ |- _ => apply assert_that_ret in H
    | H : defined_if _ = Ret _ |- _ => apply defined_if_ret in H
    | H : _ ∧ _ |- _ => destruct H
    end.
