(* ===== verification/Groups.v ===== *)
(** * Grouping in an unordered map
    The idiom [map[key(x)].push_back(x)] of [Socket::SendMsg] and
    [FastTransportContext::SendQueueStep]: the groups are the elements with equal keys,
    in order.  [matches] compares a key of the map with a new one; it is only known to
    decide equality of the [proj]ections of keys that are [ok]. *)
From S2P Require Import Prelude.

Section Groups.
Context {K V D : Type} `{!EqDecision D}.
Variable matches : K → K → res bool.
Implicit Types (groups : list (K * list V)) (k : K) (x : V).

(** [map[k].push_back(x)]. *)
Fixpoint add_to_group k x groups : res (list (K * list V)) :=
  match groups with
  | [] => Ret [(k, [x])]
  | (b, xs) :: rest =>
      same ← matches b k;
      if (same : bool) then mret ((b, xs ++ [x]) :: rest)
      else rest ← add_to_group k x rest; mret ((b, xs) :: rest)
  end.

Variable key : V → K.

Fixpoint group_all (xs : list V) groups : res (list (K * list V)) :=
  match xs with
  | [] => Ret groups
  | x :: xs => groups ← add_to_group (key x) x groups; group_all xs groups
  end.

Variable proj : K → D.
Variable ok : K → Prop.
Hypothesis matches_ok : ∀ a b, ok a → ok b → matches a b = Ret (bool_decide (proj a = proj b)).

(** The elements grouped under [d]. *)
Definition bucket (d : D) groups : list V := concat (filter (λ g, proj g.1 = d) groups).*2.

Record Grouped (xs : list V) groups : Prop := {
  gp_bucket d : bucket d groups = filter (λ x, proj (key x) = d) xs;
  gp_all : concat groups.*2 ≡ₚ xs;
  gp_distinct : NoDup ((proj ∘ fst) <$> groups);
  gp_ok : Forall (λ g, ok g.1 ∧ g.2 ≠ []) groups;
}.

Lemma bucket_cons d g groups :
  bucket d (g :: groups) = (if decide (proj g.1 = d) then g.2 else []) ++ bucket d groups.
Proof. unfold bucket. rewrite filter_cons. by case_decide. Qed.

Lemma bucket_other d groups : d ∉ (proj ∘ fst) <$> groups → bucket d groups = [].
Proof.
  induction groups as [|g groups IH]; [done|]. rewrite fmap_cons, not_elem_of_cons, bucket_cons.
  intros [Hne Hin]. rewrite decide_False by (cbn in Hne; congruence). by apply IH.
Qed.

Lemma add_to_group_spec k x groups :
  ok k → Forall (λ g, ok g.1 ∧ g.2 ≠ []) groups → NoDup ((proj ∘ fst) <$> groups) →
  ∃ groups', add_to_group k x groups = Ret groups' ∧
    (∀ d, bucket d groups' = bucket d groups ++ if decide (proj k = d) then [x] else []) ∧
    (proj ∘ fst <$> groups' = proj ∘ fst <$> groups ∨
     proj ∘ fst <$> groups' = (proj ∘ fst <$> groups) ++ [proj k] ∧ proj k ∉ (proj ∘ fst <$> groups)) ∧
    concat groups'.*2 ≡ₚ concat groups.*2 ++ [x] ∧ Forall (λ g, ok g.1 ∧ g.2 ≠ []) groups'.
Proof.
  intros Hk Hg Hnd. induction Hg as [|[b xs] groups [Hb Hne] Hg IH]; cbn [add_to_group].
  { eexists. split; [done|]. split; [|split].
    - intros d. rewrite bucket_cons. cbn. case_decide; done.
    - right. split; [done|]. by intros ?%elem_of_nil.
    - split; [done|]. by repeat constructor. }
  rewrite (matches_ok b k Hb Hk). cbn [mbind res_bind].
  apply NoDup_cons in Hnd as [Hnin Hnd]. case_bool_decide as E; cbn in E.
  - eexists. split; [done|]. split; [|split; [by left|split; [cbn; solve_Permutation|]]].
    2: { constructor; [|done]. split; [done|]. by destruct xs. }
    intros d. rewrite !bucket_cons. cbn. rewrite E. case_decide as Hd; [|by rewrite app_nil_r].
    rewrite (bucket_other d groups); [by rewrite !app_nil_r|]. cbn in Hnin. by rewrite <- Hd, <- E.
  - destruct (IH Hnd) as (groups' & -> & Hbk & Hp & Hall & Hf). eexists. split; [done|].
    split; [|split; [|split; [cbn; by rewrite Hall, app_assoc|by constructor]]].
    + intros d. by rewrite !bucket_cons, Hbk, app_assoc.
    + cbn. destruct Hp as [->|[-> Hn]]; [by left|right]. split; [done|]. by apply not_elem_of_cons.
Qed.

Lemma group_more_spec xs : ∀ L groups,
  Forall (λ x, ok (key x)) xs → Grouped L groups →
  ∃ groups', group_all xs groups = Ret groups' ∧ Grouped (L ++ xs) groups'.
Proof.
  induction xs as [|x xs IH]; intros L groups Hip [Hb Hall Hd Hg]; cbn [group_all].
  { exists groups. split; [done|]. by rewrite app_nil_r. }
  apply Forall_cons in Hip as [Ho Hip].
  destruct (add_to_group_spec _ x groups Ho Hg Hd) as (groups1 & -> & Hb1 & Hp1 & Hall1 & Hg1).
  cbn [mbind res_bind]. destruct (IH (L ++ [x]) groups1 Hip) as (groups' & E & HG).
  - split; [|by rewrite Hall1, Hall|destruct Hp1 as [->|[-> ?]]; [done|]|done].
    + intros d. by rewrite Hb1, Hb, filter_app.
    + apply NoDup_app. split; [done|]. split; [|apply NoDup_singleton].
      intros y Hy ->%list_elem_of_singleton. done.
  - exists groups'. split; [done|]. by rewrite <- app_assoc in HG.
Qed.

Lemma group_all_spec xs :
  Forall (λ x, ok (key x)) xs → ∃ groups, group_all xs [] = Ret groups ∧ Grouped xs groups.
Proof. intros H. apply (group_more_spec xs []); [done|]. by split; [|constructor|constructor|constructor]. Qed.

(** Every group holds elements of its own key only. *)
Lemma grouped_key xs groups g x : Grouped xs groups → g ∈ groups → x ∈ g.2 → proj (key x) = proj g.1.
Proof.
  intros [Hb _ _ _] Hg Hx. assert (x ∈ bucket (proj g.1) groups) as Hin.
  { unfold bucket. apply list_elem_of_In, in_concat. exists g.2. rewrite <- !list_elem_of_In. split; [|done]. apply list_elem_of_fmap. exists g.
    split; [done|]. by apply list_elem_of_filter. }
  rewrite Hb in Hin. by apply list_elem_of_filter in Hin as [? _].
Qed.

(** The elements in the groups whose keys satisfy [Q]. *)
Lemma grouped_filter xs groups (Q : D → Prop) `{!∀ d, Decision (Q d)} :
  Grouped xs groups →
  concat (filter (λ g, Q (proj g.1)) groups).*2 ≡ₚ filter (λ x, Q (proj (key x))) xs.
Proof.
  intros HG. transitivity (filter (λ x, Q (proj (key x))) (concat groups.*2)); [|by rewrite (gp_all _ _ HG)].
  assert (Hkey : ∀ g x, g ∈ groups → x ∈ g.2 → proj (key x) = proj g.1) by eauto using grouped_key.
  clear HG. induction groups as [|g groups IH]; [done|]. rewrite filter_cons. cbn [fmap list_fmap concat].
  rewrite filter_app. assert (filter (λ x, Q (proj (key x))) g.2 = if decide (Q (proj g.1)) then g.2 else []) as ->.
  { clear IH. assert (Hg : ∀ x, x ∈ g.2 → proj (key x) = proj g.1) by (intros; apply Hkey; [left|done]). clear Hkey.
    induction g.2 as [|y l IHl]; [by case_decide|]. rewrite filter_cons, Hg by left.
    rewrite IHl by (intros; apply Hg; by right). by case_decide. }
  case_decide; cbn; [f_equiv|]; apply IH; intros; (apply Hkey; [by right|done]).
Qed.

End Groups.
