(* ===== verification/Addr.v ===== *)
(** * Peer addresses and connection keys
    [include/ConnectionAddr.hpp], [ConnectionKey.hpp] and [ConnectionKey.cpp].
    The socket address is kept as the fields of [sockaddr_storage] that the code
    touches, in the byte order in which they are stored. *)
From S2P Require Import Prelude.
Local Open Scope Z_scope.

Definition AF_UNSPEC : Z := 0.
Definition AF_INET : Z := 2.
Definition AF_INET6 : Z := 10.

(** Byte swap of a 16-bit value: [htons] and [ntohs] of a little-endian host. *)
Definition htons (p : Z) : Z := (p `mod` 256) * 256 + (p / 256) `mod` 256.
Definition ntohs : Z → Z := htons.

(** [sockaddr_storage]: family, [sin_port] and [sin_addr] as stored, and the
    bytes behind them, used by no operation below but [memcpy]. *)
Record ConnectionAddr := mkAddr {
  ss_family : Z;
  sin_port : Z;
  s_addr : Z;
  sa_rest : list Z;
}.

#[export] Instance ConnectionAddr_eq_dec : EqDecision ConnectionAddr.
Proof. solve_decision. Defined.
#[export] Instance ConnectionAddr_countable : Countable ConnectionAddr.
Proof.
  refine (inj_countable' (λ a, (ss_family a, sin_port a, s_addr a, sa_rest a))
    (λ '(f, p, i, r), mkAddr f p i r) _); by intros [].
Defined.

Module ConnectionAddr.

(** [ConnectionAddr()]: the storage is cleared. *)
Definition default : ConnectionAddr := mkAddr AF_UNSPEC 0 0 [].

Definition SetPort (port : Z) (a : ConnectionAddr) : ConnectionAddr :=
  mkAddr (ss_family a) (htons (u16 port)) (s_addr a) (sa_rest a).

Definition GetPort (a : ConnectionAddr) : Z := ntohs (sin_port a).

(** [operator==]: only IPv4 addresses are compared. *)
Definition equals (a b : ConnectionAddr) : res bool :=
  if negb (ss_family a =? ss_family b) then Ret false
  else if ss_family a =? AF_INET then
    if negb (sin_port a =? sin_port b) then Ret false
    else Ret (s_addr a =? s_addr b)
  else Err (Throws "Not implemented").

(** [HashFunction::operator()] on 64-bit words. *)
Definition hash (a : ConnectionAddr) : Z :=
  if ss_family a =? AF_INET
  then u64 (Z.lxor (s_addr a) (Z.shiftl (sin_port a) 16))
  else GetPort a.

(** How an unordered container tells whether it holds [a] as [b]: only elements with
    the same hash are compared. *)
Definition matches (a b : ConnectionAddr) : res bool :=
  if hash a =? hash b then equals a b else Ret false.

(** The constructor from a host name. [inet_pton] and [getaddrinfo] belong to the
    platform: [inet_pton4]/[inet_pton6] give the parsed address of a numeric
    literal, [getaddrinfo] the first entry of the resolver's answer. *)
Section FromString.
Variable inet_pton4 : string → option Z.
Variable inet_pton6 : string → option (list Z).
Variable getaddrinfo : string → option ConnectionAddr.

Definition of_string (addr : string) (port : Z) : res ConnectionAddr :=
  if bool_decide (addr = EmptyString) then Err (Throws "ConnectionAddr: empty address")
  else match inet_pton4 addr with
  | Some ip => Ret (mkAddr AF_INET (htons (u16 port)) ip [])
  | None =>
    match inet_pton6 addr with
    | Some ip6 => Ret (mkAddr AF_INET6 (htons (u16 port)) 0 ip6)
    | None =>
      match getaddrinfo addr with
      | None => Err (Throws ("ConnectionAddr: failed to resolve address: " +:+ addr))
      | Some r =>
        if ss_family r =? AF_INET then
          Ret (mkAddr AF_INET (htons (u16 port)) (s_addr r) (sa_rest r))
        else if ss_family r =? AF_INET6 then
          Ret (mkAddr AF_INET6 (htons (u16 port)) (s_addr r) (sa_rest r))
        else Err (Throws ("ConnectionAddr: unsupported address family for: " +:+ addr))
      end
    end
  end.

End FromString.
End ConnectionAddr.

(** [ConnectionKey]: the peer's address and a connection id. *)
Record ConnectionKey := mkKey { _id : Z; _dstAddr : ConnectionAddr }.

#[export] Instance ConnectionKey_eq_dec : EqDecision ConnectionKey.
Proof. solve_decision. Defined.
#[export] Instance ConnectionKey_countable : Countable ConnectionKey.
Proof.
  refine (inj_countable' (λ k, (_id k, _dstAddr k)) (λ '(i, a), mkKey i a) _); by intros [].
Defined.

Module ConnectionKey.

Definition make (addr : ConnectionAddr) (connectionID : Z) : ConnectionKey :=
  mkKey (u16 connectionID) addr.

Definition GetID (k : ConnectionKey) : Z := _id k.
Definition GetDestinaionAddr (k : ConnectionKey) : ConnectionAddr := _dstAddr k.

(** [operator==]: [&&] is short-circuit, so addresses are compared only when the
    ids agree. *)
Definition equals (a b : ConnectionKey) : res bool :=
  if _id a =? _id b then ConnectionAddr.equals (_dstAddr a) (_dstAddr b) else Ret false.

Definition hash (k : ConnectionKey) : Z :=
  let h := ConnectionAddr.hash (GetDestinaionAddr k) in
  u64 (Z.lxor h (u64 (u64 (GetID k * 2654435761) + 2654435769
                      + u64 (Z.shiftl h 6) + Z.shiftr h 2))).

(** How the unordered map of the connections compares a key with one it holds. *)
Definition matches (a b : ConnectionKey) : res bool :=
  if hash a =? hash b then equals a b else Ret false.

End ConnectionKey.

(** The fields of an IPv4 address that tell peers apart, and those of a key. *)
Definition peer (a : ConnectionAddr) : Z * Z := (sin_port a, s_addr a).
Definition is_ipv4 (a : ConnectionAddr) : Prop := ss_family a = AF_INET.
Definition key_peer (k : ConnectionKey) : Z * (Z * Z) := (_id k, peer (_dstAddr k)).

(** ** Properties *)

Lemma htons_range p : 0 ≤ htons p < 65536.
Proof.
  unfold htons. pose proof (Z.mod_pos_bound p 256). pose proof (Z.mod_pos_bound (p / 256) 256). lia.
Qed.

Lemma htons_involutive p : 0 ≤ p < 65536 → htons (htons p) = p.
Proof.
  intros H. unfold htons.
  pose proof (Z.mod_pos_bound p 256 ltac:(lia)).
  assert (0 ≤ p / 256 < 256) by (split; [apply Z.div_pos|apply Z.div_lt_upper_bound]; lia).
  rewrite (Z.mod_small (p / 256)) by lia.
  set (h := p / 256) in *. set (l := p `mod` 256) in *.
  assert (p = 256 * h + l) by (apply Z.div_mod; lia).
  replace ((l * 256 + h) `mod` 256) with h by (apply (Z.mod_unique _ _ l); lia).
  replace ((l * 256 + h) / 256) with l by (apply (Z.div_unique _ _ _ h); lia).
  rewrite Z.mod_small by lia. lia.
Qed.

Lemma GetPort_SetPort p a : ConnectionAddr.GetPort (ConnectionAddr.SetPort p a) = u16 p.
Proof. apply htons_involutive. apply (wrap_range 16). lia. Qed.

(** Two well-formed IPv4 addresses compare equal exactly when they agree on the
    fields the code stores. *)
Lemma equals_ipv4 a b :
  ss_family a = AF_INET → ss_family b = AF_INET →
  ConnectionAddr.equals a b = Ret (bool_decide (sin_port a = sin_port b ∧ s_addr a = s_addr b)).
Proof.
  intros Ha Hb. unfold ConnectionAddr.equals. rewrite Ha, Hb. cbn.
  destruct (Z.eqb_spec (sin_port a) (sin_port b)); cbn;
    [destruct (Z.eqb_spec (s_addr a) (s_addr b))|];
    f_equal; symmetry; (apply bool_decide_eq_true_2 || apply bool_decide_eq_false_2); naive_solver.
Qed.

Lemma addr_equals_hash a b :
  ConnectionAddr.equals a b = Ret true → ConnectionAddr.hash a = ConnectionAddr.hash b.
Proof.
  unfold ConnectionAddr.equals, ConnectionAddr.hash.
  destruct (Z.eqb_spec (ss_family a) (ss_family b)) as [<-|]; cbn; [|naive_solver].
  destruct (ss_family a =? AF_INET); [|naive_solver].
  destruct (Z.eqb_spec (sin_port a) (sin_port b)) as [<-|]; cbn; [|naive_solver].
  destruct (Z.eqb_spec (s_addr a) (s_addr b)) as [<-|]; naive_solver.
Qed.

Lemma addr_matches a b :
  is_ipv4 a → is_ipv4 b → ConnectionAddr.matches a b = Ret (bool_decide (peer a = peer b)).
Proof.
  intros Ha Hb. unfold ConnectionAddr.matches.
  pose proof (equals_ipv4 a b Ha Hb) as E.
  assert (bool_decide (peer a = peer b) = bool_decide (sin_port a = sin_port b ∧ s_addr a = s_addr b)) as ->.
  { apply bool_decide_ext. unfold peer. split; [by intros [= -> ->]|by intros [-> ->]]. }
  destruct (Z.eqb_spec (ConnectionAddr.hash a) (ConnectionAddr.hash b)) as [_|Hn]; [done|].
  rewrite bool_decide_eq_false_2; [done|]. intros Hp. apply Hn, addr_equals_hash. rewrite E.
  by rewrite bool_decide_eq_true_2.
Qed.

Lemma key_equals_hash_eq a b :
  ConnectionKey.equals a b = Ret true → ConnectionKey.hash a = ConnectionKey.hash b.
Proof.
  unfold ConnectionKey.equals, ConnectionKey.hash, ConnectionKey.GetDestinaionAddr, ConnectionKey.GetID.
  destruct (Z.eqb_spec (_id a) (_id b)) as [->|]; [|naive_solver].
  intros H%addr_equals_hash. by rewrite H.
Qed.

Lemma key_matches a b :
  is_ipv4 (_dstAddr a) → is_ipv4 (_dstAddr b) →
  ConnectionKey.matches a b = Ret (bool_decide (key_peer a = key_peer b)).
Proof.
  intros Ha Hb. unfold ConnectionKey.matches.
  assert (E : ConnectionKey.equals a b = Ret (bool_decide (key_peer a = key_peer b))).
  { unfold ConnectionKey.equals, key_peer, peer. destruct (Z.eqb_spec (_id a) (_id b)) as [He|He].
    - rewrite equals_ipv4 by done. f_equal. apply bool_decide_ext. rewrite He. split; [by intros [-> ->]|by intros [= -> ->]].
    - rewrite bool_decide_eq_false_2; [done|]. congruence. }
  destruct (Z.eqb_spec (ConnectionKey.hash a) (ConnectionKey.hash b)) as [_|Hn]; [done|].
  rewrite bool_decide_eq_false_2; [done|]. intros Hp. apply Hn, key_equals_hash_eq. rewrite E.
  by rewrite bool_decide_eq_true_2.
Qed.

(** keys that compare equal have equal hashes, which is what
    [std::unordered_map] needs of [ConnectionKey::HashFunction]. *)
Theorem key_equals_hash a b :
  ConnectionKey.equals a b = Ret true → ConnectionKey.hash a = ConnectionKey.hash b.
Proof. apply key_equals_hash_eq. Qed.

Lemma key_equals_hash_witness :
  ∃ a b, a ≠ b ∧ ConnectionKey.equals a b = Ret true ∧ ConnectionKey.hash a = ConnectionKey.hash b.
Proof.
  exists (mkKey 7 (mkAddr AF_INET (htons 11100) 16777343 [])),
    (mkKey 7 (mkAddr AF_INET (htons 11100) 16777343 [1])).
  split; [congruence|]. split; [reflexivity|]. apply key_equals_hash. reflexivity.
Defined.
