(* ===== verification/Packet.v ===== *)
(** * Packets
    [Packet/include/HeaderTypes.hpp] (wire types and sizes), [IPacket.hpp] (the
    packet interface, here a class with laws), [include/HeaderBuffer.hpp] (the
    [memcpy] accessors [Header], [Acks], [Payload] over a raw buffer) and
    [Packet.hpp]/[Packet.cpp] (the implementation, an instance of the class). *)
From S2P Require Import Prelude Addr.
Local Open Scope Z_scope.

(** ** HeaderTypes.hpp *)

(** [enum class PacketType : int16_t].  A received header can hold any 16-bit
    value; the ones that are no enumerator are [Unlisted]. *)
Inductive PacketType :=
  | PT_None | Syn | Ack | SynAck | Data | Sack | Fin | Close
  | Unlisted (raw : Z).

#[export] Instance PacketType_eq_dec : EqDecision PacketType.
Proof. solve_decision. Defined.

Definition PacketType_raw (t : PacketType) : Z :=
  match t with
  | PT_None => 0 | Syn => 1 | Ack => 2 | SynAck => 3 | Data => 4
  | Sack => 8 | Fin => 16 | Close => 32 | Unlisted r => r
  end.

Definition PacketType_of_raw (r : Z) : PacketType :=
  if r =? 0 then PT_None else if r =? 1 then Syn else if r =? 2 then Ack
  else if r =? 3 then SynAck else if r =? 4 then Data else if r =? 8 then Sack
  else if r =? 16 then Fin else if r =? 32 then Close else Unlisted r.

Definition MaxAcksSize : nat := 300.
Definition MaxPayloadSize : nat := 1300.

Definition sizeof_MagicNumber : nat := 4.
Definition sizeof_PacketType : nat := 2.
Definition sizeof_ConnectionID : nat := 2.
Definition sizeof_SeqNumberType : nat := 4.
Definition sizeof_PayloadSizeType : nat := 2.

Definition HeaderSize : nat :=
  sizeof_MagicNumber + sizeof_PacketType + sizeof_ConnectionID + sizeof_ConnectionID
  + sizeof_SeqNumberType + sizeof_SeqNumberType + sizeof_PayloadSizeType.

(** ** HeaderBuffer.hpp *)

Definition Magic_Number : Z := 305419896. (* 0x12345678 *)

(** [class Header : std::span<std::byte>], built from a pointer into a buffer and
    a claimed [size].  [start] is the memory from that pointer to the end of its
    allocation: an accessor is defined when its [subspan] starts inside the span
    and its [memcpy] stays inside the allocation. *)
Module Header.

Definition off_type : nat := sizeof_MagicNumber.
Definition off_src : nat := off_type + sizeof_PacketType.
Definition off_dst : nat := off_src + sizeof_ConnectionID.
Definition off_seq : nat := off_dst + sizeof_ConnectionID.
Definition off_ack : nat := off_seq + sizeof_SeqNumberType.
Definition off_size : nat := off_ack + sizeof_SeqNumberType.

Definition load (off n : nat) (start : list Z) (size : Z) : res Z :=
  defined_if ((Z.of_nat off <=? size) && (off + n <=? length start)%nat);;
  mret (le_combine (slice off n start)).

Definition store (off n : nat) (v : Z) (start : list Z) (size : Z) : res (list Z) :=
  defined_if ((Z.of_nat off <=? size) && (off + n <=? length start)%nat);;
  mret (list_inserts off (le_split n v) start).

Definition IsValid (start : list Z) (size : Z) : res bool :=
  if size <? Z.of_nat HeaderSize then Ret false
  else magic ← load 0 sizeof_MagicNumber start size; mret (magic =? Magic_Number).

Definition GetPacketType start size : res PacketType :=
  r ← load off_type sizeof_PacketType start size; mret (PacketType_of_raw r).
Definition GetSrcConnectionID := load off_src sizeof_ConnectionID.
Definition GetDstConnectionID := load off_dst sizeof_ConnectionID.
Definition GetSeqNumber := load off_seq sizeof_SeqNumberType.
Definition GetAckNumber := load off_ack sizeof_SeqNumberType.
Definition GetPayloadSize := load off_size sizeof_PayloadSizeType.

Definition SetMagic := store 0 sizeof_MagicNumber Magic_Number.
Definition SetPacketType t := store off_type sizeof_PacketType (PacketType_raw t).
Definition SetSrcConnectionID := store off_src sizeof_ConnectionID.
Definition SetDstConnectionID := store off_dst sizeof_ConnectionID.
Definition SetSeqNumber := store off_seq sizeof_SeqNumberType.
Definition SetAckNumber := store off_ack sizeof_SeqNumberType.
Definition SetPayloadSize := store off_size sizeof_PayloadSizeType.

End Header.

(** [memcpy] of [data] behind the header. *)
Definition copy_body (data : list Z) (start : list Z) : res (list Z) :=
  defined_if (HeaderSize + length data <=? length start)%nat;;
  mret (list_inserts HeaderSize data start).

(** The [n] bytes behind the header. *)
Definition read_body (n : nat) (start : list Z) : res (list Z) :=
  defined_if (HeaderSize + n <=? length start)%nat;;
  mret (slice HeaderSize n start).

(** Bytes read as consecutive [SeqNumberType]s. *)
Fixpoint words (n : nat) (bytes : list Z) : list Z :=
  match n with
  | O => []
  | S n => le_combine (take sizeof_SeqNumberType bytes) :: words n (drop sizeof_SeqNumberType bytes)
  end.

(** [class Acks]: the size is a 16-bit [PayloadSizeType]. *)
Module Acks.

Definition GetAcks (start : list Z) (size : Z) : res (list Z) :=
  ps ← Header.GetPayloadSize start (u16 size);
  let n := Z.to_nat (ps / 4) in
  body ← read_body (n * sizeof_SeqNumberType) start;
  mret (words n body).

Definition SetAcks (acks : list Z) (start : list Z) (size : Z) : res (list Z) :=
  start ← Header.SetPayloadSize (u16 (Z.of_nat (length acks) * 4)) start (u16 size);
  copy_body (acks ≫= le_split sizeof_SeqNumberType) start.

Definition IsValid (size : Z) : bool := 0 <? u16 size.

End Acks.

(** [class Payload]. *)
Module Payload.

Definition GetPayload (start : list Z) : res (list Z) :=
  ps ← Header.GetPayloadSize start (Z.of_nat HeaderSize);
  read_body (Z.to_nat ps) start.

Definition SetPayloadSize (n : Z) (start : list Z) (size : Z) : res (list Z) :=
  Header.SetPayloadSize (u16 n) start (u16 size).

Definition SetPayload (payload : list Z) (start : list Z) (size : Z) : res (list Z) :=
  start ← Header.SetPayloadSize (u16 (Z.of_nat (length payload))) start (u16 size);
  match payload with [] => mret start | _ => copy_body payload start end.

End Payload.

(** ** IPacket.hpp *)

(** [class IPacket].  Reading or writing the bytes behind the header can leave
    the buffer, so those methods are fallible; the header accessors are defined
    on every packet of at least [HeaderSize] bytes. *)
Class IPacket (P : Type) := {
  GetElement : P → list Z;
  GetPacketType : P → PacketType;
  SetPacketType : PacketType → P → P;
  GetSrcConnectionID : P → Z;
  SetSrcConnectionID : Z → P → P;
  GetDstConnectionID : P → Z;
  SetDstConnectionID : Z → P → P;
  GetSeqNumber : P → Z;
  SetSeqNumber : Z → P → P;
  GetAckNumber : P → Z;
  SetAckNumber : Z → P → P;
  SetMagic : P → P;
  IsValid : P → bool;
  GetDstAddr : P → ConnectionAddr;
  SetAddr : ConnectionAddr → P → P;
  GetPayloadLength : P → Z;   (* GetPayload().size() *)
  SetPayloadSize : Z → P → P;
  GetPayload : P → res (list Z);
  SetPayload : list Z → P → res P;
  GetAcks : P → res (list Z);
  SetAcks : list Z → P → res P;
  GetBuffer : P → res (list Z);
}.

(** What a packet says: its header fields, its peer and the bytes behind the
    header. *)
Record View := mkView {
  v_valid : bool;
  v_type : PacketType;
  v_src : Z;
  v_dst : Z;
  v_seq : Z;
  v_ack : Z;
  v_size : Z;
  v_addr : ConnectionAddr;
  v_body : list Z;
}.

Definition view `{IPacket P} (p : P) : View :=
  mkView (IsValid p) (GetPacketType p) (GetSrcConnectionID p) (GetDstConnectionID p)
    (GetSeqNumber p) (GetAckNumber p) (GetPayloadLength p) (GetDstAddr p)
    (drop HeaderSize (GetElement p)).

Definition v_SetMagic (v : View) : View :=
  let 'mkView _ ty sr ds sq ak sz ad bo := v in mkView true ty sr ds sq ak sz ad bo.
Definition v_SetPacketType (t : PacketType) (v : View) : View :=
  let 'mkView ok _ sr ds sq ak sz ad bo := v in
  mkView ok (PacketType_of_raw (u16 (PacketType_raw t))) sr ds sq ak sz ad bo.
Definition v_SetSrcConnectionID (x : Z) (v : View) : View :=
  let 'mkView ok ty _ ds sq ak sz ad bo := v in mkView ok ty (u16 x) ds sq ak sz ad bo.
Definition v_SetDstConnectionID (x : Z) (v : View) : View :=
  let 'mkView ok ty sr _ sq ak sz ad bo := v in mkView ok ty sr (u16 x) sq ak sz ad bo.
Definition v_SetSeqNumber (x : Z) (v : View) : View :=
  let 'mkView ok ty sr ds _ ak sz ad bo := v in mkView ok ty sr ds (u32 x) ak sz ad bo.
Definition v_SetAckNumber (x : Z) (v : View) : View :=
  let 'mkView ok ty sr ds sq _ sz ad bo := v in mkView ok ty sr ds sq (u32 x) sz ad bo.
Definition v_SetPayloadSize (x : Z) (v : View) : View :=
  let 'mkView ok ty sr ds sq ak _ ad bo := v in mkView ok ty sr ds sq ak (u16 x) ad bo.
Definition v_SetAddr (a : ConnectionAddr) (v : View) : View :=
  let 'mkView ok ty sr ds sq ak sz _ bo := v in mkView ok ty sr ds sq ak sz a bo.
Definition v_write (data : list Z) (v : View) : res View :=
  let 'mkView ok ty sr ds sq ak sz ad bo := v in
  defined_if (length data <=? length bo)%nat;;
  mret (mkView ok ty sr ds sq ak sz ad (list_inserts 0 data bo)).
Definition v_GetPayload (v : View) : res (list Z) :=
  defined_if (Z.to_nat (v_size v) <=? length (v_body v))%nat;;
  mret (take (Z.to_nat (v_size v)) (v_body v)).
Definition v_GetAcks (v : View) : res (list Z) :=
  let n := Z.to_nat (v_size v / 4) in
  defined_if (n * sizeof_SeqNumberType <=? length (v_body v))%nat;;
  mret (words n (take (n * sizeof_SeqNumberType) (v_body v))).

(** The laws every implementation of the interface satisfies: on a packet whose
    buffer holds a header ([PacketOk]), each method acts on the view. *)
Class IPacketLaws (P : Type) `{!IPacket P} := {
  PacketOk : P → Prop;
  view_SetMagic p : PacketOk p → PacketOk (SetMagic p) ∧ view (SetMagic p) = v_SetMagic (view p);
  view_SetPacketType t p : PacketOk p →
    PacketOk (SetPacketType t p) ∧ view (SetPacketType t p) = v_SetPacketType t (view p);
  view_SetSrcConnectionID x p : PacketOk p →
    PacketOk (SetSrcConnectionID x p) ∧
    view (SetSrcConnectionID x p) = v_SetSrcConnectionID x (view p);
  view_SetDstConnectionID x p : PacketOk p →
    PacketOk (SetDstConnectionID x p) ∧
    view (SetDstConnectionID x p) = v_SetDstConnectionID x (view p);
  view_SetSeqNumber x p : PacketOk p →
    PacketOk (SetSeqNumber x p) ∧ view (SetSeqNumber x p) = v_SetSeqNumber x (view p);
  view_SetAckNumber x p : PacketOk p →
    PacketOk (SetAckNumber x p) ∧ view (SetAckNumber x p) = v_SetAckNumber x (view p);
  view_SetPayloadSize x p : PacketOk p →
    PacketOk (SetPayloadSize x p) ∧ view (SetPayloadSize x p) = v_SetPayloadSize x (view p);
  view_SetAddr a p : PacketOk p →
    PacketOk (SetAddr a p) ∧ view (SetAddr a p) = v_SetAddr a (view p);
  view_SetPayload d p : PacketOk p →
    match SetPayload d p with
    | Ret p' => PacketOk p' ∧ Ret (view p') = v_write d (v_SetPayloadSize (Z.of_nat (length d)) (view p))
    | Err f => f = Undefined ∧ length (v_body (view p)) < length d
    end%nat;
  view_SetAcks l p : PacketOk p →
    match SetAcks l p with
    | Ret p' => PacketOk p' ∧
        Ret (view p') = v_write (l ≫= le_split 4) (v_SetPayloadSize (Z.of_nat (length l) * 4) (view p))
    | Err f => f = Undefined ∧ length (v_body (view p)) < 4 * length l
    end%nat;
  view_GetPayload p : PacketOk p → GetPayload p = v_GetPayload (view p);
  view_GetAcks p : PacketOk p → GetAcks p = v_GetAcks (view p);
}.

(** ** Packet.hpp, Packet.cpp *)

Record Packet := mkPacket {
  _element : list Z;
  _srcAddr : ConnectionAddr;
  pkt_dstAddr : ConnectionAddr;
  _time : Z;
}.

#[export] Instance Packet_eq_dec : EqDecision Packet.
Proof. solve_decision. Defined.

Module Packet.

(** [Packet(int size)]: a zeroed buffer. *)
Definition make (size : nat) : Packet :=
  mkPacket (replicate size 0) ConnectionAddr.default ConnectionAddr.default 0.

Definition with_element (e : list Z) (p : Packet) : Packet :=
  mkPacket e (_srcAddr p) (pkt_dstAddr p) (_time p).

Definition size_of (p : Packet) : Z := Z.of_nat (length (_element p)).

(** Call a [Header] reader, or a writer, on [_element]. *)
Definition read {A} (d : A) (f : list Z → Z → res A) (p : Packet) : A :=
  from_res d (f (_element p) (size_of p)).
Definition write (f : list Z → Z → res (list Z)) (p : Packet) : Packet :=
  with_element (from_res (_element p) (f (_element p) (size_of p))) p.
Definition try_write (f : list Z → Z → res (list Z)) (p : Packet) : res Packet :=
  e ← f (_element p) (size_of p); mret (with_element e p).

Definition GetPacketType := read PT_None Header.GetPacketType.
Definition SetPacketType t := write (Header.SetPacketType t).
Definition GetSrcConnectionID := read 0 Header.GetSrcConnectionID.
Definition SetSrcConnectionID x := write (Header.SetSrcConnectionID (u16 x)).
Definition GetDstConnectionID := read 0 Header.GetDstConnectionID.
Definition SetDstConnectionID x := write (Header.SetDstConnectionID (u16 x)).
Definition GetSeqNumber := read 0 Header.GetSeqNumber.
Definition SetSeqNumber x := write (Header.SetSeqNumber (u32 x)).
Definition GetAckNumber := read 0 Header.GetAckNumber.
Definition SetAckNumber x := write (Header.SetAckNumber (u32 x)).
Definition SetMagic := write Header.SetMagic.
Definition IsValid := read false Header.IsValid.
Definition SetPayloadSize x := write (Payload.SetPayloadSize x).
Definition GetPayload (p : Packet) : res (list Z) := Payload.GetPayload (_element p).
Definition SetPayload d := try_write (Payload.SetPayload d).
Definition GetAcks (p : Packet) : res (list Z) := Acks.GetAcks (_element p) (size_of p).
Definition SetAcks l := try_write (Acks.SetAcks l).
Definition GetPayloadLength := read 0 Header.GetPayloadSize.

Definition GetBuffer (p : Packet) : res (list Z) :=
  ps ← Header.GetPayloadSize (_element p) (size_of p);
  defined_if (HeaderSize + Z.to_nat ps <=? length (_element p))%nat;;
  mret (take (HeaderSize + Z.to_nat ps) (_element p)).

Definition SetAddr (a : ConnectionAddr) (p : Packet) : Packet :=
  mkPacket (_element p) (_srcAddr p) a (_time p).
Definition GetTime (p : Packet) : Z := _time p.
Definition SetTime (t : Z) (p : Packet) : Packet :=
  mkPacket (_element p) (_srcAddr p) (pkt_dstAddr p) t.

End Packet.

#[export] Instance Packet_IPacket : IPacket Packet := {
  GetElement := _element;
  GetPacketType := Packet.GetPacketType;
  SetPacketType := Packet.SetPacketType;
  GetSrcConnectionID := Packet.GetSrcConnectionID;
  SetSrcConnectionID := Packet.SetSrcConnectionID;
  GetDstConnectionID := Packet.GetDstConnectionID;
  SetDstConnectionID := Packet.SetDstConnectionID;
  GetSeqNumber := Packet.GetSeqNumber;
  SetSeqNumber := Packet.SetSeqNumber;
  GetAckNumber := Packet.GetAckNumber;
  SetAckNumber := Packet.SetAckNumber;
  SetMagic := Packet.SetMagic;
  IsValid := Packet.IsValid;
  GetDstAddr := pkt_dstAddr;
  SetAddr := Packet.SetAddr;
  GetPayloadLength := Packet.GetPayloadLength;
  SetPayloadSize := Packet.SetPayloadSize;
  GetPayload := Packet.GetPayload;
  SetPayload := Packet.SetPayload;
  GetAcks := Packet.GetAcks;
  SetAcks := Packet.SetAcks;
  GetBuffer := Packet.GetBuffer;
}.

(** ** The implementation satisfies the laws *)

(** Buffers of real packets: a header fits, and the size fits the 16-bit size of
    [Acks] and [Payload]. *)
Definition element_ok (e : list Z) : Prop := (HeaderSize ≤ length e)%nat ∧ Z.of_nat (length e) < 65536.

Definition field (off n : nat) (e : list Z) : Z := le_combine (slice off n e).

(** The view of a buffer, field by field. *)
Definition view_of (e : list Z) (a : ConnectionAddr) : View :=
  mkView (field 0 4 e =? Magic_Number) (PacketType_of_raw (field 4 2 e)) (field 6 2 e)
    (field 8 2 e) (field 10 4 e) (field 14 4 e) (field 18 2 e) a (drop HeaderSize e).

Lemma size_u16 e : element_ok e → u16 (Z.of_nat (length e)) = Z.of_nat (length e).
Proof. intros [_ H]. apply wrap_small. lia. Qed.

Lemma load_ok off n e size :
  (off + n ≤ HeaderSize)%nat → (HeaderSize ≤ length e)%nat → Z.of_nat HeaderSize ≤ size →
  Header.load off n e size = Ret (field off n e).
Proof.
  intros H1 H2 H3. unfold Header.load, defined_if.
  rewrite (proj2 (Z.leb_le _ _)), (proj2 (Nat.leb_le _ _)) by lia. done.
Qed.

Lemma store_ok off n v e size :
  (off + n ≤ HeaderSize)%nat → (HeaderSize ≤ length e)%nat → Z.of_nat HeaderSize ≤ size →
  Header.store off n v e size = Ret (list_inserts off (le_split n v) e).
Proof.
  intros H1 H2 H3. unfold Header.store, defined_if.
  rewrite (proj2 (Z.leb_le _ _)), (proj2 (Nat.leb_le _ _)) by lia. done.
Qed.

Lemma field_inserts_eq off n v e :
  (off + n ≤ length e)%nat →
  field off n (list_inserts off (le_split n v) e) = wrap (8 * Z.of_nat n) v.
Proof.
  intros H. unfold field.
  pose proof (slice_inserts_eq off (le_split n v) e) as E.
  rewrite length_le_split in E. rewrite E by lia. apply le_combine_split.
Qed.

Lemma field_inserts_ne off n off' k e :
  (off + n ≤ off' ∨ off' + length k ≤ off)%nat →
  field off n (list_inserts off' k e) = field off n e.
Proof. intros H. unfold field. by rewrite slice_inserts_ne. Qed.

Lemma drop_inserts_lt {A} n off (k e : list A) :
  (off + length k ≤ n)%nat → drop n (list_inserts off k e) = drop n e.
Proof.
  intros H. apply list_eq. intros i. rewrite !lookup_drop, list_lookup_inserts_ge by lia. done.
Qed.

Lemma drop_inserts_ge {A} n (k e : list A) :
  drop n (list_inserts n k e) = list_inserts 0 k (drop n e).
Proof.
  apply list_eq. intros i. rewrite lookup_drop.
  destruct (decide (i < length k)%nat) as [Hi|Hi].
  - destruct (decide (n + i < length e)%nat) as [Hl|Hl].
    + rewrite !list_lookup_inserts by (rewrite ?length_drop; lia). f_equal. lia.
    + rewrite !lookup_ge_None_2; rewrite ?length_inserts, ?length_drop; (done || lia).
  - rewrite !list_lookup_inserts_ge, lookup_drop by lia. done.
Qed.

Create Rewrite HintDb ft_field.
#[export] Hint Rewrite field_inserts_eq field_inserts_ne @drop_inserts_lt
  using (rewrite ?length_le_split; lia) : ft_field.

Section PacketLaws.
Implicit Types (p : Packet) (e : list Z).

Definition Packet_ok p : Prop := element_ok (_element p).

Lemma view_Packet p : Packet_ok p → view p = view_of (_element p) (pkt_dstAddr p).
Proof.
  intros [H1 H2]. unfold view, view_of. cbn.
  unfold Packet.IsValid, Packet.GetPacketType, Packet.GetSrcConnectionID,
    Packet.GetDstConnectionID, Packet.GetSeqNumber, Packet.GetAckNumber,
    Packet.GetPayloadLength, Packet.read, Header.IsValid, Header.GetPacketType,
    Header.GetSrcConnectionID, Header.GetDstConnectionID, Header.GetSeqNumber,
    Header.GetAckNumber, Header.GetPayloadSize, Packet.size_of.
  rewrite (proj2 (Z.ltb_ge _ _)) by lia.
  rewrite !load_ok by (lia || (vm_compute; lia)). done.
Qed.

Lemma element_write off n v (f : list Z → Z → res (list Z)) p :
  Packet_ok p → (off + n ≤ HeaderSize)%nat →
  f (_element p) (Packet.size_of p) = Header.store off n v (_element p) (Packet.size_of p) →
  Packet.write f p = Packet.with_element (list_inserts off (le_split n v) (_element p)) p.
Proof.
  intros [H1 H2] Hoff Hf. unfold Packet.write.
  rewrite Hf, store_ok by (unfold Packet.size_of; lia). done.
Qed.

(** The one lemma behind every header setter. *)
Lemma header_write off n v (f : list Z → Z → res (list Z)) p :
  Packet_ok p → (off + n ≤ HeaderSize)%nat →
  f (_element p) (Packet.size_of p) = Header.store off n v (_element p) (Packet.size_of p) →
  Packet_ok (Packet.write f p) ∧
  view (Packet.write f p) = view_of (list_inserts off (le_split n v) (_element p)) (pkt_dstAddr p).
Proof.
  intros H Hoff Hf. rewrite (element_write off n v) by done. destruct H as [H1 H2].
  assert (Packet_ok (Packet.with_element (list_inserts off (le_split n v) (_element p)) p)) as Hok.
  { split; cbn; rewrite length_inserts; done. }
  split; [done|]. rewrite view_Packet by done. done.
Qed.

Lemma u16_u16 x : u16 (u16 x) = u16 x.
Proof. apply wrap_wrap. Qed.
Lemma u32_u32 x : u32 (u32 x) = u32 x.
Proof. apply wrap_wrap. Qed.

(** Writing the payload size through [Acks] or [Payload]. *)
Lemma store_payload_size x e :
  element_ok e →
  Header.SetPayloadSize (u16 x) e (u16 (Z.of_nat (length e))) =
  Ret (list_inserts 18 (le_split 2 (u16 x)) e).
Proof.
  intros He. rewrite size_u16 by done. destruct He. apply store_ok; (lia || (vm_compute; lia)).
Qed.

Lemma view_of_payload_size x e a :
  element_ok e →
  view_of (list_inserts 18 (le_split 2 (u16 x)) e) a = v_SetPayloadSize x (view_of e a).
Proof.
  intros [H1 H2]. change HeaderSize with 20%nat in *. unfold view_of.
  change HeaderSize with 20%nat. autorewrite with ft_field. cbn -[drop]. by rewrite u16_u16.
Qed.

(** Writing behind the header. *)
Lemma copy_body_view (d : list Z) e a :
  element_ok e →
  match copy_body d e with
  | Ret e' => element_ok e' ∧ Ret (view_of e' a) = v_write d (view_of e a)
  | Err f => f = Undefined ∧ (length (drop HeaderSize e) < length d)%nat
  end.
Proof.
  intros [H1 H2]. unfold copy_body, v_write, view_of, defined_if. rewrite length_drop.
  destruct (Nat.leb_spec (HeaderSize + length d) (length e)) as [H|H]; cbn -[HeaderSize].
  - split; [split; rewrite length_inserts; lia|].
    rewrite (proj2 (Nat.leb_le _ _)) by lia. cbn -[HeaderSize]. f_equal.
    rewrite drop_inserts_ge. rewrite !field_inserts_ne by (left; vm_compute; lia). done.
  - split; [done|lia].
Qed.

End PacketLaws.

Ltac header_law off n v :=
  intros H; pose proof (header_write off n v) as HW;
  edestruct HW as [? HV]; [exact H| |reflexivity|]; [vm_compute; lia|];
  split; [assumption|]; etransitivity; [apply HV|];
  rewrite view_Packet by exact H; destruct H as [H1 H2]; unfold view_of;
  change HeaderSize with 20%nat in *; autorewrite with ft_field;
  cbn -[drop]; rewrite ?u16_u16, ?u32_u32; reflexivity.

Section PacketBody.
Implicit Types (p : Packet) (e : list Z).

Lemma element_ok_inserts off k e : element_ok e → element_ok (list_inserts off k e).
Proof. unfold element_ok. by rewrite length_inserts. Qed.

Lemma Packet_SetPayloadSize x p :
  Packet_ok p → Packet_ok (SetPayloadSize x p) ∧ view (SetPayloadSize x p) = v_SetPayloadSize x (view p).
Proof.
  intros H. change (SetPayloadSize x p) with (Packet.SetPayloadSize x p).
  assert (Packet.SetPayloadSize x p =
    Packet.with_element (list_inserts 18 (le_split 2 (u16 x)) (_element p)) p) as ->.
  { unfold Packet.SetPayloadSize, Packet.write, Payload.SetPayloadSize, Packet.size_of.
    by rewrite store_payload_size by done. }
  assert (Packet_ok (Packet.with_element (list_inserts 18 (le_split 2 (u16 x)) (_element p)) p)).
  { by apply (element_ok_inserts 18). }
  split; [done|]. rewrite !view_Packet by done.
  exact (view_of_payload_size x _ (pkt_dstAddr p) H).
Qed.

(** The shape of [Payload::SetPayload] and [Acks::SetAcks]: the size field, then
    the bytes. *)
Lemma size_then_body n (d : list Z) p :
  Packet_ok p →
  match (e ← Ret (list_inserts 18 (le_split 2 (u16 n)) (_element p));
         e ← copy_body d e; mret (Packet.with_element e p)) with
  | Ret p' => Packet_ok p' ∧ Ret (view p') = v_write d (v_SetPayloadSize n (view p))
  | Err f => f = Undefined ∧ (length (v_body (view p)) < length d)%nat
  end.
Proof.
  intros H. rewrite (view_Packet p) by done. rewrite <- view_of_payload_size by done.
  set (e := list_inserts 18 _ _). cbn [mbind res_bind].
  assert (He : element_ok e).
  { by apply element_ok_inserts. }
  assert (Hl : length e = length (_element p)) by (unfold e; by rewrite length_inserts).
  pose proof (copy_body_view d e (pkt_dstAddr p) He) as HC.
  destruct (copy_body d e) as [e'|f]; cbn -[view v_write v_SetPayloadSize HeaderSize].
  - destruct HC as [He' HV]. split; [done|]. rewrite view_Packet by done. done.
  - rewrite length_drop, Hl in HC. rewrite length_drop. done.
Qed.

Lemma Packet_SetPayload (d : list Z) p :
  Packet_ok p →
  match SetPayload d p with
  | Ret p' => Packet_ok p' ∧ Ret (view p') = v_write d (v_SetPayloadSize (Z.of_nat (length d)) (view p))
  | Err f => f = Undefined ∧ (length (v_body (view p)) < length d)%nat
  end.
Proof.
  intros H. cbn [SetPayload Packet_IPacket]. unfold Packet.SetPayload, Packet.try_write, Payload.SetPayload, Packet.size_of.
  rewrite store_payload_size by done.
  pose proof (size_then_body (Z.of_nat (length d)) d p H) as HS.
  destruct d as [|b d]; [|exact HS].
  cbn [mbind res_bind] in *. unfold copy_body in HS.
  rewrite (proj2 (defined_if_ret _)) in HS; [exact HS|].
  apply Nat.leb_le. rewrite length_inserts. destruct H. cbn -[HeaderSize]. lia.
Qed.

Lemma length_words_bytes (l : list Z) : length (l ≫= le_split 4) = (4 * length l)%nat.
Proof. induction l as [|x l IH]; [done|]. cbn -[le_split]. rewrite length_app, IH, length_le_split. lia. Qed.

Lemma Packet_SetAcks (l : list Z) p :
  Packet_ok p →
  match SetAcks l p with
  | Ret p' => Packet_ok p' ∧
      Ret (view p') = v_write (l ≫= le_split 4) (v_SetPayloadSize (Z.of_nat (length l) * 4) (view p))
  | Err f => f = Undefined ∧ (length (v_body (view p)) < 4 * length l)%nat
  end.
Proof.
  intros H. cbn [SetAcks Packet_IPacket]. unfold Packet.SetAcks, Packet.try_write, Acks.SetAcks, Packet.size_of.
  rewrite store_payload_size by done.
  pose proof (size_then_body (Z.of_nat (length l) * 4) (l ≫= le_split 4) p H) as HS.
  rewrite length_words_bytes in HS. exact HS.
Qed.

Lemma read_body_view n e a :
  element_ok e → read_body n e =
  (defined_if (n <=? length (v_body (view_of e a)))%nat;; mret (take n (v_body (view_of e a)))).
Proof.
  intros [H1 H2]. unfold read_body, defined_if. cbn -[HeaderSize]. rewrite length_drop.
  destruct (Nat.leb_spec (HeaderSize + n) (length e)), (Nat.leb_spec n (length e - HeaderSize)); try lia; done.
Qed.

Lemma Packet_GetPayload p : Packet_ok p → GetPayload p = v_GetPayload (view p).
Proof.
  intros H. rewrite view_Packet by done. cbn [GetPayload Packet_IPacket].
  unfold Packet.GetPayload, Payload.GetPayload, Header.GetPayloadSize.
  destruct H as [H1 H2]. rewrite load_ok by (lia || (vm_compute; lia)).
  cbn [mbind res_bind]. rewrite (read_body_view _ _ (pkt_dstAddr p)) by done. done.
Qed.

Lemma Packet_GetAcks p : Packet_ok p → GetAcks p = v_GetAcks (view p).
Proof.
  intros H. rewrite view_Packet by done. cbn [GetAcks Packet_IPacket].
  unfold Packet.GetAcks, Acks.GetAcks, Header.GetPayloadSize, Packet.size_of.
  rewrite size_u16 by done. rewrite load_ok by (destruct H; (lia || (vm_compute; lia))).
  cbn [mbind res_bind]. rewrite (read_body_view _ _ (pkt_dstAddr p)) by done.
  unfold v_GetAcks. rewrite bind_assoc. reflexivity.
Qed.

End PacketBody.

#[export] Program Instance Packet_IPacketLaws : IPacketLaws Packet := {
  PacketOk := Packet_ok;
}.
Next Obligation. intros p. header_law 0%nat 4%nat Magic_Number. Qed.
Next Obligation. intros t p. header_law 4%nat 2%nat (PacketType_raw t). Qed.
Next Obligation. intros x p. header_law 6%nat 2%nat (u16 x). Qed.
Next Obligation. intros x p. header_law 8%nat 2%nat (u16 x). Qed.
Next Obligation. intros x p. header_law 10%nat 4%nat (u32 x). Qed.
Next Obligation. intros x p. header_law 14%nat 4%nat (u32 x). Qed.
Next Obligation. apply Packet_SetPayloadSize. Qed.
Next Obligation.
  intros a p H. assert (Packet_ok (Packet.SetAddr a p)) by exact H.
  split; [done|]. cbn -[view]. by rewrite !view_Packet.
Qed.
Next Obligation. apply Packet_SetPayload. Qed.
Next Obligation. apply Packet_SetAcks. Qed.
Next Obligation. apply Packet_GetPayload. Qed.
Next Obligation. apply Packet_GetAcks. Qed.

(** ** What the packet format promises *)

Lemma PacketType_roundtrip t :
  (∀ r, t ≠ Unlisted r) → PacketType_of_raw (u16 (PacketType_raw t)) = t.
Proof. by destruct t as [| | | | | | | |r]; intros H; [..|destruct (H r)]. Qed.

Lemma words_flat (l : list Z) (rest : list Z) :
  words (length l) ((l ≫= le_split 4) ++ rest) = u32 <$> l.
Proof.
  induction l as [|x l IH]; [done|]. cbn [length words]. rewrite bind_cons, <- app_assoc.
  change sizeof_SeqNumberType with 4%nat.
  rewrite take_app_length', drop_app_length' by (by rewrite length_le_split).
  rewrite IH. cbn [fmap list_fmap]. f_equal. apply le_combine_split.
Qed.

Lemma slice_split {A} off n m (l : list A) : slice off (n + m) l = slice off n l ++ slice (off + n) m l.
Proof. unfold slice. rewrite <- drop_drop, take_take_drop. done. Qed.

(** Read back the start of a body after [v_write]. *)
Lemma take_inserts_0 {A} (k l : list A) : (length k ≤ length l)%nat → take (length k) (list_inserts 0 k l) = k.
Proof. intros H. apply (slice_inserts_eq 0). lia. Qed.

Section Interface.
Context {P : Type} `{HP : !IPacket P} {HL : IPacketLaws P}.
Implicit Types p : P.

(** The header of a packet with all seven fields stored. *)
Definition stamp (t : PacketType) (src dst seq ack size : Z) p : P :=
  SetMagic (SetPacketType t (SetSrcConnectionID src (SetDstConnectionID dst
    (SetSeqNumber seq (SetAckNumber ack (SetPayloadSize size p)))))).

Lemma stamp_ok t src dst seq ack size p :
  PacketOk p →
  PacketOk (stamp t src dst seq ack size p) ∧
  view (stamp t src dst seq ack size p) =
    mkView true (PacketType_of_raw (u16 (PacketType_raw t))) (u16 src) (u16 dst)
      (u32 seq) (u32 ack) (u16 size) (v_addr (view p)) (v_body (view p)).
Proof.
  intros H. unfold stamp.
  apply (view_SetPayloadSize size) in H as [H E1].
  apply (view_SetAckNumber ack) in H as [H E2].
  apply (view_SetSeqNumber seq) in H as [H E3].
  apply (view_SetDstConnectionID dst) in H as [H E4].
  apply (view_SetSrcConnectionID src) in H as [H E5].
  apply (view_SetPacketType t) in H as [H E6].
  apply view_SetMagic in H as [H E7]. split; [done|].
  rewrite E7, E6, E5, E4, E3, E2, E1. by destruct (view p).
Qed.

(** the header accessors of [IPacket] form a record: storing the seven fields
    makes the packet valid, every field reads back as stored (reduced to its width),
    and neither the peer address nor any byte behind the header changes. *)
Theorem header_roundtrip t src dst seq ack size p :
  PacketOk p → (∀ r, t ≠ Unlisted r) →
  0 ≤ src < 2 ^ 16 → 0 ≤ dst < 2 ^ 16 → 0 ≤ seq < 2 ^ 32 → 0 ≤ ack < 2 ^ 32 → 0 ≤ size < 2 ^ 16 →
  let p' := stamp t src dst seq ack size p in
  IsValid p' = true ∧ GetPacketType p' = t ∧ GetSrcConnectionID p' = src ∧
  GetDstConnectionID p' = dst ∧ GetSeqNumber p' = seq ∧ GetAckNumber p' = ack ∧
  GetPayloadLength p' = size ∧ GetDstAddr p' = GetDstAddr p ∧
  drop HeaderSize (GetElement p') = drop HeaderSize (GetElement p).
Proof.
  intros H Ht H1 H2 H3 H4 H5 p'.
  destruct (stamp_ok t src dst seq ack size p H) as [_ E]. fold p' in E.
  rewrite PacketType_roundtrip, !wrap_small in E by done.
  unfold view in E. injection E. clearbody p'. intros. repeat split; assumption.
Qed.

(** Storing acknowledgements changes the body and the payload size only, and they read
    back. *)
Lemma SetAcks_spec (l : list Z) p :
  PacketOk p → (length l ≤ MaxAcksSize)%nat →
  (4 * length l ≤ length (v_body (view p)))%nat →
  Forall (λ a, 0 ≤ a < 2 ^ 32) l →
  ∃ p' sz bo, SetAcks l p = Ret p' ∧ PacketOk p' ∧ GetAcks p' = Ret l ∧
    view p' = (let 'mkView ok ty sr ds sq ak _ ad _ := view p in mkView ok ty sr ds sq ak sz ad bo).
Proof.
  intros H Hl Hroom Hrange. unfold MaxAcksSize in *.
  pose proof (view_SetAcks l p H) as HS. destruct (SetAcks l p) as [p'|f]; [|lia].
  destruct HS as [Hp' HV].
  assert (length (l ≫= le_split 4) ≤ length (v_body (view p)))%nat as Hfit
    by (rewrite length_words_bytes; lia).
  destruct (view p) as [ok ty sr ds sq ak sz ad bo] eqn:Ev.
  cbn [v_write v_SetPayloadSize v_body] in *.
  rewrite (proj2 (defined_if_ret _)) in HV by (apply Nat.leb_le; lia).
  cbn [mbind res_bind mret res_ret] in HV. apply (inj Ret) in HV.
  eexists p', _, _. split; [done|]. split; [done|]. split; [|done].
  rewrite view_GetAcks by done. rewrite HV. unfold v_GetAcks. cbn [v_size v_body].
  rewrite wrap_small, Z.div_mul, Nat2Z.id by lia. rewrite length_inserts.
  change sizeof_SeqNumberType with 4%nat.
  rewrite (proj2 (defined_if_ret _)) by (apply Nat.leb_le; rewrite length_words_bytes in Hfit; lia).
  cbn [mbind res_bind mret res_ret]. f_equal.
  replace (length l * 4)%nat with (length (l ≫= le_split 4)) by (rewrite length_words_bytes; lia).
  rewrite take_inserts_0 by done.
  rewrite <- (app_nil_r (l ≫= le_split 4)), words_flat.
  apply list_eq. intros i. rewrite list_lookup_fmap.
  destruct (l !! i) as [a|] eqn:Ei; [|done]. cbn. f_equal.
  apply wrap_small. by eapply (Forall_lookup_1 _ l i a) in Hrange.
Qed.

(** a list of at most [MaxAcksSize] acknowledgements stored in a packet whose
    body has room for it reads back unchanged, and the rest of the header is kept. *)
Theorem acks_roundtrip (l : list Z) p :
  PacketOk p → (length l ≤ MaxAcksSize)%nat →
  (4 * MaxAcksSize ≤ length (GetElement p) - HeaderSize)%nat →
  Forall (λ a, 0 ≤ a < 2 ^ 32) l →
  ∃ p', SetAcks l p = Ret p' ∧ GetAcks p' = Ret l ∧
    GetSeqNumber p' = GetSeqNumber p ∧ GetAckNumber p' = GetAckNumber p ∧
    GetPacketType p' = GetPacketType p ∧ GetSrcConnectionID p' = GetSrcConnectionID p ∧
    GetDstConnectionID p' = GetDstConnectionID p.
Proof.
  intros H Hl Hroom Hrange.
  destruct (SetAcks_spec l p H Hl) as (p' & sz & bo & E & _ & Hget & HV); [|done|].
  { cbn -[HeaderSize]. rewrite length_drop. lia. }
  exists p'. unfold view in HV. injection HV. intros. repeat split; congruence.
Qed.

End Interface.

(** One store per field, in the order [stamp] makes them. *)
Definition stamped (t : PacketType) (src dst seq ack size : Z) (e : list Z) : list Z :=
  list_inserts 0 (le_split 4 Magic_Number) (list_inserts 4 (le_split 2 (PacketType_raw t))
    (list_inserts 6 (le_split 2 (u16 src)) (list_inserts 8 (le_split 2 (u16 dst))
      (list_inserts 10 (le_split 4 (u32 seq)) (list_inserts 14 (le_split 4 (u32 ack))
        (list_inserts 18 (le_split 2 (u16 size)) e)))))).

Lemma element_stamp t src dst seq ack size (p : Packet) :
  PacketOk p → _element (stamp t src dst seq ack size p) = stamped t src dst seq ack size (_element p).
Proof.
  intros H0. unfold stamp.
  pose proof (proj1 (view_SetPayloadSize size _ H0)) as H1.
  pose proof (proj1 (view_SetAckNumber ack _ H1)) as H2.
  pose proof (proj1 (view_SetSeqNumber seq _ H2)) as H3.
  pose proof (proj1 (view_SetDstConnectionID dst _ H3)) as H4.
  pose proof (proj1 (view_SetSrcConnectionID src _ H4)) as H5.
  pose proof (proj1 (view_SetPacketType t _ H5)) as H6.
  unfold SetMagic, SetPacketType, SetSrcConnectionID, SetDstConnectionID, SetSeqNumber,
    SetAckNumber, SetPayloadSize, Packet_IPacket,
    Packet.SetMagic, Packet.SetPacketType, Packet.SetSrcConnectionID, Packet.SetDstConnectionID,
    Packet.SetSeqNumber, Packet.SetAckNumber in *.
  rewrite (element_write 0 4 Magic_Number Header.SetMagic _ H6 ltac:(vm_compute; lia) eq_refl).
  rewrite (element_write 4 2 (PacketType_raw t) (Header.SetPacketType t) _ H5 ltac:(vm_compute; lia) eq_refl).
  rewrite (element_write 6 2 (u16 src) (Header.SetSrcConnectionID (u16 src)) _ H4 ltac:(vm_compute; lia) eq_refl).
  rewrite (element_write 8 2 (u16 dst) (Header.SetDstConnectionID (u16 dst)) _ H3 ltac:(vm_compute; lia) eq_refl).
  rewrite (element_write 10 4 (u32 seq) (Header.SetSeqNumber (u32 seq)) _ H2 ltac:(vm_compute; lia) eq_refl).
  rewrite (element_write 14 4 (u32 ack) (Header.SetAckNumber (u32 ack)) _ H1 ltac:(vm_compute; lia) eq_refl).
  unfold stamped, Packet.with_element. cbn [_element]. do 6 f_equal.
  unfold Packet.SetPayloadSize, Packet.write, Payload.SetPayloadSize, Packet.size_of.
  rewrite store_payload_size by done. done.
Qed.

Create Rewrite HintDb ft_slice.
Lemma slice_store_eq off n v (e : list Z) :
  (off + n ≤ length e)%nat → slice off n (list_inserts off (le_split n v) e) = le_split n v.
Proof. intros H. pose proof (slice_inserts_eq off (le_split n v) e) as E. rewrite length_le_split in E. auto. Qed.
#[export] Hint Rewrite slice_store_eq @slice_inserts_ne
  using (rewrite ?length_inserts, ?length_le_split; lia) : ft_slice.

(** the byte layout on the wire: after [stamp], the first [HeaderSize] bytes of
    a packet are the little-endian magic, type, source id, destination id, sequence
    number, acknowledgement number and payload size, in this order. *)
Theorem header_wire_format t src dst seq ack size (p : Packet) :
  PacketOk p →
  take HeaderSize (GetElement (stamp t src dst seq ack size p)) =
    le_split 4 Magic_Number ++ le_split 2 (PacketType_raw t) ++ le_split 2 (u16 src)
    ++ le_split 2 (u16 dst) ++ le_split 4 (u32 seq) ++ le_split 4 (u32 ack) ++ le_split 2 (u16 size).
Proof.
  intros H. cbn [GetElement Packet_IPacket]. rewrite element_stamp by done.
  destruct H as [H _]. change HeaderSize with 20%nat in *.
  set (e := _element p) in *. set (e' := stamped _ _ _ _ _ _ e).
  change (take 20 e') with (slice 0 (4 + (2 + (2 + (2 + (4 + (4 + 2)))))) e').
  rewrite !slice_split. cbn [Nat.add]. unfold e', stamped.
  by autorewrite with ft_slice.
Qed.

(** [IsValid] checks the magic number only: a received datagram can claim a
    payload larger than its buffer, and then [GetPayload] and [GetAcks] read past
    the end of the buffer although [IsValid] holds. *)
Theorem IsValid_does_not_bound_payload :
  ∃ p : Packet, PacketOk p ∧ length (GetElement p) = 1400%nat ∧ IsValid p = true ∧
    GetPacketType p = Sack ∧ GetPayload p = Err Undefined ∧ GetAcks p = Err Undefined.
Proof.
  exists (stamp Sack 1 2 3 4 65535 (Packet.make 1400)).
  split; [split; vm_compute; (lia || discriminate || reflexivity)|].
  repeat split; vm_compute; reflexivity.
Qed.

Lemma Packet_make_ok n : (HeaderSize ≤ n)%nat → Z.of_nat n < 65536 → PacketOk (Packet.make n).
Proof. intros. unfold PacketOk, Packet_IPacketLaws, Packet_ok, element_ok, Packet.make. cbn -[HeaderSize]. by rewrite length_replicate. Qed.

(** ** Witnesses *)

Lemma header_roundtrip_witness :
  GetSeqNumber (stamp Data 7 9 100 42 1300 (Packet.make 1400)) = 100.
Proof.
  assert (H : PacketOk (Packet.make 1400)) by (apply Packet_make_ok; vm_compute; [lia|reflexivity]).
  assert (H' : ∀ r, Data ≠ Unlisted r) by discriminate.
  apply (header_roundtrip Data 7 9 100 42 1300 (Packet.make 1400) H H'); lia.
Defined.

Lemma acks_roundtrip_witness :
  ∃ p', SetAcks [5; 4294967294; 6] (Packet.make 1400) = Ret p' ∧ GetAcks p' = Ret [5; 4294967294; 6].
Proof.
  destruct (acks_roundtrip [5; 4294967294; 6] (Packet.make 1400)) as (p' & H1 & H2 & _).
  - apply Packet_make_ok; vm_compute; [lia|reflexivity].
  - vm_compute; lia.
  - vm_compute; lia.
  - repeat constructor; lia.
  - exists p'. split; [exact H1|exact H2].
Defined.

Lemma header_wire_format_witness :
  take 20 (GetElement (stamp Sack 1 2 3 4 8 (Packet.make 1400))) =
    [120; 86; 52; 18; 8; 0; 1; 0; 2; 0; 3; 0; 0; 0; 4; 0; 0; 0; 8; 0].
Proof.
  etransitivity;
    [apply (header_wire_format Sack 1 2 3 4 8 (Packet.make 1400));
     apply Packet_make_ok; vm_compute; [lia|reflexivity]|reflexivity].
Defined.
