(* ===== verification/MultiList.v ===== *)
(** * MultiList
    [LockedList/include/MultiList.hpp]: a list of chunks with a cached size and
    two-level iterators, and the proof that it implements a plain list.  The other
    files use plain lists for [IPacket::List] and [OutgoingPacket::List], which the
    refinement theorems of this file justify. *)
From S2P Require Import Prelude.

(** [std::list<std::list<T>> _lists; size_t _size]. *)
Record MultiList (T : Type) := mkMultiList {
  _lists : list (list T);
  _size : Z;
}.
Arguments mkMultiList {_} _ _.
Arguments _lists {_} _.
Arguments _size {_} _.

(** [Iterator] and [ConstIterator]: [_it1] is the position of the chunk ([length
    _lists] for [_lists.end()]), [_it2] the position in it, [None] for the
    value-initialised iterator. *)
Record Iterator := mkIterator {
  _it1 : nat;
  _it2 : option nat;
}.

Module MultiList.
Section Operations.
Context {T : Type}.
Implicit Types (m this that : MultiList T) (c items : list T) (it b e : Iterator).

Definition Size : nat := 10.

Definition make : MultiList T := mkMultiList [] 0.

(** Move construction and move assignment leave the source empty. *)
Definition move that : MultiList T * MultiList T := (that, make).

(** The loop of [TryGenerate]: [out], [osz] are the result's chunks and size. *)
Fixpoint TryGenerate_loop (ls : list (list T)) (sz size : Z) (out : list (list T)) (osz : Z)
    : MultiList T * MultiList T :=
  match ls with
  | [] => (mkMultiList out osz, mkMultiList [] sz)
  | front :: rest =>
      if (size =? 0)%Z then (mkMultiList out osz, mkMultiList ls sz) else
      let frontSize := Z.of_nat (length front) in
      if (size <? frontSize)%Z then
        (mkMultiList (out ++ [take (Z.to_nat size) front]) (u64 (osz + size)),
         mkMultiList (drop (Z.to_nat size) front :: rest) (u64 (sz - size)))
      else
        TryGenerate_loop rest (u64 (sz - frontSize)) (size - frontSize)
          (out ++ [front]) (u64 (osz + frontSize))
  end.

(** Returns the generated list and what is left of [*this]. *)
Definition TryGenerate (size : Z) m : MultiList T * MultiList T :=
  TryGenerate_loop (_lists m) (_size m) size [] 0.

Definition push_back (element : T) m : MultiList T :=
  let ls := match _lists m with [] => [[]] | ls => ls end in
  mkMultiList
    (on_back (λ c, if length c <? Size then [c ++ [element]] else [c; [element]]) ls)
    (u64 (_size m + 1)).

(** [splice(MultiList&& that)]: [*this] and what is left of [that]. *)
Definition splice this that : MultiList T * MultiList T :=
  let ls :=
    match last (_lists this), _lists that with
    | Some c, c' :: rest =>
        if length c + length c' <? Size then on_back (λ c, [c ++ c']) (_lists this) ++ rest
        else _lists this ++ _lists that
    | _, _ => _lists this ++ _lists that
    end in
  (mkMultiList ls (u64 (_size this + _size that)), make).

(** [SpliceInternalList]: the items moved out of the chunk, and the chunk. *)
Definition SpliceInternalList c (b e : nat) : res (list T * list T) :=
  defined_if ((b <=? e) && (e <=? length c));;
  let items := take (e - b) (drop b c) in
  assert_that (negb (length items =? 0));;
  mret (items, take b c ++ drop e c).

(** An element of a [std::list] through its iterator. *)
Definition chunk (ls : list (list T)) (i : nat) : res (list T) :=
  match ls !! i with Some c => Ret c | None => Err Undefined end.
Definition position (it2 : option nat) : res nat :=
  match it2 with Some j => Ret j | None => Err Undefined end.

(** The end of [splice]: [moved] elements counted out of [that] into [*this]. *)
Definition counted this that (moved : nat) (ls ls' : list (list T)) : MultiList T * MultiList T :=
  (mkMultiList ls (u64 (_size this + Z.of_nat moved)),
   mkMultiList ls' (u64 (_size that - Z.of_nat moved))).

(** First block of [splice(that, begin, end)] for a range over several chunks:
    move the rest of the chunk [begin] is in.  Yields the moved items, the chunks
    left in [that], and the positions of [++begin._it1] and [end._it1] among them. *)
Definition splice_first (ls : list (list T)) b e : res (list T * list (list T) * nat * nat) :=
  c ← chunk ls (_it1 b);
  j ← position (_it2 b);
  if j =? 0 then mret (c, delete (_it1 b) ls, _it1 b, pred (_it1 e))
  else
    '(items, c') ← SpliceInternalList c j (length c);
    mret (items, <[_it1 b := c']> ls, S (_it1 b), _it1 e).

(** [splice(MultiList& that, Iterator begin, Iterator end)]. *)
Definition splice_range this that b e : res (MultiList T * MultiList T) :=
  let own := _lists this in
  let ls := _lists that in
  if _it1 b =? _it1 e then
    c ← chunk ls (_it1 b);
    if bool_decide (_it2 b = Some 0 ∧ _it2 e = Some (length c)) then
      mret (counted this that (length c) (own ++ [c]) (delete (_it1 b) ls))
    else if bool_decide (_it2 b ≠ _it2 e) then
      j ← position (_it2 b); k ← position (_it2 e);
      '(items, c') ← SpliceInternalList c j k;
      mret (counted this that (length items) (own ++ [items]) (<[_it1 b := c']> ls))
    else mret (counted this that 0 own ls)
  else
    defined_if (_it1 b <? _it1 e);;
    '(items, ls, b1, e1) ← splice_first ls b e;
    let own := own ++ [items] in
    let moved := length items in
    if b1 =? e1 then
      if b1 =? length ls then
        assert_that (match own with [] :: _ => false | _ => true end);;
        mret (counted this that moved own ls)
      else
        c ← chunk ls b1; k ← position (_it2 e);
        if k =? 0 then mret (counted this that moved own ls)
        else
          '(items, c') ← SpliceInternalList c 0 k;
          mret (counted this that (moved + length items) (own ++ [items]) (<[b1 := c']> ls))
    else if e1 =? length ls then
      let mid := drop b1 ls in
      mret (counted this that (moved + length (concat mid)) (own ++ mid) (take b1 ls))
    else
      let mid := slice b1 (e1 - b1) ls in
      let ls := take b1 ls ++ drop e1 ls in
      let own := own ++ mid in
      let moved := moved + length (concat mid) in
      c ← chunk ls b1; k ← position (_it2 e);
      if k =? 0 then mret (counted this that moved own ls)
      else
        '(items, c') ← SpliceInternalList c 0 k;
        mret (counted this that (moved + length items) (own ++ [items]) (<[b1 := c']> ls)).

Definition empty m : bool := match _lists m with [] => true | _ => false end.
Definition size m : Z := _size m.

Definition front m : res T :=
  match _lists m with (x :: _) :: _ => Ret x | _ => Err Undefined end.
Definition back m : res T :=
  match last (_lists m) ≫= last with Some x => Ret x | None => Err Undefined end.

Definition pop_back m : res (MultiList T) :=
  match last (_lists m) ≫= last with
  | None => Err Undefined
  | Some _ =>
      Ret (mkMultiList
        (on_back (λ c, match take (pred (length c)) c with [] => [] | c' => [c'] end) (_lists m))
        (u64 (_size m - 1)))
  end.

Definition begin_ m : Iterator :=
  mkIterator 0 (match _lists m with [] => None | _ => Some 0 end).
Definition end_ m : Iterator := mkIterator (length (_lists m)) None.

(** [operator++()]. *)
Definition incr m it : res Iterator :=
  c ← chunk (_lists m) (_it1 it);
  j ← position (_it2 it);
  defined_if (j <? length c);;
  mret (if S j =? length c then
          mkIterator (S (_it1 it)) (if S (_it1 it) =? length (_lists m) then None else Some 0)
        else mkIterator (_it1 it) (Some (S j))).

(** [Iterator::operator++(int)]: the new iterator and the returned value. *)
Definition incr_post m it : res (Iterator * Iterator) :=
  it ← incr m it; mret (it, it).

(** [ConstIterator::operator++(int)]. *)
Definition const_incr_post m it : res (Iterator * Iterator) :=
  it' ← incr m it; mret (it', it).

(** [operator--()]. *)
Definition decr m it : res Iterator :=
  let last_of i := c ← chunk (_lists m) i; defined_if (0 <? length c);;
    mret (mkIterator i (Some (pred (length c)))) in
  let previous := defined_if (0 <? _it1 it);; last_of (pred (_it1 it)) in
  if _it1 it =? length (_lists m) then previous
  else if bool_decide (_it2 it = Some 0) then previous
  else j ← position (_it2 it); mret (mkIterator (_it1 it) (Some (pred j))).

(** [operator--(int)], of both iterators. *)
Definition decr_post m it : res (Iterator * Iterator) :=
  it' ← decr m it; mret (it', it).

(** [Iterator::operator==]. *)
Definition equals m (it other : Iterator) : bool :=
  bool_decide (_it1 it = _it1 other) &&
  (bool_decide (_it2 it = _it2 other) || (_it1 it =? length (_lists m))).

(** [ConstIterator::operator==]. *)
Definition const_equals (it other : Iterator) : bool :=
  bool_decide (_it1 it = _it1 other) && bool_decide (_it2 it = _it2 other).

Definition deref m it : res T :=
  c ← chunk (_lists m) (_it1 it);
  j ← position (_it2 it);
  match c !! j with Some x => Ret x | None => Err Undefined end.

(** [erase]: the list and the returned iterator. *)
Definition erase m it : res (MultiList T * Iterator) :=
  c ← chunk (_lists m) (_it1 it);
  j ← position (_it2 it);
  defined_if (j <? length c);;
  let c' := delete j c in
  let i := _it1 it in
  let first_of ls i := if i =? length ls then Some j else Some 0 in
  let m' ls := mkMultiList ls (u64 (_size m - 1)) in
  if j =? length c' then
    if length c' =? 0 then
      let ls := delete i (_lists m) in
      mret (m' ls, mkIterator i (first_of ls i))
    else
      let ls := <[i := c']> (_lists m) in
      mret (m' ls, mkIterator (S i) (first_of ls (S i)))
  else mret (m' (<[i := c']> (_lists m)), mkIterator i (Some j)).

Definition swap this that : MultiList T * MultiList T := (that, this).

(** A range-based [for] over the list: the elements visited. *)
Fixpoint visit (fuel : nat) m it : res (list T) :=
  if equals m it (end_ m) then Ret [] else
  match fuel with
  | O => Err OutOfFuel
  | S fuel => x ← deref m it; it ← incr m it; l ← visit fuel m it; mret (x :: l)
  end.

End Operations.
End MultiList.

(** ** Refinement of plain lists *)

Section Refinement.
Context {T : Type}.
Implicit Types (m this that : MultiList T) (l : list T) (ls : list (list T)).
Import MultiList.

(** [m] represents [l]: no chunk is empty, the chunks concatenate to [l], and the
    cached size counts its elements. *)
Definition Repr m l : Prop :=
  Forall (λ c, c ≠ []) (_lists m) ∧ concat (_lists m) = l ∧ _size m = u64 (Z.of_nat (length l)).

Lemma make_repr : Repr make [].
Proof. by repeat split. Qed.

Lemma concat_snoc ls l : concat (ls ++ [l]) = concat ls ++ l.
Proof. by rewrite concat_app, concat_cons, app_nil_r. Qed.

Lemma app_ne_nil (l : list T) x : l ++ [x] ≠ [].
Proof. by destruct l. Qed.


Lemma push_back_repr x m l : Repr m l → Repr (push_back x m) (l ++ [x]).
Proof.
  intros (Hne & <- & Hs). unfold push_back, Repr. cbn [_lists _size].
  rewrite Hs. repeat split.
  - destruct (_lists m) as [|c ls _] using rev_ind; [cbn; repeat constructor; done|].
    replace (match ls ++ [c] with [] => [[]] | l => l end) with (ls ++ [c]) by by destruct ls.
    apply Forall_app in Hne as [Hls [Hc _]%Forall_cons]. rewrite on_back_snoc. apply Forall_app.
    split; [done|]. case_match; repeat constructor; auto using app_ne_nil.
  - destruct (_lists m) as [|c ls _] using rev_ind; [done|].
    replace (match ls ++ [c] with [] => [[]] | l => l end) with (ls ++ [c]) by by destruct ls.
    rewrite on_back_snoc, concat_snoc, concat_app. case_match; cbn; by rewrite ?app_nil_r, <- ?app_assoc.
  - wrap_eq.
Qed.

Lemma splice_repr this that l l' :
  Repr this l → Repr that l' →
  Repr (splice this that).1 (l ++ l') ∧ Repr (splice this that).2 [].
Proof.
  intros (Hne & <- & Hs) (Hne' & <- & Hs'). split; [|apply make_repr].
  unfold splice, Repr. cbn [_lists _size fst]. rewrite Hs, Hs'. split; [|split]; [| |wrap_eq].
  - destruct (_lists this) as [|c ls _] using rev_ind; [done|]. rewrite last_snoc.
    destruct (_lists that) as [|c' rest]; [by rewrite app_nil_r|].
    case_match; [|by apply Forall_app]. rewrite on_back_snoc.
    apply Forall_app in Hne as [? [? _]%Forall_cons]. apply Forall_cons in Hne' as [? ?].
    rewrite !Forall_app. repeat split; try done. repeat constructor. by destruct c.
  - destruct (_lists this) as [|c ls _] using rev_ind; [done|]. rewrite last_snoc.
    destruct (_lists that) as [|c' rest]; [by rewrite app_nil_r, app_nil_r|].
    case_match; [|by rewrite concat_app]. rewrite on_back_snoc.
    rewrite !concat_app. cbn. by rewrite !app_nil_r, <- !app_assoc.
Qed.

Lemma TryGenerate_loop_repr ls : ∀ sz size out osz,
  (0 ≤ size)%Z → Repr (mkMultiList ls sz) (concat ls) → Repr (mkMultiList out osz) (concat out) →
  let '(r, m) := TryGenerate_loop ls sz size out osz in
  Repr r (concat out ++ take (Z.to_nat size) (concat ls)) ∧
  Repr m (drop (Z.to_nat size) (concat ls)).
Proof.
  induction ls as [|c ls IH]; intros sz size out osz Hsize (Hne & _ & Hs) (Hout & _ & Ho);
    cbn [TryGenerate_loop concat] in *; cbn [_lists _size] in *.
  { rewrite take_nil, drop_nil, app_nil_r. done. }
  apply Forall_cons in Hne as [Hc Hne].
  destruct (Z.eqb_spec size 0) as [->|Hz].
  { cbn [Z.to_nat take drop]. rewrite app_nil_r. repeat split; cbn; auto. }
  destruct (Z.ltb_spec size (Z.of_nat (length c))) as [Hlt|Hge].
  - rewrite take_app_le, drop_app_le by lia. unfold Repr; cbn [_lists _size].
    subst sz osz. repeat split.
    + apply Forall_app. split; [done|]. repeat constructor. destruct c; [done|].
      by destruct (Z.to_nat size) eqn:?; [lia|].
    + by rewrite concat_snoc.
    + wrap_eq.
    + constructor; [|done]. intros E%(f_equal length). rewrite length_drop in E. cbn in E. lia.
    + wrap_eq.
  - specialize (IH (u64 (sz - Z.of_nat (length c))) (size - Z.of_nat (length c))%Z
      (out ++ [c]) (u64 (osz + Z.of_nat (length c)))).
    destruct (TryGenerate_loop ls _ _ _ _) as [r m'].
    rewrite take_app_ge, drop_app_ge by lia.
    replace (Z.to_nat size - length c) with (Z.to_nat (size - Z.of_nat (length c))) by lia.
    rewrite concat_snoc, <- app_assoc in IH. apply IH; [lia| |]; unfold Repr; cbn [_lists _size].
    + split; [done|]. split; [done|]. subst sz. wrap_eq.
    + split; [apply Forall_app; auto|]. split; [by rewrite concat_snoc|]. subst osz. wrap_eq.
Qed.

Lemma TryGenerate_repr size m l :
  (0 ≤ size)%Z → Repr m l →
  Repr (TryGenerate size m).1 (take (Z.to_nat size) l) ∧
  Repr (TryGenerate size m).2 (drop (Z.to_nat size) l).
Proof.
  intros H (Hne & <- & Hs).
  pose proof (TryGenerate_loop_repr (_lists m) (_size m) size [] 0 H) as P.
  unfold TryGenerate. destruct (TryGenerate_loop _ _ _ _ _). apply P; by repeat split.
Qed.

Lemma empty_repr m l : Repr m l → empty m = bool_decide (l = []).
Proof.
  intros (Hne & <- & _). unfold empty. destruct (_lists m) as [|c ls]; cbn; [done|].
  apply Forall_cons in Hne as [Hc _]. destruct c; [done|]. symmetry. by apply bool_decide_eq_false.
Qed.

Lemma size_repr m l : Repr m l → (Z.of_nat (length l) < 2 ^ 64)%Z → size m = Z.of_nat (length l).
Proof. intros (_ & _ & Hs) H. unfold size. rewrite Hs. apply wrap_small. lia. Qed.

Lemma front_repr m l : Repr m l → front m = match l with x :: _ => Ret x | [] => Err Undefined end.
Proof.
  intros (Hne & <- & _). unfold front. destruct (_lists m) as [|c ls]; cbn; [done|].
  apply Forall_cons in Hne as [Hc _]. by destruct c.
Qed.

Lemma last_concat ls : Forall (λ c, c ≠ []) ls → last ls ≫= last = last (concat ls).
Proof.
  destruct ls as [|c ls _] using rev_ind; [done|]. intros [_ [Hc _]%Forall_cons]%Forall_app.
  rewrite last_snoc, concat_snoc. cbn. destruct c as [|x c _] using rev_ind; [done|].
  by rewrite app_assoc, !last_snoc.
Qed.

Lemma back_repr m l : Repr m l → back m = match last l with Some x => Ret x | None => Err Undefined end.
Proof. intros (Hne & <- & _). unfold back. by rewrite last_concat. Qed.

Lemma pop_back_repr m l x :
  Repr m (l ++ [x]) → ∃ m', pop_back m = Ret m' ∧ Repr m' l.
Proof.
  intros (Hne & Hl & Hs). unfold pop_back. rewrite last_concat, Hl, last_snoc by done.
  eexists; split; [done|]. unfold Repr. cbn [_lists _size].
  destruct (_lists m) as [|c ls _] using rev_ind; [by destruct l|].
  apply Forall_app in Hne as [Hls [Hc _]%Forall_cons].
  destruct c as [|y c _] using rev_ind; [done|].
  rewrite concat_snoc, app_assoc in Hl. apply app_inj_tail in Hl as [<- <-].
  rewrite on_back_snoc. replace (pred (length (c ++ [y]))) with (length c) by len.
  rewrite take_app_length. split; [|split].
  - apply Forall_app. split; [done|]. destruct c; repeat constructor. done.
  - destruct c; [by rewrite !app_nil_r|]. by rewrite concat_snoc.
  - rewrite Hs. wrap_eq.
Qed.

Lemma pop_back_empty m : Repr m [] → pop_back m = Err Undefined ∧ back m = Err Undefined.
Proof. intros (Hne & Hl & _). unfold pop_back, back. by rewrite last_concat, Hl. Qed.

(** *** Iterators *)

(** [it] designates position [n] of the list: an element, or the end. *)
Definition designates m it (n : nat) : Prop :=
  (∃ ls c ls' j, _lists m = ls ++ c :: ls' ∧ it = mkIterator (length ls) (Some j) ∧
     j < length c ∧ n = length (concat ls) + j) ∨
  (_it1 it = length (_lists m) ∧ n = length (concat (_lists m))).

Lemma chunk_middle m ls c ls' : _lists m = ls ++ c :: ls' → chunk (_lists m) (length ls) = Ret c.
Proof. intros ->. unfold chunk. by rewrite list_lookup_middle. Qed.

Lemma begin_designates m l : Repr m l → designates m (begin_ m) 0.
Proof.
  intros (Hne & _ & _). unfold begin_, designates. destruct (_lists m) as [|c ls]; [by right|].
  left. exists [], c, ls, 0. apply Forall_cons in Hne as [Hc _]. by destruct c; repeat split; cbn; (done || lia).
Qed.

Lemma end_designates m l : Repr m l → designates m (end_ m) (length l).
Proof. intros (_ & <- & _). by right. Qed.

Lemma concat_lookup_middle ls c ls' j :
  j < length c → concat (ls ++ c :: ls') !! (length (concat ls) + j) = c !! j.
Proof.
  intros H. rewrite concat_app, lookup_app_r, Nat.add_comm, Nat.add_sub by lia.
  by apply lookup_app_l.
Qed.

Lemma deref_designates m l it n :
  Repr m l → designates m it n →
  deref m it = match l !! n with Some x => Ret x | None => Err Undefined end.
Proof.
  intros (_ & <- & _) [(ls & c & ls' & j & E & -> & Hj & ->)|[E ->]]; unfold deref.
  - rewrite E, concat_lookup_middle, <- E by done. cbn [_it1 _it2]. by rewrite (chunk_middle m ls c ls').
  - rewrite (lookup_ge_None_2 (concat _)) by done. unfold chunk. by rewrite lookup_ge_None_2 by lia.
Qed.

(** The first element of the next chunk, or the end. *)
Lemma next_chunk m ls c ls' :
  Forall (λ c, c ≠ []) (_lists m) → _lists m = ls ++ c :: ls' →
  designates m (mkIterator (S (length ls)) (if S (length ls) =? length (_lists m) then None else Some 0))
    (length (concat ls) + length c).
Proof.
  intros Hne E. rewrite E in Hne. destruct ls' as [|c' ls'].
  - right. rewrite E, concat_snoc. split; cbn; len.
  - left. exists (ls ++ [c]), c', ls', 0.
    apply Forall_app in Hne as [_ [_ [Hc _]%Forall_cons]%Forall_cons].
    rewrite E, concat_snoc. rewrite (proj2 (Nat.eqb_neq _ _)) by len.
    repeat split; [by rewrite <- app_assoc|f_equal; len|destruct c'; [done|cbn; lia]|len].
Qed.

Lemma incr_designates m l it n :
  Repr m l → designates m it n → n < length l →
  ∃ it', incr m it = Ret it' ∧ designates m it' (S n).
Proof.
  intros (Hne & <- & _) [(ls & c & ls' & j & E & -> & Hj & ->)|[E ->]] Hn; [|lia].
  unfold incr. cbn [_it1 _it2 position]. rewrite (chunk_middle m ls c ls') by done.
  cbn [mbind res_bind]. rewrite (proj2 (defined_if_ret _)) by by apply Nat.ltb_lt.
  eexists; split; [done|]. destruct (Nat.eqb_spec (S j) (length c)) as [Hl|Hl].
  - replace (S (length (concat ls) + j)) with (length (concat ls) + length c) by lia.
    by eapply next_chunk.
  - left. exists ls, c, ls', (S j). repeat split; auto; lia.
Qed.

Lemma incr_end m l it : Repr m l → designates m it (length l) → incr m it = Err Undefined.
Proof.
  intros (_ & <- & _) [(ls & c & ls' & j & E & -> & Hj & H)|[E _]].
  - rewrite E, concat_app in H. cbn in H. len.
  - unfold incr, chunk. by rewrite lookup_ge_None_2 by lia.
Qed.

Lemma decr_designates m l it n :
  Repr m l → designates m it (S n) → n < length l →
  ∃ it', decr m it = Ret it' ∧ designates m it' n.
Proof.
  intros (Hne & <- & _) D Hn.
  assert (Hprev : ∀ ls c ls', _lists m = ls ++ c :: ls' → S n = length (concat ls) + length c →
    ∃ it', (defined_if (0 <? S (length ls));; c ← chunk (_lists m) (length ls);
            defined_if (0 <? length c);; mret (mkIterator (length ls) (Some (pred (length c))))) = Ret it' ∧
           designates m it' n).
  { intros ls c ls' E Hs. rewrite (chunk_middle m ls c ls') by done. cbn [mbind res_bind].
    rewrite E in Hne. apply Forall_app in Hne as [_ [Hc _]%Forall_cons].
    destruct c as [|x c]; [done|]. eexists; split; [done|]. left.
    exists ls, (x :: c), ls', (length c). repeat split; cbn in *; auto; lia. }
  destruct D as [(ls & c & ls' & j & E & -> & Hj & Hs)|[E Hs]]; unfold decr.
  - rewrite (proj2 (Nat.eqb_neq _ _)) by (rewrite E; cbn; len). cbn [_it1 _it2].
    destruct (decide (j = 0)) as [->|Hj0].
    + rewrite bool_decide_eq_true_2 by done.
      destruct ls as [|c' ls _] using rev_ind; [cbn in Hs; lia|].
      rewrite length_app, Nat.add_1_r. cbn [pred]. apply (Hprev ls c' (c :: ls')).
      * by rewrite E, <- app_assoc.
      * rewrite concat_snoc in Hs. len.
    + rewrite bool_decide_eq_false_2 by congruence. cbn. eexists; split; [done|].
      left. exists ls, c, ls', (pred j). repeat split; auto; lia.
  - rewrite E, Nat.eqb_refl. destruct (_lists m) as [|c ls _] eqn:El using rev_ind; [cbn in Hs; lia|].
    rewrite length_app, Nat.add_1_r. cbn [pred]. apply (Hprev ls c []); [done|].
    rewrite concat_snoc in Hs. len.
Qed.

Lemma designates_bound m l it n : Repr m l → designates m it n → n ≤ length l.
Proof.
  intros (_ & <- & _) [(ls & c & ls' & j & E & -> & Hj & ->)|[E ->]]; [|done].
  rewrite E, concat_app. cbn. len.
Qed.

(** Chunk and offset are determined by the position. *)
Lemma designates_inj m l it it' n n' :
  Repr m l → designates m it n → designates m it' n' →
  equals m it it' = bool_decide (n = n').
Proof.
  intros (Hne & <- & _) D D'.
  destruct D as [(ls & c & ls1 & j & E & -> & Hj & ->)|[E ->]],
    D' as [(ls' & c' & ls1' & j' & E' & -> & Hj' & ->)|[E' ->]]; unfold equals; cbn [_it1 _it2].
  - rewrite (proj2 (Nat.eqb_neq _ (length (_lists m)))), orb_false_r by (rewrite E; len).
    destruct (decide (length ls = length ls')) as [Hl|Hl].
    + rewrite E in E'. apply app_inj_1 in E' as [-> [=-> ->]]; [|done].
      rewrite bool_decide_eq_true_2 by done. cbn.
      apply bool_decide_ext. split; [intros [=]; lia|intros; f_equal; lia].
    + rewrite bool_decide_eq_false_2 by done. symmetry. apply bool_decide_eq_false. cbn.
      intros Hn. destruct (decide (length ls < length ls')) as [Hlt|Hlt].
      * assert (ls' = ls ++ c :: take (length ls' - S (length ls)) ls1) as Els'.
        { rewrite E in E'. apply (f_equal (take (length ls'))) in E'.
          rewrite take_app_length in E'. etransitivity; [symmetry; exact E'|].
          rewrite take_app_ge by lia. f_equal.
          by replace (length ls' - length ls) with (S (length ls' - S (length ls))) by lia. }
        rewrite Els', concat_app in Hn. cbn in Hn. len.
      * assert (ls = ls' ++ c' :: take (length ls - S (length ls')) ls1') as Els.
        { rewrite E' in E. apply (f_equal (take (length ls))) in E.
          rewrite take_app_length in E. etransitivity; [symmetry; exact E|].
          rewrite take_app_ge by lia. f_equal.
          by replace (length ls - length ls') with (S (length ls - S (length ls'))) by lia. }
        rewrite Els, concat_app in Hn. cbn in Hn. len.
  - rewrite bool_decide_eq_false_2 by (rewrite E', E; len). symmetry. apply bool_decide_eq_false.
    rewrite E, concat_app. cbn. len.
  - rewrite bool_decide_eq_false_2 by (rewrite E, E'; len). symmetry. apply bool_decide_eq_false.
    rewrite E', concat_app. cbn. len.
  - rewrite E, E', Nat.eqb_refl, orb_true_r, !bool_decide_eq_true_2 by done. done.
Qed.

Lemma visit_repr m l it n fuel :
  Repr m l → designates m it n → length l - n ≤ fuel → visit fuel m it = Ret (drop n l).
Proof.
  intros H. revert it n. induction fuel as [|fuel IH]; intros it n D Hf; cbn [visit];
    rewrite (designates_inj m l it _ n (length l)) by eauto using end_designates;
    pose proof (designates_bound _ _ _ _ H D); case_bool_decide as Hn; subst.
  1,3: by rewrite drop_all.
  - lia.
  - destruct (incr_designates m l it n) as (it' & -> & D'); [done..|lia|].
    rewrite (deref_designates m l it n) by done.
    destruct (lookup_lt_is_Some_2 l n) as [x Hx]; [lia|]. rewrite Hx. cbn [mbind res_bind].
    rewrite (IH it' (S n)) by (done || lia). cbn. by rewrite <- (drop_S _ _ _ Hx).
Qed.

(** *** Erasing and splicing ranges *)

Lemma delete_concat ls c ls' j :
  j < length c → delete (length (concat ls) + j) (concat (ls ++ c :: ls')) = concat (ls ++ delete j c :: ls').
Proof.
  intros H. rewrite !concat_app. cbn. rewrite !delete_take_drop, <- !app_assoc.
  rewrite take_app_ge, drop_app_ge by lia.
  replace (length (concat ls) + j - length (concat ls)) with j by lia.
  replace (S (length (concat ls) + j) - length (concat ls)) with (S j) by lia.
  by rewrite take_app_le, drop_app_le, <- app_assoc by lia.
Qed.

Lemma insert_middle ls (c c' : list T) ls' : <[length ls := c']> (ls ++ c :: ls') = ls ++ c' :: ls'.
Proof. rewrite <- (Nat.add_0_r (length ls)). by rewrite insert_app_r. Qed.

Lemma delete_middle' ls (c : list T) ls' : delete (length ls) (ls ++ c :: ls') = ls ++ ls'.
Proof. by rewrite delete_middle. Qed.

Lemma erase_repr m l it n :
  Repr m l → designates m it n → n < length l →
  ∃ m' it', erase m it = Ret (m', it') ∧ Repr m' (delete n l) ∧ designates m' it' n.
Proof.
  intros (Hne & <- & Hs) [(ls & c & ls' & j & E & -> & Hj & ->)|[E ->]] Hn; [|lia].
  assert (Hsz : ∀ k, k < length (concat (_lists m)) → u64 (_size m - 1) = u64 (Z.of_nat (length (delete k (concat (_lists m)))))).
  { intros k Hk. rewrite Hs, length_delete by by apply lookup_lt_is_Some_2. wrap_eq. }
  unfold erase. cbn [_it1 _it2 position]. rewrite (chunk_middle m ls c ls') by done.
  cbn [mbind res_bind]. rewrite (proj2 (defined_if_ret _)) by by apply Nat.ltb_lt.
  specialize (Hsz _ Hn). rewrite E in *. rewrite delete_concat in * by done.
  apply Forall_app in Hne as [Hls [Hc Hls']%Forall_cons].
  assert (length (delete j c) = pred (length c)) as Hd
    by (rewrite length_delete by (by apply lookup_lt_is_Some_2); lia).
  cbn [mbind res_bind]. rewrite Hd. destruct (Nat.eqb_spec j (pred (length c))) as [Hjl|Hjl].
  - destruct (Nat.eqb_spec (pred (length c)) 0) as [H0|H0].
    + assert (delete j c = []) as Hdn by (apply length_zero_iff_nil; lia).
      rewrite Hdn in *. rewrite delete_middle'.
      assert (concat (ls ++ [] :: ls') = concat (ls ++ ls')) as Hcc by by rewrite !concat_app.
      rewrite Hcc in *. eexists _, _. split; [done|]. split.
      { by split; [apply Forall_app|]. }
      destruct ls' as [|d ls']; cbn [_lists].
      * right. cbn. rewrite !app_nil_r in *. split; [done|]. lia.
      * left. exists ls, d, ls', 0. apply Forall_cons in Hls' as [Hd' _].
        rewrite (proj2 (Nat.eqb_neq _ _)) by len. repeat split; [|lia]. destruct d; [done|cbn; lia].
    + rewrite insert_middle. eexists _, _. split; [done|].
      assert (delete j c ≠ []) as Hdn by (intros H; rewrite H in Hd; cbn in Hd; lia).
      assert (Hall : Forall (λ c, c ≠ []) (ls ++ delete j c :: ls')) by (rewrite Forall_app, Forall_cons; done).
      split; [by repeat split|].
      match goal with |- designates ?m' _ _ => pose proof (next_chunk m' ls _ ls' Hall eq_refl) as P end.
      cbn [_lists] in *. rewrite Hd, <- Hjl in P.
      destruct (Nat.eqb_spec (S (length ls)) (length (ls ++ delete j c :: ls'))) as [Hx|Hx]; [|done].
      right. destruct ls'; [|len]. cbn [_lists _it1]. split; [len|]. rewrite (concat_snoc ls (delete j c)), length_app, Hd. lia.
  - rewrite insert_middle. eexists _, _. split; [done|].
    assert (delete j c ≠ []) as Hdn by (intros H; rewrite H in Hd; cbn in Hd; lia).
    split; [split; cbn [_lists]; [by rewrite Forall_app, Forall_cons|by split]|].
    left. exists ls, (delete j c), ls', j. repeat split; lia.
Qed.

Lemma SpliceInternalList_ok (c : list T) b e :
  b < e → e ≤ length c → SpliceInternalList c b e = Ret (slice b (e - b) c, take b c ++ drop e c).
Proof.
  intros H1 H2. unfold SpliceInternalList.
  rewrite (proj2 (defined_if_ret _)) by (apply andb_true_iff; split; apply Nat.leb_le; lia).
  cbn [mbind res_bind].
  rewrite (proj2 (assert_that_ret _)); [done|]. apply negb_true_iff, Nat.eqb_neq. len.
Qed.

(** How a splice of [x] out of [that] ends. *)
Lemma counted_repr this that (l1 a x z : list T) moved ls ls' :
  Repr this l1 → Repr that (a ++ x ++ z) → moved = length x →
  Forall (λ c, c ≠ []) ls → Forall (λ c, c ≠ []) ls' → concat ls = l1 ++ x → concat ls' = a ++ z →
  Repr (counted this that moved ls ls').1 (l1 ++ x) ∧ Repr (counted this that moved ls ls').2 (a ++ z).
Proof.
  intros (_ & _ & Hs) (_ & _ & Hs') -> H1 H2 H3 H4. unfold counted, Repr. cbn [_lists _size fst snd].
  rewrite Hs, Hs'. repeat split; try done; wrap_eq.
Qed.

Lemma splice_first_ok ls c ls' jb b e k :
  Forall (λ c, c ≠ []) (ls ++ c :: ls') → b = mkIterator (length ls) (Some jb) → jb < length c →
  _it1 e = S (length ls) + k →
  ∃ A', splice_first (ls ++ c :: ls') b e = Ret (drop jb c, A' ++ ls', length A', length A' + k) ∧
    concat A' = concat ls ++ take jb c ∧ Forall (λ c, c ≠ []) A' ∧ drop jb c ≠ [].
Proof.
  intros Hne -> Hj He. apply Forall_app in Hne as [Hls [Hc _]%Forall_cons].
  assert (drop jb c ≠ []) as Hd by (intros H%(f_equal length); rewrite length_drop in H; cbn in H; lia).
  unfold splice_first. cbn [_it1 _it2 position].
  unfold chunk. rewrite list_lookup_middle by done. cbn [mbind res_bind].
  destruct (Nat.eqb_spec jb 0) as [->|Hj0].
  - exists ls. rewrite delete_middle', drop_0, app_nil_r, He. repeat split; try done.
  - rewrite SpliceInternalList_ok by lia. cbn [mbind res_bind]. rewrite insert_middle.
    rewrite drop_all, app_nil_r. exists (ls ++ [take jb c]).
    rewrite concat_snoc, <- app_assoc, length_app, Nat.add_1_r, He. unfold slice.
    rewrite take_ge by (rewrite length_drop; lia). repeat split; try done.
    apply Forall_app. split; [done|]. repeat constructor. by destruct c, jb.
Qed.

(** The outcome [splice(that, begin, end)] must have: positions [i] to [j] of [l2]
    moved to the end of [l1]. *)
Definition spliced (r : res (MultiList T * MultiList T)) (l1 l2 : list T) (i j : nat) : Prop :=
  ∃ this' that', r = Ret (this', that') ∧
    Repr this' (l1 ++ slice i (j - i) l2) ∧ Repr that' (take i l2 ++ drop j l2).

Lemma spliced_intro p (l1 a x z l2 : list T) i j :
  l2 = a ++ x ++ z → i = length a → j = length a + length x →
  Repr p.1 (l1 ++ x) ∧ Repr p.2 (a ++ z) → spliced (Ret p) l1 l2 i j.
Proof.
  intros -> -> -> [H1 H2]. destruct p as [p1 p2]. exists p1, p2. split; [done|]. unfold slice.
  replace (length a + length x - length a) with (length x) by lia.
  rewrite take_app_length, !drop_app_length, take_app_length.
  rewrite <- drop_drop, drop_app_length, drop_app_length. done.
Qed.

Lemma drop_take_slice (c : list T) i j : i ≤ j → c = take i c ++ slice i (j - i) c ++ drop j c.
Proof.
  intros. unfold slice. replace (drop j c) with (drop (j - i) (drop i c)) by (rewrite drop_drop; f_equal; lia).
  by rewrite !take_drop.
Qed.

Lemma splice_same_chunk this that l1 ls c ls' jb je :
  Repr this l1 → Repr that (concat (ls ++ c :: ls')) → _lists that = ls ++ c :: ls' →
  jb ≤ je → je < length c →
  spliced (splice_range this that (mkIterator (length ls) (Some jb)) (mkIterator (length ls) (Some je)))
    l1 (concat (ls ++ c :: ls')) (length (concat ls) + jb) (length (concat ls) + je).
Proof.
  intros R1 R2 E Hle Hj. pose proof R1 as (Hne1 & El1 & _). pose proof R2 as (Hne & _ & _). rewrite E in Hne.
  apply Forall_app in Hne as [Hls [Hc Hls']%Forall_cons].
  assert (Hcat : concat (ls ++ c :: ls') =
    (concat ls ++ take jb c) ++ slice jb (je - jb) c ++ (drop je c ++ concat ls')).
  { rewrite concat_app. cbn. rewrite (drop_take_slice c jb je) at 1 by done. by rewrite <- !app_assoc. }
  unfold splice_range. cbn [_it1 _it2 position]. rewrite E, Nat.eqb_refl.
  rewrite <- E at 1. rewrite (chunk_middle that ls c ls' E). cbn [mbind res_bind].
  rewrite bool_decide_eq_false_2 by (intros [_ [=]]; lia).
  case_bool_decide as Hjb.
  - rewrite SpliceInternalList_ok by (assert (jb ≠ je) by congruence; lia).
    cbn [mbind res_bind]. rewrite insert_middle. cbn [mret res_ret].
    eapply spliced_intro; [exact Hcat|len|rewrite length_slice by lia; len|].
    eapply counted_repr; [done|by rewrite <- Hcat|done|..].
    + apply Forall_app. split; [done|]. repeat constructor.
      intros H%(f_equal length). rewrite length_slice in H by lia. cbn in H.
      assert (jb ≠ je) by congruence. lia.
    + apply Forall_app. split; [done|]. constructor; [|done].
      intros H%(f_equal length). rewrite length_app, length_drop in H. cbn in H. lia.
    + by rewrite concat_snoc, El1.
    + rewrite concat_app. cbn. by rewrite <- !app_assoc.
  - assert (jb = je) as -> by (destruct (decide (jb = je)); congruence || exfalso; apply Hjb; congruence).
    assert (slice je (je - je) c = []) as Hs by by rewrite Nat.sub_diag.
    eapply spliced_intro; [exact Hcat|len|rewrite Hs; len|].
    rewrite Hs in *. eapply counted_repr; [done|by rewrite <- Hcat|done|..]; try done.
    + apply Forall_app. split; [done|]. by constructor.
    + by rewrite app_nil_r.
Qed.

(** What is left to do once the rest of the first chunk is moved: [M] whole chunks
    and the first [k] elements of the chunk [d], if the range does not end with [M]. *)
Lemma splice_rest this that l1 a x A' M D k (items : list T) r :
  Repr this l1 → Repr that (a ++ x ++ concat (M ++ D)) →
  concat A' = a → Forall (λ c, c ≠ []) (A' ++ M ++ D) → items = x → x ≠ [] →
  (D = [] ∧ k = 0 ∨ ∃ d D', D = d :: D' ∧ k < length d) →
  r = (let own := _lists this ++ [items] ++ M in
       let moved := length items + length (concat M) in
       match k, D with
       | S _, d :: D' => counted this that (moved + k) (own ++ [take k d]) (A' ++ drop k d :: D')
       | _, _ => counted this that moved own (A' ++ D)
       end) →
  spliced (Ret r) l1 (a ++ x ++ concat (M ++ D)) (length a) (length a + length x + length (concat M) + k).
Proof.
  intros R1 R2 HA Hne -> Hx HD ->. pose proof R1 as (Hne1 & El1 & _).
  apply Forall_app in Hne as [HA' [HM HD']%Forall_app].
  assert (Hown : Forall (λ c, c ≠ []) (_lists this ++ [x] ++ M)) by (rewrite !Forall_app; auto).
  destruct HD as [[-> ->]|(d & D' & -> & Hk)].
  - eapply (spliced_intro _ _ a (x ++ concat M) []); [by rewrite !app_nil_r|done|len|].
    eapply counted_repr; [done| |len|..]; try done.
    + by rewrite !app_nil_r in *.
    + by apply Forall_app.
    + by rewrite concat_app, El1.
    + by rewrite concat_app, HA.
  - rewrite concat_app in *. cbn [concat] in *. apply Forall_cons in HD' as [Hd HD'].
    eapply (spliced_intro _ _ a (x ++ concat M ++ take k d) (drop k d ++ concat D')); [|done|len|].
    { rewrite <- !app_assoc. do 3 f_equal. by rewrite app_assoc, take_drop. }
    destruct k as [|k].
    + eapply counted_repr; [done| |len|..]; try done.
      * rewrite take_0, drop_0, app_nil_r, <- !app_assoc. done.
      * rewrite !Forall_app, Forall_cons. done.
      * by rewrite concat_app, El1, take_0, app_nil_r.
      * by rewrite concat_app, HA.
    + eapply counted_repr; [done| |len|..].
      * rewrite <- !app_assoc. rewrite (app_assoc (take _ _)), take_drop. done.
      * apply Forall_app. split; [done|]. repeat constructor. by destruct d.
      * rewrite Forall_app, Forall_cons. repeat split; try done.
        intros H%(f_equal length). rewrite length_drop in H. cbn in H. lia.
      * rewrite concat_snoc, concat_app, El1. cbn. by rewrite <- !app_assoc.
      * by rewrite concat_app, HA.
Qed.

Lemma slice_middle (A' M D : list (list T)) : slice (length A') (length M) (A' ++ M ++ D) = M.
Proof. unfold slice. by rewrite drop_app_length, take_app_length. Qed.

(** [end._it1 = S (length ls) + length M] chunks into [that]; [k] is the offset of
    [end._it2] there, [0] at the end of the list. *)
Lemma splice_chunks this that l1 ls c M D jb e k :
  Repr this l1 → Repr that (concat (ls ++ c :: M ++ D)) → _lists that = ls ++ c :: M ++ D →
  jb < length c → _it1 e = S (length ls) + length M →
  (D = [] ∧ k = 0 ∨ (∃ d D', D = d :: D' ∧ k < length d) ∧ _it2 e = Some k) →
  spliced (splice_range this that (mkIterator (length ls) (Some jb)) e) l1
    (concat (ls ++ c :: M ++ D)) (length (concat ls) + jb)
    (length (concat ls) + length c + length (concat M) + k).
Proof.
  intros R1 R2 E Hj He HD. pose proof R2 as (Hne & _ & _). rewrite E in Hne.
  destruct (splice_first_ok ls c (M ++ D) jb (mkIterator (length ls) (Some jb)) e (length M))
    as (A' & Hfirst & HA & HneA & Hd); [done..|].
  assert (Hcat : concat (ls ++ c :: M ++ D) = concat A' ++ drop jb c ++ concat (M ++ D)).
  { rewrite HA, concat_app, <- app_assoc. cbn. by rewrite (app_assoc (take _ _)), take_drop. }
  rewrite Hcat in *.
  replace (length (concat ls) + jb) with (length (concat A')) by (rewrite HA; len).
  replace (length (concat ls) + length c + length (concat M) + k)
    with (length (concat A') + length (drop jb c) + length (concat M) + k) by (rewrite HA; len).
  apply Forall_app in Hne as [_ [_ Hne]%Forall_cons].
  unfold splice_range. cbn [_it1]. rewrite E, Hfirst.
  rewrite (proj2 (Nat.eqb_neq _ _)) by lia.
  rewrite (proj2 (defined_if_ret _)) by (apply Nat.ltb_lt; lia).
  cbn [mbind res_bind]. clear Hfirst Hcat.
  assert (Hrest : ∀ r,
    r = (let own := _lists this ++ [drop jb c] ++ M in
         let moved := length (drop jb c) + length (concat M) in
         match k, D with
         | S _, d :: D' => counted this that (moved + k) (own ++ [take k d]) (A' ++ drop k d :: D')
         | _, _ => counted this that moved own (A' ++ D)
         end) →
    spliced (Ret r) l1 (concat A' ++ drop jb c ++ concat (M ++ D)) (length (concat A'))
      (length (concat A') + length (drop jb c) + length (concat M) + k)).
  { intros r. eapply (splice_rest this that l1 (concat A') (drop jb c) A'); try done.
    - by apply Forall_app.
    - destruct HD as [?|[? _]]; auto. }
  destruct HD as [[-> ->]|[(d & D' & -> & Hk) He2]]; rewrite ?app_nil_r in *.
  - destruct (Nat.eqb_spec (length A') (length A' + length M)) as [HM|HM].
    + destruct M; [|cbn in HM; lia]. rewrite app_nil_r, Nat.eqb_refl in *.
      rewrite (proj2 (assert_that_ret _)).
      2: { destruct R1 as (HneT & _ & _). destruct (_lists this) as [|t ?]; cbn.
           - by destruct (drop jb c).
           - by destruct t; [apply Forall_cons in HneT as [? _]|]. }
      cbn [mbind res_bind mret res_ret]. apply Hrest. cbn. by rewrite Nat.add_0_r, ?app_nil_r.
    + rewrite length_app, Nat.eqb_refl, drop_app_length, take_app_length.
      apply Hrest. cbn. by rewrite <- app_assoc.
  - rewrite He2. cbn [position mbind res_bind].
    destruct (Nat.eqb_spec (length A') (length A' + length M)) as [HM|HM].
    + destruct M; [|cbn in HM; lia]. cbn [app] in *.
      rewrite (proj2 (Nat.eqb_neq _ _)) by len.
      unfold chunk. rewrite list_lookup_middle by done. cbn [mbind res_bind].
      destruct (Nat.eqb_spec k 0) as [->|Hk0].
      * apply Hrest. cbn. by rewrite Nat.add_0_r.
      * rewrite SpliceInternalList_ok by lia. cbn [mbind res_bind mret res_ret].
        rewrite insert_middle. apply Hrest. unfold slice. rewrite drop_0, Nat.sub_0_r, take_0.
        destruct k; [lia|]. cbn [concat length app]. rewrite length_take. f_equal. lia.
    + rewrite (proj2 (Nat.eqb_neq _ _)) by len.
      replace (length A' + length M - length A') with (length M) by lia.
      rewrite slice_middle, take_app_length, <- drop_drop, !drop_app_length.
      unfold chunk. rewrite list_lookup_middle by done. cbn [mbind res_bind].
      destruct (Nat.eqb_spec k 0) as [->|Hk0].
      * apply Hrest. cbn. by rewrite <- app_assoc.
      * rewrite SpliceInternalList_ok by lia. cbn [mbind res_bind mret res_ret].
        rewrite insert_middle. apply Hrest. unfold slice. rewrite drop_0, Nat.sub_0_r, take_0.
        destruct k; [lia|]. cbn [app]. rewrite length_take.
        rewrite <- !app_assoc. f_equal. lia.
Qed.

(** [splice(that, begin, end)] moves exactly the elements from [begin] to [end]
    to the end of [*this], keeps the rest of [that] in order and both cached sizes
    exact, wherever the two iterators fall among the chunks. *)
Theorem splice_range_moves this that l1 l2 b e i j :
  Repr this l1 → Repr that l2 → designates that b i → designates that e j →
  i ≤ j → i < length l2 →
  ∃ this' that', splice_range this that b e = Ret (this', that') ∧
    Repr this' (l1 ++ slice i (j - i) l2) ∧ Repr that' (take i l2 ++ drop j l2).
Proof.
  intros R1 R2 Db De Hij Hi. pose proof R2 as (Hne & E2 & _).
  fold (spliced (splice_range this that b e) l1 l2 i j). subst l2.
  destruct Db as [(ls & c & ls' & jb & E & -> & Hjb & ->)|[_ ->]]; [|lia].
  rewrite E in R2. destruct De as [(ls2 & d & D' & je & E' & -> & Hje & ->)|[He ->]].
  2: { pose proof (splice_chunks this that l1 ls c ls' [] jb e 0) as P. rewrite app_nil_r, <- E in P.
       rewrite E, length_app in He. cbn in He.
       replace (length (concat (_lists that))) with (length (concat ls) + length c + length (concat ls') + 0).
       - apply P; auto; [by rewrite E|lia].
       - rewrite E, concat_app. cbn. len. }
  rewrite E. destruct (Nat.lt_trichotomy (length ls2) (length ls)) as [Hl|[Hl|Hl]].
  - exfalso. destruct (lookup_split ls (length ls2) d) as (l1' & l2' & -> & Hl').
    { rewrite E in E'. rewrite <- (lookup_app_l ls (c :: ls')) by done. rewrite E'.
      by rewrite list_lookup_middle. }
    rewrite E, <- app_assoc in E'. apply app_inj_1 in E' as [-> _]; [|done].
    rewrite concat_app in Hij. cbn in Hij. len.
  - rewrite E in E'. apply app_inj_1 in E' as [<- [= <- <-]]; [|done].
    apply splice_same_chunk; (done || lia).
  - assert (∃ M, ls2 = ls ++ c :: M ∧ ls' = M ++ d :: D') as (M & -> & ->).
    { rewrite E in E'. exists (drop (S (length ls)) ls2).
      assert (ls2 = ls ++ c :: drop (S (length ls)) ls2) as Hls2.
      { rewrite <- (take_drop (S (length ls)) ls2) at 1.
        apply (f_equal (take (S (length ls)))) in E'.
        rewrite (take_app_le ls2) in E' by lia. rewrite <- E'.
        rewrite take_app_ge by lia. replace (S (length ls) - length ls) with 1 by lia. cbn.
        by rewrite take_0, <- app_assoc. }
      split; [done|]. rewrite Hls2, <- app_assoc in E'. by apply app_inj_1 in E' as [_ [=]]. }
    replace (length (concat (ls ++ c :: M)) + je) with (length (concat ls) + length c + length (concat M) + je)
      by (rewrite concat_app; cbn; len).
    apply splice_chunks; try done; [cbn; len|]. right. eauto.
Qed.

(** on an empty source [splice(that, that.begin(), that.end())] is undefined: it
    looks into the chunk [begin] is in, and there is none. *)
Theorem splice_range_empty_undefined this that l :
  Repr that l → splice_range this that (end_ that) (end_ that) = Err Undefined.
Proof.
  intros _. unfold splice_range, end_, chunk. cbn [_it1]. rewrite Nat.eqb_refl.
  by rewrite lookup_ge_None_2.
Qed.

(** A range that starts at the end, or ends before it starts, is undefined. *)
Lemma splice_range_undefined this that l2 b e i j :
  Repr that l2 → designates that b i → designates that e j → i = length l2 ∨ j < i →
  splice_range this that b e = Err Undefined.
Proof.
  intros R2 Db De H. pose proof (designates_bound _ _ _ _ R2 De) as Hj. pose proof R2 as (_ & El & _). subst l2.
  unfold splice_range. destruct Db as [(ls & c & ls' & jb & E & -> & Hjb & ->)|[Hb ->]].
  - assert (j < length (concat ls) + jb) as Hlt.
    { destruct H as [H|H]; [|done]. rewrite E, concat_app in H. cbn in H. len. }
    destruct De as [(ls2 & d & D' & je & E' & -> & Hje & ->)|[He ->]]; cbn [_it1 _it2].
    2: { rewrite E, concat_app in Hlt. cbn in Hlt. len. }
    destruct (Nat.eqb_spec (length ls) (length ls2)) as [Hl|Hl].
    + rewrite E in E'. apply app_inj_1 in E' as [<- [= <- <-]]; [|done].
      rewrite (chunk_middle that ls c ls') by done. cbn [mbind res_bind].
      rewrite bool_decide_eq_false_2 by (intros [[= ->] _]; lia).
      rewrite bool_decide_eq_true_2 by (intros [= ->]; lia). cbn [position mbind res_bind].
      unfold SpliceInternalList. by rewrite (proj2 (Nat.leb_gt jb je)) by lia.
    + destruct (Nat.ltb_spec (length ls) (length ls2)) as [Hll|]; [|done]. exfalso.
      rewrite E in E'. assert (∃ M, ls2 = ls ++ c :: M) as [M ->].
      { exists (drop (S (length ls)) ls2). rewrite <- (take_drop (S (length ls)) ls2) at 1.
        apply (f_equal (take (S (length ls)))) in E'. rewrite (take_app_le ls2) in E' by lia. rewrite <- E'.
        rewrite take_app_ge by lia. replace (S (length ls) - length ls) with 1 by lia. cbn.
        by rewrite take_0, <- app_assoc. }
      rewrite concat_app in Hlt. cbn in Hlt. len.
  - rewrite Hb. destruct (Nat.eqb_spec (length (_lists that)) (_it1 e)) as [He|He].
    { unfold chunk. by rewrite lookup_ge_None_2. }
    destruct (Nat.ltb_spec (length (_lists that)) (_it1 e)) as [Hl|]; [|done].
    destruct De as [(ls2 & d & D' & je & E' & -> & Hje & ->)|[He' ->]]; [|lia].
    cbn [_it1] in *. rewrite E' in Hl. len.
Qed.

End Refinement.

(** *** Observational equivalence with plain lists *)

Section Commands.
Context {T : Type}.
Implicit Types (xs l : list T).
Import MultiList.

(** What clients do with two lists, [*this] and [that]; iterators are reached from the
    beginning or from the end of a list. *)
Inductive command :=
  | PushBack (x : T)
  | Splice
  | SpliceRange (i j : nat)
  | Generate (size : Z)
  | PopBack
  | EraseAt (n : nat)
  | Swap
  | Move
  | SizeOf
  | Empty
  | Front
  | FromEnd (n : nat)
  | PostIncrement (n : nat)
  | PostDecrement (n : nat)
  | Iterate.

(** What a command shows: elements, a number, a truth value. *)
Inductive observation :=
  | Saw (l : list T)
  | Counted (n : Z)
  | Said (b : bool).

Fixpoint advance (n : nat) (m : MultiList T) (it : Iterator) : res Iterator :=
  match n with O => Ret it | S n => it ← incr m it; advance n m it end.
Fixpoint retreat (n : nat) (m : MultiList T) (it : Iterator) : res Iterator :=
  match n with O => Ret it | S n => it ← decr m it; retreat n m it end.

(** The elements from an iterator on. *)
Definition elements_from m it : res (list T) := visit (length (concat (_lists m))) m it.
Definition elements m : res (list T) := elements_from m (begin_ m).

Definition exec_multi (c : command) (s : MultiList T * MultiList T) : res (observation * (MultiList T * MultiList T)) :=
  let '(m, that) := s in
  match c with
  | PushBack x => mret (Saw [], (push_back x m, that))
  | Splice => mret (Saw [], splice m that)
  | SpliceRange i j =>
      b ← advance i that (begin_ that); e ← advance j that (begin_ that);
      s ← splice_range m that b e; mret (Saw [], s)
  | Generate n => let '(r, m) := TryGenerate n m in mret (Saw [], (m, r))
  | PopBack => x ← back m; m ← pop_back m; mret (Saw [x], (m, that))
  | EraseAt n =>
      it ← advance n m (begin_ m); x ← deref m it; '(m, it) ← erase m it;
      rest ← elements_from m it; mret (Saw (x :: rest), (m, that))
  | Swap => mret (Saw [], swap m that)
  | Move => let '(r, m) := move m in mret (Saw [], (m, r))
  | SizeOf => mret (Counted (size m), (m, that))
  | Empty => mret (Said (empty m), (m, that))
  | Front => x ← front m; mret (Saw [x], (m, that))
  | FromEnd n => it ← retreat n m (end_ m); x ← deref m it; mret (Saw [x], (m, that))
  | PostIncrement n =>
      it ← advance n m (begin_ m); '(it, old) ← const_incr_post m it;
      x ← deref m old; rest ← elements_from m it; mret (Saw (x :: rest), (m, that))
  | PostDecrement n =>
      it ← retreat n m (end_ m); '(it, old) ← decr_post m it;
      x ← deref m it; rest ← elements_from m old; mret (Saw (x :: rest), (m, that))
  | Iterate => l ← elements m; mret (Saw l, (m, that))
  end.

(** The same on plain lists; [size] counts modulo [2^64]. *)
Definition exec_list (c : command) (s : list T * list T) : res (observation * (list T * list T)) :=
  let '(l, l2) := s in
  match c with
  | PushBack x => mret (Saw [], (l ++ [x], l2))
  | Splice => mret (Saw [], (l ++ l2, []))
  | SpliceRange i j =>
      if decide (i ≤ j ∧ i < length l2 ∧ j ≤ length l2) then
        mret (Saw [], (l ++ slice i (j - i) l2, take i l2 ++ drop j l2))
      else Err Undefined
  | Generate n => mret (Saw [], (drop (Z.to_nat n) l, take (Z.to_nat n) l))
  | PopBack =>
      match last l with Some x => Ret (Saw [x], (take (pred (length l)) l, l2)) | None => Err Undefined end
  | EraseAt n =>
      match l !! n with Some x => Ret (Saw (x :: drop (S n) l), (delete n l, l2)) | None => Err Undefined end
  | Swap => mret (Saw [], (l2, l))
  | Move => mret (Saw [], ([], l))
  | SizeOf => mret (Counted (u64 (Z.of_nat (length l))), s)
  | Empty => mret (Said (bool_decide (l = [])), s)
  | Front => match l with x :: _ => Ret (Saw [x], s) | [] => Err Undefined end
  | FromEnd n => match reverse l !! pred n with
      | Some x => if decide (n = 0) then Err Undefined else Ret (Saw [x], s)
      | None => Err Undefined end
  | PostIncrement n => if decide (n < length l) then Ret (Saw (drop n l), s) else Err Undefined
  | PostDecrement n => if decide (n < length l) then Ret (Saw (drop (length l - S n) l), s) else Err Undefined
  | Iterate => mret (Saw l, s)
  end.

Fixpoint run {S} (exec : command → S → res (observation * S)) (cs : list command) (s : S) : res (list observation) :=
  match cs with
  | [] => Ret []
  | c :: cs => '(o, s) ← exec c s; os ← run exec cs s; mret (o :: os)
  end.

Definition command_ok (c : command) : Prop := match c with Generate n => (0 ≤ n)%Z | _ => True end.

Lemma elements_from_repr m l it n : Repr m l → designates m it n → elements_from m it = Ret (drop n l).
Proof. intros H D. apply (visit_repr m l _ n); [done|done|]. destruct H as (_ & <- & _). lia. Qed.

Lemma elements_repr m l : Repr m l → elements m = Ret l.
Proof. intros H. by apply (elements_from_repr m l _ 0), (begin_designates m l). Qed.

Lemma push_all_repr xs : ∀ m l, Repr m l → Repr (foldl (λ m x, push_back x m) m xs) (l ++ xs).
Proof.
  induction xs as [|x xs IH]; intros m l H; cbn; [by rewrite app_nil_r|].
  rewrite cons_middle, app_assoc. by apply IH, push_back_repr.
Qed.

Lemma advance_repr m l n : ∀ it i,
  Repr m l → designates m it i →
  if decide (i + n ≤ length l) then ∃ it', advance n m it = Ret it' ∧ designates m it' (i + n)
  else advance n m it = Err Undefined.
Proof.
  induction n as [|n IH]; intros it i H D; pose proof (designates_bound m l it i H D).
  { rewrite decide_True, Nat.add_0_r by lia. eauto. }
  cbn [advance]. destruct (decide (i < length l)) as [Hi|Hi].
  - destruct (incr_designates m l it i) as (it' & -> & D'); [done..|]. cbn [mbind res_bind].
    specialize (IH it' (S i) H D'). by rewrite Nat.add_succ_r.
  - rewrite decide_False by lia. assert (i = length l) as -> by lia.
    by rewrite (incr_end m l).
Qed.

(** From the beginning. *)
Lemma advance_begin m l n :
  Repr m l →
  if decide (n ≤ length l) then ∃ it, advance n m (begin_ m) = Ret it ∧ designates m it n
  else advance n m (begin_ m) = Err Undefined.
Proof. intros H. exact (advance_repr m l n (begin_ m) 0 H (begin_designates m l H)). Qed.

Lemma decr_begin m l it : Repr m l → designates m it 0 → decr m it = Err Undefined.
Proof.
  intros (Hne & <- & _) D. unfold decr.
  assert (E0 : _it1 it = 0).
  { destruct D as [(ls & c & ls' & j & E & -> & Hj & Hn)|[-> Hn]]; cbn [_it1].
    - destruct ls as [|c' ls]; [done|]. rewrite E in Hne. apply Forall_cons in Hne as [Hc _].
      destruct c'; [done|]. cbn in Hn. lia.
    - destruct (_lists m) as [|c ls]; [done|]. apply Forall_cons in Hne as [Hc _]. by destruct c. }
  rewrite E0. destruct (Nat.eqb_spec 0 (length (_lists m))) as [|H0]; [done|].
  destruct D as [(ls & c & ls' & j & E & -> & Hj & Hn)|[H1 _]]; [|lia]. cbn [_it1] in *.
  destruct ls; [|done]. cbn in Hn. by rewrite <- Hn, bool_decide_eq_true_2.
Qed.

Lemma retreat_repr m l n : ∀ it i,
  Repr m l → designates m it i →
  if decide (n ≤ i) then ∃ it', retreat n m it = Ret it' ∧ designates m it' (i - n)
  else retreat n m it = Err Undefined.
Proof.
  induction n as [|n IH]; intros it i H D; pose proof (designates_bound m l it i H D).
  { rewrite decide_True, Nat.sub_0_r by lia. eauto. }
  cbn [retreat]. destruct i as [|i].
  - by rewrite (decr_begin m l).
  - destruct (decr_designates m l it i) as (it' & -> & D'); [done..|]. cbn [mbind res_bind].
    specialize (IH it' i H D'). do 2 case_decide; (done || lia).
Qed.

Lemma retreat_end m l n :
  Repr m l →
  if decide (n ≤ length l) then ∃ it, retreat n m (end_ m) = Ret it ∧ designates m it (length l - n)
  else retreat n m (end_ m) = Err Undefined.
Proof. intros H. exact (retreat_repr m l n (end_ m) (length l) H (end_designates m l H)). Qed.

(** Both lists are represented. *)
Definition Repr2 (s : MultiList T * MultiList T) (t : list T * list T) : Prop := Repr s.1 t.1 ∧ Repr s.2 t.2.

Lemma exec_SpliceRange i j m that l l2 :
  Repr m l → Repr that l2 →
  match exec_list (SpliceRange i j) (l, l2) with
  | Ret (o, t) => ∃ s, exec_multi (SpliceRange i j) (m, that) = Ret (o, s) ∧ Repr2 s t
  | Err f => exec_multi (SpliceRange i j) (m, that) = Err f
  end.
Proof.
  intros H1 H2. cbn [exec_list exec_multi].
  pose proof (advance_begin that l2 i H2) as Hb. pose proof (advance_begin that l2 j H2) as He.
  destruct (decide (i ≤ length l2)) as [Hi|]; [destruct Hb as (b & -> & Db)|rewrite Hb, decide_False by lia; done].
  destruct (decide (j ≤ length l2)) as [Hj|]; [destruct He as (e & -> & De)|rewrite He, decide_False by lia; done].
  cbn [mbind res_bind]. case_decide as Hc.
  - destruct (splice_range_moves m that l l2 b e i j) as (m' & that' & -> & R1 & R2); [done..|lia|lia|].
    eexists. split; [done|]. by split.
  - by rewrite (splice_range_undefined m that l2 b e i j) by (done || lia).
Qed.

Lemma exec_EraseAt n m that l l2 :
  Repr m l → Repr that l2 →
  match exec_list (EraseAt n) (l, l2) with
  | Ret (o, t) => ∃ s, exec_multi (EraseAt n) (m, that) = Ret (o, s) ∧ Repr2 s t
  | Err f => exec_multi (EraseAt n) (m, that) = Err f
  end.
Proof.
  intros H1 H2. cbn [exec_list exec_multi]. pose proof (advance_begin m l n H1) as Ha.
  case_decide as Hn; [|by rewrite (lookup_ge_None_2 l), Ha by lia].
  destruct Ha as (it & -> & D). cbn [mbind res_bind]. rewrite (deref_designates m l it n) by done.
  destruct (l !! n) as [x|] eqn:Ex; cbn [mbind res_bind]; [|done].
  destruct (erase_repr m l it n H1 D) as (m' & it' & -> & H' & D'); [by eapply lookup_lt_Some|].
  cbn [mbind res_bind]. rewrite (elements_from_repr m' (delete n l) it' n) by done. cbn [mbind res_bind mret res_ret].
  exists (m', that). split; [|by split]. cbn. do 4 f_equal. rewrite delete_take_drop.
  apply lookup_lt_Some in Ex. by rewrite drop_app_length' by (rewrite length_take; lia).
Qed.

Lemma exec_FromEnd n m that l l2 :
  Repr m l → Repr that l2 →
  match exec_list (FromEnd n) (l, l2) with
  | Ret (o, t) => ∃ s, exec_multi (FromEnd n) (m, that) = Ret (o, s) ∧ Repr2 s t
  | Err f => exec_multi (FromEnd n) (m, that) = Err f
  end.
Proof.
  intros H1 H2. cbn [exec_list exec_multi]. pose proof (retreat_end m l n H1) as Ha.
  destruct (decide (n ≤ length l)) as [Hn|Hn].
  2: { rewrite lookup_ge_None_2 by (rewrite length_reverse; lia). by rewrite Ha. }
  destruct Ha as (it & -> & D). cbn [mbind res_bind]. rewrite (deref_designates m l it _) by done.
  destruct n as [|n].
  { rewrite (lookup_ge_None_2 l) by lia. by destruct (reverse l !! _). }
  cbn [pred]. rewrite reverse_lookup by lia. destruct (l !! _) as [x|] eqn:Ex; cbn; [|done].
  eexists. split; [done|]. by split.
Qed.

Lemma exec_PostIncrement n m that l l2 :
  Repr m l → Repr that l2 →
  match exec_list (PostIncrement n) (l, l2) with
  | Ret (o, t) => ∃ s, exec_multi (PostIncrement n) (m, that) = Ret (o, s) ∧ Repr2 s t
  | Err f => exec_multi (PostIncrement n) (m, that) = Err f
  end.
Proof.
  intros H1 H2. cbn [exec_list exec_multi]. pose proof (advance_begin m l n H1) as Ha.
  destruct (decide (n ≤ length l)) as [Hn|Hn]; [|by rewrite Ha, decide_False by lia].
  destruct Ha as (it & -> & D). cbn [mbind res_bind]. unfold const_incr_post. case_decide as Hl.
  - destruct (incr_designates m l it n H1 D Hl) as (it' & -> & D'). cbn [mbind res_bind mret res_ret].
    rewrite (deref_designates m l it n) by done. destruct (lookup_lt_is_Some_2 l n Hl) as [x Hx].
    rewrite Hx. cbn [mbind res_bind]. rewrite (elements_from_repr m l it' (S n)) by done. cbn.
    exists (m, that). split; [|by split]. by rewrite (drop_S _ _ _ Hx).
  - assert (n = length l) as -> by lia. by rewrite (incr_end m l).
Qed.

Lemma exec_PostDecrement n m that l l2 :
  Repr m l → Repr that l2 →
  match exec_list (PostDecrement n) (l, l2) with
  | Ret (o, t) => ∃ s, exec_multi (PostDecrement n) (m, that) = Ret (o, s) ∧ Repr2 s t
  | Err f => exec_multi (PostDecrement n) (m, that) = Err f
  end.
Proof.
  intros H1 H2. cbn [exec_list exec_multi]. pose proof (retreat_end m l n H1) as Ha.
  destruct (decide (n ≤ length l)) as [Hn|Hn]; [|by rewrite Ha, decide_False by lia].
  destruct Ha as (it & -> & D). cbn [mbind res_bind]. unfold decr_post. case_decide as Hl.
  - replace (length l - n) with (S (length l - S n)) in D by lia.
    destruct (decr_designates m l it _ H1 D) as (it' & -> & D'); [lia|]. cbn [mbind res_bind mret res_ret].
    rewrite (deref_designates m l it' _) by done.
    destruct (lookup_lt_is_Some_2 l (length l - S n)) as [x Hx]; [lia|].
    rewrite Hx. cbn [mbind res_bind]. rewrite (elements_from_repr m l it _) by done. cbn.
    exists (m, that). split; [|by split]. by rewrite (drop_S _ _ _ Hx).
  - assert (n = length l) as -> by lia. rewrite Nat.sub_diag in D. by rewrite (decr_begin m l).
Qed.

Lemma exec_simulates c s t :
  command_ok c → Repr2 s t →
  match exec_list c t with
  | Ret (o, t') => ∃ s', exec_multi c s = Ret (o, s') ∧ Repr2 s' t'
  | Err f => exec_multi c s = Err f
  end.
Proof.
  destruct s as [m that], t as [l l2]. intros Hc [H1 H2]; cbn [fst snd] in H1, H2.
  destruct c as [x| |i j|n| |n| | | | | |n|n|n|];
    [..|by apply exec_FromEnd|by apply exec_PostIncrement|by apply exec_PostDecrement|]; cbn [exec_list exec_multi mret res_ret].
  - eexists; split; [done|]. split; [by apply push_back_repr|done].
  - eexists; split; [done|]. by apply splice_repr.
  - by apply exec_SpliceRange.
  - destruct (TryGenerate_repr n m l) as [R1 R2]; [done..|].
    destruct (TryGenerate n m) as [r m']. eexists; split; [done|]. by split.
  - rewrite (back_repr m l) by done. destruct l as [|x l _] using rev_ind; [done|].
    rewrite last_snoc. replace (pred (length (l ++ [x]))) with (length l) by len.
    destruct (pop_back_repr m l x H1) as (m' & -> & H'). rewrite take_app_length. eexists; split; [done|]. by split.
  - by apply exec_EraseAt.
  - eexists; split; [done|]. by split.
  - eexists; split; [done|]. split; [apply make_repr|done].
  - exists (m, that). split; [|by split]. destruct H1 as (_ & _ & Hs). unfold size. by rewrite Hs.
  - exists (m, that). split; [|by split]. by rewrite (empty_repr m l).
  - rewrite (front_repr m l) by done. destruct l; [done|]. eexists; split; [done|]. by split.
  - rewrite (elements_repr m l H1). eexists; split; [done|]. by split.
Qed.

(** C32: two [MultiList]s cannot be told from two plain lists: any sequence of appends,
    splices of a whole list or of a range, generations, removals, erasures, swaps, moves,
    size and emptiness tests, and iterations from either end, with the prefix operators, the
    postfix decrement and [ConstIterator]'s postfix increment, shows the same elements and
    sizes (modulo [2^64]), and is undefined at the same point, as the sequence run on plain
    lists whose range splice is undefined for a range that starts at the end (also an empty
    one) or ends before it starts.  [Iterator]'s postfix increment is not among the commands:
    it returns the new position ([postfix_increment_returns]). *)
Theorem multilist_refines_list (cs : list command) :
  Forall command_ok cs → run exec_multi cs (make, make) = run exec_list cs ([], []).
Proof.
  assert (∀ s t, Repr2 s t → Forall command_ok cs → run exec_multi cs s = run exec_list cs t) as G;
    [|apply (G (make, make) ([], [])); split; apply make_repr].
  induction cs as [|c cs IH]; intros s t H Hok; cbn [run]; [done|].
  apply Forall_cons in Hok as [Hc Hok]. pose proof (exec_simulates c s t Hc H) as Hs.
  destruct (exec_list c t) as [[o t']|f]; [|by rewrite Hs].
  destruct Hs as (s' & -> & H'). cbn [mbind res_bind]. by rewrite (IH s' t').
Qed.

End Commands.
Arguments command : clear implicits.
Arguments observation : clear implicits.

(** the two postfix increments differ: [ConstIterator::operator++(int)] returns
    the position before the step, [Iterator::operator++(int)] the one after it. *)
Theorem postfix_increment_returns {T} (m : MultiList T) l it n :
  Repr m l → designates m it n → n < length l →
  (∃ it' r, MultiList.const_incr_post m it = Ret (it', r) ∧ designates m r n ∧ designates m it' (S n)) ∧
  (∃ it' r, MultiList.incr_post m it = Ret (it', r) ∧ designates m r (S n) ∧ designates m it' (S n)).
Proof.
  intros H D Hn. destruct (incr_designates m l it n H D Hn) as (it' & E & D').
  unfold MultiList.const_incr_post, MultiList.incr_post. rewrite E. cbn. eauto 10.
Qed.

(** ** Witnesses *)

Definition of_list (xs : list nat) : MultiList nat :=
  foldl (λ m x, MultiList.push_back x m) MultiList.make xs.

Lemma of_list_repr xs : Repr (of_list xs) xs.
Proof. apply (push_all_repr xs MultiList.make []), make_repr. Qed.

Lemma splice_range_moves_witness :
  ∃ this' that', MultiList.splice_range (of_list [1; 2]) (of_list (seq 10 25))
      (mkIterator 0 (Some 3)) (mkIterator 2 (Some 1)) = Ret (this', that') ∧
    Repr this' ([1; 2] ++ seq 13 18) ∧ Repr that' ([10; 11; 12] ++ seq 31 4).
Proof.
  apply (splice_range_moves (of_list [1; 2]) (of_list (seq 10 25)) [1; 2] (seq 10 25) _ _ 3 21);
    [apply of_list_repr|apply of_list_repr| | |lia|cbn; lia].
  - left. exists [], (seq 10 10), [seq 20 10; seq 30 5], 3. cbn. repeat split; lia.
  - left. exists [seq 10 10; seq 20 10], (seq 30 5), [], 1. cbn. repeat split; lia.
Defined.

Lemma splice_range_empty_undefined_witness :
  MultiList.splice_range (of_list [1]) (of_list []) (mkIterator 0 None) (mkIterator 0 None) = Err Undefined.
Proof. apply (splice_range_empty_undefined (of_list [1]) (of_list []) []), of_list_repr. Defined.

Definition pushes (xs : list nat) : list (command nat) := PushBack <$> xs.

Lemma multilist_refines_list_witness :
  run exec_multi (pushes (seq 1 31) ++ [Generate 5; EraseAt 24; Swap; SpliceRange 3 6; Iterate; SizeOf; FromEnd 2;
    PopBack; PostIncrement 5; SpliceRange 22 22])
    (MultiList.make, MultiList.make) = Err Undefined ∧
  drop 31 <$> run exec_multi (pushes (seq 1 31) ++ [Generate 5; EraseAt 24; Swap; SpliceRange 3 6; Iterate; SizeOf;
    FromEnd 2; PopBack; PostIncrement 5]) (MultiList.make, MultiList.make) =
  Ret [Saw []; Saw [30; 31]; Saw []; Saw []; Saw [1; 2; 3; 4; 5; 9; 10; 11]; Counted 8; Saw [10]; Saw [11]; Saw [9; 10]].
Proof.
  split.
  - etransitivity; [apply multilist_refines_list|vm_compute; reflexivity].
    repeat (constructor; [cbn; lia || exact I|]); constructor.
  - etransitivity; [apply (f_equal (fmap (drop 31))), multilist_refines_list|vm_compute; reflexivity].
    repeat (constructor; [cbn; lia || exact I|]); constructor.
Defined.

Lemma postfix_increment_returns_witness :
  ∃ it' r, MultiList.incr_post (of_list [1; 2]) (mkIterator 0 (Some 0)) = Ret (it', r) ∧
    designates (of_list [1; 2]) r 1.
Proof.
  destruct (postfix_increment_returns (of_list [1; 2]) [1; 2] (mkIterator 0 (Some 0)) 0)
    as [_ (it' & r & H1 & H2 & _)].
  - apply of_list_repr.
  - left. exists [], [1; 2], [], 0. cbn. repeat split; lia.
  - cbn; lia.
  - exists it', r. split; [exact H1|exact H2].
Defined.
