(* ===== verification/RecvQueue.v ===== *)
(** * RecvQueue
    [include/RecvQueue.hpp], [src/RecvQueue.cpp]: the reordering buffer of a
    connection, and the proof that what it hands to the user is the packets
    numbered 1, 2, 3, ... in order, each exactly once. *)
From S2P Require Import Prelude Addr Packet.
Local Open Scope Z_scope.

Inductive RecvQueueStatus := RQ_Invalid | RQ_New | RQ_Full | RQ_Duplicated.

#[export] Instance RecvQueueStatus_eq_dec : EqDecision RecvQueueStatus.
Proof. solve_decision. Defined.

(** [_queue] maps the occupied slots; the others hold a null pointer. *)
Record RecvQueue (P : Type) := mkRecvQueue {
  rq_queue : gmap Z P;
  rq_data : list P;
  rq_selectiveAcks : list Z;
  rq_begin : Z;   (* _beginFullRecievedAck *)
}.
Arguments mkRecvQueue {_} _ _ _ _.
Arguments rq_queue {_} _.
Arguments rq_data {_} _.
Arguments rq_selectiveAcks {_} _.
Arguments rq_begin {_} _.

(** [~SeqNumberType {}]: the number of packets that want no acknowledgement. *)
Definition no_number : Z := 2 ^ 32 - 1.

Module RecvQueue.
Section Operations.
Context {P : Type} `{!IPacket P}.
Implicit Types (s : RecvQueue P) (packet : P).

Definition QueueSize : Z := 250000.

Definition make : RecvQueue P := mkRecvQueue ∅ [] [] 1.

(** [SeqNumberType packetNumber = packet->GetSeqNumber()]. *)
Definition number packet : Z := u32 (GetSeqNumber packet).

Definition push_ack (n : Z) s : RecvQueue P :=
  mkRecvQueue (rq_queue s) (rq_data s) (rq_selectiveAcks s ++ [n]) (rq_begin s).

(** The status and the packet given back, and the queue. *)
Definition AddPacket packet s : res (RecvQueueStatus * option P * RecvQueue P) :=
  let packetNumber := number packet in
  if packetNumber =? no_number then Err (Throws "Wrong packet number")
  else if packetNumber <? rq_begin s then
    Ret (RQ_Duplicated, Some packet, push_ack packetNumber s)
  else if QueueSize <=? u32 (packetNumber - rq_begin s) then Ret (RQ_Full, Some packet, s)
  else
    let s := push_ack packetNumber s in
    let slot := packetNumber `mod` QueueSize in
    match rq_queue s !! slot with
    | Some _ => Ret (RQ_Duplicated, Some packet, s)
    | None =>
        Ret (RQ_New, None,
          mkRecvQueue (<[slot := packet]> (rq_queue s)) (rq_data s) (rq_selectiveAcks s) (rq_begin s))
    end.

(** The [while (true)] of [ProccessUnorderedPackets]. *)
Fixpoint Proccess_loop (fuel : nat) (queue : gmap Z P) (begin : Z) (data : list P)
    : res (gmap Z P * Z * list P) :=
  match fuel with
  | O => Err OutOfFuel
  | S fuel =>
      let slot := begin `mod` QueueSize in
      assert_that (negb (begin =? 2 ^ 32 - 1));;
      match queue !! slot with
      | None => mret (queue, begin, data)
      | Some packet => Proccess_loop fuel (delete slot queue) (u32 (begin + 1)) (data ++ [packet])
      end
  end.

(** Every turn but the last empties a slot. *)
Definition ProccessUnorderedPackets s : res (RecvQueue P) :=
  '(queue, begin, data) ← Proccess_loop (S (size (rq_queue s))) (rq_queue s) (rq_begin s) [];
  mret (mkRecvQueue queue
    (match data with [] => rq_data s | _ => rq_data s ++ data end)
    (rq_selectiveAcks s) begin).

Definition GetSelectiveAcks s : list Z * RecvQueue P :=
  (rq_selectiveAcks s, mkRecvQueue (rq_queue s) (rq_data s) [] (rq_begin s)).

Definition GetLastAck s : Z := u32 (rq_begin s - 1).

(** The user data is the [LockedList] clients take packets from, in order. *)
Definition GetUserData s : list P := rq_data s.
Definition set_user_data (data : list P) s : RecvQueue P :=
  mkRecvQueue (rq_queue s) data (rq_selectiveAcks s) (rq_begin s).

End Operations.
End RecvQueue.

Section Correctness.
Context {P : Type} `{!IPacket P}.
Implicit Types (s : RecvQueue P) (p : P).
Import RecvQueue.

Lemma number_range p : 0 ≤ number p < 2 ^ 32.
Proof. apply wrap_range. lia. Qed.

(** Each buffered packet sits in its slot and its number lies in the window. *)
Record Inv s : Prop := {
  inv_begin : 1 ≤ rq_begin s < 2 ^ 32;
  inv_slot i p : rq_queue s !! i = Some p →
    i = number p `mod` QueueSize ∧ rq_begin s ≤ number p < rq_begin s + QueueSize ∧ number p < no_number;
}.

Lemma make_inv : Inv make.
Proof. split; [cbn; lia|]. intros i p; cbn. by rewrite lookup_empty. Qed.

(** Two numbers of one window with the same slot are equal. *)
Lemma slot_inj b m n :
  b ≤ m < b + QueueSize → b ≤ n < b + QueueSize → m `mod` QueueSize = n `mod` QueueSize → m = n.
Proof. unfold QueueSize. intros. Z.to_euclidean_division_equations. lia. Qed.

Lemma AddPacket_inv p s st r s' : Inv s → AddPacket p s = Ret (st, r, s') → Inv s'.
Proof.
  intros [Hb Hs]. unfold AddPacket. pose proof (number_range p).
  case_match eqn:E1; [done|]. apply Z.eqb_neq in E1.
  case_match eqn:E2; [intros [= <- <- <-]; by split|]. apply Z.ltb_ge in E2.
  rewrite wrap_small by lia.
  case_match eqn:E3; [intros [= <- <- <-]; by split|]. apply Z.leb_gt in E3.
  case_match eqn:E4; intros [= <- <- <-]; [by split|]. split; cbn in *; [done|].
  unfold no_number in *. intros i q [[<- <-]|[_ Hq]]%lookup_insert_Some; [lia|by apply Hs].
Qed.

(** One turn of the loop, on the state it stands for. *)
Lemma turn_inv s p :
  Inv s → rq_begin s ≠ 2 ^ 32 - 1 → rq_queue s !! (rq_begin s `mod` QueueSize) = Some p →
  number p = rq_begin s ∧ u32 (rq_begin s + 1) = rq_begin s + 1 ∧
  Inv (mkRecvQueue (delete (rq_begin s `mod` QueueSize) (rq_queue s)) (rq_data s)
         (rq_selectiveAcks s) (rq_begin s + 1)).
Proof.
  intros [Hb Hs] Hmax Hp. assert (number p = rq_begin s) as Hn.
  { destruct (Hs _ _ Hp) as (? & ? & _). apply (slot_inj (rq_begin s)); [done| |done]. unfold QueueSize; lia. }
  split; [done|]. split; [apply wrap_small; lia|]. split; cbn; [lia|].
  intros i q [Hne Hq]%lookup_delete_Some. destruct (Hs _ _ Hq) as (-> & Hw & ?).
  assert (number q ≠ rq_begin s) by congruence. repeat split; lia.
Qed.

Definition seq_from (b : Z) (l : list P) : Prop := number <$> l = seqZ b (Z.of_nat (length l)).

Lemma seq_from_snoc b l p :
  seq_from b l → number p = b + Z.of_nat (length l) → seq_from b (l ++ [p]).
Proof.
  unfold seq_from. intros H Hp. rewrite fmap_app, H, length_app. cbn.
  rewrite Nat2Z.inj_add, seqZ_app by lia. rewrite Hp. done.
Qed.

(** What the loop computes.  [pre] are the packets already taken out. *)
Lemma Proccess_loop_spec fuel : ∀ s pre,
  Inv s → (size (rq_queue s) < fuel)%nat →
  match Proccess_loop fuel (rq_queue s) (rq_begin s) pre with
  | Ret (queue, begin, data) => ∃ l, data = pre ++ l ∧
      Inv (mkRecvQueue queue (rq_data s) (rq_selectiveAcks s) begin) ∧
      begin = rq_begin s + Z.of_nat (length l) ∧ seq_from (rq_begin s) l ∧
      queue !! (begin `mod` QueueSize) = None ∧
      (∀ p, p ∈ l → rq_queue s !! (number p `mod` QueueSize) = Some p) ∧
      (∀ i p, rq_queue s !! i = Some p → p ∈ l ∨ queue !! i = Some p) ∧
      (∀ i p, queue !! i = Some p → rq_queue s !! i = Some p)
  | Err f => f = AssertFails ∧
      ∀ n, rq_begin s ≤ n < no_number → ∃ p, rq_queue s !! (n `mod` QueueSize) = Some p ∧ number p = n
  end.
Proof.
  induction fuel as [|fuel IH]; intros s pre Hs Hf; [lia|]. cbn [Proccess_loop].
  destruct (Z.eqb_spec (rq_begin s) (2 ^ 32 - 1)) as [Hmax|Hmax]; cbn [negb assert_that mbind res_bind].
  { split; [done|]. unfold no_number. lia. }
  destruct (rq_queue s !! _) as [p|] eqn:Hp.
  2: { exists []. rewrite app_nil_r. cbn [length]. destruct s as [q d a b]; cbn in *.
       split; [done|]. split; [done|]. split; [lia|]. split; [done|]. split; [done|].
       split; [set_solver|]. auto. }
  destruct (turn_inv s p Hs Hmax Hp) as (Hn & -> & Hs').
  specialize (IH _ (pre ++ [p]) Hs'). cbn [rq_queue rq_begin rq_data rq_selectiveAcks] in IH.
  assert (size (delete (rq_begin s `mod` QueueSize) (rq_queue s)) = pred (size (rq_queue s))) as Hsz
    by (apply map_size_delete_Some; eauto).
  assert (size (rq_queue s) ≠ 0)%nat by (apply map_size_non_empty_iff; intros E; by rewrite E in Hp).
  specialize (IH ltac:(lia)).
  destruct (Proccess_loop _ _ _ _) as [[[queue begin] data]|f].
  - destruct IH as (l & -> & HI & Hb & Hl & Hnone & Hin & Hsub & Hold).
    exists (p :: l). rewrite <- app_assoc. split; [done|]. split; [done|]. cbn [length].
    split; [lia|]. split.
    { unfold seq_from in *. rewrite fmap_cons, Hl. cbn [length].
      rewrite Nat2Z.inj_succ, (seqZ_cons (rq_begin s)), Z.pred_succ by lia. by rewrite Hn. }
    split; [done|]. split.
    { intros q [->|Hq]%elem_of_cons; [by rewrite Hn|].
      by apply Hin, lookup_delete_Some in Hq as [_ ?]. }
    split.
    { intros i q Hq. destruct (decide (i = rq_begin s `mod` QueueSize)) as [->|Hne].
      - rewrite Hp in Hq. injection Hq as <-. left. by left.
      - destruct (Hsub i q); [by rewrite lookup_delete_ne| |by right]. left. by right. }
    intros i q Hq%Hold. by apply lookup_delete_Some in Hq as [_ ?].
  - destruct IH as [-> Hall]. split; [done|]. intros n Hn'.
    destruct (decide (n = rq_begin s)) as [->|Hne]; [eauto|].
    destruct (Hall n) as (q & Hq & <-); [lia|]. apply lookup_delete_Some in Hq as [_ ?]. eauto.
Qed.

End Correctness.

(** ** Histories: any interleaving of the operations *)

Section Histories.
Context {P : Type} `{!IPacket P}.
Implicit Types (s : RecvQueue P) (p : P).
Import RecvQueue.

(** What the outside has seen of a queue: the packets given to [AddPacket] with
    their status, the packets the user took, and the acknowledgements handed out. *)
Record History := mkHistory {
  h_arrived : list (P * RecvQueueStatus);
  h_taken : list P;
  h_acked : list Z;
}.

(** The receive thread adds packets, processes and collects acknowledgements; the
    user takes any prefix of the user data. *)
Inductive event : RecvQueue P * History → RecvQueue P * History → Prop :=
  | ev_add s h p st r s' :
      AddPacket p s = Ret (st, r, s') →
      event (s, h) (s', mkHistory (h_arrived h ++ [(p, st)]) (h_taken h) (h_acked h))
  | ev_process s h s' :
      ProccessUnorderedPackets s = Ret s' → event (s, h) (s', h)
  | ev_acks s h :
      event (s, h) ((GetSelectiveAcks s).2,
        mkHistory (h_arrived h) (h_taken h) (h_acked h ++ (GetSelectiveAcks s).1))
  | ev_take s h n :
      event (s, h) (set_user_data (drop n (GetUserData s)) s,
        mkHistory (h_arrived h) (h_taken h ++ take n (GetUserData s)) (h_acked h)).

Definition start : RecvQueue P * History := (make, mkHistory [] [] []).

Definition delivered s (h : History) : list P := h_taken h ++ rq_data s.

Record HInv s (h : History) : Prop := {
  hi_inv : Inv s;
  hi_order : number <$> delivered s h = seqZ 1 (rq_begin s - 1);
  hi_genuine p : p ∈ delivered s h ∨ rq_queue s !! (number p `mod` QueueSize) = Some p →
    (p, RQ_New) ∈ h_arrived h;
  hi_kept p : (p, RQ_New) ∈ h_arrived h →
    p ∈ delivered s h ∨ rq_queue s !! (number p `mod` QueueSize) = Some p;
  hi_acks : h_acked h ++ rq_selectiveAcks s =
    (number ∘ fst) <$> filter (λ a, a.2 ≠ RQ_Full) (h_arrived h);
}.

Lemma seq_from_fmap b (l : list P) n : number <$> l = seqZ b n → 0 ≤ n → n = Z.of_nat (length l).
Proof. intros H%(f_equal length) ?. rewrite length_fmap, length_seqZ in H. lia. Qed.

Lemma new_snoc (l : list (P * RecvQueueStatus)) p q st :
  (p, RQ_New) ∈ l ++ [(q, st)] ↔ (p, RQ_New) ∈ l ∨ p = q ∧ st = RQ_New.
Proof. rewrite elem_of_app, list_elem_of_singleton. naive_solver. Qed.

Lemma add_hinv s h p st r s' :
  HInv s h → AddPacket p s = Ret (st, r, s') →
  HInv s' (mkHistory (h_arrived h ++ [(p, st)]) (h_taken h) (h_acked h)).
Proof.
  intros [Hi Ho Hg Hk Ha] Hadd. pose proof (AddPacket_inv _ _ _ _ _ Hi Hadd) as Hi'.
  unfold AddPacket in Hadd. case_match; [done|].
  assert (Hacks : ∀ t, t ≠ RQ_Full →
    h_acked h ++ (rq_selectiveAcks s ++ [number p]) =
    (number ∘ fst) <$> filter (λ a, a.2 ≠ RQ_Full) (h_arrived h ++ [(p, t)])).
  { intros t Ht. by rewrite filter_app, fmap_app, <- Ha, app_assoc, filter_cons_True. }
  repeat case_match; simplify_eq; split; try done; cbn in *; auto.
  all: try (intros q; rewrite new_snoc; by naive_solver).
  - by rewrite filter_app, fmap_app, Ha, filter_cons_False, filter_nil, app_nil_r by tauto.
  - intros q. rewrite new_snoc. intros [Hq|[[_ <-]|[_ Hq]]%lookup_insert_Some]; auto.
  - intros q. rewrite new_snoc. intros [Hq|[-> _]].
    + apply Hk in Hq as [Hq|Hq]; [by left|]. right. by rewrite lookup_insert_ne by congruence.
    + right. apply lookup_insert_eq.
Qed.

Lemma process_hinv s h s' : HInv s h → ProccessUnorderedPackets s = Ret s' → HInv s' h.
Proof.
  intros [Hi Ho Hg Hk Ha] Hp. unfold ProccessUnorderedPackets in Hp.
  pose proof (Proccess_loop_spec (S (size (rq_queue s))) s [] Hi ltac:(lia)) as Hl.
  destruct (Proccess_loop _ _ _ _) as [[[queue begin] data]|]; [|done].
  destruct Hl as (l & -> & Hi' & -> & Hseq & _ & Hin & Hsub & Hold).
  injection Hp as <-. cbn [app].
  assert (Hd : (match l with [] => rq_data s | _ => rq_data s ++ l end) = rq_data s ++ l)
    by (destruct l; by rewrite ?app_nil_r).
  rewrite Hd. pose proof (inv_begin _ Hi).
  split; unfold delivered in *; cbn [rq_begin rq_data rq_queue rq_selectiveAcks] in *; try done.
  - split; [by apply Hi'|]. intros i p Hp. by apply (inv_slot _ Hi').
  - rewrite app_assoc, fmap_app, Ho, Hseq.
    replace (rq_begin s + Z.of_nat (length l) - 1) with (rq_begin s - 1 + Z.of_nat (length l)) by lia.
    rewrite seqZ_app by lia. do 2 f_equal. lia.
  - intros p [[Hp|[Hp|Hp]%elem_of_app]%elem_of_app|Hp]; apply Hg; rewrite elem_of_app; auto.
  - intros p [Hp|Hp]%Hk; rewrite app_assoc, (elem_of_app (_ ++ _)); [by left; left|].
    destruct (Hsub _ _ Hp); [left; by right|by right].
Qed.

Lemma event_hinv s h s' h' : HInv s h → event (s, h) (s', h') → HInv s' h'.
Proof.
  intros H E. inversion E; subst; [by eapply add_hinv|by eapply process_hinv|..].
  - destruct H as [Hi Ho Hg Hk Ha]. split; try done.
    + split; apply Hi.
    + by rewrite app_nil_r.
  - destruct H as [Hi Ho Hg Hk Ha].
    assert (delivered (set_user_data (drop n (GetUserData s)) s)
      (mkHistory (h_arrived h) (h_taken h ++ take n (GetUserData s)) (h_acked h)) = delivered s h) as Hd.
    { unfold delivered. cbn. by rewrite <- app_assoc, take_drop. }
    split; rewrite ?Hd; try done. split; apply Hi.
Qed.

Lemma reachable_hinv s h : rtc event start (s, h) → HInv s h.
Proof.
  apply (rtc_invariant event (λ x, HInv x.1 x.2)).
  - split; cbn; [apply make_inv|done|set_solver|set_solver|done].
  - intros [s0 h0] [s1 h1]. apply event_hinv.
Qed.

(** C18: in-order, gap-free, exactly-once delivery: whatever packets arrive, in
    whatever order and however the operations interleave, the packets handed to the
    user carry the numbers 1, 2, ..., [GetLastAck], each once and in this order, and
    each of them arrived from the network as a new packet. *)
Theorem delivery_in_order_exactly_once s h :
  rtc event start (s, h) →
  number <$> (h_taken h ++ GetUserData s) = seqZ 1 (GetLastAck s) ∧
  NoDup (number <$> (h_taken h ++ GetUserData s)) ∧
  ∀ p, p ∈ h_taken h ++ GetUserData s → (p, RQ_New) ∈ h_arrived h.
Proof.
  intros H%reachable_hinv. pose proof (inv_begin _ (hi_inv _ _ H)) as Hb.
  assert (number <$> (h_taken h ++ GetUserData s) = seqZ 1 (GetLastAck s)) as E.
  { unfold GetLastAck, GetUserData. rewrite wrap_small by lia. apply (hi_order _ _ H). }
  split; [done|]. split; [rewrite E; apply NoDup_seqZ|].
  intros p Hp. apply (hi_genuine _ _ H). by left.
Qed.

(** no packet is held back: once every number up to [m] has arrived and been
    accepted, [ProccessUnorderedPackets] has delivered them all. *)
Theorem delivery_complete s h s' m :
  rtc event start (s, h) → ProccessUnorderedPackets s = Ret s' →
  (∀ n, 1 ≤ n ≤ m → ∃ p, (p, RQ_New) ∈ h_arrived h ∧ number p = n) →
  m ≤ GetLastAck s'.
Proof.
  intros H%reachable_hinv Hp Hall. pose proof (process_hinv _ _ _ H Hp) as H'.
  pose proof (inv_begin _ (hi_inv _ _ H')) as Hb.
  unfold GetLastAck. rewrite wrap_small by lia.
  destruct (decide (m ≤ rq_begin s' - 1)) as [|Hm]; [done|].
  destruct (Hall (rq_begin s')) as (p & Hp' & Hn); [lia|].
  apply (hi_kept _ _ H') in Hp' as [Hin|Hslot].
  - apply (list_elem_of_fmap_2 number), (eq_rect _ (λ l, number p ∈ l)) with (2 := hi_order _ _ H') in Hin.
    apply elem_of_seqZ in Hin. lia.
  - unfold ProccessUnorderedPackets in Hp.
    pose proof (Proccess_loop_spec (S (size (rq_queue s))) s [] (hi_inv _ _ H) ltac:(lia)) as Hl.
    destruct (Proccess_loop _ _ _ _) as [[[queue begin] data]|]; [|done].
    injection Hp as <-. cbn in *. destruct Hl as (l & _ & _ & _ & _ & Hnone & _). congruence.
Qed.

(** every arriving packet is acknowledged exactly once, in order of arrival,
    duplicates included; only packets beyond the window are not. *)
Theorem acks_complete s h :
  rtc event start (s, h) →
  h_acked h ++ rq_selectiveAcks s =
    (number ∘ fst) <$> filter (λ a, a.2 ≠ RQ_Full) (h_arrived h).
Proof. intros H%reachable_hinv. apply (hi_acks _ _ H). Qed.

(** [ProccessUnorderedPackets] always terminates; the only way it fails is the
    [assert], with every number left of the 32-bit space received. *)
Theorem process_terminates s h :
  rtc event start (s, h) →
  (∃ s', ProccessUnorderedPackets s = Ret s') ∨
  ProccessUnorderedPackets s = Err AssertFails ∧
    ∀ n, 1 ≤ n < no_number → ∃ p, (p, RQ_New) ∈ h_arrived h ∧ number p = n.
Proof.
  intros H%reachable_hinv. unfold ProccessUnorderedPackets.
  pose proof (Proccess_loop_spec (S (size (rq_queue s))) s [] (hi_inv _ _ H) ltac:(lia)) as Hl.
  destruct (Proccess_loop _ _ _ _) as [[[queue begin] data]|f]; [left; eauto|right].
  destruct Hl as [-> Hl]. split; [done|]. intros n Hn.
  destruct (decide (rq_begin s ≤ n)) as [Hle|Hlt].
  - destruct (Hl n) as (p & Hp & Hn'); [lia|]. exists p. split; [|done].
    apply (hi_genuine _ _ H). right. congruence.
  - assert (n ∈ seqZ 1 (rq_begin s - 1)) as Hin by (apply elem_of_seqZ; lia).
    rewrite <- (hi_order _ _ H) in Hin. apply list_elem_of_fmap in Hin as (p & -> & Hp).
    exists p. split; [|done]. apply (hi_genuine _ _ H). by left.
Qed.

(** the status of an arriving packet: the number [2^32 - 1] is refused, a number
    already passed or already buffered is a duplicate, a number at least
    [QueueSize] ahead does not fit, and any other is accepted. *)
Theorem AddPacket_status s h p :
  rtc event start (s, h) → number p ≠ no_number →
  ∃ st r s', AddPacket p s = Ret (st, r, s') ∧
    (st = RQ_New ↔ GetLastAck s < number p ≤ GetLastAck s + QueueSize ∧
      ∀ q, (q, RQ_New) ∈ h_arrived h → number q ≠ number p) ∧
    (st = RQ_Full ↔ GetLastAck s + QueueSize < number p) ∧
    r = (if decide (st = RQ_New) then None else Some p).
Proof.
  intros H%reachable_hinv Hno. pose proof (hi_inv _ _ H) as Hi. pose proof (inv_begin _ Hi) as Hb.
  pose proof (number_range p) as Hr. unfold no_number in *.
  unfold AddPacket, GetLastAck. rewrite (wrap_small _ (rq_begin s - 1)) by lia.
  destruct (Z.eqb_spec (number p) no_number); [done|].
  destruct (Z.ltb_spec (number p) (rq_begin s)).
  { eexists _, _, _. split; [done|]. repeat split; try done; unfold QueueSize; lia. }
  rewrite wrap_small by lia.
  destruct (Z.leb_spec QueueSize (number p - rq_begin s)).
  { eexists _, _, _. split; [done|]. repeat split; try done; unfold QueueSize in *; lia. }
  destruct (rq_queue (push_ack (number p) s) !! _) as [q|] eqn:Eq; cbn in Eq.
  - eexists _, _, _. split; [done|]. repeat split; try done; try (unfold QueueSize in *; lia).
    intros [_ Hnew]. destruct (inv_slot _ Hi _ _ Eq) as (Hs & Hw & _).
    exfalso. apply (Hnew q).
    + apply (hi_genuine _ _ H). right. congruence.
    + symmetry. apply (slot_inj (rq_begin s)); [unfold QueueSize in *; lia|done|done].
  - eexists _, _, _. split; [done|]. repeat split; try done; try (unfold QueueSize in *; lia).
    intros q Hq Hn. apply (hi_kept _ _ H) in Hq as [Hq|Hq]; [|congruence].
    apply (list_elem_of_fmap_2 number) in Hq. rewrite (hi_order _ _ H) in Hq. apply elem_of_seqZ in Hq. lia.
Qed.

End Histories.

(** ** Witnesses: two packets arrive out of order, one twice, and the user takes one *)

Section Runs.
Context {P : Type} `{!IPacket P}.
Import RecvQueue.
Implicit Types x y : RecvQueue P * History (P:=P).

Definition do_add (p : P) x :=
  match AddPacket p x.1 with
  | Ret (st, _, s) => (s, mkHistory (h_arrived x.2 ++ [(p, st)]) (h_taken x.2) (h_acked x.2))
  | Err _ => x
  end.
Definition do_process x :=
  match ProccessUnorderedPackets x.1 with Ret s => (s, x.2) | Err _ => x end.
Definition do_take (n : nat) x :=
  (set_user_data (drop n (GetUserData x.1)) x.1,
   mkHistory (h_arrived x.2) (h_taken x.2 ++ take n (GetUserData x.1)) (h_acked x.2)).

Lemma do_add_rtc x y p : rtc event x y → rtc event x (do_add p y).
Proof.
  intros H. destruct y as [s h]. unfold do_add. cbn [fst snd].
  destruct (AddPacket p s) as [[[st r] s']|] eqn:E; [|done].
  eapply rtc_r; [done|by eapply ev_add].
Qed.
Lemma do_process_rtc x y : rtc event x y → rtc event x (do_process y).
Proof.
  intros H. destruct y as [s h]. unfold do_process. cbn [fst snd].
  destruct (ProccessUnorderedPackets s) eqn:E; [|done]. eapply rtc_r; [done|by apply ev_process].
Qed.
Lemma do_take_rtc x y n : rtc event x y → rtc event x (do_take n y).
Proof. intros H. destruct y as [s h]. eapply rtc_r; [done|apply ev_take]. Qed.
End Runs.

Definition numbered (n : Z) : Packet := SetSeqNumber n (Packet.make HeaderSize).

Definition sample : RecvQueue Packet * History :=
  do_add (numbered 4) (do_take 1 (do_process
    (do_add (numbered 1) (do_add (numbered 2) (do_add (numbered 2) start))))).

Lemma sample_reachable : rtc event start sample.
Proof.
  unfold sample. apply do_add_rtc, do_take_rtc, do_process_rtc. do 3 apply do_add_rtc. apply rtc_refl.
Qed.

Lemma sample_arrived : h_arrived sample.2 =
  [(numbered 2, RQ_New); (numbered 2, RQ_Duplicated); (numbered 1, RQ_New); (numbered 4, RQ_New)].
Proof. vm_compute. reflexivity. Qed.

Lemma delivery_in_order_exactly_once_witness :
  RecvQueue.number <$> (h_taken sample.2 ++ RecvQueue.GetUserData sample.1) = [1; 2].
Proof.
  etransitivity; [apply (delivery_in_order_exactly_once sample.1 sample.2), sample_reachable|].
  vm_compute. reflexivity.
Defined.

Lemma delivery_complete_witness : 2 ≤ RecvQueue.GetLastAck (do_process sample).1.
Proof.
  apply (delivery_complete sample.1 sample.2).
  - apply sample_reachable.
  - vm_compute. reflexivity.
  - intros n Hn. rewrite sample_arrived. assert (n = 1 ∨ n = 2) as [-> | ->] by lia.
    + exists (numbered 1). split; [|vm_compute; reflexivity].
      do 2 apply list_elem_of_further. apply list_elem_of_here.
    + exists (numbered 2). split; [|vm_compute; reflexivity]. apply list_elem_of_here.
Defined.

Lemma acks_complete_witness : h_acked sample.2 ++ rq_selectiveAcks sample.1 = [2; 2; 1; 4].
Proof.
  etransitivity; [apply (acks_complete sample.1 sample.2), sample_reachable|].
  vm_compute. reflexivity.
Defined.

Lemma process_terminates_witness :
  (∃ s', RecvQueue.ProccessUnorderedPackets sample.1 = Ret s') ∨
  RecvQueue.ProccessUnorderedPackets sample.1 = Err AssertFails ∧
    ∀ n, 1 ≤ n < no_number → ∃ p, (p, RQ_New) ∈ h_arrived sample.2 ∧ RecvQueue.number p = n.
Proof. apply (process_terminates sample.1 sample.2), sample_reachable. Defined.

Lemma AddPacket_status_witness :
  ∃ r s', RecvQueue.AddPacket (numbered 3) sample.1 = Ret (RQ_New, r, s').
Proof.
  destruct (AddPacket_status sample.1 sample.2 (numbered 3)) as (st & r & s' & E & Hnew & _).
  - apply sample_reachable.
  - vm_compute. discriminate.
  - assert (st = RQ_New) as ->.
    { apply Hnew. split; [vm_compute; split; [reflexivity|discriminate]|].
      intros q Hq. rewrite sample_arrived in Hq.
      repeat (apply elem_of_cons in Hq as [Hq|Hq];
              [try discriminate Hq; injection Hq as ->; vm_compute; discriminate|]).
      destruct (not_elem_of_nil _ Hq). }
    exists r, s'. exact E.
Defined.
