(* ===== verification/SendQueue.v ===== *)
(** * SendQueue
    [src/OutgoingPacket.cpp], [src/SendQueue.cpp]: the packets waiting to be sent,
    numbering of new packets and priority of resent ones. *)
From S2P Require Import Prelude Addr Packet.
From S2P Require Import RecvQueue.
Local Open Scope Z_scope.

(** [class OutgoingPacket]; times are nanoseconds of [steady_clock]. *)
Record OutgoingPacket (P : Type) := mkOutgoingPacket {
  op_packet : P;
  op_sendTime : Z;
  op_needAck : bool;
}.
Arguments mkOutgoingPacket {_} _ _ _.
Arguments op_packet {_} _.
Arguments op_sendTime {_} _.
Arguments op_needAck {_} _.

Module OutgoingPacket.
Section Operations.
Context {P : Type}.
Definition make (packet : P) (needAck : bool) : OutgoingPacket P := mkOutgoingPacket packet 0 needAck.
Definition GetPacket (o : OutgoingPacket P) : P := op_packet o.
Definition NeedAck (o : OutgoingPacket P) : bool := op_needAck o.
Definition GetSendTime (o : OutgoingPacket P) : Z := op_sendTime o.
Definition SetSendTime (t : Z) (o : OutgoingPacket P) : OutgoingPacket P :=
  mkOutgoingPacket (op_packet o) t (op_needAck o).
End Operations.
End OutgoingPacket.

(** [_resendPackets] is a heap kept by [push_heap]/[pop_heap]: only the packet with
    the least number can be taken, so the heap is the list of its packets. *)
Record SendQueue (P : Type) := mkSendQueue {
  sq_resendPackets : list (OutgoingPacket P);
  sq_needToSend : list (OutgoingPacket P);
  sq_serviceNeedToSend : list (OutgoingPacket P);
  sq_nextPacketNumber : Z;
}.
Arguments mkSendQueue {_} _ _ _ _.
Arguments sq_resendPackets {_} _.
Arguments sq_needToSend {_} _.
Arguments sq_serviceNeedToSend {_} _.
Arguments sq_nextPacketNumber {_} _.

Module SendQueue.
Section Operations.
Context {P : Type} `{!IPacket P}.
Implicit Types (s : SendQueue P) (packets : list (OutgoingPacket P)).

Definition make : SendQueue P := mkSendQueue [] [] [] 0.

(** One turn of the loop of [SendPackets]. *)
Definition SendPacket (needAck : bool) s (packet : P) : SendQueue P :=
  let packet := SetMagic packet in
  if needAck then
    let n := u32 (sq_nextPacketNumber s + 1) in
    mkSendQueue (sq_resendPackets s)
      (sq_needToSend s ++ [OutgoingPacket.make (SetSeqNumber n packet) needAck])
      (sq_serviceNeedToSend s) n
  else
    mkSendQueue (sq_resendPackets s) (sq_needToSend s)
      (sq_serviceNeedToSend s ++ [OutgoingPacket.make (SetSeqNumber no_number packet) needAck])
      (sq_nextPacketNumber s).

Definition SendPackets (packets : list P) (needAck : bool) s : SendQueue P :=
  foldl (SendPacket needAck) s packets.

Definition seq_of (o : OutgoingPacket P) : Z := GetSeqNumber (OutgoingPacket.GetPacket o).

(** [OutgoingComparator]: the reversed order, for a min-heap. *)
Definition OutgoingComparator (left right : OutgoingPacket P) : bool := seq_of right <? seq_of left.

Definition ReSendPackets packets s : SendQueue P :=
  mkSendQueue (sq_resendPackets s ++ packets) (sq_needToSend s) (sq_serviceNeedToSend s)
    (sq_nextPacketNumber s).

(** [pop_heap], [back], [pop_back]: a top element of the heap and the others. *)
Fixpoint pop_heap packets : option (OutgoingPacket P * list (OutgoingPacket P)) :=
  match packets with
  | [] => None
  | x :: rest =>
      match pop_heap rest with
      | None => Some (x, [])
      | Some (y, others) => if OutgoingComparator x y then Some (y, x :: others) else Some (x, rest)
      end
  end.

(** The [while] of [GetPacketsToSend]: the packets taken, the heap and [size]. *)
Fixpoint take_resends (fuel : nat) packets (size : Z) (result : list (OutgoingPacket P))
    : res (list (OutgoingPacket P) * list (OutgoingPacket P) * Z) :=
  if 0 <? size then
    match pop_heap packets with
    | None => Ret (result, packets, size)
    | Some (x, packets) =>
        match fuel with
        | O => Err OutOfFuel
        | S fuel => take_resends fuel packets (size - 1) (result ++ [x])
        end
    end
  else Ret (result, packets, size).

Definition GetPacketsToSend (size : Z) s : res (list (OutgoingPacket P) * SendQueue P) :=
  '(result, resend, size) ← take_resends (length (sq_resendPackets s)) (sq_resendPackets s) size [];
  let n := Z.to_nat size in
  mret (if negb (size =? 0) then
    (result ++ take n (sq_needToSend s),
     mkSendQueue resend (drop n (sq_needToSend s)) (sq_serviceNeedToSend s) (sq_nextPacketNumber s))
  else (result, mkSendQueue resend (sq_needToSend s) (sq_serviceNeedToSend s) (sq_nextPacketNumber s))).

(** [TryGenerate] of the largest [size_t]: all of them. *)
Definition GetServicePacketsToSend s : list (OutgoingPacket P) * SendQueue P :=
  (sq_serviceNeedToSend s,
   mkSendQueue (sq_resendPackets s) (sq_needToSend s) [] (sq_nextPacketNumber s)).

End Operations.
End SendQueue.

Section Correctness.
Context {P : Type} `{!IPacket P, !IPacketLaws P}.
Implicit Types (s : SendQueue P) (o x y : OutgoingPacket P) (l : list (OutgoingPacket P)).
Import SendQueue.

Lemma pop_heap_perm l x l' : pop_heap l = Some (x, l') → x :: l' ≡ₚ l.
Proof.
  revert x l'. induction l as [|y l IH]; intros x l' H; cbn in H; [done|].
  destruct (pop_heap l) as [[z others]|] eqn:E.
  - specialize (IH _ _ eq_refl). case_match; simplify_eq; [|done]. rewrite <- IH. apply perm_swap.
  - destruct l as [|a l]; simplify_eq; [done|]. cbn in E. repeat case_match; discriminate.
Qed.

Lemma pop_heap_least l x l' : pop_heap l = Some (x, l') → ∀ y, y ∈ l → seq_of x ≤ seq_of y.
Proof.
  revert x l'. induction l as [|z l IH]; intros x l' H y Hy; cbn in H; [done|].
  destruct (pop_heap l) as [[w others]|] eqn:E.
  - specialize (IH _ _ eq_refl). unfold OutgoingComparator in H. destruct (Z.ltb_spec (seq_of w) (seq_of z));
      simplify_eq; apply elem_of_cons in Hy as [->|Hy]; try (by apply IH in Hy; lia); lia.
  - destruct l as [|a l]; [|cbn in E; repeat case_match; discriminate].
    simplify_eq. apply list_elem_of_singleton in Hy as ->. lia.
Qed.

Lemma pop_heap_None l : pop_heap l = None → l = [].
Proof. destruct l; cbn; [done|]. repeat case_match; discriminate. Qed.

(** A list in increasing order of number, below all of another. *)
Definition ordered_before l l' : Prop :=
  Sorted (λ x y, seq_of x ≤ seq_of y) l ∧ ∀ x y, x ∈ l → y ∈ l' → seq_of x ≤ seq_of y.

Lemma take_resends_spec fuel : ∀ l size pre,
  (length l ≤ fuel)%nat → 0 ≤ size →
  ∃ low l' size', take_resends fuel l size pre = Ret (pre ++ low, l', size') ∧
    low ++ l' ≡ₚ l ∧ ordered_before low l' ∧
    Z.of_nat (length low) = Z.min size (Z.of_nat (length l)) ∧ size' = size - Z.of_nat (length low).
Proof.
  induction fuel as [|fuel IH]; intros l size pre Hf Hs.
  - destruct l; [|cbn in Hf; lia]. exists [], [], size.
    cbn. rewrite app_nil_r. case_match; repeat split; try done; (lia || by constructor || set_solver).
  - cbn [take_resends]. destruct (Z.ltb_spec 0 size) as [Hpos|].
    2: { exists [], l, size. rewrite app_nil_r. cbn. repeat split; try done; (lia || by constructor || set_solver). }
    destruct (pop_heap l) as [[x l1]|] eqn:E.
    2: { apply pop_heap_None in E as ->. exists [], [], size. rewrite app_nil_r. cbn.
         repeat split; try done; (lia || by constructor || set_solver). }
    pose proof (pop_heap_perm _ _ _ E) as Hp. pose proof (pop_heap_least _ _ _ E) as Hleast.
    pose proof (Permutation_length Hp) as Hlen. cbn in Hlen.
    destruct (IH l1 (size - 1) (pre ++ [x])) as (low & l' & size' & -> & Hperm & [Hsort Hbelow] & Hl & ->);
      [lia..|].
    exists (x :: low), l', (size - 1 - Z.of_nat (length low)). rewrite <- app_assoc. split; [done|].
    assert (Hx : ∀ y, y ∈ low ++ l' → seq_of x ≤ seq_of y).
    { intros y Hy. apply Hleast. rewrite <- Hp, <- Hperm. by right. }
    split; [cbn; by rewrite Hperm|]. split; [|cbn; lia]. split.
    + constructor; [done|]. destruct low as [|z low]; constructor. apply Hx. set_solver.
    + intros a b [->|Ha]%elem_of_cons Hb; [apply Hx; set_solver|by apply Hbelow].
Qed.

(** Resent packets first, then new ones. *)
Lemma GetPacketsToSend_splits s size :
  0 ≤ size →
  ∃ low resend n s',
    GetPacketsToSend size s = Ret (low ++ take n (sq_needToSend s), s') ∧
    s' = mkSendQueue resend (drop n (sq_needToSend s)) (sq_serviceNeedToSend s) (sq_nextPacketNumber s) ∧
    low ++ resend ≡ₚ sq_resendPackets s ∧ ordered_before low resend ∧
    Z.of_nat (length low) = Z.min size (Z.of_nat (length (sq_resendPackets s))) ∧
    Z.of_nat n = size - Z.of_nat (length low).
Proof.
  intros Hs. unfold GetPacketsToSend.
  destruct (take_resends_spec (length (sq_resendPackets s)) (sq_resendPackets s) size [])
    as (low & resend & size' & -> & Hp & Ho & Hl & ->); [done..|].
  cbn [mbind res_bind app mret res_ret].
  exists low, resend, (Z.to_nat (size - Z.of_nat (length low))).
  destruct (Z.eqb_spec (size - Z.of_nat (length low)) 0) as [E|E]; cbn [negb]; eexists.
  - replace (Z.to_nat (size - Z.of_nat (length low))) with 0%nat by lia.
    rewrite take_0, drop_0, app_nil_r. split; [done|]. split; [done|]. split; [done|].
    split; [done|]. lia.
  - split; [done|]. split; [done|]. split; [done|]. split; [done|]. lia.
Qed.

(** [GetPacketsToSend(size)] always returns; it takes resent packets first, those
    with the lowest numbers and in increasing order, then new packets in the order
    they were submitted, exactly [size] in all or as many as there are; everything
    else stays queued. *)
Theorem GetPacketsToSend_spec s size :
  0 ≤ size →
  ∃ low resend n s',
    GetPacketsToSend size s = Ret (low ++ take n (sq_needToSend s), s') ∧
    sq_resendPackets s' = resend ∧ sq_needToSend s' = drop n (sq_needToSend s) ∧
    low ++ resend ≡ₚ sq_resendPackets s ∧ ordered_before low resend ∧ (resend ≠ [] → n = 0%nat) ∧
    Z.of_nat (length (low ++ take n (sq_needToSend s))) =
      Z.min size (Z.of_nat (length (sq_resendPackets s ++ sq_needToSend s))).
Proof.
  intros Hs. destruct (GetPacketsToSend_splits s size Hs) as (low & resend & n & s' & E & -> & Hp & Ho & Hl & Hn).
  eexists low, resend, n, _. split; [exact E|]. do 2 (split; [done|]). split; [done|]. split; [done|].
  pose proof (Permutation_length Hp) as Hlen. rewrite length_app in Hlen. split.
  - intros Hr. assert (length resend ≠ 0)%nat by by destruct resend. lia.
  - rewrite !length_app, length_take. lia.
Qed.

(** ** Histories *)

(** What was handed in, as the callers passed it: packets to be acknowledged, service
    packets and packets to resend; and what was taken out. *)
Record SendHistory := mkSendHistory {
  sh_fresh : list P;
  sh_service : list P;
  sh_resubmitted : list (OutgoingPacket P);
  sh_sent : list (OutgoingPacket P);
}.

(** What must become of the packets handed in: the first gets the number after [n], and so
    on; a service packet has none. *)
Fixpoint numbered_from (n : Z) (packets : list P) : list (OutgoingPacket P) :=
  match packets with
  | [] => []
  | p :: rest => mkOutgoingPacket (SetSeqNumber (u32 (n + 1)) (SetMagic p)) 0 true :: numbered_from (u32 (n + 1)) rest
  end.
Definition unnumbered (packets : list P) : list (OutgoingPacket P) :=
  (λ p, mkOutgoingPacket (SetSeqNumber no_number (SetMagic p)) 0 false) <$> packets.

Inductive send_event : SendQueue P * SendHistory → SendQueue P * SendHistory → Prop :=
  | se_send s h packets :
      Forall PacketOk packets →
      send_event (s, h) (SendPackets packets true s,
        mkSendHistory (sh_fresh h ++ packets) (sh_service h) (sh_resubmitted h) (sh_sent h))
  | se_service s h packets :
      Forall PacketOk packets →
      send_event (s, h) (SendPackets packets false s,
        mkSendHistory (sh_fresh h) (sh_service h ++ packets) (sh_resubmitted h) (sh_sent h))
  | se_resend s h packets :
      send_event (s, h) (ReSendPackets packets s,
        mkSendHistory (sh_fresh h) (sh_service h) (sh_resubmitted h ++ packets) (sh_sent h))
  | se_get s h size out s' :
      0 ≤ size → GetPacketsToSend size s = Ret (out, s') →
      send_event (s, h) (s', mkSendHistory (sh_fresh h) (sh_service h) (sh_resubmitted h) (sh_sent h ++ out))
  | se_get_service s h :
      send_event (s, h) ((GetServicePacketsToSend s).2,
        mkSendHistory (sh_fresh h) (sh_service h) (sh_resubmitted h)
          (sh_sent h ++ (GetServicePacketsToSend s).1)).

Lemma seq_SetSeqNumber n p : PacketOk p → GetSeqNumber (SetSeqNumber n (SetMagic p)) = u32 n.
Proof.
  intros [H _]%view_SetMagic. destruct (view_SetSeqNumber n _ H) as [_ E].
  by apply (f_equal v_seq) in E.
Qed.

Lemma SendPackets_cons b p packets s : SendPackets (p :: packets) b s = SendPackets packets b (SendPacket b s p).
Proof. done. Qed.

Lemma numbered_from_app n (l l' : list P) :
  n = u32 n → numbered_from n (l ++ l') = numbered_from n l ++ numbered_from (u32 (n + Z.of_nat (length l))) l'.
Proof.
  revert n. induction l as [|p l IH]; intros n Hn; cbn -[Z.of_nat].
  { by rewrite Z.add_0_r, <- Hn. }
  f_equal. rewrite IH by (symmetry; apply wrap_wrap). do 2 f_equal. wrap_eq.
Qed.

Lemma numbered_from_numbers n (l : list P) :
  Forall PacketOk l → seq_of <$> numbered_from n l = u32 <$> seqZ (n + 1) (Z.of_nat (length l)).
Proof.
  intros H. revert n. induction H as [|p l Hp Hl IH]; intros n; [done|].
  cbn [numbered_from length]. rewrite fmap_cons, IH.
  rewrite Nat2Z.inj_succ, (seqZ_cons (n + 1)), Z.pred_succ by lia. cbn [fmap list_fmap]. f_equal.
  - unfold seq_of. cbn. by rewrite seq_SetSeqNumber, wrap_wrap.
  - apply wrap_seqZ. wrap_eq.
Qed.

Lemma SendPackets_true packets : ∀ s,
  sq_nextPacketNumber s = u32 (sq_nextPacketNumber s) →
  SendPackets packets true s =
    mkSendQueue (sq_resendPackets s) (sq_needToSend s ++ numbered_from (sq_nextPacketNumber s) packets)
      (sq_serviceNeedToSend s) (u32 (sq_nextPacketNumber s + Z.of_nat (length packets))).
Proof.
  induction packets as [|p packets IH]; intros s Hn.
  { cbn. rewrite app_nil_r, Z.add_0_r, <- Hn. by destruct s. }
  rewrite SendPackets_cons, IH by (cbn; by rewrite wrap_wrap).
  cbn -[Z.of_nat]. rewrite <- app_assoc. f_equal. wrap_eq.
Qed.

Lemma SendPackets_false packets : ∀ s,
  SendPackets packets false s =
    mkSendQueue (sq_resendPackets s) (sq_needToSend s) (sq_serviceNeedToSend s ++ unnumbered packets)
      (sq_nextPacketNumber s).
Proof.
  induction packets as [|p packets IH]; intros s.
  { cbn. rewrite app_nil_r. by destruct s. }
  rewrite SendPackets_cons, IH. cbn. by rewrite <- app_assoc.
Qed.

(** [sent] new packets have left the queue, the first ones; and so for the service packets. *)
Record SHInv s (h : SendHistory) : Prop := {
  sh_ok : Forall PacketOk (sh_fresh h);
  sh_next : sq_nextPacketNumber s = u32 (Z.of_nat (length (sh_fresh h)));
  sh_order : sq_needToSend s `suffix_of` numbered_from 0 (sh_fresh h);
  sh_conserved : sh_sent h ++ sq_resendPackets s ++ sq_needToSend s ++ sq_serviceNeedToSend s ≡ₚ
    sh_resubmitted h ++ numbered_from 0 (sh_fresh h) ++ unnumbered (sh_service h);
}.

Lemma send_event_inv a b : SHInv a.1 a.2 → send_event a b → SHInv b.1 b.2.
Proof.
  intros [Hok0 Hx Hord Hc] E. destruct E as [s h packets Hok|s h packets Hok|s h packets|s h size out s' Hs Hg|s h];
    cbn [fst snd] in *.
  - rewrite SendPackets_true by (rewrite Hx; symmetry; apply wrap_wrap).
    assert (Hnum : numbered_from 0 (sh_fresh h ++ packets) =
      numbered_from 0 (sh_fresh h) ++ numbered_from (sq_nextPacketNumber s) packets).
    { rewrite numbered_from_app by done. by rewrite Hx. }
    split; cbn [sh_fresh sh_sent sh_resubmitted sh_service sq_nextPacketNumber sq_needToSend
         sq_resendPackets sq_serviceNeedToSend].
    + by apply Forall_app.
    + rewrite Hx, length_app. wrap_eq.
    + rewrite Hnum. destruct Hord as [k ->]. exists k. by rewrite app_assoc.
    + rewrite Hnum. set (l := numbered_from (sq_nextPacketNumber s) packets).
      transitivity (l ++ (sh_sent h ++ sq_resendPackets s ++ sq_needToSend s ++ sq_serviceNeedToSend s));
        [solve_Permutation|rewrite Hc; solve_Permutation].
  - rewrite SendPackets_false.
    split; cbn [sh_fresh sh_sent sh_resubmitted sh_service sq_nextPacketNumber sq_needToSend
         sq_resendPackets sq_serviceNeedToSend]; [done..|].
    unfold unnumbered. rewrite fmap_app. fold (unnumbered packets) (unnumbered (sh_service h)).
    transitivity ((sh_sent h ++ sq_resendPackets s ++ sq_needToSend s ++ sq_serviceNeedToSend s) ++ unnumbered packets);
      [solve_Permutation|rewrite Hc; solve_Permutation].
  - split; cbn; [done..|].
    transitivity (packets ++ (sh_sent h ++ sq_resendPackets s ++ sq_needToSend s ++ sq_serviceNeedToSend s));
      [solve_Permutation|rewrite Hc; solve_Permutation].
  - destruct (take_resends_spec (length (sq_resendPackets s)) (sq_resendPackets s) size [])
      as (low & resend & size' & E & Hp & _); [done..|].
    unfold GetPacketsToSend in Hg. rewrite E in Hg. cbn [mbind res_bind mret res_ret app] in Hg.
    destruct (negb (size' =? 0)); injection Hg as <- <-;
      (split; cbn [sh_fresh sh_sent sh_resubmitted sh_service sq_nextPacketNumber sq_needToSend
         sq_resendPackets sq_serviceNeedToSend]; [done..| |]; [|rewrite <- Hc, <- Hp]).
    + transitivity (sq_needToSend s); [|done]. exists (take (Z.to_nat size') (sq_needToSend s)). by rewrite take_drop.
    + rewrite <- (take_drop (Z.to_nat size') (sq_needToSend s)) at 3. solve_Permutation.
    + done.
    + solve_Permutation.
  - split; cbn; [done..|]. rewrite <- Hc. rewrite app_nil_r. solve_Permutation.
Qed.

Definition send_start : SendQueue P * SendHistory := (make, mkSendHistory [] [] [] []).

(** C20: numbering and conservation: whatever lists of packets are handed in and whatever is
    taken out, in any order, the packets handed in to be acknowledged are numbered
    1, 2, 3, ... (modulo [2^32]) in the order of submission and wait in that order, service
    packets have no number, and everything handed in, new or to be resent, is either taken
    out or still queued, exactly once and with only its header set. *)
Theorem sendqueue_numbers_and_conserves s h :
  rtc send_event send_start (s, h) →
  seq_of <$> numbered_from 0 (sh_fresh h) = u32 <$> seqZ 1 (Z.of_nat (length (sh_fresh h))) ∧
  sq_needToSend s `suffix_of` numbered_from 0 (sh_fresh h) ∧
  sh_sent h ++ sq_resendPackets s ++ sq_needToSend s ++ sq_serviceNeedToSend s ≡ₚ
    sh_resubmitted h ++ numbered_from 0 (sh_fresh h) ++ unnumbered (sh_service h).
Proof.
  intros H. apply (rtc_invariant _ (λ c, SHInv c.1 c.2)) in H as [H1 _ H2 H3].
  - split; [|done]. by apply (numbered_from_numbers 0).
  - by split.
  - apply send_event_inv.
Qed.

End Correctness.

(** ** Witnesses *)

Definition blank : Packet := Packet.make HeaderSize.

Lemma blank_ok : PacketOk blank.
Proof. apply Packet_make_ok; vm_compute; [lia|reflexivity]. Qed.

Definition pending (n t : Z) : OutgoingPacket Packet := mkOutgoingPacket (numbered n) t true.

Definition loaded : SendQueue Packet :=
  SendQueue.ReSendPackets [pending 9 0; pending 4 0; pending 7 0]
    (SendQueue.SendPackets [blank; blank] true SendQueue.make).

Lemma GetPacketsToSend_spec_witness :
  ∃ low resend n s', SendQueue.GetPacketsToSend 2 loaded = Ret (low ++ take n (sq_needToSend loaded), s') ∧
    length (low ++ take n (sq_needToSend loaded)) = 2%nat ∧ ordered_before low resend.
Proof.
  destruct (GetPacketsToSend_spec loaded 2) as (low & resend & n & s' & E & _ & _ & _ & Ho & _ & Hl); [lia|].
  exists low, resend, n, s'. split; [exact E|]. split; [|exact Ho].
  change (Z.of_nat (length (low ++ take n (sq_needToSend loaded))) = 2) in Hl. lia.
Defined.

Definition submitted : SendQueue Packet * SendHistory (P:=Packet) :=
  (SendQueue.SendPackets [blank; blank] true SendQueue.make, mkSendHistory [blank; blank] [] [] []).

Lemma submitted_reachable : rtc send_event send_start submitted.
Proof.
  apply rtc_once. apply (se_send SendQueue.make (mkSendHistory [] [] [] []) [blank; blank]).
  repeat constructor; apply blank_ok.
Qed.

Lemma sendqueue_numbers_and_conserves_witness :
  SendQueue.seq_of <$> sq_needToSend submitted.1 = [1; 2].
Proof.
  etransitivity; [apply (sendqueue_numbers_and_conserves submitted.1 submitted.2), submitted_reachable|].
  reflexivity.
Defined.
