(* ===== verification/Stats.v ===== *)
(** * Statistics of samples
    [src/SampleStats.cpp], [src/TimeRangedStats.cpp]: packet counts and round-trip
    times in a ring of 100 slots of 50 ms.  Times are nanoseconds of [steady_clock];
    the counters are unbounded integers (a slot never sees [2^31] packets). *)
From S2P Require Import Prelude.
From Stdlib Require Import SpecFloat.
Local Open Scope Z_scope.

(** ** Durations *)

Definition milliseconds (n : Z) : Z := n * 1000000.
Definition seconds (n : Z) : Z := n * 1000000000.

(** [clock::time_point::max()] and [min()]: 64-bit nanoseconds. *)
Definition time_point_max : Z := 2 ^ 63 - 1.
Definition time_point_min : Z := - 2 ^ 63.

(** ** [double] arithmetic *)

Definition double_of_Z (z : Z) : spec_float := binary_normalize 53 1024 z 0 false.
Definition double_mul : spec_float → spec_float → spec_float := SFmul 53 1024.
Definition double_div : spec_float → spec_float → spec_float := SFdiv 53 1024.

(** ** SampleStats *)

Record SampleStats := mkSampleStats {
  _allPackets : Z;
  _lostPackets : Z;
  _start : Z;
  _end : Z;
  _rtt : Z;
  _lost : spec_float;
}.

Module SampleStats.

Definition MinPacketsCount : Z := 100.

Definition empty : SampleStats :=
  mkSampleStats 0 0 time_point_max time_point_min 0 (S754_zero false).

Definition CalcStats (s : SampleStats) : SampleStats :=
  mkSampleStats (_allPackets s) (_lostPackets s) (_start s) (_end s) (_rtt s)
    (double_div (double_mul (double_of_Z (_lostPackets s)) (double_of_Z 100)) (double_of_Z (_allPackets s))).

Definition calc_if_enough (s : SampleStats) : SampleStats :=
  if MinPacketsCount <=? _allPackets s then CalcStats s else s.

Definition make (allPackets lostPackets start end_ rtt : Z) : SampleStats :=
  calc_if_enough (mkSampleStats allPackets lostPackets start end_ rtt (S754_zero false)).

Definition Merge (that this : SampleStats) : SampleStats :=
  let start := Z.min (_start this) (_start that) in
  let end_ := Z.max (_end this) (_end that) in
  let thatAcknowledgedPackets := _allPackets that - _lostPackets that in
  let rtt :=
    if negb (thatAcknowledgedPackets =? 0) then
      let acknowledgedPackets := _allPackets this - _lostPackets this in
      (_rtt this * acknowledgedPackets + _rtt that * thatAcknowledgedPackets)
        `quot` (thatAcknowledgedPackets + acknowledgedPackets)
    else _rtt this in
  calc_if_enough (mkSampleStats (_allPackets this + _allPackets that)
    (_lostPackets this + _lostPackets that) start end_ rtt (_lost this)).

Definition GetAllPackets (s : SampleStats) : Z := _allPackets s.
Definition GetLostPackets (s : SampleStats) : Z := _lostPackets s.
Definition GetStart (s : SampleStats) : Z := _start s.
Definition GetEnd (s : SampleStats) : Z := _end s.
Definition GetLost (s : SampleStats) : spec_float := _lost s.
Definition GetRtt (s : SampleStats) : Z := _rtt s.

End SampleStats.

(** ** TimeRangedStats *)

Record TimeRangedStats := mkTimeRangedStats {
  _stats : list SampleStats;
  _startIndex : Z;
}.

Module TimeRangedStats.
Import SampleStats.

Definition Size : Z := 100.
Definition DefaultRTT : Z := milliseconds 500.
Definition Interval : Z := milliseconds 50.

(** [n] empty slots one after the other from time [start] on. *)
Definition empty_slots (n : nat) (start : Z) : list SampleStats :=
  (λ i, SampleStats.make 0 0 (start + Z.of_nat i * Interval) (start + Z.of_nat i * Interval + Interval) 0)
    <$> seq 0 n.

(** The constructor reads the clock and starts the window at the full second. *)
Definition make (now : Z) : TimeRangedStats :=
  mkTimeRangedStats (empty_slots (Z.to_nat Size) (seconds (now `quot` seconds 1))) 0.

Definition GetSamplesStats (t : TimeRangedStats) : list SampleStats := _stats t.

(** [_stats[i % Size]]. *)
Definition slot (t : TimeRangedStats) (i : Z) : SampleStats :=
  default SampleStats.empty (_stats t !! Z.to_nat (i `mod` Size)).
Definition set_slot (i : Z) (s : SampleStats) (t : TimeRangedStats) : TimeRangedStats :=
  mkTimeRangedStats (<[Z.to_nat (i `mod` Size) := s]> (_stats t)) (_startIndex t).

(** The [for] of [UpdateStats]: [n] slots from [i] on restart at [startInterval]. *)
Fixpoint restart_slots (n : nat) (i startInterval : Z) (t : TimeRangedStats) : TimeRangedStats :=
  match n with
  | O => t
  | S n =>
      restart_slots n (i + 1) (startInterval + Interval)
        (set_slot i (SampleStats.make 0 0 startInterval (startInterval + Interval) 0) t)
  end.

(** [UpdateStats(const SampleStats&)]. *)
Definition UpdateSample (stats : SampleStats) (t : TimeRangedStats) : TimeRangedStats :=
  if GetAllPackets stats =? 0 then t else
  let windowStart := GetStart (slot t (_startIndex t)) in
  if GetStart stats <? windowStart then t else
  let diff := GetStart stats - windowStart in
  let slotIndex := u64 (_startIndex t + diff `quot` Interval) in
  if slotIndex <? _startIndex t + Size then
    set_slot slotIndex (Merge stats (slot t slotIndex)) t
  else
    let newStartIndex := Z.max (_startIndex t) (u64 (slotIndex - Size + 1)) in
    let startInterval := GetEnd (slot t (_startIndex t + Size - 1)) in
    let turns := Z.to_nat (Z.min (newStartIndex - _startIndex t) Size) in
    let t := restart_slots turns (_startIndex t) startInterval t in
    let t := mkTimeRangedStats (_stats t) newStartIndex in
    let slotStart := windowStart + diff `quot` Interval * Interval in
    let t := set_slot slotIndex (SampleStats.make 0 0 slotStart (slotStart + Interval) 0) t in
    set_slot slotIndex (Merge stats (slot t slotIndex)) t.

Definition AddPacket (lostPacket : bool) (sendTime rtt : Z) (t : TimeRangedStats) : TimeRangedStats :=
  UpdateSample (SampleStats.make 1 (if lostPacket then 1 else 0) sendTime sendTime rtt) t.

(** [UpdateStats(const TimeRangedStats&)]. *)
Definition UpdateStats (stats t : TimeRangedStats) : TimeRangedStats :=
  foldl (λ t stat, UpdateSample stat t) t (_stats stats).

Definition countStats (t : TimeRangedStats) : Z :=
  Z.of_nat (length (filter (λ sample, 0 < GetRtt sample) (_stats t))).

Definition GetAverageRtt (t : TimeRangedStats) : Z :=
  if countStats t <? 20 then DefaultRTT
  else foldl (λ rtt stat, rtt + GetRtt stat) 0 (_stats t) `quot` countStats t.

Definition GetMaxRtt (t : TimeRangedStats) : Z :=
  if countStats t <? 20 then DefaultRTT
  else
    match _stats t with
    | [] => 0
    | s :: l => GetRtt (foldl (λ m x, if GetRtt m <? GetRtt x then x else m) s l)
    end.

End TimeRangedStats.

Section Correctness.
Import SampleStats TimeRangedStats.
Implicit Types (t : TimeRangedStats) (s : SampleStats).

(** The slots of the window, oldest first, are consecutive intervals of 50 ms. *)
Definition Aligned t : Prop :=
  length (_stats t) = 100%nat ∧ 0 ≤ _startIndex t < 2 ^ 63 ∧
  ∀ k, 0 ≤ k < Size →
    GetStart (slot t (_startIndex t + k)) = GetStart (slot t (_startIndex t)) + k * Interval ∧
    GetEnd (slot t (_startIndex t + k)) = GetStart (slot t (_startIndex t)) + (k + 1) * Interval.

Definition window_start t : Z := GetStart (slot t (_startIndex t)).

Lemma mod_Size i : 0 ≤ i `mod` Size < 100.
Proof. apply Z.mod_pos_bound. unfold Size; lia. Qed.

Lemma slot_set_eq t i j s :
  length (_stats t) = 100%nat → i `mod` Size = j `mod` Size → slot (set_slot i s t) j = s.
Proof.
  intros Hl E. unfold slot, set_slot. cbn [_stats]. rewrite E, list_lookup_insert_eq; [done|].
  pose proof (mod_Size j). lia.
Qed.

Lemma slot_set_ne t i j s : i `mod` Size ≠ j `mod` Size → slot (set_slot i s t) j = slot t j.
Proof.
  intros E. unfold slot, set_slot. cbn [_stats]. rewrite list_lookup_insert_ne; [done|].
  pose proof (mod_Size i); pose proof (mod_Size j). lia.
Qed.

Lemma length_set_slot t i s : length (_stats (set_slot i s t)) = length (_stats t).
Proof. apply length_insert. Qed.

Lemma restart_startIndex n : ∀ i b t, _startIndex (restart_slots n i b t) = _startIndex t.
Proof. induction n; intros; cbn [restart_slots]; [done|]. by rewrite IHn. Qed.

Lemma length_restart n : ∀ i b t, length (_stats (restart_slots n i b t)) = length (_stats t).
Proof. induction n; intros; cbn [restart_slots]; [done|]. by rewrite IHn, length_set_slot. Qed.

(** Slots within one turn of the ring are distinct. *)
Lemma mod_Size_inj i j : 0 ≤ j - i < Size → i `mod` Size = j `mod` Size → i = j.
Proof. unfold Size. intros. Z.to_euclidean_division_equations. lia. Qed.

Lemma restart_slot n : ∀ i b t j,
  length (_stats t) = 100%nat → Z.of_nat n ≤ Size → i ≤ j < i + Size →
  slot (restart_slots n i b t) j =
    if j <? i + Z.of_nat n then SampleStats.make 0 0 (b + (j - i) * Interval) (b + (j - i) * Interval + Interval) 0
    else slot t j.
Proof.
  induction n as [|n IH]; intros i b t j Hl Hn Hj; cbn [restart_slots].
  { by rewrite (proj2 (Z.ltb_ge _ _)) by lia. }
  destruct (decide (j = i)) as [->|Hne].
  - rewrite (proj2 (Z.ltb_lt _ _)) by lia. rewrite Z.sub_diag, Z.mul_0_l, Z.add_0_r.
    assert (∀ m k c u, k `mod` Size ≠ i `mod` Size → (∀ d, 0 ≤ d < Z.of_nat m → (k + d) `mod` Size ≠ i `mod` Size) →
      slot (restart_slots m k c u) i = slot u i) as Hframe.
    { induction m as [|m IHm]; intros k c u Hk Hd; [done|]. cbn [restart_slots].
      destruct m; [by apply slot_set_ne|]. rewrite IHm.
      - by apply slot_set_ne.
      - apply (Hd 1); lia.
      - intros d Hd'. replace (k + 1 + d) with (k + (d + 1)) by lia. apply Hd; lia. }
    destruct n; [by apply slot_set_eq|]. rewrite Hframe; [by apply slot_set_eq|..].
    + intros E%eq_sym%mod_Size_inj; unfold Size in *; lia.
    + intros d Hd E. symmetry in E. apply mod_Size_inj in E; unfold Size in *; lia.
  - rewrite IH by (rewrite ?length_set_slot; lia).
    replace (i + 1 + Z.of_nat n) with (i + Z.of_nat (S n)) by lia.
    replace (b + Interval + (j - (i + 1)) * Interval) with (b + (j - i) * Interval) by lia.
    case_match; [done|]. apply slot_set_ne. intros E%mod_Size_inj; lia.
Qed.

Lemma Merge_start this that : GetStart (Merge that this) = Z.min (GetStart this) (GetStart that).
Proof. unfold Merge, calc_if_enough. by case_match. Qed.
Lemma Merge_end this that : GetEnd (Merge that this) = Z.max (GetEnd this) (GetEnd that).
Proof. unfold Merge, calc_if_enough. by case_match. Qed.
Lemma Merge_counts this that :
  GetAllPackets (Merge that this) = GetAllPackets this + GetAllPackets that ∧
  GetLostPackets (Merge that this) = GetLostPackets this + GetLostPackets that.
Proof. unfold Merge, calc_if_enough. by case_match. Qed.

Lemma make_fields a l b e r :
  GetStart (SampleStats.make a l b e r) = b ∧ GetEnd (SampleStats.make a l b e r) = e ∧
  GetAllPackets (SampleStats.make a l b e r) = a ∧ GetLostPackets (SampleStats.make a l b e r) = l ∧
  GetRtt (SampleStats.make a l b e r) = r.
Proof. unfold SampleStats.make, calc_if_enough. by case_match. Qed.

Lemma make_all a l b e r : GetAllPackets (SampleStats.make a l b e r) = a.
Proof. apply make_fields. Qed.

Lemma slot_shift t j : slot t (j - Size) = slot t j.
Proof.
  unfold slot. do 3 f_equal. replace (j - Size) with (j + (-1) * Size) by lia.
  apply Z_mod_plus_full.
Qed.

(** The sample [s] starts in the interval number [d] after the window's start, and
    its own interval is part of that slot. *)
Definition falls_in t s (d : Z) : Prop :=
  0 ≤ d ∧ window_start t + d * Interval ≤ GetStart s < window_start t + (d + 1) * Interval ∧
  GetEnd s ≤ window_start t + (d + 1) * Interval.

Lemma falls_in_quot t s d : falls_in t s d → (GetStart s - window_start t) `quot` Interval = d.
Proof.
  intros (H0 & H & _). unfold Interval, milliseconds in *. rewrite Z.quot_div_nonneg by lia.
  symmetry. apply (Z.div_unique_pos _ _ d (GetStart s - window_start t - d * 50000000)); lia.
Qed.

(** What the update must leave in slot [j] of the new window. *)
Definition updated_slot t s (d j : Z) (x : SampleStats) : Prop :=
  let old := if j <? _startIndex t + Size then slot t j
             else SampleStats.make 0 0 (window_start t + (j - _startIndex t) * Interval)
                    (window_start t + (j - _startIndex t) * Interval + Interval) 0 in
  x = if j =? _startIndex t + d then Merge s old else old.

Lemma update_in_window t s d :
  Aligned t → GetAllPackets s ≠ 0 → falls_in t s d → d < Size → _startIndex t + d < 2 ^ 63 →
  _startIndex (UpdateSample s t) = _startIndex t ∧ length (_stats (UpdateSample s t)) = 100%nat ∧
  ∀ j, _startIndex t ≤ j < _startIndex t + Size → updated_slot t s d j (slot (UpdateSample s t) j).
Proof.
  intros (Hl & Hi & _) Ha Hf Hd Hb. pose proof (falls_in_quot _ _ _ Hf) as Hq.
  destruct Hf as (H0 & Hf & _). unfold UpdateSample. fold (window_start t).
  rewrite (proj2 (Z.eqb_neq _ _)) by done. unfold Interval, milliseconds in Hf.
  rewrite (proj2 (Z.ltb_ge _ _)) by lia. rewrite Hq, wrap_small by lia.
  rewrite (proj2 (Z.ltb_lt _ _)) by lia. rewrite length_set_slot. split; [done|]. split; [done|].
  intros j Hj. unfold updated_slot. rewrite (proj2 (Z.ltb_lt _ _)) by lia.
  destruct (Z.eqb_spec j (_startIndex t + d)) as [->|Hne]; [by apply slot_set_eq|].
  apply slot_set_ne. intros E. destruct (decide (j < _startIndex t + d)).
  - symmetry in E. apply mod_Size_inj in E; lia.
  - apply mod_Size_inj in E; lia.
Qed.

Lemma update_beyond_window t s d :
  Aligned t → GetAllPackets s ≠ 0 → falls_in t s d → Size ≤ d < 2 * Size → _startIndex t + d < 2 ^ 63 →
  _startIndex (UpdateSample s t) = _startIndex t + d - Size + 1 ∧ length (_stats (UpdateSample s t)) = 100%nat ∧
  ∀ j, _startIndex t + d - Size + 1 ≤ j < _startIndex t + d + 1 →
    updated_slot t s d j (slot (UpdateSample s t) j).
Proof.
  intros (Hl & Hi & Hal) Ha Hf Hd Hb. pose proof (falls_in_quot _ _ _ Hf) as Hq.
  assert (He : GetEnd (slot t (_startIndex t + Size - 1)) = window_start t + Size * Interval).
  { destruct (Hal (Size - 1)) as [_ E]; [unfold Size; lia|].
    replace (_startIndex t + Size - 1) with (_startIndex t + (Size - 1)) by lia.
    rewrite E. unfold window_start. f_equal. }
  destruct Hf as (H0 & Hf & _). unfold UpdateSample. fold (window_start t).
  rewrite (proj2 (Z.eqb_neq _ _)) by done. unfold Interval, milliseconds in Hf.
  rewrite (proj2 (Z.ltb_ge _ _)) by lia. rewrite Hq, !(wrap_small 64) by (unfold Size in *; lia).
  rewrite (proj2 (Z.ltb_ge _ _)) by lia. rewrite He.
  rewrite !(Z.max_r (_startIndex t)), Z.min_l by (unfold Size in *; lia).
  set (n := Z.to_nat _). set (r := restart_slots _ _ _ _). cbn [_startIndex].
  assert (Hlr : length (_stats r) = 100%nat) by (unfold r; by rewrite length_restart).
  assert (Hr : ∀ j, _startIndex t ≤ j < _startIndex t + Size →
    slot (mkTimeRangedStats (_stats r) (_startIndex t + d - Size + 1)) j = slot r j) by done.
  split; [cbn; lia|]. split; [by rewrite !length_set_slot|].
  intros j Hj. unfold updated_slot.
  destruct (Z.eqb_spec j (_startIndex t + d)) as [->|Hne].
  - rewrite slot_set_eq by (by rewrite ?length_set_slot). rewrite slot_set_eq by done.
    rewrite (proj2 (Z.ltb_ge _ _)) by lia. repeat f_equal; lia.
  - assert (j `mod` Size ≠ (_startIndex t + d) `mod` Size) as Hm.
    { intros E. apply mod_Size_inj in E; unfold Size in *; lia. }
    rewrite !slot_set_ne by congruence.
    change (slot (mkTimeRangedStats (_stats r) (_startIndex t + d - Size + 1)) j) with (slot r j).
    unfold r. destruct (Z.ltb_spec j (_startIndex t + Size)).
    + rewrite restart_slot by (unfold Size in *; lia).
      by rewrite (proj2 (Z.ltb_ge _ _)) by (unfold Size in *; lia).
    + rewrite <- (slot_shift _ j), restart_slot by (unfold Size in *; lia).
      rewrite (proj2 (Z.ltb_lt _ _)) by (unfold Size in *; lia). f_equal; unfold Size; lia.
Qed.

(** The window after a sample [d] intervals after its start. *)
Definition new_start t (d : Z) : Z := if d <? Size then _startIndex t else _startIndex t + d - Size + 1.

(** while samples come at most a window ahead of the newest slot, the ring stays
    aligned: a sample is counted in the 50 ms slot its send time lies in, slots that
    leave the window are dropped, new ones start empty, and every other slot keeps
    its counts. *)
Theorem UpdateStats_keeps_window t s d :
  Aligned t → GetAllPackets s ≠ 0 → falls_in t s d → d < 2 * Size → _startIndex t + d < 2 ^ 63 →
  let t' := UpdateSample s t in
  Aligned t' ∧ _startIndex t' = new_start t d ∧
  window_start t' = window_start t + (_startIndex t' - _startIndex t) * Interval ∧
  ∀ j, _startIndex t' ≤ j < _startIndex t' + Size →
    GetAllPackets (slot t' j) =
      (if j <? _startIndex t + Size then GetAllPackets (slot t j) else 0) +
      (if j =? _startIndex t + d then GetAllPackets s else 0).
Proof.
  intros Hal Ha Hf Hd Hb t'. pose proof Hf as (H0 & Hst & Hen). pose proof Hal as (_ & Hi & Hslots).
  assert (_startIndex t' = new_start t d ∧ length (_stats t') = 100%nat ∧
    ∀ j, _startIndex t' ≤ j < _startIndex t' + Size → updated_slot t s d j (slot t' j)) as (Hs & Hl & Hu).
  { unfold new_start, t'. destruct (Z.ltb_spec d Size).
    - destruct (update_in_window t s d) as (E & ? & ?); [done..|]. rewrite E. done.
    - destruct (update_beyond_window t s d) as (E & ? & Hj); [done..|]. rewrite E. split; [done|].
      split; [done|]. intros j Hj'. apply Hj. lia. }
  assert (Hnew : _startIndex t ≤ _startIndex t' ∧ _startIndex t' ≤ _startIndex t + Size ∧
    _startIndex t' ≤ _startIndex t + d < _startIndex t' + Size).
  { rewrite Hs. unfold new_start. case_match eqn:E; [apply Z.ltb_lt in E|apply Z.ltb_ge in E]; unfold Size in *; lia. }
  assert (Htimes : ∀ j, _startIndex t' ≤ j < _startIndex t' + Size →
    GetStart (slot t' j) = window_start t + (j - _startIndex t) * Interval ∧
    GetEnd (slot t' j) = window_start t + (j - _startIndex t + 1) * Interval).
  { intros j Hj. rewrite (Hu j Hj).
    assert (Hold : ∀ x, x = (if j <? _startIndex t + Size then slot t j
             else SampleStats.make 0 0 (window_start t + (j - _startIndex t) * Interval)
                    (window_start t + (j - _startIndex t) * Interval + Interval) 0) →
      GetStart x = window_start t + (j - _startIndex t) * Interval ∧
      GetEnd x = window_start t + (j - _startIndex t + 1) * Interval).
    { intros x ->. case_match eqn:E; [apply Z.ltb_lt in E|].
      - destruct (Hslots (j - _startIndex t)) as [E1 E2]; [lia|].
        replace (_startIndex t + (j - _startIndex t)) with j in * by lia. done.
      - edestruct make_fields as (-> & -> & _). lia. }
    destruct (Hold _ eq_refl) as [E1 E2]. destruct (Z.eqb_spec j (_startIndex t + d)) as [E|E]; [|done].
    rewrite Merge_start, Merge_end, E1, E2.
    replace (j - _startIndex t) with d by lia. lia. }
  assert (Hws : window_start t' = window_start t + (_startIndex t' - _startIndex t) * Interval).
  { apply Htimes. unfold Size; lia. }
  split; [|split; [done|split; [done|]]].
  - split; [done|]. split; [lia|]. intros k Hk. fold (window_start t').
    destruct (Htimes (_startIndex t' + k)) as [-> ->]; [lia|]. rewrite Hws. lia.
  - intros j Hj. rewrite (Hu j Hj). destruct (j =? _), (j <? _);
      rewrite ?(proj1 (Merge_counts _ _)), ?make_all; lia.
Qed.

(** A fresh window is aligned. *)
Lemma make_aligned now : Aligned (TimeRangedStats.make now).
Proof.
  split; [unfold TimeRangedStats.make, empty_slots; cbn [_stats]; by rewrite length_fmap, length_seq|].
  split; [cbn; lia|]. intros k Hk. cbn [_startIndex TimeRangedStats.make].
  assert (∀ i, 0 ≤ i < Size → slot (TimeRangedStats.make now) i =
    SampleStats.make 0 0 (seconds (now `quot` seconds 1) + i * Interval) (seconds (now `quot` seconds 1) + i * Interval + Interval) 0) as E.
  { intros i Hi'. unfold slot, TimeRangedStats.make, empty_slots. cbn [_stats].
    rewrite Z.mod_small, list_lookup_fmap, lookup_seq_lt by (unfold Size in *; lia).
    cbn [fmap option_fmap option_map default]. by rewrite Nat.add_0_l, Z2Nat.id by lia. }
  rewrite !E by (unfold Size in *; lia).
  edestruct make_fields as (-> & -> & _). edestruct make_fields as (-> & _). lia.
Qed.

(** after an idle period of more than two windows the ring loses its alignment:
    of two packets sent 10 ms apart the second wipes the slot of the first, and a third
    one, sent 10 ms later, is not counted at all. *)
Theorem idle_gap_drops_samples :
  let t0 := TimeRangedStats.make 0 in
  let t1 := AddPacket false (milliseconds 20000) (milliseconds 30) t0 in
  let t2 := AddPacket false (milliseconds 20010) (milliseconds 30) t1 in
  let t3 := AddPacket false (milliseconds 20020) (milliseconds 30) t2 in
  let total t := foldl (λ n s, n + GetAllPackets s) 0 (_stats t) in
  total t1 = 1 ∧ total t2 = 1 ∧ t3 = t2.
Proof. vm_compute. repeat split. Qed.

(** the merged round-trip time lies between the two merged ones. *)
Theorem Merge_rtt_between this that :
  0 ≤ GetRtt this ≤ GetRtt that →
  0 ≤ GetLostPackets this ≤ GetAllPackets this → 0 ≤ GetLostPackets that ≤ GetAllPackets that →
  GetRtt this ≤ GetRtt (Merge that this) ≤ GetRtt that.
Proof.
  unfold GetRtt, GetLostPackets, GetAllPackets. intros Hr H1 H2.
  assert (_rtt (Merge that this) = if negb (_allPackets that - _lostPackets that =? 0) then
      (_rtt this * (_allPackets this - _lostPackets this) + _rtt that * (_allPackets that - _lostPackets that))
      `quot` (_allPackets that - _lostPackets that + (_allPackets this - _lostPackets this))
    else _rtt this) as ->.
  { unfold Merge, calc_if_enough. by case_match. }
  destruct (Z.eqb_spec (_allPackets that - _lostPackets that) 0); cbn [negb]; [lia|].
  set (a := _allPackets this - _lostPackets this). set (b := _allPackets that - _lostPackets that) in *.
  assert (0 ≤ a ∧ 0 < b) as [Ha Hb] by lia.
  rewrite Z.quot_div_nonneg by nia. split.
  - apply Z.div_le_lower_bound; nia.
  - apply Z.div_le_upper_bound; nia.
Qed.

(** The timeout is read from the largest round-trip time once 20 slots have one. *)
Lemma foldl_max_rtt l : ∀ s,
  let m := foldl (λ m x, if GetRtt m <? GetRtt x then x else m) s l in
  m ∈ s :: l ∧ ∀ x, x ∈ s :: l → GetRtt x ≤ GetRtt m.
Proof.
  induction l as [|y l IH]; intros s m; subst m; cbn [foldl].
  { split; [by left|]. intros x ->%list_elem_of_singleton. lia. }
  destruct (IH (if GetRtt s <? GetRtt y then y else s)) as [Hin Hmax]. split.
  - apply elem_of_cons in Hin as [->|Hin]; [case_match; [right; left|left]|right; by right].
  - intros x Hx. destruct (Z.ltb_spec (GetRtt s) (GetRtt y)).
    + apply elem_of_cons in Hx as [->|[->|Hx]%elem_of_cons]; [|apply Hmax; by left|apply Hmax; by right].
      pose proof (Hmax y ltac:(by left)). lia.
    + apply elem_of_cons in Hx as [->|[->|Hx]%elem_of_cons]; [apply Hmax; by left| |apply Hmax; by right].
      pose proof (Hmax s ltac:(by left)). lia.
Qed.

Lemma GetMaxRtt_spec t :
  (countStats t < 20 ∧ GetMaxRtt t = DefaultRTT) ∨
  (20 ≤ countStats t ∧ (∃ s, s ∈ _stats t ∧ GetMaxRtt t = GetRtt s) ∧
   ∀ s, s ∈ _stats t → GetRtt s ≤ GetMaxRtt t).
Proof.
  unfold GetMaxRtt. destruct (Z.ltb_spec (countStats t) 20); [by left|right]. split; [done|].
  destruct (_stats t) as [|s l] eqn:E.
  { unfold countStats in *. rewrite E in *. cbn in *. lia. }
  destruct (foldl_max_rtt l s) as [Hin Hmax]. split; [eauto|done].
Qed.

Lemma GetMaxRtt_pos t : 0 < GetMaxRtt t.
Proof.
  destruct (GetMaxRtt_spec t) as [[_ ->]|(Hc & _ & Hmax)]; [done|].
  unfold countStats in Hc. destruct (filter _ (_stats t)) as [|s l] eqn:E; [cbn in Hc; lia|].
  assert (s ∈ filter (λ sample, 0 < GetRtt sample) (_stats t)) as Hs by (rewrite E; by left).
  apply list_elem_of_filter in Hs as [Hs Hin]. apply Hmax in Hin. lia.
Qed.

End Correctness.

(** ** Witnesses *)

Lemma UpdateStats_keeps_window_witness :
  SampleStats.GetAllPackets (TimeRangedStats.slot
    (TimeRangedStats.UpdateSample (SampleStats.make 3 1 (TimeRangedStats.Interval * 150 + 7) (TimeRangedStats.Interval * 150 + 7) 9)
      (TimeRangedStats.make 0)) 150) = 3.
Proof.
  destruct (UpdateStats_keeps_window (TimeRangedStats.make 0)
    (SampleStats.make 3 1 (TimeRangedStats.Interval * 150 + 7) (TimeRangedStats.Interval * 150 + 7) 9) 150)
    as (_ & Hs & _ & Hc).
  - apply make_aligned.
  - vm_compute. discriminate.
  - vm_compute. repeat split; discriminate.
  - reflexivity.
  - reflexivity.
  - rewrite Hs in Hc. rewrite (Hc 150); [reflexivity|]. vm_compute. split; [discriminate|reflexivity].
Defined.

Lemma Merge_rtt_between_witness :
  20 ≤ SampleStats.GetRtt (SampleStats.Merge (SampleStats.make 2 0 0 0 90) (SampleStats.make 5 1 0 0 20)) ≤ 90.
Proof.
  apply (Merge_rtt_between (SampleStats.make 5 1 0 0 20) (SampleStats.make 2 0 0 0 90)); vm_compute; split; discriminate.
Defined.
