(* ===== verification/SpeedControl.v ===== *)
(** * Speed control
    [src/ConnectionContext.cpp] (settings and their subscribers),
    [include/ISpeedControllerState.hpp] (the speed states) and
    [src/SpeedController.cpp] (how many packets may be sent now). *)
From S2P Require Import Prelude Stats.
From Stdlib Require Import SpecFloat.
Local Open Scope Z_scope.

(** ** ConnectionContext *)

Inductive Settings := MaxSpeed | MinSpeed.

#[export] Instance Settings_eq_dec : EqDecision Settings.
Proof. solve_decision. Defined.

(** The interface [ConnectionContext::Subscriber]. *)
Class Subscriber (S : Type) := OnSettingsChanged : Settings → Z → S → S.

(** The settings vector, and the subscribed objects: references, kept in order of
    subscription, into the store of live objects. *)
Record ConnectionContext (S : Type) := mkConnectionContext {
  cc_maxSpeed : Z;
  cc_minSpeed : Z;
  cc_intSubscribers : list nat;
  cc_objects : gmap nat S;
}.
Arguments mkConnectionContext {_} _ _ _ _.
Arguments cc_maxSpeed {_} _.
Arguments cc_minSpeed {_} _.
Arguments cc_intSubscribers {_} _.
Arguments cc_objects {_} _.

Module ConnectionContext.
Section Operations.
Context {S : Type} `{!Subscriber S}.
Implicit Types (c : ConnectionContext S).

Definition make : ConnectionContext S := mkConnectionContext (2 ^ 64 - 1) 0 [] ∅.

Definition GetInt (key : Settings) c : Z :=
  match key with MaxSpeed => cc_maxSpeed c | MinSpeed => cc_minSpeed c end.

Definition notify (key : Settings) (value : Z) (objects : gmap nat S) (r : nat) : gmap nat S :=
  alter (OnSettingsChanged key value) r objects.

Definition NotifyIntSubscribers (key : Settings) (value : Z) c : ConnectionContext S :=
  mkConnectionContext (cc_maxSpeed c) (cc_minSpeed c) (cc_intSubscribers c)
    (foldl (notify key value) (cc_objects c) (cc_intSubscribers c)).

Definition SetInt (key : Settings) (value : Z) c : ConnectionContext S :=
  NotifyIntSubscribers key value
    (match key with
     | MaxSpeed => mkConnectionContext value (cc_minSpeed c) (cc_intSubscribers c) (cc_objects c)
     | MinSpeed => mkConnectionContext (cc_maxSpeed c) value (cc_intSubscribers c) (cc_objects c)
     end).

(** The new subscriber is told every setting, in the order of the enumeration. *)
Definition Subscribe (r : nat) (subscriber : S) c : ConnectionContext S :=
  let s := OnSettingsChanged MaxSpeed (cc_maxSpeed c) subscriber in
  let s := OnSettingsChanged MinSpeed (cc_minSpeed c) s in
  mkConnectionContext (cc_maxSpeed c) (cc_minSpeed c) (cc_intSubscribers c ++ [r]) (<[r := s]> (cc_objects c)).

Definition UnSubscribe (r : nat) c : ConnectionContext S :=
  mkConnectionContext (cc_maxSpeed c) (cc_minSpeed c)
    (filter (λ x, x ≠ r) (cc_intSubscribers c)) (cc_objects c).

End Operations.
End ConnectionContext.

(** ** The speed states *)

Record SpeedControllerState := mkSpeedControllerState { realSpeed : Z }.

Module ISpeedControllerState.
Import SampleStats.

Definition MinSpeed : Z := 1000.
Definition MaxSpeed : Z := 100000.
(** [5.0F], compared as a [double]. *)
Definition MaxPacketLost : spec_float := double_of_Z 5.

(** The value at the first greatest (least) element. *)
Definition max_packets (l : list SampleStats) : option Z :=
  match l with
  | [] => None
  | s :: l => Some (GetAllPackets (foldl (λ m x, if GetAllPackets m <? GetAllPackets x then x else m) s l))
  end.
Definition min_packets (l : list SampleStats) : option Z :=
  match l with
  | [] => None
  | s :: l => Some (GetAllPackets (foldl (λ m x, if GetAllPackets x <? GetAllPackets m then x else m) s l))
  end.

Definition GetMaxRealSpeed (stats : list SampleStats) : option Z :=
  max_packets (filter (λ s, SFltb (GetLost s) MaxPacketLost = true) stats).

(** [a >= b] on doubles is [b <= a]. *)
Definition GetMinLostSpeed (stats : list SampleStats) : option Z :=
  min_packets (filter (λ s, SFleb MaxPacketLost (GetLost s) = true) stats).

(** The slides are built for [i < stats.size() - width], a [size_t]. *)
Definition GetSlides (stats : list SampleStats) (width : nat) : list (list SampleStats) :=
  (λ i, take width (drop i stats)) <$> seq 0 (length stats - width).

Definition GetStatsPer (stats : list SampleStats) (width : nat) : list SampleStats :=
  foldl (λ stat sample, Merge sample stat) SampleStats.empty <$> GetSlides stats width.

Definition GetAllPackets (stats : list SampleStats) : option Z :=
  match stats with [] => None | _ => Some (foldl (λ n s, n + SampleStats.GetAllPackets s) 0 stats) end.
Definition GetLostPackets (stats : list SampleStats) : option Z :=
  match stats with [] => None | _ => Some (foldl (λ n s, n + SampleStats.GetLostPackets s) 0 stats) end.

End ISpeedControllerState.

(** [BBQState::ApproximateInt]: [_number * Rounding < other._number]. *)
Module ApproximateInt.
Definition Rounding : spec_float := double_div (double_of_Z 11) (double_of_Z 10).
Definition lt (number other : Z) : bool :=
  SFltb (double_mul (double_of_Z number) Rounding) (double_of_Z other).
End ApproximateInt.

(** [FastAccelerationState]: its two members and [Run]. *)
Record FastAccelerationState := mkFastAccelerationState {
  fa_speedIncrement : Z;
  fa_up : bool;
}.

Module FastAccelerationState.

Definition make : FastAccelerationState := mkFastAccelerationState 1 true.

(** [_speedIncrement *= 2] and [/= 2] with its lower bound. *)
Definition halve (inc : Z) : Z := Z.max (inc `quot` 2) 1.

Definition accelerate (f : FastAccelerationState) (newSpeed : Z) : FastAccelerationState * Z :=
  let inc := if fa_up f then fa_speedIncrement f * 2 else halve (fa_speedIncrement f) in
  (mkFastAccelerationState inc true, newSpeed + inc).

Definition slow_down (f : FastAccelerationState) (newSpeed : Z) : FastAccelerationState * Z :=
  let inc := if fa_up f then halve (fa_speedIncrement f) else fa_speedIncrement f * 2 in
  (mkFastAccelerationState inc false, newSpeed - inc).

Definition Run (stats : TimeRangedStats) (f : FastAccelerationState) (state : SpeedControllerState)
    : FastAccelerationState * SpeedControllerState :=
  let newSpeed := realSpeed state in
  let minLostSpeed := ISpeedControllerState.GetMinLostSpeed (TimeRangedStats.GetSamplesStats stats) in
  let maxRealSpeed := ISpeedControllerState.GetMaxRealSpeed (TimeRangedStats.GetSamplesStats stats) in
  let '(f, newSpeed) :=
    match minLostSpeed with
    | None => accelerate f newSpeed
    | Some lost => if newSpeed <? lost then accelerate f newSpeed else slow_down f newSpeed
    end in
  let f :=
    if default 0 maxRealSpeed * 3 <? realSpeed state then
      mkFastAccelerationState (halve (fa_speedIncrement f)) (fa_up f)
    else f in
  (f, mkSpeedControllerState (Z.max newSpeed ISpeedControllerState.MinSpeed)).

End FastAccelerationState.

Module StableState.
Definition Run (stats : TimeRangedStats) (state : SpeedControllerState) : SpeedControllerState :=
  mkSpeedControllerState 100000.
End StableState.

(** ** SpeedController *)

(** [_currentState] is [SpeedState::Stable] from construction on and never assigned,
    so only [StableState] runs. *)
Record SpeedController := mkSpeedController {
  sc_lastSend : Z;
  sc_stats : TimeRangedStats;
  sc_speedState : SpeedControllerState;
  sc_minSpeed : Z;
  sc_maxSpeed : Z;
  sc_number : Z;
}.

Module SpeedController.
Implicit Types (c : SpeedController).

Definition Interval : Z := TimeRangedStats.Interval `quot` 2.

(** [now] and [epoch] are the clock readings of [_lastSend] and of [_stats]. *)
Definition make (now epoch : Z) : SpeedController :=
  mkSpeedController now (TimeRangedStats.make epoch) (mkSpeedControllerState 0) 0 0 0.

Definition clamp (v lo hi : Z) : res Z :=
  defined_if (lo <=? hi);;
  mret (if v <? lo then lo else if hi <? v then hi else v).

Definition GetNumberPacketToSend (now : Z) c : res (Z * SpeedController) :=
  let diff := now - sc_lastSend c in
  if diff <? Interval then Ret (sc_number c, c) else
  let state := StableState.Run (sc_stats c) (sc_speedState c) in
  let c := mkSpeedController (sc_lastSend c) (sc_stats c) state (sc_minSpeed c) (sc_maxSpeed c) (sc_number c) in
  let coeficient := u64 (seconds 100 `quot` diff) in
  if negb (coeficient =? 0) then
    let ration := seconds 1 `quot` TimeRangedStats.Interval in
    realSpeed ← clamp (u64 (realSpeed state)) (sc_minSpeed c) (sc_maxSpeed c);
    let number := u64 (realSpeed * ration * 100) / coeficient in
    let lastSend := if negb (number =? 0) then now else sc_lastSend c in
    mret (number, mkSpeedController lastSend (sc_stats c) state (sc_minSpeed c) (sc_maxSpeed c) number)
  else Ret (0, c).

Definition RevertNumberPacketToSend (number : Z) c : SpeedController :=
  mkSpeedController (sc_lastSend c) (sc_stats c) (sc_speedState c) (sc_minSpeed c) (sc_maxSpeed c) number.

Definition UpdateStats (stats : TimeRangedStats) c : SpeedController :=
  mkSpeedController (sc_lastSend c) (TimeRangedStats.UpdateStats stats (sc_stats c)) (sc_speedState c)
    (sc_minSpeed c) (sc_maxSpeed c) (sc_number c).

Definition GetTimeout c : Z := TimeRangedStats.GetMaxRtt (sc_stats c) + milliseconds 50.

Definition OnMinSpeedChanged (minSpeed : Z) c : SpeedController :=
  mkSpeedController (sc_lastSend c) (sc_stats c) (sc_speedState c) minSpeed (sc_maxSpeed c) (sc_number c).
Definition OnMaxSpeedChanged (maxSpeed : Z) c : SpeedController :=
  mkSpeedController (sc_lastSend c) (sc_stats c) (sc_speedState c) (sc_minSpeed c) maxSpeed (sc_number c).
Definition SettingsChanged (key : Settings) (value : Z) c : SpeedController :=
  match key with MinSpeed => OnMinSpeedChanged value c | MaxSpeed => OnMaxSpeedChanged value c end.

End SpeedController.

#[export] Instance SpeedController_Subscriber : Subscriber SpeedController := SpeedController.SettingsChanged.

(** ** Correctness *)

Section ContextCorrectness.
Context {S : Type} `{!Subscriber S}.
Implicit Types (c : ConnectionContext S).
Import ConnectionContext.

Lemma notify_all_lookup key v l : ∀ (objects : gmap nat S) r,
  NoDup l →
  foldl (notify key v) objects l !! r =
    if decide (r ∈ l) then OnSettingsChanged key v <$> objects !! r else objects !! r.
Proof.
  induction l as [|a l IH]; intros objects r Hnd; cbn [foldl]; [by rewrite decide_False by apply not_elem_of_nil|].
  apply NoDup_cons in Hnd as [Ha Hnd]. rewrite IH by done. unfold notify.
  destruct (decide (r = a)) as [->|Hne].
  - rewrite decide_False, lookup_alter_eq, decide_True by (done || by left). done.
  - rewrite lookup_alter_ne by done. repeat case_decide; set_solver.
Qed.

(** [SetInt] stores the value and tells exactly the subscribed objects, each
    once; [Subscribe] tells the new one the current settings, and after
    [UnSubscribe] an object is no longer told. *)
Theorem settings_reach_subscribers c key v r s :
  NoDup (cc_intSubscribers c) → r ∉ cc_intSubscribers c → cc_objects c !! r = None →
  GetInt key (SetInt key v c) = v ∧
  (∀ q, cc_objects (SetInt key v c) !! q =
    if decide (q ∈ cc_intSubscribers c) then OnSettingsChanged key v <$> cc_objects c !! q
    else cc_objects c !! q) ∧
  cc_objects (Subscribe r s c) !! r =
    Some (OnSettingsChanged MinSpeed (GetInt MinSpeed c) (OnSettingsChanged MaxSpeed (GetInt MaxSpeed c) s)) ∧
  cc_objects (SetInt key v (Subscribe r s c)) !! r =
    OnSettingsChanged key v <$> cc_objects (Subscribe r s c) !! r ∧
  cc_objects (SetInt key v (UnSubscribe r (Subscribe r s c))) !! r = cc_objects (Subscribe r s c) !! r.
Proof.
  intros Hnd Hr Hn. split; [by destruct key|]. split.
  { intros q. destruct key; cbn; by rewrite notify_all_lookup. }
  assert (NoDup (cc_intSubscribers c ++ [r])) as Hnd'.
  { apply NoDup_app. split; [done|]. split; [|apply NoDup_singleton]. set_solver. }
  split; [by cbn; rewrite lookup_insert_eq|]. split.
  - destruct key; cbn; rewrite notify_all_lookup, decide_True by (done || set_solver); done.
  - assert (Hf : filter (λ x, x ≠ r) (cc_intSubscribers c ++ [r]) = cc_intSubscribers c).
    { rewrite filter_app, filter_cons_False, filter_nil, app_nil_r by tauto.
      clear -Hr. induction (cc_intSubscribers c) as [|a l IH]; [done|].
      rewrite filter_cons_True by set_solver. f_equal. apply IH. set_solver. }
    destruct key; cbn; rewrite Hf, notify_all_lookup, decide_False by done; done.
Qed.

End ContextCorrectness.

Section SpeedCorrectness.
Import SpeedController.
Implicit Types (c : SpeedController).

Lemma Interval_val : Interval = 25000000.
Proof. reflexivity. Qed.

(** The number of periods in 100 s is positive and fits its type. *)
Lemma coeficient_range diff :
  Interval ≤ diff ≤ seconds 100 →
  (diff <? Interval) = false ∧ u64 (seconds 100 `quot` diff) = seconds 100 / diff ∧ 0 < seconds 100 / diff.
Proof.
  rewrite Interval_val. unfold seconds. intros Hd. rewrite Z.quot_div_nonneg by lia.
  assert (0 < 100 * 1000000000 / diff ≤ 100 * 1000000000) as Hc.
  { split; [apply Z.div_str_pos; lia|]. apply Z.div_le_upper_bound; lia. }
  split; [apply Z.ltb_ge; lia|]. split; [apply wrap_small; lia|lia].
Qed.

(** Packets per second the current settings allow: 100000 clamped. *)
Definition speed c : Z := Z.max (sc_minSpeed c) (Z.min (sc_maxSpeed c) 100000).

(** pacing: asked between 25 ms and 100 s after the last batch, the controller
    allows the clamped speed times 2000, divided by the number of such periods in
    100 s, and starts a new period exactly when that is not zero. *)
Theorem GetNumberPacketToSend_paces now c :
  let diff := now - sc_lastSend c in
  Interval ≤ diff ≤ seconds 100 → 0 ≤ sc_minSpeed c ≤ sc_maxSpeed c → speed c < 2 ^ 50 →
  ∃ c', GetNumberPacketToSend now c = Ret (sc_number c', c') ∧
    sc_number c' = speed c * 2000 / (seconds 100 / diff) ∧
    sc_lastSend c' = (if decide (sc_number c' = 0) then sc_lastSend c else now).
Proof.
  intros diff Hd Hm Hs. unfold GetNumberPacketToSend. fold diff.
  destruct (coeficient_range diff Hd) as (-> & -> & Hc).
  rewrite (proj2 (Z.eqb_neq _ _)) by lia. cbn [negb].
  unfold clamp. cbn [sc_minSpeed sc_maxSpeed realSpeed StableState.Run].
  rewrite (proj2 (defined_if_ret _)) by (apply Z.leb_le; lia). cbn [mbind res_bind mret res_ret].
  change (u64 100000) with 100000. change (seconds 1 `quot` TimeRangedStats.Interval) with 20.
  assert ((if 100000 <? sc_minSpeed c then sc_minSpeed c else
            if sc_maxSpeed c <? 100000 then sc_maxSpeed c else 100000) = speed c) as ->.
  { unfold speed. case_match eqn:E1; [apply Z.ltb_lt in E1|apply Z.ltb_ge in E1; case_match eqn:E2;
      [apply Z.ltb_lt in E2|apply Z.ltb_ge in E2]]; lia. }
  assert (0 ≤ speed c) by (unfold speed; lia).
  rewrite (wrap_small 64) by lia. replace (speed c * 20 * 100) with (speed c * 2000) by lia.
  match goal with |- context [mret (_, ?r)] => exists r end.
  split; [done|]. cbn [sc_number sc_lastSend]. split; [done|].
  case_decide as E; [by rewrite E|]. by rewrite (proj2 (Z.eqb_neq _ _)).
Qed.

(** What can happen to a controller besides being asked. *)
Inductive speed_event : SpeedController → SpeedController → Prop :=
  | sp_ask now c n c' : GetNumberPacketToSend now c = Ret (n, c') → sc_lastSend c + seconds 100 < now → speed_event c c'
  | sp_revert n c : speed_event c (RevertNumberPacketToSend n c)
  | sp_stats t c : speed_event c (UpdateStats t c)
  | sp_settings k v c : speed_event c (SettingsChanged k v c).

(** The division of a duration by a longer one is zero. *)
Lemma late_is_zero now c :
  sc_lastSend c + seconds 100 < now →
  ∃ c', GetNumberPacketToSend now c = Ret (0, c') ∧ sc_lastSend c' = sc_lastSend c.
Proof.
  intros H. unfold GetNumberPacketToSend.
  rewrite (proj2 (Z.ltb_ge _ _)) by (rewrite Interval_val; unfold seconds in *; lia).
  rewrite Z.quot_small by (unfold seconds in *; lia). cbn. eauto.
Qed.

(** a connection whose controller was not asked for 100 s never sends again:
    from then on, whatever settings or statistics arrive, every call returns 0 and
    the start of the period is never moved. *)
Theorem speed_controller_stalls c c' now :
  rtc speed_event c c' → sc_lastSend c + seconds 100 < now →
  ∃ c'', GetNumberPacketToSend now c' = Ret (0, c'') ∧ sc_lastSend c'' = sc_lastSend c.
Proof.
  intros Hr Hnow.
  assert (sc_lastSend c' = sc_lastSend c) as E.
  { apply (rtc_invariant speed_event (λ x, sc_lastSend x = sc_lastSend c) c c'); [done| |done].
    intros a b Ha E. revert Ha. destruct E as [now' x n y Hask Hlate|n x|t x|k v x]; intros Ha; try done.
    - destruct (late_is_zero now' x Hlate) as (z & Hz & Ez). rewrite Hask in Hz. congruence.
    - by destruct k. }
  destruct (late_is_zero now c') as (c'' & Hc & Ec); [by rewrite E|]. exists c''. by rewrite Ec.
Qed.

(** a minimum speed set above the maximum speed makes the next call undefined:
    [std::clamp] needs its bounds in order. *)
Theorem crossed_bounds_undefined now c :
  Interval ≤ now - sc_lastSend c ≤ seconds 100 → sc_maxSpeed c < sc_minSpeed c →
  GetNumberPacketToSend now c = Err Undefined.
Proof.
  intros Hd Hm. unfold GetNumberPacketToSend.
  destruct (coeficient_range (now - sc_lastSend c) Hd) as (-> & -> & Hc).
  rewrite (proj2 (Z.eqb_neq _ _)) by lia. cbn [negb].
  unfold clamp. cbn [sc_minSpeed sc_maxSpeed]. by rewrite (proj2 (Z.leb_gt _ _)).
Qed.

(** [ApproximateInt::operator<], the order of a [std::map] of [BBQState], is no
    strict weak order: 10 and 11, and 11 and 12, are incomparable, but 10 is below 12. *)
Theorem ApproximateInt_not_weak_order :
  ∃ a b c : Z, ApproximateInt.lt a b = false ∧ ApproximateInt.lt b a = false ∧
    ApproximateInt.lt b c = false ∧ ApproximateInt.lt c b = false ∧ ApproximateInt.lt a c = true.
Proof. exists 10, 11, 12. vm_compute. repeat split. Qed.

(** [FastAccelerationState] never asks for less than [MinSpeed]; its step stays
    positive. *)
Lemma fast_acceleration_bounds stats f state :
  0 < fa_speedIncrement f →
  let '(f', state') := FastAccelerationState.Run stats f state in
  0 < fa_speedIncrement f' ∧ ISpeedControllerState.MinSpeed ≤ realSpeed state'.
Proof.
  intros H. unfold FastAccelerationState.Run, FastAccelerationState.accelerate,
    FastAccelerationState.slow_down, FastAccelerationState.halve.
  repeat case_match; simplify_eq; cbn; lia.
Qed.

Lemma GetTimeout_pos c : milliseconds 50 < GetTimeout c.
Proof. unfold GetTimeout. pose proof (GetMaxRtt_pos (sc_stats c)). lia. Qed.

End SpeedCorrectness.

(** ** Witnesses *)

Definition subscribed : ConnectionContext SpeedController :=
  ConnectionContext.Subscribe 0 (SpeedController.make 0 0) ConnectionContext.make.

Lemma settings_reach_subscribers_witness :
  sc_minSpeed <$> cc_objects (ConnectionContext.SetInt MinSpeed 7 subscribed) !! 0%nat = Some 7.
Proof.
  destruct (settings_reach_subscribers subscribed MinSpeed 7 1 (SpeedController.make 0 0)) as (_ & H & _).
  - apply NoDup_singleton.
  - cbn. set_solver.
  - reflexivity.
  - rewrite H. reflexivity.
Defined.

(** A controller subscribed to fresh settings: speeds from 0 to the largest number. *)
Definition controller : SpeedController :=
  SpeedController.SettingsChanged MaxSpeed 3000 (SpeedController.make 0 0).

Lemma GetNumberPacketToSend_paces_witness :
  ∃ c', SpeedController.GetNumberPacketToSend (milliseconds 50) controller = Ret (3000, c').
Proof.
  destruct (GetNumberPacketToSend_paces (milliseconds 50) controller) as (c' & E & En & _).
  - vm_compute. split; discriminate.
  - vm_compute. split; discriminate.
  - reflexivity.
  - exists c'. rewrite E, En. reflexivity.
Defined.

Lemma speed_controller_stalls_witness :
  ∃ c'', SpeedController.GetNumberPacketToSend (seconds 300)
    (SpeedController.SettingsChanged MinSpeed 50 controller) = Ret (0, c'').
Proof.
  destruct (speed_controller_stalls controller (SpeedController.SettingsChanged MinSpeed 50 controller) (seconds 300))
    as (c'' & E & _).
  - apply rtc_once. apply sp_settings.
  - reflexivity.
  - exists c''. exact E.
Defined.

Lemma crossed_bounds_undefined_witness :
  SpeedController.GetNumberPacketToSend (milliseconds 50)
    (SpeedController.SettingsChanged MinSpeed 4000 controller) = Err Undefined.
Proof.
  apply (crossed_bounds_undefined (milliseconds 50) (SpeedController.SettingsChanged MinSpeed 4000 controller)).
  - vm_compute. split; discriminate.
  - reflexivity.
Defined.
