(* ===== verification/InFlight.v ===== *)
(** * Packets in flight
    [src/Sample.cpp] and [src/InFlightQueue.cpp]: the packets sent and not yet
    acknowledged, in samples of one send each; matching of acknowledgements, also
    when the receive thread adds some while the send thread works; timeouts.

    [std::unordered_map] and [std::unordered_set] are [gmap] and [gset]; the order of
    an iteration over them, which C++ leaves open, is the one of [map_to_list]. *)
From S2P Require Import Prelude Addr Packet RecvQueue SendQueue Stats SpeedControl.
Local Open Scope Z_scope.

Record Sample (P : Type) := mkSample {
  smp_packets : gmap Z (OutgoingPacket P);
  smp_servicePacketNumber : Z;
  smp_doubleSentPacketNumber : Z;
  smp_stats : TimeRangedStats;
}.
Arguments mkSample {_} _ _ _ _.
Arguments smp_packets {_} _.
Arguments smp_servicePacketNumber {_} _.
Arguments smp_doubleSentPacketNumber {_} _.
Arguments smp_stats {_} _.

Module Sample.
Section Operations.
Context {P : Type}.
Implicit Types (s : Sample P) (acks : gset Z) (o : OutgoingPacket P) (n now timeout : Z) (free : list P).

Definition make (packets : gmap Z (OutgoingPacket P)) (service double now : Z) : Sample P :=
  mkSample packets service double (TimeRangedStats.make now).

(** Take packet [n] out of the sample and count it in the statistics. *)
Definition settle (lost : bool) (rtt : Z) n o s : Sample P :=
  mkSample (delete n (smp_packets s)) (smp_servicePacketNumber s) (smp_doubleSentPacketNumber s)
    (TimeRangedStats.AddPacket lost (OutgoingPacket.GetSendTime o) rtt (smp_stats s)).

(** First loop of [ProcessAcks]. *)
Definition free_passed now (lastAck : Z) (x : list P * Sample P) (e : Z * OutgoingPacket P) :=
  let '(free, s) := x in
  if e.1 <=? lastAck then
    (free ++ [OutgoingPacket.GetPacket e.2],
     settle false (now - OutgoingPacket.GetSendTime e.2) e.1 e.2 s)
  else (free, s).

(** Second loop of [ProcessAcks]. *)
Definition free_acked now (lastAck : Z) (x : list P * gset Z * Sample P) (ack : Z) :=
  let '(free, acks, s) := x in
  if ack <=? lastAck then (free, acks ∖ {[ack]}, s)
  else
    match smp_packets s !! ack with
    | Some o =>
        (free ++ [OutgoingPacket.GetPacket o], acks ∖ {[ack]},
         settle false (now - OutgoingPacket.GetSendTime o) ack o s)
    | None => (free, acks, s)
    end.

(** The packets freed, the acknowledgements left over, and the sample. *)
Definition ProcessAcks now (lastAck : Z) acks s : list P * gset Z * Sample P :=
  let '(free, s) := foldl (free_passed now lastAck) ([], s) (map_to_list (smp_packets s)) in
  foldl (free_acked now lastAck) (free, acks, s) (elements acks).

Definition check_timeout now timeout (x : list (OutgoingPacket P) * Sample P) (e : Z * OutgoingPacket P) :=
  let '(needToSend, s) := x in
  if timeout <? now - OutgoingPacket.GetSendTime e.2 then
    (needToSend ++ [e.2], settle true 0 e.1 e.2 s)
  else (needToSend, s).

Definition IsDead s : bool := bool_decide (smp_packets s = ∅).

Definition CheckTimeouts now timeout s : list (OutgoingPacket P) * Sample P :=
  if IsDead s then ([], s)
  else foldl (check_timeout now timeout) ([], s) (map_to_list (smp_packets s)).

Definition GetStats s : TimeRangedStats := smp_stats s.

Definition FreePackets s : list P * Sample P :=
  ((OutgoingPacket.GetPacket ∘ snd) <$> map_to_list (smp_packets s),
   mkSample ∅ (smp_servicePacketNumber s) (smp_doubleSentPacketNumber s) (smp_stats s)).

End Operations.
End Sample.

Record InFlightQueue (P : Type) := mkInFlightQueue {
  if_receivedAcks : gset Z;
  if_speedController : SpeedController;
  if_samples : list (Sample P);
  if_lastAckNumber : Z;
}.
Arguments mkInFlightQueue {_} _ _ _ _.
Arguments if_receivedAcks {_} _.
Arguments if_speedController {_} _.
Arguments if_samples {_} _.
Arguments if_lastAckNumber {_} _.

Module InFlightQueue.
Section Operations.
Context {P : Type} `{!IPacket P}.
Implicit Types (q : InFlightQueue P) (s : Sample P) (acks : gset Z) (now : Z).

Definition make (c : SpeedController) : InFlightQueue P := mkInFlightQueue ∅ c [] 0.

Definition set_acks acks q : InFlightQueue P :=
  mkInFlightQueue acks (if_speedController q) (if_samples q) (if_lastAckNumber q).
Definition set_samples (samples : list (Sample P)) q : InFlightQueue P :=
  mkInFlightQueue (if_receivedAcks q) (if_speedController q) samples (if_lastAckNumber q).
Definition set_controller (c : SpeedController) q : InFlightQueue P :=
  mkInFlightQueue (if_receivedAcks q) c (if_samples q) (if_lastAckNumber q).

(** The two locked sections of [AddQueue] and of [ProcessAcks]: the acknowledgements
    are swapped out, and what is left of them is merged back. *)
Definition take_acks q : gset Z * InFlightQueue P := (if_receivedAcks q, set_acks ∅ q).
Definition merge_acks acks q : InFlightQueue P := set_acks (if_receivedAcks q ∪ acks) q.

(** State of the loop of [AddQueue]: the new sample's packets, the acknowledgements,
    [freePackets], [freeInternalPackets] and the two counters. *)
Record Sorting := mkSorting {
  so_queue : gmap Z (OutgoingPacket P);
  so_acks : gset Z;
  so_freePackets : list P;
  so_freeInternal : list P;
  so_service : Z;
  so_double : Z;
}.

Definition sort_packet (x : Sorting) (packet : OutgoingPacket P) : Sorting :=
  if OutgoingPacket.NeedAck packet then
    let packetNumber := SendQueue.seq_of packet in
    if decide (packetNumber ∈ so_acks x) then
      mkSorting (so_queue x) (so_acks x ∖ {[packetNumber]})
        (so_freePackets x ++ [OutgoingPacket.GetPacket packet]) (so_freeInternal x)
        (so_service x) (so_double x + 1)
    else
      mkSorting (<[packetNumber := packet]> (so_queue x)) (so_acks x) (so_freePackets x)
        (so_freeInternal x) (so_service x) (so_double x)
  else
    mkSorting (so_queue x) (so_acks x) (so_freePackets x)
      (so_freeInternal x ++ [OutgoingPacket.GetPacket packet]) (so_service x + 1) (so_double x).

(** [AddQueue] between its locked sections; [now] is read by the sample's constructor. *)
Definition AddQueue_body now (packets : list (OutgoingPacket P)) acks q
    : list P * list P * gset Z * InFlightQueue P :=
  let x := foldl sort_packet (mkSorting ∅ acks [] [] 0 0) packets in
  (so_freeInternal x, so_freePackets x, so_acks x,
   set_samples (if_samples q ++ [Sample.make (so_queue x) (so_service x) (so_double x) now]) q).

(** The pair of freed service packets and freed packets. *)
Definition AddQueue now (packets : list (OutgoingPacket P)) q : list P * list P * InFlightQueue P :=
  let '(acks, q) := take_acks q in
  let '(internal, free, acks, q) := AddQueue_body now packets acks q in
  (internal, free, merge_acks acks q).

Definition SetLastAck (lastAck : Z) q : InFlightQueue P :=
  mkInFlightQueue (if_receivedAcks q) (if_speedController q) (if_samples q)
    (Z.max (if_lastAckNumber q) lastAck).

Definition AddAcks (acks : list Z) q : InFlightQueue P :=
  set_acks (if_receivedAcks q ∪ list_to_set acks) q.

(** The loop of [ProcessAcks] over the samples; sample [i] reads the clock as [now i]. *)
Fixpoint process_samples (now : nat → Z) (lastAck : Z) acks (samples : list (Sample P))
    : list P * gset Z * list (Sample P) :=
  match samples with
  | [] => ([], acks, [])
  | s :: samples =>
      let '(free, acks, s) := Sample.ProcessAcks (now 0%nat) lastAck acks s in
      let '(free', acks, samples) := process_samples (λ i, now (S i)) lastAck acks samples in
      (free ++ free', acks, s :: samples)
  end.

Definition ProcessAcks_body (now : nat → Z) acks q : list P * gset Z * InFlightQueue P :=
  let '(free, acks, samples) := process_samples now (if_lastAckNumber q) acks (if_samples q) in
  (free, acks, set_samples samples q).

Definition ProcessAcks (now : nat → Z) q : list P * InFlightQueue P :=
  let '(acks, q) := take_acks q in
  let '(free, acks, q) := ProcessAcks_body now acks q in
  (free, merge_acks acks q).

Fixpoint timeout_samples (now : nat → Z) (timeout : Z) (samples : list (Sample P))
    : list (OutgoingPacket P) * list (Sample P) :=
  match samples with
  | [] => ([], [])
  | s :: samples =>
      let '(out, s) := Sample.CheckTimeouts (now 0%nat) timeout s in
      let '(out', samples) := timeout_samples (λ i, now (S i)) timeout samples in
      (out ++ out', s :: samples)
  end.

(** [_samples.remove_if]: dead samples feed the controller's statistics. *)
Definition bury_dead q : InFlightQueue P :=
  set_samples (filter (λ s, Sample.IsDead s = false) (if_samples q))
    (set_controller
      (foldl (λ c s, SpeedController.UpdateStats (Sample.GetStats s) c) (if_speedController q)
        (filter (λ s, Sample.IsDead s = true) (if_samples q))) q).

Definition CheckTimeouts (now : nat → Z) q : list (OutgoingPacket P) * InFlightQueue P :=
  let timeout := SpeedController.GetTimeout (if_speedController q) in
  let '(out, samples) := timeout_samples now timeout (if_samples q) in
  (out, bury_dead (set_samples samples q)).

Definition GetNumberPacketToSend now q : res (Z * InFlightQueue P) :=
  '(n, c) ← SpeedController.GetNumberPacketToSend now (if_speedController q);
  mret (n, set_controller c q).

Definition RevertNumberPacketToSend (number : Z) q : InFlightQueue P :=
  set_controller (SpeedController.RevertNumberPacketToSend number (if_speedController q)) q.

Definition GetAllPackets q : list P * InFlightQueue P :=
  (if_samples q ≫= fst ∘ Sample.FreePackets, set_samples (snd ∘ Sample.FreePackets <$> if_samples q) q).

End Operations.
End InFlightQueue.

(** ** One sample *)

Section SampleCorrectness.
Context {P : Type}.
Implicit Types (s : Sample P) (acks : gset Z) (o : OutgoingPacket P) (n now timeout : Z) (free : list P).
Import Sample.

(** The packets a sample owns. *)
Definition outgoing s : list (OutgoingPacket P) := snd <$> map_to_list (smp_packets s).
Definition held s : list P := op_packet <$> outgoing s.

Lemma outgoing_settle lost rtt n o s :
  smp_packets s !! n = Some o → outgoing s ≡ₚ o :: outgoing (settle lost rtt n o s).
Proof.
  intros H. unfold outgoing. cbn [settle smp_packets].
  by rewrite <- (map_to_list_delete (smp_packets s) n o H).
Qed.

Lemma held_settle lost rtt n o s :
  smp_packets s !! n = Some o → held s ≡ₚ op_packet o :: held (settle lost rtt n o s).
Proof. intros H. unfold held. by rewrite (outgoing_settle lost rtt n o s H). Qed.

Lemma free_passed_spec now last l : ∀ free s,
  NoDup l.*1 → (∀ e, e ∈ l → smp_packets s !! e.1 = Some e.2) →
  let '(free', s') := foldl (free_passed now last) (free, s) l in
  free' ++ held s' ≡ₚ free ++ held s ∧
  ∀ n, smp_packets s' !! n = if decide (n ∈ l.*1 ∧ n ≤ last) then None else smp_packets s !! n.
Proof.
  induction l as [|[k o] l IH]; intros free s Hnd Hl; cbn [foldl].
  { split; [done|]. intros n. rewrite decide_False; set_solver. }
  cbn [fmap list_fmap fst] in Hnd. apply NoDup_cons in Hnd as [Hk Hnd].
  cbn [free_passed fst snd]. destruct (Z.leb_spec k last) as [Hle|Hgt].
  - pose proof (Hl (k, o) ltac:(by left)) as Hko. cbn in Hko.
    specialize (IH (free ++ [OutgoingPacket.GetPacket o])
      (settle false (now - OutgoingPacket.GetSendTime o) k o s) Hnd).
    destruct (foldl _ _ _) as [free' s']. destruct IH as [Hp Hm].
    { intros e He. cbn [settle smp_packets]. rewrite lookup_delete_ne; [apply Hl; by right|].
      intros ->. apply Hk. by apply list_elem_of_fmap_2. }
    split.
    + rewrite Hp, <- app_assoc. by rewrite (held_settle false (now - OutgoingPacket.GetSendTime o) k o s Hko).
    + intros n. rewrite Hm. cbn [settle smp_packets fmap list_fmap fst].
      destruct (decide (n = k)) as [->|Hne].
      * rewrite decide_False, lookup_delete_eq, decide_True by set_solver. done.
      * rewrite lookup_delete_ne by done. repeat case_decide; set_solver.
  - specialize (IH free s Hnd). destruct (foldl _ _ _) as [free' s'].
    destruct IH as [Hp Hm]; [intros e He; apply Hl; by right|]. split; [done|].
    intros n. rewrite Hm. cbn [fmap list_fmap fst].
    destruct (decide (n = k)) as [->|Hne]; [|repeat case_decide; set_solver].
    rewrite !decide_False by (try lia; set_solver). done.
Qed.

Lemma free_acked_spec now last l : ∀ free acks s,
  NoDup l →
  let '(free', acks', s') := foldl (free_acked now last) (free, acks, s) l in
  free' ++ held s' ≡ₚ free ++ held s ∧
  (∀ n, smp_packets s' !! n = if decide (n ∈ l ∧ last < n) then None else smp_packets s !! n) ∧
  (∀ a, a ∈ acks' ↔ a ∈ acks ∧ ¬ (a ∈ l ∧ (a ≤ last ∨ is_Some (smp_packets s !! a)))).
Proof.
  induction l as [|k l IH]; intros free acks s Hnd; cbn [foldl].
  { split; [done|]. split; [intros n; rewrite decide_False; set_solver|set_solver]. }
  apply NoDup_cons in Hnd as [Hk Hnd]. cbn [free_acked].
  destruct (Z.leb_spec k last) as [Hle|Hgt]; [|destruct (smp_packets s !! k) as [o|] eqn:Eo].
  - specialize (IH free (acks ∖ {[k]}) s Hnd). destruct (foldl _ _ _) as [[free' acks'] s'].
    destruct IH as (Hp & Hm & Ha). split; [done|]. split.
    + intros n. rewrite Hm. destruct (decide (n = k)) as [->|Hne].
      * rewrite !decide_False by (try lia; set_solver). done.
      * repeat case_decide; set_solver.
    + intros a. rewrite Ha. destruct (decide (a = k)) as [->|Hne]; set_solver.
  - specialize (IH (free ++ [OutgoingPacket.GetPacket o]) (acks ∖ {[k]})
      (settle false (now - OutgoingPacket.GetSendTime o) k o s) Hnd).
    destruct (foldl _ _ _) as [[free' acks'] s']. destruct IH as (Hp & Hm & Ha). split; [|split].
    + rewrite Hp, <- app_assoc. by rewrite (held_settle false (now - OutgoingPacket.GetSendTime o) k o s Eo).
    + intros n. rewrite Hm. cbn [settle smp_packets]. destruct (decide (n = k)) as [->|Hne].
      * rewrite decide_False, lookup_delete_eq, decide_True by (try lia; set_solver). done.
      * rewrite lookup_delete_ne by done. repeat case_decide; set_solver.
    + intros a. rewrite Ha. cbn [settle smp_packets]. destruct (decide (a = k)) as [->|Hne].
      * rewrite Eo. split; [set_solver|]. intros [_ []]. split; [by left|]. right. eauto.
      * rewrite lookup_delete_ne by done. set_solver.
  - specialize (IH free acks s Hnd). destruct (foldl _ _ _) as [[free' acks'] s'].
    destruct IH as (Hp & Hm & Ha). split; [done|]. split.
    + intros n. rewrite Hm. destruct (decide (n = k)) as [->|Hne].
      * rewrite Eo. by repeat case_decide.
      * repeat case_decide; set_solver.
    + intros a. rewrite Ha. destruct (decide (a = k)) as [->|Hne]; [|set_solver].
      rewrite Eo. split; [|set_solver]. intros [? _]. split; [done|].
      intros [_ [?|[? ?]]]; [lia|done].
Qed.

(** [ProcessAcks] frees exactly the packets acknowledged, by number or by
    [lastAckNumber], and uses up exactly the acknowledgements it can. *)
Lemma ProcessAcks_spec now last acks s :
  let '(free, acks', s') := ProcessAcks now last acks s in
  free ++ held s' ≡ₚ held s ∧
  (∀ n, smp_packets s' !! n = if decide (n ≤ last ∨ n ∈ acks) then None else smp_packets s !! n) ∧
  (∀ a, a ∈ acks' ↔ a ∈ acks ∧ last < a ∧ smp_packets s !! a = None).
Proof.
  unfold ProcessAcks.
  pose proof (free_passed_spec now last (map_to_list (smp_packets s)) [] s
    (NoDup_fst_map_to_list _)) as H1.
  destruct (foldl (free_passed now last) _ _) as [free s1].
  destruct H1 as [Hp1 Hm1]. { intros [n o] He. by apply elem_of_map_to_list in He. }
  pose proof (free_acked_spec now last (elements acks) free acks s1 (NoDup_elements _)) as H2.
  destruct (foldl (free_acked now last) _ _) as [[free' acks'] s'].
  destruct H2 as (Hp2 & Hm2 & Ha2). split; [by rewrite Hp2|].
  assert (Hm1' : ∀ n, smp_packets s1 !! n = if decide (n ≤ last) then None else smp_packets s !! n).
  { intros n. rewrite Hm1. destruct (smp_packets s !! n) as [o|] eqn:E; [|by repeat case_decide].
    assert (n ∈ (map_to_list (smp_packets s)).*1).
    { apply list_elem_of_fmap. exists (n, o). split; [done|]. by apply elem_of_map_to_list. }
    repeat case_decide; tauto. }
  split.
  - intros n. rewrite Hm2, Hm1'.
    destruct (decide (n ∈ elements acks ∧ last < n)) as [[?%elem_of_elements ?]|Hn].
    + by rewrite decide_True by auto.
    + rewrite elem_of_elements in Hn. destruct (decide (n ≤ last)).
      * by rewrite decide_True by auto.
      * rewrite decide_False; [done|]. intros [?|?]; [lia|]. apply Hn. split; [done|lia].
  - intros a. rewrite Ha2, Hm1', elem_of_elements. split.
    + intros [Ha Hn]. split; [done|]. destruct (decide (a ≤ last)); [tauto|].
      split; [lia|]. destruct (smp_packets s !! a); [|done]. exfalso. apply Hn. eauto.
    + intros (Ha & Hl & E). split; [done|]. rewrite E. intros [_ [?|[? Hs]]]; [lia|].
      by case_decide.
Qed.

Definition timed_out now timeout o : Prop := timeout < now - op_sendTime o.

Lemma check_timeout_spec now timeout l : ∀ out s,
  NoDup l.*1 → (∀ e, e ∈ l → smp_packets s !! e.1 = Some e.2) →
  let '(out', s') := foldl (check_timeout now timeout) (out, s) l in
  out' ++ outgoing s' ≡ₚ out ++ outgoing s ∧
  (∃ more, out' = out ++ more ∧ Forall (timed_out now timeout) more) ∧
  ∀ n o, smp_packets s' !! n = Some o ↔
    smp_packets s !! n = Some o ∧ ¬ (n ∈ l.*1 ∧ timed_out now timeout o).
Proof.
  induction l as [|[k o] l IH]; intros out s Hnd Hl; cbn [foldl].
  { split; [done|]. split; [exists []; by rewrite app_nil_r|]. set_solver. }
  cbn [fmap list_fmap fst] in Hnd. apply NoDup_cons in Hnd as [Hk Hnd].
  pose proof (Hl (k, o) ltac:(by left)) as Hko. cbn in Hko.
  cbn [check_timeout fst snd]. destruct (Z.ltb_spec timeout (now - OutgoingPacket.GetSendTime o)) as [Hlt|Hge].
  - specialize (IH (out ++ [o]) (settle true 0 k o s) Hnd). destruct (foldl _ _ _) as [out' s'].
    destruct IH as (Hp & (more & -> & Hmore) & Hm).
    { intros e He. cbn [settle smp_packets]. rewrite lookup_delete_ne; [apply Hl; by right|].
      intros ->. apply Hk. by apply list_elem_of_fmap_2. }
    split; [by rewrite Hp, <- app_assoc, (outgoing_settle true 0 k o s Hko)|].
    split; [exists (o :: more); rewrite <- app_assoc; split; [done|by constructor]|].
    intros n o'. rewrite Hm. cbn [settle smp_packets fmap list_fmap fst].
    destruct (decide (n = k)) as [->|Hne].
    + rewrite lookup_delete_eq, Hko. split; [by intros []|]. intros [[= <-] []]. split; [by left|done].
    + rewrite lookup_delete_ne by done. set_solver.
  - specialize (IH out s Hnd). destruct (foldl _ _ _) as [out' s'].
    destruct IH as (Hp & Hmore & Hm); [intros e He; apply Hl; by right|].
    split; [done|]. split; [done|]. intros n o'. rewrite Hm. cbn [fmap list_fmap fst].
    destruct (decide (n = k)) as [->|Hne]; [|set_solver].
    split; [|set_solver]. intros [E Hn]. split; [done|]. intros [_ Ht].
    rewrite Hko in E. injection E as <-. unfold timed_out, OutgoingPacket.GetSendTime in *. lia.
Qed.

(** [CheckTimeouts] hands back exactly the packets older than the timeout. *)
Lemma Sample_CheckTimeouts_spec now timeout s :
  let '(out, s') := CheckTimeouts now timeout s in
  out ++ outgoing s' ≡ₚ outgoing s ∧ Forall (timed_out now timeout) out ∧
  ∀ n o, smp_packets s' !! n = Some o ↔ smp_packets s !! n = Some o ∧ ¬ timed_out now timeout o.
Proof.
  unfold CheckTimeouts, IsDead. case_bool_decide as Hd.
  { split; [done|]. split; [done|]. rewrite Hd. intros n o. rewrite lookup_empty. naive_solver. }
  pose proof (check_timeout_spec now timeout (map_to_list (smp_packets s)) [] s
    (NoDup_fst_map_to_list _)) as H.
  destruct (foldl _ _ _) as [out s']. destruct H as (Hp & (more & -> & Hmore) & Hm).
  { intros [n o] He. by apply elem_of_map_to_list in He. }
  split; [done|]. split; [done|]. intros n o. rewrite Hm. split; [|naive_solver].
  intros [E Hn]. split; [done|]. intros Ht. apply Hn. split; [|done].
  apply list_elem_of_fmap. exists (n, o). split; [done|]. by apply elem_of_map_to_list.
Qed.

End SampleCorrectness.

(** ** The queue *)

Section QueueCorrectness.
Context {P : Type} `{!IPacket P}.
Implicit Types (q : InFlightQueue P) (s : Sample P) (ss : list (Sample P)) (acks : gset Z)
  (o : OutgoingPacket P) (n : Z).
Import InFlightQueue.

(** Packet number [n] is in one of the samples. *)
Definition tracks s n : Prop := is_Some (smp_packets s !! n).
Definition in_samples ss n : Prop := Exists (λ s, tracks s n) ss.
Definition in_flight q n : Prop := in_samples (if_samples q) n.

(** A packet number is in at most one sample. *)
Fixpoint unique ss : Prop :=
  match ss with
  | [] => True
  | s :: ss => (∀ n, tracks s n → ¬ in_samples ss n) ∧ unique ss
  end.

Definition all_outgoing ss : list (OutgoingPacket P) := ss ≫= outgoing.
Definition all_held ss : list P := op_packet <$> all_outgoing ss.

Lemma all_held_cons s ss : all_held (s :: ss) = held s ++ all_held ss.
Proof. unfold all_held, all_outgoing. cbn. by rewrite fmap_app. Qed.
Lemma all_held_app ss ss' : all_held (ss ++ ss') = all_held ss ++ all_held ss'.
Proof. unfold all_held, all_outgoing. by rewrite bind_app, fmap_app. Qed.

Lemma in_samples_nil n : ¬ in_samples [] n.
Proof. by intros ?%Exists_nil. Qed.
Lemma in_samples_cons s ss n : in_samples (s :: ss) n ↔ tracks s n ∨ in_samples ss n.
Proof. apply Exists_cons. Qed.
Lemma in_samples_app ss ss' n : in_samples (ss ++ ss') n ↔ in_samples ss n ∨ in_samples ss' n.
Proof. apply Exists_app. Qed.

Lemma unique_app ss s :
  unique ss → (∀ n, tracks s n → ¬ in_samples ss n) → unique (ss ++ [s]).
Proof.
  induction ss as [|s' ss IH]; cbn; intros Hu Hs; [by split; [intros n _; apply in_samples_nil|]|].
  destruct Hu as [H1 H2]. split.
  - intros n Ht. rewrite in_samples_app, in_samples_cons. intros [H|[H|[]%in_samples_nil]]; [by apply (H1 n)|].
    apply (Hs n H). apply in_samples_cons. by left.
  - apply IH; [done|]. intros n Ht Hin. apply (Hs n Ht). apply in_samples_cons. by right.
Qed.

(** Fewer packets in each sample. *)
Definition shrunk : list (Sample P) → list (Sample P) → Prop :=
  Forall2 (λ s' s, ∀ n, tracks s' n → tracks s n).

Lemma shrunk_in ss' ss n : shrunk ss' ss → in_samples ss' n → in_samples ss n.
Proof.
  intros H. induction H as [|s' s ss' ss Hs _ IH]; [done|]. rewrite !in_samples_cons. naive_solver.
Qed.

Lemma unique_shrunk ss' ss : shrunk ss' ss → unique ss → unique ss'.
Proof.
  intros H. induction H as [|s' s ss' ss Hs Hss IH]; cbn; [done|]. intros [H1 H2]. split; [|auto].
  intros n Ht Hin. apply (H1 n); [auto|]. by eapply shrunk_in.
Qed.

Lemma unique_filter (Q : Sample P → Prop) `{∀ s, Decision (Q s)} ss : unique ss → unique (filter Q ss).
Proof.
  induction ss as [|s ss IH]; [done|]. cbn [unique]. intros [H1 H2]. rewrite filter_cons.
  case_decide; [|auto]. cbn. split; [|auto]. intros n Ht Hin. apply (H1 n Ht).
  unfold in_samples in *. rewrite Exists_exists in *. destruct Hin as (x & Hx & Hxn).
  apply list_elem_of_filter in Hx as [_ Hx]. eauto.
Qed.

(** What [ProcessAcks] leaves of the samples and of the acknowledgements. *)
Lemma process_samples_spec last ss : ∀ now acks,
  unique ss →
  let '(free, acks', ss') := process_samples now last acks ss in
  free ++ all_held ss' ≡ₚ all_held ss ∧ shrunk ss' ss ∧
  (∀ n, in_samples ss' n ↔ in_samples ss n ∧ last < n ∧ n ∉ acks) ∧
  (∀ a, a ∈ acks' → a ∈ acks ∧ ¬ in_samples ss a) ∧
  (∀ a, a ∈ acks → last < a → ¬ in_samples ss a → a ∈ acks').
Proof.
  induction ss as [|s ss IH]; intros now acks Hu; cbn [process_samples].
  { split; [done|]. split; [constructor|]. split; [|split; [|done]].
    - intros n. split; [by intros []%in_samples_nil|by intros [[]%in_samples_nil _]].
    - intros a Ha. split; [done|]. apply in_samples_nil. }
  destruct Hu as [Hs Hu].
  pose proof (ProcessAcks_spec (now 0%nat) last acks s) as H1.
  destruct (Sample.ProcessAcks _ _ _ _) as [[free acks1] s1]. destruct H1 as (Hp1 & Hm1 & Ha1).
  specialize (IH (λ i, now (S i)) acks1 Hu). destruct (process_samples _ _ _ _) as [[free' acks'] ss'].
  destruct IH as (Hp & Hsh & Hin & Ha & Hkeep).
  assert (Ht1 : ∀ n, tracks s1 n ↔ tracks s n ∧ last < n ∧ n ∉ acks).
  { intros n. unfold tracks. rewrite Hm1. case_decide as Hd.
    - split; [by intros []|]. intros (_ & ? & ?). destruct Hd; [lia|done].
    - split; [|tauto]. intros Hx. split; [done|]. split; [lia|tauto]. }
  assert (Hnone : ∀ n, ¬ tracks s n ↔ smp_packets s !! n = None).
  { intros n. unfold tracks. by rewrite eq_None_not_Some. }
  split.
  { rewrite !all_held_cons, <- Hp1, <- Hp. solve_Permutation. }
  split. { constructor; [|done]. intros n Ht. by apply Ht1. }
  split; [|split].
  - intros n. rewrite !in_samples_cons, Ht1, Hin. split.
    + intros [?|(H1 & H2 & H3)]; [tauto|]. split; [by right|]. split; [done|].
      intros Hn. apply H3, Ha1. split; [done|]. split; [done|]. apply Hnone. intros Ht. by apply (Hs n).
    + intros ([?|?] & ? & Hn); [tauto|]. right. split; [done|]. split; [done|].
      intros [? _]%Ha1. done.
  - intros a Haa. rewrite in_samples_cons. apply Ha in Haa as [(H1 & H2 & H3%Hnone)%Ha1 H4]. tauto.
  - intros a Haa Hl. rewrite in_samples_cons. intros Hn. apply Hkeep; [|done|tauto].
    apply Ha1. split; [done|]. split; [done|]. apply Hnone. tauto.
Qed.

(** [ProcessAcks] frees exactly the packets in flight that are acknowledged, by
    their number or by the cumulative acknowledgement, each packet once, and keeps
    the acknowledgements that match no packet yet. *)
Theorem ProcessAcks_frees_acknowledged now q :
  unique (if_samples q) →
  let '(free, q') := ProcessAcks now q in
  free ++ all_held (if_samples q') ≡ₚ all_held (if_samples q) ∧
  (∀ n, in_flight q' n ↔ in_flight q n ∧ if_lastAckNumber q < n ∧ n ∉ if_receivedAcks q) ∧
  (∀ a, a ∈ if_receivedAcks q → if_lastAckNumber q < a → ¬ in_flight q a → a ∈ if_receivedAcks q') ∧
  unique (if_samples q').
Proof.
  intros Hu. unfold ProcessAcks, ProcessAcks_body, take_acks. cbn [if_lastAckNumber if_samples set_acks].
  pose proof (process_samples_spec (if_lastAckNumber q) (if_samples q) now (if_receivedAcks q) Hu) as H.
  destruct (process_samples _ _ _ _) as [[free acks] ss]. destruct H as (Hp & Hsh & Hin & _ & Hk).
  split; [done|]. split; [done|]. split; [|by eapply unique_shrunk].
  intros a Ha Hl Hn. cbn. apply elem_of_union. right. by apply Hk.
Qed.

(** The numbers of the packets that want an acknowledgement. *)
Definition ack_numbers (packets : list (OutgoingPacket P)) : list Z :=
  SendQueue.seq_of <$> filter (λ o, op_needAck o = true) packets.

Definition keyed (m : gmap Z (OutgoingPacket P)) : Prop :=
  ∀ n o, m !! n = Some o → SendQueue.seq_of o = n ∧ op_needAck o = true.

(** The packets sorted so far. *)
Definition sorted_packets (x : Sorting) : list P :=
  so_freePackets x ++ so_freeInternal x ++ (op_packet ∘ snd <$> map_to_list (so_queue x)).

Lemma ack_numbers_cons o packets :
  ack_numbers (o :: packets) = (if op_needAck o then [SendQueue.seq_of o] else []) ++ ack_numbers packets.
Proof.
  unfold ack_numbers. destruct (op_needAck o) eqn:E; [by rewrite filter_cons_True|].
  by rewrite filter_cons_False by (rewrite E; discriminate).
Qed.

Lemma sort_packet_spec x o :
  (op_needAck o = true → so_queue x !! SendQueue.seq_of o = None) →
  sorted_packets (sort_packet x o) ≡ₚ op_packet o :: sorted_packets x ∧
  (∀ n, is_Some (so_queue (sort_packet x o) !! n) ↔
    is_Some (so_queue x !! n) ∨ n ∈ ack_numbers [o] ∧ n ∉ so_acks x) ∧
  (∀ a, a ∈ so_acks (sort_packet x o) ↔ a ∈ so_acks x ∧ a ∉ ack_numbers [o]).
Proof.
  intros Hx. unfold sort_packet, sorted_packets, OutgoingPacket.NeedAck, OutgoingPacket.GetPacket.
  rewrite ack_numbers_cons. destruct (op_needAck o); cbn [app ack_numbers filter fmap list_fmap].
  - specialize (Hx eq_refl). set (k := SendQueue.seq_of o) in *. case_decide as Hk; cbn.
    + split; [solve_Permutation|]. split; [|set_solver]. intros n. set_solver.
    + split; [rewrite map_to_list_insert by done; cbn; solve_Permutation|]. split; [|set_solver].
      intros n. rewrite lookup_insert_is_Some', list_elem_of_singleton. naive_solver.
  - cbn. split; [solve_Permutation|]. split; set_solver.
Qed.

(** What the loop of [AddQueue] makes of the packets. *)
Lemma sort_packets_spec packets : ∀ x,
  NoDup (ack_numbers packets) → (∀ n, n ∈ ack_numbers packets → so_queue x !! n = None) →
  let x' := foldl sort_packet x packets in
  sorted_packets x' ≡ₚ sorted_packets x ++ (op_packet <$> packets) ∧
  (∀ n, is_Some (so_queue x' !! n) ↔
    is_Some (so_queue x !! n) ∨ n ∈ ack_numbers packets ∧ n ∉ so_acks x) ∧
  (∀ a, a ∈ so_acks x' ↔ a ∈ so_acks x ∧ a ∉ ack_numbers packets).
Proof.
  induction packets as [|o packets IH]; intros x Hnd Hx x'; subst x'; cbn [foldl].
  { cbn. rewrite app_nil_r. split; [done|]. split; set_solver. }
  destruct (sort_packet_spec x o) as (Hp1 & Ht1 & Ha1).
  { intros Ho. apply Hx. rewrite ack_numbers_cons, Ho. by left. }
  rewrite ack_numbers_cons in Hnd, Hx |- *. apply NoDup_app in Hnd as (_ & Hdis & Hnd).
  rewrite ack_numbers_cons in Ht1, Ha1. cbn [ack_numbers filter fmap list_fmap] in Ht1, Ha1.
  rewrite app_nil_r in Ht1, Ha1.
  destruct (IH (sort_packet x o) Hnd) as (Hp & Ht & Ha).
  { intros n Hn. apply eq_None_not_Some. rewrite Ht1. intros [[? E]|[Hn' _]].
    - rewrite Hx in E; [done|]. rewrite elem_of_app. by right.
    - by apply (Hdis n). }
  split; [rewrite Hp, Hp1; cbn; solve_Permutation|]. split.
  - intros n. rewrite Ht, Ht1, Ha1, elem_of_app. specialize (Hdis n).
    destruct (decide (n ∈ (if op_needAck o then [SendQueue.seq_of o] else []))); tauto.
  - intros a. rewrite Ha, Ha1, elem_of_app. tauto.
Qed.

Lemma held_make (m : gmap Z (OutgoingPacket P)) service double now :
  held (Sample.make m service double now) = op_packet ∘ snd <$> map_to_list m.
Proof. unfold held, outgoing. cbn. by rewrite <- list_fmap_compose. Qed.

(** [AddQueue] between its locked sections. *)
Lemma AddQueue_body_spec now packets acks q :
  unique (if_samples q) → NoDup (ack_numbers packets) →
  (∀ n, n ∈ ack_numbers packets → ¬ in_flight q n) →
  let '(internal, free, acks', q') := AddQueue_body now packets acks q in
  internal ++ free ++ all_held (if_samples q') ≡ₚ (op_packet <$> packets) ++ all_held (if_samples q) ∧
  (∀ n, in_flight q' n ↔ in_flight q n ∨ n ∈ ack_numbers packets ∧ n ∉ acks) ∧
  (∀ a, a ∈ acks' ↔ a ∈ acks ∧ a ∉ ack_numbers packets) ∧ unique (if_samples q').
Proof.
  intros Hu Hnd Hnew. unfold AddQueue_body.
  destruct (sort_packets_spec packets (mkSorting ∅ acks [] [] 0 0) Hnd) as (Hp & Ht & Ha);
    [intros; apply lookup_empty|].
  set (x := foldl sort_packet _ packets) in *. cbn [so_queue so_acks] in Ht, Ha.
  assert (Ht' : ∀ n, is_Some (so_queue x !! n) ↔ n ∈ ack_numbers packets ∧ n ∉ acks).
  { intros n. rewrite Ht, lookup_empty. split; [intros [[? ?]|?]; done|by right]. }
  cbn [if_samples set_samples]. split; [|split; [|split; [done|]]].
  - rewrite all_held_app, all_held_cons, held_make. unfold sorted_packets in Hp. cbn in Hp.
    rewrite map_to_list_empty in Hp. cbn in Hp. rewrite <- Hp. unfold all_held at 2. cbn. solve_Permutation.
  - intros n. unfold in_flight. cbn [if_samples set_samples]. rewrite in_samples_app, in_samples_cons. unfold tracks at 1. cbn [smp_packets Sample.make].
    rewrite Ht'. split; [intros [?|[?|[]%in_samples_nil]]; auto|tauto].
  - apply unique_app; [done|]. intros n Hn. apply Hnew. apply Ht' in Hn. tauto.
Qed.

Lemma AddQueue_unique now packets q :
  unique (if_samples q) → NoDup (ack_numbers packets) →
  (∀ n, n ∈ ack_numbers packets → ¬ in_flight q n) → unique (if_samples (AddQueue now packets q).2).
Proof.
  intros Hu Hnd Hnew. unfold AddQueue, take_acks.
  pose proof (AddQueue_body_spec now packets (if_receivedAcks q) (set_acks ∅ q) Hu Hnd Hnew) as H.
  destruct (AddQueue_body _ _ _ _) as [[[internal free] acks] q']. apply H.
Qed.

(** [AddQueue] sorts a batch without losing a packet: the service packets are
    given back, a packet whose acknowledgement has already arrived is given back too
    and uses that acknowledgement up, and all others are in flight. *)
Theorem AddQueue_sorts now packets q :
  unique (if_samples q) → NoDup (ack_numbers packets) →
  (∀ n, n ∈ ack_numbers packets → ¬ in_flight q n) →
  let '(internal, free, q') := AddQueue now packets q in
  internal ++ free ++ all_held (if_samples q') ≡ₚ (op_packet <$> packets) ++ all_held (if_samples q) ∧
  (∀ n, in_flight q' n ↔ in_flight q n ∨ n ∈ ack_numbers packets ∧ n ∉ if_receivedAcks q) ∧
  (∀ a, a ∈ if_receivedAcks q' ↔ a ∈ if_receivedAcks q ∧ a ∉ ack_numbers packets) ∧
  unique (if_samples q').
Proof.
  intros Hu Hnd Hnew. unfold AddQueue, take_acks.
  pose proof (AddQueue_body_spec now packets (if_receivedAcks q) (set_acks ∅ q) Hu Hnd Hnew) as H.
  destruct (AddQueue_body _ _ _ _) as [[[internal free] acks] q'] eqn:E.
  destruct H as (Hp & Hin & Ha & Hu'). split; [done|]. split; [done|]. split; [|done].
  intros a. cbn. rewrite elem_of_union, Ha.
  assert (if_receivedAcks q' = ∅) as -> by (unfold AddQueue_body in E; by simplify_eq).
  set_solver.
Qed.

Lemma timeout_samples_spec timeout ss : ∀ now,
  let '(out, ss') := timeout_samples now timeout ss in
  out ++ all_outgoing ss' ≡ₚ all_outgoing ss ∧ shrunk ss' ss ∧
  (∀ o, o ∈ out → ∃ i, timed_out (now i) timeout o).
Proof.
  induction ss as [|s ss IH]; intros now; cbn [timeout_samples].
  { split; [done|]. split; [constructor|set_solver]. }
  pose proof (Sample_CheckTimeouts_spec (now 0%nat) timeout s) as H1.
  destruct (Sample.CheckTimeouts _ _ _) as [out s1]. destruct H1 as (Hp1 & Hf & Hm).
  specialize (IH (λ i, now (S i))). destruct (timeout_samples _ _ _) as [out' ss'].
  destruct IH as (Hp & Hsh & Ho). split; [|split].
  - unfold all_outgoing in *. cbn. rewrite <- Hp1, <- Hp. solve_Permutation.
  - constructor; [|done]. intros n [o Ho']. apply Hm in Ho' as [E _]. by exists o.
  - intros o [Hin|Hin]%elem_of_app.
    + exists 0%nat. rewrite Forall_forall in Hf. by apply Hf.
    + destruct (Ho o Hin) as [i Hi]. by exists (S i).
Qed.

Lemma dead_holds_nothing ss : all_outgoing (filter (λ s, Sample.IsDead s = false) ss) = all_outgoing ss.
Proof.
  induction ss as [|s ss IH]; [done|]. rewrite filter_cons. unfold all_outgoing in *.
  case_decide as Hd; cbn; rewrite IH; [done|].
  unfold Sample.IsDead in Hd. case_bool_decide as He; [|done].
  unfold outgoing. by rewrite He, map_to_list_empty.
Qed.

(** What the invariants of the queue need of [CheckTimeouts]. *)
Lemma CheckTimeouts_keeps now q :
  let q' := (CheckTimeouts now q).2 in
  (unique (if_samples q) → unique (if_samples q')) ∧
  if_receivedAcks q' = if_receivedAcks q ∧ if_lastAckNumber q' = if_lastAckNumber q.
Proof.
  unfold CheckTimeouts.
  pose proof (timeout_samples_spec (SpeedController.GetTimeout (if_speedController q)) (if_samples q) now) as H.
  destruct (timeout_samples _ _ _) as [out ss]. destruct H as (_ & Hsh & _).
  split; [|done]. intros Hu. apply unique_filter. by eapply unique_shrunk.
Qed.

(** [CheckTimeouts] hands back, once each, packets in flight that are older than
    the timeout, leaves every other one in flight, and buries the samples it emptied. *)
Theorem CheckTimeouts_hands_back now q :
  let '(out, q') := CheckTimeouts now q in
  out ++ all_outgoing (if_samples q') ≡ₚ all_outgoing (if_samples q) ∧
  (∀ o, o ∈ out → ∃ i, SpeedController.GetTimeout (if_speedController q) < now i - op_sendTime o) ∧
  Forall (λ s, smp_packets s ≠ ∅) (if_samples q') ∧
  (unique (if_samples q) → unique (if_samples q')) ∧ if_receivedAcks q' = if_receivedAcks q.
Proof.
  unfold CheckTimeouts.
  pose proof (timeout_samples_spec (SpeedController.GetTimeout (if_speedController q)) (if_samples q) now) as H.
  destruct (timeout_samples _ _ _) as [out ss]. destruct H as (Hp & Hsh & Ho).
  cbn [bury_dead set_samples if_samples set_controller]. rewrite dead_holds_nothing.
  split; [done|]. split; [done|]. split; [|split; [|done]].
  - apply Forall_forall. intros s [Hs _]%list_elem_of_filter He. unfold Sample.IsDead in Hs.
    by rewrite bool_decide_eq_true_2 in Hs.
  - intros Hu. apply unique_filter. by eapply unique_shrunk.
Qed.

End QueueCorrectness.

(** ** By packet numbers *)

Section Numbers.
Context {P : Type} `{!IPacket P}.
Implicit Types (q : InFlightQueue P) (s : Sample P) (ss : list (Sample P)) (o : OutgoingPacket P).
Import InFlightQueue.

(** Each packet sits in its sample under its own number, and wants an acknowledgement. *)
Definition all_keyed ss : Prop := Forall (λ s, keyed (smp_packets s)) ss.

Definition acked (packets : list (OutgoingPacket P)) := filter (λ o, op_needAck o = true) packets.
Definition unacked (packets : list (OutgoingPacket P)) := filter (λ o, op_needAck o = false) packets.

Lemma acked_unacked packets : packets ≡ₚ unacked packets ++ acked packets.
Proof.
  induction packets as [|o packets IH]; [done|]. unfold acked, unacked in *. rewrite !filter_cons.
  destruct (op_needAck o); cbn; rewrite IH at 1; solve_Permutation.
Qed.

Lemma tracks_number s n : keyed (smp_packets s) → tracks s n ↔ n ∈ GetSeqNumber <$> held s.
Proof.
  intros Hk. unfold tracks, held, outgoing. rewrite list_elem_of_fmap. split.
  - intros [o Ho]. destruct (Hk _ _ Ho) as [En _]. exists (op_packet o). split; [done|].
    apply list_elem_of_fmap_2, list_elem_of_fmap. exists (n, o). split; [done|]. by apply elem_of_map_to_list.
  - intros (p & -> & (o & -> & ([m o'] & -> & Hm%elem_of_map_to_list)%list_elem_of_fmap)%list_elem_of_fmap).
    destruct (Hk _ _ Hm) as [En _]. exists o'. cbn. unfold SendQueue.seq_of, OutgoingPacket.GetPacket in En. congruence.
Qed.

Lemma in_samples_number ss n : all_keyed ss → in_samples ss n ↔ n ∈ GetSeqNumber <$> all_held ss.
Proof.
  induction 1 as [|s ss Hs _ IH]; [split; [by intros []%in_samples_nil|by intros ?%elem_of_nil]|].
  rewrite in_samples_cons, all_held_cons, fmap_app, elem_of_app, IH. by rewrite tracks_number.
Qed.

Lemma unique_numbers ss : all_keyed ss → NoDup (GetSeqNumber <$> all_held ss) → unique ss.
Proof.
  induction 1 as [|s ss Hs Hss IH]; [done|]. rewrite all_held_cons, fmap_app, NoDup_app.
  intros (_ & Hdis & Hnd). split; [|auto]. intros n. rewrite tracks_number, in_samples_number by done. apply Hdis.
Qed.

Lemma keyed_needAck ss o : all_keyed ss → o ∈ all_outgoing ss → op_needAck o = true.
Proof.
  intros Hk (s & Ho & Hs)%list_elem_of_bind. unfold all_keyed in Hk. rewrite Forall_forall in Hk.
  apply list_elem_of_fmap in Ho as ([n o'] & -> & Hn%elem_of_map_to_list). by apply (Hk s Hs n).
Qed.

Lemma keyed_sub (m m' : gmap Z (OutgoingPacket P)) : m' ⊆ m → keyed m → keyed m'.
Proof. intros Hsub Hk n o Ho. by apply Hk, (lookup_weaken m' m). Qed.

Definition sub_samples : list (Sample P) → list (Sample P) → Prop :=
  Forall2 (λ s' s, smp_packets s' ⊆ smp_packets s).

Lemma all_keyed_sub ss' ss : sub_samples ss' ss → all_keyed ss → all_keyed ss'.
Proof.
  induction 1 as [|s' s ss' ss Hs _ IH]; [done|]. intros [H1 H2]%Forall_cons. constructor; [|by apply IH].
  by eapply keyed_sub.
Qed.

Lemma process_samples_sub last ss : ∀ now acks, sub_samples (process_samples now last acks ss).2 ss.
Proof.
  induction ss as [|s ss IH]; intros now acks; cbn [process_samples]; [constructor|].
  pose proof (ProcessAcks_spec (now 0%nat) last acks s) as H.
  destruct (Sample.ProcessAcks _ _ _ _) as [[free acks1] s1]. destruct H as (_ & Hm & _).
  specialize (IH (λ i, now (S i)) acks1). destruct (process_samples _ _ _ _) as [[free' acks'] ss'].
  constructor; [|done]. apply map_subseteq_spec. intros n o. rewrite Hm. by case_decide.
Qed.

Lemma timeout_samples_sub timeout ss : ∀ now, sub_samples (timeout_samples now timeout ss).2 ss.
Proof.
  induction ss as [|s ss IH]; intros now; cbn [timeout_samples]; [constructor|].
  pose proof (Sample_CheckTimeouts_spec (now 0%nat) timeout s) as H.
  destruct (Sample.CheckTimeouts _ _ _) as [out s1]. destruct H as (_ & _ & Hm).
  specialize (IH (λ i, now (S i))). destruct (timeout_samples _ _ _) as [out' ss'].
  constructor; [|done]. apply map_subseteq_spec. intros n o. rewrite Hm. tauto.
Qed.

(** The acknowledged ones among the packets freed, the service ones, and the rest. *)
Lemma sort_packets_parts packets acks : ∀ x,
  so_acks x ⊆ acks → Forall (λ p, GetSeqNumber p ∈ acks) (so_freePackets x) → keyed (so_queue x) →
  let x' := foldl sort_packet x packets in
  so_freeInternal x' = so_freeInternal x ++ (op_packet <$> unacked packets) ∧
  Forall (λ p, GetSeqNumber p ∈ acks) (so_freePackets x') ∧ keyed (so_queue x') ∧ so_acks x' ⊆ acks.
Proof.
  induction packets as [|o packets IH]; intros x Ha Hf Hk; cbn [foldl].
  { cbn. by rewrite app_nil_r. }
  unfold unacked in *. rewrite filter_cons. unfold sort_packet at 2 4 6 8, OutgoingPacket.NeedAck.
  destruct (op_needAck o) eqn:Eo; [case_decide as Hin|]; cbn [decide decide_rel].
  - apply (IH (mkSorting _ _ _ _ _ _)); cbn; [set_solver| |done]. apply Forall_app. split; [done|].
    constructor; [|done]. by apply Ha.
  - apply (IH (mkSorting _ _ _ _ _ _)); cbn; [done..|].
    intros n o' [[<- <-]|[_ Hn]]%lookup_insert_Some; [done|by apply Hk].
  - destruct (IH (mkSorting (so_queue x) (so_acks x) (so_freePackets x)
      (so_freeInternal x ++ [OutgoingPacket.GetPacket o]) (so_service x + 1) (so_double x))) as (E & H); [done..|].
    split; [|exact H]. rewrite E. cbn. by rewrite <- app_assoc.
Qed.

Lemma AddQueue_numbers now packets q :
  all_keyed (if_samples q) →
  NoDup (GetSeqNumber <$> ((op_packet <$> acked packets) ++ all_held (if_samples q))) →
  let '(internal, free, q') := AddQueue now packets q in
  internal = op_packet <$> unacked packets ∧
  free ++ all_held (if_samples q') ≡ₚ (op_packet <$> acked packets) ++ all_held (if_samples q) ∧
  Forall (λ p, GetSeqNumber p ∈ if_receivedAcks q) free ∧ all_keyed (if_samples q') ∧
  if_receivedAcks q' ⊆ if_receivedAcks q ∧ if_lastAckNumber q' = if_lastAckNumber q.
Proof.
  intros Hk Hnd. rewrite fmap_app, NoDup_app in Hnd. destruct Hnd as (Hnd1 & Hdis & Hnd2).
  assert (Ea : ack_numbers packets = GetSeqNumber <$> (op_packet <$> acked packets)).
  { unfold ack_numbers. by rewrite <- list_fmap_compose. }
  rewrite <- Ea in *.
  pose proof (AddQueue_body_spec now packets (if_receivedAcks q) (set_acks ∅ q)
    (unique_numbers _ Hk Hnd2) Hnd1) as H. unfold AddQueue, take_acks.
  destruct (sort_packets_parts packets (if_receivedAcks q) (mkSorting ∅ (if_receivedAcks q) [] [] 0 0))
    as (Ei & Hf & Hkx & Hax); [done..|].
  assert (Hk' : all_keyed (if_samples q ++ [Sample.make (so_queue (foldl sort_packet
    (mkSorting ∅ (if_receivedAcks q) [] [] 0 0) packets)) (so_service (foldl sort_packet
    (mkSorting ∅ (if_receivedAcks q) [] [] 0 0) packets)) (so_double (foldl sort_packet
    (mkSorting ∅ (if_receivedAcks q) [] [] 0 0) packets)) now])).
  { apply Forall_app. split; [done|]. by constructor. }
  unfold AddQueue_body in H |- *. cbn in Ei.
  set (x := foldl sort_packet _ packets) in *.
  destruct H as (Hp & _).
  { intros n Hn. unfold in_flight. rewrite in_samples_number by done. by apply Hdis. }
  split; [done|]. split; [|split; [done|]; split; [exact Hk'|]; split; [|done]].
  - apply (Permutation_app_inv_l (op_packet <$> unacked packets)). rewrite Ei in Hp.
    etransitivity; [exact Hp|]. rewrite app_assoc, <- fmap_app. apply Permutation_app; [|done].
    apply fmap_Permutation, acked_unacked.
  - cbn. set_solver.
Qed.

Lemma ProcessAcks_numbers now q :
  all_keyed (if_samples q) → NoDup (GetSeqNumber <$> all_held (if_samples q)) →
  let '(free, q') := ProcessAcks now q in
  free ++ all_held (if_samples q') ≡ₚ all_held (if_samples q) ∧
  Forall (λ p, GetSeqNumber p ≤ if_lastAckNumber q ∨ GetSeqNumber p ∈ if_receivedAcks q) free ∧
  all_keyed (if_samples q') ∧
  if_receivedAcks q' ⊆ if_receivedAcks q ∧ if_lastAckNumber q' = if_lastAckNumber q.
Proof.
  intros Hk Hnd. unfold ProcessAcks, ProcessAcks_body, take_acks. cbn [if_lastAckNumber if_samples set_acks].
  pose proof (process_samples_spec (if_lastAckNumber q) (if_samples q) now (if_receivedAcks q)
    (unique_numbers _ Hk Hnd)) as H.
  pose proof (process_samples_sub (if_lastAckNumber q) (if_samples q) now (if_receivedAcks q)) as Hsub.
  destruct (process_samples _ _ _ _) as [[free acks] ss]. destruct H as (Hp & _ & Hin & Ha & _).
  apply all_keyed_sub in Hsub; [|done]. split; [done|]. split; [|split; [done|]; split; [|done]].
  - apply Forall_forall. intros p Hpf. rewrite <- Hp, fmap_app, NoDup_app in Hnd. destruct Hnd as (_ & Hdis & _).
    specialize (Hdis (GetSeqNumber p) (list_elem_of_fmap_2 _ _ _ Hpf)).
    cbn in Hsub. rewrite <- in_samples_number, Hin, in_samples_number in Hdis by done.
    assert (GetSeqNumber p ∈ GetSeqNumber <$> all_held (if_samples q)) as Hq.
    { rewrite <- Hp, fmap_app. apply elem_of_app. left. by apply list_elem_of_fmap_2. }
    destruct (decide (GetSeqNumber p ≤ if_lastAckNumber q)) as [|Hl]; [by left|right].
    destruct (decide (GetSeqNumber p ∈ if_receivedAcks q)) as [|Hn]; [done|]. exfalso. apply Hdis. split; [done|].
    split; [lia|done].
  - cbn. intros a Hx. apply elem_of_union in Hx as [Hx|Hx]; [set_solver|]. by apply Ha.
Qed.

Lemma CheckTimeouts_numbers now q :
  all_keyed (if_samples q) →
  let '(out, q') := CheckTimeouts now q in
  out ++ all_outgoing (if_samples q') ≡ₚ all_outgoing (if_samples q) ∧ all_keyed (if_samples q') ∧
  if_receivedAcks q' = if_receivedAcks q ∧ if_lastAckNumber q' = if_lastAckNumber q.
Proof.
  intros Hk. unfold CheckTimeouts.
  pose proof (timeout_samples_spec (SpeedController.GetTimeout (if_speedController q)) (if_samples q) now) as H.
  pose proof (timeout_samples_sub (SpeedController.GetTimeout (if_speedController q)) (if_samples q) now) as Hsub.
  destruct (timeout_samples _ _ _) as [out ss]. destruct H as (Hp & _ & _).
  cbn [bury_dead set_samples if_samples set_controller if_receivedAcks if_lastAckNumber].
  rewrite dead_holds_nothing. split; [done|]. split; [|done]. apply Forall_forall.
  intros s [_ Hs]%list_elem_of_filter. apply all_keyed_sub in Hsub; [|done]. cbn in Hsub.
  unfold all_keyed in Hsub. rewrite Forall_forall in Hsub. auto.
Qed.

End Numbers.

(** ** The two threads *)

Section Concurrency.
Context {P : Type} `{!IPacket P}.
Implicit Types (q : InFlightQueue P).
Import InFlightQueue.

(** The send thread holds acknowledgements outside of the lock between the two locked
    sections of [AddQueue] and [ProcessAcks] ([t_local]); the receive thread adds
    acknowledgements at any time.  [t_added] are all the acknowledgements ever added
    and [t_done] the numbers of the packets freed by one. *)
Record Threads := mkThreads {
  t_queue : InFlightQueue P;
  t_local : option (gset Z);
  t_added : gset Z;
  t_done : Z → Prop;
}.

Inductive thread_step : Threads → Threads → Prop :=
  | ts_add_acks acks q l a d :
      thread_step (mkThreads q l a d) (mkThreads (AddAcks acks q) l (a ∪ list_to_set acks) d)
  | ts_last_ack n q l a d :
      thread_step (mkThreads q l a d) (mkThreads (SetLastAck n q) l a d)
  | ts_lock q a d :
      thread_step (mkThreads q None a d)
        (mkThreads (take_acks q).2 (Some (take_acks q).1) a d)
  | ts_add_queue now packets q acks a d internal free acks' q' :
      AddQueue_body now packets acks q = (internal, free, acks', q') →
      NoDup (ack_numbers packets) →
      (∀ n, n ∈ ack_numbers packets → ¬ in_flight q n ∧ ¬ d n) →
      thread_step (mkThreads q (Some acks) a d)
        (mkThreads q' (Some acks') a (λ n, d n ∨ n ∈ ack_numbers packets ∧ n ∈ acks))
  | ts_process now q acks a d free acks' q' :
      ProcessAcks_body now acks q = (free, acks', q') →
      thread_step (mkThreads q (Some acks) a d)
        (mkThreads q' (Some acks') a (λ n, d n ∨ in_flight q n ∧ n ∈ acks))
  | ts_unlock q acks a d :
      thread_step (mkThreads q (Some acks) a d) (mkThreads (merge_acks acks q) None a d)
  | ts_timeouts now q a d :
      thread_step (mkThreads q None a d) (mkThreads (CheckTimeouts now q).2 None a d).

Definition known (t : Threads) (n : Z) : Prop :=
  n ∈ if_receivedAcks (t_queue t) ∨ (∃ acks, t_local t = Some acks ∧ n ∈ acks) ∨
  n ≤ if_lastAckNumber (t_queue t).

Definition TInv (t : Threads) : Prop :=
  unique (if_samples (t_queue t)) ∧
  (∀ n, t_done t n → ¬ in_flight (t_queue t) n) ∧
  (∀ n, n ∈ t_added t → known t n ∨ t_done t n).

Lemma CheckTimeouts_in_flight now q n : in_flight (CheckTimeouts now q).2 n → in_flight q n.
Proof.
  unfold CheckTimeouts.
  pose proof (timeout_samples_spec (SpeedController.GetTimeout (if_speedController q)) (if_samples q) now) as H.
  destruct (timeout_samples _ _ _) as [out ss]. destruct H as (_ & Hsh & _).
  intros Hn. eapply shrunk_in; [done|]. unfold in_flight in Hn.
  cbn [snd bury_dead set_samples if_samples set_controller] in Hn.
  unfold in_samples in *. rewrite Exists_exists in *. destruct Hn as (s & [_ Hs]%list_elem_of_filter & Ht). eauto.
Qed.

Lemma thread_step_inv t t' : TInv t → thread_step t t' → TInv t'.
Proof.
  unfold TInv, known. intros (Hu & Hd & Ha) Hstep. revert Hu Hd Ha.
  destruct Hstep as [acks q l a d|n q l a d|q a d|now packets q acks a d internal free acks' q' E Hnd Hnew
    |now q acks a d free acks' q' E|q acks a d|now q a d]; cbn [t_queue t_local t_added t_done]; intros Hu Hd Ha.
  - split; [done|]. split; [done|]. cbn. intros n. rewrite !elem_of_union. intros [Hn|Hn]; [|auto].
    destruct (Ha n Hn) as [[?|[?|?]]|?]; auto.
  - split; [done|]. split; [done|]. intros m [[?|[?|?]]|?]%Ha; cbn; auto. left. right. right. lia.
  - split; [done|]. split; [done|]. intros n [[?|[(? & ? & _)|?]]|?]%Ha; cbn; eauto 6. done.
  - pose proof (AddQueue_body_spec now packets acks q Hu Hnd (λ n Hn, proj1 (Hnew n Hn))) as H.
    rewrite E in H. destruct H as (_ & Hin & Hacks & Hu').
    assert (if_receivedAcks q' = if_receivedAcks q ∧ if_lastAckNumber q' = if_lastAckNumber q) as [Er El]
      by (unfold AddQueue_body in E; by simplify_eq).
    split; [done|]. split.
    + intros n [Hn|[Hn Hn']]; rewrite Hin; [|destruct (Hnew n Hn); tauto].
      intros [?|[Hx _]]; [by apply (Hd n)|]. by destruct (Hnew n Hx).
    + intros n Hn. rewrite Er, El. destruct (Ha n Hn) as [[?|[(x & [= <-] & Hx)|?]]|?]; auto.
      destruct (decide (n ∈ ack_numbers packets)); [auto|]. left. right. left. exists acks'. split; [done|].
      by apply Hacks.
  - pose proof (process_samples_spec (if_lastAckNumber q) (if_samples q) now acks Hu) as H.
    unfold ProcessAcks_body in E. destruct (process_samples _ _ _ _) as [[free' acks''] ss]. simplify_eq.
    destruct H as (_ & Hsh & Hin & _ & Hk). split; [by eapply unique_shrunk|].
    unfold in_flight in *. cbn [if_samples set_samples]. split.
    + intros n [Hn|[Hn Hn']]; rewrite Hin; [|tauto]. intros [? _]. by apply (Hd n).
    + intros n Hn. cbn. destruct (Ha n Hn) as [[?|[(x & [= <-] & Hx)|?]]|?]; auto.
      destruct (decide (n ≤ if_lastAckNumber q)); [auto|].
      destruct (decide (n ∈ acks')) as [|Hx']; [eauto 6|]. right. right. split; [|done].
      assert (Decision (in_samples (if_samples q) n)) by (apply Exists_dec; intros; unfold tracks; apply _).
      destruct (decide (in_samples (if_samples q) n)); [done|]. exfalso. apply Hx', Hk; [done|lia|done].
  - split; [done|]. split; [done|]. intros n [[?|[(x & [= <-] & Hx)|?]]|?]%Ha; cbn; auto; left; left; set_solver.
  - pose proof (CheckTimeouts_keeps now q) as H. pose proof (CheckTimeouts_in_flight now q) as Hin.
    destruct H as (Hu' & Er & El).
    split; [auto|]. split; [|by rewrite Er, El]. intros n Hn Hn'. apply (Hd n Hn). auto.
Qed.

(** C19: no acknowledgement is lost between the threads: in every interleaving of the
    receive thread with the locked sections of the send thread, the acknowledgement of
    a packet still in flight is in the queue, in the hands of the send thread, or
    covered by the cumulative one. *)
Theorem no_ack_lost c t n :
  rtc thread_step (mkThreads (make c) None ∅ (λ _, False)) t →
  n ∈ t_added t → in_flight (t_queue t) n → known t n.
Proof.
  intros H Hn Hin. apply (rtc_invariant _ TInv) in H as (_ & Hd & Ha).
  - destruct (Ha n Hn) as [|Hdone]; [done|]. by destruct (Hd n Hdone).
  - split; [done|]. split; [done|set_solver].
  - apply thread_step_inv.
Qed.

(** [GetAllPackets] gives back every packet in flight, once. *)
Theorem GetAllPackets_returns_all q :
  let '(free, q') := GetAllPackets q in
  free ≡ₚ all_held (if_samples q) ∧ ∀ n, ¬ in_flight q' n.
Proof.
  unfold GetAllPackets. split.
  - unfold all_held, all_outgoing. induction (if_samples q) as [|s ss IH]; [done|].
    cbn. rewrite fmap_app, IH. f_equiv. unfold outgoing, OutgoingPacket.GetPacket. by rewrite list_fmap_compose.
  - intros n. unfold in_flight, in_samples. cbn. rewrite Exists_exists.
    intros (s & Hs & [o Ho]). apply list_elem_of_fmap in Hs as (s0 & -> & _). done.
Qed.

End Concurrency.

(** ** Witnesses *)

Definition idle : InFlightQueue Packet := InFlightQueue.make (SpeedController.make 0 0).

(** Packets 5 and 6 in flight, 6 acknowledged. *)
Definition in_the_air : InFlightQueue Packet :=
  InFlightQueue.AddAcks [6; 8] (InFlightQueue.AddQueue 0 [pending 5 0; pending 6 0] idle).2.

Lemma in_the_air_unique : unique (if_samples in_the_air).
Proof.
  apply AddQueue_unique.
  - done.
  - vm_compute. apply NoDup_cons; split; [|apply NoDup_singleton].
    by intros ?%list_elem_of_singleton.
  - intros n _. apply in_samples_nil.
Qed.

Lemma ProcessAcks_frees_acknowledged_witness :
  unique (if_samples in_the_air) ∧ ∀ n, in_flight (InFlightQueue.ProcessAcks (λ _, 100) in_the_air).2 n ↔
    in_flight in_the_air n ∧ 0 < n ∧ n ∉ ({[6; 8]} : gset Z).
Proof.
  split; [exact in_the_air_unique|].
  pose proof (ProcessAcks_frees_acknowledged (λ _, 100) in_the_air in_the_air_unique) as H.
  destruct (InFlightQueue.ProcessAcks (λ _, 100) in_the_air) as [free q']. destruct H as (_ & H & _).
  intros n. rewrite (H n). change (if_lastAckNumber in_the_air) with 0.
  replace (if_receivedAcks in_the_air) with ({[6; 8]} : gset Z); [reflexivity|].
  vm_compute. reflexivity.
Defined.

Lemma AddQueue_sorts_witness :
  ack_numbers [pending 8 0; pending 9 0] = [8; 9] ∧ ∀ n, in_flight (InFlightQueue.AddQueue 0 [pending 8 0; pending 9 0] in_the_air).2 n ↔
    in_flight in_the_air n ∨ n ∈ [8; 9] ∧ n ∉ if_receivedAcks in_the_air.
Proof.
  assert (E : ack_numbers [pending 8 0; pending 9 0] = [8; 9]) by reflexivity. split; [exact E|].
  pose proof (AddQueue_sorts 0 [pending 8 0; pending 9 0] in_the_air in_the_air_unique) as H.
  destruct (InFlightQueue.AddQueue 0 [pending 8 0; pending 9 0] in_the_air) as [[i f] q'].
  rewrite E in H. apply H.
  - apply NoDup_cons; split; [|apply NoDup_singleton]. by intros ?%list_elem_of_singleton.
  - intros n Hn. unfold in_flight, in_samples. rewrite Exists_exists. intros (s & Hs & [o Ho]).
    change (if_samples in_the_air) with [Sample.make (<[6 := pending 6 0]> {[5 := pending 5 0]}) 0 0 0] in Hs.
    apply list_elem_of_singleton in Hs as ->. cbn [Sample.make smp_packets] in Ho.
    apply lookup_insert_Some in Ho as [[<- _]|[_ [<- _]%lookup_singleton_Some]]; set_solver.
Defined.

Lemma no_ack_lost_witness :
  ∃ t, t_queue t = in_the_air ∧ known t 6.
Proof.
  eexists (mkThreads in_the_air None _ _). split; [reflexivity|].
  apply (no_ack_lost (SpeedController.make 0 0)).
  - eapply rtc_l; [apply ts_lock|]. eapply rtc_l.
    { apply (ts_add_queue 0 [pending 5 0; pending 6 0] _ _ _ _ [] []); [reflexivity| |].
      - vm_compute. apply NoDup_cons; split; [|apply NoDup_singleton]. by intros ?%list_elem_of_singleton.
      - intros n _. split; [apply in_samples_nil|intros []]. }
    eapply rtc_l; [apply ts_unlock|]. eapply rtc_l; [apply (ts_add_acks [6; 8])|].
    apply rtc_refl.
  - set_solver.
  - apply Exists_cons_hd. eexists. vm_compute. reflexivity.
Defined.
