(* ===== verification/LockedList.v ===== *)
(** * LockedList and SpinLock
    [Thread/include/SpinLock.hpp]: mutual exclusion of the spin lock.
    [LockedList/include/LockedList.hpp]: the list behind the lock, and the protocol
    of its condition variable: which wake-ups cannot be lost, and which can. *)
From S2P Require Import Prelude.
Local Open Scope nat_scope.

(** ** SpinLock *)

(** Where a thread is: outside, in the loop of [lock] (with its counter [i], before
    the load or between the load and the exchange), or between [lock] and [unlock]. *)
Inductive spin_pc :=
  | Outside
  | Spinning (i : nat)
  | Loaded (i : nat)
  | Inside.

Record SpinLock := mkSpinLock {
  sl_flag : bool;
  sl_threads : gmap nat spin_pc;
}.

Module SpinLock.

Definition make (threads : list nat) : SpinLock :=
  mkSpinLock false (list_to_map ((λ t, (t, Outside)) <$> threads)).

(** A failed round: [if (i == 10) { i = 0; yield(); }], then [i++]. *)
Definition next_round (i : nat) : nat := S (if i =? 10 then 0 else i).

Inductive step (s : SpinLock) : SpinLock → Prop :=
  | lock_start t : sl_threads s !! t = Some Outside →
      step s (mkSpinLock (sl_flag s) (<[t := Spinning 0]> (sl_threads s)))
  | load_taken t i : sl_threads s !! t = Some (Spinning i) → sl_flag s = true →
      step s (mkSpinLock true (<[t := Spinning (next_round i)]> (sl_threads s)))
  | load_free t i : sl_threads s !! t = Some (Spinning i) → sl_flag s = false →
      step s (mkSpinLock false (<[t := Loaded i]> (sl_threads s)))
  | exchange_taken t i : sl_threads s !! t = Some (Loaded i) → sl_flag s = true →
      step s (mkSpinLock true (<[t := Spinning (next_round i)]> (sl_threads s)))
  | exchange_free t i : sl_threads s !! t = Some (Loaded i) → sl_flag s = false →
      step s (mkSpinLock true (<[t := Inside]> (sl_threads s)))
  | unlock t : sl_threads s !! t = Some Inside →
      step s (mkSpinLock false (<[t := Outside]> (sl_threads s))).

(** The lock is held by at most one thread, and only while the flag is set. *)
Definition Inv (s : SpinLock) : Prop :=
  (∀ t, sl_threads s !! t = Some Inside → sl_flag s = true) ∧
  (∀ t u, sl_threads s !! t = Some Inside → sl_threads s !! u = Some Inside → t = u).

Lemma lock_step_inv s s' : Inv s → step s s' → Inv s'.
Proof.
  intros [H1 H2] Hs. unfold Inv. destruct Hs as [t E|t i E F|t i E F|t i E F|t i E F|t E]; cbn [sl_flag sl_threads].
  all: split; [intros u Hu|intros u v Hu Hv].
  all: repeat match goal with H : <[_ := _]> _ !! _ = Some _ |- _ => apply lookup_insert_Some in H as [[<- ?]|[? ?]] end.
  all: try done; try (by eauto).
  all: repeat match goal with
    | H : sl_threads _ !! ?u = Some Inside, H' : sl_threads _ !! ?v = Some Inside |- _ =>
        assert_fails (unify u v); pose proof (H2 _ _ H H'); clear H
    | H : sl_threads _ !! _ = Some Inside |- _ => apply H1 in H
    end; congruence.
Qed.

(** C33: mutual exclusion: whatever the threads do and however the loads, exchanges and
    stores interleave, two threads are never both between [lock] and [unlock]. *)
Theorem mutual_exclusion threads s t u :
  rtc step (make threads) s →
  sl_threads s !! t = Some Inside → sl_threads s !! u = Some Inside → t = u.
Proof.
  intros H. apply (rtc_invariant step Inv) in H as [_ H2]; [by apply H2| |apply lock_step_inv].
  assert (∀ v, sl_threads (make threads) !! v ≠ Some Inside) as Hn.
  { intros v Hv%elem_of_list_to_map_2. apply list_elem_of_fmap in Hv as (? & [= _] & _). }
  split; [intros v Hv|intros v w Hv]; by apply Hn in Hv.
Qed.

(** the lock is never stuck: as long as nobody is inside, a thread that wants the
    lock can take it in at most two of its own steps. *)
Theorem free_lock_can_be_taken s t i :
  sl_flag s = false → sl_threads s !! t = Some (Spinning i) →
  ∃ s' s'', step s s' ∧ step s' s'' ∧ sl_threads s'' !! t = Some Inside ∧
    ∀ u, u ≠ t → sl_threads s'' !! u = sl_threads s !! u.
Proof.
  intros F E. eexists _, _. split; [by eapply load_free|]. split.
  { apply (exchange_free _ t i); [by apply lookup_insert_eq|done]. }
  cbn. split; [apply lookup_insert_eq|]. intros u Hu. by rewrite !lookup_insert_ne.
Qed.

(** The loop counter stays between 0 and 10. *)
Lemma next_round_bound i : i ≤ 10 → next_round i ≤ 10.
Proof. unfold next_round. intros. case_match eqn:E; [lia|]. apply Nat.eqb_neq in E. lia. Qed.

End SpinLock.

(** ** LockedList *)

(** The list itself; every operation runs under the lock, so it is one step. *)
Module LockedList.
Section Operations.
Context {T : Type}.
Implicit Types (l : list T).

Definition LockedSplice (that l : list T) : list T :=
  match that with [] => l | _ => l ++ that end.

(** The list, and what is left in the argument. *)
Definition LockedSwap (that l : list T) : list T * list T := (that, l).

Definition LockedTryGenerate (size : nat) l : list T * list T :=
  if size <? length l then (take size l, drop size l) else (l, []).

Definition LockedPushBack (element : T) l : list T := l ++ [element].

Definition LockedGetBack l : res (T * list T) :=
  match last l with Some x => Ret (x, take (pred (length l)) l) | None => Err Undefined end.

Definition LockedEmpty l : bool := match l with [] => true | _ => false end.
Definition LockedSize l : nat := length l.

(** What a wait does when the state does not change any more: return, or block. *)
Inductive wait_outcome := Returns (b : bool) | Blocks.

(** [condition_variable_any::wait(lock, stop, predicate)]. *)
Definition cv_wait (stop predicate : bool) : wait_outcome :=
  if predicate then Returns true else if stop then Returns false else Blocks.

Definition Wait (stop : bool) l : wait_outcome := cv_wait stop (negb (LockedEmpty l)).
Definition WaitPredicate (stop predicate : bool) l : wait_outcome :=
  cv_wait stop (negb (LockedEmpty l) || predicate).
Definition WaitEmpty (stop : bool) l : wait_outcome := cv_wait stop (LockedEmpty l).

(** [wait_for]: after 50 ms at the latest it returns the predicate. *)
Definition WaitFor l : bool := negb (LockedEmpty l).
Definition WaitForPredicate (predicate : bool) l : bool := predicate.

End Operations.
End LockedList.

(** ** The condition variable *)

(** A consumer in [Wait(stop, [] { return IsClosed(); })], a producer in
    [LockedSplice] followed by [NotifyAll], and [Connection::Close]. *)
Inductive consumer_pc := CStart | CLocked | CChecked | CAsleep | CWoken | CDone.
Inductive producer_pc := PStart | PLocked | PUnlocked | PNotified.
Inductive closer_pc := KStart | KStored | KNotified.

Record Monitor := mkMonitor {
  mo_locked : bool;
  mo_data : bool;      (* the list is not empty *)
  mo_closed : bool;
  mo_consumer : consumer_pc;
  mo_producer : producer_pc;
  mo_closer : closer_pc;
}.

Module Monitor.

(** [notify_all] wakes a consumer that sleeps, and is lost on any other. *)
Definition wake (c : consumer_pc) : consumer_pc :=
  match c with CAsleep => CWoken | c => c end.

Inductive step : Monitor → Monitor → Prop :=
  (* the consumer: lock, evaluate the predicate, go to sleep atomically, lock again *)
  | c_lock d k p q : step (mkMonitor false d k CStart p q) (mkMonitor true d k CLocked p q)
  | c_true d k p q : d || k = true →
      step (mkMonitor true d k CLocked p q) (mkMonitor false d k CDone p q)
  | c_false d k p q : d || k = false →
      step (mkMonitor true d k CLocked p q) (mkMonitor true d k CChecked p q)
  | c_sleep d k p q : step (mkMonitor true d k CChecked p q) (mkMonitor false d k CAsleep p q)
  | c_relock d k p q : step (mkMonitor false d k CWoken p q) (mkMonitor true d k CLocked p q)
  (* the producer: splice under the lock, unlock, notify *)
  | p_lock d k c q : step (mkMonitor false d k c PStart q) (mkMonitor true d k c PLocked q)
  | p_splice d k c q : step (mkMonitor true d k c PLocked q) (mkMonitor false true k c PUnlocked q)
  | p_notify l d k c q : step (mkMonitor l d k c PUnlocked q) (mkMonitor l d k (wake c) PNotified q)
  (* Connection::Close: store, notify, without the lock *)
  | k_store l d k c p : step (mkMonitor l d k c p KStart) (mkMonitor l d true c p KStored)
  | k_notify l d k c p : step (mkMonitor l d k c p KStored) (mkMonitor l d k (wake c) p KNotified).

Definition start : Monitor := mkMonitor false false false CStart PStart KStart.

(** A sleeping consumer, or one about to sleep, has not yet been notified of data. *)
Definition Inv (m : Monitor) : Prop :=
  (mo_consumer m = CChecked → mo_data m = false) ∧
  (mo_consumer m = CChecked ∨ mo_consumer m = CLocked → mo_locked m = true ∧ mo_producer m ≠ PLocked) ∧
  (mo_producer m = PLocked → mo_locked m = true) ∧
  (mo_consumer m = CAsleep → mo_producer m ≠ PNotified) ∧
  (mo_data m = false → mo_producer m = PStart ∨ mo_producer m = PLocked) ∧
  (mo_data m = true → mo_producer m = PUnlocked ∨ mo_producer m = PNotified) ∧
  (mo_locked m = true → mo_consumer m = CLocked ∨ mo_consumer m = CChecked ∨ mo_producer m = PLocked).

Lemma monitor_step_inv m m' : Inv m → step m m' → Inv m'.
Proof.
  unfold Inv. intros Hi Hs. revert Hi.
  destruct Hs; cbn [mo_locked mo_data mo_closed mo_consumer mo_producer mo_closer];
    try (destruct d, k; try discriminate); try (destruct c); cbn [wake]; naive_solver.
Qed.

(** How many steps each thread has left; a notification can cost the consumer three. *)
Definition consumer_rank (c : consumer_pc) : nat :=
  match c with CStart => 4 | CWoken => 4 | CLocked => 3 | CChecked => 2 | CAsleep => 1 | CDone => 0 end.
Definition producer_rank (p : producer_pc) : nat :=
  match p with PStart => 3 | PLocked => 2 | PUnlocked => 1 | PNotified => 0 end.
Definition closer_rank (q : closer_pc) : nat :=
  match q with KStart => 2 | KStored => 1 | KNotified => 0 end.
Definition rank (m : Monitor) : nat :=
  consumer_rank (mo_consumer m) + 4 * producer_rank (mo_producer m) + 4 * closer_rank (mo_closer m).

Lemma step_rank m m' : step m m' → (rank m' < rank m)%nat.
Proof. intros []; unfold rank; cbn; try destruct c; cbn; lia. Qed.

Lemma nsteps_rank n m m' : nsteps step n m m' → (n + rank m' ≤ rank m)%nat.
Proof. induction 1 as [|n m1 m2 m3 H _ IH]; [lia|]. apply step_rank in H. lia. Qed.

(** A state in which no thread can go on. *)
Definition stuck (m : Monitor) : Prop := ∀ m', ¬ step m m'.

Lemma stuck_done m : Inv m → stuck m → mo_consumer m = CDone.
Proof.
  intros (I1 & I2 & I3 & I4 & I5 & I6 & I7) Hs. destruct m as [l d k c p q]. cbn in *. destruct c; [exfalso..|done].
  - destruct l.
    + destruct I7 as [?|[?| ->]]; [done..|]. by eapply Hs, p_splice.
    + eapply Hs, c_lock.
  - destruct (I2 ltac:(by right)) as [-> _]. destruct (d || k) eqn:E; eapply Hs; [by apply c_true|by apply c_false].
  - destruct (I2 ltac:(by left)) as [-> _]. eapply Hs, c_sleep.
  - destruct l.
    + destruct I7 as [?|[?| ->]]; [done..|]. by eapply Hs, p_splice.
    + destruct d.
      * destruct I6 as [-> | ->]; [done|by eapply Hs, p_notify|by apply I4].
      * destruct I5 as [-> | ->]; [done|eapply Hs, p_lock|]. by specialize (I3 eq_refl).
  - destruct l.
    + destruct I7 as [?|[?| ->]]; [done..|]. by eapply Hs, p_splice.
    + eapply Hs, c_relock.
Qed.

(** C34: no data is missed, whatever the interleaving of a consumer, a producer and a
    closer: when the list is not empty and the consumer sleeps, the producer has yet to
    notify, and its notification wakes the consumer; once it has notified, the consumer is
    not asleep; every run ends, and where no thread can go on the wait of the consumer has
    returned. *)
Theorem data_wakeup_not_lost m :
  rtc step start m →
  (mo_data m = true → mo_consumer m = CAsleep →
     mo_producer m = PUnlocked ∧
     ∀ m', step m m' → mo_producer m' = PNotified → mo_consumer m' = CWoken) ∧
  (mo_producer m = PNotified → mo_consumer m ≠ CAsleep) ∧
  (∀ n m', nsteps step n m m' → (n ≤ rank m)%nat) ∧
  (stuck m → mo_consumer m = CDone).
Proof.
  intros H. apply (rtc_invariant step Inv) in H.
  - pose proof H as (I1 & I2 & I3 & I4 & I5 & I6 & I7). split; [|split; [|split]].
    + intros Hd Hc. assert (Hp : mo_producer m = PUnlocked) by (destruct I6; [done..|by specialize (I4 Hc)]).
      split; [done|]. intros m' Hs. destruct Hs; cbn in *; simplify_eq; try done.
    + intros Hp Hc. by apply I4.
    + intros n m' Hn. apply nsteps_rank in Hn. lia.
    + by apply stuck_done.
  - unfold Inv; cbn; naive_solver.
  - apply monitor_step_inv.
Qed.

(** closing can be missed: [Close] stores its flag and notifies without taking
    the list's lock, so a consumer that has just found the list empty and the
    connection open goes to sleep after the notification and stays asleep until data
    arrives. *)
Theorem close_wakeup_can_be_lost :
  ∃ m, rtc step start m ∧ mo_closed m = true ∧ mo_closer m = KNotified ∧ mo_consumer m = CAsleep ∧
    ∀ m', step m m' → mo_producer m' = PLocked.
Proof.
  exists (mkMonitor false false true CAsleep PStart KNotified). split.
  { eapply rtc_l; [apply c_lock|]. eapply rtc_l; [by apply c_false|].
    eapply rtc_l; [apply k_store|]. eapply rtc_l; [apply k_notify|].
    eapply rtc_l; [apply c_sleep|]. apply rtc_refl. }
  split; [done|]. split; [done|]. split; [done|].
  intros m' Hs. by inversion Hs.
Qed.

End Monitor.

(** ** Witnesses *)

Definition two_threads : SpinLock :=
  mkSpinLock true (<[0 := Inside]> (<[0 := Loaded 0]> (<[1 := Spinning 0]> (<[0 := Spinning 0]>
    (sl_threads (SpinLock.make [0; 1])))))).

Lemma mutual_exclusion_witness :
  sl_threads two_threads !! 0 = Some Inside ∧ ∀ u, sl_threads two_threads !! u = Some Inside → 0 = u.
Proof.
  split; [reflexivity|]. intros u. apply (SpinLock.mutual_exclusion [0; 1] two_threads 0 u).
  - eapply rtc_l; [apply (SpinLock.lock_start _ 0); reflexivity|].
    eapply rtc_l; [apply (SpinLock.lock_start _ 1); reflexivity|].
    eapply rtc_l; [apply (SpinLock.load_free _ 0 0); reflexivity|].
    eapply rtc_l; [apply (SpinLock.exchange_free _ 0 0); reflexivity|].
    apply rtc_refl.
  - reflexivity.
Defined.

Lemma free_lock_can_be_taken_witness :
  ∃ s' s'', SpinLock.step (mkSpinLock false {[3 := Spinning 2]}) s' ∧ SpinLock.step s' s'' ∧
    sl_threads s'' !! 3 = Some Inside.
Proof.
  destruct (SpinLock.free_lock_can_be_taken (mkSpinLock false {[3 := Spinning 2]}) 3 2)
    as (s' & s'' & H1 & H2 & H3 & _); [reflexivity|reflexivity|].
  exists s', s''. split; [exact H1|split; [exact H2|exact H3]].
Defined.

Lemma data_wakeup_not_lost_witness :
  mo_consumer (mkMonitor false true false CWoken PNotified KStart) ≠ CAsleep.
Proof.
  apply (Monitor.data_wakeup_not_lost (mkMonitor false true false CWoken PNotified KStart)); [|reflexivity].
  eapply rtc_l; [apply Monitor.c_lock|]. eapply rtc_l; [apply Monitor.c_false; reflexivity|].
  eapply rtc_l; [apply Monitor.c_sleep|]. eapply rtc_l; [apply Monitor.p_lock|].
  eapply rtc_l; [apply Monitor.p_splice|]. eapply rtc_l; [apply Monitor.p_notify|]. apply rtc_refl.
Defined.
