(* ===== verification/Memory.v ===== *)
(** * Memory: the pools of freed blocks
    [Memory/src/MemoryLogger.cpp], [ThreadSafeAllocator.cpp], [LocalPoolAllocator.cpp],
    [PoolAllocator.cpp] and their headers.

    A [PoolAllocator] is a [std::pmr::memory_resource] that keeps freed blocks: each
    thread has a pool of its own, and all share one under a spin lock.  What it takes
    blocks from is another [memory_resource], here the class [MemoryResource]. *)
From S2P Require Import Prelude.
Local Open Scope Z_scope.

(** The key of a pool: size and alignment of a block. *)
Abbreviation block_key := (Z * Z)%type.

(** ** std::pmr::memory_resource *)

(** [allocated] is the specification's view: the blocks that were allocated and not
    deallocated, under their addresses. *)
Class MemoryResource (R : Type) := {
  allocate : Z → Z → R → res (Z * R);
  deallocate : Z → Z → Z → R → res R;
  allocated : R → gmap Z block_key;
  resource_ok : R → Prop;
}.

(** Two blocks share no byte. *)
Definition apart (p : Z) (k : block_key) (q : Z) (k' : block_key) : Prop :=
  p ≠ q ∧ (p + k.1 ≤ q ∨ q + k'.1 ≤ p).

(** Blocks that are aligned and pairwise apart. *)
Definition laid_out (m : gmap Z block_key) : Prop :=
  (∀ p k, m !! p = Some k → (k.2 | p)) ∧
  ∀ p k q k', m !! p = Some k → m !! q = Some k' → p ≠ q → apart p k q k'.

(** What the standard says of a memory resource: a new block is apart from all others and
    aligned; a block is given back with the size and alignment it was asked for. *)
Class MemoryResourceLaws (R : Type) `{MemoryResource R} := {
  allocated_laid_out (r : R) : resource_ok r → laid_out (allocated r);
  allocate_law size alignment (r : R) p r' :
    resource_ok r → allocate size alignment r = Ret (p, r') →
    allocated r !! p = None ∧ allocated r' = <[p := (size, alignment)]> (allocated r) ∧ resource_ok r';
  deallocate_law p size alignment (r : R) :
    resource_ok r → allocated r !! p = Some (size, alignment) →
    ∃ r', deallocate p size alignment r = Ret r' ∧ allocated r' = delete p (allocated r) ∧ resource_ok r';
}.

(** ** MemoryLogger *)

Module MemoryLogger.
Section Operations.
Context {R : Type} `{!MemoryResource R}.

Record MemoryLogger := mkMemoryLogger {
  ml_resource : R;
  ml_allocatedSize : Z;
}.

Definition make (resource : R) : MemoryLogger := mkMemoryLogger resource 0.
Definition GetAllocatedSize (m : MemoryLogger) : Z := ml_allocatedSize m.

Definition do_allocate (size alignment : Z) (m : MemoryLogger) : res (Z * MemoryLogger) :=
  let allocatedSize := u64 (ml_allocatedSize m + size) in
  '(p, r) ← allocate size alignment (ml_resource m);
  Ret (p, mkMemoryLogger r allocatedSize).

Definition do_deallocate (memory bytes alignment : Z) (m : MemoryLogger) : res MemoryLogger :=
  let allocatedSize := u64 (ml_allocatedSize m - bytes) in
  r ← deallocate memory bytes alignment (ml_resource m);
  Ret (mkMemoryLogger r allocatedSize).

End Operations.
Arguments MemoryLogger R : clear implicits.
End MemoryLogger.

(** ** The pools

    [std::unordered_multimap<std::pair<size_t, size_t>, void*>].  Which of the nodes
    with equal keys [extract] takes is not specified; here it is the first one. *)
Abbreviation AllocationPool := (list (block_key * Z)).

Definition MaxFreeSize : nat := 1024.

Fixpoint extract (k : block_key) (pool : AllocationPool) : option (Z * AllocationPool) :=
  match pool with
  | [] => None
  | (k', p) :: pool =>
      if bool_decide (k = k') then Some (p, pool)
      else '(q, pool) ← extract k pool; Some (q, (k', p) :: pool)
  end.

(** At most [n] nodes with the key: what is taken and what is left. *)
Fixpoint take_nodes (n : nat) (k : block_key) (pool : AllocationPool) : list Z * AllocationPool :=
  match n with
  | O => ([], pool)
  | S n =>
      match extract k pool with
      | None => ([], pool)
      | Some (p, pool) => let '(nodes, pool) := take_nodes n k pool in (p :: nodes, pool)
      end
  end.

Definition insert_nodes (k : block_key) (nodes : list Z) (pool : AllocationPool) : AllocationPool :=
  foldl (λ pool p, (k, p) :: pool) pool nodes.

Module ThreadSafeAllocator.
Section Operations.
Context {R : Type} `{!MemoryResource R}.

Record ThreadSafeAllocator := mkThreadSafeAllocator {
  tsa_pool : AllocationPool;
  tsa_resource : R;
}.
Implicit Types (g : ThreadSafeAllocator).

Definition make (resource : R) : ThreadSafeAllocator := mkThreadSafeAllocator [] resource.

Definition Allocate (k : block_key) g : res (Z * ThreadSafeAllocator) :=
  '(p, r) ← allocate k.1 k.2 (tsa_resource g);
  Ret (p, mkThreadSafeAllocator (tsa_pool g) r).

Definition Allocate2 (k : block_key) g : list Z * ThreadSafeAllocator :=
  let '(nodes, pool) := take_nodes MaxFreeSize k (tsa_pool g) in
  (nodes, mkThreadSafeAllocator pool (tsa_resource g)).

(** The [Deallocate] of a pool and that of an array of nodes. *)
Definition Deallocate_pool (pool : AllocationPool) g : ThreadSafeAllocator :=
  match pool with
  | [] => g
  | _ => mkThreadSafeAllocator (tsa_pool g ++ pool) (tsa_resource g)
  end.
Definition Deallocate_nodes (k : block_key) (nodes : list Z) g : ThreadSafeAllocator :=
  mkThreadSafeAllocator (insert_nodes k nodes (tsa_pool g)) (tsa_resource g).

(** [~ThreadSafeAllocator]. *)
Definition destroy g : res R :=
  foldl (λ m '(k, p), r ← m; deallocate p k.1 k.2 r) (Ret (tsa_resource g)) (tsa_pool g).

End Operations.
Arguments ThreadSafeAllocator R : clear implicits.
End ThreadSafeAllocator.
Export ThreadSafeAllocator (ThreadSafeAllocator, mkThreadSafeAllocator, tsa_pool, tsa_resource).

Module LocalPoolAllocator.
Section Operations.
Context {R : Type} `{!MemoryResource R}.

Record LocalPoolAllocator := mkLocalPoolAllocator {
  lp_pool : AllocationPool;
  lp_backetSize : gmap block_key Z;
}.
Implicit Types (l : LocalPoolAllocator) (g : ThreadSafeAllocator R) (k : block_key).

Definition make : LocalPoolAllocator := mkLocalPoolAllocator [] ∅.

(** [_backetSize[k]]. *)
Definition bucket k l : Z := default 0 (lp_backetSize l !! k).

(** [Allocate] up to where it asks the resource: a block of the own pool, or one of the
    shared pool's, of which up to [MaxFreeSize] are taken over.  [free] is the node
    inserted last. *)
Definition Allocate_cached k l g : option Z * LocalPoolAllocator * ThreadSafeAllocator R :=
  match extract k (lp_pool l) with
  | Some (p, pool) =>
      (Some p, mkLocalPoolAllocator pool (<[k := u64 (bucket k l - 1)]> (lp_backetSize l)), g)
  | None =>
      let '(nodes, g) := ThreadSafeAllocator.Allocate2 k g in
      let pool := insert_nodes k nodes (lp_pool l) in
      let backetSize := u64 (Z.of_nat (length nodes)) in
      match extract k pool with
      | Some (p, pool) =>
          (Some p, mkLocalPoolAllocator pool (<[k := u64 (backetSize - 1)]> (lp_backetSize l)), g)
      | None => (None, mkLocalPoolAllocator pool (<[k := backetSize]> (lp_backetSize l)), g)
      end
  end.

Definition Allocate k l g : res (Z * LocalPoolAllocator * ThreadSafeAllocator R) :=
  match Allocate_cached k l g with
  | (Some p, l, g) => Ret (p, l, g)
  | (None, l, g) => '(p, g) ← ThreadSafeAllocator.Allocate k g; Ret (p, l, g)
  end.

(** The nodes a full bucket gives to the shared pool, if it is full. *)
Definition Deallocate_spill k l : option (list Z) * LocalPoolAllocator :=
  if 2 * Z.of_nat MaxFreeSize <? bucket k l then
    let '(nodes, pool) := take_nodes MaxFreeSize k (lp_pool l) in
    (Some nodes, mkLocalPoolAllocator pool
      (<[k := u64 (bucket k l - Z.of_nat (length nodes))]> (lp_backetSize l)))
  else (None, l).

Definition Deallocate_insert k p l : LocalPoolAllocator :=
  mkLocalPoolAllocator ((k, p) :: lp_pool l) (<[k := u64 (bucket k l + 1)]> (lp_backetSize l)).

Definition Deallocate k p l g : LocalPoolAllocator * ThreadSafeAllocator R :=
  let '(nodes, l) := Deallocate_spill k l in
  (Deallocate_insert k p l,
   match nodes with Some nodes => ThreadSafeAllocator.Deallocate_nodes k nodes g | None => g end).

(** [~LocalPoolAllocator]. *)
Definition destroy l g : ThreadSafeAllocator R := ThreadSafeAllocator.Deallocate_pool (lp_pool l) g.

End Operations.
End LocalPoolAllocator.
Export LocalPoolAllocator (LocalPoolAllocator, mkLocalPoolAllocator, lp_pool, lp_backetSize).

(** ** PoolAllocator and its threads *)

Module PoolAllocator.
Section Operations.
Context {R : Type} `{!MemoryResource R}.

(** Where a thread is: between two critical sections of a call, or in none. *)
Inductive call :=
  | Idle
  | AtResource (k : block_key)
  | AtSpill (k : block_key) (nodes : list Z) (p : Z).

(** The [thread_local] pool of a thread, which holds a [shared_ptr] to the shared pool of
    the [PoolAllocator] it was made by. *)
Record Thread := mkThread {
  th_owner : nat;
  th_local : LocalPoolAllocator;
  th_call : call;
}.

(** All [PoolAllocator]s of a program: which are alive, their shared pools, the threads,
    and what the users hold.  The entry of a shared pool that is destroyed stays, empty,
    with its resource. *)
Record System := mkSystem {
  sy_alive : list nat;
  sy_globals : gmap nat (ThreadSafeAllocator R);
  sy_threads : gmap nat Thread;
  sy_users : gmap Z block_key;
}.
Implicit Types (s : System) (t pool : nat).

Definition make pool (resource : R) : System :=
  mkSystem [pool] {[pool := ThreadSafeAllocator.make resource]} ∅ ∅.

Definition global_at pool s : res (ThreadSafeAllocator R) :=
  match sy_globals s !! pool with Some g => Ret g | None => Err Undefined end.

(** [thread_local LocalPoolAllocator threadResources(_globalAllocator)]: made once in a
    thread, by the first [PoolAllocator] that is used there. *)
Definition GetThreadPool pool t s : Thread :=
  default (mkThread pool LocalPoolAllocator.make Idle) (sy_threads s !! t).

Definition update t (th : Thread) (g : ThreadSafeAllocator R) (users : gmap Z block_key) s : System :=
  mkSystem (sy_alive s) (<[th_owner th := g]> (sy_globals s)) (<[t := th]> (sy_threads s)) users.

(** [do_allocate]: returns a cached block, or goes on to the resource. *)
Definition do_allocate pool t (k : block_key) s : res (option Z * System) :=
  let th := GetThreadPool pool t s in
  g ← global_at (th_owner th) s;
  match LocalPoolAllocator.Allocate_cached k (th_local th) g with
  | (Some p, l, g) =>
      Ret (Some p, update t (mkThread (th_owner th) l Idle) g (<[p := k]> (sy_users s)) s)
  | (None, l, g) => Ret (None, update t (mkThread (th_owner th) l (AtResource k)) g (sy_users s) s)
  end.

Definition do_allocate_resource t s : res (Z * block_key * System) :=
  match sy_threads s !! t with
  | Some (mkThread owner l (AtResource k)) =>
      g ← global_at owner s;
      '(p, g) ← ThreadSafeAllocator.Allocate k g;
      Ret (p, k, update t (mkThread owner l Idle) g (<[p := k]> (sy_users s)) s)
  | _ => Err Undefined
  end.

(** [do_deallocate]: puts the block into the own pool, after full buckets have been given
    to the shared pool under its lock. *)
Definition do_deallocate pool t (p : Z) (k : block_key) s : res System :=
  let th := GetThreadPool pool t s in
  g ← global_at (th_owner th) s;
  let users := delete p (sy_users s) in
  match LocalPoolAllocator.Deallocate_spill k (th_local th) with
  | (Some nodes, l) => Ret (update t (mkThread (th_owner th) l (AtSpill k nodes p)) g users s)
  | (None, l) =>
      Ret (update t (mkThread (th_owner th) (LocalPoolAllocator.Deallocate_insert k p l) Idle) g users s)
  end.

Definition do_deallocate_spill t s : res System :=
  match sy_threads s !! t with
  | Some (mkThread owner l (AtSpill k nodes p)) =>
      g ← global_at owner s;
      Ret (update t (mkThread owner (LocalPoolAllocator.Deallocate_insert k p l) Idle)
        (ThreadSafeAllocator.Deallocate_nodes k nodes g) (sy_users s) s)
  | _ => Err Undefined
  end.

(** A [shared_ptr] to the shared pool goes; without another one it is destroyed. *)
Definition drop_global pool s : res System :=
  if bool_decide (pool ∈ sy_alive s) || existsb (λ '(_, th), (th_owner th =? pool)%nat) (map_to_list (sy_threads s))
  then Ret s
  else
    g ← global_at pool s;
    r ← ThreadSafeAllocator.destroy g;
    Ret (mkSystem (sy_alive s) (<[pool := mkThreadSafeAllocator [] r]> (sy_globals s)) (sy_threads s) (sy_users s)).

(** A thread ends: its pool is destroyed. *)
Definition exit_thread t s : res System :=
  match sy_threads s !! t with
  | None => Ret s
  | Some th =>
      g ← global_at (th_owner th) s;
      drop_global (th_owner th) (mkSystem (sy_alive s)
        (<[th_owner th := LocalPoolAllocator.destroy (th_local th) g]> (sy_globals s))
        (delete t (sy_threads s)) (sy_users s))
  end.

(** [~PoolAllocator]. *)
Definition destroy pool s : res System :=
  drop_global pool (mkSystem (filter (λ i, i ≠ pool) (sy_alive s)) (sy_globals s) (sy_threads s) (sy_users s)).

(** *** What the threads do *)

Inductive event := Returned (p : Z) (k : block_key) | Freed (p : Z) (k : block_key) | Silent.

Definition idle t s : Prop := match sy_threads s !! t with Some th => th_call th = Idle | None => True end.

(** Any thread does its next critical section.  A user gives back what it holds. *)
Inductive step : event → relation System :=
  | step_allocate pool t k s o s' :
      pool ∈ sy_alive s → idle t s → do_allocate pool t k s = Ret (o, s') →
      step (match o with Some p => Returned p k | None => Silent end) s s'
  | step_resource t s p k s' : do_allocate_resource t s = Ret (p, k, s') → step (Returned p k) s s'
  | step_bad_alloc t s owner l k g f :
      sy_threads s !! t = Some (mkThread owner l (AtResource k)) → global_at owner s = Ret g →
      ThreadSafeAllocator.Allocate k g = Err f →
      step Silent s (update t (mkThread owner l Idle) g (sy_users s) s)
  | step_deallocate pool t p k s s' :
      pool ∈ sy_alive s → idle t s → sy_users s !! p = Some k → do_deallocate pool t p k s = Ret s' →
      step (Freed p k) s s'
  | step_spill t s s' : do_deallocate_spill t s = Ret s' → step Silent s s'
  | step_exit t s s' : idle t s → exit_thread t s = Ret s' → step Silent s s'
  | step_destroy pool s s' : destroy pool s = Ret s' → step Silent s s'.

End Operations.
Arguments System R : clear implicits.
End PoolAllocator.

(** ** Correctness of the logger *)

Section Logger.
Context {R : Type} `{!MemoryResource R, !MemoryResourceLaws R}.
Import MemoryLogger.

(** The bytes of all allocated blocks. *)
Definition bytes (m : gmap Z block_key) : Z := foldr Z.add 0 ((λ kv, kv.2.1) <$> map_to_list m).

Lemma bytes_perm (l l' : list Z) : l ≡ₚ l' → foldr Z.add 0 l = foldr Z.add 0 l'.
Proof. induction 1; cbn; lia. Qed.

Lemma bytes_insert m p k : m !! p = None → bytes (<[p := k]> m) = k.1 + bytes m.
Proof.
  intros H. unfold bytes. rewrite (bytes_perm _ ((λ kv, kv.2.1) <$> ((p, k) :: map_to_list m))); [done|].
  by rewrite map_to_list_insert.
Qed.

Lemma bytes_delete m p k : m !! p = Some k → bytes (delete p m) = bytes m - k.1.
Proof.
  intros H. rewrite <- (insert_delete_id m p k H) at 2.
  rewrite bytes_insert by apply lookup_delete_eq. lia.
Qed.

(** A logger whose counter is right. *)
Definition counted (m : MemoryLogger R) : Prop :=
  resource_ok (ml_resource m) ∧ GetAllocatedSize m = u64 (bytes (allocated (ml_resource m))).

#[export] Instance MemoryLogger_resource : MemoryResource (MemoryLogger R) := {
  allocate := do_allocate;
  deallocate := do_deallocate;
  allocated m := allocated (ml_resource m);
  resource_ok := counted;
}.

(** A logger is as good a memory resource as the one below it; its laws keep
    [counted], so the counter is right after any calls. *)
#[export] Instance MemoryLogger_laws : MemoryResourceLaws (MemoryLogger R).
Proof.
  split.
  - intros m [H _]. exact (allocated_laid_out _ H).
  - intros size alignment m p m' [H Hc] Ha. cbn in Ha. unfold do_allocate in Ha.
    destruct (allocate size alignment (ml_resource m)) as [[q r]|] eqn:E; inv_res. cbn.
    destruct (allocate_law _ _ _ _ _ H E) as (Hn & He & Hr).
    split; [done|]. split; [done|]. split; [done|]. unfold GetAllocatedSize in *. cbn.
    rewrite Hc, He, bytes_insert by done. cbn. rewrite wrap_add_l. f_equal. lia.
  - intros p size alignment m [H Hc] Hp. cbn in Hp |- *. unfold do_deallocate.
    destruct (deallocate_law _ _ _ _ H Hp) as (r & -> & He & Hr). cbn.
    eexists. split; [done|]. cbn. split; [done|]. split; [done|]. unfold GetAllocatedSize in *. cbn.
    rewrite Hc, He, (bytes_delete _ _ _ Hp). cbn. by rewrite wrap_sub_l.
Qed.

End Logger.

(** ** Correctness of the pools *)

Section Pools.
Context {R : Type} `{!MemoryResource R, !MemoryResourceLaws R}.
Implicit Types (pool : AllocationPool) (k : block_key) (g : ThreadSafeAllocator R) (l : LocalPoolAllocator).

Definition with_key k (nodes : list Z) : AllocationPool := pair k <$> nodes.

Lemma with_key_cons k p nodes : with_key k (p :: nodes) = (k, p) :: with_key k nodes.
Proof. done. Qed.

Lemma extract_perm k pool p pool' : extract k pool = Some (p, pool') → pool ≡ₚ (k, p) :: pool'.
Proof.
  revert pool'. induction pool as [|[k' q] pool IH]; intros pool' H; cbn in H; [done|].
  case_bool_decide; simplify_eq; [done|].
  destruct (extract k pool) as [[q' rest]|]; cbn in H; simplify_eq.
  rewrite (IH _ eq_refl). apply perm_swap.
Qed.

(** How many blocks of a key a pool has. *)
Definition count k pool : nat := length (filter (λ x, x.1 = k) pool).
#[local] Arguments count : simpl never.
#[local] Arguments with_key : simpl never.
#[local] Arguments MaxFreeSize : simpl never.

#[export] Instance count_proper k : Proper ((≡ₚ) ==> (=)) (count k).
Proof. intros pool pool' H. unfold count. by rewrite H. Qed.

Lemma count_cons k k' p pool : count k ((k', p) :: pool) = ((if bool_decide (k' = k) then 1 else 0) + count k pool)%nat.
Proof. unfold count. rewrite filter_cons. cbn. by case_decide; case_bool_decide. Qed.

Lemma count_app k pool pool' : count k (pool ++ pool') = (count k pool + count k pool')%nat.
Proof. unfold count. by rewrite filter_app, length_app. Qed.

Lemma count_with_key k k' nodes : count k (with_key k' nodes) = if bool_decide (k' = k) then length nodes else O.
Proof.
  induction nodes as [|p nodes IH]; [by case_bool_decide|].
  rewrite with_key_cons, count_cons, IH. by case_bool_decide.
Qed.

Lemma extract_none k pool : extract k pool = None → count k pool = O.
Proof.
  induction pool as [|[k' q] pool IH]; intros H; cbn in H; [done|]. rewrite count_cons.
  case_bool_decide as Hk; [done|]. rewrite bool_decide_eq_false_2 by done.
  destruct (extract k pool) as [[q' rest]|]; [done|]. by apply IH.
Qed.

Lemma take_nodes_ok n k : ∀ pool nodes pool', take_nodes n k pool = (nodes, pool') →
  pool ≡ₚ with_key k nodes ++ pool' ∧ length nodes = Nat.min n (count k pool).
Proof.
  induction n as [|n IH]; intros pool nodes pool' H; cbn in H; [by simplify_eq|].
  destruct (extract k pool) as [[p rest]|] eqn:E; simplify_eq.
  - destruct (take_nodes n k rest) as [ns rest'] eqn:E'. simplify_eq.
    apply extract_perm in E. destruct (IH _ _ _ E') as [Hp Hl]. split.
    + by rewrite E, with_key_cons, Hp.
    + rewrite E, count_cons, bool_decide_eq_true_2 by done. cbn. lia.
  - by rewrite (extract_none _ _ E), Nat.min_0_r.
Qed.

Lemma insert_nodes_perm k nodes : ∀ pool, insert_nodes k nodes pool ≡ₚ with_key k nodes ++ pool.
Proof.
  induction nodes as [|p nodes IH]; intros pool; [done|].
  change (insert_nodes k nodes ((k, p) :: pool) ≡ₚ (k, p) :: with_key k nodes ++ pool).
  by rewrite IH, Permutation_middle.
Qed.

(** *** The pool of a thread

    The counter of every bucket is exact, and no bucket holds more than [n] blocks. *)
Definition bucket_ok l k (n : nat) : Prop :=
  LocalPoolAllocator.bucket k l = Z.of_nat (count k (lp_pool l)) ∧ (count k (lp_pool l) ≤ n)%nat.
Definition bucket_limit : nat := S (2 * MaxFreeSize).
Definition LocalOk l : Prop := ∀ k, bucket_ok l k bucket_limit.

Lemma LocalOk_make : LocalOk LocalPoolAllocator.make.
Proof. intros k. split; [done|]. apply Nat.le_0_l. Qed.

Lemma bucket_insert k k' n pool m :
  LocalPoolAllocator.bucket k' (mkLocalPoolAllocator pool (<[k := n]> m)) =
  if bool_decide (k = k') then n else default 0 (m !! k').
Proof.
  unfold LocalPoolAllocator.bucket. cbn. case_bool_decide; subst.
  - by rewrite lookup_insert_eq.
  - by rewrite lookup_insert_ne.
Qed.

(** Blocks of one key come or go, and its counter is set accordingly. *)
Lemma LocalOk_update l k pool n :
  LocalOk l → (∀ k', k' ≠ k → count k' pool = count k' (lp_pool l)) →
  n = Z.of_nat (count k pool) → (count k pool ≤ bucket_limit)%nat →
  LocalOk (mkLocalPoolAllocator pool (<[k := n]> (lp_backetSize l))).
Proof.
  intros H Hne Hn Hle k'. unfold bucket_ok. rewrite bucket_insert. cbn [lp_pool].
  case_bool_decide as Hk; subst; [done|]. rewrite Hne by done. exact (H k').
Qed.

Lemma small_count (n : nat) z : z = Z.of_nat n → (n ≤ bucket_limit)%nat → u64 z = Z.of_nat n.
Proof. intros -> H. apply wrap_small. unfold bucket_limit, MaxFreeSize in H. lia. Qed.

Lemma Allocate_cached_ok k l g o l' g' :
  LocalOk l → LocalPoolAllocator.Allocate_cached k l g = (o, l', g') →
  LocalOk l' ∧ tsa_resource g' = tsa_resource g ∧
  tsa_pool g ++ lp_pool l ≡ₚ
    match o with Some p => [(k, p)] | None => [] end ++ tsa_pool g' ++ lp_pool l'.
Proof.
  intros Hl. unfold LocalPoolAllocator.Allocate_cached.
  destruct (extract k (lp_pool l)) as [[p pool]|] eqn:E.
  - intros ?. simplify_eq. apply extract_perm in E. destruct (Hl k) as [Hb Hle].
    rewrite E, count_cons, bool_decide_eq_true_2 in Hb, Hle by done. split; [|split; [done|]].
    + apply LocalOk_update; [done| | |lia].
      * intros k' Hk. by rewrite E, count_cons, bool_decide_eq_false_2 by congruence.
      * apply small_count; lia.
    + cbn. rewrite E. solve_Permutation.
  - unfold ThreadSafeAllocator.Allocate2.
    destruct (take_nodes MaxFreeSize k (tsa_pool g)) as [nodes rest] eqn:En.
    apply take_nodes_ok in En as [Hp Hlen]. apply extract_none in E.
    assert (length nodes ≤ bucket_limit)%nat as Hmax by (unfold bucket_limit; lia).
    set (pool := insert_nodes k nodes (lp_pool l)).
    assert (Hpool : pool ≡ₚ with_key k nodes ++ lp_pool l) by apply insert_nodes_perm.
    assert (Hck : count k pool = length nodes)
      by (rewrite Hpool, count_app, count_with_key, bool_decide_eq_true_2, E by done; lia).
    assert (Hcne : ∀ k', k' ≠ k → count k' pool = count k' (lp_pool l))
      by (intros; by rewrite Hpool, count_app, count_with_key, bool_decide_eq_false_2 by congruence).
    destruct (extract k pool) as [[p pool']|] eqn:E'; intros ?; simplify_eq; cbn.
    + apply extract_perm in E'. rewrite E', count_cons, bool_decide_eq_true_2 in Hck by done.
      split; [|split; [done|]].
      * apply LocalOk_update; [done| | |lia].
        -- intros k' Hk. rewrite <- Hcne, E', count_cons, bool_decide_eq_false_2 by congruence. done.
        -- rewrite wrap_sub_l. apply small_count; lia.
      * rewrite Hp. transitivity (rest ++ pool); [rewrite Hpool; solve_Permutation|].
        rewrite E'. solve_Permutation.
    + split; [|split; [done|]].
      * apply LocalOk_update; [done..| |by rewrite Hck]. rewrite Hck. by apply small_count.
      * rewrite Hp, Hpool. solve_Permutation.
Qed.

Lemma Deallocate_spill_ok k l o l' :
  LocalOk l → LocalPoolAllocator.Deallocate_spill k l = (o, l') →
  LocalOk l' ∧ (count k (lp_pool l') ≤ 2 * MaxFreeSize)%nat ∧
  lp_pool l ≡ₚ from_option (with_key k) [] o ++ lp_pool l'.
Proof.
  intros Hl. destruct (Hl k) as [Hb Hle]. unfold LocalPoolAllocator.Deallocate_spill.
  destruct (Z.ltb_spec (2 * Z.of_nat MaxFreeSize) (LocalPoolAllocator.bucket k l)) as [Hlt|Hge].
  - destruct (take_nodes MaxFreeSize k (lp_pool l)) as [nodes pool] eqn:E. intros ?. simplify_eq.
    apply take_nodes_ok in E as [Hp Hlen]. cbn.
    pose proof (count_app k (with_key k nodes) pool) as Hc.
    rewrite <- Hp, count_with_key, bool_decide_eq_true_2 in Hc by done.
    assert (1 ≤ MaxFreeSize)%nat by (unfold MaxFreeSize; lia).
    unfold bucket_limit in Hle. split; [|split; [lia|done]].
    apply LocalOk_update; [done| |apply small_count; unfold bucket_limit; lia|unfold bucket_limit; lia].
    intros k' Hk. rewrite Hp, count_app, count_with_key, bool_decide_eq_false_2 by congruence. done.
  - intros ?. simplify_eq. split; [done|]. split; [lia|done].
Qed.

Lemma Deallocate_insert_ok k p l :
  LocalOk l → (count k (lp_pool l) ≤ 2 * MaxFreeSize)%nat →
  LocalOk (LocalPoolAllocator.Deallocate_insert k p l).
Proof.
  intros Hl Hc. destruct (Hl k) as [Hb _]. unfold LocalPoolAllocator.Deallocate_insert.
  assert (count k ((k, p) :: lp_pool l) = S (count k (lp_pool l))) as Hs
    by (by rewrite count_cons, bool_decide_eq_true_2).
  apply LocalOk_update; [done| | |unfold bucket_limit; lia].
  - intros k' Hk. by rewrite count_cons, bool_decide_eq_false_2 by congruence.
  - rewrite Hs. apply small_count; [lia|unfold bucket_limit; lia].
Qed.

(** *** Blocks as lists *)

Definition listed (m : gmap Z block_key) : AllocationPool := (λ kv, (kv.2, kv.1)) <$> map_to_list m.

Lemma elem_of_listed m p k : (k, p) ∈ listed m ↔ m !! p = Some k.
Proof.
  unfold listed. rewrite list_elem_of_fmap, <- elem_of_map_to_list. split.
  - intros ([q k'] & ? & H). by simplify_eq/=.
  - intros H. by exists (p, k).
Qed.

Lemma listed_insert m p k : m !! p = None → listed (<[p := k]> m) ≡ₚ (k, p) :: listed m.
Proof. intros H. unfold listed. by rewrite map_to_list_insert. Qed.

Lemma listed_delete m p k : m !! p = Some k → listed m ≡ₚ (k, p) :: listed (delete p m).
Proof. intros H. rewrite <- (insert_delete_id m p k H) at 1. apply listed_insert, lookup_delete_eq. Qed.

Lemma listed_NoDup m : NoDup (listed m).*2.
Proof.
  unfold listed. rewrite <- list_fmap_compose.
  replace (snd ∘ _) with (@fst Z block_key) by done. apply NoDup_fst_map_to_list.
Qed.

(** ~ThreadSafeAllocator gives all its blocks back. *)
Lemma destroy_ok pool : ∀ r rest,
  resource_ok r → listed (allocated r) ≡ₚ pool ++ rest →
  ∃ r', foldl (λ m '(k, p), r ← m; deallocate p k.1 k.2 r) (Ret r) pool = Ret r' ∧
    resource_ok r' ∧ listed (allocated r') ≡ₚ rest.
Proof.
  induction pool as [|[k p] pool IH]; intros r rest Hr Hl; cbn [app] in Hl; [by exists r|].
  cbn [foldl mbind res_bind].
  assert (Hk : allocated r !! p = Some (k.1, k.2)).
  { rewrite <- surjective_pairing. apply elem_of_listed. rewrite Hl. by left. }
  destruct (deallocate_law _ _ _ _ Hr Hk) as (r1 & -> & Ha & Hr1).
  apply IH; [done|]. apply (Permutation_cons_inv (a := (k, p))). rewrite <- Hl, Ha.
  symmetry. apply listed_delete. by rewrite (surjective_pairing k).
Qed.

(** *** The whole system *)

Import PoolAllocator.
Implicit Types (s : System R) (th : Thread) (u : gmap Z block_key).

Definition thread_blocks th : AllocationPool :=
  lp_pool (th_local th) ++ match th_call th with AtSpill k nodes p => (k, p) :: with_key k nodes | _ => [] end.
Definition threads_blocks (m : gmap nat Thread) : AllocationPool :=
  map_to_list m ≫= λ kv, thread_blocks kv.2.

Lemma threads_insert m t th : threads_blocks (<[t := th]> m) ≡ₚ thread_blocks th ++ threads_blocks (delete t m).
Proof.
  unfold threads_blocks. rewrite <- insert_delete_eq.
  by rewrite (map_to_list_insert (delete t m)) by apply lookup_delete_eq.
Qed.

Lemma threads_split m t d :
  thread_blocks d = [] → threads_blocks m ≡ₚ thread_blocks (default d (m !! t)) ++ threads_blocks (delete t m).
Proof.
  intros Hd. destruct (m !! t) as [th|] eqn:E; cbn.
  - rewrite <- (insert_delete_id m t th E) at 1. by rewrite threads_insert, delete_delete_eq.
  - by rewrite Hd, delete_id.
Qed.

Definition ThreadOk th : Prop :=
  LocalOk (th_local th) ∧
  match th_call th with AtSpill k _ _ => (count k (lp_pool (th_local th)) ≤ 2 * MaxFreeSize)%nat | _ => True end.

(** One [PoolAllocator], [i0], over a resource from which others have allocated
    [base]: every other block is with a user or in exactly one pool. *)
Record PoolInv i0 base g s : Prop := {
  pi_global : sy_globals s = {[i0 := g]};
  pi_resource : resource_ok (tsa_resource g);
  pi_blocks : listed (allocated (tsa_resource g)) ≡ₚ
    listed base ++ listed (sy_users s) ++ tsa_pool g ++ threads_blocks (sy_threads s);
  pi_threads : map_Forall (λ _ th, th_owner th = i0 ∧ ThreadOk th) (sy_threads s);
  pi_alive : ∀ i, i ∈ sy_alive s → i = i0;
  pi_gone : sy_alive s = [] → sy_threads s = ∅ → tsa_pool g = [];
}.

(** What a memory resource does for its users, whose blocks are [u]. *)
Inductive resource_spec : event → relation (gmap Z block_key) :=
  | spec_returned p k u :
      (k.2 | p) → u !! p = None → (∀ q k', u !! q = Some k' → apart p k q k') →
      resource_spec (Returned p k) u (<[p := k]> u)
  | spec_freed p k u : u !! p = Some k → resource_spec (Freed p k) u (delete p u)
  | spec_silent u : resource_spec Silent u u.

Section Invariant.
Context (i0 : nat) (base : gmap Z block_key).
Abbreviation Inv := (PoolInv i0 base).

Lemma pools_make_inv r : resource_ok r → allocated r = base → Inv (ThreadSafeAllocator.make r) (PoolAllocator.make i0 r).
Proof.
  intros Hr <-. split; cbn; [done|done| |done| |done].
  - unfold listed, threads_blocks. rewrite !map_to_list_empty. cbn. by rewrite app_nil_r.
  - intros i Hi%list_elem_of_singleton. done.
Qed.

(** The thread that runs, whose pool may be new. *)
Lemma thread_ok g s i t :
  Inv g s → i ∈ sy_alive s → idle t s →
  let th := GetThreadPool i t s in
  th_owner th = i0 ∧ ThreadOk th ∧ thread_blocks th = lp_pool (th_local th) ∧
  threads_blocks (sy_threads s) ≡ₚ lp_pool (th_local th) ++ threads_blocks (delete t (sy_threads s)).
Proof.
  intros [Hg Hr Hb Ht Ha Hgone] Hi%Ha Hidle th. subst i.
  assert (Hth : th_owner th = i0 ∧ ThreadOk th ∧ thread_blocks th = lp_pool (th_local th)).
  { unfold th, GetThreadPool, idle, ThreadOk, thread_blocks in *. destruct (sy_threads s !! t) as [th'|] eqn:E; cbn.
    - destruct (Ht _ _ E) as [Ho Hok]. split; [done|]. split; [done|]. by rewrite Hidle, app_nil_r.
    - split; [done|]. split; [split; [apply LocalOk_make|done]|done]. }
  destruct Hth as (Ho & Hok & Hbl). split; [done|]. split; [done|]. split; [done|].
  rewrite (threads_split _ t (mkThread i0 LocalPoolAllocator.make Idle)) by done.
  fold (GetThreadPool i0 t s). fold th. by rewrite Hbl.
Qed.

Lemma global_inv g s : Inv g s → global_at i0 s = Ret g.
Proof. intros H. unfold global_at. by rewrite (pi_global _ _ _ _ H), lookup_singleton_eq. Qed.

(** A thread has done a critical section: what it took from the resource, from the
    shared pool and from its own is with it, in a pool or with a user. *)
Lemma update_inv g s t th g' u :
  Inv g s → th_owner th = i0 → ThreadOk th → resource_ok (tsa_resource g') →
  listed (allocated (tsa_resource g')) ≡ₚ
    listed base ++ listed u ++ tsa_pool g' ++ thread_blocks th ++ threads_blocks (delete t (sy_threads s)) →
  Inv g' (update t th g' u s).
Proof.
  intros [Hg Hr Hb Ht Ha Hgone] Ho Hok Hr' Hb'. split; cbn; [|done| | |done|].
  - by rewrite Ho, Hg, insert_singleton_eq.
  - by rewrite threads_insert.
  - by apply map_Forall_insert_2.
  - intros _ Hn. by apply insert_non_empty in Hn.
Qed.

(** A block that is in a pool is apart from those of the users. *)
Lemma pooled_apart g s p k rest :
  Inv g s → tsa_pool g ++ threads_blocks (sy_threads s) ≡ₚ (k, p) :: rest →
  resource_spec (Returned p k) (sy_users s) (<[p := k]> (sy_users s)).
Proof.
  intros [Hg Hr Hb Ht Ha Hgone] Hrest.
  pose proof (listed_NoDup (allocated (tsa_resource g))) as Hnd.
  rewrite Hb, Hrest in Hnd.
  assert (Hp : allocated (tsa_resource g) !! p = Some k).
  { apply elem_of_listed. rewrite Hb, Hrest. rewrite !elem_of_app. right. right. by left. }
  assert (Hu : sy_users s !! p = None).
  { destruct (sy_users s !! p) as [k'|] eqn:E; [|done]. exfalso. apply elem_of_listed in E.
    rewrite app_assoc, fmap_app, NoDup_app in Hnd. destruct Hnd as (_ & Hd & _).
    apply (Hd p); [|by left]. apply (list_elem_of_fmap_2 snd _ (k', p)). rewrite elem_of_app. by right. }
  destruct (allocated_laid_out _ Hr) as [Hal Hap].
  constructor; [by eapply Hal|done|]. intros q k' Hq. apply Hap; [done| |congruence].
  apply elem_of_listed. rewrite Hb. rewrite !elem_of_app. right. left. by apply elem_of_listed.
Qed.

Lemma do_allocate_ok g s i t k o s' :
  Inv g s → i ∈ sy_alive s → idle t s → do_allocate i t k s = Ret (o, s') →
  (∃ g', Inv g' s') ∧
  resource_spec (match o with Some p => Returned p k | None => Silent end) (sy_users s) (sy_users s').
Proof.
  intros H Hi Hidle Hs. destruct (thread_ok _ _ _ _ H Hi Hidle) as (Ho & [Hok _] & _ & Hsplit).
  unfold do_allocate in Hs. rewrite Ho, (global_inv _ _ H) in Hs. cbn [mbind res_bind] in Hs.
  set (th := GetThreadPool i t s) in *.
  destruct (LocalPoolAllocator.Allocate_cached k (th_local th) g) as [[o' l'] g'] eqn:E.
  apply Allocate_cached_ok in E as (Hl' & Hres & Hp); [|done].
  assert (Hall : tsa_pool g ++ threads_blocks (sy_threads s) ≡ₚ
    match o' with Some p => [(k, p)] | None => [] end ++ tsa_pool g' ++ lp_pool l' ++
    threads_blocks (delete t (sy_threads s))).
  { rewrite Hsplit, (assoc (++) (tsa_pool g)), Hp. by rewrite <- !(assoc (++)). }
  destruct o' as [p|]; apply (inj Ret) in Hs; injection Hs as <- <-; (split; [|cbn]).
  - exists g'. apply update_inv with g; [done|done|done|by rewrite Hres; apply H|].
    rewrite Hres, (pi_blocks _ _ _ _ H), listed_insert, Hall.
    + unfold thread_blocks. cbn. rewrite app_nil_r. solve_Permutation.
    + by pose proof (pooled_apart _ _ _ _ _ H Hall) as Hr; inversion Hr.
  - by eapply pooled_apart.
  - exists g'. apply update_inv with g; [done|done|done|by rewrite Hres; apply H|].
    rewrite Hres, (pi_blocks _ _ _ _ H), Hall. unfold thread_blocks. cbn. by rewrite app_nil_r.
  - constructor.
Qed.

(** A thread between two critical sections of a call. *)
Lemma busy_ok g s t owner l c :
  Inv g s → sy_threads s !! t = Some (mkThread owner l c) →
  owner = i0 ∧ ThreadOk (mkThread owner l c) ∧
  threads_blocks (sy_threads s) ≡ₚ thread_blocks (mkThread owner l c) ++ threads_blocks (delete t (sy_threads s)).
Proof.
  intros H E. destruct (pi_threads _ _ _ _ H _ _ E) as [Ho Hok]. split; [done|]. split; [done|].
  rewrite (threads_split _ t (mkThread i0 LocalPoolAllocator.make Idle)) by done. by rewrite E.
Qed.

(** A new block of the resource is apart from all others. *)
Lemma new_apart g s p k r' :
  Inv g s → allocate k.1 k.2 (tsa_resource g) = Ret (p, r') →
  resource_spec (Returned p k) (sy_users s) (<[p := k]> (sy_users s)) ∧ resource_ok r' ∧
  listed (allocated r') ≡ₚ (k, p) :: listed (allocated (tsa_resource g)).
Proof.
  intros [Hg Hr Hb Ht Ha Hgone] E. destruct (allocate_law _ _ _ _ _ Hr E) as (Hn & He & Hr').
  rewrite <- surjective_pairing in He. destruct (allocated_laid_out _ Hr') as [Hal Hap].
  assert (Hu : ∀ q k', sy_users s !! q = Some k' → allocated (tsa_resource g) !! q = Some k').
  { intros q k' Hq%elem_of_listed. apply elem_of_listed. rewrite Hb, !elem_of_app. auto. }
  split; [|split; [done|by rewrite He, listed_insert]]. constructor.
  - apply Hal. by rewrite He, lookup_insert_eq.
  - destruct (sy_users s !! p) as [k'|] eqn:Ep; [|done]. apply Hu in Ep. congruence.
  - intros q k' Hq%Hu. assert (p ≠ q) by congruence.
    apply Hap; [by rewrite He, lookup_insert_eq|by rewrite He, lookup_insert_ne|done].
Qed.

Lemma do_allocate_resource_ok g s t p k s' :
  Inv g s → do_allocate_resource t s = Ret (p, k, s') →
  (∃ g', Inv g' s') ∧ resource_spec (Returned p k) (sy_users s) (sy_users s').
Proof.
  intros H Hs. unfold do_allocate_resource in Hs.
  destruct (sy_threads s !! t) as [[owner l []]|] eqn:E; try discriminate.
  destruct (busy_ok _ _ _ _ _ _ H E) as (-> & [Hok _] & Hsplit).
  rewrite (global_inv _ _ H) in Hs. cbn [mbind res_bind] in Hs. unfold ThreadSafeAllocator.Allocate in Hs.
  destruct (allocate _ _ _) as [[q r']|] eqn:Ea; [|done].
  apply (inj Ret) in Hs. injection Hs as <- <- <-.
  destruct (new_apart _ _ _ _ _ H Ea) as (Hspec & Hr' & Hl). split; [|done].
  eexists. eapply update_inv; [exact H|done|done|done|]. cbn.
  rewrite Hl, (pi_blocks _ _ _ _ H), listed_insert, Hsplit by (by inversion Hspec).
  unfold thread_blocks. cbn. solve_Permutation.
Qed.

Lemma bad_alloc_ok g s t owner l k :
  Inv g s → sy_threads s !! t = Some (mkThread owner l (AtResource k)) →
  Inv g (update t (mkThread owner l Idle) g (sy_users s) s).
Proof.
  intros H E. destruct (busy_ok _ _ _ _ _ _ H E) as (-> & [Hok _] & Hsplit).
  eapply update_inv; [exact H|done|done|by apply H|].
  rewrite (pi_blocks _ _ _ _ H), Hsplit. unfold thread_blocks. cbn. solve_Permutation.
Qed.

(** A block that is given back goes into a pool; nothing can fail. *)
Lemma do_deallocate_ok g s i t p k :
  Inv g s → i ∈ sy_alive s → idle t s → sy_users s !! p = Some k →
  ∃ s' g', do_deallocate i t p k s = Ret s' ∧ Inv g' s' ∧ sy_users s' = delete p (sy_users s).
Proof.
  intros H Hi Hidle Hu. destruct (thread_ok _ _ _ _ H Hi Hidle) as (Ho & [Hok _] & _ & Hsplit).
  unfold do_deallocate. rewrite Ho, (global_inv _ _ H). cbn [mbind res_bind].
  destruct (LocalPoolAllocator.Deallocate_spill k _) as [o l'] eqn:E.
  apply Deallocate_spill_ok in E as (Hl' & Hc & Hp); [|done].
  destruct o as [nodes|]; do 2 eexists; (split; [done|]); (split; [|done]); cbn in Hp;
    (eapply update_inv; [exact H|done| |by apply H|]).
  - by split.
  - rewrite (pi_blocks _ _ _ _ H), (listed_delete _ _ _ Hu), Hsplit, Hp. unfold thread_blocks. cbn. solve_Permutation.
  - split; [|done]. by apply Deallocate_insert_ok.
  - rewrite (pi_blocks _ _ _ _ H), (listed_delete _ _ _ Hu), Hsplit, Hp. unfold thread_blocks. cbn. solve_Permutation.
Qed.

Lemma do_deallocate_spill_ok g s t owner l k nodes p :
  Inv g s → sy_threads s !! t = Some (mkThread owner l (AtSpill k nodes p)) →
  ∃ s' g', do_deallocate_spill t s = Ret s' ∧ Inv g' s' ∧ sy_users s' = sy_users s.
Proof.
  intros H E. unfold do_deallocate_spill. rewrite E.
  destruct (busy_ok _ _ _ _ _ _ H E) as (-> & [Hok Hc] & Hsplit). cbn in Hok, Hc.
  rewrite (global_inv _ _ H). cbn [mbind res_bind]. do 2 eexists. split; [done|]. split; [|done].
  eapply update_inv; [exact H|done| |by apply H|].
  - split; [|done]. by apply Deallocate_insert_ok.
  - cbn. rewrite (pi_blocks _ _ _ _ H), insert_nodes_perm, Hsplit. unfold thread_blocks. cbn. solve_Permutation.
Qed.

(** What is left to show of a state after a pointer to the shared pool has gone. *)
Lemma drop_global_ok g s :
  sy_globals s = {[i0 := g]} → resource_ok (tsa_resource g) →
  listed (allocated (tsa_resource g)) ≡ₚ
    listed base ++ listed (sy_users s) ++ tsa_pool g ++ threads_blocks (sy_threads s) →
  map_Forall (λ _ th, th_owner th = i0 ∧ ThreadOk th) (sy_threads s) →
  (∀ i, i ∈ sy_alive s → i = i0) →
  ∃ s' g', drop_global i0 s = Ret s' ∧ Inv g' s' ∧ sy_users s' = sy_users s.
Proof.
  intros Hg Hr Hb Ht Ha. unfold drop_global. destruct (bool_decide (i0 ∈ sy_alive s)) eqn:Ei; cbn.
  { apply bool_decide_eq_true in Ei. exists s, g. split; [done|]. split; [|done]. split; try done.
    intros Hn. rewrite Hn in Ei. by apply not_elem_of_nil in Ei. }
  apply bool_decide_eq_false in Ei. destruct (existsb _ _) eqn:Ex.
  { exists s, g. split; [done|]. split; [|done]. split; try done.
    intros _ Hn. rewrite Hn, map_to_list_empty in Ex. done. }
  assert (Hth : sy_threads s = ∅).
  { apply map_empty. intros t. destruct (sy_threads s !! t) as [th|] eqn:E; [|done]. exfalso.
    assert (existsb (λ '(_, th), (th_owner th =? i0)%nat) (map_to_list (sy_threads s)) = true); [|congruence].
    apply existsb_exists. exists (t, th). split; [by apply list_elem_of_In, elem_of_map_to_list|].
    destruct (Ht _ _ E) as [-> _]. apply Nat.eqb_refl. }
  unfold global_at. rewrite Hg, lookup_singleton_eq. cbn [mbind res_bind]. unfold ThreadSafeAllocator.destroy.
  rewrite Hth in Hb. unfold threads_blocks in Hb. rewrite map_to_list_empty in Hb. cbn in Hb. rewrite app_nil_r in Hb.
  destruct (destroy_ok (tsa_pool g) (tsa_resource g) (listed base ++ listed (sy_users s))) as (r' & -> & Hr' & Hb');
    [done|rewrite Hb; solve_Permutation|].
  cbn [mbind res_bind]. eexists _, (mkThreadSafeAllocator [] r'). split; [done|]. split; [|done].
  split; cbn; try done.
  - apply insert_singleton_eq.
  - rewrite Hth. unfold threads_blocks. rewrite map_to_list_empty. cbn. by rewrite app_nil_r.
Qed.

(** The end of a thread, and of the [PoolAllocator], cannot fail. *)
Lemma exit_thread_ok g s t :
  Inv g s → idle t s → ∃ s' g', exit_thread t s = Ret s' ∧ Inv g' s' ∧ sy_users s' = sy_users s.
Proof.
  intros H Hidle. unfold exit_thread, idle in *. destruct (sy_threads s !! t) as [[owner l c]|] eqn:E.
  - cbn in Hidle. subst c. destruct (busy_ok _ _ _ _ _ _ H E) as (-> & _ & Hsplit).
    cbn [th_owner th_local]. rewrite (global_inv _ _ H). cbn [mbind res_bind].
    assert (Hd : tsa_resource (LocalPoolAllocator.destroy l g) = tsa_resource g ∧
      tsa_pool (LocalPoolAllocator.destroy l g) = tsa_pool g ++ lp_pool l).
    { unfold LocalPoolAllocator.destroy, ThreadSafeAllocator.Deallocate_pool.
      destruct (lp_pool l); cbn; [by rewrite app_nil_r|done]. }
    destruct Hd as [Hd1 Hd2].
    match goal with |- context [drop_global i0 ?x] => set (s1 := x) end.
    change (sy_users s) with (sy_users s1).
    apply (drop_global_ok (LocalPoolAllocator.destroy l g)); subst s1; cbn.
    + by rewrite (pi_global _ _ _ _ H), insert_singleton_eq.
    + rewrite Hd1. apply H.
    + rewrite Hd1, Hd2, (pi_blocks _ _ _ _ H), Hsplit. unfold thread_blocks. cbn. solve_Permutation.
    + apply map_Forall_delete, H.
    + apply H.
  - by exists s, g.
Qed.

Lemma destroy_allocator_ok g s i :
  Inv g s → PoolAllocator.destroy i s = Err Undefined ∨
  ∃ s' g', PoolAllocator.destroy i s = Ret s' ∧ Inv g' s' ∧ sy_users s' = sy_users s.
Proof.
  intros H. unfold PoolAllocator.destroy. destruct (decide (i = i0)) as [->|Hi].
  - right. match goal with |- context [drop_global i0 ?x] => set (s1 := x) end.
    change (sy_users s) with (sy_users s1). apply (drop_global_ok g); subst s1; cbn; try apply H.
    intros i [_ Hin]%list_elem_of_filter. by apply (pi_alive _ _ _ _ H).
  - unfold drop_global. cbn. rewrite bool_decide_eq_false_2 by (rewrite list_elem_of_filter; naive_solver).
    cbn. destruct (existsb _ _) eqn:Ex.
    + right. eexists _, g. split; [done|]. split; [|done]. split; cbn; try apply H.
      * intros j [_ Hin]%list_elem_of_filter. by apply (pi_alive _ _ _ _ H).
      * intros _ Hn. rewrite Hn, map_to_list_empty in Ex. done.
    + left. unfold global_at. cbn. by rewrite (pi_global _ _ _ _ H), lookup_singleton_ne by congruence.
Qed.

Lemma step_ok g e s s' : Inv g s → step e s s' → (∃ g', Inv g' s') ∧ resource_spec e (sy_users s) (sy_users s').
Proof.
  intros H Hs. destruct Hs as [i t k s o s' Hi Hidle Hs|t s p k s' Hs|t s owner l k g' f E Hg Hf
    |i t p k s s' Hi Hidle Hu Hs|t s s' Hs|t s s' Hidle Hs|i s s' Hs].
  - by eapply do_allocate_ok.
  - by eapply do_allocate_resource_ok.
  - destruct (busy_ok _ _ _ _ _ _ H E) as (-> & _ & _). rewrite (global_inv _ _ H) in Hg.
    injection Hg as <-. split; [eexists; by eapply bad_alloc_ok|constructor].
  - destruct (do_deallocate_ok _ _ _ _ _ _ H Hi Hidle Hu) as (s1 & g1 & E & H1 & Hu1).
    rewrite E in Hs. apply (inj Ret) in Hs as <-. rewrite Hu1. split; [by exists g1|by constructor].
  - unfold do_deallocate_spill in Hs. destruct (sy_threads s !! t) as [[owner l []]|] eqn:E; try discriminate.
    destruct (do_deallocate_spill_ok _ _ _ _ _ _ _ _ H E) as (s1 & g1 & E1 & H1 & Hu).
    unfold do_deallocate_spill in E1. rewrite E in E1. rewrite E1 in Hs. apply (inj Ret) in Hs as <-.
    rewrite Hu. split; [by exists g1|constructor].
  - destruct (exit_thread_ok _ _ _ H Hidle) as (s1 & g1 & E & H1 & Hu).
    rewrite E in Hs. apply (inj Ret) in Hs as <-. rewrite Hu. split; [by exists g1|constructor].
  - destruct (destroy_allocator_ok g s i H) as [E|(s1 & g1 & E & H1 & Hu)]; rewrite E in Hs; [done|].
    apply (inj Ret) in Hs as <-. rewrite Hu. split; [by exists g1|constructor].
Qed.

Definition any_step : relation (System R) := λ s s', ∃ e, step e s s'.

Lemma pools_reachable_inv r s :
  resource_ok r → allocated r = base → rtc any_step (PoolAllocator.make i0 r) s → ∃ g, Inv g s.
Proof.
  intros Hr Hb Hs. apply (rtc_invariant any_step (λ s, ∃ g, Inv g s)) in Hs; [done| |].
  - eexists. by apply pools_make_inv.
  - intros a b [g Hg] [e He]. by destruct (step_ok _ _ _ _ Hg He) as [? _].
Qed.

End Invariant.

(** C35: For any threads that allocate and free through one [PoolAllocator], in any
    interleaving of their critical sections, the [PoolAllocator] is a memory resource: a
    block is handed out aligned and apart from all blocks users hold, whether it comes
    from the pool of the thread, from the shared one or from the resource. *)
Theorem pools_refine_resource i0 r s e s' :
  resource_ok r → rtc any_step (PoolAllocator.make i0 r) s → step e s s' →
  resource_spec e (sy_users s) (sy_users s').
Proof.
  intros Hr Hs He. destruct (pools_reachable_inv i0 (allocated r) r s Hr eq_refl Hs) as [g Hg].
  by destruct (step_ok _ _ _ _ _ _ Hg He).
Qed.

(** When the [PoolAllocator] and all threads that used it are gone, the resource has back
    every block no user holds: what is allocated is what was before, and what users hold. *)
Theorem pools_return_everything i0 r s :
  resource_ok r → rtc any_step (PoolAllocator.make i0 r) s → sy_alive s = [] → sy_threads s = ∅ →
  ∃ g, sy_globals s = {[i0 := g]} ∧ ∀ p k, allocated (tsa_resource g) !! p = Some k ↔
    allocated r !! p = Some k ∨ sy_users s !! p = Some k.
Proof.
  intros Hr Hs Ha Ht. destruct (pools_reachable_inv i0 (allocated r) r s Hr eq_refl Hs) as [g Hg].
  exists g. split; [apply Hg|]. intros p k. rewrite <- !elem_of_listed, (pi_blocks _ _ _ _ Hg).
  rewrite (pi_gone _ _ _ _ Hg Ha Ht), Ht. unfold threads_blocks. rewrite map_to_list_empty. cbn.
  by rewrite app_nil_r, elem_of_app.
Qed.

(** No thread keeps more than [2 * MaxFreeSize + 1] freed blocks of a size and alignment,
    its counters are exact, and giving back a block or ending a thread never fails. *)
Theorem pools_bounded_and_total i0 r s t :
  resource_ok r → rtc any_step (PoolAllocator.make i0 r) s →
  (∀ th, sy_threads s !! t = Some th → LocalOk (th_local th)) ∧
  (idle t s → is_ret (exit_thread t s) = true) ∧
  ∀ i p k, i ∈ sy_alive s → idle t s → sy_users s !! p = Some k → is_ret (do_deallocate i t p k s) = true.
Proof.
  intros Hr Hs. destruct (pools_reachable_inv i0 (allocated r) r s Hr eq_refl Hs) as [g Hg]. split; [|split].
  - intros th E. by destruct (pi_threads _ _ _ _ Hg _ _ E) as [_ [? _]].
  - intros Hi. by destruct (exit_thread_ok _ _ _ _ _ Hg Hi) as (? & ? & -> & _).
  - intros i p k Ha Hi Hu. by destruct (do_deallocate_ok _ _ _ _ _ _ _ _ Hg Ha Hi Hu) as (? & ? & -> & _).
Qed.

End Pools.

(** ** An arena as the resource, and witnesses *)

Module Arena.

Record Arena := mkArena { ar_next : Z; ar_blocks : gmap Z block_key }.

Definition align_up (p a : Z) : Z := (p + a - 1) / a * a.

Definition allocate (size alignment : Z) (r : Arena) : res (Z * Arena) :=
  if (0 <=? size) && (0 <? alignment) then
    let p := align_up (ar_next r) alignment in
    Ret (p, mkArena (p + Z.max size 1) (<[p := (size, alignment)]> (ar_blocks r)))
  else Err (Throws "bad_alloc").

Definition deallocate (p size alignment : Z) (r : Arena) : res Arena :=
  if bool_decide (ar_blocks r !! p = Some (size, alignment)) then
    Ret (mkArena (ar_next r) (delete p (ar_blocks r)))
  else Err Undefined.

Definition ok (r : Arena) : Prop :=
  laid_out (ar_blocks r) ∧ ∀ p k, ar_blocks r !! p = Some k → p + Z.max k.1 1 ≤ ar_next r.

#[export] Instance Arena_resource : MemoryResource Arena := {
  Memory.allocate := allocate;
  Memory.deallocate := deallocate;
  allocated := ar_blocks;
  resource_ok := ok;
}.

Lemma align_up_ge p a : 0 < a → p ≤ align_up p a.
Proof. intros H. unfold align_up. pose proof (Z.mul_succ_div_gt (p + a - 1) a). nia. Qed.

#[export] Instance Arena_laws : MemoryResourceLaws Arena.
Proof.
  split.
  - by intros r [H _].
  - intros size alignment r p r' [[Hal Hap] Hn] H. cbn in H. unfold allocate in H.
    destruct (_ && _) eqn:E; [|done]. apply andb_true_iff in E as [E1%Z.leb_le E2%Z.ltb_lt].
    apply (inj Ret) in H. injection H as <- <-. cbn. pose proof (align_up_ge (ar_next r) alignment E2) as Hge.
    assert (Hnew : ∀ q k, ar_blocks r !! q = Some k → q + Z.max k.1 1 ≤ align_up (ar_next r) alignment)
      by (intros q k Hq%Hn; lia).
    split; [|split; [done|split; [split|]]]; cbn [ar_blocks ar_next].
    + destruct (ar_blocks r !! _) as [k|] eqn:Ek; [|done]. apply Hnew in Ek. lia.
    + intros q k [[<- <-]|[? Hq]]%lookup_insert_Some; [|by eapply Hal]. exists ((ar_next r + alignment - 1) / alignment). done.
    + intros q k q' k' [[<- <-]|[? Hq]]%lookup_insert_Some [[<- <-]|[? Hq']]%lookup_insert_Some Hne; [done| | |by apply Hap].
      * apply Hnew in Hq'. split; [done|]. cbn. lia.
      * apply Hnew in Hq. split; [done|]. cbn. lia.
    + intros q k [[<- <-]|[? Hq]]%lookup_insert_Some; cbn; [done|]. apply Hnew in Hq. lia.
  - intros p size alignment r [[Hal Hap] Hn] Hp. cbn in Hp |- *. unfold deallocate.
    rewrite bool_decide_eq_true_2 by done. eexists. split; [done|]. cbn. split; [done|].
    split; [split|]; intros q; setoid_rewrite lookup_delete_Some; naive_solver.
Qed.

Definition empty (next : Z) : Arena := mkArena next ∅.

Lemma empty_ok next : ok (empty next).
Proof. split; [split|]; intros p k; cbn; by rewrite ?lookup_empty. Qed.

End Arena.

Section Witnesses.
Import PoolAllocator Arena.
Local Abbreviation key := (100, 8).

(** Thread 1 allocates 100 bytes and frees them; thread 2 does too, while thread 1
    allocates again. *)
Definition sys0 : System Arena := PoolAllocator.make 0 (Arena.empty 1000).
Definition do_step {A} (m : res (A * System Arena)) : System Arena :=
  match m with Ret (_, s) => s | Err _ => sys0 end.
Definition sys1 : System Arena := Eval vm_compute in do_step (do_allocate 0 1 key sys0).
Definition sys2 : System Arena := Eval vm_compute in do_step (do_allocate_resource 1 sys1).
Definition sys3 : System Arena := Eval vm_compute in from_res sys0 (do_deallocate 0 1 1000 key sys2).
Definition sys4 : System Arena := Eval vm_compute in do_step (do_allocate 0 2 key sys3).
Definition sys5 : System Arena := Eval vm_compute in do_step (do_allocate 0 1 key sys4).
Definition sys6 : System Arena := Eval vm_compute in do_step (do_allocate_resource 2 sys5).
Definition sys7 : System Arena := Eval vm_compute in from_res sys0 (do_deallocate 0 2 1000 key sys6).
Definition sys8 : System Arena := Eval vm_compute in from_res sys0 (exit_thread 1 sys7).
Definition sys9 : System Arena := Eval vm_compute in from_res sys0 (PoolAllocator.destroy 0 sys8).
Definition sys10 : System Arena := Eval vm_compute in from_res sys0 (exit_thread 2 sys9).

Ltac one_step c := eapply rtc_l; [eexists; c; vm_compute; reflexivity|].
Lemma sys4_reached : rtc any_step sys0 sys4.
Proof.
  one_step ltac:(eapply (step_allocate 0 1 key sys0 None sys1); [by left|done|]).
  one_step ltac:(eapply (step_resource 1 sys1 1000 key sys2)).
  one_step ltac:(eapply (step_deallocate 0 1 1000 key sys2 sys3); [by left|done|done|]).
  one_step ltac:(eapply (step_allocate 0 2 key sys3 None sys4); [by left|done|]).
  apply rtc_refl.
Qed.

Lemma sys4_to_sys10 : rtc any_step sys4 sys10.
Proof.
  one_step ltac:(eapply (step_allocate 0 1 key sys4 (Some 1000) sys5); [by left|done|]).
  one_step ltac:(eapply (step_resource 2 sys5 1104 key sys6)).
  one_step ltac:(eapply (step_deallocate 0 2 1000 key sys6 sys7); [by left|done|done|]).
  one_step ltac:(eapply (step_exit 1 sys7 sys8); [done|]).
  one_step ltac:(eapply (step_destroy 0 sys8 sys9)).
  one_step ltac:(eapply (step_exit 2 sys9 sys10); [done|]).
  apply rtc_refl.
Qed.

(** The block thread 1 has freed is handed out again, and to no one else. *)
Lemma pools_refine_resource_witness :
  resource_spec (Returned 1000 key) (sy_users sys4) (sy_users sys5) ∧
  sy_users sys4 = ∅ ∧ sy_users sys5 = {[1000 := key]}.
Proof.
  split; [|split; [reflexivity|vm_compute; reflexivity]].
  apply (pools_refine_resource 0 (Arena.empty 1000)); [apply empty_ok|exact sys4_reached|].
  apply (step_allocate 0 1 key sys4 (Some 1000) sys5); [by left|done|vm_compute; reflexivity].
Defined.

(** One block is still with a user at the end, the other one is back in the arena. *)
Lemma pools_return_everything_witness :
  ∃ g, sy_globals sys10 = {[0%nat := g]} ∧ ∀ p k, allocated (tsa_resource g) !! p = Some k ↔
    allocated (Arena.empty 1000) !! p = Some k ∨ sy_users sys10 !! p = Some k.
Proof.
  apply (pools_return_everything 0 (Arena.empty 1000) sys10);
    [apply empty_ok|etrans; [exact sys4_reached|exact sys4_to_sys10]|reflexivity|reflexivity].
Defined.

Lemma pools_bounded_and_total_witness :
  is_ret (exit_thread 2 sys9) = true ∧ sy_users sys7 = {[1104 := key]}.
Proof.
  split; [|vm_compute; reflexivity].
  apply (pools_bounded_and_total 0 (Arena.empty 1000) sys9 2); [apply empty_ok| |reflexivity].
  etrans; [exact sys4_reached|].
  one_step ltac:(eapply (step_allocate 0 1 key sys4 (Some 1000) sys5); [by left|done|]).
  one_step ltac:(eapply (step_resource 2 sys5 1104 key sys6)).
  one_step ltac:(eapply (step_deallocate 0 2 1000 key sys6 sys7); [by left|done|done|]).
  one_step ltac:(eapply (step_exit 1 sys7 sys8); [done|]).
  one_step ltac:(eapply (step_destroy 0 sys8 sys9)).
  apply rtc_refl.
Defined.

(** Two [PoolAllocator]s: [thread_local] makes one pool per thread, of the first of them
    that is used there.  Thread 1 allocates from the second one after the first one and
    gets a block of the first one's resource; thread 2, which has used the second one only,
    frees it, and when it ends the second resource is given a block it never had. *)
Definition two0 : System Arena :=
  mkSystem [0%nat; 1%nat] (<[1%nat := ThreadSafeAllocator.make (Arena.empty 5000)]> (sy_globals sys0)) ∅ ∅.
Definition two1 : System Arena := Eval vm_compute in
  do_step (do_allocate_resource 1 (do_step (do_allocate 0 1 key two0))).
Definition two2 : System Arena := Eval vm_compute in
  do_step (do_allocate_resource 1 (do_step (do_allocate 1 1 key two1))).
Definition two3 : System Arena := Eval vm_compute in
  from_res two0 (PoolAllocator.destroy 1 (from_res two0 (do_deallocate 1 2 1104 key two2))).

Lemma second_pool_uses_first :
  do_allocate_resource 1 (do_step (do_allocate 1 1 key two1)) = Ret (1104, key, two2) ∧
  (∃ g, sy_globals two2 !! 1%nat = Some g ∧ allocated (tsa_resource g) !! 1104 = None) ∧
  exit_thread 2 two3 = Err Undefined.
Proof. split; [by vm_compute|]. split; [by eexists|by vm_compute]. Qed.

(** The counter of a logger under its own calls. *)
Example logger_counts :
  MemoryLogger.GetAllocatedSize (from_res (MemoryLogger.make (Arena.empty 0))
    ('(p, m) ← MemoryLogger.do_allocate 100 8 (MemoryLogger.make (Arena.empty 0));
     '(q, m) ← MemoryLogger.do_allocate 28 4 m; MemoryLogger.do_deallocate p 100 8 m)) = 28.
Proof. vm_compute. reflexivity. Qed.

End Witnesses.
