(* ===== verification/Connection.v ===== *)
(** * Connection
    [src/Statistics.cpp], [src/Connection.cpp] and [src/IConnectionState.cpp]: one
    end of a connection, the queues it owns, and the states it goes through.

    Clock readings are arguments.  [ConnectionEvents::OnSendPacket], which wakes the
    send thread, is counted in [cn_notified].  A method that waits gives [None] when
    it blocks on the state it is called in. *)
From S2P Require Import Prelude Addr Packet LockedList RecvQueue SendQueue Stats SpeedControl InFlight.
Local Open Scope Z_scope.

(** ** Statistics *)

(** Seven 64-bit counters. *)
Record Statistics := mkStatistics {
  st_lostPackets : Z;
  st_sendPackets : Z;
  st_receivedPackets : Z;
  st_duplicatePackets : Z;
  st_overflowPackets : Z;
  st_ackSendPackets : Z;
  st_ackReceivedPackets : Z;
}.

Module Statistics.
Definition make : Statistics := mkStatistics 0 0 0 0 0 0 0.
Definition AddLostPackets (n : Z) (s : Statistics) : Statistics :=
  let 'mkStatistics a b c d e f g := s in mkStatistics (u64 (a + n)) b c d e f g.
Definition AddSendPackets (n : Z) (s : Statistics) : Statistics :=
  let 'mkStatistics a b c d e f g := s in mkStatistics a (u64 (b + n)) c d e f g.
Definition AddReceivedPackets (s : Statistics) : Statistics :=
  let 'mkStatistics a b c d e f g := s in mkStatistics a b (u64 (c + 1)) d e f g.
Definition AddDuplicatePackets (s : Statistics) : Statistics :=
  let 'mkStatistics a b c d e f g := s in mkStatistics a b c (u64 (d + 1)) e f g.
Definition AddOverflowPackets (s : Statistics) : Statistics :=
  let 'mkStatistics a b c d e f g := s in mkStatistics a b c d (u64 (e + 1)) f g.
Definition AddAckSendPackets (n : Z) (s : Statistics) : Statistics :=
  let 'mkStatistics a b c d e f g := s in mkStatistics a b c d e (u64 (f + n)) g.
Definition AddAckReceivedPackets (s : Statistics) : Statistics :=
  let 'mkStatistics a b c d e f g := s in mkStatistics a b c d e f (u64 (g + 1)).
End Statistics.

(** ** Connection.hpp *)

Inductive ConnectionState :=
  | SendingSynState | WaitingSynState | WaitingSynAckState | SendingSynAckState
  | DataState | ClosingState | ClosedState.

#[export] Instance ConnectionState_eq_dec : EqDecision ConnectionState.
Proof. solve_decision. Defined.

Record Connection (P : Type) := mkConnection {
  cn_key : ConnectionKey;
  cn_freeInternalSendPackets : list P;
  cn_freeRecvPackets : list P;
  cn_lastPacketReceive : Z;
  cn_inFlightQueue : InFlightQueue P;
  cn_recvQueue : RecvQueue P;
  cn_sendQueue : SendQueue P;
  cn_freeUserSendPackets : list P;
  cn_connected : bool;
  cn_closed : bool;
  cn_cleanRecvBuffers : bool;
  cn_cleanSendBuffers : bool;
  cn_connectionState : ConnectionState;
  cn_statistics : Statistics;
  cn_sendUserData : list P;
  cn_destinationId : Z;
  cn_notified : nat;
}.
Arguments mkConnection {_} _ _ _ _ _ _ _ _ _ _ _ _ _ _ _ _ _.
Arguments cn_key {_} _.
Arguments cn_freeInternalSendPackets {_} _.
Arguments cn_freeRecvPackets {_} _.
Arguments cn_lastPacketReceive {_} _.
Arguments cn_inFlightQueue {_} _.
Arguments cn_recvQueue {_} _.
Arguments cn_sendQueue {_} _.
Arguments cn_freeUserSendPackets {_} _.
Arguments cn_connected {_} _.
Arguments cn_closed {_} _.
Arguments cn_cleanRecvBuffers {_} _.
Arguments cn_cleanSendBuffers {_} _.
Arguments cn_connectionState {_} _.
Arguments cn_statistics {_} _.
Arguments cn_sendUserData {_} _.
Arguments cn_destinationId {_} _.
Arguments cn_notified {_} _.

Module Connection.

(** *** Assigning one member *)
Section Setters.
Context {P : Type}.
Implicit Types (c : Connection P).
Definition set_key (v : ConnectionKey) c : Connection P :=
  mkConnection v (cn_freeInternalSendPackets c) (cn_freeRecvPackets c) (cn_lastPacketReceive c)
    (cn_inFlightQueue c) (cn_recvQueue c) (cn_sendQueue c) (cn_freeUserSendPackets c) (cn_connected
    c) (cn_closed c) (cn_cleanRecvBuffers c) (cn_cleanSendBuffers c) (cn_connectionState c)
    (cn_statistics c) (cn_sendUserData c) (cn_destinationId c) (cn_notified c).
Definition set_freeInternalSendPackets (v : list P) c : Connection P :=
  mkConnection (cn_key c) v (cn_freeRecvPackets c) (cn_lastPacketReceive c) (cn_inFlightQueue c)
    (cn_recvQueue c) (cn_sendQueue c) (cn_freeUserSendPackets c) (cn_connected c) (cn_closed c)
    (cn_cleanRecvBuffers c) (cn_cleanSendBuffers c) (cn_connectionState c) (cn_statistics c)
    (cn_sendUserData c) (cn_destinationId c) (cn_notified c).
Definition set_freeRecvPackets (v : list P) c : Connection P :=
  mkConnection (cn_key c) (cn_freeInternalSendPackets c) v (cn_lastPacketReceive c)
    (cn_inFlightQueue c) (cn_recvQueue c) (cn_sendQueue c) (cn_freeUserSendPackets c) (cn_connected
    c) (cn_closed c) (cn_cleanRecvBuffers c) (cn_cleanSendBuffers c) (cn_connectionState c)
    (cn_statistics c) (cn_sendUserData c) (cn_destinationId c) (cn_notified c).
Definition set_lastPacketReceive (v : Z) c : Connection P :=
  mkConnection (cn_key c) (cn_freeInternalSendPackets c) (cn_freeRecvPackets c) v (cn_inFlightQueue
    c) (cn_recvQueue c) (cn_sendQueue c) (cn_freeUserSendPackets c) (cn_connected c) (cn_closed c)
    (cn_cleanRecvBuffers c) (cn_cleanSendBuffers c) (cn_connectionState c) (cn_statistics c)
    (cn_sendUserData c) (cn_destinationId c) (cn_notified c).
Definition set_inFlightQueue (v : InFlightQueue P) c : Connection P :=
  mkConnection (cn_key c) (cn_freeInternalSendPackets c) (cn_freeRecvPackets c)
    (cn_lastPacketReceive c) v (cn_recvQueue c) (cn_sendQueue c) (cn_freeUserSendPackets c)
    (cn_connected c) (cn_closed c) (cn_cleanRecvBuffers c) (cn_cleanSendBuffers c)
    (cn_connectionState c) (cn_statistics c) (cn_sendUserData c) (cn_destinationId c) (cn_notified
    c).
Definition set_recvQueue (v : RecvQueue P) c : Connection P :=
  mkConnection (cn_key c) (cn_freeInternalSendPackets c) (cn_freeRecvPackets c)
    (cn_lastPacketReceive c) (cn_inFlightQueue c) v (cn_sendQueue c) (cn_freeUserSendPackets c)
    (cn_connected c) (cn_closed c) (cn_cleanRecvBuffers c) (cn_cleanSendBuffers c)
    (cn_connectionState c) (cn_statistics c) (cn_sendUserData c) (cn_destinationId c) (cn_notified
    c).
Definition set_sendQueue (v : SendQueue P) c : Connection P :=
  mkConnection (cn_key c) (cn_freeInternalSendPackets c) (cn_freeRecvPackets c)
    (cn_lastPacketReceive c) (cn_inFlightQueue c) (cn_recvQueue c) v (cn_freeUserSendPackets c)
    (cn_connected c) (cn_closed c) (cn_cleanRecvBuffers c) (cn_cleanSendBuffers c)
    (cn_connectionState c) (cn_statistics c) (cn_sendUserData c) (cn_destinationId c) (cn_notified
    c).
Definition set_freeUserSendPackets (v : list P) c : Connection P :=
  mkConnection (cn_key c) (cn_freeInternalSendPackets c) (cn_freeRecvPackets c)
    (cn_lastPacketReceive c) (cn_inFlightQueue c) (cn_recvQueue c) (cn_sendQueue c) v (cn_connected
    c) (cn_closed c) (cn_cleanRecvBuffers c) (cn_cleanSendBuffers c) (cn_connectionState c)
    (cn_statistics c) (cn_sendUserData c) (cn_destinationId c) (cn_notified c).
Definition set_connected (v : bool) c : Connection P :=
  mkConnection (cn_key c) (cn_freeInternalSendPackets c) (cn_freeRecvPackets c)
    (cn_lastPacketReceive c) (cn_inFlightQueue c) (cn_recvQueue c) (cn_sendQueue c)
    (cn_freeUserSendPackets c) v (cn_closed c) (cn_cleanRecvBuffers c) (cn_cleanSendBuffers c)
    (cn_connectionState c) (cn_statistics c) (cn_sendUserData c) (cn_destinationId c) (cn_notified
    c).
Definition set_closed (v : bool) c : Connection P :=
  mkConnection (cn_key c) (cn_freeInternalSendPackets c) (cn_freeRecvPackets c)
    (cn_lastPacketReceive c) (cn_inFlightQueue c) (cn_recvQueue c) (cn_sendQueue c)
    (cn_freeUserSendPackets c) (cn_connected c) v (cn_cleanRecvBuffers c) (cn_cleanSendBuffers c)
    (cn_connectionState c) (cn_statistics c) (cn_sendUserData c) (cn_destinationId c) (cn_notified
    c).
Definition set_cleanRecvBuffers (v : bool) c : Connection P :=
  mkConnection (cn_key c) (cn_freeInternalSendPackets c) (cn_freeRecvPackets c)
    (cn_lastPacketReceive c) (cn_inFlightQueue c) (cn_recvQueue c) (cn_sendQueue c)
    (cn_freeUserSendPackets c) (cn_connected c) (cn_closed c) v (cn_cleanSendBuffers c)
    (cn_connectionState c) (cn_statistics c) (cn_sendUserData c) (cn_destinationId c) (cn_notified
    c).
Definition set_cleanSendBuffers (v : bool) c : Connection P :=
  mkConnection (cn_key c) (cn_freeInternalSendPackets c) (cn_freeRecvPackets c)
    (cn_lastPacketReceive c) (cn_inFlightQueue c) (cn_recvQueue c) (cn_sendQueue c)
    (cn_freeUserSendPackets c) (cn_connected c) (cn_closed c) (cn_cleanRecvBuffers c) v
    (cn_connectionState c) (cn_statistics c) (cn_sendUserData c) (cn_destinationId c) (cn_notified
    c).
Definition set_connectionState (v : ConnectionState) c : Connection P :=
  mkConnection (cn_key c) (cn_freeInternalSendPackets c) (cn_freeRecvPackets c)
    (cn_lastPacketReceive c) (cn_inFlightQueue c) (cn_recvQueue c) (cn_sendQueue c)
    (cn_freeUserSendPackets c) (cn_connected c) (cn_closed c) (cn_cleanRecvBuffers c)
    (cn_cleanSendBuffers c) v (cn_statistics c) (cn_sendUserData c) (cn_destinationId c)
    (cn_notified c).
Definition set_statistics (v : Statistics) c : Connection P :=
  mkConnection (cn_key c) (cn_freeInternalSendPackets c) (cn_freeRecvPackets c)
    (cn_lastPacketReceive c) (cn_inFlightQueue c) (cn_recvQueue c) (cn_sendQueue c)
    (cn_freeUserSendPackets c) (cn_connected c) (cn_closed c) (cn_cleanRecvBuffers c)
    (cn_cleanSendBuffers c) (cn_connectionState c) v (cn_sendUserData c) (cn_destinationId c)
    (cn_notified c).
Definition set_sendUserData (v : list P) c : Connection P :=
  mkConnection (cn_key c) (cn_freeInternalSendPackets c) (cn_freeRecvPackets c)
    (cn_lastPacketReceive c) (cn_inFlightQueue c) (cn_recvQueue c) (cn_sendQueue c)
    (cn_freeUserSendPackets c) (cn_connected c) (cn_closed c) (cn_cleanRecvBuffers c)
    (cn_cleanSendBuffers c) (cn_connectionState c) (cn_statistics c) v (cn_destinationId c)
    (cn_notified c).
Definition set_destinationId (v : Z) c : Connection P :=
  mkConnection (cn_key c) (cn_freeInternalSendPackets c) (cn_freeRecvPackets c)
    (cn_lastPacketReceive c) (cn_inFlightQueue c) (cn_recvQueue c) (cn_sendQueue c)
    (cn_freeUserSendPackets c) (cn_connected c) (cn_closed c) (cn_cleanRecvBuffers c)
    (cn_cleanSendBuffers c) (cn_connectionState c) (cn_statistics c) (cn_sendUserData c) v
    (cn_notified c).
Definition set_notified (v : nat) c : Connection P :=
  mkConnection (cn_key c) (cn_freeInternalSendPackets c) (cn_freeRecvPackets c)
    (cn_lastPacketReceive c) (cn_inFlightQueue c) (cn_recvQueue c) (cn_sendQueue c)
    (cn_freeUserSendPackets c) (cn_connected c) (cn_closed c) (cn_cleanRecvBuffers c)
    (cn_cleanSendBuffers c) (cn_connectionState c) (cn_statistics c) (cn_sendUserData c)
    (cn_destinationId c) v.
End Setters.

Section Operations.
Context {P : Type} `{!IPacket P}.
Implicit Types (c : Connection P) (packet : P) (packets free : list P) (now : Z) (stop : bool).

(** *** Connection.cpp *)

(** The controller of a new connection is subscribed to fresh settings. *)
Definition new_controller now epoch : SpeedController :=
  SpeedController.SettingsChanged MinSpeed 0
    (SpeedController.SettingsChanged MaxSpeed (2 ^ 64 - 1) (SpeedController.make now epoch)).

Definition make (state : ConnectionState) (addr : ConnectionAddr) (myID : Z) now : Connection P :=
  mkConnection (ConnectionKey.make addr myID) [] [] now (InFlightQueue.make (new_controller now now))
    RecvQueue.make SendQueue.make [] false false false false state Statistics.make [] 0 0.

Definition NotifySendPacketsEvent c : Connection P := set_notified (S (cn_notified c)) c.

Definition IsConnected c : bool := cn_connected c.
Definition SetConnected (connected : bool) c : Connection P := set_connected connected c.
Definition GetStatistics c : Statistics := cn_statistics c.
Definition count (f : Statistics → Statistics) c : Connection P := set_statistics (f (cn_statistics c)) c.

Definition GetID c : Z := ConnectionKey.GetID (cn_key c).
Definition GetAddr c : ConnectionAddr := ConnectionKey.GetDestinaionAddr (cn_key c).

Definition IsClosed c : bool := cn_closed c.

(** Hand over a list filled by [Wait] and [LockedSwap]. *)
Definition wait_swap stop (l : list P) (closed : bool) : option (list P) :=
  match LockedList.WaitPredicate stop closed l with
  | LockedList.Returns true => Some l
  | LockedList.Returns false => Some []
  | LockedList.Blocks => None
  end.

Definition GetFreeSendPackets stop c : option (list P) * Connection P :=
  match LockedList.WaitPredicate stop (IsClosed c) (cn_freeUserSendPackets c) with
  | LockedList.Returns true => (Some (cn_freeUserSendPackets c), set_freeUserSendPackets [] c)
  | LockedList.Returns false => (Some [], c)
  | LockedList.Blocks => (None, c)
  end.

(** The loop that resets the payload size of packets given back. *)
Definition reset_sizes packets : list P := SetPayloadSize (Z.of_nat MaxPayloadSize) <$> packets.

Definition TryGetFreeSendPackets c : list P * Connection P :=
  (reset_sizes (cn_freeUserSendPackets c), set_freeUserSendPackets [] c).

Definition Send (data : list P) c : Connection P :=
  match data with
  | [] => c
  | _ => NotifySendPacketsEvent (set_sendUserData (LockedList.LockedSplice data (cn_sendUserData c)) c)
  end.

Definition Send2 stop (data : list P) c : option (list P) * Connection P :=
  let c := match data with [] => c
           | _ => set_sendUserData (LockedList.LockedSplice data (cn_sendUserData c)) c end in
  let c := NotifySendPacketsEvent c in
  let '(result, c) := GetFreeSendPackets stop c in
  (reset_sizes <$> result, c).

(** [Recv(stop, freePackets)]. *)
Definition Recv stop free c : option (list P) * Connection P :=
  let c := match free with [] => c
           | _ => set_freeRecvPackets (LockedList.LockedSplice free (cn_freeRecvPackets c)) c end in
  let rq := cn_recvQueue c in
  match LockedList.WaitPredicate stop (IsClosed c) (RecvQueue.GetUserData rq) with
  | LockedList.Returns true => (Some (RecvQueue.GetUserData rq), set_recvQueue (RecvQueue.set_user_data [] rq) c)
  | LockedList.Returns false => (Some [], c)
  | LockedList.Blocks => (None, c)
  end.

(** One turn of the loop of [Recv(size, stop, freePackets)]: the size still wanted
    and the packets taken. *)
Definition Recv_turn (size : nat) (closed : bool) (data : list P) : nat * list P * list P :=
  if LockedList.WaitForPredicate closed data then
    let '(packets, data) := LockedList.LockedTryGenerate size data in
    (size - length packets, packets, data)%nat
  else (size, [], data).

(** [Recv(size, stop, freePackets)]: turn [i] finds the stop token in state [stop i]
    and [arrived i] new packets in the user data. *)
Fixpoint Recv_loop (fuel : nat) (size : nat) (stop : nat → bool) (arrived : nat → list P) (closed : bool)
    (data result : list P) : res (list P * list P) :=
  if (0 <? size)%nat && negb (stop 0%nat) then
    match fuel with
    | O => Err OutOfFuel
    | S fuel =>
        let '(size, packets, data) := Recv_turn size closed (data ++ arrived 0%nat) in
        Recv_loop fuel size (λ i, stop (S i)) (λ i, arrived (S i)) closed data (result ++ packets)
    end
  else Ret (result, data).

Definition AddFreeRecvPackets free c : Connection P :=
  match free with [] => c
  | _ => set_freeRecvPackets (LockedList.LockedSplice (reset_sizes free) (cn_freeRecvPackets c)) c end.

Definition AddFreeSendPackets free c : Connection P :=
  set_freeUserSendPackets (LockedList.LockedSplice (reset_sizes free) (cn_freeUserSendPackets c)) c.

(** [AddFreeUserSendPackets]; its [NotifyAll] is part of [LockedList]'s protocol. *)
Definition AddFreeUserSendPackets free c : Connection P :=
  match free with [] => c
  | _ => set_freeUserSendPackets (LockedList.LockedSplice (reset_sizes free) (cn_freeUserSendPackets c)) c end.

Definition Close c : Connection P := set_closed true c.

Definition CanBeDeleted c : bool := cn_cleanRecvBuffers c && cn_cleanSendBuffers c.

Definition GetPacketsToSend now c : res (list (OutgoingPacket P) * Connection P) :=
  let '(servicePackets, sq) := SendQueue.GetServicePacketsToSend (cn_sendQueue c) in
  let c := set_sendQueue sq c in
  '(size, ifq) ← InFlightQueue.GetNumberPacketToSend now (cn_inFlightQueue c);
  let c := set_inFlightQueue ifq c in
  if size =? 0 then mret (servicePackets, c) else
  '(dataPackets, sq) ← SendQueue.GetPacketsToSend size (cn_sendQueue c);
  let n := Z.of_nat (length dataPackets) in
  assert_that (n <=? size);;
  let size := size - n in
  let c := set_sendQueue sq c in
  let c := set_inFlightQueue
    (InFlightQueue.RevertNumberPacketToSend (match dataPackets with [] => size | _ => 0 end)
       (cn_inFlightQueue c)) c in
  let c := count (Statistics.AddSendPackets n) c in
  mret (servicePackets ++ dataPackets, c).

Definition SetInternalFreePackets (freeInternal freeRecv : list P) c : Connection P :=
  set_freeRecvPackets (LockedList.LockedSplice freeRecv (cn_freeRecvPackets c))
    (set_freeInternalSendPackets (cn_freeInternalSendPackets c ++ freeInternal) c).

Definition ProcessSentPackets now (packets : list (OutgoingPacket P)) c : Connection P :=
  let '(internal, free, ifq) := InFlightQueue.AddQueue now packets (cn_inFlightQueue c) in
  let c := set_inFlightQueue ifq c in
  let c := set_freeInternalSendPackets (cn_freeInternalSendPackets c ++ internal) c in
  match free with [] => c
  | _ => set_freeUserSendPackets (LockedList.LockedSplice (reset_sizes free) (cn_freeUserSendPackets c)) c end.

Definition ProcessRecvPackets c : res (Connection P) :=
  if IsClosed c then Ret c else
  rq ← RecvQueue.ProccessUnorderedPackets (cn_recvQueue c); mret (set_recvQueue rq c).

Definition SendServicePackets packets c : Connection P :=
  let c := count (Statistics.AddAckSendPackets (Z.of_nat (length packets))) c in
  NotifySendPacketsEvent (set_sendQueue (SendQueue.SendPackets packets false (cn_sendQueue c)) c).

Definition SendDataPackets packets c : Connection P :=
  NotifySendPacketsEvent (set_sendQueue (SendQueue.SendPackets packets true (cn_sendQueue c)) c).

(** The packet given back, if any. *)
Definition RecvPacket packet c : res (option P * Connection P) :=
  '(status, freePacket, rq) ← RecvQueue.AddPacket packet (cn_recvQueue c);
  let c := set_recvQueue rq c in
  match status with
  | RQ_Full => mret (freePacket, count Statistics.AddOverflowPackets c)
  | RQ_Duplicated => mret (freePacket, count Statistics.AddDuplicatePackets c)
  | RQ_New => mret (freePacket, count Statistics.AddReceivedPackets c)
  | RQ_Invalid => Err (Throws "Unknown RecvQueueStatus")
  end.

Definition ReSendPackets (packets : list (OutgoingPacket P)) c : Connection P :=
  let c := count (Statistics.AddLostPackets (Z.of_nat (length packets))) c in
  NotifySendPacketsEvent (set_sendQueue (SendQueue.ReSendPackets packets (cn_sendQueue c)) c).

Definition ProcessAcks (now : nat → Z) c : list P * Connection P :=
  let '(free, ifq) := InFlightQueue.ProcessAcks now (cn_inFlightQueue c) in (free, set_inFlightQueue ifq c).

Definition CheckTimeouts (now : nat → Z) c : list (OutgoingPacket P) * Connection P :=
  let '(out, ifq) := InFlightQueue.CheckTimeouts now (cn_inFlightQueue c) in (out, set_inFlightQueue ifq c).

Definition AddAcks (acks : list Z) c : Connection P :=
  let c := count Statistics.AddAckReceivedPackets c in
  set_inFlightQueue (InFlightQueue.AddAcks acks (cn_inFlightQueue c)) c.

Definition SetLastAck (ack : Z) c : Connection P :=
  set_inFlightQueue (InFlightQueue.SetLastAck ack (cn_inFlightQueue c)) c.

Definition GetSendUserData c : list P * Connection P := (cn_sendUserData c, set_sendUserData [] c).

Definition SetDestinationID (id : Z) c : Connection P := set_destinationId id c.
Definition GetDestinationID c : Z := cn_destinationId c.

Definition GetFreeRecvPackets c : list P * Connection P := (cn_freeRecvPackets c, set_freeRecvPackets [] c).
Definition CleanFreeRecvPackets c : list P * Connection P := GetFreeRecvPackets (set_cleanRecvBuffers true c).

Definition CleanFreeSendPackets c : list P * Connection P :=
  let c := set_cleanSendBuffers true c in
  let '(free, ifq) := InFlightQueue.GetAllPackets (cn_inFlightQueue c) in (free, set_inFlightQueue ifq c).

Definition GetFreeSendPacket c : option P * Connection P :=
  match last (cn_freeInternalSendPackets c) with
  | None => (None, c)
  | Some packet =>
      (Some packet,
       set_freeInternalSendPackets
         (take (pred (length (cn_freeInternalSendPackets c))) (cn_freeInternalSendPackets c)) c)
  end.

End Operations.
End Connection.

(** ** IConnectionState.cpp *)

(** A state is its five methods. *)
Class IConnectionState (P : Type) := mkIConnectionState {
  is_OnRecvPackets : P → Connection P → res (ConnectionState * list P * Connection P);
  is_SendPackets : (nat → Z) → Connection P → res (ConnectionState * Connection P);
  is_OnTimeOut : Connection P → res (ConnectionState * Connection P);
  is_GetTimeout : Z;
  is_ProcessInflightPackets : (nat → Z) → Connection P → Connection P;
}.
Arguments mkIConnectionState {_} _ _ _ _ _.

Module BasicConnectionState.
Section Operations.
Context {P : Type} `{!IPacket P}.
Definition OnRecvPackets (packet : P) (c : Connection P) : res (ConnectionState * list P * Connection P) :=
  Err (Throws "Not implemented").
Definition SendPackets (now : nat → Z) (c : Connection P) : res (ConnectionState * Connection P) :=
  Err (Throws "Not implemented").
Definition OnTimeOut (c : Connection P) : res (ConnectionState * Connection P) :=
  Err (Throws "Not implemented").
Definition GetTimeout : Z := seconds 30.
Definition ProcessInflightPackets (now : nat → Z) (c : Connection P) : Connection P :=
  let '(free, c) := Connection.ProcessAcks now c in Connection.AddFreeUserSendPackets free c.
End Operations.
End BasicConnectionState.

(** A handshake packet: its fields in the order the code sets them. *)
Module SendingSynState.
Section Operations.
Context {P : Type} `{!IPacket P}.
Definition SendPackets (now : nat → Z) (c : Connection P) : res (ConnectionState * Connection P) :=
  let '(synPacket, c) := Connection.GetFreeSendPacket c in
  match synPacket with
  | None => mret (SendingSynState, c)
  | Some synPacket =>
      let p := SetPacketType Syn synPacket in
      let p := SetSrcConnectionID (Connection.GetID c) p in
      let p := SetAddr (Connection.GetAddr c) p in
      p ← SetPayload [] p;
      mret (WaitingSynAckState, Connection.SendServicePackets [p] c)
  end.
End Operations.
End SendingSynState.

Module WaitingSynState.
Section Operations.
Context {P : Type} `{!IPacket P}.
Definition OnRecvPackets (packet : P) (c : Connection P) : res (ConnectionState * list P * Connection P) :=
  if negb (IsValid packet) then mret (WaitingSynState, [packet], Connection.Close c)
  else if decide (GetPacketType packet = Syn) then
    mret (SendingSynAckState, [packet], Connection.SetDestinationID (GetSrcConnectionID packet) c)
  else Err (Throws "Wrong packet type").
End Operations.
End WaitingSynState.

Module SendingSynAckState.
Section Operations.
Context {P : Type} `{!IPacket P}.
Definition SendPackets (now : nat → Z) (c : Connection P) : res (ConnectionState * Connection P) :=
  let '(synPacket, c) := Connection.GetFreeSendPacket c in
  match synPacket with
  | None => mret (SendingSynAckState, c)
  | Some synPacket =>
      let p := SetPacketType SynAck synPacket in
      let p := SetDstConnectionID (Connection.GetDestinationID c) p in
      let p := SetSrcConnectionID (Connection.GetID c) p in
      let p := SetAddr (Connection.GetAddr c) p in
      p ← SetPayload [] p;
      mret (DataState, Connection.SendServicePackets [p] c)
  end.
End Operations.
End SendingSynAckState.

Module WaitingSynAckState.
Section Operations.
Context {P : Type} `{!IPacket P}.
Definition OnRecvPackets (packet : P) (c : Connection P) : res (ConnectionState * list P * Connection P) :=
  if negb (IsValid packet) then mret (WaitingSynAckState, [packet], Connection.Close c)
  else
    match GetPacketType packet with
    | SynAck =>
        let c := Connection.SetDestinationID (GetSrcConnectionID packet) c in
        mret (DataState, [packet], Connection.SetConnected true c)
    | Data =>
        let c := Connection.SetDestinationID (GetSrcConnectionID packet) c in
        let c := Connection.SetConnected true c in
        '(freeRecvPacket, c) ← Connection.RecvPacket packet c;
        mret (DataState, option_list freeRecvPacket, c)
    | _ => Err (Throws "Wrong packet type")
    end.
Definition SendPackets (now : nat → Z) (c : Connection P) : res (ConnectionState * Connection P) :=
  mret (WaitingSynAckState, c).
Definition OnTimeOut (c : Connection P) : res (ConnectionState * Connection P) := mret (SendingSynState, c).
End Operations.
End WaitingSynAckState.

Module DataState.
Section Operations.
Context {P : Type} `{!IPacket P}.
Implicit Types (c : Connection P).

(** The inner loop of [SendPackets]: fill one packet from [acks]. *)
Fixpoint fill_acks (lastAck : Z) (acks packetAcks : list Z) : list Z * list Z :=
  match acks with
  | [] => (packetAcks, [])
  | a :: rest =>
      if (length packetAcks <? MaxAcksSize)%nat then
        fill_acks lastAck rest (if lastAck <=? a then packetAcks ++ [a] else packetAcks)
      else (packetAcks, acks)
  end.

(** The outer loop; every turn uses up at least one acknowledgement. *)
Fixpoint send_acks (fuel : nat) (lastAck : Z) (acks : list Z) c : res (Connection P) :=
  match acks with
  | [] => Ret c
  | _ =>
      match fuel with
      | O => Err OutOfFuel
      | S fuel =>
          let '(packet, c) := Connection.GetFreeSendPacket c in
          match packet with
          | None => Ret c
          | Some packet =>
              let p := SetPacketType Sack packet in
              let p := SetSrcConnectionID (Connection.GetID c) p in
              let p := SetDstConnectionID (Connection.GetDestinationID c) p in
              let p := SetAckNumber (RecvQueue.GetLastAck (cn_recvQueue c)) p in
              let p := SetAddr (Connection.GetAddr c) p in
              let '(packetAcks, acks) := fill_acks lastAck acks [] in
              p ← SetAcks packetAcks p;
              send_acks fuel lastAck acks (Connection.SendServicePackets [p] c)
          end
      end
  end.

Definition stamp_data c (packet : P) : P :=
  let p := SetPacketType Data packet in
  let p := SetSrcConnectionID (Connection.GetID c) p in
  let p := SetDstConnectionID (Connection.GetDestinationID c) p in
  SetAddr (Connection.GetAddr c) p.

Definition SendPackets (now : nat → Z) c : res (ConnectionState * Connection P) :=
  let '(acks, rq) := RecvQueue.GetSelectiveAcks (cn_recvQueue c) in
  let c := Connection.set_recvQueue rq c in
  let lastAck := RecvQueue.GetLastAck (cn_recvQueue c) in
  c ← send_acks (length acks) lastAck acks c;
  let '(packets, c) := Connection.CheckTimeouts now c in
  let c := match packets with [] => c | _ => Connection.ReSendPackets packets c end in
  let '(userData, c) := Connection.GetSendUserData c in
  let c := match userData with [] => c | _ => Connection.SendDataPackets (stamp_data c <$> userData) c end in
  mret (DataState, c).

Definition OnRecvPackets (packet : P) c : res (ConnectionState * list P * Connection P) :=
  match GetPacketType packet with
  | SynAck => mret (DataState, [packet], c)
  | Sack =>
      let c := Connection.SetLastAck (GetAckNumber packet) c in
      acks ← GetAcks packet;
      mret (DataState, [packet], Connection.AddAcks acks c)
  | Data =>
      let c := Connection.SetLastAck (GetAckNumber packet) c in
      '(freePacket, c) ← Connection.RecvPacket packet c;
      mret (DataState, option_list freePacket, c)
  | _ => Err (Throws "Wrong packety type")
  end.

Definition OnTimeOut c : res (ConnectionState * Connection P) := mret (DataState, Connection.Close c).
Definition GetTimeout : Z := seconds 300.

End Operations.
End DataState.

(** The map [_states]: each state with what it overrides of [BasicConnectionState]. *)
Definition states {P} `{!IPacket P} (s : ConnectionState) : IConnectionState P :=
  let B := @BasicConnectionState.OnRecvPackets P in
  let T := @BasicConnectionState.OnTimeOut P in
  let I := @BasicConnectionState.ProcessInflightPackets P _ in
  let t := BasicConnectionState.GetTimeout in
  match s with
  | SendingSynState => mkIConnectionState B SendingSynState.SendPackets T t I
  | WaitingSynState => mkIConnectionState WaitingSynState.OnRecvPackets BasicConnectionState.SendPackets T t I
  | WaitingSynAckState =>
      mkIConnectionState WaitingSynAckState.OnRecvPackets WaitingSynAckState.SendPackets
        WaitingSynAckState.OnTimeOut t I
  | SendingSynAckState => mkIConnectionState B SendingSynAckState.SendPackets T t I
  | DataState =>
      mkIConnectionState DataState.OnRecvPackets DataState.SendPackets DataState.OnTimeOut DataState.GetTimeout I
  | ClosingState | ClosedState => mkIConnectionState B BasicConnectionState.SendPackets T t I
  end.

Module ConnectionRun.
Section Operations.
Context {P : Type} `{!IPacket P}.
Implicit Types (c : Connection P).

(** [Connection::OnRecvPackets]. *)
Definition OnRecvPackets (now : Z) (packet : P) c : res (list P * Connection P) :=
  let c := Connection.set_lastPacketReceive now c in
  '(connectionState, freePackets, c) ← @is_OnRecvPackets _ (states (cn_connectionState c)) packet c;
  let c := Connection.set_connectionState connectionState c in
  let '(temp, c) := Connection.GetFreeRecvPackets c in
  mret (freePackets ++ temp, Connection.NotifySendPacketsEvent c).

(** [Connection::Run]; [now 0] is compared with the last packet. *)
Definition Run (now : nat → Z) c : res (Connection P) :=
  let st := states (cn_connectionState c) in
  if @is_GetTimeout P st <? now 0%nat - cn_lastPacketReceive c then
    '(s, c) ← @is_OnTimeOut P st c;
    mret (Connection.set_lastPacketReceive (now 1%nat) (Connection.set_connectionState s c))
  else
    '(s, c) ← @is_SendPackets P st now c;
    mret (@is_ProcessInflightPackets P st now (Connection.set_connectionState s c)).

(** [ListenState::Listen]. *)
Definition Listen (now : Z) (packet : P) (myID : Z) : res (option (Connection P) * list P) :=
  if decide (GetPacketType packet = Syn) then
    '(freePackets, c) ← OnRecvPackets now packet (Connection.make WaitingSynState (GetDstAddr packet) myID now);
    mret (Some c, freePackets)
  else mret (None, []).

End Operations.
End ConnectionRun.

(** ** Correctness *)

Section Handshake.
Context {P : Type} `{!IPacket P, !IPacketLaws P}.
Implicit Types (c : Connection P) (p q : P).

(** What a handshake packet tells its receiver. *)
Record Greets (p : P) (t : PacketType) (src : Z) (addr : ConnectionAddr) : Prop := {
  gr_ok : PacketOk p;
  gr_valid : IsValid p = true;
  gr_type : GetPacketType p = t;
  gr_src : GetSrcConnectionID p = src;
  gr_addr : GetDstAddr p = addr;
  gr_empty : GetPayloadLength p = 0;
}.

Lemma v_write_nil v : v_write [] v = Ret v.
Proof. by destruct v. Qed.

(** An empty payload always fits. *)
Lemma SetPayload_nil p :
  PacketOk p → ∃ q, SetPayload [] p = Ret q ∧ PacketOk q ∧ view q = v_SetPayloadSize 0 (view p).
Proof.
  intros H. pose proof (view_SetPayload [] p H) as HS. destruct (SetPayload [] p) as [q|f].
  - destruct HS as [Hq HV]. exists q. split; [done|]. split; [done|]. rewrite v_write_nil in HV.
    by apply (inj Ret) in HV.
  - destruct HS as [_ HS]. cbn in HS. lia.
Qed.

(** [SendPackets] of the send queue completes a packet. *)
Lemma sent_greets p n t src addr :
  PacketOk p → GetPacketType p = t → GetSrcConnectionID p = src → GetDstAddr p = addr →
  GetPayloadLength p = 0 → Greets (SetSeqNumber n (SetMagic p)) t src addr.
Proof.
  intros [H E1]%view_SetMagic. destruct (view_SetSeqNumber n _ H) as [H' E2]. rewrite E1 in E2.
  unfold view in E2. cbn in E2. injection E2. intros. split; congruence.
Qed.

Lemma syn_greets p id addr :
  PacketOk p → 0 ≤ id < 2 ^ 16 →
  ∃ q, SetPayload [] (SetAddr addr (SetSrcConnectionID id (SetPacketType Syn p))) = Ret q ∧
    PacketOk q ∧ ∀ n, Greets (SetSeqNumber n (SetMagic q)) Syn id addr.
Proof.
  intros [H1 E1]%(view_SetPacketType Syn) Hid. destruct (view_SetSrcConnectionID id _ H1) as [H2 E2].
  destruct (view_SetAddr addr _ H2) as [H3 E3]. destruct (SetPayload_nil _ H3) as (q & Hq & H4 & E4).
  exists q. do 2 (split; [done|]). intros n. rewrite E3, E2, E1 in E4. unfold view in E4. cbn in E4. injection E4. intros.
  apply sent_greets; try done; rewrite wrap_small in * by lia; done.
Qed.

Lemma synack_greets p id dst addr :
  PacketOk p → 0 ≤ id < 2 ^ 16 →
  ∃ q, SetPayload [] (SetAddr addr (SetSrcConnectionID id (SetDstConnectionID dst (SetPacketType SynAck p)))) = Ret q ∧
    PacketOk q ∧ ∀ n, Greets (SetSeqNumber n (SetMagic q)) SynAck id addr ∧
      GetDstConnectionID (SetSeqNumber n (SetMagic q)) = u16 dst.
Proof.
  intros [H0 E0]%(view_SetPacketType SynAck) Hid. destruct (view_SetDstConnectionID dst _ H0) as [H1 E1].
  destruct (view_SetSrcConnectionID id _ H1) as [H2 E2].
  destruct (view_SetAddr addr _ H2) as [H3 E3]. destruct (SetPayload_nil _ H3) as (q & Hq & H4 & E4).
  exists q. do 2 (split; [done|]). rewrite E3, E2, E1, E0 in E4. unfold view in E4. cbn in E4. injection E4. intros.
  split.
  - apply sent_greets; try done; rewrite (wrap_small 16 id) in * by lia; done.
  - destruct (view_SetMagic _ H4) as [HM EM]. destruct (view_SetSeqNumber n _ HM) as [_ ES]. rewrite EM in ES.
    unfold view in ES. cbn in ES. injection ES. intros. congruence.
Qed.

Lemma GetFreeSendPacket_snoc c l p :
  cn_freeInternalSendPackets c = l ++ [p] →
  Connection.GetFreeSendPacket c = (Some p, Connection.set_freeInternalSendPackets l c).
Proof.
  intros E. unfold Connection.GetFreeSendPacket. rewrite E, last_snoc.
  replace (pred (length (l ++ [p]))) with (length l) by len. by rewrite take_app_length.
Qed.

(** [c1] is [c] with one more service packet queued, which has no number. *)
Definition queued_service (p : P) c c1 : Prop :=
  sq_serviceNeedToSend (cn_sendQueue c1) = sq_serviceNeedToSend (cn_sendQueue c) ++ [OutgoingPacket.make p false] ∧
  sq_needToSend (cn_sendQueue c1) = sq_needToSend (cn_sendQueue c) ∧
  GetSeqNumber p = no_number.

Lemma queued_service_sent p c c' :
  PacketOk p → cn_sendQueue c' = cn_sendQueue c →
  queued_service (SetSeqNumber no_number (SetMagic p)) c (Connection.SendServicePackets [p] c').
Proof.
  intros Hp E. unfold queued_service. cbn. rewrite E. split; [done|]. split; [done|].
  rewrite seq_SetSeqNumber by done. by vm_compute.
Qed.

(** First flight: the opening side sends a Syn. *)
Lemma opening_side c l p id :
  cn_connectionState c = SendingSynState → cn_freeInternalSendPackets c = l ++ [p] → PacketOk p →
  Connection.GetID c = id → 0 ≤ id < 2 ^ 16 →
  ∃ syn c1, SendingSynState.SendPackets (λ _, 0) c = Ret (WaitingSynAckState, c1) ∧
    queued_service syn c c1 ∧ Greets syn Syn id (Connection.GetAddr c) ∧
    cn_freeInternalSendPackets c1 = l ∧ cn_key c1 = cn_key c ∧ cn_destinationId c1 = cn_destinationId c.
Proof.
  intros Hs Hf Hp Hid Hr. unfold SendingSynState.SendPackets. rewrite (GetFreeSendPacket_snoc c l p Hf).
  change (Connection.GetID (Connection.set_freeInternalSendPackets l c)) with (Connection.GetID c).
  change (Connection.GetAddr (Connection.set_freeInternalSendPackets l c)) with (Connection.GetAddr c).
  rewrite Hid. destruct (syn_greets p id (Connection.GetAddr c) Hp Hr) as (q & Eq & Hok & Hq).
  rewrite Eq. cbn [mbind res_bind mret res_ret]. eexists _, _. split; [done|].
  split; [by apply queued_service_sent|]. split; [apply Hq|done].
Qed.

(** Second flight: the listening side learns the peer's id and answers. *)
Lemma listening_side now p id addr myID :
  Greets p Syn id addr →
  ∃ s, ConnectionRun.Listen now p myID = Ret (Some s, [p]) ∧
    cn_connectionState s = SendingSynAckState ∧ cn_destinationId s = id ∧
    cn_key s = ConnectionKey.make addr myID ∧ cn_freeInternalSendPackets s = [].
Proof.
  intros [_ Hv Ht Hsrc Ha _]. unfold ConnectionRun.Listen. rewrite decide_True by done.
  unfold ConnectionRun.OnRecvPackets. cbn [Connection.make cn_connectionState Connection.set_lastPacketReceive
    states is_OnRecvPackets]. unfold WaitingSynState.OnRecvPackets. rewrite Hv. cbn [negb].
  rewrite decide_True by done. cbn. rewrite Ha, Hsrc. eexists. split; [done|]. done.
Qed.

Lemma answering_side s l p id :
  cn_freeInternalSendPackets s = l ++ [p] → PacketOk p → Connection.GetID s = id → 0 ≤ id < 2 ^ 16 →
  ∃ synack s1, SendingSynAckState.SendPackets (λ _, 0) s = Ret (DataState, s1) ∧
    queued_service synack s s1 ∧ Greets synack SynAck id (Connection.GetAddr s) ∧
    GetDstConnectionID synack = u16 (cn_destinationId s) ∧
    cn_freeInternalSendPackets s1 = l ∧ cn_destinationId s1 = cn_destinationId s.
Proof.
  intros Hf Hp Hid Hr. unfold SendingSynAckState.SendPackets. rewrite (GetFreeSendPacket_snoc s l p Hf).
  change (Connection.GetID (Connection.set_freeInternalSendPackets l s)) with (Connection.GetID s).
  change (Connection.GetAddr (Connection.set_freeInternalSendPackets l s)) with (Connection.GetAddr s).
  rewrite Hid.
  destruct (synack_greets p id (Connection.GetDestinationID (Connection.set_freeInternalSendPackets l s))
    (Connection.GetAddr s) Hp Hr) as (q & Eq & Hok & Hq).
  rewrite Eq. cbn [mbind res_bind mret res_ret]. eexists _, _. split; [done|].
  split; [by apply queued_service_sent|]. split; [apply Hq|]. split; [apply Hq|done].
Qed.

Lemma completing_side now c p id addr :
  cn_connectionState c = WaitingSynAckState → Greets p SynAck id addr →
  ∃ c1, ConnectionRun.OnRecvPackets now p c = Ret (p :: cn_freeRecvPackets c, c1) ∧
    cn_connectionState c1 = DataState ∧ cn_connected c1 = true ∧ cn_destinationId c1 = id.
Proof.
  intros Hs [_ Hv Ht Hsrc Ha _]. unfold ConnectionRun.OnRecvPackets.
  cbn [Connection.set_lastPacketReceive cn_connectionState]. rewrite Hs. cbn [states is_OnRecvPackets].
  unfold WaitingSynAckState.OnRecvPackets. rewrite Hv, Ht. cbn [negb]. rewrite Hsrc.
  cbn. eexists. split; [done|]. done.
Qed.

(** C17: the handshake takes two packets.  The opening side queues one Syn, from a free
    packet, with its own id and the peer's address and no sequence number; a listening side
    that receives such a Syn makes a connection that knows the opener's id and queues one
    SynAck, addressed to that id and with its own id; received back, it puts the opening side
    too in [DataState], each side knowing the other's connection id. *)
Theorem handshake_completes c l p id sid ps now1 now2 addr1 addr2 :
  cn_connectionState c = SendingSynState → cn_freeInternalSendPackets c = l ++ [p] → PacketOk p →
  Connection.GetID c = id → 0 ≤ id < 2 ^ 16 → 0 ≤ sid < 2 ^ 16 → PacketOk ps →
  ∃ syn c1, SendingSynState.SendPackets (λ _, 0) c = Ret (WaitingSynAckState, c1) ∧
    queued_service syn c c1 ∧ cn_freeInternalSendPackets c1 = l ∧ Greets syn Syn id (Connection.GetAddr c) ∧
    ∀ syn', Greets syn' Syn id addr1 →
    ∃ s, ConnectionRun.Listen now1 syn' sid = Ret (Some s, [syn']) ∧
      cn_connectionState s = SendingSynAckState ∧ cn_destinationId s = id ∧
      ∃ synack s1,
        SendingSynAckState.SendPackets (λ _, 0) (Connection.SetInternalFreePackets [ps] [] s) = Ret (DataState, s1) ∧
        queued_service synack s s1 ∧ cn_freeInternalSendPackets s1 = [] ∧
        Greets synack SynAck sid addr1 ∧ GetDstConnectionID synack = id ∧ cn_destinationId s1 = id ∧
        ∀ synack', Greets synack' SynAck sid addr2 →
        ∃ free c2, ConnectionRun.OnRecvPackets now2 synack' (Connection.set_connectionState WaitingSynAckState c1) =
            Ret (synack' :: free, c2) ∧
          cn_connectionState c2 = DataState ∧ cn_connected c2 = true ∧ cn_destinationId c2 = sid.
Proof.
  intros Hs Hf Hp Hid Hr Hsr Hps.
  destruct (opening_side c l p id Hs Hf Hp Hid Hr) as (syn & c1 & H1 & H2 & H3 & Hl1 & _).
  exists syn, c1. do 4 (split; [done|]). intros syn' Hsyn.
  destruct (listening_side now1 syn' id addr1 sid Hsyn) as (s & Hl & Hst & Hd & Hk & Hfs).
  exists s. do 3 (split; [done|]).
  destruct (answering_side (Connection.SetInternalFreePackets [ps] [] s) [] ps sid)
    as (synack & s1 & H4 & H5 & H6 & H7 & H8 & H9);
    [by cbn; rewrite Hfs|done|unfold Connection.GetID; cbn; rewrite Hk; cbn; by rewrite ?wrap_small by lia|done|].
  exists synack, s1. do 3 (split; [done|]). split.
  { replace addr1 with (Connection.GetAddr (Connection.SetInternalFreePackets [ps] [] s)); [done|].
    unfold Connection.GetAddr. cbn. by rewrite Hk. }
  split; [rewrite H7; cbn; by rewrite Hd, wrap_small by lia|]. split; [by rewrite H9|]. intros synack' Hsa.
  destruct (completing_side now2 (Connection.set_connectionState WaitingSynAckState c1) synack' sid addr2 eq_refl Hsa)
    as (c2 & H10 & H11). eauto.
Qed.

(** a packet whose type a state does not expect makes the handler throw: any packet
    in a state that only sends, and in [DataState] and [WaitingSynAckState] every type
    but the few listed. *)
Theorem unexpected_packet_throws now p c :
  (cn_connectionState c ∈ [SendingSynState; SendingSynAckState; ClosingState; ClosedState] ∨
   cn_connectionState c = DataState ∧ GetPacketType p ∉ [SynAck; Sack; Data] ∨
   cn_connectionState c = WaitingSynAckState ∧ IsValid p = true ∧ GetPacketType p ∉ [SynAck; Data]) →
  ∃ what, ConnectionRun.OnRecvPackets now p c = Err (Throws what).
Proof.
  intros H. unfold ConnectionRun.OnRecvPackets. cbn [Connection.set_lastPacketReceive cn_connectionState].
  destruct H as [H|[[-> H]|(-> & Hv & H)]].
  - repeat (apply elem_of_cons in H as [->|H]; [eexists; reflexivity|]). by apply elem_of_nil in H.
  - cbn [states is_OnRecvPackets]. unfold DataState.OnRecvPackets.
    destruct (GetPacketType p); try (eexists; reflexivity); exfalso; apply H; set_solver.
  - cbn [states is_OnRecvPackets]. unfold WaitingSynAckState.OnRecvPackets. rewrite Hv. cbn [negb].
    destruct (GetPacketType p); try (eexists; reflexivity); exfalso; apply H; set_solver.
Qed.

(** [Run] in two steps: the send thread reads the state and works, and stores the next
    state; the receive thread may store one in between. *)
Definition Run_store (read : ConnectionState) (now : nat → Z) c : res (Connection P) :=
  '(s, c) ← @is_SendPackets P (states read) now c;
  mret (@is_ProcessInflightPackets P (states read) now (Connection.set_connectionState s c)).

Lemma ProcessInflightPackets_keeps now c :
  cn_connectionState (BasicConnectionState.ProcessInflightPackets now c) = cn_connectionState c ∧
  cn_connected (BasicConnectionState.ProcessInflightPackets now c) = cn_connected c.
Proof.
  unfold BasicConnectionState.ProcessInflightPackets, Connection.ProcessAcks.
  destruct (InFlightQueue.ProcessAcks _ _) as [free q]. by destruct free.
Qed.

(** the state can be lost between the threads: when the SynAck is handled while the
    send thread is in [Run], the connection is connected but falls back to
    [WaitingSynAckState]. *)
Theorem run_overwrites_state now1 now c p id addr :
  cn_connectionState c = WaitingSynAckState → Greets p SynAck id addr →
  ∃ free c1 c2, ConnectionRun.OnRecvPackets now1 p c = Ret (free, c1) ∧
    cn_connectionState c1 = DataState ∧
    Run_store (cn_connectionState c) now c1 = Ret c2 ∧
    cn_connectionState c2 = WaitingSynAckState ∧ cn_connected c2 = true.
Proof.
  intros Hs Hg. destruct (completing_side now1 c p id addr Hs Hg) as (c1 & E & H1 & H2 & H3).
  eexists _, c1, _. split; [done|]. split; [done|]. rewrite Hs.
  split; [reflexivity|]. cbn [states is_ProcessInflightPackets].
  by rewrite !(proj1 (ProcessInflightPackets_keeps _ _)), (proj2 (ProcessInflightPackets_keeps _ _)).
Qed.

End Handshake.

Section DataTransfer.
Context {P : Type} `{!IPacket P, !IPacketLaws P}.
Implicit Types (c : Connection P) (p q : P) (acks : list Z).

Lemma fill_acks_spec lastAck acks : ∀ picked,
  (length picked ≤ MaxAcksSize)%nat →
  let '(picked', rest) := DataState.fill_acks lastAck acks picked in
  ∃ taken, acks = taken ++ rest ∧ picked' = picked ++ filter (λ a, lastAck ≤ a) taken ∧
    (length picked' ≤ MaxAcksSize)%nat ∧ (length picked < MaxAcksSize → acks ≠ [] → taken ≠ [])%nat.
Proof.
  induction acks as [|a acks IH]; intros picked Hl; cbn [DataState.fill_acks].
  { exists []. cbn. by rewrite app_nil_r. }
  destruct (Nat.ltb_spec (length picked) MaxAcksSize) as [Hlt|Hge].
  2: { exists []. cbn. rewrite app_nil_r. repeat split; try done. lia. }
  specialize (IH (if lastAck <=? a then picked ++ [a] else picked)).
  destruct (DataState.fill_acks lastAck acks _) as [picked' rest].
  destruct IH as (taken & -> & -> & Hl' & _); [case_match; len|].
  exists (a :: taken). split; [done|]. split; [|done]. rewrite filter_cons.
  destruct (Z.leb_spec lastAck a); [rewrite decide_True by done|rewrite decide_False by lia]; [|done].
  by rewrite <- app_assoc.
Qed.

(** A packet with acknowledgements, as it is queued. *)
Record Acknowledges (p : P) (src dst ack : Z) (acks : list Z) : Prop := {
  ak_ok : PacketOk p;
  ak_valid : IsValid p = true;
  ak_type : GetPacketType p = Sack;
  ak_src : GetSrcConnectionID p = src;
  ak_dst : GetDstConnectionID p = dst;
  ak_number : GetAckNumber p = ack;
  ak_acks : GetAcks p = Ret acks;
}.

(** Free packets have a buffer with room for the largest list of acknowledgements. *)
Definition roomy p : Prop := PacketOk p ∧ (4 * MaxAcksSize ≤ length (v_body (view p)))%nat.

Lemma sack_acknowledges p src dst ack addr acks :
  roomy p → (length acks ≤ MaxAcksSize)%nat → Forall (λ a, 0 ≤ a < 2 ^ 32) acks →
  0 ≤ src < 2 ^ 16 → 0 ≤ dst < 2 ^ 16 → 0 ≤ ack < 2 ^ 32 →
  ∃ q, SetAcks acks (SetAddr addr (SetAckNumber ack (SetDstConnectionID dst
         (SetSrcConnectionID src (SetPacketType Sack p))))) = Ret q ∧
    ∀ n, Acknowledges (SetSeqNumber n (SetMagic q)) src dst ack acks.
Proof.
  intros [H0 Hroom] Hl Hr Hsrc Hdst Hack. destruct (view_SetPacketType Sack p H0) as [H1 E1].
  destruct (view_SetSrcConnectionID src _ H1) as [H2 E2]. destruct (view_SetDstConnectionID dst _ H2) as [H3 E3].
  destruct (view_SetAckNumber ack _ H3) as [H4 E4]. destruct (view_SetAddr addr _ H4) as [H5 E5].
  rewrite E4, E3, E2, E1 in E5.
  destruct (SetAcks_spec acks _ H5 Hl) as (q & sz & bo & Hq & Hok & Hget & HV).
  { rewrite E5. replace (v_body _) with (v_body (view p)) by by destruct (view p). lia. }
  { done. }
  exists q. split; [done|]. intros n. rewrite E5 in HV.
  destruct (view_SetMagic _ Hok) as [H6 E6]. destruct (view_SetSeqNumber n _ H6) as [H7 E7].
  rewrite E6, HV in E7. pose proof (view_GetAcks _ H7) as G. rewrite E7 in G.
  pose proof (view_GetAcks _ Hok) as G'. rewrite HV in G'.
  destruct (view p) as [ok ty sr ds sq ak sz' ad bo']. cbn in E7, G, G'.
  unfold view in E7. injection E7. intros. rewrite wrap_small in * by lia.
  rewrite (wrap_small 16 src) in * by lia. rewrite (wrap_small 16 dst) in * by lia.
  split; try done. rewrite G, <- Hget, G'. done.
Qed.

Definition service c : list (OutgoingPacket P) := sq_serviceNeedToSend (cn_sendQueue c).

(** What [send_acks] keeps of the connection. *)
Definition same_identity c c' : Prop :=
  cn_key c' = cn_key c ∧ cn_destinationId c' = cn_destinationId c ∧ cn_recvQueue c' = cn_recvQueue c.

(** Every acknowledgement that is not covered by the cumulative one is sent, in order,
    in packets of at most [MaxAcksSize], until the free packets run out. *)
Lemma send_acks_spec fuel : ∀ acks c,
  (length acks ≤ fuel)%nat → Forall (λ a, 0 ≤ a < 2 ^ 32) acks →
  Forall roomy (cn_freeInternalSendPackets c) →
  0 ≤ Connection.GetID c < 2 ^ 16 → 0 ≤ cn_destinationId c < 2 ^ 16 →
  let last := RecvQueue.GetLastAck (cn_recvQueue c) in
  ∃ c' sent dropped chunks packets, DataState.send_acks fuel last acks c = Ret c' ∧
    same_identity c c' ∧ acks = sent ++ dropped ∧
    (dropped = [] ∨ cn_freeInternalSendPackets c' = []) ∧
    filter (λ a, last ≤ a) sent = concat chunks ∧ service c' = service c ++ packets ∧
    Forall2 (λ o chunk, op_needAck o = false ∧
      Acknowledges (op_packet o) (Connection.GetID c) (cn_destinationId c) last chunk) packets chunks.
Proof.
  induction fuel as [|fuel IH]; intros acks c Hf Hr Hroom Hid Hdst last.
  { destruct acks; [|cbn in Hf; lia]. exists c, [], [], [], []. cbn. rewrite app_nil_r.
    repeat split; auto. }
  cbn [DataState.send_acks]. destruct acks as [|a acks].
  { exists c, [], [], [], []. cbn. rewrite app_nil_r. repeat split; auto. }
  destruct (cn_freeInternalSendPackets c) as [|p l _] eqn:Efree using rev_ind.
  { unfold Connection.GetFreeSendPacket. rewrite Efree. cbn [last head].
    exists c, [], (a :: acks), [], []. cbn. rewrite app_nil_r. repeat split; auto. }
  rewrite (GetFreeSendPacket_snoc c l p Efree).
  apply Forall_app in Hroom as [Hl [Hp _]%Forall_cons].
  pose proof (fill_acks_spec last (a :: acks) [] ltac:(cbn; lia)) as Hfill.
  unfold last in Hfill |- *. fold last in Hfill |- *.
  destruct (DataState.fill_acks last (a :: acks) []) as [picked rest].
  destruct Hfill as (taken & Etaken & -> & Hlen & Hne). cbn [app] in *.
  specialize (Hne ltac:(unfold MaxAcksSize; cbn; lia) ltac:(done)).
  set (c1 := Connection.set_freeInternalSendPackets l c).
  assert (0 ≤ last < 2 ^ 32) as Hlast by (apply wrap_range; lia).
  rewrite Etaken in Hr. apply Forall_app in Hr as [Hrt Hrr].
  destruct (sack_acknowledges p (Connection.GetID c) (cn_destinationId c) last (Connection.GetAddr c)
    (filter (λ a, last ≤ a) taken) Hp Hlen) as (q & Hq & Hack); [|done..|].
  { apply Forall_forall. intros x [_ Hx]%list_elem_of_filter. by apply (proj1 (Forall_forall _ _) Hrt). }
  change (Connection.GetID c1) with (Connection.GetID c).
  change (Connection.GetDestinationID c1) with (cn_destinationId c).
  change (RecvQueue.GetLastAck (cn_recvQueue c1)) with last.
  change (Connection.GetAddr c1) with (Connection.GetAddr c). rewrite Hq. cbn [mbind res_bind].
  destruct (IH rest (Connection.SendServicePackets [q] c1))
    as (c' & sent & dropped & chunks & packets & E & Hsame & Erest & Hdone & Hfilter & Hserv & Hall); try done.
  { apply (f_equal length) in Etaken. cbn in Etaken. rewrite length_app in Etaken. destruct taken; [done|]. cbn in *. lia. }
  change (RecvQueue.GetLastAck _) with last in Hfilter, Hall.
  exists c', (taken ++ sent), dropped, (filter (λ a, last ≤ a) taken :: chunks),
    (OutgoingPacket.make (SetSeqNumber no_number (SetMagic q)) false :: packets).
  split; [exact E|]. split; [exact Hsame|]. split; [by rewrite <- app_assoc, <- Erest|].
  split; [done|]. split; [rewrite filter_app, concat_cons; by f_equal|].
  split; [rewrite Hserv; unfold service; cbn; by rewrite <- app_assoc|].
  constructor; [|done]. split; [done|]. apply Hack.
Qed.
End DataTransfer.

Section DataStateCorrectness.
Context {P : Type} `{!IPacket P, !IPacketLaws P}.
Implicit Types (c : Connection P) (p q : P) (acks : list Z).

Lemma SendPackets_true_service packets : ∀ s : SendQueue P,
  sq_serviceNeedToSend (SendQueue.SendPackets packets true s) = sq_serviceNeedToSend s.
Proof. induction packets as [|p packets IH]; intros s; [done|]. by rewrite SendPackets_cons, IH. Qed.

(** acknowledging: a turn of [DataState] sends every acknowledgement collected by
    the receive queue that the cumulative one does not cover, in order, in valid
    [Sack] packets of at most [MaxAcksSize] carrying the cumulative one; only when the
    free service packets run out is the rest dropped. *)
Theorem DataState_sends_acks now c :
  Forall (λ a, 0 ≤ a < 2 ^ 32) (rq_selectiveAcks (cn_recvQueue c)) →
  Forall roomy (cn_freeInternalSendPackets c) →
  0 ≤ Connection.GetID c < 2 ^ 16 → 0 ≤ cn_destinationId c < 2 ^ 16 →
  let last := RecvQueue.GetLastAck (cn_recvQueue c) in
  ∃ c' sent dropped chunks packets, DataState.SendPackets now c = Ret (DataState, c') ∧
    rq_selectiveAcks (cn_recvQueue c) = sent ++ dropped ∧
    (dropped = [] ∨ cn_freeInternalSendPackets c' = []) ∧
    filter (λ a, last ≤ a) sent = concat chunks ∧ service c' = service c ++ packets ∧
    Forall2 (λ o chunk, op_needAck o = false ∧
      Acknowledges (op_packet o) (Connection.GetID c) (cn_destinationId c) last chunk) packets chunks.
Proof.
  intros Hr Hroom Hid Hdst last. unfold DataState.SendPackets, RecvQueue.GetSelectiveAcks.
  set (acks := rq_selectiveAcks (cn_recvQueue c)) in *.
  destruct (send_acks_spec (length acks) acks
    (Connection.set_recvQueue (mkRecvQueue (rq_queue (cn_recvQueue c)) (rq_data (cn_recvQueue c)) [] (rq_begin (cn_recvQueue c))) c))
    as (c1 & sent & dropped & chunks & packets & E & Hsame & Eacks & Hdone & Hfilter & Hserv & Hall); try done.
  cbn [Connection.set_recvQueue cn_recvQueue] in E |- *. rewrite E. cbn [mbind res_bind].
  unfold Connection.CheckTimeouts. destruct (InFlightQueue.CheckTimeouts now (cn_inFlightQueue c1)) as [out ifq].
  eexists _, sent, dropped, chunks, packets. split; [done|]. split; [done|].
  assert (∀ c2, cn_freeInternalSendPackets (match out with [] => c2 | _ => Connection.ReSendPackets out c2 end) =
      cn_freeInternalSendPackets c2 ∧
    service (match out with [] => c2 | _ => Connection.ReSendPackets out c2 end) = service c2) as Hresend.
  { intros c2. by destruct out. }
  specialize (Hresend (Connection.set_inFlightQueue ifq c1)).
  destruct (match out with [] => _ | _ => _ end) as [? ? ? ? ? ? ? ? ? ? ? ? ? ? data ? ?]. cbn in Hresend.
  destruct Hresend as [-> Hs2]. unfold service in *. cbn in Hs2. cbn.
  split; [by destruct data|]. split; [done|]. split; [|done].
  etransitivity; [|exact Hserv]. etransitivity; [|exact Hs2].
  destruct data; [done|]. exact (SendPackets_true_service _ _).
Qed.

(** no packet is lost on reception: a packet given to a connection is given back
    with the free packets or kept in the receive queue, in every state. *)
Theorem received_packet_kept_or_returned now p c free c' :
  ConnectionRun.OnRecvPackets now p c = Ret (free, c') →
  p ∈ free ∨ ∃ slot, rq_queue (cn_recvQueue c') !! slot = Some p.
Proof.
  unfold ConnectionRun.OnRecvPackets. cbn [Connection.set_lastPacketReceive cn_connectionState].
  set (c0 := Connection.set_lastPacketReceive now c).
  assert (Hrecv : ∀ c1 r c2, Connection.RecvPacket p c1 = Ret (r, c2) →
    p ∈ option_list r ∨ ∃ slot, rq_queue (cn_recvQueue c2) !! slot = Some p).
  { intros c1 r c2. unfold Connection.RecvPacket, RecvQueue.AddPacket.
    repeat case_match; cbn; intros; inv_res; try (left; by left).
    right. eexists. apply lookup_insert_eq. }
  assert (Hst : ∀ s fr c2, @is_OnRecvPackets P (states (cn_connectionState c)) p c0 = Ret (s, fr, c2) →
    p ∈ fr ∨ ∃ slot, rq_queue (cn_recvQueue c2) !! slot = Some p).
  { intros s fr c2. destruct (cn_connectionState c); cbn [states is_OnRecvPackets]; try discriminate.
    - unfold WaitingSynState.OnRecvPackets. repeat case_match; intros; inv_res; left; by left.
    - unfold WaitingSynAckState.OnRecvPackets. repeat case_match; intros; inv_res; try (left; by left).
      destruct x as [r c3]. inv_res. by eapply Hrecv.
    - unfold DataState.OnRecvPackets. repeat case_match; intros; inv_res; try (left; by left).
      destruct x as [r c3]. inv_res. by eapply Hrecv. }
  intros H. inv_res. destruct x as [[s fr] c2]. cbn in *. inv_res.
  destruct (Hst _ _ _ H) as [Hin|[slot Hs]]; [left; by apply elem_of_app; left|right; by exists slot].
Qed.

(** sending within the allowance: [GetPacketsToSend] never fails its assertion,
    sends all service packets and at most the number of data packets the speed
    controller allows, and keeps the allowance only when there was nothing to send. *)
Theorem GetPacketsToSend_within_allowance now c size ifq :
  InFlightQueue.GetNumberPacketToSend now (cn_inFlightQueue c) = Ret (size, ifq) → 0 ≤ size →
  ∃ out data c', Connection.GetPacketsToSend now c = Ret (out, c') ∧
    out = service c ++ data ∧ service c' = [] ∧ Z.of_nat (length data) ≤ size ∧
    (size ≠ 0 → sc_number (if_speedController (cn_inFlightQueue c')) =
      match data with [] => size | _ => 0 end) ∧
    (data = [] → size ≠ 0 → sq_resendPackets (cn_sendQueue c) = [] ∧ sq_needToSend (cn_sendQueue c) = []).
Proof.
  intros E Hs. unfold Connection.GetPacketsToSend, SendQueue.GetServicePacketsToSend.
  cbn [Connection.set_sendQueue cn_inFlightQueue]. rewrite E. cbn [mbind res_bind].
  destruct (Z.eqb_spec size 0) as [->|Hne].
  { eexists _, [], _. split; [done|]. rewrite app_nil_r. repeat split; try done; lia. }
  cbn [Connection.set_inFlightQueue cn_sendQueue].
  edestruct GetPacketsToSend_splits as (low & resend & n & s' & -> & -> & Hp & _ & Hl & Hn); [exact Hs|].
  cbn [Connection.set_sendQueue Connection.set_inFlightQueue cn_sendQueue sq_resendPackets sq_needToSend] in *.
  cbn [mbind res_bind].
  pose proof (length_take (sq_needToSend (cn_sendQueue c)) n) as Hlt.
  rewrite (proj2 (assert_that_ret _)) by (apply Z.leb_le; rewrite length_app; lia).
  cbn [mbind res_bind]. eexists _, (low ++ take n (sq_needToSend (cn_sendQueue c))), _.
  split; [done|]. split; [done|]. split; [done|]. split; [rewrite length_app; lia|]. split.
  - intros _. cbn. destruct (low ++ take n (sq_needToSend (cn_sendQueue c))); cbn; [|done]. lia.
  - intros [-> Ht]%app_nil _. cbn [length app] in *. split; apply length_zero_iff_nil; [lia|].
    rewrite Ht in Hlt. cbn in Hlt. lia.
Qed.

(** timeouts: after 300 s of silence [Run] closes a connection in [DataState];
    after 30 s it restarts an unanswered opening; in the other states it throws. *)
Theorem Run_timeout now c :
  (cn_connectionState c = DataState → seconds 300 < now 0%nat - cn_lastPacketReceive c →
    ∃ c', ConnectionRun.Run now c = Ret c' ∧ cn_closed c' = true ∧ cn_connectionState c' = DataState) ∧
  (cn_connectionState c = WaitingSynAckState → seconds 30 < now 0%nat - cn_lastPacketReceive c →
    ∃ c', ConnectionRun.Run now c = Ret c' ∧ cn_connectionState c' = SendingSynState ∧
      cn_closed c' = cn_closed c ∧ cn_lastPacketReceive c' = now 1%nat) ∧
  (cn_connectionState c ∉ [DataState; WaitingSynAckState] → seconds 30 < now 0%nat - cn_lastPacketReceive c →
    ConnectionRun.Run now c = Err (Throws "Not implemented")).
Proof.
  unfold ConnectionRun.Run. repeat split.
  - intros -> H. cbn [states is_GetTimeout is_OnTimeOut]. unfold DataState.GetTimeout.
    rewrite (proj2 (Z.ltb_lt _ _)) by done. cbn. eauto.
  - intros -> H. cbn [states is_GetTimeout is_OnTimeOut]. unfold BasicConnectionState.GetTimeout.
    rewrite (proj2 (Z.ltb_lt _ _)) by done. cbn. eauto 6.
  - intros Hs H. assert (@is_GetTimeout P (states (cn_connectionState c)) = seconds 30 ∧
      @is_OnTimeOut P (states (cn_connectionState c)) c = Err (Throws "Not implemented")) as [-> ->].
    { destruct (cn_connectionState c); try done; exfalso; apply Hs; set_solver. }
    by rewrite (proj2 (Z.ltb_lt _ _)) by done.
Qed.

(** [Recv(size, stop, freePackets)] takes no packet while the connection is open,
    however many arrive: it returns, with nothing, only when it is stopped. *)
Theorem Recv_size_starves turns : ∀ size stop (arrived : nat → list P) data result,
  (0 < size)%nat → (∀ i, (i < turns)%nat → stop i = false) →
  Connection.Recv_loop turns size stop arrived false data result =
    if stop turns then Ret (result, data ++ (seq 0 turns ≫= arrived)) else Err OutOfFuel.
Proof.
  induction turns as [|turns IH]; intros size stop arrived data result Hs Hstop; cbn [Connection.Recv_loop].
  - rewrite (proj2 (Nat.ltb_lt _ _)) by done. cbn. rewrite app_nil_r. by destruct (stop 0%nat).
  - rewrite (proj2 (Nat.ltb_lt _ _)), (Hstop 0%nat) by lia. cbn [negb andb].
    unfold Connection.Recv_turn, LockedList.WaitForPredicate. rewrite IH.
    + rewrite app_nil_r, <- app_assoc. destruct (stop (S turns)); [|done]. do 3 f_equal.
      cbn [seq mbind list_bind]. f_equal. rewrite <- fmap_S_seq.
      clear. induction (seq 0 turns) as [|x l IHl]; [done|]. cbn. by rewrite IHl.
    + done.
    + intros i Hi. apply Hstop. lia.
Qed.

End DataStateCorrectness.

(** ** Witnesses *)

Definition buffer : Packet := Packet.make 1400.

Lemma buffer_ok : PacketOk buffer.
Proof. apply Packet_make_ok; vm_compute; [lia|reflexivity]. Qed.

Lemma buffer_roomy : roomy buffer.
Proof. split; [apply buffer_ok|]. vm_compute. lia. Qed.

Definition somewhere (port : Z) : ConnectionAddr := ConnectionAddr.SetPort port ConnectionAddr.default.

Definition opening : Connection Packet :=
  Connection.SetInternalFreePackets [buffer] [] (Connection.make SendingSynState (somewhere 11200) 7 0).

Definition greeting (t : PacketType) (src : Z) (addr : ConnectionAddr) : Packet :=
  SetMagic (SetAddr addr (SetSrcConnectionID src (SetPacketType t buffer))).

Lemma greeting_greets t src addr :
  t = Syn ∨ t = SynAck → 0 ≤ src < 2 ^ 16 → Greets (greeting t src addr) t src addr.
Proof.
  intros Ht Hsrc. destruct (view_SetPacketType t _ buffer_ok) as [H1 E1].
  destruct (view_SetSrcConnectionID src _ H1) as [H2 E2]. destruct (view_SetAddr addr _ H2) as [H3 E3].
  destruct (view_SetMagic _ H3) as [H4 E4]. rewrite E3, E2, E1 in E4. unfold greeting.
  change (view buffer) with (mkView false PT_None 0 0 0 0 0 ConnectionAddr.default (replicate 1380 0)) in E4.
  unfold view in E4. injection E4. intros. rewrite wrap_small in * by lia.
  split; try done. by destruct Ht as [-> | ->].
Qed.

Lemma handshake_completes_witness :
  ∃ syn c1 s synack s1, SendingSynState.SendPackets (λ _, 0) opening = Ret (WaitingSynAckState, c1) ∧
    queued_service syn opening c1 ∧ GetPacketType syn = Syn ∧
    ConnectionRun.Listen 5 (greeting Syn 7 (somewhere 11100)) 9 =
      Ret (Some s, [greeting Syn 7 (somewhere 11100)]) ∧ cn_destinationId s = 7 ∧
    SendingSynAckState.SendPackets (λ _, 0) (Connection.SetInternalFreePackets [buffer] [] s) = Ret (DataState, s1) ∧
    queued_service synack s s1 ∧ GetDstConnectionID synack = 7.
Proof.
  destruct (handshake_completes opening [] buffer 7 9 buffer 5 6 (somewhere 11100) (somewhere 11200))
    as (syn & c1 & H1 & H2 & _ & H3 & H4).
  - reflexivity.
  - reflexivity.
  - apply buffer_ok.
  - reflexivity.
  - lia.
  - lia.
  - apply buffer_ok.
  - destruct (H4 (greeting Syn 7 (somewhere 11100))) as (s & H5 & _ & H6 & synack & s1 & H7 & H8 & _ & _ & H9 & _);
      [apply greeting_greets; [left; reflexivity|lia]|].
    exists syn, c1, s, synack, s1. split; [exact H1|]. split; [exact H2|]. split; [apply H3|].
    do 4 (split; [assumption|]). exact H9.
Defined.

Lemma unexpected_packet_throws_witness :
  ∃ what, ConnectionRun.OnRecvPackets 1 (greeting Syn 7 (somewhere 1))
    (Connection.make DataState (somewhere 2) 3 0) = Err (Throws what).
Proof.
  apply unexpected_packet_throws. right. left. split; [reflexivity|]. vm_compute.
  intros H. repeat (apply elem_of_cons in H as [H|H]; [discriminate H|]). by apply elem_of_nil in H.
Defined.

Lemma run_overwrites_state_witness :
  ∃ free c1 c2, ConnectionRun.OnRecvPackets 1 (greeting SynAck 9 (somewhere 2))
      (Connection.make WaitingSynAckState (somewhere 2) 3 0) = Ret (free, c1) ∧
    cn_connectionState c1 = DataState ∧
    Run_store WaitingSynAckState (λ _, 2) c1 = Ret c2 ∧
    cn_connectionState c2 = WaitingSynAckState ∧ cn_connected c2 = true.
Proof.
  apply (run_overwrites_state 1 (λ _, 2) (Connection.make WaitingSynAckState (somewhere 2) 3 0)
    (greeting SynAck 9 (somewhere 2)) 9 (somewhere 2)).
  - reflexivity.
  - apply greeting_greets; [right; reflexivity|lia].
Defined.

(** A connection with two acknowledgements collected and one service packet free. *)
Definition acknowledging : Connection Packet :=
  Connection.set_recvQueue (mkRecvQueue ∅ [] [5; 3; 8] 4)
    (Connection.SetInternalFreePackets [buffer] [] (Connection.make DataState (somewhere 2) 3 0)).

Lemma DataState_sends_acks_witness :
  ∃ c' sent dropped chunks packets, DataState.SendPackets (λ _, 0) acknowledging = Ret (DataState, c') ∧
    [5; 3; 8] = sent ++ dropped ∧ filter (λ a, 3 ≤ a) sent = concat chunks ∧
    service c' = packets ∧ length packets = length chunks.
Proof.
  destruct (DataState_sends_acks (λ _, 0) acknowledging) as (c' & sent & dropped & chunks & packets & H1 & H2 & _ & H4 & H5 & H6).
  - repeat constructor; lia.
  - repeat constructor; apply buffer_roomy.
  - vm_compute. split; [discriminate|reflexivity].
  - vm_compute. split; [discriminate|reflexivity].
  - exists c', sent, dropped, chunks, packets. split; [exact H1|]. split; [exact H2|]. split; [exact H4|].
    split; [exact H5|]. eapply Forall2_length. exact H6.
Defined.

Lemma received_packet_kept_or_returned_witness :
  ∃ free c', ConnectionRun.OnRecvPackets 1 (greeting SynAck 9 (somewhere 2)) acknowledging = Ret (free, c') ∧
    (greeting SynAck 9 (somewhere 2) ∈ free ∨ ∃ slot, rq_queue (cn_recvQueue c') !! slot = Some (greeting SynAck 9 (somewhere 2))).
Proof.
  eexists _, _. split; [reflexivity|].
  apply (received_packet_kept_or_returned 1 (greeting SynAck 9 (somewhere 2)) acknowledging). reflexivity.
Defined.

Lemma GetPacketsToSend_within_allowance_witness :
  ∃ out data c', Connection.GetPacketsToSend (milliseconds 30) acknowledging = Ret (out, c') ∧
    out = data ∧ service c' = [].
Proof.
  destruct (InFlightQueue.GetNumberPacketToSend (milliseconds 30) (cn_inFlightQueue acknowledging)) as [[size ifq]|f] eqn:E;
    [|discriminate E].
  assert (Hs : 0 <= size) by (vm_compute in E; injection E as <- _; lia).
  destruct (GetPacketsToSend_within_allowance (milliseconds 30) acknowledging size ifq E Hs)
    as (out & data & c' & H1 & H2 & H3 & _).
  exists out, data, c'. split; [exact H1|]. split; [exact H2|exact H3].
Defined.

Lemma Run_timeout_witness :
  ∃ c', ConnectionRun.Run (λ _, seconds 301) acknowledging = Ret c' ∧ cn_closed c' = true.
Proof.
  destruct (Run_timeout (λ _, seconds 301) acknowledging) as [H _].
  destruct (H eq_refl eq_refl) as (c' & H1 & H2 & _). exists c'. split; [exact H1|exact H2].
Defined.

Lemma Recv_size_starves_witness :
  Connection.Recv_loop 3 5 (λ i, (2 <? i)%nat) (λ i, [buffer]) false [] [] = Ret ([], [buffer; buffer; buffer]).
Proof.
  etransitivity; [apply (Recv_size_starves 3); [lia|]|reflexivity].
  intros i Hi. apply Nat.ltb_ge. lia.
Defined.
