(* ===== verification/Channel.v ===== *)
(** * Two connections over an unreliable network
    The connections of [Connection.v] at both ends of a network that loses, repeats and
    reorders packets, with the users, the sockets and both threads of either end acting
    in any order: what one user sends, the other receives, in order and without gaps,
    and what has not arrived yet is still held by the sender. *)
From S2P Require Import Prelude Addr Packet RecvQueue SendQueue Stats SpeedControl InFlight LockedList Connection.
Local Open Scope Z_scope.

(** ** The system *)

(** One end: the connection; the packets that [SendQueueStep] took and the sockets have
    not given back yet; all the packets that ever went to the network; the payloads the
    user has sent and the packets the user has received. *)
Record Endpoint (P : Type) := mkEndpoint {
  ep_connection : Connection P;
  ep_sockets : list (OutgoingPacket P);
  ep_wire : list P;
  ep_sent : list (res (list Z));
  ep_received : list P;
}.
Arguments mkEndpoint {_} _ _ _ _ _.
Arguments ep_connection {_} _.
Arguments ep_sockets {_} _.
Arguments ep_wire {_} _.
Arguments ep_sent {_} _.
Arguments ep_received {_} _.

Section System.
Context {P : Type} `{!IPacket P, !IPacketLaws P}.
Implicit Types (c : Connection P) (p q : P) (e : Endpoint P).

(** A packet as it comes out of the network: the same bytes in another buffer, with the
    address of the sender ([Socket.RecvMsg_segments]). *)
Definition Copy p q : Prop := PacketOk q ∧ ∃ a, view q = v_SetAddr a (view p).

(** A packet a user may send.  Buffers are zeroed when they are made, and no operation
    sets the acknowledgement number of a data packet. *)
Definition UserPacket p : Prop := PacketOk p ∧ GetAckNumber p = 0.

(** A packet given back by the sockets: only its send time is new. *)
Definition stamped_with_time (o o' : OutgoingPacket P) : Prop :=
  op_packet o' = op_packet o ∧ op_needAck o' = op_needAck o.

(** The operations that touch none of the queues. *)
Inductive other_operation : Connection P → Connection P → Prop :=
  | oo_GetFreeSendPackets stop c : other_operation c (Connection.GetFreeSendPackets stop c).2
  | oo_TryGetFreeSendPackets c : other_operation c (Connection.TryGetFreeSendPackets c).2
  | oo_AddFreeRecvPackets free c : other_operation c (Connection.AddFreeRecvPackets free c)
  | oo_AddFreeSendPackets free c : other_operation c (Connection.AddFreeSendPackets free c)
  | oo_SetInternalFreePackets internal recv c :
      Forall PacketOk internal → other_operation c (Connection.SetInternalFreePackets internal recv c)
  | oo_GetFreeRecvPackets c : other_operation c (Connection.GetFreeRecvPackets c).2
  | oo_CleanFreeRecvPackets c : other_operation c (Connection.CleanFreeRecvPackets c).2
  | oo_SetConnected b c : other_operation c (Connection.SetConnected b c)
  | oo_Close c : other_operation c (Connection.Close c).

(** What one end does, [wire] being what the other one has ever sent. *)
Inductive endpoint_step (wire : list P) : Endpoint P → Endpoint P → Prop :=
  | es_Send data c k w s r :
      Forall UserPacket data →
      endpoint_step wire (mkEndpoint c k w s r)
        (mkEndpoint (Connection.Send data c) k w (s ++ (GetPayload <$> data)) r)
  | es_Send2 stop data c k w s r :
      Forall UserPacket data →
      endpoint_step wire (mkEndpoint c k w s r)
        (mkEndpoint (Connection.Send2 stop data c).2 k w (s ++ (GetPayload <$> data)) r)
  | es_Recv stop free got c c' k w s r :
      Connection.Recv stop free c = (got, c') →
      endpoint_step wire (mkEndpoint c k w s r) (mkEndpoint c' k w s (r ++ default [] got))
  | es_other c c' k w s r :
      other_operation c c' →
      endpoint_step wire (mkEndpoint c k w s r) (mkEndpoint c' k w s r)
  | es_Run now c c' k w s r :
      ConnectionRun.Run now c = Ret c' →
      endpoint_step wire (mkEndpoint c k w s r) (mkEndpoint c' k w s r)
  | es_Run_late read now c c' k w s r :
      Run_store read now c = Ret c' →
      endpoint_step wire (mkEndpoint c k w s r) (mkEndpoint c' k w s r)
  | es_GetPacketsToSend now out c c' k w s r :
      Connection.GetPacketsToSend now c = Ret (out, c') →
      endpoint_step wire (mkEndpoint c k w s r)
        (mkEndpoint c' (k ++ out) (w ++ (op_packet <$> out)) s r)
  | es_ProcessSentPackets now given back k' c k w s r :
      k ≡ₚ given ++ k' → Forall2 stamped_with_time given back →
      endpoint_step wire (mkEndpoint c k w s r)
        (mkEndpoint (Connection.ProcessSentPackets now back c) k' w s r)
  | es_OnRecvPackets now p q free c c' k w s r :
      p ∈ wire → Copy p q → ConnectionRun.OnRecvPackets now q c = Ret (free, c') →
      endpoint_step wire (mkEndpoint c k w s r) (mkEndpoint c' k w s r)
  | es_ProcessRecvPackets c c' k w s r :
      Connection.ProcessRecvPackets c = Ret c' →
      endpoint_step wire (mkEndpoint c k w s r) (mkEndpoint c' k w s r)
  | es_CleanFreeSendPackets c k w s r :
      Connection.IsClosed c = true →
      endpoint_step wire (mkEndpoint c k w s r) (mkEndpoint (Connection.CleanFreeSendPackets c).2 k w s r).

(** Either end acts.  The network keeps no promise: a packet on the wire may be
    received any number of times, in any order, or never. *)
Inductive system_step : Endpoint P * Endpoint P → Endpoint P * Endpoint P → Prop :=
  | ss_left a a' b : endpoint_step (ep_wire b) a a' → system_step (a, b) (a', b)
  | ss_right a b b' : endpoint_step (ep_wire a) b b' → system_step (a, b) (a, b').

Definition new_endpoint state addr id now : Endpoint P :=
  mkEndpoint (Connection.make state addr id now) [] [] [] [].

(** ** What the packets of one end say *)

(** A data packet: the [i]-th payload sent carries number [i + 1].  [done] are the
    payloads of the packets that have been numbered. *)
Definition Genuine (done : list (res (list Z))) p : Prop :=
  PacketOk p ∧ GetPacketType p = Data ∧ GetAckNumber p = 0 ∧
  ∃ i, done !! i = Some (GetPayload p) ∧ GetSeqNumber p = Z.of_nat (S i).

(** Packet [n] has arrived: it was handed to the user or is in its slot. *)
Definition has_received (rq : RecvQueue P) (n : Z) : Prop :=
  1 ≤ n < rq_begin rq ∨
  ∃ p, rq_queue rq !! (n `mod` RecvQueue.QueueSize) = Some p ∧ RecvQueue.number p = n.

(** A packet of the protocol itself: what it acknowledges has arrived. *)
Definition ServicePacket (rq : RecvQueue P) p : Prop :=
  PacketOk p ∧ GetPacketType p ≠ Data ∧
  (GetPacketType p = Sack → GetAckNumber p < rq_begin rq ∧
    ∀ acks, GetAcks p = Ret acks → Forall (has_received rq) acks).

Lemma view_fields p q : view p = view q →
  GetPacketType p = GetPacketType q ∧ GetSeqNumber p = GetSeqNumber q ∧ GetAckNumber p = GetAckNumber q.
Proof. intros H. unfold view in H. by injection H. Qed.

Lemma Copy_says p q : PacketOk p → Copy p q →
  PacketOk q ∧ GetPacketType q = GetPacketType p ∧ GetSeqNumber q = GetSeqNumber p ∧
  GetAckNumber q = GetAckNumber p ∧ GetPayload q = GetPayload p ∧ GetAcks q = GetAcks p.
Proof.
  intros Hp [Hq [a E]]. rewrite !view_GetPayload, !view_GetAcks, E by done.
  unfold view in E. cbn in E. injection E. intros. repeat split; try done; unfold view; cbn; done.
Qed.

Lemma Copy_genuine done p q : Genuine done p → Copy p q → Genuine done q.
Proof.
  intros (Hp & Ht & Ha & i & Hi & Hn) Hc. destruct (Copy_says p q Hp Hc) as (Hq & E1 & E2 & E3 & E4 & _).
  unfold Genuine. rewrite E1, E2, E3, E4. eauto 6.
Qed.

Lemma Copy_service rq p q : ServicePacket rq p → Copy p q → ServicePacket rq q.
Proof.
  intros (Hp & Ht & Hs) Hc. destruct (Copy_says p q Hp Hc) as (Hq & E1 & E2 & E3 & _ & E5).
  unfold ServicePacket. by rewrite E1, E3, E5.
Qed.

Lemma Genuine_mono done more p : Genuine done p → Genuine (done ++ more) p.
Proof.
  intros (Hp & Ht & Ha & i & Hi & Hn). split; [done|]. split; [done|]. split; [done|].
  exists i. split; [|done]. by apply lookup_app_l_Some.
Qed.

(** The number of a data packet is no more than there are. *)
Lemma Genuine_number done p :
  Genuine done p → 1 ≤ GetSeqNumber p ≤ Z.of_nat (length done).
Proof. intros (_ & _ & _ & i & Hi%lookup_lt_Some & ->). lia. Qed.

(** A user packet, stamped and numbered. *)
Lemma stamp_data_genuine c p done payload n :
  UserPacket p → GetPayload p = payload → n = Z.of_nat (S (length done)) → n < 2 ^ 32 →
  let q := SetSeqNumber n (SetMagic (DataState.stamp_data c p)) in
  GetSeqNumber q = n ∧ Genuine (done ++ [payload]) q.
Proof.
  intros [H0 Hack] Hpay -> Hn q.
  destruct (view_SetPacketType Data p H0) as [H1 E1].
  destruct (view_SetSrcConnectionID (Connection.GetID c) _ H1) as [H2 E2].
  destruct (view_SetDstConnectionID (Connection.GetDestinationID c) _ H2) as [H3 E3].
  destruct (view_SetAddr (Connection.GetAddr c) _ H3) as [H4 E4].
  destruct (view_SetMagic _ H4) as [H5 E5].
  destruct (view_SetSeqNumber (Z.of_nat (S (length done))) _ H5) as [H6 E6].
  change (SetSeqNumber _ _) with q in H6, E6. rewrite E5, E4, E3, E2, E1 in E6. clearbody q.
  assert (GetPayload q = payload) as Hq.
  { rewrite <- Hpay, !view_GetPayload by done. rewrite E6. by destruct (view p). }
  unfold view in E6. cbn -[Z.of_nat] in E6. injection E6. intros. rewrite wrap_small in * by lia.
  split; [done|]. split; [done|]. split; [done|]. split; [congruence|]. exists (length done).
  split; [by rewrite Hq, list_lookup_middle|]. done.
Qed.

(** A service packet is numbered when it is queued, and says the same. *)
Lemma numbered_says p n : PacketOk p →
  let q := SetSeqNumber n (SetMagic p) in
  PacketOk q ∧ GetPacketType q = GetPacketType p ∧ GetAckNumber q = GetAckNumber p ∧ GetAcks q = GetAcks p.
Proof.
  intros H0 q. destruct (view_SetMagic _ H0) as [H1 E1]. destruct (view_SetSeqNumber n _ H1) as [H2 E2].
  fold q in H2, E2. rewrite E1 in E2. rewrite !view_GetAcks, E2 by done.
  split; [done|]. unfold view in E2. cbn in E2. injection E2. intros.
  split; [done|]. split; [done|]. by unfold view.
Qed.

Lemma numbered_service rq p n : ServicePacket rq p → ServicePacket rq (SetSeqNumber n (SetMagic p)).
Proof.
  intros (Hp & Ht & Hs). destruct (numbered_says p n Hp) as (Hq & E1 & E2 & E3).
  unfold ServicePacket. by rewrite E1, E2, E3.
Qed.

End System.

(** ** Receiving *)

Section Receiving.
Context {P : Type} `{!IPacket P, !IPacketLaws P}.
Implicit Types (p q : P) (rq : RecvQueue P) (sent : list (res (list Z))) (received : list P).
Import RecvQueue.

(** The receive queue against the payloads the other end has sent. *)
Record Incoming sent rq received : Prop := {
  in_inv : Inv rq;
  in_order : number <$> (received ++ rq_data rq) = seqZ 1 (rq_begin rq - 1);
  in_delivered : Forall (Genuine sent) (received ++ rq_data rq);
  in_waiting i p : rq_queue rq !! i = Some p → Genuine sent p;
  in_acks : Forall (has_received rq) (rq_selectiveAcks rq);
}.

Lemma make_incoming : Incoming [] make [].
Proof. split; cbn; [apply make_inv|done|done|by intros i p; rewrite lookup_empty|done]. Qed.

Lemma Incoming_mono sent more rq received : Incoming sent rq received → Incoming (sent ++ more) rq received.
Proof.
  intros [Hi Ho Hd Hw Ha]. split; try done.
  - eapply Forall_impl; [exact Hd|]. intros p. apply Genuine_mono.
  - intros i p Hp. by apply Genuine_mono, (Hw i).
Qed.

(** What has arrived stays so. *)
Definition grows rq rq' : Prop :=
  rq_begin rq ≤ rq_begin rq' ∧ ∀ n, has_received rq n → has_received rq' n.

#[export] Instance grows_preorder : PreOrder grows.
Proof. split; [by split|]. intros x y z [H1 H2] [H3 H4]. split; [lia|auto]. Qed.

Lemma Genuine_is_numbered sent p :
  Z.of_nat (length sent) < 2 ^ 32 → Genuine sent p → number p = GetSeqNumber p.
Proof. intros H Hp%Genuine_number. apply wrap_small. lia. Qed.

Lemma grows_insert rq i p :
  rq_queue rq !! i = None →
  grows rq (mkRecvQueue (<[i := p]> (rq_queue rq)) (rq_data rq) (rq_selectiveAcks rq) (rq_begin rq)).
Proof.
  intros Hi. split; [done|]. intros n [Hn|(q & Hq & Hn)]; [by left|]. right. exists q.
  cbn. by rewrite lookup_insert_ne by congruence.
Qed.

Lemma push_ack_incoming sent n rq received :
  Incoming sent rq received → has_received rq n → Incoming sent (push_ack n rq) received.
Proof.
  intros [[] Ho Hd Hw Ha] Hn. split; try done. apply Forall_app. split; [done|]. by constructor.
Qed.

Lemma AddPacket_incoming sent p rq received st r rq' :
  Z.of_nat (length sent) < 2 ^ 32 → Incoming sent rq received → Genuine sent p →
  AddPacket p rq = Ret (st, r, rq') → Incoming sent rq' received ∧ grows rq rq'.
Proof.
  intros Hb Hin Hp. pose proof (in_inv _ _ _ Hin) as Hi. pose proof (inv_begin _ Hi).
  pose proof (number_range p) as Hr. pose proof (Genuine_is_numbered _ _ Hb Hp) as En.
  pose proof (Genuine_number _ _ Hp) as Hg.
  intros Hadd. pose proof (AddPacket_inv _ _ _ _ _ Hi Hadd) as Hi'. revert Hadd. unfold AddPacket.
  case_match eqn:E1; [done|]. case_match eqn:E2.
  { intros [= <- <- <-]. apply Z.ltb_lt in E2. split; [|done].
    apply push_ack_incoming; [done|]. left. lia. }
  apply Z.ltb_ge in E2. rewrite wrap_small by lia. case_match eqn:E3.
  { intros [= <- <- <-]. by split. }
  apply Z.leb_gt in E3. case_match eqn:E4.
  - intros [= <- <- <-]. split; [|done]. apply push_ack_incoming; [done|]. right. exists p0. split; [done|].
    destruct (inv_slot _ Hi _ _ E4) as (Es & Hw & _). symmetry. apply (slot_inj (rq_begin rq)); lia.
  - intros [= <- <- <-]. assert (G := grows_insert (push_ack (number p) rq) _ p E4).
    split; [|exact G]. destruct Hin as [_ Ho Hd Hw Ha]. split; try done; cbn in *.
    + intros i q [[_ <-]|[_ Hq]]%lookup_insert_Some; [done|by eapply Hw].
    + apply Forall_app. split.
      * eapply Forall_impl; [exact Ha|]. intros n Hn. by apply G.
      * constructor; [|done]. right. exists p. split; [apply lookup_insert_eq|done].
Qed.

Lemma process_incoming sent rq received rq' :
  Incoming sent rq received → ProccessUnorderedPackets rq = Ret rq' →
  Incoming sent rq' received ∧ grows rq rq' ∧ rq_queue rq' !! (rq_begin rq' `mod` QueueSize) = None.
Proof.
  intros [Hi Ho Hd Hw Ha] Hp. unfold ProccessUnorderedPackets in Hp.
  pose proof (Proccess_loop_spec (S (size (rq_queue rq))) rq [] Hi ltac:(lia)) as Hl.
  destruct (Proccess_loop _ _ _ _) as [[[queue begin] data]|]; [|done].
  destruct Hl as (l & -> & Hi' & -> & Hseq & Hnone & Hin & Hsub & Hold).
  injection Hp as <-. cbn [app].
  assert (Hd' : (match l with [] => rq_data rq | _ => rq_data rq ++ l end) = rq_data rq ++ l)
    by (destruct l; by rewrite ?app_nil_r).
  rewrite Hd'. pose proof (inv_begin _ Hi).
  set (rq' := mkRecvQueue _ _ _ _).
  assert (G : grows rq rq').
  { split; [cbn; lia|]. intros n [Hn|(p & Hq & Hn)]; [left; cbn; lia|].
    destruct (Hsub _ _ Hq) as [Hpl|Hq']; [left|right; exists p; by split].
    apply (list_elem_of_fmap_2 number) in Hpl. unfold seq_from in Hseq. rewrite Hseq in Hpl.
    apply elem_of_seqZ in Hpl. cbn. lia. }
  split; [|done]. split; cbn [rq_begin rq_data rq_queue rq_selectiveAcks rq'] in *.
  - split; [by apply Hi'|]. intros i p. by apply (inv_slot _ Hi').
  - rewrite app_assoc, fmap_app, Ho, Hseq.
    replace (rq_begin rq + Z.of_nat (length l) - 1) with (rq_begin rq - 1 + Z.of_nat (length l)) by lia.
    rewrite seqZ_app by lia. do 2 f_equal. lia.
  - rewrite app_assoc. apply Forall_app. split; [done|]. apply Forall_forall. intros p Hp. by eapply Hw, Hin.
  - intros i p Hq%Hold. by eapply Hw.
  - eapply Forall_impl; [exact Ha|]. intros n. apply G.
Qed.

Lemma acks_incoming sent rq received :
  Incoming sent rq received → Incoming sent (GetSelectiveAcks rq).2 received ∧ grows rq (GetSelectiveAcks rq).2.
Proof. intros [[] Ho Hd Hw Ha]. split; [|done]. by split. Qed.

Lemma take_incoming sent rq received :
  Incoming sent rq received →
  Incoming sent (set_user_data [] rq) (received ++ GetUserData rq) ∧ grows rq (set_user_data [] rq).
Proof.
  intros [[] Ho Hd Hw Ha]. split; [|done]. split; try done; cbn; unfold GetUserData; by rewrite app_nil_r.
Qed.

(** What has been received is a beginning of what was sent. *)
Lemma incoming_prefix sent rq received :
  Z.of_nat (length sent) < 2 ^ 32 → Incoming sent rq received →
  GetPayload <$> (received ++ rq_data rq) = take (length (received ++ rq_data rq)) sent.
Proof.
  intros Hb [Hi Ho Hd _ _]. set (l := received ++ rq_data rq) in *.
  pose proof (seq_from_fmap _ _ _ Ho ltac:(pose proof (inv_begin _ Hi); lia)) as Hlen.
  apply list_eq. intros i. rewrite list_lookup_fmap. destruct (l !! i) as [p|] eqn:Ei.
  - pose proof (lookup_lt_Some _ _ _ Ei) as Hlt. rewrite lookup_take_lt by done.
    pose proof (proj1 (Forall_lookup _ _) Hd i p Ei) as Hp.
    pose proof (Genuine_is_numbered _ _ Hb Hp) as En. destruct Hp as (_ & _ & _ & j & Hj & Hn).
    assert (number p = Z.of_nat (S i)) as En'.
    { apply (f_equal (.!! i)) in Ho. rewrite list_lookup_fmap, Ei, lookup_seqZ_lt in Ho by lia.
      injection Ho. lia. }
    assert (i = j) as -> by lia. done.
  - symmetry. cbn. apply lookup_ge_None. apply lookup_ge_None in Ei. rewrite length_take. lia.
Qed.

End Receiving.

(** ** Sending *)

Section Sending.
Context {P : Type} `{!IPacket P, !IPacketLaws P}.
Implicit Types (p q : P) (rq peer : RecvQueue P) (sq : SendQueue P) (ifq : InFlightQueue P)
  (user free w : list P) (k : list (OutgoingPacket P)) (done : list (res (list Z))) (closed : bool).

(** The data packets that are numbered and not acknowledged yet: to be sent, to be
    resent, with the sockets, in flight. *)
Definition active sq k ifq : list P :=
  (op_packet <$> sq_needToSend sq ++ sq_resendPackets sq) ++ (op_packet <$> acked k) ++ all_held (if_samples ifq).

(** Data packets want an acknowledgement, service packets do not. *)
Definition sorted_kinds sq : Prop :=
  Forall (λ o, op_needAck o = true) (sq_needToSend sq ++ sq_resendPackets sq) ∧
  Forall (λ o, op_needAck o = false) (sq_serviceNeedToSend sq).

(** The sending side of one end, against the receive queue [rq] of the same end and
    [peer] of the other one.  [done] are the payloads numbered so far. *)
Record Outgoing user sq ifq free rq closed k w done peer : Prop := {
  og_next : sq_nextPacketNumber sq = Z.of_nat (length done);
  og_kinds : sorted_kinds sq;
  og_keyed : all_keyed (if_samples ifq);
  og_user : Forall UserPacket user;
  og_free : Forall PacketOk free;
  og_active : Forall (Genuine done) (active sq k ifq);
  og_distinct : NoDup (GetSeqNumber <$> active sq k ifq);
  og_service : Forall (ServicePacket rq) (op_packet <$> sq_serviceNeedToSend sq ++ unacked k);
  og_wire : Forall (λ p, Genuine done p ∨ ServicePacket rq p) w;
  og_last : if_lastAckNumber ifq < rq_begin peer;
  og_acks a : a ∈ if_receivedAcks ifq → has_received peer a;
  og_cover : closed = false → ∀ n, 1 ≤ n ≤ Z.of_nat (length done) →
    n ∈ GetSeqNumber <$> active sq k ifq ∨ has_received peer n;
}.

Lemma make_outgoing c : Outgoing [] SendQueue.make (InFlightQueue.make c) [] RecvQueue.make false [] [] [] RecvQueue.make.
Proof.
  split; cbn; try done; try (by split); try constructor. all: try (intros; lia). all: try set_solver.
Qed.

(** Packets move, and some that have arrived are given up. *)
Lemma Outgoing_move user sq ifq free rq closed k w done peer sq' ifq' k' gone :
  Outgoing user sq ifq free rq closed k w done peer →
  sq_nextPacketNumber sq' = sq_nextPacketNumber sq → sorted_kinds sq' → all_keyed (if_samples ifq') →
  active sq' k' ifq' ++ gone ≡ₚ active sq k ifq →
  (closed = false → Forall (λ p, has_received peer (GetSeqNumber p)) gone) →
  Forall (ServicePacket rq) (op_packet <$> sq_serviceNeedToSend sq' ++ unacked k') →
  if_lastAckNumber ifq' < rq_begin peer → (∀ a, a ∈ if_receivedAcks ifq' → has_received peer a) →
  Outgoing user sq' ifq' free rq closed k' w done peer.
Proof.
  intros [H1 H2 H3 H4 H5 H6 H7 H8 H9 H10 H11 H12] E1 Hs Hk Hp Hg Hsv Hl Ha. rewrite <- Hp in H6, H7.
  split; try done.
  - congruence.
  - by apply Forall_app in H6 as [? _].
  - rewrite fmap_app in H7. by apply NoDup_app in H7 as [? _].
  - intros Hc n Hn. specialize (H12 Hc n Hn). rewrite <- Hp, fmap_app, elem_of_app in H12.
    destruct H12 as [[?|Hx]|?]; auto. right. apply list_elem_of_fmap in Hx as (p & -> & Hx).
    specialize (Hg Hc). rewrite Forall_forall in Hg. auto.
Qed.

(** The receive queue of this end goes on, and so does the other one. *)
Lemma ServicePacket_grows rq rq' p : grows rq rq' → ServicePacket rq p → ServicePacket rq' p.
Proof.
  intros [Hb Hg] (Hp & Ht & Hs). split; [done|]. split; [done|]. intros Hsack.
  destruct (Hs Hsack) as [Hl Ha]. split; [lia|]. intros acks E. eapply Forall_impl; [by apply Ha|]. exact Hg.
Qed.

Lemma Outgoing_grows user sq ifq free rq closed k w done peer rq' peer' :
  grows rq rq' → grows peer peer' →
  Outgoing user sq ifq free rq closed k w done peer → Outgoing user sq ifq free rq' closed k w done peer'.
Proof.
  intros G [Hb Hg] [H1 H2 H3 H4 H5 H6 H7 H8 H9 H10 H11 H12]. split; try done.
  - eapply Forall_impl; [exact H8|]. intros p. by apply ServicePacket_grows.
  - eapply Forall_impl; [exact H9|]. intros p [?|?]; [by left|right]. by eapply ServicePacket_grows.
  - lia.
  - auto.
  - intros Hc n Hn. destruct (H12 Hc n Hn); auto.
Qed.

(** The user sends. *)
Lemma Outgoing_user user sq ifq free rq closed k w done peer data :
  Forall UserPacket data → Outgoing user sq ifq free rq closed k w done peer →
  Outgoing (user ++ data) sq ifq free rq closed k w done peer.
Proof. intros Hd []. split; try done. by apply Forall_app. Qed.

(** The free packets of the connection, and its closing. *)
Lemma Outgoing_free user sq ifq free rq closed k w done peer free' closed' :
  Forall PacketOk free' → (closed' = false → closed = false) →
  Outgoing user sq ifq free rq closed k w done peer → Outgoing user sq ifq free' rq closed' k w done peer.
Proof. intros Hf Hc []. split; auto. Qed.

(** Packets go from the send queue to the sockets, and to the network. *)
Lemma Outgoing_wire user sq ifq free rq closed k w done peer out :
  Forall (λ p, p ∈ active sq k ifq ∨ ServicePacket rq p) out →
  Outgoing user sq ifq free rq closed k w done peer →
  Outgoing user sq ifq free rq closed k (w ++ out) done peer.
Proof.
  intros Ho [H1 H2 H3 H4 H5 H6 H7 H8 H9 H10 H11 H12]. split; try done. apply Forall_app. split; [done|].
  eapply Forall_impl; [exact Ho|]. intros p [Hp|?]; [left|by right]. rewrite Forall_forall in H6. auto.
Qed.

(** One packet of the user is numbered. *)
Lemma Outgoing_number c p user sq ifq free rq closed k w done peer :
  Z.of_nat (S (length done)) < 2 ^ 32 →
  Outgoing (p :: user) sq ifq free rq closed k w done peer →
  Outgoing user (SendQueue.SendPacket true sq (DataState.stamp_data c p)) ifq free rq closed k w
    (done ++ [GetPayload p]) peer.
Proof.
  intros Hb [H1 [Hk1 Hk2] H3 H4 H5 H6 H7 H8 H9 H10 H11 H12].
  apply Forall_cons in H4 as [Hp Hu]. unfold SendQueue.SendPacket.
  assert (En : u32 (sq_nextPacketNumber sq + 1) = Z.of_nat (S (length done))) by (rewrite wrap_small by lia; lia).
  rewrite En. destruct (stamp_data_genuine c p done (GetPayload p) _ Hp eq_refl eq_refl Hb) as [Hseq Hq].
  set (q := SetSeqNumber _ _) in *. set (sq' := mkSendQueue _ _ _ _).
  assert (Hact : active sq' k ifq ≡ₚ q :: active sq k ifq).
  { unfold active. cbn. rewrite !fmap_app. cbn. solve_Permutation. }
  split; try done.
  - cbn. rewrite length_app. cbn. lia.
  - split; [|done]. cbn. rewrite !Forall_app in *. destruct Hk1. split_and!; try done. by repeat constructor.
  - rewrite Hact. constructor; [done|]. eapply Forall_impl; [exact H6|]. intros. by apply Genuine_mono.
  - rewrite Hact. cbn. constructor; [|done]. rewrite Hseq. intros (r & E & Hr)%list_elem_of_fmap.
    rewrite Forall_forall in H6. apply H6, Genuine_number in Hr. lia.
  - eapply Forall_impl; [exact H9|]. intros r [?|?]; [left; by apply Genuine_mono|by right].
  - intros Hc n. rewrite length_app. cbn [length]. intros Hn. rewrite Hact, fmap_cons, elem_of_cons, Hseq.
    destruct (decide (n = Z.of_nat (S (length done)))) as [->|]; [by left; left|].
    destruct (H12 Hc n ltac:(lia)); auto.
Qed.

(** All of them are. *)
Lemma Outgoing_number_all c user : ∀ sq ifq free rq closed k w done peer,
  Z.of_nat (length done + length user) < 2 ^ 32 →
  Outgoing user sq ifq free rq closed k w done peer →
  Outgoing [] (SendQueue.SendPackets (DataState.stamp_data c <$> user) true sq) ifq free rq closed k w
    (done ++ (GetPayload <$> user)) peer.
Proof.
  induction user as [|p user IH]; intros sq ifq free rq closed k w done peer Hb H.
  { cbn. by rewrite app_nil_r. }
  cbn [length] in Hb. apply (Outgoing_number c) in H; [|lia]. apply IH in H; [|len].
  rewrite <- app_assoc in H. exact H.
Qed.

(** The connection sends a packet of its own. *)
Lemma Outgoing_send_service p user sq ifq free rq closed k w done peer :
  ServicePacket rq p → Outgoing user sq ifq free rq closed k w done peer →
  Outgoing user (SendQueue.SendPackets [p] false sq) ifq free rq closed k w done peer.
Proof.
  intros Hp H. eapply (Outgoing_move _ _ _ _ _ _ _ _ _ _ _ _ _ []); [exact H|try done..]; try apply H.
  - destruct (og_kinds _ _ _ _ _ _ _ _ _ _ H) as [Hk1 Hk2]. split; [done|]. apply Forall_app. split; [done|].
    by repeat constructor.
  - by rewrite app_nil_r.
  - pose proof (og_service _ _ _ _ _ _ _ _ _ _ H) as Hs. cbn. rewrite !fmap_app, !Forall_app in *.
    destruct Hs. split_and!; try done. constructor; [|done]. by apply numbered_service.
Qed.

(** Timed-out packets are to be resent. *)
Lemma Outgoing_resend now user sq ifq free rq closed k w done peer :
  Outgoing user sq ifq free rq closed k w done peer →
  let '(out, ifq') := InFlightQueue.CheckTimeouts now ifq in
  Outgoing user (SendQueue.ReSendPackets out sq) ifq' free rq closed k w done peer.
Proof.
  intros H. pose proof (CheckTimeouts_numbers now ifq (og_keyed _ _ _ _ _ _ _ _ _ _ H)) as Hc.
  destruct (InFlightQueue.CheckTimeouts now ifq) as [out ifq']. destruct Hc as (Hp & Hk & Ea & El).
  eapply (Outgoing_move _ _ _ _ _ _ _ _ _ _ _ _ _ []); [exact H|try done..]; try apply H.
  - destruct (og_kinds _ _ _ _ _ _ _ _ _ _ H) as [Hk1 Hk2]. split; [|done]. cbn. rewrite !Forall_app in *.
    destruct Hk1. split_and!; try done. apply Forall_forall. intros o Ho.
    eapply keyed_needAck; [apply H|]. rewrite <- Hp. apply elem_of_app. by left.
  - rewrite app_nil_r. unfold active, all_held. rewrite <- Hp. cbn. rewrite !fmap_app. solve_Permutation.
  - rewrite El. apply H.
  - rewrite Ea. apply H.
Qed.

(** The speed controller is another one. *)
Lemma Outgoing_controller s user sq ifq free rq closed k w done peer :
  Outgoing user sq ifq free rq closed k w done peer →
  Outgoing user sq (InFlightQueue.set_controller s ifq) free rq closed k w done peer.
Proof. intros []. by split. Qed.

Lemma acked_all (l : list (OutgoingPacket P)) : Forall (λ o, op_needAck o = true) l → acked l = l ∧ unacked l = [].
Proof.
  unfold acked, unacked. induction 1 as [|o l Ho _ [IH1 IH2]]; [done|]. rewrite !filter_cons, Ho. cbn.
  by rewrite IH1, IH2.
Qed.
Lemma unacked_all (l : list (OutgoingPacket P)) : Forall (λ o, op_needAck o = false) l → acked l = [] ∧ unacked l = l.
Proof.
  unfold acked, unacked. induction 1 as [|o l Ho _ [IH1 IH2]]; [done|]. rewrite !filter_cons, Ho. cbn.
  by rewrite IH1, IH2.
Qed.
Lemma acked_app (l l' : list (OutgoingPacket P)) : acked (l ++ l') = acked l ++ acked l'.
Proof. apply filter_app. Qed.
Lemma unacked_app (l l' : list (OutgoingPacket P)) : unacked (l ++ l') = unacked l ++ unacked l'.
Proof. apply filter_app. Qed.

(** Service packets are handed to the sockets. *)
Lemma Outgoing_get_service user sq ifq free rq closed k w done peer :
  Outgoing user sq ifq free rq closed k w done peer →
  let '(out, sq') := SendQueue.GetServicePacketsToSend sq in
  Outgoing user sq' ifq free rq closed (k ++ out) (w ++ (op_packet <$> out)) done peer.
Proof.
  intros H. cbn. destruct (og_kinds _ _ _ _ _ _ _ _ _ _ H) as [Hk1 Hk2].
  destruct (unacked_all _ Hk2) as [E1 E2]. pose proof (og_service _ _ _ _ _ _ _ _ _ _ H) as Hs.
  apply Outgoing_wire.
  { rewrite fmap_app, Forall_app in Hs. eapply Forall_impl; [apply Hs|]. intros p Hp. by right. }
  eapply (Outgoing_move _ _ _ _ _ _ _ _ _ _ _ _ _ []); [exact H|try done..]; try apply H.
  - unfold active. cbn. by rewrite acked_app, E1, !app_nil_r.
  - cbn. rewrite unacked_app, E2. rewrite !fmap_app, !Forall_app in *. by destruct Hs.
Qed.

(** Data packets are. *)
Lemma Outgoing_get size out user sq sq' ifq free rq closed k w done peer :
  0 ≤ size → SendQueue.GetPacketsToSend size sq = Ret (out, sq') →
  Outgoing user sq ifq free rq closed k w done peer →
  Outgoing user sq' ifq free rq closed (k ++ out) (w ++ (op_packet <$> out)) done peer.
Proof.
  intros Hsz E H. destruct (GetPacketsToSend_splits sq size Hsz) as (low & resend & n & sq1 & E' & -> & Hp & _).
  rewrite E in E'. injection E' as -> ->.
  destruct (og_kinds _ _ _ _ _ _ _ _ _ _ H) as [Hk1 Hk2]. apply Forall_app in Hk1 as [Hk0 Hk1].
  rewrite <- Hp, Forall_app in Hk1. destruct Hk1 as [Hlow Hres].
  rewrite <- (take_drop n (sq_needToSend sq)), Forall_app in Hk0. destruct Hk0 as [Htake Hdrop].
  destruct (acked_all (low ++ take n (sq_needToSend sq))) as [E1 E2]; [by apply Forall_app|].
  assert (Hact : active (mkSendQueue resend (drop n (sq_needToSend sq)) (sq_serviceNeedToSend sq) (sq_nextPacketNumber sq))
    (k ++ low ++ take n (sq_needToSend sq)) ifq ≡ₚ active sq k ifq).
  { unfold active. cbn. rewrite acked_app, E1, !fmap_app.
    transitivity ((op_packet <$> take n (sq_needToSend sq) ++ drop n (sq_needToSend sq)) ++
      (op_packet <$> low ++ resend) ++ (op_packet <$> acked k) ++ all_held (if_samples ifq));
      [rewrite !fmap_app; solve_Permutation|]. rewrite take_drop, Hp. solve_Permutation. }
  eapply (Outgoing_wire); [apply Forall_forall; intros p Hin; left; rewrite Hact;
    unfold active; rewrite !fmap_app, <- Hp, fmap_app, !elem_of_app|].
  { rewrite fmap_app, elem_of_app in Hin. destruct Hin as [Hin|Hin]; [tauto|]. left. left.
    rewrite <- (take_drop n (sq_needToSend sq)), fmap_app, elem_of_app. by left. }
  eapply (Outgoing_move _ _ _ _ _ _ _ _ _ _ _ _ _ []); [exact H|try done..]; try apply H.
  - split; [|done]. by apply Forall_app.
  - by rewrite app_nil_r.
  - cbn. rewrite unacked_app, E2, app_nil_r. apply H.
Qed.

Lemma stamped_parts (l l' : list (OutgoingPacket P)) :
  Forall2 stamped_with_time l l' →
  op_packet <$> acked l' = op_packet <$> acked l ∧ op_packet <$> unacked l' = op_packet <$> unacked l.
Proof.
  unfold acked, unacked. induction 1 as [|o o' l l' [E1 E2] _ [IH1 IH2]]; [done|].
  rewrite !filter_cons. repeat case_decide; try congruence; rewrite ?fmap_cons; split; congruence.
Qed.

Lemma acked_perm (l l' : list (OutgoingPacket P)) : l ≡ₚ l' → acked l ≡ₚ acked l'.
Proof. apply filter_Permutation. Qed.
Lemma unacked_perm (l l' : list (OutgoingPacket P)) : l ≡ₚ l' → unacked l ≡ₚ unacked l'.
Proof. apply filter_Permutation. Qed.

(** What is in flight or with the sockets is part of what is active. *)
Lemma Outgoing_in_flight user sq ifq free rq closed k w done peer :
  Outgoing user sq ifq free rq closed k w done peer →
  NoDup (GetSeqNumber <$> ((op_packet <$> acked k) ++ all_held (if_samples ifq))).
Proof.
  intros H. pose proof (og_distinct _ _ _ _ _ _ _ _ _ _ H) as Hd. unfold active in Hd.
  rewrite fmap_app, NoDup_app in Hd. apply Hd.
Qed.

(** The sockets give packets back. *)
Lemma Outgoing_add_queue now given back k' user sq ifq free rq closed k w done peer :
  k ≡ₚ given ++ k' → Forall2 stamped_with_time given back →
  Outgoing user sq ifq free rq closed k w done peer →
  let '(internal, _, ifq') := InFlightQueue.AddQueue now back ifq in
  Outgoing user sq ifq' (free ++ internal) rq closed k' w done peer.
Proof.
  intros Hk Hb H. destruct (stamped_parts _ _ Hb) as [Ea Eu].
  pose proof (Outgoing_in_flight _ _ _ _ _ _ _ _ _ _ H) as Hnd.
  assert (op_packet <$> acked k ≡ₚ (op_packet <$> acked given) ++ (op_packet <$> acked k')) as Hka.
  { rewrite <- fmap_app, <- acked_app. by apply fmap_Permutation, acked_perm. }
  assert (op_packet <$> unacked k ≡ₚ (op_packet <$> unacked given) ++ (op_packet <$> unacked k')) as Hku.
  { rewrite <- fmap_app, <- unacked_app. by apply fmap_Permutation, unacked_perm. }
  rewrite Hka, (Permutation_app_comm (op_packet <$> acked given)), <- app_assoc, fmap_app, NoDup_app in Hnd.
  destruct Hnd as (_ & _ & Hnd).
  pose proof (AddQueue_numbers now back ifq (og_keyed _ _ _ _ _ _ _ _ _ _ H)) as Hq. rewrite Ea, Eu in Hq.
  specialize (Hq Hnd).
  destruct (InFlightQueue.AddQueue now back ifq) as [[internal freed] ifq']. destruct Hq as (-> & Hp & Hf & Hky & Hacks & El).
  pose proof (og_service _ _ _ _ _ _ _ _ _ _ H) as Hs.
  rewrite fmap_app, Hku, !Forall_app in Hs.
  destruct Hs as (Hs1 & Hs2 & Hs3).
  apply (Outgoing_free _ _ _ free _ closed).
  { apply Forall_app. split; [apply H|]. eapply Forall_impl; [exact Hs2|]. by intros p [? _]. }
  { done. }
  eapply (Outgoing_move _ _ _ _ _ _ _ _ _ _ _ _ _ freed); [exact H|try done..]; try apply H.
  - unfold active. rewrite Hka.
    transitivity ((op_packet <$> sq_needToSend sq ++ sq_resendPackets sq) ++ (op_packet <$> acked k') ++
      (freed ++ all_held (if_samples ifq'))); [solve_Permutation|]. rewrite Hp. solve_Permutation.
  - intros _. eapply Forall_impl; [exact Hf|]. intros p. apply H.
  - rewrite fmap_app, Forall_app. done.
  - rewrite El. apply H.
  - intros a Hin%Hacks. by apply (og_acks _ _ _ _ _ _ _ _ _ _ H).
Qed.

(** Acknowledged packets are freed. *)
Lemma Outgoing_process_acks now user sq ifq free rq closed k w done peer :
  Outgoing user sq ifq free rq closed k w done peer →
  Outgoing user sq (InFlightQueue.ProcessAcks now ifq).2 free rq closed k w done peer.
Proof.
  intros H. pose proof (Outgoing_in_flight _ _ _ _ _ _ _ _ _ _ H) as Hnd.
  rewrite fmap_app, NoDup_app in Hnd. destruct Hnd as (_ & _ & Hnd).
  pose proof (ProcessAcks_numbers now ifq (og_keyed _ _ _ _ _ _ _ _ _ _ H) Hnd) as Hq.
  destruct (InFlightQueue.ProcessAcks now ifq) as [freed ifq']. destruct Hq as (Hp & Hf & Hky & Hacks & El).
  eapply (Outgoing_move _ _ _ _ _ _ _ _ _ _ _ _ _ freed); [exact H|try done..]; try apply H; cbn [snd].
  - unfold active. rewrite <- !app_assoc. do 2 f_equiv. rewrite <- Hp. solve_Permutation.
  - intros _. apply Forall_forall. intros p Hpf. rewrite Forall_forall in Hf.
    destruct (Hf p Hpf) as [Hle|Hin]; [|by apply (og_acks _ _ _ _ _ _ _ _ _ _ H)].
    left. pose proof (og_last _ _ _ _ _ _ _ _ _ _ H).
    assert (Genuine done p) as Hg%Genuine_number; [|lia].
    pose proof (og_active _ _ _ _ _ _ _ _ _ _ H) as Ha. rewrite Forall_forall in Ha. apply Ha.
    unfold active. rewrite <- Hp, !elem_of_app. tauto.
  - rewrite El. apply H.
  - intros a Hin%Hacks. by apply (og_acks _ _ _ _ _ _ _ _ _ _ H).
Qed.

(** Acknowledgements of packets that have arrived are noted. *)
Lemma Outgoing_last_ack n user sq ifq free rq closed k w done peer :
  n < rq_begin peer → Outgoing user sq ifq free rq closed k w done peer →
  Outgoing user sq (InFlightQueue.SetLastAck n ifq) free rq closed k w done peer.
Proof.
  intros Hn H. eapply (Outgoing_move _ _ _ _ _ _ _ _ _ _ _ _ _ []); [exact H|try done..]; try apply H.
  - by rewrite app_nil_r.
  - pose proof (og_last _ _ _ _ _ _ _ _ _ _ H). cbn. lia.
Qed.

Lemma Outgoing_add_acks acks user sq ifq free rq closed k w done peer :
  Forall (has_received peer) acks → Outgoing user sq ifq free rq closed k w done peer →
  Outgoing user sq (InFlightQueue.AddAcks acks ifq) free rq closed k w done peer.
Proof.
  intros Hn H. eapply (Outgoing_move _ _ _ _ _ _ _ _ _ _ _ _ _ []); [exact H|try done..]; try apply H.
  - by rewrite app_nil_r.
  - cbn. intros a [Ha|Ha%elem_of_list_to_set]%elem_of_union.
    + by apply (og_acks _ _ _ _ _ _ _ _ _ _ H).
    + rewrite Forall_forall in Hn. auto.
Qed.

(** A closed connection gives everything up. *)
Lemma Outgoing_give_up user sq ifq free rq k w done peer :
  Outgoing user sq ifq free rq true k w done peer →
  Outgoing user sq (InFlightQueue.GetAllPackets ifq).2 free rq true k w done peer.
Proof.
  intros H. eapply (Outgoing_move _ _ _ _ _ _ _ _ _ _ _ _ _ (all_held (if_samples ifq))); [exact H|try done..]; try apply H.
  - unfold all_keyed. cbn. apply Forall_fmap, Forall_forall. intros s _ n o. cbn. by rewrite lookup_empty.
  - unfold active. rewrite <- !app_assoc. do 2 f_equiv.
    cbn [InFlightQueue.GetAllPackets InFlightQueue.set_samples snd if_samples].
    assert (all_held (snd ∘ Sample.FreePackets <$> if_samples ifq) = []) as ->; [|done].
    induction (if_samples ifq) as [|s ss IH]; [done|].
    rewrite fmap_cons, all_held_cons, IH, app_nil_r. unfold held, outgoing. cbn. by rewrite map_to_list_empty.
Qed.

End Sending.

(** ** One end *)

Section OneEnd.
Context {P : Type} `{!IPacket P, !IPacketLaws P}.
Implicit Types (c : Connection P) (p q : P) (peer : RecvQueue P) (k : list (OutgoingPacket P)) (w r : list P)
  (s sent : list (res (list Z))).

(** A connection that has sent [s] and received [r] of the [sent] of its peer. *)
Definition Sound c k w s peer : Prop :=
  ∃ done, s = done ++ (GetPayload <$> cn_sendUserData c) ∧
    Outgoing (cn_sendUserData c) (cn_sendQueue c) (cn_inFlightQueue c) (cn_freeInternalSendPackets c)
      (cn_recvQueue c) (cn_closed c) k w done peer.

Definition Fine c k w s peer sent r : Prop := Sound c k w s peer ∧ Incoming sent (cn_recvQueue c) r.

(** The fields that count. *)
Definition same_core c c' : Prop :=
  cn_sendUserData c' = cn_sendUserData c ∧ cn_sendQueue c' = cn_sendQueue c ∧
  cn_inFlightQueue c' = cn_inFlightQueue c ∧ cn_recvQueue c' = cn_recvQueue c.

Lemma same_core_fine c c' k w s peer sent r :
  same_core c c' → (Forall PacketOk (cn_freeInternalSendPackets c) → Forall PacketOk (cn_freeInternalSendPackets c')) →
  (cn_closed c' = false → cn_closed c = false) →
  Fine c k w s peer sent r → Fine c' k w s peer sent r.
Proof.
  intros (E1 & E2 & E3 & E4) Hf Hc [(done & Es & H) Hin]. split; [|by rewrite E4].
  exists done. rewrite E1, E2, E3, E4. split; [done|]. eapply Outgoing_free; [apply Hf, H|exact Hc|exact H].
Qed.

(** Each end of a change to the receive queue. *)
Lemma fine_recv rq c k w s peer sent r r' :
  Incoming sent rq r' ∧ grows (cn_recvQueue c) rq → Fine c k w s peer sent r →
  Fine (Connection.set_recvQueue rq c) k w s peer sent r'.
Proof.
  intros [Hin G] [(done & Es & H) _]. split; [|exact Hin]. exists done. split; [done|].
  by eapply Outgoing_grows; [exact G|reflexivity|].
Qed.

Lemma other_fine c c' k w s peer sent r :
  other_operation c c' → Fine c k w s peer sent r → Fine c' k w s peer sent r.
Proof.
  intros Ho. apply same_core_fine.
  - destruct Ho; try done; unfold same_core, Connection.GetFreeSendPackets, Connection.AddFreeRecvPackets;
      repeat case_match; done.
  - destruct Ho; try done; unfold Connection.GetFreeSendPackets, Connection.AddFreeRecvPackets;
      try (repeat case_match; done).
    intros Hf. cbn. by apply Forall_app.
  - destruct Ho; try done; unfold Connection.GetFreeSendPackets, Connection.AddFreeRecvPackets;
      repeat case_match; done.
Qed.

Lemma fine_Send data c k w s peer sent r :
  Forall UserPacket data → Fine c k w s peer sent r →
  Fine (Connection.Send data c) k w (s ++ (GetPayload <$> data)) peer sent r.
Proof.
  intros Hd [(done & Es & H) Hin]. split; [|by destruct data]. exists done. destruct data as [|p data].
  - rewrite app_nil_r. done.
  - split; [|by apply Outgoing_user]. cbn. by rewrite Es, <- app_assoc, fmap_app.
Qed.

Lemma fine_GetFreeSendPacket c k w s peer sent r :
  Fine c k w s peer sent r →
  let '(o, c') := Connection.GetFreeSendPacket c in
  Fine c' k w s peer sent r ∧ cn_recvQueue c' = cn_recvQueue c ∧ (∀ p, o = Some p → PacketOk p).
Proof.
  intros H. unfold Connection.GetFreeSendPacket. destruct (last _) as [p|] eqn:El; [|done].
  assert (Hf : Forall PacketOk (cn_freeInternalSendPackets c)) by (destruct H as [(? & _ & Ho) _]; apply Ho).
  split; [|split; [done|]].
  - eapply same_core_fine; [| | |exact H]; try done. intros _. by apply Forall_take.
  - intros q [= <-]. rewrite Forall_forall in Hf. apply Hf. by eapply last_Some_elem_of.
Qed.

Lemma fine_service p c k w s peer sent r :
  ServicePacket (cn_recvQueue c) p → Fine c k w s peer sent r →
  Fine (Connection.SendServicePackets [p] c) k w s peer sent r.
Proof.
  intros Hp [(done & Es & H) Hin]. split; [|exact Hin]. exists done. split; [exact Es|].
  by apply Outgoing_send_service.
Qed.

(** The packets of the opening acknowledge nothing. *)
Lemma opening_packet p q rq :
  PacketOk p → GetPacketType p = Syn ∨ GetPacketType p = SynAck → SetPayload [] p = Ret q → ServicePacket rq q.
Proof.
  intros Hp Ht E. destruct (SetPayload_nil p Hp) as (q' & E' & Hq & V). rewrite E in E'. injection E' as <-.
  unfold view in V. cbn in V. injection V. intros. split; [done|]. split; [by destruct Ht; congruence|].
  intros. destruct Ht; congruence.
Qed.

(** A packet of acknowledgements says what it was given. *)
Lemma sack_packet p q rq src dst addr acks :
  RecvQueue.Inv rq → PacketOk p → (length acks ≤ MaxAcksSize)%nat →
  Forall (has_received rq) acks → Forall (λ a, 0 ≤ a < 2 ^ 32) acks →
  SetAcks acks (SetAddr addr (SetAckNumber (RecvQueue.GetLastAck rq) (SetDstConnectionID dst
    (SetSrcConnectionID src (SetPacketType Sack p))))) = Ret q →
  ServicePacket rq q.
Proof.
  intros Hi H0 Hl Hr Hb E. destruct (view_SetPacketType Sack p H0) as [H1 E1].
  destruct (view_SetSrcConnectionID src _ H1) as [H2 E2]. destruct (view_SetDstConnectionID dst _ H2) as [H3 E3].
  destruct (view_SetAckNumber (RecvQueue.GetLastAck rq) _ H3) as [H4 E4]. destruct (view_SetAddr addr _ H4) as [H5 E5].
  rewrite E4, E3, E2, E1 in E5. set (x := SetAddr addr _) in *. clearbody x.
  assert (4 * length acks ≤ length (v_body (view x)))%nat as Hroom.
  { pose proof (view_SetAcks acks x H5) as HS. rewrite E in HS. destruct HS as [_ HS].
    destruct (view x) as [? ? ? ? ? ? ? ? bo]. cbn [v_write v_SetPayloadSize v_body] in HS |- *.
    destruct (Nat.leb_spec (length (acks ≫= le_split 4)) (length bo)) as [Hle|]; [|done].
    rewrite length_words_bytes in Hle. lia. }
  destruct (SetAcks_spec acks x H5 Hl Hroom Hb) as (q' & sz & bo & E' & Hq & Ha & V).
  rewrite E in E'. injection E' as <-. rewrite E5 in V. destruct (view p). cbn in V.
  unfold view in V. injection V. intros.
  assert (GetPacketType q = Sack) as Et by (etransitivity; [eassumption|reflexivity]).
  split; [done|]. split; [by rewrite Et|]. intros _. split.
  - pose proof (inv_begin _ Hi). unfold RecvQueue.GetLastAck in *. rewrite !wrap_small in * by (rewrite ?wrap_small; lia). lia.
  - intros acks' Hacks'. congruence.
Qed.

Lemma has_received_range rq a : RecvQueue.Inv rq → has_received rq a → 0 ≤ a < 2 ^ 32.
Proof.
  intros Hi [?|(p & _ & <-)]; [|apply number_range]. pose proof (inv_begin _ Hi). lia.
Qed.

Lemma fine_send_acks lastAck k w s peer sent r fuel : ∀ acks c c',
  Forall (has_received (cn_recvQueue c)) acks → Fine c k w s peer sent r →
  DataState.send_acks fuel lastAck acks c = Ret c' →
  Fine c' k w s peer sent r ∧ cn_recvQueue c' = cn_recvQueue c.
Proof.
  induction fuel as [|fuel IH]; intros acks c c' Ha H E.
  { destruct acks; [|done]. by injection E as <-. }
  destruct acks as [|a acks]; [by injection E as <-|]. cbn [DataState.send_acks] in E.
  pose proof (fine_GetFreeSendPacket c k w s peer sent r H) as Hg.
  destruct (Connection.GetFreeSendPacket c) as [[p|] c1]; [|injection E as <-; tauto].
  destruct Hg as (H1 & Erq & Hok). specialize (Hok p eq_refl).
  pose proof (fill_acks_spec lastAck (a :: acks) [] ltac:(cbn; lia)) as Hfill.
  destruct (DataState.fill_acks lastAck (a :: acks) []) as [picked rest].
  destruct Hfill as (taken & Etaken & -> & Hlen & _). cbn [app] in *.
  rewrite Etaken, <- Erq, Forall_app in Ha. destruct Ha as [Ht Hrest].
  apply bind_ret in E as (q & Eq & E).
  assert (Forall (has_received (cn_recvQueue c1)) (filter (λ a, lastAck ≤ a) taken)) as Hpick.
  { apply Forall_forall. intros x [_ Hx]%list_elem_of_filter. rewrite Forall_forall in Ht. auto. }
  assert (Hi : RecvQueue.Inv (cn_recvQueue c1)) by (apply (in_inv _ _ _ (proj2 H1))).
  apply sack_packet in Eq; [|done..|].
  2: { eapply Forall_impl; [exact Hpick|]. intros x. by apply has_received_range. }
  apply IH in E as [E1 E2]; [split; [exact E1|by rewrite E2]|exact Hrest|by apply fine_service].
Qed.

(** A turn of [DataState]. *)
Lemma fine_DataState now c k w s peer sent r st c' :
  Z.of_nat (length s) < 2 ^ 32 →
  Fine c k w s peer sent r → DataState.SendPackets now c = Ret (st, c') →
  Fine c' k w s peer sent r ∧ grows (cn_recvQueue c) (cn_recvQueue c').
Proof.
  intros Hb H E. unfold DataState.SendPackets in E.
  pose proof (acks_incoming _ _ _ (proj2 H)) as Hacks.
  pose proof (in_acks _ _ _ (proj2 H)) as Ha. destruct Hacks as [Hin G].
  pose proof (fine_recv _ _ _ _ _ _ _ _ _ (conj Hin G) H) as H1.
  unfold RecvQueue.GetSelectiveAcks in *. cbn [fst snd] in *. set (rq := mkRecvQueue _ _ _ _) in *.
  apply bind_ret in E as (c1 & E1 & E).
  apply (fine_send_acks _ k w s peer sent r) in E1 as [H2 Erq]; [| |exact H1].
  2: { cbn. eapply Forall_impl; [exact Ha|]. apply G. }
  cbn in Erq. rewrite <- Erq in G. clear Erq H1 Hin Ha. clearbody rq.
  revert E. unfold Connection.CheckTimeouts. pose proof H2 as [(done & Es & Ho) Hin].
  pose proof (Outgoing_resend now _ _ _ _ _ _ _ _ _ _ Ho) as Hr.
  destruct (InFlightQueue.CheckTimeouts now (cn_inFlightQueue c1)) as [out ifq].
  set (c2 := match out with [] => _ | _ => _ end).
  assert (Fine c2 k w s peer sent r ∧ cn_recvQueue c2 = cn_recvQueue c1) as [H3 E3].
  { subst c2. destruct out as [|o out]; (split; [split; [exists done; split; [exact Es|]|exact Hin]|done]); [|exact Hr].
    cbn in Hr |- *. unfold SendQueue.ReSendPackets in Hr. rewrite app_nil_r in Hr. by destruct (cn_sendQueue c1). }
  clearbody c2. clear H2 Es Ho Hin Hr. rewrite <- E3 in G. clear E3. unfold Connection.GetSendUserData.
  intros [= <- <-]. destruct H3 as [(done' & Es & Ho) Hin]. destruct (cn_sendUserData c2) as [|p data] eqn:Ed.
  - split; [|exact G]. split; [|exact Hin]. exists done'. cbn. by split.
  - split; [|exact G]. split; [|exact Hin].
    exists (done' ++ (GetPayload <$> p :: data)). cbn [cn_sendUserData]. split; [cbn; by rewrite app_nil_r|].
    apply (Outgoing_number_all (Connection.set_sendUserData [] c2)) in Ho;
      [|rewrite Es, length_app, length_fmap in Hb; exact Hb].
    exact Ho.
Qed.

Lemma fine_SendPackets st now c k w s peer sent r st' c' :
  Z.of_nat (length s) < 2 ^ 32 →
  Fine c k w s peer sent r → @is_SendPackets P (states st) now c = Ret (st', c') →
  Fine c' k w s peer sent r ∧ grows (cn_recvQueue c) (cn_recvQueue c').
Proof.
  intros Hb H E. destruct st; cbn [states is_SendPackets] in E; try discriminate E.
  - unfold SendingSynState.SendPackets in E. pose proof (fine_GetFreeSendPacket c k w s peer sent r H) as Hg.
    destruct (Connection.GetFreeSendPacket c) as [[p|] c1]; destruct Hg as (H1 & Erq & Hok); [|inv_res; by rewrite Erq].
    apply bind_ret in E as (q & Eq & [= <- <-]). split; [|cbn; by rewrite Erq]. apply fine_service; [|exact H1].
    destruct (view_SetPacketType Syn p (Hok p eq_refl)) as [Hp1 E1].
    destruct (view_SetSrcConnectionID (Connection.GetID c1) _ Hp1) as [Hp2 E2].
    destruct (view_SetAddr (Connection.GetAddr c1) _ Hp2) as [Hp3 E3].
    eapply opening_packet; [exact Hp3|left|exact Eq]. rewrite E2, E1 in E3. unfold view in E3. cbn in E3. by injection E3.
  - by injection E as <- <-.
  - unfold SendingSynAckState.SendPackets in E. pose proof (fine_GetFreeSendPacket c k w s peer sent r H) as Hg.
    destruct (Connection.GetFreeSendPacket c) as [[p|] c1]; destruct Hg as (H1 & Erq & Hok); [|inv_res; by rewrite Erq].
    apply bind_ret in E as (q & Eq & [= <- <-]). split; [|cbn; by rewrite Erq]. apply fine_service; [|exact H1].
    destruct (view_SetPacketType SynAck p (Hok p eq_refl)) as [Hp0 E0].
    destruct (view_SetDstConnectionID (Connection.GetDestinationID c1) _ Hp0) as [Hp1 E1].
    destruct (view_SetSrcConnectionID (Connection.GetID c1) _ Hp1) as [Hp2 E2].
    destruct (view_SetAddr (Connection.GetAddr c1) _ Hp2) as [Hp3 E3].
    eapply opening_packet; [exact Hp3|right|exact Eq]. rewrite E2, E1, E0 in E3. unfold view in E3. cbn in E3. by injection E3.
  - by eapply fine_DataState.
Qed.

Lemma fine_ProcessInflightPackets st now c k w s peer sent r :
  Fine c k w s peer sent r →
  let c' := @is_ProcessInflightPackets P (states st) now c in
  Fine c' k w s peer sent r ∧ grows (cn_recvQueue c) (cn_recvQueue c').
Proof.
  intros H. assert (@is_ProcessInflightPackets P (states st) = BasicConnectionState.ProcessInflightPackets) as -> by by destruct st.
  unfold BasicConnectionState.ProcessInflightPackets, Connection.ProcessAcks.
  destruct H as [(done & Es & Ho) Hin]. apply (Outgoing_process_acks now) in Ho.
  destruct (InFlightQueue.ProcessAcks now (cn_inFlightQueue c)) as [free ifq]. cbn [snd] in Ho.
  split; [|by destruct free]. split; [|by destruct free]. exists done. by destruct free.
Qed.

Lemma fine_Run_store st now c k w s peer sent r c' :
  Z.of_nat (length s) < 2 ^ 32 →
  Fine c k w s peer sent r → Run_store st now c = Ret c' →
  Fine c' k w s peer sent r ∧ grows (cn_recvQueue c) (cn_recvQueue c').
Proof.
  intros Hb H E. unfold Run_store in E. apply bind_ret in E as ([st' c1] & E & [= <-]).
  apply (fine_SendPackets st now c k w s peer sent r) in E as [H1 G]; [|done..].
  pose proof (fine_ProcessInflightPackets st now (Connection.set_connectionState st' c1) k w s peer sent r) as H2.
  destruct H2 as [H2 G2]; [by eapply same_core_fine; [| | |exact H1]|]. split; [exact H2|]. etransitivity; [exact G|exact G2].
Qed.

Lemma fine_Run now c k w s peer sent r c' :
  Z.of_nat (length s) < 2 ^ 32 →
  Fine c k w s peer sent r → ConnectionRun.Run now c = Ret c' →
  Fine c' k w s peer sent r ∧ grows (cn_recvQueue c) (cn_recvQueue c').
Proof.
  intros Hb H E. unfold ConnectionRun.Run in E. case_match.
  - apply bind_ret in E as ([st c1] & E & [= <-]).
    assert (same_core c c1 ∧ cn_freeInternalSendPackets c1 = cn_freeInternalSendPackets c ∧
      (cn_closed c1 = false → cn_closed c = false)) as (Hc & Hf & Hcl).
    { destruct (cn_connectionState c); try discriminate E; by injection E as <- <-. }
    destruct Hc as (E1 & E2 & E3 & E4). split; [|cbn; by rewrite E4].
    eapply same_core_fine; [| | |exact H]; [done|by rewrite <- Hf|done].
  - by eapply fine_Run_store.
Qed.

Lemma fine_Recv stop free got c c' k w s peer sent r :
  Fine c k w s peer sent r → Connection.Recv stop free c = (got, c') →
  Fine c' k w s peer sent (r ++ default [] got) ∧ grows (cn_recvQueue c) (cn_recvQueue c').
Proof.
  intros H E. unfold Connection.Recv in E. set (c1 := match free with [] => c | _ => _ end) in *.
  assert (Fine c1 k w s peer sent r ∧ cn_recvQueue c1 = cn_recvQueue c) as [H1 <-] by (subst c1; by destruct free).
  clearbody c1. case_match; [case_match|]; injection E as <- <-; cbn [default]; rewrite ?app_nil_r; try done.
  pose proof (take_incoming _ _ _ (proj2 H1)) as [Hin G]. split; [|exact G].
  by eapply fine_recv.
Qed.

Lemma fine_GetPacketsToSend now out c c' k w s peer sent r :
  Fine c k w s peer sent r → Connection.GetPacketsToSend now c = Ret (out, c') →
  Fine c' (k ++ out) (w ++ (op_packet <$> out)) s peer sent r ∧ cn_recvQueue c' = cn_recvQueue c.
Proof.
  intros [(done & Es & Ho) Hin] E. unfold Connection.GetPacketsToSend in E.
  apply Outgoing_get_service in Ho. destruct (SendQueue.GetServicePacketsToSend (cn_sendQueue c)) as [service sq].
  cbn [Connection.set_sendQueue cn_inFlightQueue] in E. apply bind_ret in E as ([size ifq] & Ei & E).
  unfold InFlightQueue.GetNumberPacketToSend in Ei. apply bind_ret in Ei as ([n ctl] & _ & [= <- <-]).
  apply (Outgoing_controller ctl) in Ho. case_match.
  { injection E as <- <-. split; [|done]. split; [|exact Hin]. by exists done. }
  apply bind_ret in E as ([data sq'] & Eg & E). cbn [Connection.set_inFlightQueue cn_sendQueue Connection.set_sendQueue] in Eg.
  apply bind_ret in E as (u & Ea & [= <- <-]). destruct u. apply assert_that_ret, Z.leb_le in Ea.
  apply (Outgoing_get n data _ _ sq') in Ho; [|lia|exact Eg].
  apply (Outgoing_controller (SpeedController.RevertNumberPacketToSend
    (match data with [] => n - Z.of_nat (length data) | _ => 0 end) ctl)) in Ho.
  split; [|done]. split; [|exact Hin]. exists done. split; [exact Es|]. rewrite fmap_app, !app_assoc.
  exact Ho.
Qed.

Lemma fine_ProcessSentPackets now given back k' c k w s peer sent r :
  k ≡ₚ given ++ k' → Forall2 stamped_with_time given back → Fine c k w s peer sent r →
  let c' := Connection.ProcessSentPackets now back c in
  Fine c' k' w s peer sent r ∧ cn_recvQueue c' = cn_recvQueue c.
Proof.
  intros Hk Hb [(done & Es & Ho) Hin]. unfold Connection.ProcessSentPackets.
  apply (Outgoing_add_queue now given back k') in Ho; [|done..].
  destruct (InFlightQueue.AddQueue now back (cn_inFlightQueue c)) as [[internal freed] ifq].
  destruct freed; (split; [split; [by exists done|exact Hin]|done]).
Qed.

(** A packet of the peer, whether it is data or not. *)
Lemma fine_RecvPacket q got c c' k w s peer sent r :
  Z.of_nat (length sent) < 2 ^ 32 → Genuine sent q →
  Fine c k w s peer sent r → Connection.RecvPacket q c = Ret (got, c') →
  Fine c' k w s peer sent r ∧ grows (cn_recvQueue c) (cn_recvQueue c').
Proof.
  intros Hb Hq H E. unfold Connection.RecvPacket in E. apply bind_ret in E as ([[st fr] rq] & Ea & E).
  destruct (AddPacket_incoming _ _ _ _ _ _ _ Hb (proj2 H) Hq Ea) as [Hin G].
  pose proof (fine_recv rq _ _ _ _ _ _ _ _ (conj Hin G) H) as H1.
  destruct st; try done; by injection E as <- <-.
Qed.

Lemma fine_last_ack n c k w s peer sent r :
  n < rq_begin peer → Fine c k w s peer sent r → Fine (Connection.SetLastAck n c) k w s peer sent r.
Proof.
  intros Hn [(done & Es & Ho) Hin]. split; [|exact Hin]. exists done. split; [exact Es|].
  by apply Outgoing_last_ack.
Qed.

Lemma fine_add_acks acks c k w s peer sent r :
  Forall (has_received peer) acks → Fine c k w s peer sent r → Fine (Connection.AddAcks acks c) k w s peer sent r.
Proof.
  intros Hn [(done & Es & Ho) Hin]. split; [|exact Hin]. exists done. split; [exact Es|].
  by apply Outgoing_add_acks.
Qed.

Definition FromPeer sent peer q : Prop := Genuine sent q ∨ ServicePacket peer q.

Lemma fine_state_OnRecvPackets st q st' free c c' k w s peer sent r :
  Z.of_nat (length sent) < 2 ^ 32 → RecvQueue.Inv peer → FromPeer sent peer q →
  Fine c k w s peer sent r → @is_OnRecvPackets P (states st) q c = Ret (st', free, c') →
  Fine c' k w s peer sent r ∧ grows (cn_recvQueue c) (cn_recvQueue c').
Proof.
  intros Hb Hi Hq H E. pose proof (inv_begin _ Hi).
  assert (Hdata : GetPacketType q = Data → Genuine sent q) by (destruct Hq as [|(_ & ? & _)]; done).
  assert (Hgot : ∀ got c1 c2, Fine c1 k w s peer sent r → GetPacketType q = Data →
    Connection.RecvPacket q c1 = Ret (got, c2) → Fine c2 k w s peer sent r ∧ grows (cn_recvQueue c1) (cn_recvQueue c2)).
  { intros got c1 c2 H1 Ht. by apply fine_RecvPacket; auto. }
  destruct st; cbn [states is_OnRecvPackets] in E; try discriminate E.
  - unfold WaitingSynState.OnRecvPackets in E. repeat case_match; inv_res; try done.
    split; [|done]. by eapply same_core_fine; [| | |exact H].
  - unfold WaitingSynAckState.OnRecvPackets in E. case_match.
    { inv_res. split; [|done]. by eapply same_core_fine; [| | |exact H]. }
    case_match eqn:Et; try discriminate E.
    + inv_res. done.
    + apply bind_ret in E as ([got c2] & E & [= <- <- <-]). by eapply Hgot in E.
  - unfold DataState.OnRecvPackets in E. case_match eqn:Et; try discriminate E.
    + by inv_res.
    + apply bind_ret in E as ([got c2] & E & [= <- <- <-]).
      destruct (Hdata eq_refl) as (_ & _ & Ha & _). rewrite Ha in E.
      eapply Hgot in E; [exact E|apply fine_last_ack; [lia|done]|done].
    + destruct Hq as [(_ & Ht & _)|(_ & _ & Hs)]; [congruence|]. destruct (Hs Et) as [Hl Ha].
      apply bind_ret in E as (acks & Eacks & [= <- <- <-]). split; [|done].
      apply fine_add_acks; [by apply Ha|]. by apply fine_last_ack.
Qed.

Lemma fine_OnRecvPackets now q free c c' k w s peer sent r :
  Z.of_nat (length sent) < 2 ^ 32 → RecvQueue.Inv peer → FromPeer sent peer q →
  Fine c k w s peer sent r → ConnectionRun.OnRecvPackets now q c = Ret (free, c') →
  Fine c' k w s peer sent r ∧ grows (cn_recvQueue c) (cn_recvQueue c').
Proof.
  intros Hb Hi Hq H E. unfold ConnectionRun.OnRecvPackets in E.
  apply bind_ret in E as ([[st' fr] c1] & E & [= <- <-]).
  eapply fine_state_OnRecvPackets in E as [H1 G]; [|done..|by eapply same_core_fine; [| | |exact H]].
  split; [|exact G]. by eapply same_core_fine; [| | |exact H1].
Qed.

Lemma fine_ProcessRecvPackets c c' k w s peer sent r :
  Fine c k w s peer sent r → Connection.ProcessRecvPackets c = Ret c' →
  Fine c' k w s peer sent r ∧ grows (cn_recvQueue c) (cn_recvQueue c').
Proof.
  intros H E. unfold Connection.ProcessRecvPackets in E. case_match; [by injection E as <-|].
  apply bind_ret in E as (rq & E & [= <-]). destruct (process_incoming _ _ _ _ (proj2 H) E) as (Hin & G & _).
  split; [|exact G]. by eapply fine_recv.
Qed.

Lemma fine_CleanFreeSendPackets c k w s peer sent r :
  cn_closed c = true → Fine c k w s peer sent r →
  let c' := (Connection.CleanFreeSendPackets c).2 in
  Fine c' k w s peer sent r ∧ cn_recvQueue c' = cn_recvQueue c.
Proof.
  intros Hc [(done & Es & Ho) Hin]. rewrite Hc in Ho. apply Outgoing_give_up in Ho.
  unfold Connection.CleanFreeSendPackets. cbn [Connection.set_cleanSendBuffers cn_inFlightQueue].
  destruct (InFlightQueue.GetAllPackets (cn_inFlightQueue c)) as [free ifq].
  split; [|done]. split; [|exact Hin]. exists done. split; [done|]. cbn. by rewrite Hc.
Qed.

End OneEnd.

(** ** Both ends *)

(** What the two users see of one direction of a reliable channel: the payloads sent
    and the payloads received.  Sending appends; the next payload to be received is
    the first one not received yet. *)
Inductive fifo {A : Type} : list A * list A → list A * list A → Prop :=
  | fifo_send sent received x : fifo (sent, received) (sent ++ [x], received)
  | fifo_deliver sent received x : sent !! length received = Some x → fifo (sent, received) (sent, received ++ [x]).

Lemma fifo_sends {A} (sent received more : list A) : rtc fifo (sent, received) (sent ++ more, received).
Proof.
  revert sent. induction more as [|x more IH]; intros sent; [by rewrite app_nil_r|].
  eapply rtc_l; [apply (fifo_send _ _ x)|]. specialize (IH (sent ++ [x])). by rewrite <- app_assoc in IH.
Qed.

Lemma fifo_delivers {A} (sent received more : list A) :
  received ++ more `prefix_of` sent → rtc fifo (sent, received) (sent, received ++ more).
Proof.
  revert received. induction more as [|x more IH]; intros received Hp; [by rewrite app_nil_r|].
  eapply rtc_l; [apply (fifo_deliver _ _ x)|].
  - destruct Hp as [rest ->]. rewrite <- app_assoc. cbn. by rewrite list_lookup_middle.
  - specialize (IH (received ++ [x])). rewrite <- app_assoc in IH. exact (IH Hp).
Qed.

Section BothEnds.
Context {P : Type} `{!IPacket P, !IPacketLaws P}.
Implicit Types (a b e o : Endpoint P) (c : Connection P) (p q : P).

Definition recv_queue e : RecvQueue P := cn_recvQueue (ep_connection e).

(** The sequence numbers have not gone round. *)
Definition few e : Prop := Z.of_nat (length (ep_sent e)) < 2 ^ 32.

Definition EndInv e o : Prop :=
  Fine (ep_connection e) (ep_sockets e) (ep_wire e) (ep_sent e) (recv_queue o) (ep_sent o) (ep_received e).

Lemma make_fine state addr id now : Fine (Connection.make state addr id now : Connection P) [] [] [] RecvQueue.make [] [].
Proof. split; [|apply make_incoming]. exists []. split; [done|]. apply make_outgoing. Qed.

(** The other end goes on. *)
Lemma Fine_other c k w s peer sent r peer' more :
  grows peer peer' → Fine c k w s peer sent r → Fine c k w s peer' (sent ++ more) r.
Proof.
  intros G [(done & Es & Ho) Hin]. split; [|by apply Incoming_mono]. exists done. split; [done|].
  by eapply Outgoing_grows; [reflexivity|exact G|].
Qed.

(** What is on the wire is a packet of the other end. *)
Lemma wire_from_peer e o p : EndInv o e → p ∈ ep_wire o → PacketOk p ∧ FromPeer (ep_sent o) (recv_queue o) p.
Proof.
  intros [(done & Es & Ho) _] Hp. pose proof (og_wire _ _ _ _ _ _ _ _ _ _ Ho) as Hw.
  rewrite Forall_forall in Hw. destruct (Hw p Hp) as [Hg|Hs].
  - split; [apply Hg|]. left. rewrite Es. by apply Genuine_mono.
  - split; [apply Hs|]. by right.
Qed.

Lemma no_more {A} (l : list A) : ∃ more, l = l ++ more.
Proof. exists []. by rewrite app_nil_r. Qed.

Lemma endpoint_step_inv e e' o :
  few e' → few o → EndInv e o → EndInv o e → endpoint_step (ep_wire o) e e' →
  EndInv e' o ∧ grows (recv_queue e) (recv_queue e') ∧ (∃ more, ep_sent e' = ep_sent e ++ more) ∧
  ∃ got, ep_received e' = ep_received e ++ got.
Proof.
  unfold few, EndInv, recv_queue. intros Hb Hbo H Ho Hstep.
  assert (Hi : RecvQueue.Inv (cn_recvQueue (ep_connection o))) by apply (in_inv _ _ _ (proj2 Ho)).
  destruct Hstep as [data c k w s r Hd|stop data c k w s r Hd|stop free got c c' k w s r E|c c' k w s r Hop
    |now c c' k w s r E|read now c c' k w s r E|now out c c' k w s r E|now given back k' c k w s r Hk Hback
    |now p q free c c' k w s r Hp Hcopy E|c c' k w s r E|c k w s r Hc];
    cbn [ep_connection ep_sockets ep_wire ep_sent ep_received] in *.
  - split; [by apply fine_Send|]. split; [by destruct data|]. split; [by eexists|]. apply no_more.
  - apply (fine_Send data) in H; [|done]. unfold Connection.Send2.
    set (c1 := match data with [] => c | _ => _ end).
    assert (Fine c1 k w (s ++ (GetPayload <$> data)) (cn_recvQueue (ep_connection o)) (ep_sent o) r ∧
      cn_recvQueue c1 = cn_recvQueue c) as [H1 E1].
    { subst c1. destruct data; [done|]. split; [|done]. by eapply same_core_fine; [| | |exact H]. }
    pose proof (other_fine _ _ _ _ _ _ _ _ (oo_GetFreeSendPackets stop (Connection.NotifySendPacketsEvent c1)) H1) as H2.
    unfold Connection.GetFreeSendPackets in *. cbn [Connection.NotifySendPacketsEvent Connection.set_notified cn_freeUserSendPackets] in *.
    split; [|split; [|split; [by eexists|apply no_more]]].
    + repeat case_match; by simplify_eq/=.
    + repeat case_match; simplify_eq/=; by rewrite E1.
  - destruct (fine_Recv _ _ _ _ _ _ _ _ _ _ _ H E) as [H1 G]. split; [exact H1|]. split; [exact G|].
    split; [apply no_more|by eexists].
  - pose proof (other_fine _ _ _ _ _ _ _ _ Hop H) as H1. split; [exact H1|].
    assert (cn_recvQueue c' = cn_recvQueue c) as ->.
    { destruct Hop; try done; unfold Connection.GetFreeSendPackets, Connection.AddFreeRecvPackets; repeat case_match; done. }
    split; [done|]. split; apply no_more.
  - destruct (fine_Run _ _ _ _ _ _ _ _ _ Hb H E) as [H1 G].
    split; [exact H1|]. split; [exact G|]. split; apply no_more.
  - destruct (fine_Run_store _ _ _ _ _ _ _ _ _ _ Hb H E) as [H1 G].
    split; [exact H1|]. split; [exact G|]. split; apply no_more.
  - destruct (fine_GetPacketsToSend _ _ _ _ _ _ _ _ _ _ H E) as [H1 Erq]. rewrite Erq.
    split; [exact H1|]. split; [done|]. split; apply no_more.
  - destruct (fine_ProcessSentPackets now _ _ _ _ _ _ _ _ _ _ Hk Hback H) as [H1 Erq]. rewrite Erq.
    split; [exact H1|]. split; [done|]. split; apply no_more.
  - destruct (wire_from_peer (mkEndpoint c k w s r) o p Ho Hp) as [Hok Hfrom].
    assert (FromPeer (ep_sent o) (recv_queue o) q) as Hq.
    { destruct Hfrom; [left; by eapply Copy_genuine|right; by eapply Copy_service]. }
    destruct (fine_OnRecvPackets _ _ _ _ _ _ _ _ _ _ _ Hbo Hi Hq H E) as [H1 G].
    split; [exact H1|]. split; [exact G|]. split; apply no_more.
  - destruct (fine_ProcessRecvPackets _ _ _ _ _ _ _ _ H E) as [H1 G].
    split; [exact H1|]. split; [exact G|]. split; apply no_more.
  - destruct (fine_CleanFreeSendPackets _ _ _ _ _ _ _ Hc H) as [H1 Erq]. rewrite Erq.
    split; [exact H1|]. split; [done|]. split; apply no_more.
Qed.

(** The whole system. *)
Definition SystemInv (x : Endpoint P * Endpoint P) : Prop := EndInv x.1 x.2 ∧ EndInv x.2 x.1.

(** One direction as its users see it. *)
Definition flow a b : list (res (list Z)) * list (res (list Z)) := (ep_sent a, GetPayload <$> ep_received b).

Lemma EndInv_other e o o' more :
  grows (recv_queue o) (recv_queue o') → ep_sent o' = ep_sent o ++ more → EndInv e o → EndInv e o'.
Proof. unfold EndInv. intros G -> H. by eapply Fine_other. Qed.

Lemma few_before e e' more : ep_sent e' = ep_sent e ++ more → few e' → few e.
Proof. unfold few. intros ->. len. Qed.

(** What was received is a beginning of what was sent. *)
Lemma received_prefix a b : few a → EndInv b a →
  GetPayload <$> (ep_received b ++ rq_data (recv_queue b)) =
  take (length (ep_received b ++ rq_data (recv_queue b))) (ep_sent a).
Proof. intros Hb [_ Hin]. by apply incoming_prefix. Qed.

(** A step of either end is some steps of both channels. *)
Lemma flow_step a a' b b' more got :
  ep_sent a' = ep_sent a ++ more → ep_received b' = ep_received b ++ got →
  few a' → EndInv b' a' → rtc fifo (flow a b) (flow a' b').
Proof.
  intros Es Er Hb H. apply received_prefix in H; [|done]. unfold flow. rewrite Es.
  etransitivity; [apply fifo_sends|]. rewrite Er in *. rewrite fmap_app. apply fifo_delivers.
  rewrite <- fmap_app, <- Es. rewrite fmap_app in H. exists (drop (length (ep_received b ++ got)) (ep_sent a')).
  rewrite <- (take_drop (length (ep_received b ++ got)) (ep_sent a')) at 1. f_equal.
  apply (f_equal (take (length (ep_received b ++ got)))) in H.
  rewrite take_app_le, take_ge in H by (rewrite length_fmap; lia).
  rewrite H, take_take. f_equal. len.
Qed.

Definition few2 (x : Endpoint P * Endpoint P) : Prop := few x.1 ∧ few x.2.

Lemma system_step_inv x y :
  system_step x y → few2 y →
  few2 x ∧ (SystemInv x → SystemInv y ∧ rtc fifo (flow x.1 x.2) (flow y.1 y.2) ∧ rtc fifo (flow x.2 x.1) (flow y.2 y.1)).
Proof.
  intros Hstep [Ha Hb]. destruct Hstep as [a a' b Hs|a b b' Hs]; cbn [fst snd] in *.
  - assert (few a) as Ha0.
    { inversion Hs; subst; try done; unfold few in *; cbn in *; revert Ha; rewrite length_app; lia. }
    split; [by split|]. intros [H1 H2]. cbn [fst snd] in *.
    destruct (endpoint_step_inv a a' b Ha Hb H1 H2 Hs) as (H1' & G & [more Es] & [got Er]).
    pose proof (EndInv_other b a a' more G Es H2) as H2'.
    split; [by split|]. split; cbn [fst snd].
    + by eapply (flow_step a a' b b more []); rewrite ?app_nil_r.
    + by eapply (flow_step b b a a' [] got); rewrite ?app_nil_r.
  - assert (few b) as Hb0.
    { inversion Hs; subst; try done; unfold few in *; cbn in *; revert Hb; rewrite length_app; lia. }
    split; [by split|]. intros [H1 H2]. cbn [fst snd] in *.
    destruct (endpoint_step_inv b b' a Hb Ha H2 H1 Hs) as (H2' & G & [more Es] & [got Er]).
    pose proof (EndInv_other a b b' more G Es H1) as H1'.
    split; [by split|]. split; cbn [fst snd].
    + by eapply (flow_step a a b b' [] got); rewrite ?app_nil_r.
    + by eapply (flow_step b b' a a more []); rewrite ?app_nil_r.
Qed.

Section Runs.
Variables (state1 state2 : ConnectionState) (addr1 addr2 : ConnectionAddr) (id1 id2 now1 now2 : Z).

Definition system_start : Endpoint P * Endpoint P :=
  (new_endpoint state1 addr1 id1 now1, new_endpoint state2 addr2 id2 now2).

Lemma reachable_inv x :
  rtc system_step system_start x → few2 x →
  SystemInv x ∧ rtc fifo ([], []) (flow x.1 x.2) ∧ rtc fifo ([], []) (flow x.2 x.1).
Proof.
  revert x. apply (rtc_ind_r (λ x, few2 x → _)).
  - intros _. split; [|done]. split; apply make_fine.
  - intros x y _ Hs IH Hy. destruct (system_step_inv x y Hs Hy) as [Hx Hxy]. destruct (IH Hx) as (Hi & F1 & F2).
    destruct (Hxy Hi) as (Hi' & G1 & G2). split; [done|].
    split; [etransitivity; [exact F1|exact G1]|etransitivity; [exact F2|exact G2]].
Qed.

(** C1: Reliable delivery: two connections over a network that loses, repeats and reorders
    packets are a pair of reliable channels.  In every run what each user sees is a run
    of a first-in first-out channel, so what was received is the beginning of what was
    sent, in order, without gaps or repetitions. *)
Theorem channel_refines_fifo a b :
  rtc system_step system_start (a, b) → few a → few b →
  rtc fifo ([], []) (ep_sent a, GetPayload <$> ep_received b) ∧
  GetPayload <$> ep_received b = take (length (ep_received b)) (ep_sent a).
Proof.
  intros H Ha Hb. destruct (reachable_inv (a, b) H (conj Ha Hb)) as ([_ Hi] & F & _). split; [exact F|].
  pose proof (received_prefix a b Ha Hi) as Hp. rewrite fmap_app in Hp.
  apply (f_equal (take (length (ep_received b)))) in Hp.
  rewrite take_app_le, take_ge in Hp by (rewrite length_fmap; lia).
  rewrite Hp, take_take. f_equal. len.
Qed.

(** A packet of the user that [e] still holds. *)
Definition holds e p : Prop :=
  p ∈ cn_sendUserData (ep_connection e) ∨
  p ∈ active (cn_sendQueue (ep_connection e)) (ep_sockets e) (cn_inFlightQueue (ep_connection e)).

(** A packet that [e] has received, whether or not the user has taken it. *)
Definition got e p : Prop :=
  p ∈ ep_received e ++ RecvQueue.GetUserData (recv_queue e) ∨
  ∃ slot, rq_queue (recv_queue e) !! slot = Some p.

Lemma genuine_payload sent p i x :
  Genuine sent p → GetSeqNumber p = Z.of_nat (S i) → sent !! i = Some x → GetPayload p = x.
Proof.
  intros (_ & _ & _ & j & Hj & Ej) E Hi. assert (j = i) as -> by lia. congruence.
Qed.

Lemma held_or_received a b i x :
  EndInv a b → Connection.IsClosed (ep_connection a) = false → ep_sent a !! i = Some x →
  (∃ p, holds a p ∧ GetPayload p = x) ∨ has_received (recv_queue b) (Z.of_nat (S i)).
Proof.
  intros [(done & Es & Ho) _] Hc Hi. rewrite Es in Hi. apply lookup_app_Some in Hi as [Hi|[_ Hi]].
  - pose proof (lookup_lt_Some _ _ _ Hi) as Hlt.
    destruct (og_cover _ _ _ _ _ _ _ _ _ _ Ho Hc (Z.of_nat (S i)) ltac:(lia)) as [Hact|]; [left|by right].
    apply list_elem_of_fmap in Hact as (p & En & Hp). exists p. split; [by right|].
    pose proof (og_active _ _ _ _ _ _ _ _ _ _ Ho) as Hg. rewrite Forall_forall in Hg.
    by eapply genuine_payload; [apply Hg| |exact Hi].
  - left. apply list_lookup_fmap_Some in Hi as (p & -> & Hp). exists p. split; [|done]. left.
    by eapply list_elem_of_lookup_2.
Qed.

Lemma received_got a b i x :
  few a → EndInv b a → ep_sent a !! i = Some x → has_received (recv_queue b) (Z.of_nat (S i)) →
  ∃ p, got b p ∧ GetPayload p = x ∧ RecvQueue.number p = Z.of_nat (S i).
Proof.
  intros Hb [_ Hin] Hi [Hn|(p & Hp & Hn)].
  - pose proof (in_order _ _ _ Hin) as Ho.
    assert (Z.of_nat (S i) ∈ RecvQueue.number <$> (ep_received b ++ rq_data (recv_queue b))) as Hx.
    { unfold recv_queue. rewrite Ho. apply elem_of_seqZ. unfold recv_queue in Hn. lia. }
    apply list_elem_of_fmap in Hx as (p & En & Hp). exists p. split; [by left|]. split; [|done].
    pose proof (in_delivered _ _ _ Hin) as Hd. rewrite Forall_forall in Hd. specialize (Hd p Hp).
    eapply genuine_payload; [exact Hd| |exact Hi]. by rewrite <- (Genuine_is_numbered _ _ Hb Hd).
  - exists p. split; [right; by eexists|]. split; [|done].
    pose proof (in_waiting _ _ _ Hin _ _ Hp) as Hd.
    eapply genuine_payload; [exact Hd| |exact Hi]. by rewrite <- (Genuine_is_numbered _ _ Hb Hd).
Qed.

(** C2: No loss: as long as a connection is not closed, the payload of every packet its
    user has sent has arrived at the other end, or the connection still holds it, to be
    sent (again). *)
Theorem channel_loses_nothing a b i x :
  rtc system_step system_start (a, b) → few a → few b →
  Connection.IsClosed (ep_connection a) = false → ep_sent a !! i = Some x →
  (∃ p, holds a p ∧ GetPayload p = x) ∨
  ∃ p, got b p ∧ GetPayload p = x ∧ RecvQueue.number p = Z.of_nat (S i).
Proof.
  intros H Ha Hb Hc Hi. destruct (reachable_inv (a, b) H (conj Ha Hb)) as ([H1 H2] & _).
  destruct (held_or_received a b i x H1 Hc Hi) as [|Hr]; [by left|right].
  exact (received_got a b i x Ha H2 Hi Hr).
Qed.

(** C3: Everything arrives: when the connection of the sender holds nothing any more, the
    receiver has everything that was sent, and after [ProcessRecvPackets] its user has
    received it or can take it. *)
Theorem channel_complete a b c' :
  rtc system_step system_start (a, b) → few a → few b →
  Connection.IsClosed (ep_connection a) = false → Connection.IsClosed (ep_connection b) = false →
  (∀ p, ¬ holds a p) → Connection.ProcessRecvPackets (ep_connection b) = Ret c' →
  GetPayload <$> (ep_received b ++ RecvQueue.GetUserData (cn_recvQueue c')) = ep_sent a.
Proof.
  intros H Ha Hb Hca Hcb Hnone E. destruct (reachable_inv (a, b) H (conj Ha Hb)) as ([H1 [_ Hin]] & _).
  cbn [fst snd] in H1, Hin.
  unfold Connection.ProcessRecvPackets in E. rewrite Hcb in E. apply bind_ret in E as (rq & E & [= <-]).
  destruct (process_incoming _ _ _ _ Hin E) as (Hin' & [_ G] & Hslot).
  pose proof (incoming_prefix _ _ _ Ha Hin') as Hp.
  cbn [Connection.set_recvQueue cn_recvQueue]. unfold RecvQueue.GetUserData. rewrite Hp. apply take_ge.
  pose proof (inv_begin _ (in_inv _ _ _ Hin')) as Hbeg.
  rewrite <- (Nat2Z.id (length (ep_received b ++ rq_data rq))).
  rewrite <- (seq_from_fmap _ _ _ (in_order _ _ _ Hin')) by lia.
  destruct (decide (length (ep_sent a) ≤ Z.to_nat (rq_begin rq - 1))%nat) as [|Hgt]; [done|exfalso].
  destruct (ep_sent a !! Z.to_nat (rq_begin rq - 1)) as [x|] eqn:Ex; [|apply lookup_ge_None in Ex; lia].
  destruct (held_or_received a b _ x H1 Hca Ex) as [(p & Hp' & _)|Hr%G]; [by apply (Hnone p)|].
  replace (Z.of_nat (S (Z.to_nat (rq_begin rq - 1)))) with (rq_begin rq) in Hr by lia.
  destruct Hr as [?|(p & Hq & _)]; [lia|congruence].
Qed.

End Runs.
End BothEnds.

(** ** Witnesses: one end sends two packets; the second arrives first, and twice *)

Section Examples.
Context {P : Type} `{!IPacket P, !IPacketLaws P}.
Implicit Types (e : Endpoint P) (x y : Endpoint P * Endpoint P).

Definition on_connection (f : Connection P → res (Connection P)) e : Endpoint P :=
  match f (ep_connection e) with
  | Ret c => mkEndpoint c (ep_sockets e) (ep_wire e) (ep_sent e) (ep_received e)
  | Err _ => e
  end.
Definition do_Send data e : Endpoint P :=
  mkEndpoint (Connection.Send data (ep_connection e)) (ep_sockets e) (ep_wire e)
    (ep_sent e ++ (GetPayload <$> data)) (ep_received e).
Definition do_Recv e : Endpoint P :=
  let '(got, c) := Connection.Recv false [] (ep_connection e) in
  mkEndpoint c (ep_sockets e) (ep_wire e) (ep_sent e) (ep_received e ++ default [] got).
Definition do_GetPacketsToSend now e : Endpoint P :=
  match Connection.GetPacketsToSend now (ep_connection e) with
  | Ret (out, c) => mkEndpoint c (ep_sockets e ++ out) (ep_wire e ++ (op_packet <$> out)) (ep_sent e) (ep_received e)
  | Err _ => e
  end.
Definition do_ProcessSentPackets now e : Endpoint P :=
  mkEndpoint (Connection.ProcessSentPackets now (ep_sockets e) (ep_connection e)) [] (ep_wire e) (ep_sent e) (ep_received e).
Definition do_receive now p : Endpoint P → Endpoint P :=
  on_connection (λ c, '(_, c) ← ConnectionRun.OnRecvPackets now p c; mret c).

Definition left (f : Endpoint P → Endpoint P) x := (f x.1, x.2).
Definition right (f : Endpoint P → Endpoint P) x := (x.1, f x.2).

Lemma left_rtc f x0 x :
  endpoint_step (ep_wire x.2) x.1 (f x.1) ∨ f x.1 = x.1 → rtc system_step x0 x → rtc system_step x0 (left f x).
Proof.
  intros Hf H. unfold left. destruct x as [a b]. cbn in *. destruct Hf as [Hf| ->]; [|done].
  eapply rtc_r; [exact H|by constructor].
Qed.
Lemma right_rtc f x0 x :
  endpoint_step (ep_wire x.1) x.2 (f x.2) ∨ f x.2 = x.2 → rtc system_step x0 x → rtc system_step x0 (right f x).
Proof.
  intros Hf H. unfold right. destruct x as [a b]. cbn in *. destruct Hf as [Hf| ->]; [|done].
  eapply rtc_r; [exact H|by constructor].
Qed.

Lemma on_connection_step w f e :
  (∀ c c', f c = Ret c' → endpoint_step w (mkEndpoint c (ep_sockets e) (ep_wire e) (ep_sent e) (ep_received e))
    (mkEndpoint c' (ep_sockets e) (ep_wire e) (ep_sent e) (ep_received e))) →
  endpoint_step w e (on_connection f e) ∨ on_connection f e = e.
Proof.
  intros Hf. unfold on_connection. destruct (f (ep_connection e)) as [c'|] eqn:E; [left|by right].
  apply Hf in E. by destruct e.
Qed.

Lemma do_Run_step w now e :
  endpoint_step w e (on_connection (ConnectionRun.Run now) e) ∨ on_connection (ConnectionRun.Run now) e = e.
Proof. apply on_connection_step. intros c c'. apply es_Run. Qed.
Lemma do_Process_step w e :
  endpoint_step w e (on_connection Connection.ProcessRecvPackets e) ∨ on_connection Connection.ProcessRecvPackets e = e.
Proof. apply on_connection_step. intros c c'. apply es_ProcessRecvPackets. Qed.
Lemma do_Send_step w data e :
  Forall UserPacket data → endpoint_step w e (do_Send data e) ∨ do_Send data e = e.
Proof. intros Hd. left. destruct e. by apply es_Send. Qed.
Lemma do_Recv_step w e : endpoint_step w e (do_Recv e) ∨ do_Recv e = e.
Proof.
  left. destruct e as [c k w' s r]. unfold do_Recv. cbn [ep_connection ep_sockets ep_wire ep_sent ep_received].
  destruct (Connection.Recv false [] c) as [got c'] eqn:E. by eapply es_Recv.
Qed.
Lemma do_GetPacketsToSend_step w now e :
  endpoint_step w e (do_GetPacketsToSend now e) ∨ do_GetPacketsToSend now e = e.
Proof.
  destruct e as [c k w' s r]. unfold do_GetPacketsToSend. cbn [ep_connection ep_sockets ep_wire ep_sent ep_received].
  destruct (Connection.GetPacketsToSend now c) as [[out c']|] eqn:E; [left|by right]. by eapply es_GetPacketsToSend.
Qed.
Lemma do_ProcessSentPackets_step w now e :
  endpoint_step w e (do_ProcessSentPackets now e) ∨ do_ProcessSentPackets now e = e.
Proof.
  left. destruct e as [c k w' s r]. unfold do_ProcessSentPackets. cbn. apply (es_ProcessSentPackets _ _ k).
  - by rewrite app_nil_r.
  - induction k; constructor; [by split|done].
Qed.
Lemma do_receive_step w now p e :
  p ∈ w → PacketOk p → endpoint_step w e (do_receive now p e) ∨ do_receive now p e = e.
Proof.
  intros Hp Hok. apply on_connection_step. intros c c' E. apply bind_ret in E as ([free c1] & E & [= <-]).
  eapply es_OnRecvPackets; [exact Hp| |exact E]. split; [done|]. exists (v_addr (view p)). by destruct (view p).
Qed.

End Examples.

(** A packet of the user with two bytes of data. *)
Definition letter (x y : Z) : Packet := from_res buffer (SetPayload [x; y] buffer).

Definition ends : Endpoint Packet * Endpoint Packet :=
  system_start DataState DataState (somewhere 11200) (somewhere 11100) 7 9 0 0.

(** Both packets are on their way. *)
Definition sent_off : Endpoint Packet * Endpoint Packet :=
  left (do_GetPacketsToSend (milliseconds 30)) (left (on_connection (ConnectionRun.Run (λ _, 0)))
    (left (do_Send [letter 65 66; letter 67 68]) (right (on_connection (λ c, Ret (Connection.SetInternalFreePackets [buffer] [] c))) ends))).

Definition on_wire (e : Endpoint Packet) (i : nat) : Packet := nth i (ep_wire e) buffer.

(** Packet [i] of the wire of one end reaches the other one. *)
Definition to_right (now : Z) (i : nat) x := right (do_receive now (on_wire x.1 i)) x.
Definition to_left (now : Z) (i : nat) x := left (do_receive now (on_wire x.2 i)) x.

Definition delivered : Endpoint Packet * Endpoint Packet :=
  right do_Recv (right (on_connection Connection.ProcessRecvPackets)
    (to_right 2 0 (to_right 2 1 (to_right 1 1 sent_off)))).

(** The acknowledgements have come back. *)
Definition settled : Endpoint Packet * Endpoint Packet :=
  left (on_connection (ConnectionRun.Run (λ _, 6))) (to_left 5 0 (left (do_ProcessSentPackets 3)
    (right (do_GetPacketsToSend (milliseconds 30)) (right (on_connection (ConnectionRun.Run (λ _, 4))) delivered)))).

Lemma letter_ok x y : UserPacket (letter x y).
Proof.
  unfold letter. destruct (SetPayload [x; y] buffer) as [p|f] eqn:E; [|discriminate E].
  pose proof (view_SetPayload [x; y] buffer buffer_ok) as H. rewrite E in H. destruct H as [Hp V]. cbn [from_res].
  split; [done|]. change (view buffer) with (mkView false PT_None 0 0 0 0 0 ConnectionAddr.default (replicate 1380 0)) in V.
  unfold v_write, v_SetPayloadSize in V. rewrite (proj2 (defined_if_ret _)) in V by (apply Nat.leb_le; cbn; lia).
  apply (inj Ret) in V. by apply (f_equal v_ack) in V.
Qed.

Lemma ends_give_buffer w e :
  endpoint_step w e (on_connection (λ c, Ret (Connection.SetInternalFreePackets [buffer] [] c)) e) ∨
  on_connection (λ c, Ret (Connection.SetInternalFreePackets [buffer] [] c)) e = e.
Proof.
  apply on_connection_step. intros c c' [= <-]. apply es_other, oo_SetInternalFreePackets.
  repeat constructor; apply buffer_ok.
Qed.

Lemma sent_off_reachable : rtc system_step ends sent_off.
Proof.
  unfold sent_off. apply left_rtc; [apply do_GetPacketsToSend_step|]. apply left_rtc; [apply do_Run_step|].
  apply left_rtc; [apply do_Send_step; repeat constructor; apply letter_ok|].
  apply right_rtc; [apply ends_give_buffer|]. apply rtc_refl.
Qed.

Lemma on_wire_in (e : Endpoint Packet) i : (i < length (ep_wire e))%nat → on_wire e i ∈ ep_wire e.
Proof. intros Hi. unfold on_wire. apply list_elem_of_In. by apply nth_In. Qed.

(** A packet on the wire of a reachable system is a well-formed packet. *)
Lemma to_right_rtc now i x :
  few2 x → (i < length (ep_wire x.1))%nat → rtc system_step ends x → rtc system_step ends (to_right now i x).
Proof.
  intros Hf Hi H. destruct (reachable_inv _ _ _ _ _ _ _ _ x H Hf) as ([H1 H2] & _).
  apply right_rtc; [|exact H]. apply do_receive_step; [by apply on_wire_in|].
  by eapply (wire_from_peer x.2 x.1), on_wire_in.
Qed.
Lemma to_left_rtc now i x :
  few2 x → (i < length (ep_wire x.2))%nat → rtc system_step ends x → rtc system_step ends (to_left now i x).
Proof.
  intros Hf Hi H. destruct (reachable_inv _ _ _ _ _ _ _ _ x H Hf) as ([H1 H2] & _).
  apply left_rtc; [|exact H]. apply do_receive_step; [by apply on_wire_in|].
  by eapply (wire_from_peer x.1 x.2), on_wire_in.
Qed.

Ltac run := vm_compute; reflexivity.

Lemma delivered_reachable : rtc system_step ends delivered.
Proof.
  unfold delivered. apply right_rtc; [apply do_Recv_step|]. apply right_rtc; [apply do_Process_step|].
  do 3 (apply to_right_rtc; [split; run|apply Nat.ltb_lt; run|]). apply sent_off_reachable.
Qed.

Lemma settled_reachable : rtc system_step ends settled.
Proof.
  unfold settled. apply left_rtc; [apply do_Run_step|]. apply to_left_rtc; [split; run|apply Nat.ltb_lt; run|].
  apply left_rtc; [apply do_ProcessSentPackets_step|]. apply right_rtc; [apply do_GetPacketsToSend_step|].
  apply right_rtc; [apply do_Run_step|]. apply delivered_reachable.
Qed.

Lemma reached x :
  rtc system_step ends x →
  rtc system_step (system_start DataState DataState (somewhere 11200) (somewhere 11100) 7 9 0 0) (x.1, x.2).
Proof. by destruct x. Qed.

Lemma channel_refines_fifo_witness :
  (λ m, take 2 (from_res [] m)) <$> (GetPayload <$> ep_received delivered.2) = [[65; 66]; [67; 68]].
Proof.
  destruct (channel_refines_fifo DataState DataState (somewhere 11200) (somewhere 11100) 7 9 0 0
    delivered.1 delivered.2) as [_ E].
  - apply reached, delivered_reachable.
  - vm_compute; reflexivity.
  - vm_compute; reflexivity.
  - rewrite E. vm_compute. reflexivity.
Defined.

Lemma channel_loses_nothing_witness :
  ∃ p, got delivered.2 p ∧ RecvQueue.number p = 2 ∨ holds delivered.1 p.
Proof.
  destruct (ep_sent delivered.1 !! 1%nat) as [x|] eqn:Ex; [|vm_compute in Ex; discriminate Ex].
  destruct (channel_loses_nothing DataState DataState (somewhere 11200) (somewhere 11100) 7 9 0 0
    delivered.1 delivered.2 1 x) as [(p & Hp & _)|(p & Hp & _ & Hn)].
  - apply reached, delivered_reachable.
  - vm_compute; reflexivity.
  - vm_compute; reflexivity.
  - vm_compute; reflexivity.
  - exact Ex.
  - exists p. right. exact Hp.
  - exists p. left. split; [exact Hp|exact Hn].
Defined.

Lemma settled_holds_nothing :
  cn_sendUserData (ep_connection settled.1) = [] ∧
  active (cn_sendQueue (ep_connection settled.1)) (ep_sockets settled.1) (cn_inFlightQueue (ep_connection settled.1)) = [].
Proof. split; run. Qed.

Lemma channel_complete_witness :
  ∃ c', Connection.ProcessRecvPackets (ep_connection settled.2) = Ret c' ∧
    GetPayload <$> (ep_received settled.2 ++ RecvQueue.GetUserData (cn_recvQueue c')) = ep_sent settled.1.
Proof.
  destruct (Connection.ProcessRecvPackets (ep_connection settled.2)) as [c'|f] eqn:E; [|vm_compute in E; discriminate E].
  exists c'. split; [reflexivity|].
  apply (channel_complete DataState DataState (somewhere 11200) (somewhere 11100) 7 9 0 0 settled.1 settled.2 c').
  - apply reached, settled_reachable.
  - vm_compute; reflexivity.
  - vm_compute; reflexivity.
  - vm_compute; reflexivity.
  - vm_compute; reflexivity.
  - intros p [Hp|Hp]; destruct settled_holds_nothing as [E1 E2].
    + rewrite E1 in Hp. by apply elem_of_nil in Hp.
    + rewrite E2 in Hp. by apply elem_of_nil in Hp.
  - exact E.
Defined.
