(* ===== verification/Socket.v ===== *)
(** * Socket
    [include/Socket.hpp], [src/Socket.cpp]: how outgoing packets are grouped into
    segmented datagrams and how received ones are cut into packets again.  The system
    calls [sendmmsg] and [recvmmsg] are parameters. *)
From S2P Require Import Prelude Groups Addr Packet RecvQueue SendQueue.
Local Open Scope Z_scope.

Module Socket.

Definition UDPMaxSegments : nat := 64.
Definition GsoSize : Z := 1400.

(** [std::min<size_t>(UDPMaxSegments, 65000 / GsoSize)]. *)
Definition ChunkSize : nat := Nat.min UDPMaxSegments (Z.to_nat (65000 / GsoSize)).

(** [views::chunk]. *)
Fixpoint chunks {A} (fuel n : nat) (l : list A) : list (list A) :=
  match fuel, l with
  | O, _ | _, [] => []
  | S fuel, _ => take n l :: chunks fuel n (drop n l)
  end.

(** [mmsghdr]: the destination, the buffers, and the bytes sent of them. *)
Record mmsghdr := mkMmsghdr {
  msg_name : ConnectionAddr;
  msg_iov : list (list Z);
}.
Definition iov_size (h : mmsghdr) : Z := Z.of_nat (length (concat (msg_iov h))).

Section Sending.
Context {P : Type} `{!IPacket P}.

(** The port of the peer's socket with the same index. *)
Definition destination (index : Z) (p : P) : ConnectionAddr :=
  let a := GetDstAddr p in ConnectionAddr.SetPort (ConnectionAddr.GetPort a + index) a.

(** [packetsByAddress]. *)
Definition group_packets (index : Z) (packets : list (OutgoingPacket P)) : res (list (ConnectionAddr * list P)) :=
  group_all ConnectionAddr.matches (destination index) (OutgoingPacket.GetPacket <$> packets) [].

Definition group_headers (group : ConnectionAddr * list P) : list mmsghdr :=
  (λ chunk, mkMmsghdr group.1 (GetElement <$> chunk)) <$> chunks (length group.2) ChunkSize group.2.

(** [order] is the iteration order of the unordered map; [sendmmsg i messages] is the
    answer of the [i]-th call: the lengths of the messages sent, or a failure. *)
Variable order : list (ConnectionAddr * list P) → list (ConnectionAddr * list P).
Variable sendmmsg : nat → list mmsghdr → option (list Z).

Definition headers (index : Z) (packets : list (OutgoingPacket P)) : res (list mmsghdr) :=
  groups ← group_packets index packets;
  mret (order groups ≫= group_headers).

(** The loop around [sendmmsg]: the lengths stored in all the headers. *)
Fixpoint send_loop (fuel call : nat) (messages : list mmsghdr) (lens : list Z) : res (list Z) :=
  match messages with
  | [] => Ret lens
  | _ =>
      match fuel with
      | O => Err OutOfFuel
      | S fuel =>
          match sendmmsg call messages with
          | None => Err (Throws "Failed to sendmmsg")
          | Some sent => send_loop fuel (S call) (drop (length sent) messages) (lens ++ sent)
          end
      end
  end.

Definition SendMsg (index : Z) (packets : list (OutgoingPacket P)) : res Z :=
  hs ← headers index packets;
  lens ← send_loop (length hs) 0 hs [];
  mret (foldl (λ n len, u32 (n + len)) 0 lens).

End Sending.

Section Receiving.
Context {P : Type} `{!IPacket P}.

(** What the kernel does through the [iovec] of a packet: overwrite the first bytes of
    the span [GetElement] gives. *)
Variable write_element : list Z → P → P.

(** One received datagram: [msg_flags], the address and the bytes; and the answer of
    [recvmmsg] for a number of messages, each with [UDPMaxSegments] buffers. *)
Record datagram := mkDatagram {
  dg_truncated : bool;
  dg_name : ConnectionAddr;
  dg_data : list Z;
}.
Variable recvmmsg : nat → option (list datagram).

(** The bytes of a datagram fill the buffers one after the other. *)
Fixpoint scatter (data : list Z) (buffers : list P) : list P :=
  match buffers with
  | [] => []
  | b :: buffers =>
      let n := length (GetElement b) in
      write_element (take n data) b :: scatter (drop n data) buffers
  end.

Fixpoint scatter_all (messages : list datagram) (buffers : list P) : list P :=
  match messages with
  | [] => buffers
  | m :: messages =>
      scatter (dg_data m) (take UDPMaxSegments buffers) ++ scatter_all messages (drop UDPMaxSegments buffers)
  end.

(** [(message.msg_len + GsoSize - 1) / GsoSize], computed in [unsigned]. *)
Definition packet_number (m : datagram) : nat :=
  Z.to_nat (u32 (u32 (Z.of_nat (length (dg_data m))) + GsoSize - 1) / GsoSize).

Definition source (index : Z) (m : datagram) : ConnectionAddr :=
  ConnectionAddr.SetPort (ConnectionAddr.GetPort (dg_name m) - index) (dg_name m).

(** The loops move the iterator over [packets]: [done] is what lies before it. *)
Fixpoint stamp_segments (n : nat) (a : ConnectionAddr) (done rest : list P) : res (list P * list P) :=
  match n, rest with
  | O, _ => Ret (done, rest)
  | S n, p :: rest => stamp_segments n a (done ++ [SetAddr a p]) rest
  | S _, [] => Err Undefined
  end.

Fixpoint free_segments (n : nat) (rest free : list P) : res (list P * list P) :=
  match n, rest with
  | O, _ => Ret (rest, free)
  | S n, p :: rest => free_segments n rest (free ++ [p])
  | S _, [] => Err Undefined
  end.

Fixpoint cut_messages (index : Z) (messages : list datagram) (done rest free : list P)
    : res (list P * list P * list P) :=
  match messages with
  | [] => Ret (done, rest, free)
  | m :: messages =>
      if dg_truncated m then Err (Throws "Not implemented")
      else
        '(done, rest) ← stamp_segments (packet_number m) (source index m) done rest;
        '(rest, free) ← free_segments (UDPMaxSegments - packet_number m) rest free;
        cut_messages index messages done rest free
  end.

(** The received packets, left in the argument, and the free ones returned. *)
Definition RecvMsg (index : Z) (packets : list P) : res (list P * list P) :=
  let messagesSize := Nat.min (length packets / UDPMaxSegments) UDPMaxSegments in
  if (messagesSize =? 0)%nat then mret ([], packets)
  else
    match recvmmsg messagesSize with
    | None => Err AssertFails
    | Some messages =>
        '(done, rest, free) ← cut_messages index messages [] (scatter_all messages packets) [];
        mret (done, free ++ rest)
    end.

End Receiving.
End Socket.

(** ** Sending *)

Section SendCorrectness.
Context {P : Type} `{!IPacket P}.
Import Socket.
Implicit Types (groups : list (ConnectionAddr * list P)).

Lemma chunks_concat {A} n fuel : ∀ l : list A,
  (0 < n)%nat → (length l ≤ fuel)%nat → concat (chunks fuel n l) = l.
Proof.
  induction fuel as [|fuel IH]; intros l Hn Hl.
  { destruct l; [done|]. cbn in Hl. lia. }
  destruct l as [|x l]; [done|]. cbn [chunks concat].
  rewrite IH; [apply take_drop|done|]. rewrite length_drop. cbn in *. lia.
Qed.

Lemma chunks_bounded {A} n fuel : ∀ l : list A,
  (0 < n)%nat → Forall (λ c, (0 < length c ≤ n)%nat) (chunks fuel n l).
Proof.
  induction fuel as [|fuel IH]; intros l Hn; [constructor|].
  destruct l as [|x l]; [constructor|]. constructor; [|by apply IH].
  rewrite length_take. cbn. lia.
Qed.

End SendCorrectness.

Section SendMsgCorrectness.
Context {P : Type} `{!IPacket P}.
Import Socket.

(** The iteration order of the map is some order of its elements. *)
Variable order : list (ConnectionAddr * list P) → list (ConnectionAddr * list P).
Hypothesis order_permutes : ∀ l, order l ≡ₚ l.

(** [sendmmsg(2)]: the call sends at least one of the messages, or fails; a datagram is
    sent whole. *)
Variable sendmmsg : nat → list mmsghdr → option (list Z).
Hypothesis sendmmsg_sends : ∀ call hs lens, sendmmsg call hs = Some lens →
  (0 < length lens)%nat ∧ lens = take (length lens) (iov_size <$> hs).

Lemma send_loop_spec fuel : ∀ call hs lens,
  (length hs ≤ fuel)%nat →
  send_loop sendmmsg fuel call hs lens = Err (Throws "Failed to sendmmsg") ∨
  send_loop sendmmsg fuel call hs lens = Ret (lens ++ (iov_size <$> hs)).
Proof.
  induction fuel as [|fuel IH]; intros call [|h hs] lens Hf; cbn [send_loop]; try (cbn in Hf; lia).
  1,2: by right; rewrite app_nil_r.
  destruct (sendmmsg call (h :: hs)) as [sent|] eqn:E; [|by left].
  apply sendmmsg_sends in E as [Hpos Hsent].
  destruct (IH (S call) (drop (length sent) (h :: hs)) (lens ++ sent)) as [->| ->].
  - rewrite length_drop. cbn in *. lia.
  - by left.
  - right. rewrite <- app_assoc, fmap_drop. do 2 f_equal. rewrite Hsent at 1. apply take_drop.
Qed.

Lemma foldl_u32 lens : ∀ n, foldl (λ n len, u32 (n + len)) (u32 n) lens = u32 (foldl Z.add n lens).
Proof.
  induction lens as [|x lens IH]; intros n; [done|]. cbn [foldl]. rewrite <- IH. by rewrite wrap_add_l.
Qed.

Lemma headers_of_group (g : ConnectionAddr * list P) :
  concat (msg_iov <$> group_headers g) = GetElement <$> g.2 ∧
  Forall (λ h, msg_name h = g.1 ∧ 0 < length (msg_iov h) ≤ ChunkSize)%nat (group_headers g).
Proof.
  unfold group_headers. split.
  - rewrite <- list_fmap_compose. change (msg_iov ∘ _) with (fmap (M:=list) (GetElement (P:=P))).
    pose proof (chunks_concat ChunkSize (length g.2) g.2 ltac:(vm_compute; lia) ltac:(done)) as E.
    rewrite <- E at 3. generalize (chunks (length g.2) ChunkSize g.2). intros l.
    induction l as [|c l IH]; [done|]. cbn. by rewrite fmap_app, IH.
  - apply Forall_fmap. eapply Forall_impl; [apply (chunks_bounded ChunkSize); vm_compute; lia|].
    intros c Hc. cbn. by rewrite length_fmap.
Qed.

(** The messages for one peer carry the packets of its group. *)
Lemma headers_bucket d groups :
  concat (msg_iov <$> filter (λ h, peer (msg_name h) = d) (groups ≫= group_headers)) =
  GetElement <$> bucket peer d groups.
Proof.
  induction groups as [|g groups IH]; [done|].
  rewrite bucket_cons, fmap_app, <- IH. cbn [mbind list_bind]. rewrite filter_app, fmap_app, concat_app. f_equal.
  destruct (headers_of_group g) as [E Hall].
  assert (filter (λ h, peer (msg_name h) = d) (group_headers g) =
    if decide (peer g.1 = d) then group_headers g else []) as ->.
  { clear -Hall. induction Hall as [|h hs [Hn _] _ IH]; [by case_decide|]. rewrite filter_cons, Hn, IH.
    by case_decide. }
  by case_decide.
Qed.

Lemma bucket_order d groups :
  NoDup ((peer ∘ fst) <$> groups) → bucket peer d (order groups) = bucket peer d groups.
Proof.
  intros Hnd. unfold bucket. f_equal. f_equal.
  assert (Hp : filter (λ g, peer g.1 = d) (order groups) ≡ₚ filter (λ g, peer g.1 = d) groups)
    by (by rewrite order_permutes).
  assert (length (filter (λ g : ConnectionAddr * list P, peer g.1 = d) groups) ≤ 1)%nat as Hl.
  { clear -Hnd. induction groups as [|g groups IH]; [cbn; lia|]. rewrite fmap_cons in Hnd.
    apply NoDup_cons in Hnd as [Hn Hnd]. rewrite filter_cons. case_decide as Hg; [|by apply IH].
    destruct (filter _ groups) as [|x l] eqn:E; [done|]. exfalso.
    assert (x ∈ filter (λ g : ConnectionAddr * list P, peer g.1 = d) groups) as Hx by (rewrite E; left).
    apply list_elem_of_filter in Hx as [Hx Hin]. apply Hn, list_elem_of_fmap. exists x. cbn. by rewrite Hg, Hx. }
  revert Hp Hl. destruct (filter _ groups) as [|x [|y l]]; intros Hp Hl.
  - by apply Permutation_nil_r in Hp.
  - by apply Permutation_singleton_r in Hp.
  - cbn in Hl. lia.
Qed.

Lemma headers_all groups :
  concat (msg_iov <$> (groups ≫= group_headers)) = GetElement <$> concat groups.*2.
Proof.
  induction groups as [|g groups IH]; [done|]. cbn [mbind list_bind].
  rewrite fmap_app, concat_app, (proj1 (headers_of_group g)). fold (mbind (M:=list) (group_headers) groups).
  rewrite IH. cbn. by rewrite fmap_app.
Qed.

Lemma total_size hs : ∀ n,
  foldl Z.add n (iov_size <$> hs) = n + Z.of_nat (length (concat (concat (msg_iov <$> hs)))).
Proof.
  induction hs as [|h hs IH]; intros n; cbn; [lia|].
  rewrite IH, concat_app, length_app. unfold iov_size. lia.
Qed.

Lemma length_concat_Permutation {A} (l l' : list (list A)) : l ≡ₚ l' → length (concat l) = length (concat l').
Proof. induction 1; cbn; rewrite ?length_app in *; lia. Qed.

Lemma grouped_headers index packets :
  Forall (λ o, is_ipv4 (GetDstAddr (op_packet o))) packets →
  ∃ groups, Grouped (destination index) peer is_ipv4 (op_packet <$> packets) groups ∧
    headers order index packets = Ret (order groups ≫= group_headers).
Proof.
  intros Hip. destruct (group_all_spec ConnectionAddr.matches (destination index) peer is_ipv4 addr_matches
    (op_packet <$> packets)) as (groups & E & HG); [by apply Forall_fmap|].
  exists groups. split; [done|]. unfold headers, group_packets. change OutgoingPacket.GetPacket with (@op_packet P). by rewrite E.
Qed.

(** The number returned, if any, is the number of bytes of all packets. *)
Lemma SendMsg_total index packets :
  Forall (λ o, is_ipv4 (GetDstAddr (op_packet o))) packets →
  SendMsg order sendmmsg index packets = Err (Throws "Failed to sendmmsg") ∨
  SendMsg order sendmmsg index packets =
    Ret (u32 (Z.of_nat (length (concat (GetElement <$> (op_packet <$> packets)))))).
Proof.
  intros (groups & [_ Hall _ _] & E)%(grouped_headers index). unfold SendMsg. rewrite E. cbn [mbind res_bind].
  set (hs := order groups ≫= group_headers).
  change (@mret res _ _ hs) with (Ret hs). cbn [mbind res_bind].
  destruct (send_loop_spec (length hs) 0 hs [] ltac:(done)) as [->| ->]; [by left|right].
  cbn [mbind res_bind app]. rewrite (foldl_u32 _ 0), total_size. unfold hs. rewrite headers_all.
  rewrite Z.add_0_l, (length_concat_Permutation _ (GetElement <$> (op_packet <$> packets))); [done|].
  apply fmap_Permutation. by rewrite order_permutes.
Qed.

(** C29: [SendMsg] sends every packet: the datagrams for a peer carry exactly the packets
    for it, whole and in order, at most [ChunkSize] in each; if the system call does not
    fail, the number returned is the number of bytes of all packets, as the caller
    asserts. *)
Theorem SendMsg_sends_all index packets :
  Forall (λ o, is_ipv4 (GetDstAddr (op_packet o))) packets →
  ∃ hs, headers order index packets = Ret hs ∧
    Forall (λ h, 0 < length (msg_iov h) ≤ ChunkSize)%nat hs ∧
    (∀ d, concat (msg_iov <$> filter (λ h, peer (msg_name h) = d) hs) =
      GetElement <$> filter (λ p, peer (destination index p) = d) (op_packet <$> packets)) ∧
    (SendMsg order sendmmsg index packets = Err (Throws "Failed to sendmmsg") ∨
     SendMsg order sendmmsg index packets = Ret (u32 (Z.of_nat (length (concat (GetElement <$> (op_packet <$> packets))))))).
Proof.
  intros Hip. destruct (grouped_headers index packets Hip) as (groups & [Hb _ Hd _] & E).
  exists (order groups ≫= group_headers). split; [done|]. split; [|split; [|by apply SendMsg_total]].
  - apply Forall_bind, Forall_forall. intros g _. eapply Forall_impl; [apply headers_of_group|]. cbn. tauto.
  - intros d. rewrite headers_bucket, bucket_order by done. by rewrite Hb.
Qed.

End SendMsgCorrectness.

(** ** Receiving *)

Section RecvCorrectness.
Context {P : Type} `{!IPacket P}.
Import Socket.
Variable write_element : list Z → P → P.
Hypothesis element_write : ∀ data p, (length data ≤ length (GetElement p))%nat →
  GetElement (write_element data p) = data ++ drop (length data) (GetElement p).
Hypothesis element_SetAddr : ∀ a p, GetElement (SetAddr a p) = GetElement p.
Hypothesis addr_SetAddr : ∀ a p, GetDstAddr (SetAddr a p) = a.

Lemma stamp_segments_spec a n : ∀ done rest : list P,
  (n ≤ length rest)%nat →
  stamp_segments n a done rest = Ret (done ++ (SetAddr a <$> take n rest), drop n rest).
Proof.
  induction n as [|n IH]; intros done [|p rest] Hn; cbn in *; try lia.
  1,2: by rewrite app_nil_r.
  rewrite IH by lia. by rewrite <- app_assoc.
Qed.

Lemma free_segments_spec n : ∀ rest free : list P,
  (n ≤ length rest)%nat → free_segments n rest free = Ret (drop n rest, free ++ take n rest).
Proof.
  induction n as [|n IH]; intros [|p rest] free Hn; cbn in *; try lia.
  1,2: by rewrite app_nil_r.
  rewrite IH by lia. by rewrite <- app_assoc.
Qed.

Lemma length_scatter buffers : ∀ data, length (scatter write_element data buffers) = length buffers.
Proof. induction buffers as [|b buffers IH]; intros data; [done|]. cbn. by rewrite IH. Qed.

Lemma packet_number_segments m k :
  length (dg_data m) = (k * Z.to_nat GsoSize)%nat → (k ≤ UDPMaxSegments)%nat → packet_number m = k.
Proof.
  unfold packet_number, UDPMaxSegments, GsoSize. intros -> Hk.
  rewrite !wrap_small; rewrite ?wrap_small; try lia.
  replace (Z.of_nat (k * Z.to_nat 1400) + 1400 - 1) with (1399 + Z.of_nat k * 1400) by lia.
  rewrite Z.div_add, Z.div_small by lia. lia.
Qed.

Definition segment (e : list Z) : Prop := length e = Z.to_nat GsoSize.

(** Buffers of one segment each receive the segments of a datagram. *)
Lemma scatter_segments es : ∀ buffers : list P,
  Forall segment es → Forall (segment ∘ GetElement) buffers → (length es ≤ length buffers)%nat →
  GetElement <$> take (length es) (scatter write_element (concat es) buffers) = es.
Proof.
  induction es as [|e es IH]; intros [|b buffers] He Hb Hl; cbn in *; try done; [lia|].
  apply Forall_cons in He as [He Hes]. apply Forall_cons in Hb as [Hb Hbs]. unfold segment in *.
  rewrite Hb, <- He, take_app_length, drop_app_length. f_equal.
  - rewrite element_write by (rewrite Hb; lia).
    rewrite drop_ge, app_nil_r by (rewrite Hb; lia). done.
  - apply IH; [done|done|lia].
Qed.

(** A datagram with the segments [es] from the socket at [a]. *)
Definition carries (m : datagram) (es : list (list Z)) : Prop :=
  dg_truncated m = false ∧ dg_data m = concat es ∧ Forall segment es ∧ (length es ≤ UDPMaxSegments)%nat.

Lemma carries_number m es : carries m es → packet_number m = length es.
Proof.
  intros (_ & Hd & He & Hl). apply packet_number_segments; [|done]. rewrite Hd. clear -He.
  induction He as [|e es He _ IH]; [done|]. cbn. rewrite length_app, IH, He. lia.
Qed.

Lemma cut_messages_spec index ms : ∀ ess (buffers done free : list P),
  Forall2 carries ms ess → Forall (segment ∘ GetElement) buffers →
  (UDPMaxSegments * length ms ≤ length buffers)%nat →
  ∃ received rest free',
    cut_messages index ms done (scatter_all write_element ms buffers) free = Ret (done ++ received, rest, free') ∧
    GetElement <$> received = concat ess ∧
    GetDstAddr <$> received = concat (zip_with (λ m es, replicate (length es) (source index m)) ms ess) ∧
    (length received + length rest + length free' = length buffers + length free)%nat.
Proof.
  induction ms as [|m ms IH]; intros ess buffers done free H2 Hb Hl; inversion H2 as [|? es ? ess' Hm Hms]; subst.
  { exists [], buffers, free. cbn. by rewrite app_nil_r. }
  cbn [cut_messages scatter_all]. pose proof (carries_number m es Hm) as Hn. destruct Hm as (-> & Hd & He & Hle).
  rewrite Hn, Hd. cbn [length] in Hl.
  set (block := scatter write_element (concat es) (take UDPMaxSegments buffers)).
  assert (Hbl : length block = UDPMaxSegments) by (unfold block; rewrite length_scatter, length_take; lia).
  rewrite stamp_segments_spec by (rewrite length_app; lia). cbn [mbind res_bind].
  rewrite take_app_le, drop_app_le by lia.
  rewrite free_segments_spec by (rewrite length_app, length_drop; lia). cbn [mbind res_bind].
  assert (length (drop (length es) block) = UDPMaxSegments - length es)%nat as Hdl by (rewrite length_drop; lia).
  rewrite (drop_app_length' _ _ _ (eq_sym Hdl)), (take_app_length' _ _ _ (eq_sym Hdl)).
  edestruct (IH ess' (drop UDPMaxSegments buffers)) as (received & rest & free' & -> & HE & HA & HL);
    [done|by apply Forall_drop|rewrite length_drop; lia|].
  exists ((SetAddr (source index m) <$> take (length es) block) ++ received), rest, free'.
  rewrite <- app_assoc. split; [done|]. split; [|split].
  - rewrite fmap_app, HE. cbn. f_equal. rewrite <- list_fmap_compose.
    rewrite (list_fmap_ext _ GetElement) by (intros; apply element_SetAddr).
    apply scatter_segments; [done|by apply Forall_take|rewrite length_take; unfold UDPMaxSegments in *; lia].
  - rewrite fmap_app, HA. cbn [zip_with concat]. f_equal. rewrite <- list_fmap_compose.
    rewrite (list_fmap_ext _ (λ _, source index m)) by (intros; apply addr_SetAddr).
    apply list_eq. intros i. rewrite list_lookup_fmap.
    destruct (decide (i < length es)%nat).
    + rewrite lookup_replicate_2 by done. destruct (lookup_lt_is_Some_2 (take (length es) block) i) as [x ->]; [|done].
      rewrite length_take. lia.
    + rewrite (lookup_ge_None_2 (take _ _)) by (rewrite length_take; lia).
      by rewrite lookup_ge_None_2 by (rewrite length_replicate; lia).
  - rewrite length_drop in HL. rewrite !length_app in *. rewrite length_fmap, length_take in *. lia.
Qed.

(** Whatever the kernel answers, no buffer is lost or made. *)
Lemma stamp_segments_length a n : ∀ done rest done' rest' : list P,
  stamp_segments n a done rest = Ret (done', rest') →
  (length done' + length rest' = length done + length rest)%nat.
Proof.
  induction n as [|n IH]; intros done [|p rest] done' rest' H; cbn in H; inv_res; try lia.
  apply IH in H. rewrite length_app in H. cbn in *. lia.
Qed.

Lemma free_segments_length n : ∀ rest free rest' free' : list P,
  free_segments n rest free = Ret (rest', free') →
  (length rest' + length free' = length rest + length free)%nat.
Proof.
  induction n as [|n IH]; intros [|p rest] free rest' free' H; cbn in H; inv_res; try lia.
  apply IH in H. rewrite length_app in H. cbn in *. lia.
Qed.

Lemma cut_messages_length index ms : ∀ done rest free done' rest' free' : list P,
  cut_messages index ms done rest free = Ret (done', rest', free') →
  (length done' + length rest' + length free' = length done + length rest + length free)%nat.
Proof.
  induction ms as [|m ms IH]; intros done rest free done' rest' free' H; cbn [cut_messages] in H; [by inv_res|].
  destruct (dg_truncated m); [discriminate|]. inv_res. destruct x as [d1 r1]. inv_res. destruct x as [r2 f2].
  apply stamp_segments_length in H. apply free_segments_length in H0. apply IH in H1. lia.
Qed.

Lemma length_scatter_all ms : ∀ buffers, length (scatter_all write_element ms buffers) = length buffers.
Proof.
  induction ms as [|m ms IH]; intros buffers; [done|]. cbn [scatter_all].
  rewrite length_app, length_scatter, IH, length_take, length_drop. lia.
Qed.

Lemma RecvMsg_length recvmmsg index packets received free :
  RecvMsg write_element recvmmsg index packets = Ret (received, free) →
  (length received + length free = length packets)%nat.
Proof.
  unfold RecvMsg. intros H. case_match; [by inv_res|]. case_match; [|done]. inv_res.
  destruct x as [[d r] f]. inv_res. apply cut_messages_length in H. rewrite length_scatter_all in H.
  rewrite length_app. cbn in H. lia.
Qed.

(** C30: [RecvMsg] cuts datagrams into the packets they were made of: buffers of one
    segment each, filled with datagrams of whole segments, come back as packets with
    these segments, in order, from the address of the sender's socket with index 0; all
    other buffers are given back as free. *)
Theorem RecvMsg_segments recvmmsg index packets ms ess :
  Forall (segment ∘ GetElement) packets →
  let n := Nat.min (length packets / UDPMaxSegments) UDPMaxSegments in
  n ≠ 0%nat → recvmmsg n = Some ms → (length ms ≤ n)%nat → Forall2 carries ms ess →
  ∃ received free, RecvMsg write_element recvmmsg index packets = Ret (received, free) ∧
    GetElement <$> received = concat ess ∧
    GetDstAddr <$> received = concat (zip_with (λ m es, replicate (length es) (source index m)) ms ess) ∧
    (length received + length free = length packets)%nat.
Proof.
  intros Hp n Hn Hms Hle H2. unfold RecvMsg. fold n.
  rewrite (proj2 (Nat.eqb_neq _ _)) by done. rewrite Hms.
  destruct (cut_messages_spec index ms ess packets [] []) as (received & rest & free & -> & HE & HA & HL); [done|done| |].
  - transitivity (UDPMaxSegments * (length packets / UDPMaxSegments))%nat; [apply Nat.mul_le_mono_l; lia|].
    apply Nat.Div0.mul_div_le.
  - cbn [mbind res_bind app]. exists received, (free ++ rest). split; [done|]. split; [done|]. split; [done|].
    rewrite length_app. cbn in HL. lia.
Qed.

End RecvCorrectness.

(** ** Witnesses *)

(** A system call that sends one message at a time. *)
Definition one_by_one (call : nat) (hs : list Socket.mmsghdr) : option (list Z) :=
  match hs with [] => None | h :: _ => Some [Socket.iov_size h] end.

Definition to_peer (port : Z) : OutgoingPacket Packet :=
  OutgoingPacket.make (Packet.SetAddr (mkAddr AF_INET (htons port) 16777343 []) (Packet.make 1400)) true.

(** Two packets for one peer around one for another, from the socket with index 2. *)
Lemma SendMsg_sends_all_witness :
  ∃ hs, Socket.headers id 2 [to_peer 100; to_peer 200; to_peer 100] = Ret hs ∧
    length <$> (Socket.msg_iov <$> hs) = [2%nat; 1%nat] ∧
    Socket.SendMsg id one_by_one 2
      [to_peer 100; to_peer 200; to_peer 100] = Ret 4200.
Proof.
  destruct (SendMsg_sends_all id ltac:(done) one_by_one)
    with (index := 2) (packets := [to_peer 100; to_peer 200; to_peer 100]) as (hs & E & _ & _ & [H|H]).
  - intros call [|h hs] lens [= <-]. cbn. split; [lia|done].
  - repeat constructor.
  - vm_compute in H. discriminate.
  - exists hs. split; [exact E|]. split; [vm_compute in E; apply (inj Ret) in E; subst; reflexivity|].
    rewrite H. reflexivity.
Defined.

(** What the kernel does to a [Packet]: overwrite the first bytes of its element. *)
Definition overwrite (data : list Z) (p : Packet) : Packet :=
  mkPacket (data ++ drop (length data) (_element p)) (_srcAddr p) (pkt_dstAddr p) (_time p).

Lemma RecvMsg_segments_witness :
  ∃ received free,
    Socket.RecvMsg overwrite
      (λ _, Some [Socket.mkDatagram false (mkAddr AF_INET (htons 102) 16777343 []) (concat [replicate 1400 7; replicate 1400 8])])
      2 (replicate 70 (Packet.make 1400)) = Ret (received, free) ∧
    GetElement <$> received = [replicate 1400 7; replicate 1400 8] ∧ length free = 68%nat.
Proof.
  destruct (RecvMsg_segments overwrite) with (index := 2) (packets := replicate 70 (Packet.make 1400))
    (ms := [Socket.mkDatagram false (mkAddr AF_INET (htons 102) 16777343 []) (concat [replicate 1400 7; replicate 1400 8])])
    (ess := [[replicate 1400 7; replicate 1400 8]])
    (recvmmsg := λ _ : nat, Some [Socket.mkDatagram false (mkAddr AF_INET (htons 102) 16777343 []) (concat [replicate 1400 7; replicate 1400 8])])
    as (received & free & E & HE & _ & HL).
  - done.
  - done.
  - done.
  - apply Forall_replicate. reflexivity.
  - vm_compute. discriminate.
  - done.
  - vm_compute. lia.
  - repeat constructor; vm_compute; lia.
  - exists received, free. split; [exact E|]. split; [exact HE|].
    apply (f_equal length) in HE. rewrite length_fmap in HE.
    change (length received = 2%nat) in HE. rewrite HE in HL. rewrite length_replicate in HL. lia.
Defined.
