(* ===== verification/UDPQueue.v ===== *)
(** * UDPQueue and its threads
    [src/UDPQueue.cpp], [src/SendThreadQueue.cpp]: the queues between the context and
    the sockets, the turns of the write and the read threads, and their interleaving. *)
From S2P Require Import Prelude Addr Packet RecvQueue SendQueue LockedList Socket.
Local Open Scope Z_scope.

(** [class UDPQueue]: the four shared lists, and the local list of each write and read
    thread ([sendQueue] of [WriteThread], [recvQueue] of [ReadThread]). *)
Record UDPQueue (P : Type) := mkUDPQueue {
  uq_sendQueue : list (OutgoingPacket P);
  uq_recvQueue : list P;
  uq_sendFreeQueue : list (OutgoingPacket P);
  uq_recvFreeQueue : list P;
  uq_writers : gmap nat (list (OutgoingPacket P));
  uq_readers : gmap nat (list P);
}.
Arguments mkUDPQueue {_} _ _ _ _ _ _.
Arguments uq_sendQueue {_} _.
Arguments uq_recvQueue {_} _.
Arguments uq_sendFreeQueue {_} _.
Arguments uq_recvFreeQueue {_} _.
Arguments uq_writers {_} _.
Arguments uq_readers {_} _.

Module UDPQueue.

(** The addresses of the sockets: consecutive ports. *)
Definition socket_addresses (address : ConnectionAddr) (threadCount : nat) : list ConnectionAddr :=
  (λ i, ConnectionAddr.SetPort (ConnectionAddr.GetPort address + Z.of_nat i) address) <$> seq 0 threadCount.

(** [new_packet n] is [std::make_unique<Packet>(n)]. *)
Definition CreateBuffers {P} (new_packet : nat → P) (size : nat) : list P :=
  replicate size (new_packet (Z.to_nat Socket.GsoSize)).

Section Operations.
Context {P : Type} `{!IPacket P}.
Implicit Types (q : UDPQueue P).

(** [Init]: every thread starts with an empty list. *)
Definition Init (threadCount : nat) : UDPQueue P :=
  mkUDPQueue [] [] [] [] (gset_to_gmap [] (set_seq 0 threadCount)) (gset_to_gmap [] (set_seq 0 threadCount)).

(** [Recv] when its wait has ended: the packets received by now. *)
Definition Recv (freeBuffers : list P) q : list P * UDPQueue P :=
  let free := LockedList.LockedSplice freeBuffers (uq_recvFreeQueue q) in
  let '(recvQueue, result) := LockedList.LockedSwap [] (uq_recvQueue q) in
  (result, mkUDPQueue (uq_sendQueue q) recvQueue (uq_sendFreeQueue q) free (uq_writers q) (uq_readers q)).

Definition Send (data : list (OutgoingPacket P)) q : list (OutgoingPacket P) * UDPQueue P :=
  let sendQueue := LockedList.LockedSplice data (uq_sendQueue q) in
  let '(sendFree, result) := LockedList.LockedSwap [] (uq_sendFreeQueue q) in
  (result, mkUDPQueue sendQueue (uq_recvQueue q) sendFree (uq_recvFreeQueue q) (uq_writers q) (uq_readers q)).

(** *** SendThreadQueue.cpp *)

(** [GetOutgoingPacketsToSend] once there are packets: the batch and the list. *)
Definition GetOutgoingPacketsToSend (size : nat) (sendQueue : list (OutgoingPacket P)) :=
  LockedList.LockedTryGenerate size sendQueue.

(** The loop over [list]: batches of [UDPMaxSegments], stamped and sent.  [send] is
    [socket.SendMsg] of the given call, [now] the clock. *)
Fixpoint write_loop (fuel call : nat) (send : nat → list (OutgoingPacket P) → res Z) (now : nat → Z)
    (packets sendQueue : list (OutgoingPacket P)) : res (list (OutgoingPacket P)) :=
  match packets with
  | [] => Ret sendQueue
  | _ =>
      match fuel with
      | O => Err OutOfFuel
      | S fuel =>
          let batch := OutgoingPacket.SetSendTime (now call) <$> take Socket.UDPMaxSegments packets in
          result ← send call batch;
          assert_that (result =? Z.of_nat (length batch) * Socket.GsoSize);;
          write_loop fuel (S call) send now (drop Socket.UDPMaxSegments packets) (sendQueue ++ batch)
      end
  end.

(** A turn of [WriteThread]: fetch packets, or send those it has and hand them back. *)
Definition WriteThread_fetch (size : nat) (i : nat) q : option (UDPQueue P) :=
  match uq_writers q !! i with
  | Some [] =>
      let '(batch, rest) := GetOutgoingPacketsToSend size (uq_sendQueue q) in
      Some (mkUDPQueue rest (uq_recvQueue q) (uq_sendFreeQueue q) (uq_recvFreeQueue q)
        (<[i := batch]> (uq_writers q)) (uq_readers q))
  | _ => None
  end.

Definition WriteThread_send (send : nat → list (OutgoingPacket P) → res Z) (now : nat → Z) (i : nat) q
    : res (UDPQueue P) :=
  let packets := default [] (uq_writers q !! i) in
  sent ← write_loop (length packets) 0 send now packets [];
  mret (mkUDPQueue (uq_sendQueue q) (uq_recvQueue q) (LockedList.LockedSplice sent (uq_sendFreeQueue q))
    (uq_recvFreeQueue q) (<[i := []]> (uq_writers q)) (uq_readers q)).

(** *** ReadThread *)

(** Too few buffers for one datagram: fetch more. *)
Definition ReadThread_fetch (size : nat) (i : nat) q : option (UDPQueue P) :=
  match uq_readers q !! i with
  | Some recvQueue =>
      if (length recvQueue <? Socket.UDPMaxSegments)%nat then
        let '(buffers, rest) := LockedList.LockedTryGenerate size (uq_recvFreeQueue q) in
        Some (mkUDPQueue (uq_sendQueue q) (uq_recvQueue q) (uq_sendFreeQueue q) rest
          (uq_writers q) (<[i := recvQueue ++ buffers]> (uq_readers q)))
      else None
  | None => None
  end.

(** The socket is readable: [receive] is [socket.RecvMsg]. *)
Definition ReadThread_receive (receive : list P → res (list P * list P)) (i : nat) q : res (UDPQueue P) :=
  let recvQueue := default [] (uq_readers q !! i) in
  '(received, free) ← receive recvQueue;
  mret (mkUDPQueue (uq_sendQueue q) (LockedList.LockedSplice received (uq_recvQueue q)) (uq_sendFreeQueue q)
    (uq_recvFreeQueue q) (uq_writers q) (<[i := free]> (uq_readers q))).

End Operations.
End UDPQueue.

(** ** Correctness *)

Section Correctness.
Context {P : Type} `{!IPacket P}.
Import UDPQueue.
Implicit Types (q : UDPQueue P).

(** A packet the write thread can send: addressed by IPv4, one segment long. *)
Definition sendable (o : OutgoingPacket P) : Prop :=
  is_ipv4 (GetDstAddr (op_packet o)) ∧ segment (GetElement (op_packet o)).

Lemma segments_size (ps : list P) :
  Forall (segment ∘ GetElement) ps →
  Z.of_nat (length (concat (GetElement <$> ps))) = Z.of_nat (length ps) * Socket.GsoSize.
Proof.
  induction 1 as [|p ps Hp _ IH]; [done|]. cbn in *. rewrite length_app, Nat2Z.inj_add, IH, Hp.
  unfold Socket.GsoSize. lia.
Qed.

Lemma LockedTryGenerate_splits {A} size (l a b : list A) :
  LockedList.LockedTryGenerate size l = (a, b) → l = a ++ b.
Proof.
  unfold LockedList.LockedTryGenerate. case_match; intros [= <- <-]; [by rewrite take_drop|by rewrite app_nil_r].
Qed.

Lemma LockedSplice_app {A} (that l : list A) : LockedList.LockedSplice that l = l ++ that.
Proof. destruct that; [by rewrite app_nil_r|done]. Qed.

(** What the kernel hands over to the write threads' sockets. *)
Variable order : list (ConnectionAddr * list P) → list (ConnectionAddr * list P).
Hypothesis order_permutes : ∀ l, order l ≡ₚ l.
Variable sendmmsg : nat → nat → list Socket.mmsghdr → option (list Z).
Hypothesis sendmmsg_sends : ∀ i call hs lens, sendmmsg i call hs = Some lens →
  (0 < length lens)%nat ∧ lens = take (length lens) (Socket.iov_size <$> hs).

Lemma write_loop_sends index now fuel : ∀ call packets sent,
  (length packets ≤ fuel)%nat → Forall sendable packets →
  let r := write_loop fuel call (λ i, Socket.SendMsg order (sendmmsg i) index) now packets sent in
  r = Err (Throws "Failed to sendmmsg") ∨
  ∃ packets', r = Ret (sent ++ packets') ∧ op_packet <$> packets' = op_packet <$> packets ∧
    op_needAck <$> packets' = op_needAck <$> packets.
Proof.
  induction fuel as [|fuel IH]; intros call packets sent Hf Hs; destruct packets as [|o packets]; cbn [write_loop].
  1, 3: right; exists []; by rewrite app_nil_r.
  { cbn in Hf. lia. }
  set (all := o :: packets) in *.
  set (batch := OutgoingPacket.SetSendTime (now call) <$> take Socket.UDPMaxSegments all).
  assert (Hb : op_packet <$> batch = op_packet <$> take Socket.UDPMaxSegments all)
    by (unfold batch; rewrite <- list_fmap_compose; by apply list_fmap_ext).
  assert (Hn : op_needAck <$> batch = op_needAck <$> take Socket.UDPMaxSegments all)
    by (unfold batch; rewrite <- list_fmap_compose; by apply list_fmap_ext).
  assert (Hsb : Forall sendable batch).
  { unfold batch. apply Forall_fmap. eapply Forall_impl; [apply Forall_take, Hs|]. done. }
  destruct (SendMsg_total order order_permutes (sendmmsg call) (sendmmsg_sends call) index batch) as [->| ->];
    [eapply Forall_impl; [exact Hsb|by intros ? []]|by left|].
  cbn [mbind res_bind]. rewrite segments_size by (apply Forall_fmap; eapply Forall_impl; [exact Hsb|by intros ? []]).
  rewrite length_fmap. assert (length batch ≤ Socket.UDPMaxSegments)%nat as Hl
    by (unfold batch; rewrite length_fmap, length_take; lia).
  rewrite wrap_small by (unfold Socket.GsoSize, Socket.UDPMaxSegments in *; lia).
  rewrite Z.eqb_refl. cbn [assert_that mbind res_bind].
  destruct (IH (S call) (drop Socket.UDPMaxSegments all) (sent ++ batch)) as [H|(packets' & H & H1 & H2)].
  - rewrite length_drop. unfold all in *. cbn in *. lia.
  - by apply Forall_drop.
  - by left.
  - right. exists (batch ++ packets'). rewrite H, app_assoc. split; [done|].
    rewrite !fmap_app, Hb, Hn, H1, H2. rewrite <- !fmap_app, take_drop. done.
Qed.

(** a turn of a write thread with packets of one segment each: unless the system
    call fails, every packet is sent and handed back in order, and the assertion on the
    number of bytes sent holds. *)
Theorem WriteThread_sends index now i q packets :
  uq_writers q !! i = Some packets → Forall sendable packets →
  let r := WriteThread_send (λ call, Socket.SendMsg order (sendmmsg call) index) now i q in
  r = Err (Throws "Failed to sendmmsg") ∨
  ∃ sent q', r = Ret q' ∧ op_packet <$> sent = op_packet <$> packets ∧ op_needAck <$> sent = op_needAck <$> packets ∧
    uq_sendFreeQueue q' = uq_sendFreeQueue q ++ sent ∧ uq_writers q' !! i = Some [].
Proof.
  intros Hi Hs. unfold WriteThread_send. rewrite Hi. cbn [default from_option id].
  destruct (write_loop_sends index now (length packets) 0 packets [] ltac:(done) Hs) as [->|(sent & -> & H1 & H2)];
    [by left|right].
  cbn [mbind res_bind app]. eexists sent, _. split; [done|]. split; [done|]. split; [done|].
  cbn. by rewrite LockedSplice_app, lookup_insert_eq.
Qed.

End Correctness.

(** ** Interleaving *)

Section Threads.
Context {P : Type} `{!IPacket P}.
Import UDPQueue.
Implicit Types (q : UDPQueue P).

(** The packets given to and taken from [Send], and the numbers of buffers given to
    and taken from [Recv]. *)
Record Traffic := mkTraffic {
  tr_given : list P;
  tr_returned : list P;
  tr_buffers : nat;
  tr_received : nat;
}.

Inductive udp_step : UDPQueue P * Traffic → UDPQueue P * Traffic → Prop :=
  | us_send data q result q' g r b n : Send data q = (result, q') →
      udp_step (q, mkTraffic g r b n) (q', mkTraffic (g ++ (op_packet <$> data)) (r ++ (op_packet <$> result)) b n)
  | us_recv free q result q' g r b n : Recv free q = (result, q') →
      udp_step (q, mkTraffic g r b n) (q', mkTraffic g r (b + length free) (n + length result))
  | us_write_fetch size i q q' t : WriteThread_fetch size i q = Some q' → udp_step (q, t) (q', t)
  | us_write_send send now i q q' t packets : uq_writers q !! i = Some packets →
      WriteThread_send send now i q = Ret q' → udp_step (q, t) (q', t)
  | us_read_fetch size i q q' t : ReadThread_fetch size i q = Some q' → udp_step (q, t) (q', t)
  | us_read_receive write_element recvmmsg index i q q' t buffers : uq_readers q !! i = Some buffers →
      ReadThread_receive (Socket.RecvMsg write_element recvmmsg index) i q = Ret q' → udp_step (q, t) (q', t).

(** What the threads hold, together. *)
Definition held_by {A} (m : gmap nat (list A)) : list A := concat (map_to_list m).*2.

Lemma held_by_update {A} (m : gmap nat (list A)) i l l' :
  m !! i = Some l → l' ++ held_by m ≡ₚ l ++ held_by (<[i := l']> m).
Proof.
  intros H. unfold held_by. rewrite <- (map_to_list_delete m i l H) at 1.
  rewrite <- insert_delete_eq, map_to_list_insert by apply lookup_delete_eq. cbn. solve_Permutation.
Qed.

Lemma held_by_empty {A} n : held_by (gset_to_gmap [] (set_seq 0 n : gset nat)) = @nil A.
Proof.
  unfold held_by. assert (H : ∀ x, x ∈ (map_to_list (gset_to_gmap [] (set_seq 0 n : gset nat))).*2 → x = @nil A).
  { intros x ([i y] & -> & Hin)%list_elem_of_fmap. apply elem_of_map_to_list in Hin.
    by apply lookup_gset_to_gmap_Some in Hin as [_ <-]. }
  induction (map_to_list _).*2 as [|x l IH]; [done|]. cbn. rewrite (H x) by left. apply IH. intros y Hy. apply H. by right.
Qed.

(** Packets to send, and buffers to receive into, inside of the queue. *)
Definition sending q : list P := op_packet <$> uq_sendQueue q ++ uq_sendFreeQueue q ++ held_by (uq_writers q).
Definition receiving q : list P := uq_recvQueue q ++ uq_recvFreeQueue q ++ held_by (uq_readers q).

Lemma write_loop_keeps send now fuel : ∀ call (packets sent result : list (OutgoingPacket P)),
  write_loop fuel call send now packets sent = Ret result →
  op_packet <$> result = op_packet <$> (sent ++ packets).
Proof.
  induction fuel as [|fuel IH]; intros call [|o packets] sent result H; cbn [write_loop] in H; inv_res.
  1, 2: by rewrite app_nil_r.
  apply IH in H1. rewrite H1. rewrite <- (take_drop Socket.UDPMaxSegments (o :: packets)) at 3.
  rewrite !fmap_app, <- app_assoc. do 2 f_equal. rewrite <- list_fmap_compose. by apply list_fmap_ext.
Qed.

Definition UInv (s : UDPQueue P * Traffic) : Prop :=
  let '(q, t) := s in
  tr_given t ≡ₚ tr_returned t ++ sending q ∧ tr_buffers t = (tr_received t + length (receiving q))%nat.

Lemma udp_step_inv s s' : UInv s → udp_step s s' → UInv s'.
Proof.
  intros HI Hstep. destruct Hstep as [data q res q' g r b n H|free q res q' g r b n H|size i q q' t H
    |send now i q q' t packets Hi H|size i q q' t H|w k index i q q' t buffers Hi H];
    destruct HI as [HS HR]; unfold UInv, sending, receiving in *; cbn [tr_given tr_returned tr_buffers tr_received] in *.
  - injection H as <- <-. cbn. rewrite LockedSplice_app. split; [|done].
    rewrite HS, !fmap_app. solve_Permutation.
  - injection H as <- <-. cbn. rewrite LockedSplice_app. split; [done|].
    rewrite HR, !length_app. lia.
  - unfold WriteThread_fetch in H. destruct (uq_writers q !! i) as [[|]|] eqn:Hi; try done.
    destruct (GetOutgoingPacketsToSend _ _) as [batch rest] eqn:Hb. injection H as <-. split; [|done]. cbn.
    apply LockedTryGenerate_splits in Hb. rewrite HS, Hb, !fmap_app. apply Permutation_app_head.
    pose proof (held_by_update (uq_writers q) i [] batch Hi) as Hu. cbn in Hu. rewrite <- Hu, fmap_app. solve_Permutation.
  - unfold WriteThread_send in H. rewrite Hi in H. cbn [default from_option id] in H. inv_res. split; [|done]. cbn.
    apply write_loop_keeps in H. cbn in H. rewrite HS, LockedSplice_app, !fmap_app, H. apply Permutation_app_head.
    pose proof (held_by_update (uq_writers q) i packets [] Hi) as Hu. cbn in Hu. rewrite Hu, !fmap_app. solve_Permutation.
  - unfold ReadThread_fetch in H. destruct (uq_readers q !! i) as [l|] eqn:Hi; [|done]. case_match; [|done].
    destruct (LockedList.LockedTryGenerate _ _) as [batch rest] eqn:Hb. injection H as <-. split; [done|]. cbn.
    apply LockedTryGenerate_splits in Hb.
    pose proof (Permutation_length (held_by_update (uq_readers q) i l (l ++ batch) Hi)) as Hu.
    rewrite HR, Hb. rewrite !length_app in *. lia.
  - unfold ReadThread_receive in H. rewrite Hi in H. cbn [default from_option id] in H. inv_res.
    destruct x as [received free]. inv_res. split; [done|]. cbn. apply RecvMsg_length in H.
    pose proof (Permutation_length (held_by_update (uq_readers q) i buffers free Hi)) as Hu.
    rewrite HR, LockedSplice_app. rewrite !length_app in *. lia.
Qed.

(** C28: the UDP layer loses no packet: in every interleaving of the context with the
    write and the read threads, a packet given to [Send] is, once, among those handed
    back or in one of the lists, and the same holds of the number of receive buffers,
    whatever the kernel receives. *)
Theorem udp_conserves threadCount q t :
  rtc udp_step (Init threadCount, mkTraffic [] [] 0 0) (q, t) →
  tr_given t ≡ₚ tr_returned t ++ sending q ∧ tr_buffers t = (tr_received t + length (receiving q))%nat.
Proof.
  intros H. apply (rtc_invariant udp_step UInv _ _) in H; [done| |apply udp_step_inv].
  unfold UInv, sending, receiving. cbn. by rewrite !held_by_empty.
Qed.

End Threads.

(** ** Witnesses *)

(** One write thread holding a packet. *)
Definition writing : UDPQueue Packet :=
  mkUDPQueue [] [] [] [] {[0%nat := [to_peer 100]]} ∅.

Lemma WriteThread_sends_witness :
  ∃ q', UDPQueue.WriteThread_send (λ _, Socket.SendMsg id one_by_one 0) (λ _, 5) 0 writing = Ret q' ∧
    length (uq_sendFreeQueue q') = 1%nat.
Proof.
  destruct (WriteThread_sends id ltac:(done) (λ _, one_by_one)) with (index := 0) (now := λ _ : nat, 5)
    (i := 0%nat) (q := writing) (packets := [to_peer 100]) as [H|(sent & q' & E & H1 & _ & H3 & _)].
  - intros i call [|h hs] lens [= <-]. cbn. split; [lia|done].
  - reflexivity.
  - repeat constructor.
  - vm_compute in H. discriminate.
  - exists q'. split; [exact E|]. rewrite H3. apply (f_equal length) in H1. rewrite length_fmap in H1. exact H1.
Defined.

Lemma udp_conserves_witness :
  ∃ q' t, tr_given t ≡ₚ tr_returned t ++ sending q' ∧ tr_given t = op_packet <$> [to_peer 100; to_peer 200].
Proof.
  destruct (UDPQueue.Send [to_peer 100; to_peer 200] (UDPQueue.Init 2)) as [result q'] eqn:E.
  exists q', (mkTraffic (op_packet <$> [to_peer 100; to_peer 200]) (op_packet <$> result) 0 0).
  split; [|reflexivity].
  apply (udp_conserves 2). apply rtc_once. exact (us_send _ _ _ _ [] [] 0 0 E).
Defined.
