(* ===== verification/Transport.v ===== *)
(** * FastTransportContext
    [src/FastTransportProtocol.cpp], [include/FastTransportProtocol.hpp]: the
    connections of one endpoint, the dispatch of received and of sent packets, and the
    turns of its two threads. *)
From S2P Require Import Prelude Groups Addr Packet RecvQueue SendQueue InFlight LockedList Connection Socket UDPQueue.
Local Open Scope Z_scope.

(** Connections are shared: the map, the list of incoming connections and the user hold
    pointers to them.  [ft_objects] is the store they point into; [ft_connections] lists
    the elements of the unordered map in the order of its iteration. *)
Record FastTransportContext (P : Type) := mkContext {
  ft_freeRecvPackets : list P;
  ft_freeSendPackets : list P;
  ft_connections : list (ConnectionKey * nat);
  ft_incomingConnections : list nat;
  ft_readySend : bool;
  ft_udpQueue : UDPQueue P;
  ft_nextID : Z;
  ft_objects : gmap nat (Connection P);
}.
Arguments mkContext {_} _ _ _ _ _ _ _ _.
Arguments ft_freeRecvPackets {_} _.
Arguments ft_freeSendPackets {_} _.
Arguments ft_connections {_} _.
Arguments ft_incomingConnections {_} _.
Arguments ft_readySend {_} _.
Arguments ft_udpQueue {_} _.
Arguments ft_nextID {_} _.
Arguments ft_objects {_} _.

Module FastTransportContext.

(** [find] in the map. *)
Fixpoint find {A} (key : ConnectionKey) (l : list (ConnectionKey * A)) : res (option A) :=
  match l with
  | [] => Ret None
  | (k, x) :: l =>
      same ← ConnectionKey.matches k key;
      if (same : bool) then mret (Some x) else find key l
  end.

Section Operations.
Context {P : Type} `{!IPacket P}.
Variable new_packet : nat → P.
Implicit Types (s : FastTransportContext P) (c : Connection P) (packets : list P).

Definition set_freeRecv (v : list P) s : FastTransportContext P :=
  mkContext v (ft_freeSendPackets s) (ft_connections s) (ft_incomingConnections s) (ft_readySend s) (ft_udpQueue s)
    (ft_nextID s) (ft_objects s).
Definition set_freeSend (v : list P) s : FastTransportContext P :=
  mkContext (ft_freeRecvPackets s) v (ft_connections s) (ft_incomingConnections s) (ft_readySend s) (ft_udpQueue s)
    (ft_nextID s) (ft_objects s).
Definition set_connections (v : list (ConnectionKey * nat)) s : FastTransportContext P :=
  mkContext (ft_freeRecvPackets s) (ft_freeSendPackets s) v (ft_incomingConnections s) (ft_readySend s) (ft_udpQueue s)
    (ft_nextID s) (ft_objects s).
Definition set_incoming (v : list nat) s : FastTransportContext P :=
  mkContext (ft_freeRecvPackets s) (ft_freeSendPackets s) (ft_connections s) v (ft_readySend s) (ft_udpQueue s)
    (ft_nextID s) (ft_objects s).
Definition set_readySend (v : bool) s : FastTransportContext P :=
  mkContext (ft_freeRecvPackets s) (ft_freeSendPackets s) (ft_connections s) (ft_incomingConnections s) v (ft_udpQueue s)
    (ft_nextID s) (ft_objects s).
Definition set_udpQueue (v : UDPQueue P) s : FastTransportContext P :=
  mkContext (ft_freeRecvPackets s) (ft_freeSendPackets s) (ft_connections s) (ft_incomingConnections s) (ft_readySend s) v
    (ft_nextID s) (ft_objects s).
Definition set_nextID (v : Z) s : FastTransportContext P :=
  mkContext (ft_freeRecvPackets s) (ft_freeSendPackets s) (ft_connections s) (ft_incomingConnections s) (ft_readySend s)
    (ft_udpQueue s) v (ft_objects s).
Definition set_objects (v : gmap nat (Connection P)) s : FastTransportContext P :=
  mkContext (ft_freeRecvPackets s) (ft_freeSendPackets s) (ft_connections s) (ft_incomingConnections s) (ft_readySend s)
    (ft_udpQueue s) (ft_nextID s) v.

(** [InitRecvPackets] fills [_freeRecvPackets]; the id is a static of the process. *)
Definition make (threadCount recvQueueSizePerThread : nat) (nextID : Z) : FastTransportContext P :=
  mkContext (UDPQueue.CreateBuffers new_packet (recvQueueSizePerThread * threadCount)) [] [] [] true
    (UDPQueue.Init threadCount) nextID ∅.

(** [OnSendPacket] and [OnOutgoingPackets]. *)
Definition OnSendPacket s : FastTransportContext P := set_readySend true s.
Definition OnOutgoingPackets s : FastTransportContext P := set_readySend true s.

(** [++_nextID] of an atomic 16-bit number. *)
Definition GenerateID s : Z * FastTransportContext P :=
  let id := u16 (ft_nextID s + 1) in (id, set_nextID id s).

(** Following a pointer, and a connection that has changed: its events reach the context. *)
Definition deref (l : nat) s : res (Connection P) :=
  match ft_objects s !! l with Some c => Ret c | None => Err Undefined end.
Definition update (l : nat) c c' s : FastTransportContext P :=
  let s := set_objects (<[l := c']> (ft_objects s)) s in
  if (cn_notified c <? cn_notified c')%nat then OnSendPacket s else s.

(** [make_shared]. *)
Definition alloc c s : nat * FastTransportContext P :=
  let l := fresh (dom (ft_objects s)) in (l, set_objects (<[l := c]> (ft_objects s)) s).

(** [_connections.insert]: nothing happens when the key is there. *)
Definition insert (key : ConnectionKey) (l : nat) s : res (FastTransportContext P) :=
  found ← find key (ft_connections s);
  mret (match found with Some _ => s | None => set_connections (ft_connections s ++ [(key, l)]) s end).

Definition CreateBuffers (size : nat) : list P := UDPQueue.CreateBuffers new_packet size.

(** The number of buffers a connection is given. *)
Definition ConnectionBuffers : nat := Z.to_nat 10000.

Definition Connect (dstAddr : ConnectionAddr) (now : Z) s : res (nat * FastTransportContext P) :=
  let '(id, s) := GenerateID s in
  let c := Connection.make SendingSynState dstAddr id now in
  let c := Connection.SetInternalFreePackets (CreateBuffers ConnectionBuffers) (CreateBuffers ConnectionBuffers) c in
  let '(l, s) := alloc c s in
  s ← insert (cn_key c) l s;
  mret (l, s).

(** [Accept] once a connection has come in: the newest one. *)
Definition Accept s : res (nat * FastTransportContext P) :=
  '(l, incoming) ← LockedList.LockedGetBack (ft_incomingConnections s);
  let s := set_incoming incoming s in
  c ← deref l s;
  let c' := Connection.SetConnected true c in
  let s := update l c c' s in
  s ← insert (cn_key c') l s;
  mret (l, s).

(** [OnReceive(IPacket::Ptr)]: the free packets. *)
Definition OnReceive (now : Z) (packet : P) s : res (list P * FastTransportContext P) :=
  if negb (IsValid packet) then Err (Throws "Not implemented")
  else
    found ← find (ConnectionKey.make (GetDstAddr packet) (GetDstConnectionID packet)) (ft_connections s);
    match found with
    | Some l =>
        c ← deref l s;
        '(free, c') ← ConnectionRun.OnRecvPackets now packet c;
        mret (free, update l c c' s)
    | None =>
        let '(id, s) := GenerateID s in
        '(connection, freeRecvPackets) ← ConnectionRun.Listen now packet id;
        match connection with
        | None => mret (freeRecvPackets, s)
        | Some c =>
            let c := Connection.SetInternalFreePackets (CreateBuffers ConnectionBuffers) (CreateBuffers ConnectionBuffers) c in
            let '(l, s) := alloc c (OnSendPacket s) in
            s ← insert (cn_key c) l s;
            mret (freeRecvPackets, set_incoming (LockedList.LockedPushBack l (ft_incomingConnections s)) s)
        end
    end.

(** [OnReceive(IPacket::List)]. *)
Fixpoint OnReceive_all (now : nat → Z) packets (free : list P) s : res (list P * FastTransportContext P) :=
  match packets with
  | [] => Ret (free, s)
  | p :: packets =>
      '(f, s) ← OnReceive (now 0%nat) p s;
      OnReceive_all (λ i, now (S i)) packets (free ++ f) s
  end.

(** A loop over the connections: [f] changes one and yields packets. *)
Fixpoint for_connections {A} (f : nat → Connection P → res (list A * Connection P)) (ls : list nat) (out : list A) s
    : res (list A * FastTransportContext P) :=
  match ls with
  | [] => Ret (out, s)
  | l :: ls =>
      c ← deref l s;
      '(xs, c') ← f l c;
      for_connections f ls (out ++ xs) (update l c c' s)
  end.

Definition locations s : list nat := (ft_connections s).*2.

(** The first half of [ConnectionsRun]. *)
Definition RunConnections (now : nat → nat → Z) s : res (FastTransportContext P) :=
  '(_, s) ← for_connections (λ l c, c' ← ConnectionRun.Run (now l) c; mret (@nil P, c')) (locations s) [] s;
  mret s.

(** Packets handed back by the write threads, grouped by connection. *)
Definition sent_key (o : OutgoingPacket P) : ConnectionKey :=
  ConnectionKey.make (GetDstAddr (OutgoingPacket.GetPacket o)) (GetSrcConnectionID (OutgoingPacket.GetPacket o)).

Definition group_sent (os : list (OutgoingPacket P)) : res (list (ConnectionKey * list (OutgoingPacket P))) :=
  group_all ConnectionKey.matches sent_key os [].

Definition dispatch_sent (now : nat → Z) (group : ConnectionKey * list (OutgoingPacket P)) s
    : res (FastTransportContext P) :=
  found ← find group.1 (ft_connections s);
  match found with
  | Some l =>
      c ← deref l s;
      mret (update l c (Connection.ProcessSentPackets (now l) group.2 c) s)
  | None => mret (set_freeSend (ft_freeSendPackets s ++ (OutgoingPacket.GetPacket <$> group.2)) s)
  end.

Fixpoint dispatch_all (now : nat → Z) (groups : list (ConnectionKey * list (OutgoingPacket P))) s
    : res (FastTransportContext P) :=
  match groups with
  | [] => Ret s
  | g :: groups => s ← dispatch_sent now g s; dispatch_all now groups s
  end.

(** [SendQueueStep], the wait on [_readySend] being over. *)
Definition SendQueueStep (now : nat → Z) s : res (FastTransportContext P) :=
  let s := set_readySend false s in
  '(packets, s) ← for_connections (λ l c, Connection.GetPacketsToSend (now l) c) (locations s) [] s;
  let s := match packets with [] => s | _ => set_readySend true s end in
  let '(inFlight, q) := UDPQueue.Send packets (ft_udpQueue s) in
  let s := set_udpQueue q s in
  groups ← group_sent inFlight;
  dispatch_all now groups s.

Definition GetConnectionsFreeRecvPackets s : res (list P * FastTransportContext P) :=
  for_connections (λ _ c, mret (Connection.GetFreeRecvPackets c)) (locations s) [] s.

Definition RecvQueueStep (now : nat → Z) s : res (FastTransportContext P) :=
  let freePackets := ft_freeRecvPackets s in
  let s := set_freeRecv [] s in
  let '(received, q) := UDPQueue.Recv freePackets (ft_udpQueue s) in
  let s := set_udpQueue q s in
  '(free, s) ← OnReceive_all now received [] s;
  '(more, s) ← GetConnectionsFreeRecvPackets s;
  mret (set_freeRecv (ft_freeRecvPackets s ++ free ++ more) s).

Definition CheckRecvQueue s : res (FastTransportContext P) :=
  '(_, s) ← for_connections (λ _ c, c' ← Connection.ProcessRecvPackets c; mret (@nil P, c')) (locations s) [] s;
  mret s.

(** The loop of [std::erase_if]: [clean] takes the packets of a closed connection. *)
Fixpoint erase_closed (clean : Connection P → list P * Connection P) (l : list (ConnectionKey * nat))
    (kept : list (ConnectionKey * nat)) (free : list P) s : res (list (ConnectionKey * nat) * list P * FastTransportContext P) :=
  match l with
  | [] => Ret (kept, free, s)
  | (k, x) :: l =>
      c ← deref x s;
      let '(packets, c') := if Connection.IsClosed c then clean c else ([], c) in
      erase_closed clean l (if Connection.CanBeDeleted c' then kept else kept ++ [(k, x)])
        (free ++ packets) (update x c c' s)
  end.

Definition any_closed s : bool :=
  existsb (λ l, match ft_objects s !! l with Some c => Connection.IsClosed c | None => false end) (locations s).

Definition RemoveRecvClosedConnections s : res (FastTransportContext P) :=
  if negb (any_closed s) then Ret s else
  '(kept, free, s) ← erase_closed Connection.CleanFreeRecvPackets (ft_connections s) [] [] s;
  mret (set_connections kept (set_freeRecv (ft_freeRecvPackets s ++ free) s)).

Definition RemoveSendClosedConnections s : res (FastTransportContext P) :=
  if negb (any_closed s) then Ret s else
  '(kept, free, s) ← erase_closed Connection.CleanFreeSendPackets (ft_connections s) [] [] s;
  mret (set_connections kept (set_freeSend (ft_freeSendPackets s ++ free) s)).

(** A turn of each thread. *)
Definition SendThread_turn (run send : nat → nat → Z) s : res (FastTransportContext P) :=
  s ← RemoveSendClosedConnections s;
  s ← RunConnections run s;
  SendQueueStep (λ l, send l 0%nat) s.

Definition RecvThread_turn (now : nat → Z) s : res (FastTransportContext P) :=
  s ← RemoveRecvClosedConnections s;
  s ← RecvQueueStep now s;
  CheckRecvQueue s.

End Operations.
End FastTransportContext.

(** ** A connection keeps its key *)

Section Keys.
Context {P : Type} `{!IPacket P}.
Implicit Types (c : Connection P).

Lemma send_acks_key fuel lastAck : ∀ acks c c',
  DataState.send_acks fuel lastAck acks c = Ret c' → cn_key c' = cn_key c.
Proof.
  induction fuel as [|fuel IH]; intros [|a acks] c c' H; cbn [DataState.send_acks] in H; inv_res; try done.
  unfold Connection.GetFreeSendPacket in H. destruct (last _); inv_res; [|done].
  destruct (DataState.fill_acks _ _ _) as [packetAcks rest]. inv_res. by apply IH in H0.
Qed.

Lemma ProcessInflightPackets_key now c :
  cn_key (BasicConnectionState.ProcessInflightPackets now c) = cn_key c.
Proof.
  unfold BasicConnectionState.ProcessInflightPackets, Connection.ProcessAcks.
  destruct (InFlightQueue.ProcessAcks _ _) as [free q]. by destruct free.
Qed.

Lemma RecvPacket_key p c r c' : Connection.RecvPacket p c = Ret (r, c') → cn_key c' = cn_key c.
Proof.
  unfold Connection.RecvPacket. intros H. inv_res. destruct x as [[st fp] rq].
  destruct st; inv_res; done.
Qed.

Ltac received_key :=
  match goal with H : Connection.RecvPacket _ _ = _ |- _ => apply RecvPacket_key in H end.

Lemma state_OnRecvPackets_key st p c s free c' :
  @is_OnRecvPackets P (states st) p c = Ret (s, free, c') → cn_key c' = cn_key c.
Proof.
  destruct st; cbn [states is_OnRecvPackets]; try discriminate.
  - unfold WaitingSynState.OnRecvPackets. repeat case_match; intros; inv_res; done.
  - unfold WaitingSynAckState.OnRecvPackets. repeat case_match; intros; inv_res; try done.
    destruct x as [r c3]. inv_res. by received_key.
  - unfold DataState.OnRecvPackets. repeat case_match; intros; inv_res; try done.
    destruct x as [r c3]. inv_res. by received_key.
Qed.

Lemma OnRecvPackets_key now p c free c' :
  ConnectionRun.OnRecvPackets now p c = Ret (free, c') → cn_key c' = cn_key c.
Proof.
  unfold ConnectionRun.OnRecvPackets. intros H. inv_res. destruct x as [[s fr] c2]. cbn in H0. inv_res.
  by apply state_OnRecvPackets_key in H.
Qed.

Lemma state_SendPackets_key st now c s c' :
  @is_SendPackets P (states st) now c = Ret (s, c') → cn_key c' = cn_key c.
Proof.
  destruct st; cbn [states is_SendPackets]; try discriminate.
  - unfold SendingSynState.SendPackets, Connection.GetFreeSendPacket. destruct (last _); intros; inv_res; done.
  - unfold WaitingSynAckState.SendPackets. intros; by inv_res.
  - unfold SendingSynAckState.SendPackets, Connection.GetFreeSendPacket. destruct (last _); intros; inv_res; done.
  - unfold DataState.SendPackets, RecvQueue.GetSelectiveAcks, Connection.CheckTimeouts. intros. inv_res.
    apply send_acks_key in H. cbn in H, H0. rewrite <- H. destruct (InFlightQueue.CheckTimeouts _ _) as [out ifq].
    destruct out; cbn in H0; repeat case_match; inv_res; done.
Qed.

Lemma Run_key now c c' : ConnectionRun.Run now c = Ret c' → cn_key c' = cn_key c.
Proof.
  unfold ConnectionRun.Run. case_match; intros; inv_res; destruct x as [s c2]; inv_res.
  - destruct (cn_connectionState c); cbn in H0;
      unfold BasicConnectionState.OnTimeOut, WaitingSynAckState.OnTimeOut, DataState.OnTimeOut in H0; by inv_res.
  - apply state_SendPackets_key in H0. rewrite <- H0.
    destruct (cn_connectionState c); cbn; by rewrite ?ProcessInflightPackets_key.
Qed.

Lemma GetPacketsToSend_key now c out c' : Connection.GetPacketsToSend now c = Ret (out, c') → cn_key c' = cn_key c.
Proof.
  unfold Connection.GetPacketsToSend, SendQueue.GetServicePacketsToSend. intros. inv_res. destruct x as [size ifq].
  case_match; inv_res; [done|]. destruct x as [data sq]. inv_res. done.
Qed.

Lemma ProcessSentPackets_key now os c : cn_key (Connection.ProcessSentPackets now os c) = cn_key c.
Proof.
  unfold Connection.ProcessSentPackets. destruct (InFlightQueue.AddQueue _ _ _) as [[internal free] q].
  by destruct free.
Qed.

Lemma ProcessRecvPackets_key c c' : Connection.ProcessRecvPackets c = Ret c' → cn_key c' = cn_key c.
Proof. unfold Connection.ProcessRecvPackets. case_match; intros; inv_res; done. Qed.

Lemma CleanFreeSendPackets_key c : cn_key (Connection.CleanFreeSendPackets c).2 = cn_key c.
Proof. unfold Connection.CleanFreeSendPackets. by destruct (InFlightQueue.GetAllPackets _). Qed.

End Keys.

(** ** The map of the connections *)

Section WellFormed.
Context {P : Type} `{!IPacket P}.
Import FastTransportContext.
Implicit Types (s : FastTransportContext P) (c : Connection P) (l : nat) (k : ConnectionKey).

(** The map holds connections under their own keys, no two of which the code can
    confuse, and the pointers it shares with the list of incoming connections are valid. *)
Record WF s : Prop := {
  wf_ipv4 : Forall (λ e, is_ipv4 (_dstAddr e.1)) (ft_connections s);
  wf_keys : NoDup ((key_peer ∘ fst) <$> ft_connections s);
  wf_locations : NoDup (locations s);
  wf_objects k l : (k, l) ∈ ft_connections s → ∃ c, ft_objects s !! l = Some c ∧ cn_key c = k;
  wf_incoming l : l ∈ ft_incomingConnections s → ∃ c, ft_objects s !! l = Some c ∧ is_ipv4 (_dstAddr (cn_key c));
}.

Lemma find_spec {A} key (m : list (ConnectionKey * A)) :
  is_ipv4 (_dstAddr key) → Forall (λ e, is_ipv4 (_dstAddr e.1)) m →
  ∃ r, find key m = Ret r ∧
    match r with
    | Some x => ∃ k, (k, x) ∈ m ∧ key_peer k = key_peer key
    | None => key_peer key ∉ (key_peer ∘ fst) <$> m
    end.
Proof.
  intros Hk Hm. induction Hm as [|[k x] m Hx Hm (r & E & Hr)]; cbn [find].
  { exists None. split; [done|]. apply not_elem_of_nil. }
  rewrite key_matches by done. cbn [mbind res_bind]. case_bool_decide as He.
  - exists (Some x). split; [done|]. exists k. split; [left|done].
  - exists r. split; [done|]. destruct r as [y|].
    + destruct Hr as (k' & Hin & Hk'). exists k'. split; [by right|done].
    + apply not_elem_of_cons. split; [cbn in *; congruence|done].
Qed.

(** A connection of the map is found under every key the code takes for its own. *)
Lemma find_Some {A} key k (m : list (ConnectionKey * A)) x :
  is_ipv4 (_dstAddr key) → Forall (λ e, is_ipv4 (_dstAddr e.1)) m → NoDup ((key_peer ∘ fst) <$> m) →
  (k, x) ∈ m → key_peer k = key_peer key → find key m = Ret (Some x).
Proof.
  intros Hk Hm Hnd Hin He. induction Hm as [|[k' y] m Hy Hm IH]; cbn [find]; [by apply elem_of_nil in Hin|].
  rewrite key_matches by done. cbn [mbind res_bind]. apply NoDup_cons in Hnd as [Hn Hnd].
  apply elem_of_cons in Hin as [[= <- <-]|Hin]; [by rewrite bool_decide_eq_true_2|].
  rewrite bool_decide_eq_false_2; [by apply IH|]. intros Hx. apply Hn. cbn in *.
  apply list_elem_of_fmap. exists (k, x). cbn. split; [congruence|done].
Qed.

Lemma find_None {A} key (m : list (ConnectionKey * A)) :
  is_ipv4 (_dstAddr key) → Forall (λ e, is_ipv4 (_dstAddr e.1)) m →
  key_peer key ∉ (key_peer ∘ fst) <$> m → find key m = Ret None.
Proof.
  intros Hk Hm Hn. destruct (find_spec key m Hk Hm) as (r & -> & Hr). destruct r as [x|]; [|done].
  destruct Hr as (k & Hin & Hkey). exfalso. apply Hn. rewrite <- Hkey.
  apply list_elem_of_fmap. by exists (k, x).
Qed.

(** Changes of the context that the map does not see. *)
Definition same_map s s' : Prop :=
  ft_connections s' = ft_connections s ∧ ft_incomingConnections s' = ft_incomingConnections s ∧
  ∀ l c, ft_objects s !! l = Some c → ∃ c', ft_objects s' !! l = Some c' ∧ cn_key c' = cn_key c.

#[export] Instance same_map_refl : Reflexive same_map.
Proof. intros s. split; [done|]. split; [done|]. eauto. Qed.

#[export] Instance same_map_trans : Transitive same_map.
Proof.
  intros s1 s2 s3 (H1 & H2 & H3) (H4 & H5 & H6). split; [congruence|]. split; [congruence|].
  intros l c Hc. destruct (H3 l c Hc) as (c' & Hc' & <-). destruct (H6 l c' Hc') as (c'' & ? & <-). eauto.
Qed.

Lemma same_map_WF s s' : same_map s s' → WF s → WF s'.
Proof.
  intros (H1 & H2 & H3) [Hi Hk Hl Ho Hin]. split; unfold locations in *; rewrite ?H1, ?H2; try done.
  - intros k l Hkl. destruct (Ho k l Hkl) as (c & Hc & <-). destruct (H3 l c Hc) as (c' & ? & <-). eauto.
  - intros l Hl'. destruct (Hin l Hl') as (c & Hc & Hip). destruct (H3 l c Hc) as (c' & ? & E).
    exists c'. split; [done|]. by rewrite E.
Qed.

(** Only the map, the incoming list and the objects matter. *)
Lemma WF_frame s s' :
  ft_connections s' = ft_connections s → ft_incomingConnections s' = ft_incomingConnections s →
  ft_objects s' = ft_objects s → WF s → WF s'.
Proof.
  intros H1 H2 H3. apply same_map_WF. split; [done|]. split; [done|]. rewrite H3. eauto.
Qed.

Lemma update_same_map l c c' s :
  ft_objects s !! l = Some c → cn_key c' = cn_key c → same_map s (update l c c' s).
Proof.
  intros Hl Hk. unfold update. case_match; (split; [done|]; split; [done|]); cbn; intros l' c0 Hc0;
    (destruct (decide (l = l')) as [<-|Hne];
      [rewrite lookup_insert_eq; eexists; split; [done|congruence]|rewrite lookup_insert_ne by done; eauto]).
Qed.

Lemma deref_Some l s c : deref l s = Ret c ↔ ft_objects s !! l = Some c.
Proof. unfold deref. destruct (ft_objects s !! l); naive_solver. Qed.

Lemma for_connections_same_map {A} (f : nat → Connection P → res (list A * Connection P)) ls : ∀ out s out' s',
  (∀ l c xs c', f l c = Ret (xs, c') → cn_key c' = cn_key c) →
  for_connections f ls out s = Ret (out', s') → same_map s s'.
Proof.
  induction ls as [|l ls IH]; intros out s out' s' Hf H; cbn [for_connections] in H; [by inv_res|].
  inv_res. destruct x0 as [xs c']. apply deref_Some in H.
  etransitivity; [eapply update_same_map; [done|by eapply Hf]|by eapply IH].
Qed.

(** [for_connections] calls [f] once for every connection of the map. *)
Lemma for_connections_spec {A} (f : nat → Connection P → res (list A * Connection P)) ls : ∀ out s out' s',
  NoDup ls → for_connections f ls out s = Ret (out', s') →
  (∀ l, l ∉ ls → ft_objects s' !! l = ft_objects s !! l) ∧
  (∀ l c, l ∈ ls → ft_objects s !! l = Some c → ∃ xs c', f l c = Ret (xs, c') ∧ ft_objects s' !! l = Some c').
Proof.
  induction ls as [|l ls IH]; intros out s out' s' Hnd H; cbn [for_connections] in H.
  { inv_res. split; [done|]. intros l c []%elem_of_nil. }
  apply NoDup_cons in Hnd as [Hn Hnd]. inv_res. destruct x0 as [xs c']. apply deref_Some in H.
  assert (Hu : ∀ l', ft_objects (update l x c' s) !! l' = <[l := c']> (ft_objects s) !! l')
    by (intros; unfold update; by case_match).
  destruct (IH _ _ _ _ Hnd H1) as [Hother Hall]. split.
  - intros l' [Hne Hnin]%not_elem_of_cons. rewrite Hother, Hu by done. by rewrite lookup_insert_ne.
  - intros l' c0 [->|Hin]%elem_of_cons Hc0.
    + rewrite H in Hc0. injection Hc0 as <-. exists xs, c'. split; [done|]. rewrite Hother, Hu by done. apply lookup_insert_eq.
    + apply Hall; [done|]. rewrite Hu, lookup_insert_ne; [done|]. by intros ->.
Qed.

Lemma insert_spec l c s :
  WF s → ft_objects s !! l = Some c → is_ipv4 (_dstAddr (cn_key c)) →
  ∃ s', insert (cn_key c) l s = Ret s' ∧ WF s' ∧
    ft_objects s' = ft_objects s ∧ ft_incomingConnections s' = ft_incomingConnections s ∧
    (key_peer (cn_key c) ∉ (key_peer ∘ fst) <$> ft_connections s →
      ft_connections s' = ft_connections s ++ [(cn_key c, l)]).
Proof.
  intros HW Hl Hip. pose proof HW as [Hi Hk Hloc Ho Hin]. unfold insert.
  destruct (find_spec (cn_key c) (ft_connections s) Hip Hi) as (r & -> & Hr). cbn [mbind res_bind].
  destruct r as [x|]; eexists; (split; [done|]).
  { split; [done|]. split; [done|]. split; [done|]. intros Hn. destruct Hr as (k & Hkx & E). exfalso.
    apply Hn. rewrite <- E. apply list_elem_of_fmap. by exists (k, x). }
  split; [|done]. split; cbn; [by apply Forall_app_2; [|repeat constructor]| | | |done].
  - rewrite fmap_app. apply NoDup_app. split; [done|]. split; [|apply NoDup_singleton].
    intros y Hy ->%list_elem_of_singleton. done.
  - unfold locations in *. cbn. rewrite fmap_app. apply NoDup_app. split; [done|]. split; [|apply NoDup_singleton].
    intros y Hy ->%list_elem_of_singleton. apply list_elem_of_fmap in Hy as ([k l'] & Hl' & Hkl). cbn in Hl'. subst l'.
    destruct (Ho k l Hkl) as (c' & Hc' & <-). rewrite Hl in Hc'. injection Hc' as <-. apply Hr.
    apply list_elem_of_fmap. by exists (cn_key c, l).
  - intros k l' [Hkl|[= -> ->]%list_elem_of_singleton]%elem_of_app; [by apply Ho|eauto].
Qed.

Lemma alloc_same_map c s : same_map s (alloc c s).2 ∧ ft_objects (alloc c s).2 !! (alloc c s).1 = Some c ∧
  ft_objects s !! (alloc c s).1 = None.
Proof.
  assert (Hf : ft_objects s !! fresh (dom (ft_objects s)) = None) by apply not_elem_of_dom, is_fresh.
  split; [|split; [apply lookup_insert_eq|done]].
  split; [done|]. split; [done|]. cbn. intros l c0 Hc0. exists c0.
  rewrite lookup_insert_ne; [done|]. intros E. rewrite <- E, Hf in Hc0. done.
Qed.

Lemma NoDup_fmap_sublist {A B} (f : A → B) (l1 l2 : list A) : l1 `sublist_of` l2 → NoDup (f <$> l2) → NoDup (f <$> l1).
Proof.
  induction 1 as [|x l1 l2 Hs IH|x l1 l2 Hs IH]; [done| |]; rewrite fmap_cons, NoDup_cons; intros [Hx Hnd]; [|auto].
  rewrite fmap_cons. apply NoDup_cons. split; [|auto]. intros (y & E & Hy)%list_elem_of_fmap. apply Hx, list_elem_of_fmap.
  exists y. split; [done|]. by eapply elem_of_sublist.
Qed.

Lemma NoDup_fmap_inj {A B} (f : A → B) (m : list A) x y :
  NoDup (f <$> m) → x ∈ m → y ∈ m → f x = f y → x = y.
Proof.
  intros Hnd [i Hi]%list_elem_of_lookup [j Hj]%list_elem_of_lookup E.
  assert (i = j) as <-; [|congruence]. apply (NoDup_lookup _ _ _ (f x) Hnd); rewrite list_lookup_fmap.
  - by rewrite Hi.
  - by rewrite Hj, E.
Qed.

(** [std::erase_if] over the map. *)
Lemma erase_closed_spec clean m : ∀ kept free s,
  (∀ c, cn_key (clean c).2 = cn_key c) →
  NoDup m.*2 → (∀ k x, (k, x) ∈ m → is_Some (ft_objects s !! x)) →
  ∃ rest taken s', erase_closed clean m kept free s = Ret (kept ++ rest, free ++ taken, s') ∧
    same_map s s' ∧ ft_freeRecvPackets s' = ft_freeRecvPackets s ∧ ft_freeSendPackets s' = ft_freeSendPackets s ∧
    rest `sublist_of` m ∧ (∀ x, x ∉ m.*2 → ft_objects s' !! x = ft_objects s !! x) ∧
    ∀ k x c, (k, x) ∈ m → ft_objects s !! x = Some c →
      let r := if Connection.IsClosed c then clean c else ([], c) in
      ft_objects s' !! x = Some r.2 ∧ r.1 ⊆ taken ∧ ((k, x) ∈ rest ↔ Connection.CanBeDeleted r.2 = false).
Proof.
  induction m as [|[k x] m IH]; intros kept free s Hkey Hnd Hm; cbn [erase_closed].
  { exists [], [], s. rewrite !app_nil_r. repeat split; try done; try apply same_map_refl; eauto.
    all: by apply elem_of_nil in H. }
  cbn in Hnd. apply NoDup_cons in Hnd as [Hn Hnd].
  destruct (Hm k x) as [c Hc]; [left|]. rewrite (proj2 (deref_Some _ _ _) Hc). cbn [mbind res_bind].
  set (r := if Connection.IsClosed c then clean c else ([], c)). destruct r as [packets c'] eqn:Er.
  assert (Hc' : cn_key c' = cn_key c).
  { unfold r in Er. destruct (Connection.IsClosed c); [|by injection Er as <- <-].
    rewrite <- (Hkey c), Er. done. }
  assert (Hu : ∀ l', ft_objects (update x c c' s) !! l' = <[x := c']> (ft_objects s) !! l')
    by (intros; unfold update; by case_match).
  destruct (IH (if Connection.CanBeDeleted c' then kept else kept ++ [(k, x)]) (free ++ packets) (update x c c' s) Hkey Hnd)
    as (rest & taken & s' & -> & Hsm & HfR & HfS & Hsub & Hother & Hall).
  { intros k' x' Hin. rewrite Hu. destruct (decide (x = x')) as [->|]; [by rewrite lookup_insert_eq|].
    rewrite lookup_insert_ne by done. apply (Hm k'). by right. }
  assert (Hnm : ∀ k', (k', x) ∉ m) by (intros k' ?; apply Hn, list_elem_of_fmap; by exists (k', x)).
  exists (if Connection.CanBeDeleted c' then rest else (k, x) :: rest), (packets ++ taken), s'.
  split; [|split; [|split; [|split; [|split; [|split]]]]].
  - rewrite <- app_assoc. by case_match; [|rewrite <- app_assoc].
  - etransitivity; [by eapply update_same_map|done].
  - rewrite HfR. unfold update. by case_match.
  - rewrite HfS. unfold update. by case_match.
  - case_match; by constructor.
  - cbn. intros y [Hne Hy]%not_elem_of_cons. rewrite Hother, Hu by done. by rewrite lookup_insert_ne.
  - intros k' x' c0 [[= -> ->]|Hin]%elem_of_cons Hc0.
    + rewrite Hc in Hc0. injection Hc0 as <-. fold r. rewrite Er. cbn.
      rewrite Hother, Hu, lookup_insert_eq by done. split; [done|]. split; [intros y Hy; apply elem_of_app; by left|].
      case_match eqn:Hd; split; try done; [|by left]. intros Hin. exfalso. apply (Hnm k).
      by eapply elem_of_sublist.
    + assert (x ≠ x') by (intros <-; by apply (Hnm k')).
      destruct (Hall k' x' c0 Hin) as (H1 & H2 & H3); [by rewrite Hu, lookup_insert_ne|].
      split; [done|]. split; [intros y Hy; apply elem_of_app; right; by apply H2|]. rewrite <- H3.
      destruct (Connection.CanBeDeleted c'); [reflexivity|].
      rewrite elem_of_cons. split; [intros [[= -> ->]|]; done|by right].
Qed.

End WellFormed.

(** ** Reachable contexts *)

Section Reachable.
Context {P : Type} `{!IPacket P}.
Variable new_packet : nat → P.
Import FastTransportContext.
Implicit Types (s : FastTransportContext P) (c : Connection P) (p : P).

(** What the user does with a connection. *)
Inductive user_op : Connection P → Connection P → Prop :=
  | uo_send data c : user_op c (Connection.Send data c)
  | uo_send2 stop data c : user_op c (Connection.Send2 stop data c).2
  | uo_recv stop free c : user_op c (Connection.Recv stop free c).2
  | uo_try_free c : user_op c (Connection.TryGetFreeSendPackets c).2
  | uo_add_recv free c : user_op c (Connection.AddFreeRecvPackets free c)
  | uo_add_send free c : user_op c (Connection.AddFreeSendPackets free c)
  | uo_close c : user_op c (Connection.Close c).

(** The sections the threads and the user run under the lock of the connections. *)
Inductive context_step s s' : Prop :=
  | cs_connect dst now l : is_ipv4 dst → Connect new_packet dst now s = Ret (l, s') → context_step s s'
  | cs_accept l : Accept s = Ret (l, s') → context_step s s'
  | cs_receive now p free : is_ipv4 (GetDstAddr p) → OnReceive new_packet now p s = Ret (free, s') → context_step s s'
  | cs_run now : RunConnections now s = Ret s' → context_step s s'
  | cs_send now : SendQueueStep now s = Ret s' → context_step s s'
  | cs_free free : GetConnectionsFreeRecvPackets s = Ret (free, s') → context_step s s'
  | cs_check : CheckRecvQueue s = Ret s' → context_step s s'
  | cs_remove_recv : RemoveRecvClosedConnections s = Ret s' → context_step s s'
  | cs_remove_send : RemoveSendClosedConnections s = Ret s' → context_step s s'
  | cs_user l c c' : ft_objects s !! l = Some c → user_op c c' → s' = update l c c' s → context_step s s'
  | cs_packets recv send ready q : s' = set_freeRecv recv (set_freeSend send (set_readySend ready (set_udpQueue q s))) →
      context_step s s'.

Lemma user_op_key c c' : user_op c c' → cn_key c' = cn_key c.
Proof.
  destruct 1; try done.
  - by destruct data.
  - unfold Connection.Send2, Connection.GetFreeSendPackets. destruct data; cbn; by destruct (LockedList.WaitPredicate _ _ _) as [[]|].
  - unfold Connection.Recv. destruct free; cbn; by destruct (LockedList.WaitPredicate _ _ _) as [[]|].
  - by destruct free.
Qed.

Lemma loop_WF {A} (f : nat → Connection P → res (list A * Connection P)) ls out out' s s' :
  (∀ l c xs c', f l c = Ret (xs, c') → cn_key c' = cn_key c) →
  for_connections f ls out s = Ret (out', s') → WF s → WF s'.
Proof. intros Hf H. apply same_map_WF. by eapply for_connections_same_map. Qed.

Lemma dispatch_all_same_map now groups : ∀ s s', dispatch_all now groups s = Ret s' → same_map s s'.
Proof.
  induction groups as [|g groups IH]; intros s s' H; cbn [dispatch_all] in H; inv_res; [done|].
  etransitivity; [|by eapply IH]. clear IH H0. unfold dispatch_sent in H. inv_res. destruct x0; inv_res; [|by split; [|split; [|eauto]]].
  apply deref_Some in H0. eapply update_same_map; [done|apply ProcessSentPackets_key].
Qed.

Lemma remove_WF clean s kept free s' :
  (∀ c, cn_key (clean c).2 = cn_key c) → WF s →
  erase_closed clean (ft_connections s) [] [] s = Ret (kept, free, s') →
  ∀ recv send, WF (set_connections kept (set_freeRecv recv (set_freeSend send s'))).
Proof.
  intros Hclean HW H recv send. pose proof HW as [Hi Hk Hl Ho Hin].
  destruct (erase_closed_spec clean (ft_connections s) [] [] s Hclean Hl) as (rest & taken & s1 & E & Hsm & _ & _ & Hsub & _).
  { intros k x Hkx. destruct (Ho k x Hkx) as (c & -> & _). eauto. }
  rewrite H in E. cbn [app] in E. injection E as -> -> ->.
  destruct (same_map_WF s s1 Hsm HW) as [_ _ _ Ho' Hin']. split; cbn; [| | | |done].
  - apply Forall_forall. intros e He. rewrite Forall_forall in Hi. apply Hi. by eapply elem_of_sublist.
  - by eapply NoDup_fmap_sublist.
  - by eapply NoDup_fmap_sublist.
  - intros k l Hkl. apply Ho'. destruct Hsm as (-> & _). by eapply elem_of_sublist.
Qed.

Lemma new_connection_WF c s :
  WF s → is_ipv4 (_dstAddr (cn_key c)) →
  ∃ s', insert (cn_key c) (alloc c s).1 (alloc c s).2 = Ret s' ∧ WF s' ∧
    ft_objects s' !! (alloc c s).1 = Some c ∧ ft_incomingConnections s' = ft_incomingConnections s ∧
    (key_peer (cn_key c) ∉ (key_peer ∘ fst) <$> ft_connections s →
      ft_connections s' = ft_connections s ++ [(cn_key c, (alloc c s).1)]).
Proof.
  intros HW Hip. destruct (alloc_same_map c s) as (Hsm & Hl & _). pose proof (same_map_WF _ _ Hsm HW) as HW'.
  destruct (insert_spec _ c _ HW' Hl Hip) as (s' & E & HWs & Ho & Hin & Hc). exists s'.
  split; [done|]. split; [done|]. rewrite Ho. split; [done|]. split; [done|]. done.
Qed.

Lemma push_incoming_WF l c s :
  ft_objects s !! l = Some c → is_ipv4 (_dstAddr (cn_key c)) → WF s →
  WF (set_incoming (ft_incomingConnections s ++ [l]) s).
Proof.
  intros Hl Hip [Hi Hk Hloc Ho Hin]. split; try done. cbn.
  intros l' [?| ->%list_elem_of_singleton]%elem_of_app; [auto|eauto].
Qed.

Lemma Listen_key now p id c free :
  ConnectionRun.Listen now p id = Ret (Some c, free) → cn_key c = ConnectionKey.make (GetDstAddr p) id.
Proof.
  unfold ConnectionRun.Listen. case_decide; intros; inv_res. destruct x as [f c']. inv_res.
  by apply OnRecvPackets_key in H0.
Qed.

Lemma OnReceive_WF now p free s s' :
  is_ipv4 (GetDstAddr p) → WF s → OnReceive new_packet now p s = Ret (free, s') → WF s'.
Proof.
  intros Hp HW H. unfold OnReceive in H. destruct (IsValid p); [|discriminate]. cbn [negb] in H. inv_res.
  destruct x as [l|]; inv_res.
  - destruct x0 as [f c']. inv_res. apply deref_Some in H0. eapply same_map_WF; [|exact HW].
    eapply update_same_map; [done|by eapply OnRecvPackets_key].
  - cbn [GenerateID] in H0. inv_res. destruct x as [[c|] f]; inv_res.
    + destruct (alloc _ _) as [l s1] eqn:Ea. inv_res.
      set (c1 := Connection.SetInternalFreePackets _ _ c) in *.
      pose proof (Listen_key _ _ _ _ _ H0) as Hk.
      destruct (new_connection_WF c1 (OnSendPacket (set_nextID (u16 (ft_nextID s + 1)) s))) as (s2 & E & HW2 & Hl & Hin & _).
      { by apply (WF_frame s). }
      { change (cn_key c1) with (cn_key c). by rewrite Hk. }
      rewrite Ea in E, Hl. cbn [fst snd] in E, Hl. rewrite H1 in E. injection E as ->.
      eapply push_incoming_WF; [done| |done]. change (cn_key c1) with (cn_key c). by rewrite Hk.
    + by apply (WF_frame s).
Qed.

(** [Connect] returns, and the connection is in the map unless its id is in use. *)
Lemma Connect_ret dst now s :
  is_ipv4 dst → WF s →
  ∃ l c s', Connect new_packet dst now s = Ret (l, s') ∧ WF s' ∧ ft_objects s' !! l = Some c ∧
    cn_key c = ConnectionKey.make dst (u16 (ft_nextID s + 1)) ∧ cn_connectionState c = SendingSynState ∧
    (key_peer (cn_key c) ∉ (key_peer ∘ fst) <$> ft_connections s → ft_connections s' = ft_connections s ++ [(cn_key c, l)]).
Proof.
  intros Hd HW. unfold Connect. cbn [GenerateID].
  set (c1 := Connection.SetInternalFreePackets _ _ _). set (s0 := set_nextID _ s).
  destruct (new_connection_WF c1 s0) as (s2 & E & HW2 & Hl & _ & Hc); [by apply (WF_frame s)|done|].
  destruct (alloc c1 s0) as [l s1]. cbn [fst snd] in *. rewrite E. cbn [mbind res_bind].
  exists l, c1, s2. split; [done|]. split; [done|]. split; [done|]. split; [done|]. split; [done|]. done.
Qed.

Lemma Connect_WF dst now l s s' :
  is_ipv4 dst → WF s → Connect new_packet dst now s = Ret (l, s') → WF s'.
Proof.
  intros Hd HW H. destruct (Connect_ret dst now s Hd HW) as (l1 & c & s1 & E & HW1 & _).
  rewrite H in E. by injection E as -> ->.
Qed.

Lemma Accept_WF l s s' : WF s → Accept s = Ret (l, s') → WF s'.
Proof.
  intros HW H. unfold Accept in H. inv_res. destruct x as [l' incoming]. inv_res.
  apply deref_Some in H0. cbn in H0. unfold LockedList.LockedGetBack in H.
  destruct (last (ft_incomingConnections s)) as [y|] eqn:El; inv_res.
  assert (HW1 : WF (set_incoming (take (pred (length (ft_incomingConnections s))) (ft_incomingConnections s)) s)).
  { destruct HW as [Hi Hk Hloc Ho Hin]. split; try done. cbn. intros l' Hl'. apply Hin.
    by eapply subseteq_take || eapply elem_of_take. }
  set (s1 := set_incoming _ s) in *. set (c' := Connection.SetConnected true x) in *.
  assert (HW2 : WF (update l x c' s1)) by (eapply same_map_WF; [by eapply update_same_map|done]).
  destruct (insert_spec l c' (update l x c' s1) HW2) as (s2 & E & HWs & _).
  - unfold update. case_match; apply lookup_insert_eq.
  - apply last_Some in El as [l0 El]. destruct HW as [_ _ _ _ Hin]. destruct (Hin l) as (c0 & Hc0 & Hip).
    { rewrite El. apply elem_of_app. right. left. }
    rewrite H0 in Hc0. by injection Hc0 as <-.
  - rewrite H1 in E. by injection E as ->.
Qed.

Lemma make_WF threads size id : WF (make new_packet threads size id).
Proof. split; cbn; try constructor; intros ? *; by intros ?%elem_of_nil. Qed.

Lemma context_step_WF s s' : WF s → context_step s s' → WF s'.
Proof.
  intros HW [dst now l Hd H|l H|now p free Hp H|now H|now H|free H|H|H|H|l c c' Hc Hu ->|recv send ready q ->].
  - by eapply Connect_WF.
  - by eapply Accept_WF.
  - by eapply OnReceive_WF.
  - unfold RunConnections in H. inv_res. destruct x as [out s1]. inv_res. eapply loop_WF; [|done|done].
    cbn. intros l c xs c' Hf. inv_res. by eapply Run_key.
  - unfold SendQueueStep in H. cbn zeta in H. inv_res. destruct x as [packets s1]. inv_res.
    destruct (UDPQueue.Send _ _) as [inFlight q]. inv_res.
    apply dispatch_all_same_map in H1. eapply same_map_WF; [exact H1|].
    assert (HW1 : WF s1).
    { eapply loop_WF; [|exact H|by apply (WF_frame s)]. intros l c xs c' Hf. exact (GetPacketsToSend_key _ _ _ _ Hf). }
    by destruct packets; apply (WF_frame s1).
  - eapply loop_WF; [|done|done]. intros l c xs c' Hf. by injection Hf as _ <-.
  - unfold CheckRecvQueue in H. inv_res. destruct x as [out s1]. inv_res. eapply loop_WF; [|done|done].
    cbn. intros l c xs c' Hf. inv_res. by eapply ProcessRecvPackets_key.
  - unfold RemoveRecvClosedConnections in H. destruct (any_closed s); cbn [negb] in H; [|by inv_res]. inv_res.
    destruct x as [[kept free] s1]. inv_res. eapply (remove_WF _ s); [|done|done]. done.
  - unfold RemoveSendClosedConnections in H. destruct (any_closed s); cbn [negb] in H; [|by inv_res]. inv_res.
    destruct x as [[kept free] s1]. inv_res.
    eapply (remove_WF _ s _ _ _ CleanFreeSendPackets_key HW H (ft_freeRecvPackets s1)).
  - eapply same_map_WF; [|done]. eapply update_same_map; [done|by apply user_op_key].
  - by apply (WF_frame s).
Qed.

(** C27: the map of the connections stays consistent in every interleaving of the two
    threads and the users: no two connections under keys the code takes for equal, each
    connection under its own key, and all shared pointers valid. *)
Theorem context_wf threads size id s :
  rtc context_step (make new_packet threads size id) s → WF s.
Proof.
  intros H. apply (rtc_invariant context_step WF _ _) in H; [done|apply make_WF|apply context_step_WF].
Qed.

(** a valid packet reaches the connection it is addressed to and no other: the
    handler of that connection decides what becomes of it. *)
Theorem OnReceive_routes now p s k l c :
  WF s → IsValid p = true → is_ipv4 (GetDstAddr p) →
  (k, l) ∈ ft_connections s → ft_objects s !! l = Some c →
  key_peer k = key_peer (ConnectionKey.make (GetDstAddr p) (GetDstConnectionID p)) →
  OnReceive new_packet now p s =
    ('(free, c') ← ConnectionRun.OnRecvPackets now p c; mret (free, update l c c' s)) ∧
  ∀ c' l' , l' ≠ l → ft_objects (update l c c' s) !! l' = ft_objects s !! l'.
Proof.
  intros [Hi Hk _ _ _] Hv Hip Hin Hc E. split.
  - unfold OnReceive. rewrite Hv. cbn [negb].
    rewrite (find_Some _ k _ l) by done. cbn [mbind res_bind]. by rewrite (proj2 (deref_Some _ _ _) Hc).
  - intros c' l' Hne. unfold update. case_match; cbn; by rewrite lookup_insert_ne.
Qed.

Lemma Listen_Syn now p id :
  IsValid p = true → GetPacketType p = Syn →
  ∃ c, ConnectionRun.Listen now p id = Ret (Some c, [p]) ∧ cn_key c = ConnectionKey.make (GetDstAddr p) id ∧
    cn_destinationId c = GetSrcConnectionID p ∧ cn_connectionState c = SendingSynAckState.
Proof.
  intros Hv Ht. unfold ConnectionRun.Listen. rewrite Ht, decide_True by done.
  unfold ConnectionRun.OnRecvPackets. cbn [Connection.set_lastPacketReceive cn_connectionState Connection.make states is_OnRecvPackets].
  unfold WaitingSynState.OnRecvPackets. rewrite Hv, Ht. cbn. by eexists.
Qed.

(** C40: a packet for no connection of the context: a Syn always makes a new connection,
    even if its sender has one already, and any other packet is dropped, buffer and all,
    and costs a connection id; an invalid packet makes the receive thread throw. *)
Theorem OnReceive_unknown now p s :
  WF s → is_ipv4 (GetDstAddr p) →
  let key := ConnectionKey.make (GetDstAddr p) (GetDstConnectionID p) in
  (IsValid p = false → OnReceive new_packet now p s = Err (Throws "Not implemented")) ∧
  (IsValid p = true → key_peer key ∉ (key_peer ∘ fst) <$> ft_connections s → GetPacketType p ≠ Syn →
    OnReceive new_packet now p s = Ret ([], set_nextID (u16 (ft_nextID s + 1)) s)) ∧
  (IsValid p = true → key_peer key ∉ (key_peer ∘ fst) <$> ft_connections s → GetPacketType p = Syn →
    key_peer (ConnectionKey.make (GetDstAddr p) (u16 (ft_nextID s + 1))) ∉ (key_peer ∘ fst) <$> ft_connections s →
    ∃ l c s', OnReceive new_packet now p s = Ret ([p], s') ∧
      ft_connections s' = ft_connections s ++ [(cn_key c, l)] ∧ ft_objects s' !! l = Some c ∧
      ft_incomingConnections s' = ft_incomingConnections s ++ [l] ∧
      cn_destinationId c = GetSrcConnectionID p ∧ cn_connectionState c = SendingSynAckState).
Proof.
  intros HW Hip key. pose proof HW as [Hi _ _ _ _]. unfold OnReceive. split; [|split]; intros Hv; rewrite Hv; [done| |];
    cbn [negb]; intros Hn Ht; rewrite (find_None (ConnectionKey.make (GetDstAddr p) (GetDstConnectionID p)) _ Hip Hi Hn);
    cbn [mbind res_bind GenerateID].
  - unfold ConnectionRun.Listen. by rewrite decide_False by done.
  - intros Hfresh. destruct (Listen_Syn now p (u16 (ft_nextID s + 1)) Hv Ht) as (c0 & -> & Hkey & Hdst & Hst).
    cbn [mbind res_bind].
    set (c1 := Connection.SetInternalFreePackets _ _ c0). set (s2 := OnSendPacket _).
    assert (Hk1 : cn_key c1 = ConnectionKey.make (GetDstAddr p) (u16 (ft_nextID s + 1))) by done.
    destruct (new_connection_WF c1 s2) as (s3 & E & _ & Hl & Hinc & Hc); [by apply (WF_frame s)|by rewrite Hk1|].
    destruct (alloc c1 s2) as [l s1]. cbn [fst snd] in E, Hl, Hc. rewrite E. cbn [mbind res_bind].
    exists l, c1, (set_incoming (LockedList.LockedPushBack l (ft_incomingConnections s3)) s3).
    split; [done|]. split; [apply Hc; by rewrite Hk1|]. split; [done|]. split; [|done].
    cbn [set_incoming ft_incomingConnections]. by rewrite Hinc.
Qed.

End Reachable.

Section Dispatch.
Context {P : Type} `{!IPacket P}.
Import FastTransportContext.
Implicit Types (s : FastTransportContext P) (c : Connection P) (o : OutgoingPacket P).

(** The packets handed back that were sent for the connection under key [k]. *)
Definition sent_for (k : ConnectionKey) (os : list (OutgoingPacket P)) : list (OutgoingPacket P) :=
  filter (λ o, key_peer (sent_key o) = key_peer k) os.

(** What a connection becomes when the packets of its group are handed back. *)
Definition after_sent (now : Z) (os : list (OutgoingPacket P)) c : Connection P :=
  match os with [] => c | _ => Connection.ProcessSentPackets now os c end.

Lemma after_sent_some now os c : os ≠ [] → after_sent now os c = Connection.ProcessSentPackets now os c.
Proof. by destruct os. Qed.

Definition group_for (k : ConnectionKey) (groups : list (ConnectionKey * list (OutgoingPacket P))) :=
  bucket key_peer (key_peer k) groups.

Lemma ProcessSentPackets_nil_group (groups : list (ConnectionKey * list (OutgoingPacket P))) k :
  key_peer k ∉ (key_peer ∘ fst) <$> groups → group_for k groups = [].
Proof. apply bucket_other. Qed.

(** The loop over the groups, one after the other. *)
Lemma dispatch_all_spec now groups : ∀ s,
  WF s → NoDup ((key_peer ∘ fst) <$> groups) → Forall (λ g, is_ipv4 (_dstAddr g.1)) groups →
  Forall (λ g, g.2 ≠ []) groups →
  ∃ s', dispatch_all now groups s = Ret s' ∧ ft_connections s' = ft_connections s ∧
    (∀ k l c, (k, l) ∈ ft_connections s → ft_objects s !! l = Some c →
      ft_objects s' !! l = Some (after_sent (now l) (group_for k groups) c)) ∧
    ft_freeSendPackets s' = ft_freeSendPackets s ++
      (op_packet <$> concat (filter (λ g, key_peer g.1 ∉ (key_peer ∘ fst) <$> ft_connections s) groups).*2).
Proof.
  induction groups as [|g groups IH]; intros s HW Hnd Hip Hne; cbn [dispatch_all].
  { exists s. split; [done|]. split; [done|]. split; [done|]. cbn. by rewrite app_nil_r. }
  rewrite fmap_cons in Hnd. apply NoDup_cons in Hnd as [Hn Hnd].
  apply Forall_cons in Hip as [Hg Hip]. apply Forall_cons in Hne as [Hgne Hne].
  unfold dispatch_sent. pose proof HW as [Hi Hk Hl Ho _].
  destruct (find_spec g.1 (ft_connections s) Hg Hi) as (r & -> & Hr). cbn [mbind res_bind].
  destruct r as [l|].
  - destruct Hr as (k & Hin & Hkey). destruct (Ho k l Hin) as (c & Hc & Hck).
    rewrite (proj2 (deref_Some _ _ _) Hc). cbn [mbind res_bind].
    set (c' := Connection.ProcessSentPackets (now l) g.2 c).
    set (s1 := update l c c' s).
    assert (Hu : ∀ l', ft_objects s1 !! l' = <[l := c']> (ft_objects s) !! l')
      by (intros; unfold s1, update; by case_match).
    assert (Hcon : ft_connections s1 = ft_connections s) by (unfold s1, update; by case_match).
    assert (HW1 : WF s1) by (eapply same_map_WF; [|exact HW]; eapply update_same_map; [done|apply ProcessSentPackets_key]).
    destruct (IH s1 HW1 Hnd Hip Hne) as (s' & E & Hc' & Hobj & Hfree). exists s'.
    change (mret s1) with (Ret s1). cbn [mbind res_bind]. split; [done|]. split; [by rewrite Hc'|]. split.
    + intros k' l' c0 Hin' Hc0. rewrite Hcon in Hobj. unfold group_for. rewrite bucket_cons.
      destruct (decide (l' = l)) as [->|Hne'].
      * assert (k' = k) as ->.
        { destruct (Ho k' l Hin') as (c1 & Hc1 & <-). rewrite Hc in Hc1. by injection Hc1 as <-. }
        rewrite Hc in Hc0. injection Hc0 as <-. rewrite decide_True by done.
        rewrite (Hobj k l c') by (rewrite ?Hu, ?lookup_insert_eq; done).
        assert (group_for k groups = []) as Eg by (apply ProcessSentPackets_nil_group; by rewrite Hkey).
        rewrite Eg. unfold group_for in Eg. rewrite Eg, app_nil_r.
        by rewrite (after_sent_some _ g.2).
      * rewrite decide_False.
        -- rewrite (Hobj k' l' c0) by (rewrite ?Hu, ?lookup_insert_ne; done). done.
        -- intros He. apply Hne'. assert ((k', l') = (k, l)) as [= _ ?]; [|done].
           apply (NoDup_fmap_inj (key_peer ∘ fst) (ft_connections s)); [done..|]. cbn. congruence.
    + rewrite Hfree, Hcon. rewrite filter_cons, decide_False.
      * unfold s1, update. by case_match.
      * intros Hx. apply Hx. apply list_elem_of_fmap. exists (k, l). cbn. split; [by rewrite Hkey|done].
  - set (s1 := set_freeSend _ s). assert (HW1 : WF s1) by (by apply (WF_frame s)).
    destruct (IH s1 HW1 Hnd Hip Hne) as (s' & E & Hc' & Hobj & Hfree). exists s'.
    change (mret s1) with (Ret s1). cbn [mbind res_bind]. split; [done|]. split; [done|]. split.
    + intros k l c Hin Hc. unfold group_for. rewrite bucket_cons, decide_False; [by apply Hobj|].
      intros He. apply Hr. rewrite He. apply list_elem_of_fmap. by exists (k, l).
    + rewrite Hfree. cbn [s1 set_freeSend ft_freeSendPackets ft_connections].
      rewrite filter_cons, decide_True by done. cbn. by rewrite fmap_app, app_assoc.
Qed.

(** packets handed back by the sockets return to where they came from: each
    connection gets back, in order, the packets sent under its key, and those of
    connections that are gone go to the free packets of the context; none is lost. *)
Theorem sent_packets_return now inFlight s :
  WF s → Forall (λ o, is_ipv4 (GetDstAddr (op_packet o))) inFlight →
  ∃ groups s', group_sent inFlight = Ret groups ∧ dispatch_all now groups s = Ret s' ∧
    ft_connections s' = ft_connections s ∧
    (∀ k l c, (k, l) ∈ ft_connections s → ft_objects s !! l = Some c →
      ft_objects s' !! l = Some (after_sent (now l) (sent_for k inFlight) c)) ∧
    ft_freeSendPackets s' ≡ₚ ft_freeSendPackets s ++
      (op_packet <$> filter (λ o, key_peer (sent_key o) ∉ (key_peer ∘ fst) <$> ft_connections s) inFlight).
Proof.
  intros HW Hip.
  destruct (group_all_spec ConnectionKey.matches sent_key key_peer (λ k, is_ipv4 (_dstAddr k))
    (λ a b Ha Hb, key_matches a b Ha Hb) inFlight Hip) as (groups & E & HG).
  pose proof HG as [Hb _ Hd Hok]. apply Forall_and in Hok as [Hok Hne].
  destruct (dispatch_all_spec now groups s HW Hd Hok Hne) as (s' & E' & Hc & Ho & Hf).
  exists groups, s'. split; [done|]. split; [done|]. split; [done|]. split.
  - intros k l c Hin Hl. rewrite (Ho k l c Hin Hl). unfold group_for. by rewrite Hb.
  - rewrite Hf. apply Permutation_app_head, fmap_Permutation.
    exact (grouped_filter _ _ _ inFlight groups (λ d, d ∉ (key_peer ∘ fst) <$> ft_connections s) HG).
Qed.

Lemma any_closed_true s k l c :
  (k, l) ∈ ft_connections s → ft_objects s !! l = Some c → Connection.IsClosed c = true → any_closed s = true.
Proof.
  intros Hin Hc Hcl. unfold any_closed. apply existsb_exists. exists l. split; [|by rewrite Hc].
  apply list_elem_of_In, list_elem_of_fmap. by exists (k, l).
Qed.

(** One of the two removals, on a map with a closed connection. *)
Lemma remove_spec clean s :
  (∀ c, cn_key (clean c).2 = cn_key c) → WF s →
  ∃ kept taken s', erase_closed clean (ft_connections s) [] [] s = Ret (kept, taken, s') ∧
    ft_freeRecvPackets s' = ft_freeRecvPackets s ∧ ft_freeSendPackets s' = ft_freeSendPackets s ∧
    kept `sublist_of` ft_connections s ∧
    ∀ k l c, (k, l) ∈ ft_connections s → ft_objects s !! l = Some c →
      let r := if Connection.IsClosed c then clean c else ([], c) in
      ft_objects s' !! l = Some r.2 ∧ r.1 ⊆ taken ∧ ((k, l) ∈ kept ↔ Connection.CanBeDeleted r.2 = false).
Proof.
  intros Hkey [_ _ Hl Ho _].
  destruct (erase_closed_spec clean (ft_connections s) [] [] s Hkey Hl) as (rest & taken & s' & E & _ & H1 & H2 & H3 & _ & H4).
  - intros k x Hkx. destruct (Ho k x Hkx) as (c & -> & _). eauto.
  - exists rest, taken, s'. eauto 10.
Qed.

(** a closed connection is removed when both threads have passed over it, and not
    before: its free receive packets and its packets in flight are then back with the
    context, and open connections stay. *)
Theorem closed_connection_removed s k l c :
  WF s → (k, l) ∈ ft_connections s → ft_objects s !! l = Some c →
  Connection.IsClosed c = true → cn_cleanRecvBuffers c = false → cn_cleanSendBuffers c = false →
  ∃ s1 s2, RemoveRecvClosedConnections s = Ret s1 ∧ RemoveSendClosedConnections s1 = Ret s2 ∧
    (k, l) ∈ ft_connections s1 ∧ (k, l) ∉ ft_connections s2 ∧
    cn_freeRecvPackets c ⊆ ft_freeRecvPackets s2 ∧
    (InFlightQueue.GetAllPackets (cn_inFlightQueue c)).1 ⊆ ft_freeSendPackets s2 ∧
    ∀ k' l' c', (k', l') ∈ ft_connections s → ft_objects s !! l' = Some c' →
      Connection.IsClosed c' = false → Connection.CanBeDeleted c' = false → (k', l') ∈ ft_connections s2.
Proof.
  intros HW Hin Hc Hcl Hr Hs. unfold RemoveRecvClosedConnections, RemoveSendClosedConnections.
  rewrite (any_closed_true s k l c) by done. cbn [negb].
  destruct (remove_spec Connection.CleanFreeRecvPackets s ltac:(done) HW) as (kept & taken & s1 & E & H1 & H2 & Hsub & Hall).
  pose proof (remove_WF Connection.CleanFreeRecvPackets s kept taken s1 ltac:(done) HW E (ft_freeRecvPackets s1 ++ taken) (ft_freeSendPackets s1)) as HW1.
  rewrite E. cbn [mbind res_bind].
  destruct (Hall k l c Hin Hc) as (Ho & Ht & Hk). rewrite Hcl in *. cbn [snd fst] in Ho, Ht, Hk.
  assert (Hkin : (k, l) ∈ kept) by (apply Hk; cbn; by rewrite Hs).
  match type of HW1 with WF ?x => set (s1' := x) in * end.
  exists s1'.
  set (c1 := (Connection.CleanFreeRecvPackets c).2) in *.
  rewrite (any_closed_true s1' k l c1) by done. cbn [negb].
  destruct (remove_spec Connection.CleanFreeSendPackets s1' CleanFreeSendPackets_key HW1)
    as (kept2 & taken2 & s2 & E2 & H3 & H4 & Hsub2 & Hall2).
  rewrite E2. cbn [mbind res_bind]. eexists _. split; [done|]. split; [done|]. split; [done|].
  destruct (Hall2 k l c1 Hkin Ho) as (_ & Ht2 & Hk2).
  assert (Ecl : Connection.IsClosed c1 = true) by done. rewrite Ecl in Ht2, Hk2.
  cbn [set_connections set_freeSend ft_connections ft_freeRecvPackets ft_freeSendPackets]. split; [|split; [|split]].
  - rewrite Hk2. unfold Connection.CleanFreeSendPackets. by destruct (InFlightQueue.GetAllPackets _).
  - rewrite H3. cbn. intros y Hy. apply elem_of_app. right. by apply Ht.
  - intros y Hy. apply elem_of_app. right. apply Ht2. unfold Connection.CleanFreeSendPackets.
    change (cn_inFlightQueue (Connection.set_cleanSendBuffers true c1)) with (cn_inFlightQueue c).
    by destruct (InFlightQueue.GetAllPackets _).
  - intros k' l' c' Hin' Hc' Hop Hnd. destruct (Hall k' l' c' Hin' Hc') as (Ho' & _ & Hk').
    rewrite Hop in Ho', Hk'. destruct (Hall2 k' l' c') as (_ & _ & Hk2'); [by apply Hk'|done|].
    rewrite Hop in Hk2'. by apply Hk2'.
Qed.

End Dispatch.

(** ** Witnesses *)

Section Examples.
Import FastTransportContext.

Definition peer_address : ConnectionAddr := mkAddr AF_INET (htons 100) 16777343 [].

(** A context with one connection, with id 7, which is [closed] or not. *)
Definition one_connection (closed : bool) : Connection Packet :=
  (if closed then Connection.Close else id)
    (Connection.set_freeRecvPackets [Packet.make 1400] (Connection.make DataState peer_address 7 0)).
Definition endpoint (closed : bool) : FastTransportContext Packet :=
  mkContext [] [] [(ConnectionKey.make peer_address 7, 0%nat)] [] false (UDPQueue.Init 1) 7
    {[0%nat := one_connection closed]}.

Lemma endpoint_WF closed : WF (endpoint closed).
Proof.
  split; cbn.
  - by repeat constructor.
  - apply NoDup_singleton.
  - apply NoDup_singleton.
  - intros k l [= -> ->]%list_elem_of_singleton. exists (one_connection closed). by destruct closed.
  - intros l ?%elem_of_nil. done.
Qed.

(** A data packet from the peer for connection [id]. *)
Definition from_peer (id : Z) : Packet :=
  Packet.SetAddr peer_address (SetDstConnectionID id (SetSrcConnectionID 9 (SetSeqNumber 1 (SetPacketType Data
    (SetMagic (Packet.make 1400)))))).

Definition to_send (id : Z) : OutgoingPacket Packet :=
  OutgoingPacket.make (Packet.SetAddr peer_address (SetSrcConnectionID id (SetMagic (Packet.make 1400)))) false.

Lemma context_wf_witness :
  ∃ s : FastTransportContext Packet, ft_connections s ≠ [] ∧ WF s.
Proof.
  destruct (Connect_ret Packet.make peer_address 0 (make Packet.make 1 0 0)) as (l & c & s & E & _ & _ & _ & _ & Hc);
    [done|apply make_WF|].
  exists s. split.
  - rewrite Hc; [done|]. apply not_elem_of_nil.
  - apply (context_wf Packet.make 1 0 0). apply rtc_once. eapply cs_connect; [|exact E]. done.
Defined.

Lemma OnReceive_routes_witness :
  ∃ s', OnReceive Packet.make 5 (from_peer 7) (endpoint false) = Ret ([Packet.make 1400], s') ∧
    rq_selectiveAcks ∘ cn_recvQueue <$> ft_objects s' !! 0%nat = Some [1].
Proof.
  destruct (OnReceive_routes Packet.make 5 (from_peer 7) (endpoint false) (ConnectionKey.make peer_address 7) 0
    (one_connection false)) as [E _]; [apply endpoint_WF|reflexivity|reflexivity|left|reflexivity|reflexivity|].
  rewrite E. eexists. split; [vm_compute; reflexivity|vm_compute; reflexivity].
Defined.

Lemma OnReceive_unknown_witness :
  OnReceive Packet.make 5 (from_peer 8) (endpoint false) = Ret ([], set_nextID 8 (endpoint false)).
Proof.
  destruct (OnReceive_unknown Packet.make 5 (from_peer 8) (endpoint false)) as (_ & H & _);
    [apply endpoint_WF|reflexivity|].
  rewrite H; [reflexivity|reflexivity| |vm_compute; discriminate].
  intros Hx%list_elem_of_singleton. vm_compute in Hx. discriminate.
Defined.

Lemma sent_packets_return_witness :
  ∃ groups s', group_sent [to_send 7; to_send 8] = Ret groups ∧ dispatch_all (λ _, 5) groups (endpoint false) = Ret s' ∧
    length (ft_freeSendPackets s') = 1%nat.
Proof.
  destruct (sent_packets_return (λ _, 5) [to_send 7; to_send 8] (endpoint false) (endpoint_WF false))
    as (groups & s' & E1 & E2 & _ & _ & Hf); [by repeat constructor|].
  exists groups, s'. split; [exact E1|]. split; [exact E2|].
  apply Permutation_length in Hf. rewrite Hf. vm_compute. reflexivity.
Defined.

Lemma closed_connection_removed_witness :
  ∃ s1 s2, RemoveRecvClosedConnections (endpoint true) = Ret s1 ∧ RemoveSendClosedConnections s1 = Ret s2 ∧
    (ConnectionKey.make peer_address 7, 0%nat) ∉ ft_connections s2.
Proof.
  destruct (closed_connection_removed (endpoint true) (ConnectionKey.make peer_address 7) 0 (one_connection true)
    (endpoint_WF true)) as (s1 & s2 & H1 & H2 & _ & H3 & _); [left|reflexivity..|].
  exists s1, s2. split; [exact H1|]. split; [exact H2|exact H3].
Defined.

End Examples.
