(* ===== verification/MessageIO.v ===== *)
(** * MessageWriter and MessageReader
    [src/MessageWriter.cpp], [src/MessageReader.cpp] and their headers: bytes and lists
    of packets laid out over the payloads of a list of packets. *)
From S2P Require Import Prelude.
Local Open Scope Z_scope.

(** Both classes use a packet through [GetPayload] only: a packet is its payload span,
    and [_packet] a position in the list. *)
Abbreviation payload := (list Z).

Definition sizeof_writedPacketNumber : nat := 4.
Definition sizeof_size_t : nat := 8.

(** [dest.splice(l, begin, end)] for positions [i <= j] of [l]: what is moved and what
    is left.  With both at [l.end()] it is undefined (see [MultiList]). *)
Definition splice_from {A} (i j : nat) (l : list A) : res (list A * list A) :=
  defined_if (i <? length l)%nat;;
  mret (slice i (j - i) l, take i l ++ drop j l).

(** [payload.subspan(offset)], [memcpy] to and from it. *)
Definition store (offset : nat) (src : list Z) (p : payload) : payload := list_inserts offset src p.

Module MessageWriter.

Record MessageWriter := mkMessageWriter {
  mw_packets : list payload;
  mw_packet : nat;
  mw_writedPacketNumber : Z;
  mw_offset : nat;
}.
Implicit Types (w : MessageWriter).

Definition make (packets : list payload) : MessageWriter := mkMessageWriter packets 0 1 sizeof_writedPacketNumber.

Definition GetPacket w : res payload :=
  match mw_packets w !! mw_packet w with Some p => Ret p | None => Err Undefined end.

(** The next packet, which must exist. *)
Definition GetNextPacket w : res MessageWriter :=
  defined_if (mw_packet w <? length (mw_packets w))%nat;;
  assert_that (negb (S (mw_packet w) =? length (mw_packets w))%nat);;
  mret (mkMessageWriter (mw_packets w) (S (mw_packet w)) (u32 (mw_writedPacketNumber w + 1)) 0).

(** The loop of [write].  [auto& packet = GetPacket()] is bound once per turn: the
    assignment [packet = GetNextPacket()] assigns through the reference, by the
    defaulted [IPacket::operator=], which copies nothing, so the [memcpy] of that turn
    still goes to the packet before. *)
Fixpoint write_loop (fuel : nat) (src : list Z) w : res MessageWriter :=
  match src with
  | [] => Ret w
  | _ =>
      match fuel with
      | O => Err OutOfFuel
      | S fuel =>
          packet ← GetPacket w;
          let at_ := mw_packet w in
          w ← (if (mw_offset w =? length packet)%nat then GetNextPacket w else Ret w);
          defined_if (mw_offset w <=? length packet)%nat;;
          let writeSize := Nat.min (length src) (length packet - mw_offset w) in
          write_loop fuel (drop writeSize src)
            (mkMessageWriter (<[at_ := store (mw_offset w) (take writeSize src) packet]> (mw_packets w))
               (mw_packet w) (mw_writedPacketNumber w) (mw_offset w + writeSize))
      end
  end.

(** Every turn but the first after a change of packet uses up bytes. *)
Definition write_fuel (src : list Z) w : nat := S (length src + length (mw_packets w)).
Definition write (src : list Z) w : res MessageWriter := write_loop (write_fuel src w) src w.

(** [operator<<] of a trivial type of [n] bytes, of a string or span of bytes. *)
Definition write_trivial (n : nat) (z : Z) w : res MessageWriter := write (le_split n z) w.
Definition write_string (s : list Z) w : res MessageWriter :=
  w ← write_trivial sizeof_size_t (Z.of_nat (length s)) w; write s w.

(** [operator<<(IPacket::List&&)]. *)
Definition write_packets (packets : list payload) w : res MessageWriter :=
  w ← write_trivial sizeof_size_t (Z.of_nat (length packets)) w;
  assert_that (negb (mw_packet w =? length (mw_packets w))%nat);;
  '(freePackets, kept) ← splice_from (S (mw_packet w)) (length (mw_packets w)) (mw_packets w);
  let written := kept ++ packets in
  mret (mkMessageWriter (written ++ freePackets) (length written)
    (u32 (mw_writedPacketNumber w + Z.of_nat (length packets))) 0).

(** What [GetWritedPackets] returns, and the packets left. *)
Definition GetWritedPackets w : res (list payload * list payload) :=
  if (mw_packet w =? 0)%nat && (mw_offset w =? 4)%nat then mret ([], mw_packets w)
  else
    let packet := if (mw_offset w =? 0)%nat && negb (mw_packet w =? 0)%nat then pred (mw_packet w) else mw_packet w in
    assert_that (negb (packet =? length (mw_packets w))%nat);;
    match mw_packets w with
    | [] => Err Undefined
    | front :: rest =>
        defined_if (sizeof_writedPacketNumber <=? length front)%nat;;
        let front := store 0 (le_split sizeof_writedPacketNumber (mw_writedPacketNumber w)) front in
        splice_from 0 (S packet) (front :: rest)
    end.

(** The packets taken to be filled with data, and the writer. *)
Definition GetDataPackets (size : nat) w : res (list payload * MessageWriter) :=
  assert_that (negb (mw_packet w =? length (mw_packets w))%nat);;
  '(freePackets, kept) ← splice_from (S (mw_packet w)) (length (mw_packets w)) (mw_packets w);
  mret (take size freePackets,
    mkMessageWriter (kept ++ drop size freePackets) (mw_packet w) (mw_writedPacketNumber w) (mw_offset w)).

Definition AddFreePackets (freePackets : list payload) w : MessageWriter :=
  mkMessageWriter (mw_packets w ++ freePackets) (mw_packet w) (mw_writedPacketNumber w) (mw_offset w).

Definition GetPackets w : list payload := mw_packets w.

End MessageWriter.

Module MessageReader.

Record MessageReader := mkMessageReader {
  mr_packets : list payload;
  mr_packet : nat;
  mr_offset : nat;
}.
Implicit Types (r : MessageReader).

Definition make (packets : list payload) : res MessageReader :=
  assert_that (negb (length packets =? 0)%nat);; mret (mkMessageReader packets 0 4).

Definition GetPacket r : res payload :=
  match mr_packets r !! mr_packet r with Some p => Ret p | None => Err Undefined end.

Definition GetNextPacket r : res MessageReader :=
  defined_if (mr_packet r <? length (mr_packets r))%nat;;
  assert_that (negb (S (mr_packet r) =? length (mr_packets r))%nat);;
  mret (mkMessageReader (mr_packets r) (S (mr_packet r)) 0).

(** The loop of [read], with the same reference as in [write]. *)
Fixpoint read_loop (fuel size : nat) (dest : list Z) r : res (list Z * MessageReader) :=
  match size with
  | O => Ret (dest, r)
  | _ =>
      match fuel with
      | O => Err OutOfFuel
      | S fuel =>
          packet ← GetPacket r;
          r ← (if (mr_offset r =? length packet)%nat then GetNextPacket r else Ret r);
          defined_if (mr_offset r <=? length packet)%nat;;
          let readSize := Nat.min size (length packet - mr_offset r) in
          read_loop fuel (size - readSize) (dest ++ slice (mr_offset r) readSize packet)
            (mkMessageReader (mr_packets r) (mr_packet r) (mr_offset r + readSize))
      end
  end.

Definition read (size : nat) r : res (list Z * MessageReader) :=
  read_loop (S (size + length (mr_packets r))) size [] r.

Definition read_trivial (n : nat) r : res (Z * MessageReader) :=
  '(bytes, r) ← read n r; mret (le_combine bytes, r).
Definition read_string r : res (list Z * MessageReader) :=
  '(size, r) ← read_trivial sizeof_size_t r; read (Z.to_nat size) r.

(** [operator>>(IPacket::List&)]: at most as many packets as there are. *)
Definition read_packets r : res (list payload * MessageReader) :=
  '(size, r) ← read_trivial sizeof_size_t r;
  let start := S (mr_packet r) in
  let end_ := Nat.min (start + Z.to_nat size) (length (mr_packets r)) in
  '(packets, rest) ← splice_from start end_ (mr_packets r);
  let r := mkMessageReader rest (mr_packet r) (mr_offset r) in
  packet ← GetPacket r;
  mret (packets, mkMessageReader rest (mr_packet r) (length packet)).

Definition GetPackets r : list payload := mr_packets r.
Definition GetFreePackets r : res (list payload * list payload) :=
  splice_from 0 (mr_packet r) (mr_packets r).

End MessageReader.

(** ** Correctness *)

Section Correctness.
Import MessageWriter MessageReader.
Implicit Types (p : payload).

Lemma store_length offset src p : length (store offset src p) = length p.
Proof. apply length_inserts. Qed.

Lemma inserts_front (src p : list Z) : (length src ≤ length p)%nat → list_inserts 0 src p = src ++ drop (length src) p.
Proof.
  intros H. rewrite <- (take_drop (length src) (list_inserts 0 src p)). f_equal.
  - exact (slice_inserts_eq 0 src p H).
  - apply list_eq. intros i. rewrite !lookup_drop, list_lookup_inserts_ge by lia. done.
Qed.

(** A write that stays in the current packet. *)
Lemma write_fits src w p :
  mw_packets w !! mw_packet w = Some p → (mw_offset w + length src ≤ length p)%nat →
  MessageWriter.write src w = Ret (mkMessageWriter
    (<[mw_packet w := store (mw_offset w) src p]> (mw_packets w))
    (mw_packet w) (mw_writedPacketNumber w) (mw_offset w + length src)).
Proof.
  intros Hp Hl. unfold MessageWriter.write, write_fuel. destruct src as [|b src].
  { cbn. unfold store. cbn. rewrite list_insert_id by done. rewrite Nat.add_0_r. by destruct w. }
  cbn [write_loop]. unfold MessageWriter.GetPacket. rewrite Hp. cbn [mbind res_bind].
  rewrite (proj2 (Nat.eqb_neq _ _)) by (cbn in Hl; lia). cbn [mbind res_bind].
  rewrite (proj2 (defined_if_ret _)) by (apply Nat.leb_le; lia). cbn [mbind res_bind].
  rewrite Nat.min_l by lia. rewrite drop_all, take_ge by done.
  destruct (length (b :: src) + length (mw_packets w))%nat eqn:E; [cbn in E; lia|]. done.
Qed.

(** A read that stays in the current packet. *)
Lemma read_fits size r p :
  mr_packets r !! mr_packet r = Some p → (mr_offset r + size ≤ length p)%nat →
  MessageReader.read size r = Ret (slice (mr_offset r) size p,
    mkMessageReader (mr_packets r) (mr_packet r) (mr_offset r + size)).
Proof.
  intros Hp Hl. unfold MessageReader.read. destruct size as [|size].
  { cbn. rewrite Nat.add_0_r. unfold slice. rewrite take_0. by destruct r. }
  cbn [read_loop]. unfold MessageReader.GetPacket. rewrite Hp. cbn [mbind res_bind].
  rewrite (proj2 (Nat.eqb_neq _ _)) by lia. cbn [mbind res_bind].
  rewrite (proj2 (defined_if_ret _)) by (apply Nat.leb_le; lia). cbn [mbind res_bind].
  rewrite Nat.min_l by lia. rewrite Nat.sub_diag.
  destruct (S size + length (mr_packets r))%nat eqn:E; [lia|]. done.
Qed.

(** Several writes, and reads of the given lengths, one after the other. *)
Fixpoint write_all (ws : list (list Z)) (w : MessageWriter) : res MessageWriter :=
  match ws with
  | [] => Ret w
  | src :: ws => w ← MessageWriter.write src w; write_all ws w
  end.
Fixpoint read_all (sizes : list nat) (r : MessageReader) : res (list (list Z) * MessageReader) :=
  match sizes with
  | [] => Ret ([], r)
  | n :: sizes =>
      '(bytes, r) ← MessageReader.read n r;
      '(rest, r) ← read_all sizes r;
      mret (bytes :: rest, r)
  end.

(** A payload that holds [bytes] from [offset] on. *)
Definition holds (offset : nat) (bytes : list Z) p : Prop := slice offset (length bytes) p = bytes.

Lemma store_holds offset src p : (offset + length src ≤ length p)%nat → holds offset src (store offset src p).
Proof. apply slice_inserts_eq. Qed.

Lemma store_keeps offset src offset' bytes p :
  (offset + length bytes ≤ offset' ∨ offset' + length src ≤ offset)%nat →
  holds offset bytes p → holds offset bytes (store offset' src p).
Proof. intros Ho H. unfold holds, store. by rewrite slice_inserts_ne. Qed.

Lemma holds_app offset a b p : holds offset a p → holds (offset + length a) b p → holds offset (a ++ b) p.
Proof.
  unfold holds, slice. intros Ha Hb. rewrite length_app.
  rewrite <- (take_drop (length a) (drop offset p)).
  assert (length a ≤ length (drop offset p))%nat as Hl by (rewrite <- Ha at 1; rewrite length_take; lia).
  rewrite take_app, length_take, Nat.min_l by done.
  rewrite drop_drop. rewrite take_take, Nat.min_r by lia. rewrite Ha.
  replace (length a + length b - length a)%nat with (length b) by lia. by rewrite Hb.
Qed.

Lemma holds_app_inv offset a b p : holds offset (a ++ b) p → holds offset a p ∧ holds (offset + length a) b p.
Proof.
  unfold holds, slice. rewrite length_app. intros H. split.
  - apply (f_equal (take (length a))) in H. rewrite take_take, take_app_length in H.
    by rewrite Nat.min_l in H by lia.
  - apply (f_equal (drop (length a))) in H. rewrite drop_app_length, <- take_drop_commute in H.
    by rewrite drop_drop in H || (rewrite take_drop_commute in H; by rewrite drop_drop in H).
Qed.

(** Writes that fit the first packet leave it holding all their bytes. *)
Lemma write_all_fits ws : ∀ w p,
  mw_packets w !! mw_packet w = Some p → (mw_offset w + length (concat ws) ≤ length p)%nat →
  ∃ p', write_all ws w = Ret (mkMessageWriter (<[mw_packet w := p']> (mw_packets w)) (mw_packet w)
      (mw_writedPacketNumber w) (mw_offset w + length (concat ws))) ∧
    length p' = length p ∧ holds (mw_offset w) (concat ws) p' ∧
    ∀ offset bytes, (offset + length bytes ≤ mw_offset w)%nat → holds offset bytes p → holds offset bytes p'.
Proof.
  induction ws as [|src ws IH]; intros w p Hp Hl; cbn [write_all concat].
  { exists p. rewrite list_insert_id by done. rewrite Nat.add_0_r. split; [by destruct w|].
    split; [done|]. split; [|done]. unfold holds, slice. by rewrite take_0. }
  cbn [concat] in Hl. rewrite length_app in Hl. rewrite (write_fits src w p Hp) by lia. cbn [mbind res_bind].
  set (p1 := store (mw_offset w) src p).
  destruct (IH (mkMessageWriter (<[mw_packet w := p1]> (mw_packets w)) (mw_packet w)
    (mw_writedPacketNumber w) (mw_offset w + length src)) p1) as (p' & -> & Hp' & Hh & Hk); cbn.
  - apply list_lookup_insert_eq. by eapply lookup_lt_Some.
  - unfold p1. rewrite store_length. lia.
  - exists p'. rewrite list_insert_insert_eq. split; [by rewrite length_app, Nat.add_assoc|].
    split; [by rewrite Hp'; apply store_length|]. cbn in Hh, Hk. split.
    + apply holds_app; [|done]. apply Hk; [done|]. apply store_holds. lia.
    + intros offset bytes Ho Hb. apply Hk; [lia|]. apply store_keeps; [by left|done].
Qed.

Lemma read_all_fits ws : ∀ r p,
  mr_packets r !! mr_packet r = Some p → (mr_offset r + length (concat ws) ≤ length p)%nat →
  holds (mr_offset r) (concat ws) p →
  read_all (length <$> ws) r = Ret (ws, mkMessageReader (mr_packets r) (mr_packet r) (mr_offset r + length (concat ws))).
Proof.
  induction ws as [|src ws IH]; intros r p Hp Hl Hh; cbn [fmap list_fmap read_all concat] in *.
  { cbn. rewrite Nat.add_0_r. by destruct r. }
  rewrite length_app in Hl. apply holds_app_inv in Hh as [H1 H2].
  rewrite (read_fits _ r p Hp) by lia. cbn [mbind res_bind].
  rewrite (IH _ p) by (cbn; (done || lia)). cbn. rewrite H1. do 3 f_equal. by rewrite length_app, Nat.add_assoc.
Qed.

(** what is written is read: values that fit into the first packet of a message come
    back as written, and the message is that one packet, which says so. *)
Theorem message_roundtrip ws front rest :
  (0 < length (concat ws))%nat → (4 + length (concat ws) ≤ length front)%nat →
  ∃ w p r r', write_all ws (MessageWriter.make (front :: rest)) = Ret w ∧
    GetWritedPackets w = Ret ([p], rest) ∧ take 4 p = le_split 4 1 ∧
    MessageReader.make [p] = Ret r ∧ read_all (length <$> ws) r = Ret (ws, r').
Proof.
  intros Hpos Hl.
  destruct (write_all_fits ws (MessageWriter.make (front :: rest)) front eq_refl Hl) as (p' & E & Hp' & Hh & _).
  cbn in E, Hh. set (p := store 0 (le_split 4 1) p').
  assert (Hlp : length p = length front) by (unfold p; by rewrite store_length).
  eexists _, p, (mkMessageReader [p] 0 4), _. split; [exact E|]. split; [|split; [|split; [done|]]].
  - unfold GetWritedPackets. cbn [mw_packet mw_offset mw_packets mw_writedPacketNumber].
    rewrite (proj2 (Nat.eqb_neq (S (S (S (S _)))) 4)) by lia. cbn [Nat.eqb andb negb].
    cbn [length Nat.eqb negb assert_that mbind res_bind].
    rewrite (proj2 (defined_if_ret _)) by (apply Nat.leb_le; unfold sizeof_writedPacketNumber; lia).
    cbn [mbind res_bind]. unfold splice_from. cbn. done.
  - change (slice 0 (length (le_split 4 1)) p = le_split 4 1).
    apply store_holds. cbn. lia.
  - apply (read_all_fits ws _ p); [done|cbn [mr_offset]; lia|]. cbn [mr_offset]. apply store_keeps; [right; cbn; lia|done].
Qed.

(** a value that crosses the end of a packet is not written behind it: its tail
    overwrites the beginning of the packet before, where the number of packets and the
    first values of the message are, and the new packet only loses the room for it. *)
Theorem write_crossing_overwrites w p next head tail :
  mw_packets w !! mw_packet w = Some p → mw_packets w !! S (mw_packet w) = Some next →
  (mw_offset w + length head)%nat = length p → (0 < length tail ≤ length p)%nat →
  ∃ w', MessageWriter.write (head ++ tail) w = Ret w' ∧
    mw_packets w' !! mw_packet w = Some (tail ++ drop (length tail) (store (mw_offset w) head p)) ∧
    mw_packets w' !! S (mw_packet w) = Some next ∧
    mw_packet w' = S (mw_packet w) ∧ mw_offset w' = length tail.
Proof.
  intros Hp Hn Hh Ht. pose proof (lookup_lt_Some _ _ _ Hn) as Hlt.
  set (p1 := store (mw_offset w) head p). assert (Hl1 : length p1 = length p) by apply store_length.
  (* the turn after the end of the packet is reached *)
  assert (Hcross : ∀ fuel n ps, (1 < fuel)%nat → ps !! mw_packet w = Some p1 → length ps = length (mw_packets w) →
    write_loop fuel tail (mkMessageWriter ps (mw_packet w) n (length p)) =
      Ret (mkMessageWriter (<[mw_packet w := tail ++ drop (length tail) p1]> ps) (S (mw_packet w)) (u32 (n + 1)) (length tail))).
  { intros [|[|fuel]] n ps Hf Hps Hlps; try lia. destruct tail as [|b tail]; [cbn in Ht; lia|].
    cbn [write_loop]. unfold MessageWriter.GetPacket. cbn [mw_packets mw_packet mw_offset mw_writedPacketNumber].
    rewrite Hps. cbn [mbind res_bind]. rewrite (proj2 (Nat.eqb_eq _ _)) by done.
    unfold MessageWriter.GetNextPacket. cbn [mw_packets mw_packet mw_offset mw_writedPacketNumber].
    rewrite (proj2 (defined_if_ret _)) by (apply Nat.ltb_lt; lia). cbn [mbind res_bind].
    rewrite (proj2 (assert_that_ret _)) by (apply negb_true_iff, Nat.eqb_neq; lia). cbn [mbind res_bind mret res_ret].
    cbn [mw_packets mw_packet mw_offset mw_writedPacketNumber Nat.leb defined_if].
    rewrite Nat.min_l by (cbn in *; lia). rewrite drop_all, take_ge by done. cbn [write_loop].
    do 2 f_equal. unfold store. destruct fuel; by rewrite inserts_front by lia. }
  unfold MessageWriter.write, write_fuel. destruct head as [|b head].
  - cbn in Hh. rewrite Nat.add_0_r in Hh. cbn [app]. assert (p1 = p) as E1 by done.
    assert (w = mkMessageWriter (mw_packets w) (mw_packet w) (mw_writedPacketNumber w) (length p)) as Ew
      by (destruct w; cbn in *; congruence).
    assert (∀ fuel, write_loop fuel tail w = write_loop fuel tail (mkMessageWriter (mw_packets w) (mw_packet w)
      (mw_writedPacketNumber w) (length p))) as -> by (intros; by rewrite <- Ew).
    rewrite Hcross by (rewrite ?E1; (done || lia)).
    eexists. split; [done|]. cbn. rewrite list_lookup_insert_eq by lia. rewrite list_lookup_insert_ne by lia. done.
  - cbn [app write_loop]. unfold MessageWriter.GetPacket. rewrite Hp. cbn [mbind res_bind].
    rewrite (proj2 (Nat.eqb_neq _ _)) by (cbn in Hh; lia). cbn [mbind res_bind].
    rewrite (proj2 (defined_if_ret _)) by (apply Nat.leb_le; lia). cbn [mbind res_bind].
    rewrite Nat.min_r by (cbn in *; rewrite length_app; lia).
    replace (length p - mw_offset w)%nat with (length (b :: head)) by lia.
    rewrite app_comm_cons, drop_app_length, take_app_length. fold p1. rewrite Hh.
    rewrite Hcross; [|rewrite length_app; cbn; lia|apply list_lookup_insert_eq; lia|apply length_insert].
    eexists. split; [done|]. cbn. rewrite list_lookup_insert_eq by (rewrite length_insert; lia).
    rewrite !list_lookup_insert_ne by lia. done.
Qed.

(** A list of packets behind values in the first of at least two packets. *)
Lemma write_packets_spec packets p free rest n offset :
  (offset + sizeof_size_t ≤ length p)%nat →
  write_packets packets (mkMessageWriter (p :: free :: rest) 0 n offset) =
    Ret (mkMessageWriter (store offset (le_split sizeof_size_t (Z.of_nat (length packets))) p :: packets ++ free :: rest)
      (S (length packets)) (u32 (n + Z.of_nat (length packets))) 0).
Proof.
  intros Hl. unfold write_packets, write_trivial.
  rewrite (write_fits _ _ p) by (rewrite ?length_le_split; done). cbn [mbind res_bind].
  cbn [mw_packets mw_packet mw_offset mw_writedPacketNumber].
  generalize (store offset (le_split sizeof_size_t (Z.of_nat (length packets))) p). intros p2.
  change (<[0%nat:=p2]> (p :: free :: rest)) with (p2 :: free :: rest).
  unfold splice_from, slice. cbn [length Nat.eqb negb assert_that mbind res_bind Nat.ltb Nat.leb defined_if mret res_ret].
  cbn [Nat.sub drop take]. rewrite firstn_all, drop_all. done.
Qed.

Lemma GetWritedPackets_packets packets p rest n :
  (sizeof_writedPacketNumber ≤ length p)%nat →
  GetWritedPackets (mkMessageWriter (p :: packets ++ rest) (S (length packets)) n 0) =
    Ret (store 0 (le_split sizeof_writedPacketNumber n) p :: packets, rest).
Proof.
  intros Hl. unfold GetWritedPackets. cbn [mw_packet mw_offset mw_packets mw_writedPacketNumber Nat.eqb andb negb pred].
  rewrite (proj2 (assert_that_ret _)).
  2: { apply negb_true_iff, Nat.eqb_neq. cbn. rewrite length_app. lia. }
  cbn [mbind res_bind]. rewrite (proj2 (defined_if_ret _)) by (by apply Nat.leb_le).
  cbn [mbind res_bind]. unfold splice_from. cbn [length Nat.ltb Nat.leb defined_if mbind res_bind].
  unfold slice. rewrite drop_0, Nat.sub_0_r, take_0. cbn [take drop app].
  by rewrite take_app_length, drop_app_length.
Qed.

Lemma read_packets_spec packets p offset :
  packets ≠ [] → Z.of_nat (length packets) < 2 ^ 64 → (offset + sizeof_size_t ≤ length p)%nat →
  holds offset (le_split sizeof_size_t (Z.of_nat (length packets))) p →
  read_packets (mkMessageReader (p :: packets) 0 offset) = Ret (packets, mkMessageReader [p] 0 (length p)).
Proof.
  intros Hne Hnum Hl Hh. unfold holds in Hh. rewrite length_le_split in Hh. unfold read_packets, read_trivial.
  rewrite (read_fits _ _ p) by done. cbn [mbind res_bind mr_offset mr_packets mr_packet].
  rewrite Hh, le_combine_split, wrap_small by (change (8 * Z.of_nat sizeof_size_t) with 64; lia).
  cbn [mret res_ret mbind res_bind mr_packets mr_packet mr_offset].
  rewrite Nat2Z.id. cbn [length]. change (1 + length packets)%nat with (S (length packets)). rewrite Nat.min_id.
  unfold splice_from. rewrite (proj2 (defined_if_ret _)).
  2: { apply Nat.ltb_lt. destruct packets; [done|cbn; lia]. }
  cbn -[slice]. unfold slice. cbn [drop]. rewrite drop_0, Nat.sub_0_r, firstn_all, drop_all. done.
Qed.

(** a message of values followed by packets: the message is its first packet and the
    packets, in order, its number says how many they are, the unused packets stay with
    the writer, and the reader gets the values and the packets back. *)
Theorem message_with_packets_roundtrip ws packets front free rest :
  packets ≠ [] → Z.of_nat (length packets) < 2 ^ 32 - 1 →
  (4 + length (concat ws) + sizeof_size_t ≤ length front)%nat →
  ∃ w w' p r r1 r2, write_all ws (MessageWriter.make (front :: free :: rest)) = Ret w ∧
    write_packets packets w = Ret w' ∧
    GetWritedPackets w' = Ret (p :: packets, free :: rest) ∧
    le_combine (take 4 p) = 1 + Z.of_nat (length packets) ∧
    MessageReader.make (p :: packets) = Ret r ∧ read_all (length <$> ws) r = Ret (ws, r1) ∧
    read_packets r1 = Ret (packets, r2) ∧ mr_packets r2 = [p].
Proof.
  intros Hne Hnum Hl.
  destruct (write_all_fits ws (MessageWriter.make (front :: free :: rest)) front eq_refl) as (p0 & E0 & Hp0 & Hh0 & _);
    [cbn; lia|].
  change (mw_offset (MessageWriter.make _)) with 4%nat in *. set (T := length (concat ws)) in *.
  set (size := le_split sizeof_size_t (Z.of_nat (length packets))).
  assert (Hsz : length size = sizeof_size_t) by apply length_le_split.
  set (p2 := store (4 + T) size p0). set (number := u32 (1 + Z.of_nat (length packets))).
  set (p := store 0 (le_split 4 number) p2).
  assert (Hpl : length p = length front) by (unfold p, p2; by rewrite !store_length).
  assert (Hp2 : length p2 = length front) by (unfold p2; by rewrite store_length).
  eexists _, _, p, _, (mkMessageReader (p :: packets) 0 (4 + T)), _.
  split; [exact E0|]. split; [apply write_packets_spec; lia|].
  split; [apply (GetWritedPackets_packets packets p2 (free :: rest)); unfold sizeof_writedPacketNumber; lia|].
  split; [|split; [done|split; [|split]]].
  - change (take 4 p) with (slice 0 (length (le_split 4 number)) p).
    assert (Hn : holds 0 (le_split 4 number) p) by (apply store_holds; rewrite length_le_split; lia).
    unfold holds in Hn. rewrite Hn, le_combine_split. unfold number.
    rewrite wrap_wrap. apply wrap_small. lia.
  - apply (read_all_fits ws (mkMessageReader (p :: packets) 0 4) p); [done|cbn [mr_offset]; fold T; lia|].
    apply store_keeps; [right; rewrite length_le_split; cbn [mr_offset]; lia|].
    apply store_keeps; [left; cbn [mr_offset]; fold T; lia|done].
  - apply read_packets_spec; [done|lia|lia|]. apply store_keeps; [right; cbn; lia|]. apply store_holds. lia.
  - done.
Qed.

End Correctness.

(** ** Witnesses *)

Definition blank_payload : list Z := replicate 32 0.

Lemma message_roundtrip_witness :
  ∃ w p r r', write_all [[1; 2]; [3]] (MessageWriter.make [blank_payload]) = Ret w ∧
    MessageWriter.GetWritedPackets w = Ret ([p], []) ∧ MessageReader.make [p] = Ret r ∧
    read_all [2%nat; 1%nat] r = Ret ([[1; 2]; [3]], r').
Proof.
  destruct (message_roundtrip [[1; 2]; [3]] blank_payload []) as (w & p & r & r' & H1 & H2 & _ & H3 & H4);
    [cbn; lia|cbn; lia|].
  exists w, p, r, r'. split; [exact H1|]. split; [exact H2|]. split; [exact H3|exact H4].
Defined.

(** Three bytes with room for one: the other two end up at the front. *)
Lemma write_crossing_overwrites_witness :
  ∃ w', MessageWriter.write ([7] ++ [8; 9])
      (MessageWriter.mkMessageWriter [[1; 2; 3; 4; 5; 6]; [0; 0; 0]] 0 1 5) = Ret w' ∧
    MessageWriter.mw_packets w' !! 0%nat = Some [8; 9; 3; 4; 5; 7] ∧
    MessageWriter.mw_packets w' !! 1%nat = Some [0; 0; 0].
Proof.
  destruct (write_crossing_overwrites (MessageWriter.mkMessageWriter [[1; 2; 3; 4; 5; 6]; [0; 0; 0]] 0 1 5)
    [1; 2; 3; 4; 5; 6] [0; 0; 0] [7] [8; 9]) as (w' & H1 & H2 & H3 & _); [reflexivity|reflexivity|reflexivity|cbn; lia|].
  exists w'. split; [exact H1|]. split; [exact H2|exact H3].
Defined.

Lemma message_with_packets_roundtrip_witness :
  ∃ w w' p r r1 r2, write_all [[1]] (MessageWriter.make [blank_payload; blank_payload]) = Ret w ∧
    MessageWriter.write_packets [[5; 5]; [6]] w = Ret w' ∧
    MessageWriter.GetWritedPackets w' = Ret ([p; [5; 5]; [6]], [blank_payload]) ∧
    MessageReader.make [p; [5; 5]; [6]] = Ret r ∧ read_all [1%nat] r = Ret ([[1]], r1) ∧
    MessageReader.read_packets r1 = Ret ([[5; 5]; [6]], r2).
Proof.
  destruct (message_with_packets_roundtrip [[1]] [[5; 5]; [6]] blank_payload blank_payload [])
    as (w & w' & p & r & r1 & r2 & H1 & H2 & H3 & _ & H4 & H5 & H6 & _); [discriminate|cbn; lia|vm_compute; lia|].
  exists w, w', p, r, r1, r2. split; [exact H1|]. split; [exact H2|]. split; [exact H3|].
  split; [exact H4|]. split; [exact H5|exact H6].
Defined.
