(* ===== verification/Leaf.v ===== *)
(** * Leaf: the cached data of a file
    [FileSystem/src/Leaf.cpp] (the data cache, the status of the pieces and the pending
    jobs), [FileSystem/src/FileCache/Range.cpp], [FileSystem/src/PiecesStatus.cpp],
    [FileSystem/include/FileCache/BufferView.hpp].

    The packets of a file that have arrived are kept in ranges of consecutive bytes,
    grouped by blocks of [BlockSize] bytes.  A range is an object that a reader can pin;
    it has an identity [rg_id] and lives in the set of its block.  The tree of leaves is
    in [FileTree]. *)
From S2P Require Import Prelude Addr Packet.
Local Open Scope Z_scope.

(** ** Payloads *)

Section Payload.
Context {P : Type} `{!IPacket P}.

(** The bytes [GetPayload()] shows. *)
Definition payload (p : P) : list Z := from_res [] (GetPayload p).

(** The payload can be read, and is as long as it says. *)
Definition Readable (p : P) : Prop :=
  GetPayload p = Ret (payload p) ∧ GetPayloadLength p = Z.of_nat (length (payload p)).

End Payload.

(** ** Range *)

Record Range (P : Type) := mkRange {
  rg_id : nat;
  rg_offset : Z;
  rg_size : Z;
  rg_packets : list P;
  rg_counter : Z;
}.
Arguments mkRange {_} _ _ _ _ _.
Arguments rg_id {_} _.
Arguments rg_offset {_} _.
Arguments rg_size {_} _.
Arguments rg_packets {_} _.
Arguments rg_counter {_} _.

Module Range.
Section Operations.
Context {P : Type}.
Implicit Types r : Range P.

Definition make (id : nat) (offset size : Z) (data : list P) : Range P :=
  mkRange id offset size data 1.

Definition SetOffset (offset : Z) r : Range P :=
  mkRange (rg_id r) offset (rg_size r) (rg_packets r) (rg_counter r).
Definition SetSize (size : Z) r : Range P :=
  mkRange (rg_id r) (rg_offset r) size (rg_packets r) (rg_counter r).
(** Assignment through [GetPackets()]. *)
Definition SetPackets (data : list P) r : Range P :=
  mkRange (rg_id r) (rg_offset r) (rg_size r) data (rg_counter r).

Definition Pin r : Range P :=
  mkRange (rg_id r) (rg_offset r) (rg_size r) (rg_packets r) (swrap 32 (rg_counter r + 1)).
Definition Unpin r : Range P :=
  mkRange (rg_id r) (rg_offset r) (rg_size r) (rg_packets r) (swrap 32 (rg_counter r - 1)).
Definition IsPinned r : bool := 1 <? rg_counter r.

(** [GetOffset() + GetSize()]: an [off_t] and a [size_t] add up as [size_t]. *)
Definition endOf r : Z := u64 (rg_offset r + rg_size r).

End Operations.
End Range.

(** [std::set] with [RangePtrLess]: the ranges in the order of their offsets.  An
    iterator is the list before it, backwards, and the list from it on. *)
Module RangeSet.
Section Operations.
Context {P : Type}.
Implicit Types (r : Range P) (s pre post : list (Range P)).

(** [upper_bound(Range(offset, ...))], looking on from an iterator. *)
Fixpoint upper_bound_from (offset : Z) pre s : list (Range P) * list (Range P) :=
  match s with
  | [] => (pre, [])
  | r :: s' => if offset <? rg_offset r then (pre, s) else upper_bound_from offset (r :: pre) s'
  end.
Definition upper_bound (offset : Z) s := upper_bound_from offset [] s.

(** [insert(make_shared<Range>(...))]: a set that has a range at this offset already
    does not take the new one, and the new one is destroyed with its packets. *)
Fixpoint insert r s : list (Range P) :=
  match s with
  | [] => [r]
  | x :: s' =>
      if rg_offset x <? rg_offset r then x :: insert r s'
      else if rg_offset r <? rg_offset x then r :: s
      else s
  end.

End Operations.
End RangeSet.

(** ** PiecesStatus *)

Inductive PieceStatus := NotFound | InFlight | InCache | OnDisk.

#[export] Instance PieceStatus_eq_dec : EqDecision PieceStatus.
Proof. solve_decision. Defined.

Module PiecesStatus.

Definition make (size : Z) : list PieceStatus := replicate (Z.to_nat size) NotFound.

(** [operator[]] of [std::vector] is undefined out of range. *)
Definition SetStatus (index : Z) (status : PieceStatus) (v : list PieceStatus) :
    res (list PieceStatus) :=
  defined_if (bool_decide (0 ≤ index < Z.of_nat (length v)));;
  Ret (<[Z.to_nat index := status]> v).

Definition GetStatus (index : Z) (v : list PieceStatus) : res PieceStatus :=
  match v !! Z.to_nat index with
  | Some s => if 0 <=? index then Ret s else Err Undefined
  | None => Err Undefined
  end.

Definition Size (v : list PieceStatus) : Z := Z.of_nat (length v).

End PiecesStatus.

(** ** BufferView *)

(** [Span]: a pointer into the payload of a packet, and a number of bytes. *)
Record Span (P : Type) := mkSpan {
  sp_packet : P;
  sp_start : Z;
  sp_size : Z;
}.
Arguments mkSpan {_} _ _ _.
Arguments sp_packet {_} _.
Arguments sp_start {_} _.
Arguments sp_size {_} _.

(** [BufferView]: the spans, and the ranges its [RangePin] holds. *)
Record BufferView (P : Type) := mkBufferView {
  bv_spans : list (Span P);
  bv_pin : list nat;
}.
Arguments mkBufferView {_} _ _.
Arguments bv_spans {_} _.
Arguments bv_pin {_} _.

Module BufferView.
Section Operations.
Context {P : Type} `{!IPacket P}.
Implicit Types v : BufferView P.

Definition HasData v : bool := match bv_spans v with [] => false | _ => true end.

Definition TotalSize v : Z := foldl (λ total s, u64 (total + sp_size s)) 0 (bv_spans v).

(** What a reader of the spans sees. *)
Definition span_bytes (s : Span P) : list Z :=
  slice (Z.to_nat (sp_start s)) (Z.to_nat (sp_size s)) (payload (sp_packet s)).
Definition bytes v : list Z := bv_spans v ≫= span_bytes.

End Operations.
End BufferView.

(** ** Leaf: its data *)

Definition BlockSize : Z := 1000 * 1300.
Definition SIZE_MAX : Z := 2 ^ 64 - 1.

(** [offset / BlockSize], an [off_t], used as a [size_t]. *)
Definition block_index (offset : Z) : Z := u64 (Z.quot offset BlockSize).

(** The part of class [Leaf] that holds its data.  [ld_next] names the next [Range]
    object that is made; [J] are the pending jobs. *)
Record LeafData (P J : Type) := mkLeafData {
  ld_size : Z;
  ld_next : nat;
  ld_data : gmap Z (list (Range P));
  ld_piecesStatus : list PieceStatus;
  ld_pendingJobs : gmap Z (list J);
}.
Arguments mkLeafData {_ _} _ _ _ _ _.
Arguments ld_size {_ _} _.
Arguments ld_next {_ _} _.
Arguments ld_data {_ _} _.
Arguments ld_piecesStatus {_ _} _.
Arguments ld_pendingJobs {_ _} _.

Module Leaf.
Section Operations.
Context {P J : Type} `{!IPacket P}.
Implicit Types (l : LeafData P J) (r next prev : Range P) (s : list (Range P)) (data : list P).

Definition make (size : Z) : LeafData P J :=
  mkLeafData size 0 ∅ (PiecesStatus.make (size / BlockSize + 1)) ∅.

Definition with_data (m : gmap Z (list (Range P))) l : LeafData P J :=
  mkLeafData (ld_size l) (ld_next l) m (ld_piecesStatus l) (ld_pendingJobs l).
Definition with_status (v : list PieceStatus) l : LeafData P J :=
  mkLeafData (ld_size l) (ld_next l) (ld_data l) v (ld_pendingJobs l).
Definition with_next (n : nat) l : LeafData P J :=
  mkLeafData (ld_size l) n (ld_data l) (ld_piecesStatus l) (ld_pendingJobs l).

(** *** AddData *)

(** The data end where [next] starts, and [prev] may end where they start. *)
Definition join_next (offset size : Z) data (pre : list (Range P)) next post :
    list (Range P) :=
  let front :=
    rev_append pre (Range.SetOffset offset (Range.SetSize (u64 (rg_size next + size))
      (Range.SetPackets (data ++ rg_packets next) next)) :: post) in
  match pre with
  | prev :: pre' =>
      if Range.endOf prev =? u64 offset then
        rev_append pre' (Range.SetSize (u64 (rg_size prev + size + rg_size next))
          (Range.SetPackets (rg_packets prev ++ data ++ rg_packets next) prev) :: post)
      else front
  | [] => front
  end.

(** No range starts at or before the data: [next] is the first one. *)
Definition add_front (new : Range P) next post : list (Range P) * list P :=
  if (rg_offset new <=? rg_offset next)
     && (Range.endOf next <=? Range.endOf new)
  then (new :: post, rg_packets next)
  else (new :: next :: post, []).

(** The data start behind the start of [prev]; [None] if they are to be inserted as a
    range of their own. *)
Definition join_prev (offset size : Z) data (pre' : list (Range P)) prev post :
    res (option (list (Range P) * list P)) :=
  if (rg_offset prev <=? offset) && (u64 offset <=? Range.endOf prev) then
    if Range.endOf prev =? u64 offset then
      Ret (Some (rev_append pre' (Range.SetSize (u64 (rg_size prev + size))
        (Range.SetPackets (rg_packets prev ++ data) prev) :: post), []))
    else
      assert_that (u64 offset <? Range.endOf prev);;
      let skipSize := u64 (Range.endOf prev - offset) in
      match rg_packets prev with
      | front :: _ :: _ =>
          let blockSize := GetPayloadLength front in
          defined_if (negb (blockSize =? 0));;
          let skipped := Z.to_nat (u64 (skipSize + blockSize - 1) / blockSize) in
          Ret (Some (rev_append pre'
            (Range.SetSize (u64 (rg_size prev + size - skipSize))
              (Range.SetPackets (rg_packets prev ++ drop skipped data) prev) :: post),
            take skipped data))
      | _ => Ret None
      end
  else Ret None.

(** [AddData] into a block that has ranges. *)
Definition add_range (id : nat) (offset size : Z) data s : res (list (Range P) * list P) :=
  let new := Range.make id offset size data in
  match RangeSet.upper_bound offset s with
  | (pre, next :: post) =>
      if u64 (rg_offset next) =? u64 (offset + size) then
        Ret (join_next offset size data pre next post, [])
      else
        match pre with
        | [] => Ret (add_front new next post)
        | prev :: pre' =>
            joined ← join_prev offset size data pre' prev (next :: post);
            Ret (default (RangeSet.insert new s, []) joined)
        end
  | ([], []) => Err Undefined      (* *oldData is *end() *)
  | (prev :: pre', []) =>
      joined ← join_prev offset size data pre' prev [];
      Ret (default (RangeSet.insert new s, []) joined)
  end.

Definition AddData (offset size : Z) data l : res (LeafData P J * list P) :=
  let index := block_index offset in
  let id := ld_next l in
  match ld_data l !! index with
  | None =>
      let l := with_data (<[index := [Range.make id offset size data]]> (ld_data l)) l in
      status ← PiecesStatus.SetStatus index InCache (ld_piecesStatus l);
      Ret (with_next (S id) (with_status status l), [])
  | Some blocks =>
      '(blocks, free) ← add_range id offset size data blocks;
      Ret (with_next (S id) (with_data (<[index := blocks]> (ld_data l)) l), free)
  end.

(** *** ExtractBlock, GetFirstBlockIndex *)

Definition ExtractBlock (index : Z) l : res (LeafData P J * Z * list P) :=
  match ld_data l !! index with
  | None => Ret (l, 0, [])
  | Some ranges =>
      status ← PiecesStatus.SetStatus index NotFound (ld_piecesStatus l);
      match ranges with
      | [] => Err Undefined        (* *ranges.begin() is *end() *)
      | first :: _ =>
          Ret (with_data (delete index (ld_data l)) (with_status status l),
               rg_offset first, ranges ≫= rg_packets)
      end
  end.

Definition anyPinned (ranges : list (Range P)) : bool := existsb Range.IsPinned ranges.

Definition GetFirstBlockIndex l : Z :=
  foldr (λ '(index, ranges) minIndex,
    if anyPinned ranges then minIndex else Z.min minIndex index) SIZE_MAX
    (map_to_list (ld_data l)).

(** *** GetData *)

(** Go to the packet that holds byte [start]; [None] if there is none. *)
Fixpoint seek (start : Z) (packets : list P) : option (Z * P * list P) :=
  match packets with
  | [] => None
  | p :: packets =>
      if GetPayloadLength p <=? start then seek (start - GetPayloadLength p) packets
      else Some (start, p, packets)
  end.

(** The spans of the packets behind the first one, and what is left to read. *)
Fixpoint take_spans (readed : Z) (packets : list P) : list (Span P) * Z :=
  match packets with
  | [] => ([], readed)
  | p :: packets =>
      if readed =? 0 then ([], readed)
      else
        let spanSize := Z.min (GetPayloadLength p) readed in
        let '(spans, rest) := take_spans (readed - spanSize) packets in
        (mkSpan p 0 spanSize :: spans, rest)
  end.

Fixpoint GetData_loop (fuel : nat) (offset readed : Z) l (v : BufferView P) :
    res (LeafData P J * BufferView P) :=
  if readed <=? 0 then Ret (l, v)
  else match fuel with
  | O => Err OutOfFuel
  | S fuel =>
      let index := block_index offset in
      match ld_data l !! index with
      | None => Ret (l, v)
      | Some blocks =>
          match RangeSet.upper_bound offset blocks with
          | ([], _) => Ret (l, v)
          | (r :: pre, post) =>
              if (rg_offset r <=? offset) && (u64 offset <=? Range.endOf r) then
                let l := with_data (<[index := rev_append pre (Range.Pin r :: post)]> (ld_data l)) l in
                let pins := bv_pin v ++ [rg_id r] in
                match rg_packets r with
                | [] => Err (Throws "Data not found")
                | packets =>
                    match seek (offset - rg_offset r) packets with
                    | None => Ret (l, mkBufferView (bv_spans v) pins)
                    | Some (start, p, packets) =>
                        let firstSize := Z.min (GetPayloadLength p - start) readed in
                        let '(spans, rest) := take_spans (readed - firstSize) packets in
                        GetData_loop fuel (offset + (readed - rest)) rest l
                          (mkBufferView (bv_spans v ++ mkSpan p start firstSize :: spans) pins)
                    end
                end
              else Ret (l, v)
          end
      end
  end.

Definition GetData (offset size : Z) l : res (LeafData P J * BufferView P) :=
  if ld_size l <=? offset then Ret (l, mkBufferView [] [])
  else
    let readed := Z.min size (u64 (ld_size l - offset)) in
    GetData_loop (Z.to_nat readed) offset readed l (mkBufferView [] []).

(** [~RangePin]: unpin each range; a range that the leaf has dropped has no reader of
    its counter left. *)
Definition Unpin (id : nat) l : LeafData P J :=
  with_data (map (λ r, if bool_decide (rg_id r = id) then Range.Unpin r else r) <$> ld_data l) l.
Definition drop_pin (pin : list nat) l : LeafData P J := foldl (λ l id, Unpin id l) l pin.

(** *** Statuses and pending jobs *)

Definition SetInFlight (blockIndex : Z) l : res (LeafData P J * bool) :=
  status ← PiecesStatus.GetStatus blockIndex (ld_piecesStatus l);
  if bool_decide (status = NotFound) then
    v ← PiecesStatus.SetStatus blockIndex InFlight (ld_piecesStatus l);
    Ret (with_status v l, true)
  else Ret (l, false).

Definition with_jobs (m : gmap Z (list J)) l : LeafData P J :=
  mkLeafData (ld_size l) (ld_next l) (ld_data l) (ld_piecesStatus l) m.

Definition AddPendingJob (blockIndex : Z) (job : J) l : LeafData P J :=
  with_jobs (<[blockIndex := default [] (ld_pendingJobs l !! blockIndex) ++ [job]]>
    (ld_pendingJobs l)) l.

Definition TakePendingJobs (blockIndex : Z) l : LeafData P J * list J :=
  match ld_pendingJobs l !! blockIndex with
  | None => (l, [])
  | Some result => (with_jobs (delete blockIndex (ld_pendingJobs l)) l, result)
  end.

Definition InvalidateDataCache l : LeafData P J :=
  with_status (PiecesStatus.make (ld_size l / BlockSize + 1)) (with_data ∅ l).

(** The jobs [CancelAllPendingJobs] cancels at one leaf, and the leaf after it. *)
Definition CancelPendingJobs l : LeafData P J * list J :=
  (with_jobs ∅ l, concat (map_to_list (ld_pendingJobs l)).*2).

End Operations.
End Leaf.

(** ** What the cache holds *)

Section Contents.
Context {P J : Type} `{!IPacket P}.
Implicit Types (l : LeafData P J) (r : Range P) (s pre post : list (Range P)) (data : list P).

(** A range without its count of pins. *)
Definition bare r : Range P := mkRange (rg_id r) (rg_offset r) (rg_size r) (rg_packets r) 0.

(** Two leaves that differ in their pins only. *)
Definition pins_only l l' : Prop :=
  map bare <$> ld_data l' = map bare <$> ld_data l ∧ ld_size l' = ld_size l ∧
  ld_next l' = ld_next l ∧ ld_piecesStatus l' = ld_piecesStatus l ∧
  ld_pendingJobs l' = ld_pendingJobs l.

#[export] Instance pins_only_preorder : PreOrder pins_only.
Proof.
  split; [by intros l|]. intros x y z (?&?&?&?&?) (?&?&?&?&?). repeat split; congruence.
Qed.

Lemma upper_bound_from_split offset s : ∀ pre,
  let '(a, b) := RangeSet.upper_bound_from offset pre s in
  reverse a ++ b = reverse pre ++ s ∧
  (Forall (λ r, rg_offset r ≤ offset) pre → Forall (λ r, rg_offset r ≤ offset) a) ∧
  match b with [] => True | r :: _ => offset < rg_offset r end.
Proof.
  induction s as [|r s IH]; intros pre; cbn; [done|].
  destruct (Z.ltb_spec offset (rg_offset r)); [done|].
  specialize (IH (r :: pre)). destruct (RangeSet.upper_bound_from _ _ _) as [a b].
  destruct IH as (IH1 & IH2 & IH3). split; [|split; [|done]].
  - rewrite IH1, reverse_cons. by rewrite <- app_assoc.
  - intros Hp. apply IH2. by constructor.
Qed.

Lemma upper_bound_split offset s pre post :
  RangeSet.upper_bound offset s = (pre, post) →
  s = reverse pre ++ post ∧ Forall (λ r, rg_offset r ≤ offset) pre ∧
  match post with [] => True | r :: _ => offset < rg_offset r end.
Proof.
  intros H. pose proof (upper_bound_from_split offset s []) as G.
  unfold RangeSet.upper_bound in H. rewrite H in G. destruct G as (G1 & G2 & G3).
  split; [by rewrite G1|]. auto.
Qed.

Lemma rev_append_reverse {A} (l k : list A) : rev_append l k = reverse l ++ k.
Proof. by rewrite rev_append_rev, rev_alt. Qed.

(** Pinning a range in place changes the pins only. *)
Lemma pins_only_pin index offset l s r pre post :
  ld_data l !! index = Some s → RangeSet.upper_bound offset s = (r :: pre, post) →
  pins_only l (Leaf.with_data (<[index := rev_append pre (Range.Pin r :: post)]> (ld_data l)) l).
Proof.
  intros Hs Hu. apply upper_bound_split in Hu as (-> & _).
  split; [|done]. cbn. rewrite fmap_insert.
  apply map_eq. intros k. destruct (decide (k = index)) as [->|].
  - rewrite lookup_insert_eq, lookup_fmap, Hs. cbn. f_equal.
    rewrite !rev_append_reverse, !map_app, <- app_assoc. done.
  - by rewrite lookup_insert_ne, !lookup_fmap by done.
Qed.

Lemma pins_only_none k l l' : pins_only l l' → ld_data l' !! k = None ↔ ld_data l !! k = None.
Proof.
  intros (Hd & _). pose proof (f_equal (.!! k) Hd) as E. rewrite !lookup_fmap in E.
  by destruct (ld_data l !! k), (ld_data l' !! k).
Qed.

Lemma pins_only_Unpin id l : pins_only l (Leaf.Unpin id l).
Proof.
  split; [|done]. cbn. rewrite <- map_fmap_compose. apply map_fmap_ext. intros k s _. cbn.
  rewrite map_map. apply map_ext. intros r. by case_match.
Qed.

Lemma pins_only_drop_pin pin l : pins_only l (Leaf.drop_pin pin l).
Proof.
  unfold Leaf.drop_pin. revert l. induction pin as [|id pin IH]; intros l; cbn; [done|].
  etransitivity; [apply pins_only_Unpin|apply IH].
Qed.

(** The packets of the cache. *)
Definition cached_in (m : gmap Z (list (Range P))) : list P :=
  map_to_list m ≫= λ kv, kv.2 ≫= rg_packets.
Definition cached l : list P := cached_in (ld_data l).

Lemma cached_in_insert m k s :
  cached_in (<[k := s]> m) ≡ₚ (s ≫= rg_packets) ++ cached_in (delete k m).
Proof.
  unfold cached_in. rewrite <- insert_delete_eq.
  rewrite (map_to_list_insert (delete k m)) by apply lookup_delete_eq. done.
Qed.

Lemma cached_in_delete m k s :
  m !! k = Some s → cached_in m ≡ₚ (s ≫= rg_packets) ++ cached_in (delete k m).
Proof. intros H. unfold cached_in. by rewrite <- (map_to_list_delete m k s H). Qed.

Lemma insert_packets r s :
  RangeSet.insert r s ≫= rg_packets ≡ₚ rg_packets r ++ (s ≫= rg_packets) ∨
  RangeSet.insert r s = s ∧ ∃ x, x ∈ s ∧ rg_offset x = rg_offset r.
Proof.
  induction s as [|x s IH]; cbn; [by left|].
  case_match; [|case_match].
  - destruct IH as [IH|(IH & y & Hy & Ho)]; cbn.
    + left. rewrite IH. apply Permutation_app_swap_app.
    + right. rewrite IH. split; [done|]. exists y. split; [by constructor|done].
  - by left.
  - right. split; [done|]. exists x. split; [constructor|]. lia.
Qed.

(** A new range at the offset of an old one that could not be extended: the set does not
    take it. *)
Definition rejected (offset : Z) s : Prop := ∃ x, x ∈ s ∧ rg_offset x = offset.

Lemma join_prev_packets offset size data pre prev post s' free :
  Leaf.join_prev offset size data pre prev post = Ret (Some (s', free)) →
  (s' ≫= rg_packets) ++ free ≡ₚ ((reverse (prev :: pre) ++ post) ≫= rg_packets) ++ data.
Proof.
  unfold Leaf.join_prev. intros H. rewrite reverse_cons.
  case_match; [|naive_solver]. case_match; inv_res.
  - rewrite rev_append_reverse, !bind_app, bind_cons, app_nil_r. cbn. solve_Permutation.
  - case_match; [naive_solver|]. case_match; [naive_solver|]. inv_res.
    rewrite rev_append_reverse, !bind_app, bind_cons. cbn [rg_packets Range.SetSize Range.SetPackets mbind list_bind].
    rewrite <- (take_drop (Z.to_nat (u64 (u64 (Range.endOf prev - offset) + GetPayloadLength p - 1) `div`
      GetPayloadLength p)) data) at 3.
    rewrite H3. cbn. rewrite !app_nil_r. solve_Permutation.
Qed.

Lemma join_next_packets offset size data pre next post :
  Leaf.join_next offset size data pre next post ≫= rg_packets ≡ₚ
  ((reverse pre ++ next :: post) ≫= rg_packets) ++ data.
Proof.
  unfold Leaf.join_next. destruct pre as [|prev pre]; [|case_match];
    rewrite ?rev_append_reverse, ?reverse_cons, !bind_app, !bind_cons; cbn;
    rewrite ?app_nil_r; solve_Permutation.
Qed.

Lemma add_front_packets (new : Range P) next post s' free :
  Leaf.add_front new next post = (s', free) →
  (s' ≫= rg_packets) ++ free ≡ₚ ((next :: post) ≫= rg_packets) ++ rg_packets new.
Proof.
  unfold Leaf.add_front. case_match; intros; simplify_eq; cbn; rewrite ?app_nil_r; solve_Permutation.
Qed.

Lemma insert_new_packets id offset size data s :
  (RangeSet.insert (Range.make id offset size data) s ≫= rg_packets) ++ [] ≡ₚ
    (s ≫= rg_packets) ++ data ∨
  RangeSet.insert (Range.make id offset size data) s = s ∧ rejected offset s.
Proof.
  rewrite app_nil_r. destruct (insert_packets (Range.make id offset size data) s) as [H|H]; [left|by right].
  rewrite H. cbn. solve_Permutation.
Qed.

(** No packet is lost, except those of a range that the set does not take. *)
Lemma add_range_packets id offset size data s s' free :
  Leaf.add_range id offset size data s = Ret (s', free) →
  (s' ≫= rg_packets) ++ free ≡ₚ (s ≫= rg_packets) ++ data ∨
  s' = s ∧ free = [] ∧ rejected offset s.
Proof.
  unfold Leaf.add_range. intros H.
  destruct (RangeSet.upper_bound offset s) as [pre post] eqn:E.
  apply upper_bound_split in E as (-> & _ & _).
  assert (Hj : ∀ prev pre' (o : option (list (Range P) * list P)),
    Leaf.join_prev offset size data pre' prev post = Ret o → pre = prev :: pre' →
    (s', free) = default (RangeSet.insert (Range.make id offset size data) (reverse pre ++ post), []) o →
    (s' ≫= rg_packets) ++ free ≡ₚ ((reverse pre ++ post) ≫= rg_packets) ++ data ∨
    s' = reverse pre ++ post ∧ free = [] ∧ rejected offset (reverse pre ++ post)).
  { intros prev pre' [[s0 f0]|] Ho -> Hd; cbn in Hd; simplify_eq.
    - left. by eapply join_prev_packets.
    - destruct (insert_new_packets id offset size data (reverse (prev :: pre') ++ post)) as [G|[G1 G2]];
        [by left|right; auto]. }
  destruct post as [|next post].
  - destruct pre as [|prev pre]; inv_res. by eapply Hj.
  - destruct pre as [|prev pre]; destruct (u64 (rg_offset next) =? _); inv_res; [left..|by eapply Hj].
    + rewrite app_nil_r. apply join_next_packets.
    + cbn. by apply (add_front_packets (Range.make id offset size data)).
    + rewrite app_nil_r. apply join_next_packets.
Qed.

Lemma AddData_packets offset size data l l' free :
  Leaf.AddData offset size data l = Ret (l', free) →
  cached l' ++ free ≡ₚ cached l ++ data ∨
  ld_data l' = ld_data l ∧ free = [] ∧
    ∃ s, ld_data l !! block_index offset = Some s ∧ rejected offset s.
Proof.
  unfold Leaf.AddData. intros H. destruct (ld_data l !! _) as [s|] eqn:E; inv_res.
  - destruct x as [s' f]. inv_res. unfold cached. cbn.
    destruct (add_range_packets _ _ _ _ _ _ _ H) as [G|(-> & -> & G)].
    + left. rewrite cached_in_insert, (cached_in_delete _ _ _ E).
      rewrite <- app_assoc, (Permutation_app_comm (cached_in _)), app_assoc, G. solve_Permutation.
    + right. split; [by apply insert_id|eauto].
  - left. unfold cached. cbn. rewrite cached_in_insert, delete_id by done. cbn.
    rewrite !app_nil_r. solve_Permutation.
Qed.

Lemma ExtractBlock_packets index l l' offset data :
  Leaf.ExtractBlock index l = Ret (l', offset, data) → cached l' ++ data ≡ₚ cached l.
Proof.
  unfold Leaf.ExtractBlock, cached. intros H. destruct (ld_data l !! _) as [s|] eqn:E; inv_res.
  - case_match; inv_res. cbn. rewrite (cached_in_delete _ _ _ E). cbn. solve_Permutation.
  - by rewrite app_nil_r.
Qed.

(** The least index of a block without pins, or [SIZE_MAX]. *)
Lemma GetFirstBlockIndex_spec l :
  let i := Leaf.GetFirstBlockIndex l in
  (i = SIZE_MAX ∨ ∃ s, ld_data l !! i = Some s ∧ Leaf.anyPinned s = false) ∧
  ∀ k s, ld_data l !! k = Some s → Leaf.anyPinned s = false → i ≤ k.
Proof.
  unfold Leaf.GetFirstBlockIndex.
  assert (G : ∀ kvs : list (Z * list (Range P)),
    let i := foldr (λ '(index, ranges) minIndex,
      if Leaf.anyPinned ranges then minIndex else Z.min minIndex index) SIZE_MAX kvs in
    (i = SIZE_MAX ∨ ∃ s, (i, s) ∈ kvs ∧ Leaf.anyPinned s = false) ∧
    ∀ k s, (k, s) ∈ kvs → Leaf.anyPinned s = false → i ≤ k).
  { induction kvs as [|[k s] kvs [IH1 IH2]]; cbn.
    { split; [by left|]. intros ? ? []%elem_of_nil. }
    split.
    - destruct (Leaf.anyPinned s) eqn:E.
      + destruct IH1 as [|(s' & ? & ?)]; [by left|right]. exists s'. rewrite elem_of_cons. auto.
      + destruct (Z.min_dec (foldr (λ '(index, ranges) minIndex,
          if Leaf.anyPinned ranges then minIndex else Z.min minIndex index) SIZE_MAX kvs) k) as [Hm|Hm]; rewrite Hm.
        * destruct IH1 as [|(s' & ? & ?)]; [by left|right]. exists s'. rewrite elem_of_cons. auto.
        * right. exists s. rewrite elem_of_cons. auto.
    - intros k' s' [[= -> ->]|H]%elem_of_cons Hp; [rewrite Hp; lia|].
      specialize (IH2 _ _ H Hp). case_match; lia. }
  destruct (G (map_to_list (ld_data l))) as [G1 G2]. cbn in *. split.
  - destruct G1 as [|(s & Hs & ?)]; [by left|right]. exists s. by apply elem_of_map_to_list in Hs.
  - intros k s Hs. apply G2. by apply elem_of_map_to_list.
Qed.

End Contents.

(** ** What a read gives back *)

Section Reading.
Context {P : Type} `{!IPacket P}.
Implicit Types (packets : list P).

Lemma seek_spec packets : Forall Readable packets → ∀ start, 0 ≤ start →
  match Leaf.seek start packets with
  | None => Z.of_nat (length (packets ≫= payload)) ≤ start
  | Some (st, p, rest) => 0 ≤ st < Z.of_nat (length (payload p)) ∧ Forall Readable (p :: rest) ∧
      drop (Z.to_nat start) (packets ≫= payload) =
        drop (Z.to_nat st) (payload p) ++ (rest ≫= payload)
  end.
Proof.
  induction 1 as [|p packets Hp Hr IH]; intros start Hst; [done|].
  cbn [Leaf.seek]. destruct Hp as [Hp Hl]. rewrite Hl. rewrite bind_cons.
  destruct (Z.leb_spec (Z.of_nat (length (payload p))) start).
  - specialize (IH (start - Z.of_nat (length (payload p)))). specialize (IH ltac:(lia)).
    destruct (Leaf.seek _ packets) as [[[st q] rest]|]; [|rewrite length_app; lia].
    destruct IH as (?&?&<-). split; [done|split; [done|]].
    rewrite drop_app_ge by lia. f_equal. lia.
  - split; [lia|split; [by repeat constructor|]]. by rewrite drop_app_le by lia.
Qed.

Lemma take_spans_spec packets : Forall Readable packets → ∀ readed, 0 ≤ readed →
  let '(spans, rest) := Leaf.take_spans readed packets in
  (spans ≫= BufferView.span_bytes) = take (Z.to_nat readed) (packets ≫= payload) ∧
  rest = readed - Z.of_nat (length (spans ≫= BufferView.span_bytes)).
Proof.
  induction 1 as [|p packets [Hp Hl] Hr IH]; intros readed Hst; cbn [Leaf.take_spans].
  { cbn. rewrite take_nil. cbn. split; [done|lia]. }
  destruct (Z.eqb_spec readed 0) as [->|Hne]; [by cbn|].
  set (n := Z.min (GetPayloadLength p) readed).
  specialize (IH (readed - n)). specialize (IH ltac:(lia)). destruct (Leaf.take_spans _ packets) as [spans rest].
  destruct IH as [IH1 IH2]. rewrite !bind_cons.
  assert (E : BufferView.span_bytes (mkSpan p 0 n) = take (Z.to_nat n) (payload p)) by done.
  rewrite E, length_app, length_take. split; [|lia]. rewrite IH1, take_app.
  f_equal; [|f_equal; lia].
  destruct (decide (readed ≤ GetPayloadLength p)); [f_equal; lia|rewrite !take_ge by lia; done].
Qed.

End Reading.

(** *** The bytes of a file

    [content] are the bytes of the file, [fileSize] their number; a full packet carries
    [bs] of them. *)
Section File.
Context {P J : Type} `{!IPacket P} (content : Z → Z) (fileSize bs : Z).
Context (Hbs0 : 0 < bs) (Hbs : bs < 2 ^ 16) (Hfile : fileSize < 2 ^ 62).
Implicit Types (l : LeafData P J) (r : Range P) (s pre post : list (Range P)) (data : list P).

Definition file_bytes (offset n : Z) : list Z := content <$> seqZ offset n.

Lemma length_file_bytes offset n : length (file_bytes offset n) = Z.to_nat n.
Proof. unfold file_bytes. by rewrite length_fmap, length_seqZ. Qed.

Lemma file_bytes_app offset n m :
  0 ≤ n → 0 ≤ m → file_bytes offset (n + m) = file_bytes offset n ++ file_bytes (offset + n) m.
Proof. intros. unfold file_bytes. by rewrite seqZ_app, fmap_app by lia. Qed.

Lemma take_file_bytes offset n k :
  0 ≤ k → take (Z.to_nat k) (file_bytes offset n) = file_bytes offset (Z.min k n).
Proof.
  intros. destruct (decide (k ≤ n)) as [Hk|Hk].
  - replace n with (k + (n - k)) at 1 by lia. rewrite file_bytes_app, take_app_le by (rewrite ?length_file_bytes; lia).
    rewrite take_ge by (rewrite length_file_bytes; lia). f_equal. lia.
  - rewrite take_ge by (rewrite length_file_bytes; lia). f_equal. lia.
Qed.

Lemma drop_file_bytes offset n k :
  0 ≤ k → drop (Z.to_nat k) (file_bytes offset n) = file_bytes (offset + k) (n - k).
Proof.
  intros. destruct (decide (k ≤ n)) as [Hk|Hk].
  - replace n with (k + (n - k)) at 1 by lia. rewrite file_bytes_app by lia.
    by rewrite drop_app_ge, length_file_bytes, Nat.sub_diag by (rewrite length_file_bytes; lia).
  - rewrite drop_ge by (rewrite length_file_bytes; lia).
    unfold file_bytes. by rewrite seqZ_nil by lia.
Qed.

(** Packets that carry [n] bytes: all are full but the last one. *)
Fixpoint Chunked (n : Z) packets : Prop :=
  match packets with
  | [] => n = 0
  | p :: packets => Readable p ∧ 0 < n ∧ Z.of_nat (length (payload p)) = Z.min bs n ∧
      Chunked (n - Z.min bs n) packets
  end.

Lemma Chunked_readable n packets : Chunked n packets → Forall Readable packets.
Proof. revert n. induction packets; cbn; [constructor|]. intros n (?&?&?&?). constructor; eauto. Qed.

Lemma Chunked_length n packets :
  Chunked n packets → Z.of_nat (length (packets ≫= payload)) = n ∧ 0 ≤ n.
Proof.
  revert n. induction packets as [|p packets IH]; intros n; [cbn; lia|].
  intros (?&?&?&H). apply IH in H. rewrite bind_cons, length_app. lia.
Qed.

Lemma Chunked_app n m a b :
  (bs | n) → Chunked n a → Chunked m b → Chunked (n + m) (a ++ b).
Proof.
  intros Hn Ha Hb. revert n Hn Ha. induction a as [|p a IH]; cbn; intros n Hn.
  { by intros ->. }
  intros (Hr & Hpos & Hl & Ha). apply Chunked_length in Hb as Hm.
  assert (bs ≤ n) by (by apply Z.divide_pos_le; [lia|]).
  rewrite Z.min_l in * by lia. split; [done|split; [lia|split; [lia|]]].
  replace (n + m - bs) with (n - bs + m) by lia. apply IH; [|done].
  apply Z.divide_sub_r; [done|apply Z.divide_refl].
Qed.

Lemma Chunked_drop k : ∀ n a, Chunked n a → Z.of_nat k * bs < n →
  Chunked (n - Z.of_nat k * bs) (drop k a).
Proof.
  induction k as [|k IH]; intros n a Ha Hk; [by rewrite Z.sub_0_r|].
  destruct a as [|p a]; cbn in Ha; [lia|]. destruct Ha as (_&_&_&Ha). cbn [drop].
  replace (n - Z.of_nat (S k) * bs) with (n - Z.min bs n - Z.of_nat k * bs) by lia.
  apply IH; [done|lia].
Qed.

Lemma Chunked_drop_all k : ∀ n a, Chunked n a → n ≤ Z.of_nat k * bs → drop k a = [].
Proof.
  induction k as [|k IH]; intros n [|p a] Ha Hk; cbn in *; [done| |done|].
  - destruct Ha as (_&?&_). lia.
  - destruct Ha as (_&_&_&Ha). eapply IH; [done|lia].
Qed.

Lemma Chunked_drop_bytes k : ∀ n a, Chunked n a → Z.of_nat k * bs < n →
  drop k a ≫= payload = drop (Z.to_nat (Z.of_nat k * bs)) (a ≫= payload).
Proof.
  induction k as [|k IH]; intros n a Ha Hk; [done|].
  destruct a as [|p a]; cbn in Ha; [lia|]. destruct Ha as (_&_&Hl&Ha). cbn [drop].
  rewrite (IH _ _ Ha) by lia. rewrite bind_cons, drop_app_ge by lia. f_equal. lia.
Qed.

(** [data] are the bytes of the file from [offset] on, [size] of them, cut as a sender
    cuts them. *)
Record Holds (offset size : Z) data : Prop := {
  holds_bounds : 0 ≤ offset ∧ 0 < size ∧ offset + size ≤ fileSize;
  holds_aligned : (bs | offset);
  holds_end : (bs | offset + size) ∨ offset + size = fileSize;
  holds_chunked : Chunked size data;
  holds_bytes : data ≫= payload = file_bytes offset size;
}.

Definition Agrees r : Prop := Holds (rg_offset r) (rg_size r) (rg_packets r).

Lemma Holds_app offset n m a b :
  Holds offset n a → Holds (offset + n) m b → Holds offset (n + m) (a ++ b).
Proof.
  intros [? Ha He Hc Hb] [? Ha' He' Hc' Hb']. split; [lia|done|by rewrite Z.add_assoc| |].
  - apply Chunked_app; [|done..]. by apply (Z.divide_add_cancel_r _ offset).
  - rewrite bind_app, Hb, Hb', file_bytes_app by lia. done.
Qed.

Lemma Holds_drop offset n a k :
  Holds offset n a → Z.of_nat k * bs < n →
  Holds (offset + Z.of_nat k * bs) (n - Z.of_nat k * bs) (drop k a).
Proof.
  intros [? Ha He Hc Hb] Hk. split; [lia| | | |].
  - apply Z.divide_add_r; [done|]. apply Z.divide_factor_r.
  - replace (_ + _) with (offset + n) by lia. done.
  - by apply Chunked_drop.
  - rewrite (Chunked_drop_bytes _ _ _ Hc), Hb, drop_file_bytes by lia. done.
Qed.

(** The cache agrees with the file. *)
Record Coherent l : Prop := {
  coherent_size : ld_size l = fileSize;
  coherent_status : Z.of_nat (length (ld_piecesStatus l)) = fileSize / BlockSize + 1;
  coherent_data : ∀ k s, ld_data l !! k = Some s → s ≠ [] ∧ Forall Agrees s;
}.

Lemma Agrees_bare r r' : bare r = bare r' → Agrees r → Agrees r'.
Proof. destruct r, r'. unfold bare, Agrees. cbn. by intros [= -> -> -> ->]. Qed.

Lemma Coherent_pins_only l l' : pins_only l l' → Coherent l → Coherent l'.
Proof.
  intros (Hd & Hs & _ & Hp & _) [H1 H2 H3]. split; [congruence|congruence|].
  intros k s Hk. pose proof (f_equal (.!! k) Hd) as E. rewrite !lookup_fmap, Hk in E. cbn in E.
  destruct (ld_data l !! k) as [s0|] eqn:E0; [|done]. apply (inj Some) in E.
  destruct (H3 _ _ E0) as [Hne Ha]. split; [by intros ->; destruct s0|].
  clear -E Ha. revert s0 E Ha. induction s as [|r s IH]; intros [|r0 s0] E Ha; try done.
  injection E as E. inversion Ha; subst. constructor; [|by eapply IH].
  eapply Agrees_bare; [|done]. unfold bare. by f_equal.
Qed.

Lemma Agrees_end r : Agrees r → Range.endOf r = rg_offset r + rg_size r.
Proof. intros [(?&?&?) _ _ _ _]. apply wrap_small. lia. Qed.

Lemma Agrees_nonempty r : Agrees r → rg_packets r ≠ [].
Proof. intros [(?&?&?) _ _ Hc _] E. rewrite E in Hc. cbn in Hc. lia. Qed.

(** A byte that one of the ranges holds. *)
Definition covers (x : Z) s : Prop := ∃ r, r ∈ s ∧ rg_offset r ≤ x < rg_offset r + rg_size r.

(** Ranges that lie one behind the other. *)
Definition Separated s : Prop :=
  StronglySorted (λ r r', rg_offset r + rg_size r ≤ rg_offset r') s.

(** In such a set only the range in front of [upper_bound] can hold a byte. *)
Lemma covers_upper_bound x s pre post :
  Separated s → Forall Agrees s → RangeSet.upper_bound x s = (pre, post) → covers x s →
  ∃ r pre', pre = r :: pre' ∧ rg_offset r ≤ x < rg_offset r + rg_size r.
Proof.
  intros Hs Ha Hu (r & Hr & Hx). apply upper_bound_split in Hu as (-> & Hpre & Hpost).
  apply Forall_app in Ha as [Ha1 Ha2]. apply elem_of_app in Hr as [Hr|Hr].
  - rewrite elem_of_reverse in Hr. destruct pre as [|q pre]; [by apply elem_of_nil in Hr|].
    exists q, pre. split; [done|]. apply elem_of_cons in Hr as [->|Hr]; [done|exfalso].
    unfold Separated in Hs. rewrite reverse_cons, <- app_assoc in Hs.
    apply StronglySorted_app in Hs as (Hs & _ & _).
    specialize (Hs r q (proj2 (elem_of_reverse _ _) Hr) ltac:(by left)).
    apply Forall_cons in Hpre as [? _]. lia.
  - exfalso. destruct post as [|q post]; [by apply elem_of_nil in Hr|].
    apply elem_of_cons in Hr as [->|Hr]; [lia|].
    apply StronglySorted_app in Hs as (_ & _ & Hs). apply StronglySorted_inv in Hs as [_ Hs].
    rewrite Forall_forall in Hs. specialize (Hs _ Hr). rewrite Forall_forall in Ha2.
    destruct (Ha2 q) as [? _ _ _ _]; [by constructor|]. lia.
Qed.

(** The byte [x] is not in the cache, so far as its block is in order. *)
Definition missing (x : Z) l : Prop :=
  ∀ s, ld_data l !! block_index x = Some s → Separated s → ¬ covers x s.

Lemma missing_pins_only x l l' : pins_only l l' → missing x l' → missing x l.
Proof.
  intros (Hd & _) H s Hs Hsep (r & Hr & Hx).
  pose proof (f_equal (.!! block_index x) Hd) as E. rewrite !lookup_fmap, Hs in E. cbn in E.
  destruct (ld_data l' !! block_index x) as [s'|] eqn:E'; [|done]. apply (inj Some) in E.
  apply (H s' E').
  - clear -E Hsep. revert s E Hsep. unfold Separated.
    induction s' as [|r' s' IH]; intros [|r s] E Hs; try done.
    injection E as E0 E1 E2 E3 E4. apply StronglySorted_inv in Hs as [Hs Hf].
    constructor; [by eapply IH|]. clear -E1 E2 E4 Hf. revert s E4 Hf.
    induction s' as [|x s' IH]; intros [|y s] E Hf; try done.
    injection E as ? ? ? ? ?. inversion Hf; subst. constructor; [congruence|by eapply IH].
  - apply (list_elem_of_fmap_2 bare) in Hr. change (bare <$> s) with (map bare s) in Hr.
    rewrite <- E in Hr. apply list_elem_of_fmap in Hr as (r' & Heq & Hr'). exists r'.
    split; [done|]. injection Heq as ? Ho Hz ?. by rewrite <- Ho, <- Hz.
Qed.

Lemma block_index_eq x : 0 ≤ x < 2 ^ 62 → block_index x = x / BlockSize.
Proof.
  intros. unfold block_index. rewrite Z.quot_div_nonneg by (unfold BlockSize; lia).
  apply wrap_small. split; [apply Z.div_pos; unfold BlockSize; lia|].
  apply Z.div_lt_upper_bound; unfold BlockSize; lia.
Qed.

Definition reads l (offset readed : Z) (v : BufferView P)
    (m : res (LeafData P J * BufferView P)) : Prop :=
  ∃ l' v' n, m = Ret (l', v') ∧ pins_only l l' ∧ 0 ≤ n ≤ readed ∧
    BufferView.bytes v' = BufferView.bytes v ++ file_bytes offset n ∧
    (n = readed ∨ missing (offset + n) l).

Lemma reads_nothing l l' offset readed v v' :
  pins_only l l' → 0 ≤ readed → BufferView.bytes v' = BufferView.bytes v → missing offset l →
  reads l offset readed v (Ret (l', v')).
Proof.
  intros Hp Hr Hb Hm. exists l', v', 0. split; [done|split; [done|split; [lia|]]].
  split; [by rewrite Hb, app_nil_r|right; by rewrite Z.add_0_r].
Qed.

Lemma reads_zero l offset readed v : readed = 0 → reads l offset readed v (Ret (l, v)).
Proof.
  intros ->. exists l, v, 0. split; [done|split; [done|split; [lia|]]].
  split; [by rewrite app_nil_r|by left].
Qed.

(** A range that holds byte [offset], or ends there: the spans the loop makes of it. *)
Lemma spans_of_range r offset readed st p rest :
  Agrees r → rg_offset r ≤ offset → 0 < readed →
  Leaf.seek (offset - rg_offset r) (rg_packets r) = Some (st, p, rest) →
  let firstSize := Z.min (GetPayloadLength p - st) readed in
  let '(spans, more) := Leaf.take_spans (readed - firstSize) rest in
  0 ≤ more < readed ∧ readed - more = Z.min readed (rg_offset r + rg_size r - offset) ∧
  ((mkSpan p st firstSize :: spans) ≫= BufferView.span_bytes) = file_bytes offset (readed - more).
Proof.
  intros [(Ho & Hz & _) _ _ Hc Hb] Hoff Hread Hseek firstSize.
  pose proof (seek_spec _ (Chunked_readable _ _ Hc) (offset - rg_offset r) ltac:(lia)) as G.
  rewrite Hseek in G. destruct G as (Hst & Hf & Hd).
  apply Forall_cons in Hf as [[_ Hl] Hrest].
  pose proof (take_spans_spec _ Hrest (readed - firstSize) ltac:(lia)) as T.
  destruct (Leaf.take_spans _ rest) as [spans more]. destruct T as [T1 T2].
  rewrite Hb, drop_file_bytes in Hd by lia.
  replace (rg_offset r + (offset - rg_offset r)) with offset in Hd by lia.
  assert (E : (mkSpan p st firstSize :: spans) ≫= BufferView.span_bytes =
    take (Z.to_nat readed) (drop (Z.to_nat st) (payload p) ++ (rest ≫= payload))).
  { rewrite bind_cons, T1, take_app. f_equal.
    - unfold BufferView.span_bytes, slice. cbn. destruct (decide (readed ≤ GetPayloadLength p - st)).
      + f_equal. lia.
      + rewrite !take_ge by (rewrite length_drop; lia). done.
    - f_equal. rewrite length_drop. lia. }
  rewrite <- Hd, take_file_bytes in E by lia.
  pose proof (f_equal length E) as El. rewrite length_file_bytes, bind_cons, length_app in El.
  assert (length (BufferView.span_bytes (mkSpan p st firstSize)) = Z.to_nat firstSize).
  { unfold BufferView.span_bytes. apply length_slice. cbn. lia. }
  split; [lia|]. split; [lia|]. rewrite E. f_equal. lia.
Qed.

Lemma GetData_loop_reads fuel : ∀ offset readed l v,
  Coherent l → 0 ≤ offset → 0 ≤ readed → offset + readed ≤ fileSize → readed ≤ Z.of_nat fuel →
  reads l offset readed v (Leaf.GetData_loop fuel offset readed l v).
Proof.
  induction fuel as [|fuel IH]; intros offset readed l v Hc Ho Hr Hf Hfuel; cbn [Leaf.GetData_loop].
  { rewrite (proj2 (Z.leb_le readed 0)) by lia. by apply reads_zero; lia. }
  destruct (Z.leb_spec readed 0) as [|Hpos]; [apply reads_zero; lia|].
  destruct (ld_data l !! block_index offset) as [s|] eqn:Es; [|apply reads_nothing; try done; congruence].
  pose proof (coherent_data _ Hc _ _ Es) as [_ Ha].
  destruct (RangeSet.upper_bound offset s) as [[|r pre] post] eqn:Eu.
  { apply reads_nothing; try done. intros s' Hs' Hsep Hcov. rewrite Es in Hs'. simplify_eq.
    by destruct (covers_upper_bound _ _ _ _ Hsep Ha Eu Hcov) as (? & ? & ? & ?). }
  pose proof (upper_bound_split _ _ _ _ Eu) as (E & Hpre & _). apply Forall_cons in Hpre as [Hro _].
  assert (Hra : Agrees r).
  { rewrite Forall_forall in Ha. apply Ha. rewrite E, elem_of_app, elem_of_reverse, elem_of_cons. auto. }
  assert (Hmiss : rg_offset r + rg_size r ≤ offset → missing offset l).
  { intros Hend s' Hs' Hsep Hcov. rewrite Es in Hs'. simplify_eq.
    destruct (covers_upper_bound _ _ _ _ Hsep Ha Eu Hcov) as (? & ? & ? & ?). simplify_eq. lia. }
  rewrite (proj2 (Z.leb_le _ _) Hro), Agrees_end, wrap_small by (done || lia). cbn [andb].
  destruct (Z.leb_spec offset (rg_offset r + rg_size r)); [|apply reads_nothing; [done|lia|done|apply Hmiss; lia]].
  pose proof (pins_only_pin _ _ _ _ _ _ _ Es Eu) as Hp. set (l1 := Leaf.with_data _ l) in *.
  pose proof (Agrees_nonempty _ Hra) as Hne.
  destruct (rg_packets r) as [|p0 ps] eqn:Eps; [done|]. rewrite <- Eps in *.
  destruct (Leaf.seek _ _) as [[[st p] rest]|] eqn:Esk.
  2: { apply reads_nothing; try done. apply Hmiss. destruct Hra as [? _ _ Hch _].
       pose proof (seek_spec _ (Chunked_readable _ _ Hch) (offset - rg_offset r) ltac:(lia)) as G.
       rewrite Esk in G. apply Chunked_length in Hch. lia. }
  pose proof (spans_of_range _ _ _ _ _ _ Hra Hro Hpos Esk) as G. cbv zeta in G.
  destruct (Leaf.take_spans _ rest) as [spans more]. destruct G as (Hleft & _ & Hbytes).
  edestruct (IH (offset + (readed - more)) more l1) as (l' & v' & n & Er & Hp' & Hn & Hb' & Hm);
    [by eapply Coherent_pins_only|lia..|].
  exists l', v', (readed - more + n). split; [exact Er|]. split; [by etransitivity|]. split; [lia|]. split.
  - rewrite Hb', file_bytes_app, app_assoc by lia. f_equal.
    unfold BufferView.bytes. cbn [bv_spans]. by rewrite bind_app, Hbytes.
  - destruct Hm as [->|Hm]; [left; lia|right]. rewrite Z.add_assoc. by eapply missing_pins_only.
Qed.

(** *** Spans

    A span of a view shows bytes, as many as it says. *)
Definition span_ok (sp : Span P) : Prop :=
  0 < sp_size sp ∧ Z.of_nat (length (BufferView.span_bytes sp)) = sp_size sp.

Lemma Chunked_full n packets :
  Chunked n packets → Forall (λ p, Readable p ∧ 0 < GetPayloadLength p) packets.
Proof.
  revert n. induction packets as [|p packets IH]; intros n; [by constructor|].
  intros (Hr & Hn & Hl & H). constructor; [|by eapply IH]. destruct Hr as [? Hlen]. split; [done|lia].
Qed.

Lemma span_ok_at p start n :
  Readable p → 0 ≤ start → 0 < n → start + n ≤ GetPayloadLength p → span_ok (mkSpan p start n).
Proof.
  intros [_ Hl] ? ? ?. split; [done|]. unfold BufferView.span_bytes. cbn.
  rewrite length_slice; lia.
Qed.

Lemma take_spans_ok packets : Forall (λ p, Readable p ∧ 0 < GetPayloadLength p) packets →
  ∀ readed, 0 ≤ readed → Forall span_ok (Leaf.take_spans readed packets).1.
Proof.
  induction 1 as [|p packets [Hp Hl] _ IH]; intros readed Hr; cbn [Leaf.take_spans]; [constructor|].
  destruct (Z.eqb_spec readed 0); [constructor|].
  specialize (IH (readed - Z.min (GetPayloadLength p) readed)). specialize (IH ltac:(lia)).
  destruct (Leaf.take_spans _ packets). constructor; [|done]. apply span_ok_at; [done|lia..].
Qed.

Lemma seek_ok packets : Forall (λ p, Readable p ∧ 0 < GetPayloadLength p) packets →
  ∀ start, 0 ≤ start → match Leaf.seek start packets with
  | None => True
  | Some (st, p, rest) => 0 ≤ st < GetPayloadLength p ∧ Readable p ∧
      Forall (λ p, Readable p ∧ 0 < GetPayloadLength p) rest
  end.
Proof.
  induction 1 as [|p packets [Hp Hl] Hf IH]; intros start Hs; cbn [Leaf.seek]; [done|].
  destruct (Z.leb_spec (GetPayloadLength p) start); [|done]. apply IH. lia.
Qed.

Lemma GetData_loop_spans fuel : ∀ offset readed l w l' v,
  Coherent l → 0 ≤ offset → Forall span_ok (bv_spans w) →
  Leaf.GetData_loop fuel offset readed l w = Ret (l', v) → Forall span_ok (bv_spans v).
Proof.
  induction fuel as [|fuel IH]; intros offset readed l w l' v Hc Ho Hw; cbn [Leaf.GetData_loop].
  { case_match; [|done]. intros. by simplify_eq. }
  destruct (Z.leb_spec readed 0); [intros; by simplify_eq|].
  destruct (ld_data l !! block_index offset) as [s|] eqn:Es; [|intros; by simplify_eq].
  destruct (RangeSet.upper_bound offset s) as [[|r pre] post] eqn:Eu; [intros; by simplify_eq|].
  destruct (_ && _) eqn:Eb; [|intros; by simplify_eq]. apply andb_true_iff in Eb as [Hro _].
  apply Z.leb_le in Hro.
  pose proof (pins_only_pin _ _ _ _ _ _ _ Es Eu) as Hp. set (l1 := Leaf.with_data _ l) in *.
  assert (Hra : Agrees r).
  { pose proof (coherent_data _ Hc _ _ Es) as [_ Ha]. rewrite Forall_forall in Ha. apply Ha.
    apply upper_bound_split in Eu as (-> & _). rewrite elem_of_app, elem_of_reverse, elem_of_cons. auto. }
  destruct (rg_packets r) as [|p0 ps] eqn:Eps; [done|]. rewrite <- Eps in *.
  pose proof (seek_ok _ (Chunked_full _ _ (holds_chunked _ _ _ Hra)) (offset - rg_offset r) ltac:(lia)) as Hseek.
  destruct (Leaf.seek _ _) as [[[st p] rest]|]; [|intros; by simplify_eq].
  destruct Hseek as (Hst & Hrp & Hrest).
  pose proof (take_spans_ok _ Hrest (readed - Z.min (GetPayloadLength p - st) readed) ltac:(lia)) as Hspans.
  destruct (Leaf.take_spans _ rest) as [spans more] eqn:Et. intros H2.
  refine (IH _ _ _ _ _ _ _ _ _ H2).
  - by eapply Coherent_pins_only.
  - pose proof (take_spans_spec rest) as T. specialize (T ltac:(eapply Forall_impl; [exact Hrest|by intros ? []])).
    specialize (T (readed - Z.min (GetPayloadLength p - st) readed)). specialize (T ltac:(lia)).
    rewrite Et in T. destruct T. lia.
  - cbn [bv_spans]. apply Forall_app. split; [done|]. constructor; [|done]. apply span_ok_at; [done|lia..].
Qed.

Lemma GetData_spans offset size l l' v :
  Coherent l → 0 ≤ offset → Leaf.GetData offset size l = Ret (l', v) → Forall span_ok (bv_spans v).
Proof.
  intros Hc Ho. unfold Leaf.GetData. case_match; [intros; simplify_eq; constructor|].
  apply GetData_loop_spans; [done..|constructor].
Qed.

(** The size of a view is the number of its bytes. *)
Lemma spans_total (spans : list (Span P)) : Forall span_ok spans → ∀ n, 0 ≤ n →
  n + Z.of_nat (length (spans ≫= BufferView.span_bytes)) < 2 ^ 64 →
  foldl (λ total sp, u64 (total + sp_size sp)) n spans = n + Z.of_nat (length (spans ≫= BufferView.span_bytes)).
Proof.
  induction 1 as [|sp spans [Hpos Hsp] _ IH]; intros n Hn Hlt; [cbn; lia|].
  rewrite bind_cons, length_app in *. cbn [foldl]. rewrite IH; rewrite ?wrap_small; lia.
Qed.

Lemma TotalSize_bytes (v : BufferView P) :
  Forall span_ok (bv_spans v) → Z.of_nat (length (BufferView.bytes v)) < 2 ^ 64 →
  BufferView.TotalSize v = Z.of_nat (length (BufferView.bytes v)) ∧
  BufferView.HasData v = (0 <? Z.of_nat (length (BufferView.bytes v))).
Proof.
  intros Hs Hlt. unfold BufferView.TotalSize, BufferView.bytes in *. rewrite spans_total by (done || lia).
  split; [done|]. unfold BufferView.HasData. destruct Hs as [|sp spans [? ?] _]; [done|].
  symmetry. apply Z.ltb_lt. rewrite bind_cons, length_app. lia.
Qed.

(** *** Arrivals *)

(** The data do not end inside of a range that they begin in. *)
Definition Extends (offset size : Z) s : Prop :=
  ∀ r, r ∈ s → rg_offset r ≤ offset < rg_offset r + rg_size r →
    rg_offset r + rg_size r ≤ offset + size.

Lemma Chunked_front n p q packets :
  Chunked n (p :: q :: packets) → GetPayloadLength p = bs.
Proof. cbn. intros ([_ ->] & ? & -> & _ & ? & _). lia. Qed.

(** The packets that [AddData] skips, and those it keeps. *)
Lemma Holds_skip offset size data skip :
  Holds offset size data → 0 < skip ≤ size →
  skip = size ∨ (bs | offset + skip) →
  let kept := drop (Z.to_nat (u64 (skip + bs - 1) / bs)) data in
  skip = size ∧ kept = [] ∨ skip < size ∧ Holds (offset + skip) (size - skip) kept.
Proof.
  intros Hh Hs Hd kept. pose proof Hh as [? Ha _ Hc _]. subst kept.
  rewrite wrap_small by lia. destruct (decide (skip = size)) as [->|Hne]; [left|right].
  - split; [done|]. eapply Chunked_drop_all; [done|].
    pose proof (Z.div_mod (size + bs - 1) bs ltac:(lia)).
    pose proof (Z.mod_pos_bound (size + bs - 1) bs ltac:(lia)).
    rewrite Z2Nat.id by (apply Z.div_pos; lia). lia.
  - destruct Hd as [|Hd]; [done|]. split; [lia|].
    apply (Z.divide_add_cancel_r _ offset) in Hd as [k ->]; [|done].
    replace (k * bs + bs - 1) with (bs - 1 + k * bs) by lia.
    rewrite Z.div_add, Z.div_small, Z.add_0_l by lia.
    assert (0 <= k) by nia. replace (k * bs) with (Z.of_nat (Z.to_nat k) * bs) at 1 2 by lia.
    apply Holds_drop; [done|lia].
Qed.

Lemma Holds_nonempty offset size data :
  Holds offset size data → 0 ≤ offset < 2 ^ 62 ∧ 0 < size < 2 ^ 62 ∧ offset + size < 2 ^ 62.
Proof. intros [(?&?&?) _ _ _ _]. lia. Qed.

Lemma join_prev_agrees offset size data pre prev post :
  Holds offset size data → Forall Agrees (prev :: pre) → Forall Agrees post →
  rg_offset prev ≤ offset →
  (offset < rg_offset prev + rg_size prev → rg_offset prev + rg_size prev ≤ offset + size) →
  ∃ o, Leaf.join_prev offset size data pre prev post = Ret o ∧
    ∀ s' free, o = Some (s', free) → s' ≠ [] ∧ Forall Agrees s'.
Proof.
  intros Hh [Hp Hpre]%Forall_cons Hpost Ho Hext. pose proof (Holds_nonempty _ _ _ Hh) as Hb.
  pose proof (Holds_nonempty _ _ _ Hp) as Hb'.
  assert (Hok : ∀ prev', Agrees prev' →
    rev_append pre (prev' :: post) ≠ [] ∧ Forall Agrees (rev_append pre (prev' :: post))).
  { intros prev' ?. rewrite rev_append_reverse. split; [by destruct (reverse pre)|].
    apply Forall_app. split; [by apply Forall_reverse|by constructor]. }
  unfold Leaf.join_prev. rewrite Agrees_end, (wrap_small 64 offset), (proj2 (Z.leb_le _ _) Ho) by (done || lia).
  cbn [andb]. destruct (Z.leb_spec offset (rg_offset prev + rg_size prev)); [|by exists None].
  destruct (Z.eqb_spec (rg_offset prev + rg_size prev) offset) as [He|He].
  - eexists. split; [done|]. intros s' f [= <- <-]. apply Hok. unfold Agrees. cbn.
    rewrite wrap_small by lia. apply Holds_app; [done|by rewrite He].
  - rewrite (proj2 (Z.ltb_lt _ _)) by lia. cbn [assert_that mbind res_bind].
    destruct (rg_packets prev) as [|p0 [|p1 ps]] eqn:Eps; [by exists None..|].
    rewrite (Chunked_front (rg_size prev) p0 p1 ps)
      by (rewrite <- Eps; by apply holds_chunked with (1 := Hp)).
    rewrite (proj2 (Z.eqb_neq bs 0)) by lia. cbn [negb defined_if mbind res_bind].
    eexists. split; [done|]. rewrite <- Eps. intros s' f [= <- <-]. apply Hok.
    unfold Agrees. cbn. rewrite (wrap_small 64 (_ - offset)) by lia.
    destruct (Holds_skip _ _ _ (rg_offset prev + rg_size prev - offset) Hh) as [(Hsz & ->)|(Hlt & Hk)].
    + lia.
    + destruct (decide (rg_offset prev + rg_size prev - offset = size)); [by left|right].
      replace (offset + _) with (rg_offset prev + rg_size prev) by lia.
      destruct (holds_end _ _ _ Hp) as [|Hend]; [done|].
      pose proof (holds_bounds _ _ _ Hh). lia.
    + rewrite app_nil_r, wrap_small by lia. by replace (_ - _) with (rg_size prev) by lia.
    + rewrite wrap_small by lia.
      replace (_ - _) with (rg_size prev + (size - (rg_offset prev + rg_size prev - offset))) by lia.
      apply Holds_app; [done|]. by replace (offset + _) with (rg_offset prev + rg_size prev) in Hk by lia.
Qed.

Lemma join_next_agrees offset size data pre next post :
  Holds offset size data → Forall Agrees (pre ++ next :: post) → rg_offset next = offset + size →
  let s' := Leaf.join_next offset size data pre next post in s' ≠ [] ∧ Forall Agrees s'.
Proof.
  intros Hh [Hpre [Hn Hpost]%Forall_cons]%Forall_app Ho.
  pose proof (Holds_nonempty _ _ _ Hh). pose proof (Holds_nonempty _ _ _ Hn).
  assert (Hok : ∀ pre' x, Forall Agrees pre' → Agrees x →
    rev_append pre' (x :: post) ≠ [] ∧ Forall Agrees (rev_append pre' (x :: post))).
  { intros pre' x ? ?. rewrite rev_append_reverse. split; [by destruct (reverse pre')|].
    apply Forall_app. split; [by apply Forall_reverse|by constructor]. }
  assert (Hj : Holds offset (size + rg_size next) (data ++ rg_packets next)).
  { apply Holds_app; [done|]. by rewrite <- Ho. }
  assert (Hfront : Agrees (Range.SetOffset offset (Range.SetSize (u64 (rg_size next + size))
    (Range.SetPackets (data ++ rg_packets next) next)))).
  { unfold Agrees. cbn. rewrite wrap_small by lia. by rewrite Z.add_comm. }
  pose proof (Holds_nonempty _ _ _ Hj). unfold Leaf.join_next.
  destruct pre as [|prev pre]; [by apply Hok|].
  pose proof Hpre as [Hp Hpre']%Forall_cons. pose proof (Holds_nonempty _ _ _ Hp).
  rewrite Agrees_end, wrap_small by (done || lia).
  destruct (Z.eqb_spec (rg_offset prev + rg_size prev) offset) as [He|]; [|by apply Hok].
  apply Hok; [done|]. unfold Agrees. cbn.
  assert (Hall : Holds (rg_offset prev) (rg_size prev + (size + rg_size next))
    (rg_packets prev ++ data ++ rg_packets next)) by (apply Holds_app; [done|by rewrite He]).
  pose proof (Holds_nonempty _ _ _ Hall). rewrite wrap_small by lia. by rewrite <- Z.add_assoc.
Qed.

Lemma insert_agrees r s : Agrees r → Forall Agrees s →
  RangeSet.insert r s ≠ [] ∧ Forall Agrees (RangeSet.insert r s).
Proof.
  intros Hr. induction 1 as [|x s Hx Hs [IH1 IH2]]; cbn; [by auto 10 using Forall_cons_2, Forall_nil_2|].
  repeat case_match; (split; [done|]); by auto 10 using Forall_cons_2, Forall_nil_2.
Qed.

Lemma add_range_agrees id offset size data s :
  Holds offset size data → Forall Agrees s → s ≠ [] → Extends offset size s →
  ∃ s' free, Leaf.add_range id offset size data s = Ret (s', free) ∧ s' ≠ [] ∧ Forall Agrees s'.
Proof.
  intros Hh Hs Hne Hext. pose proof (Holds_nonempty _ _ _ Hh).
  unfold Leaf.add_range. destruct (RangeSet.upper_bound offset s) as [pre post] eqn:E.
  apply upper_bound_split in E as (E & Hpre & _).
  assert (Hins := insert_agrees (Range.make id offset size data) s Hh Hs).
  assert (Hj : ∀ prev pre', pre = prev :: pre' → ∃ s' free,
    (joined ← Leaf.join_prev offset size data pre' prev post;
     Ret (default (RangeSet.insert (Range.make id offset size data) s, []) joined)) = Ret (s', free) ∧
    s' ≠ [] ∧ Forall Agrees s').
  { intros prev pre' ->. apply Forall_cons in Hpre as [Hprev _].
    subst s. apply Forall_app in Hs as [Hs1 Hs2]. apply Forall_reverse in Hs1. rewrite reverse_involutive in Hs1.
    destruct (join_prev_agrees offset size data pre' prev post) as (o & -> & Ho); try done.
    - intros Hlt. apply Hext; [|lia]. rewrite elem_of_app, elem_of_reverse, elem_of_cons. auto.
    - cbn. destruct o as [[s0 f0]|]; cbn; [|eauto]. do 2 eexists. split; [done|]. by eapply Ho. }
  destruct post as [|next post].
  { destruct pre as [|prev pre']; [by subst s|by apply Hj]. }
  subst s. apply Forall_app in Hs as [Hs1 Hs2]. apply Forall_reverse in Hs1. rewrite reverse_involutive in Hs1.
  pose proof Hs2 as [Hn Hpost]%Forall_cons. pose proof (Holds_nonempty _ _ _ Hn).
  rewrite !wrap_small by lia. destruct (Z.eqb_spec (rg_offset next) (offset + size)) as [He|He].
  - do 2 eexists. split; [by destruct pre|]. apply join_next_agrees; [done|by apply Forall_app|done].
  - destruct pre as [|prev pre']; [|by apply Hj]. unfold Leaf.add_front.
    case_match; do 2 eexists; (split; [done|]); split; try done; by auto 10 using Forall_cons_2, Forall_nil_2.
Qed.

Lemma status_in_range offset l :
  Coherent l → 0 ≤ offset < fileSize →
  0 ≤ block_index offset < Z.of_nat (length (ld_piecesStatus l)).
Proof.
  intros Hc Ho. rewrite block_index_eq, (coherent_status _ Hc) by lia.
  split; [apply Z.div_pos; unfold BlockSize; lia|].
  assert (offset / BlockSize ≤ fileSize / BlockSize); [|lia].
  apply Z.div_le_mono; unfold BlockSize; lia.
Qed.

Lemma AddData_coherent offset size data l :
  Coherent l → Holds offset size data →
  (∀ s, ld_data l !! block_index offset = Some s → Extends offset size s) →
  ∃ l' free, Leaf.AddData offset size data l = Ret (l', free) ∧ Coherent l'.
Proof.
  intros Hc Hh Hext. unfold Leaf.AddData.
  destruct (ld_data l !! block_index offset) as [s|] eqn:Es.
  - destruct (coherent_data _ Hc _ _ Es) as [Hne Hs].
    destruct (add_range_agrees (ld_next l) offset size data s) as (s' & free & -> & Hne' & Hs'); auto.
    do 2 eexists. split; [done|]. destruct Hc as [H1 H2 H3]. split; [done..|].
    cbn. intros k t [[<- <-]|[_ Ht]]%lookup_insert_Some; [done|by eapply H3].
  - pose proof (status_in_range offset l Hc) as Hi. destruct (holds_bounds _ _ _ Hh) as (?&?&?).
    cbn [ld_piecesStatus Leaf.with_data]. unfold PiecesStatus.SetStatus.
    rewrite bool_decide_true by (apply Hi; lia). do 2 eexists. split; [done|].
    destruct Hc as [Hc1 Hc2 Hc3]. split; [done|cbn; by rewrite length_insert|].
    cbn. intros k t [[<- <-]|[_ Ht]]%lookup_insert_Some; [|by eapply Hc3]. by auto 10 using Forall_cons_2, Forall_nil_2.
Qed.

(** *** Histories *)

(** What happens to the data of a leaf, when only data of certain offsets and sizes
    arrive. *)
Inductive cache_step (arrives : Z → Z → Prop) : relation (LeafData P J) :=
  | step_arrive l l' offset size data free :
      arrives offset size → Holds offset size data →
      (∀ s, ld_data l !! block_index offset = Some s → Extends offset size s) →
      Leaf.AddData offset size data l = Ret (l', free) → cache_step arrives l l'
  | step_read l l' offset size v :
      Leaf.GetData offset size l = Ret (l', v) → 0 ≤ offset → 0 ≤ size → cache_step arrives l l'
  | step_unpin l pin : cache_step arrives l (Leaf.drop_pin pin l)
  | step_extract l l' index offset data :
      Leaf.ExtractBlock index l = Ret (l', offset, data) → cache_step arrives l l'
  | step_status l index status v :
      PiecesStatus.SetStatus index status (ld_piecesStatus l) = Ret v →
      cache_step arrives l (Leaf.with_status v l)
  | step_request l l' index b : Leaf.SetInFlight index l = Ret (l', b) → cache_step arrives l l'
  | step_pending l index job : cache_step arrives l (Leaf.AddPendingJob index job l)
  | step_take l index : cache_step arrives l (Leaf.TakePendingJobs index l).1
  | step_cancel l : cache_step arrives l (Leaf.CancelPendingJobs l).1
  | step_invalidate l : cache_step arrives l (Leaf.InvalidateDataCache l).

Lemma GetData_reads offset size l :
  Coherent l → 0 ≤ offset → 0 ≤ size →
  ∃ l' v n, Leaf.GetData offset size l = Ret (l', v) ∧ pins_only l l' ∧
    0 ≤ n ≤ Z.max 0 (Z.min size (fileSize - offset)) ∧
    BufferView.bytes v = file_bytes offset n ∧
    (n = Z.max 0 (Z.min size (fileSize - offset)) ∨ missing (offset + n) l).
Proof.
  intros Hc Ho Hs. unfold Leaf.GetData. rewrite (coherent_size _ Hc).
  destruct (Z.leb_spec fileSize offset).
  { exists l, (mkBufferView [] []), 0. split; [done|split; [done|split; [lia|]]]. split; [done|left; lia]. }
  rewrite wrap_small by lia. cbv zeta. rewrite Z.max_r by lia. eapply GetData_loop_reads; [done|lia..].
Qed.

Lemma Coherent_make : 0 ≤ fileSize → Coherent (Leaf.make fileSize).
Proof.
  intros. split; [done| |by intros k s Hk; cbn in Hk; rewrite lookup_empty in Hk].
  cbn. unfold PiecesStatus.make. rewrite length_replicate.
  rewrite Z2Nat.id; [done|]. pose proof (Z.div_pos fileSize BlockSize). unfold BlockSize in *. lia.
Qed.

Lemma SetStatus_length index status v v' :
  PiecesStatus.SetStatus index status v = Ret v' → length v' = length v.
Proof. unfold PiecesStatus.SetStatus. intros. inv_res. by rewrite length_insert. Qed.

Lemma Coherent_with_status v l :
  length v = length (ld_piecesStatus l) → Coherent l → Coherent (Leaf.with_status v l).
Proof. intros Hv [H1 H2 H3]. split; [done|cbn; congruence|done]. Qed.

Lemma Coherent_delete index v l :
  length v = length (ld_piecesStatus l) → Coherent l →
  Coherent (Leaf.with_data (delete index (ld_data l)) (Leaf.with_status v l)).
Proof.
  intros Hv [H1 H2 H3]. split; [done|cbn; congruence|]. cbn.
  intros k s [_ Hk]%lookup_delete_Some. by eapply H3.
Qed.

Lemma cache_step_coherent arrives l l' : Coherent l → cache_step arrives l l' → Coherent l'.
Proof.
  intros Hc H. destruct H.
  - destruct (AddData_coherent _ _ _ _ Hc H0 H1) as (l2 & f2 & E & ?). congruence.
  - destruct (GetData_reads _ size _ Hc H0 H1) as (l2 & v2 & n & E & Hp & _).
    rewrite H in E. simplify_eq. by eapply Coherent_pins_only.
  - by eapply Coherent_pins_only, Hc; apply pins_only_drop_pin.
  - unfold Leaf.ExtractBlock in H. case_match; inv_res; [|done]. case_match; inv_res.
    apply Coherent_delete; [by eapply SetStatus_length|done].
  - apply Coherent_with_status; [by eapply SetStatus_length|done].
  - unfold Leaf.SetInFlight in H. inv_res. case_match; inv_res; [|done].
    apply Coherent_with_status; [by eapply SetStatus_length|done].
  - by destruct Hc.
  - unfold Leaf.TakePendingJobs. by case_match; [destruct Hc|].
  - by destruct Hc.
  - destruct Hc as [H1 H2 H3]. split; [done|cbn|by intros k s Hk; cbn in Hk; rewrite lookup_empty in Hk].
    unfold PiecesStatus.make. rewrite length_replicate, H1, Z2Nat.id; [done|].
    pose proof (Z.div_pos fileSize BlockSize). unfold BlockSize in *. lia.
Qed.

(** *** Whole blocks

    [FuseReadFileJob] asks for whole blocks, so the data that arrive are whole blocks. *)

Definition block_bytes (k : Z) : Z := Z.min BlockSize (fileSize - k * BlockSize).

(** Every cached block is one range, with all bytes of the block. *)
Definition Whole l : Prop :=
  ∀ k s, ld_data l !! k = Some s → ∃ r, s = [r] ∧ Agrees r ∧
    rg_offset r = k * BlockSize ∧ rg_size r = block_bytes k.

Lemma Whole_pins_only l l' : pins_only l l' → Whole l → Whole l'.
Proof.
  intros (Hd & _) H k s Hk. pose proof (f_equal (.!! k) Hd) as E. rewrite !lookup_fmap, Hk in E. cbn in E.
  destruct (ld_data l !! k) as [s0|] eqn:E0; [|done]. apply (inj Some) in E.
  destruct (H _ _ E0) as (r0 & -> & Ha & Ho & Hz). destruct s as [|r [|]]; try done.
  injection E as Ei Eo Ez Ep. exists r. split; [done|]. rewrite Eo, Ez. split; [|done].
  unfold Agrees. by rewrite Eo, Ez, Ep.
Qed.

(** A block that is cached already: its packets come back, or, if there is only one,
    are destroyed with the range that the set does not take. *)
Lemma AddData_again k r data l :
  ld_data l !! k = Some [r] → Agrees r → rg_offset r = k * BlockSize →
  rg_size r = block_bytes k → Holds (rg_offset r) (rg_size r) data → 0 ≤ k →
  Leaf.AddData (k * BlockSize) (block_bytes k) data l =
  Ret (Leaf.with_next (S (ld_next l)) l,
       match rg_packets r with _ :: _ :: _ => data | _ => [] end).
Proof.
  intros Hk Ha Ho Hz Hh Hk0. pose proof (Holds_nonempty _ _ _ Ha).
  unfold Leaf.AddData. rewrite block_index_eq, Z.div_mul by (unfold BlockSize in *; lia).
  rewrite Hk. unfold Leaf.add_range, RangeSet.upper_bound. cbn [RangeSet.upper_bound_from].
  rewrite Ho, Z.ltb_irrefl. unfold Leaf.join_prev. rewrite Agrees_end, Ho, Z.leb_refl by done.
  rewrite wrap_small by lia. rewrite (proj2 (Z.leb_le _ _)), (proj2 (Z.eqb_neq _ _)) by lia.
  cbn [andb]. rewrite (proj2 (Z.ltb_lt _ _)) by lia. cbn [assert_that mbind res_bind].
  assert (Hw : ∀ l0 : LeafData P J, Leaf.with_data (<[k:=[r]]> (ld_data l)) l = l).
  { intros _. destruct l. unfold Leaf.with_data. cbn in *. by rewrite insert_id. }
  destruct (rg_packets r) as [|p0 [|p1 ps]] eqn:Eps; cbn [mbind res_bind default].
  1,2: cbn [RangeSet.insert Range.make rg_offset]; rewrite Ho, !Z.ltb_irrefl; by rewrite (Hw l).
  rewrite (Chunked_front (rg_size r) p0 p1 ps)
    by (rewrite <- Eps; by apply holds_chunked with (1 := Ha)).
  rewrite (proj2 (Z.eqb_neq bs 0)) by lia. cbn [negb defined_if mbind res_bind default].
  replace (k * BlockSize + rg_size r - k * BlockSize) with (rg_size r) by lia.
  rewrite (wrap_small 64 (rg_size r)) by lia.
  destruct (Holds_skip _ _ _ (rg_size r) Hh) as [(_ & Hd)|(?&_)]; [lia|by left| |lia].
  rewrite Hd, app_nil_r. cbn [rev_append]. rewrite <- Eps, <- Hz, wrap_small by lia.
  pose proof (take_drop (Z.to_nat (u64 (rg_size r + bs - 1) / bs)) data) as Ht.
  rewrite Hd, app_nil_r in Ht. rewrite Ht.
  replace (Range.SetSize _ _) with r; [by cbn; rewrite (Hw l)|].
  destruct r. unfold Range.SetSize, Range.SetPackets. cbn in *. f_equal. lia.
Qed.

(** A read of whole blocks ends at a block that is not there. *)
Lemma GetData_loop_whole fuel : ∀ offset readed l v l' v',
  Coherent l → Whole l → 0 ≤ offset → 0 ≤ readed → offset + readed ≤ fileSize →
  Leaf.GetData_loop fuel offset readed l v = Ret (l', v') →
  ∃ n, BufferView.bytes v' = BufferView.bytes v ++ file_bytes offset n ∧ 0 ≤ n ≤ readed ∧
    (n < readed → ld_data l !! ((offset + n) / BlockSize) = None ∧ (0 < n → (BlockSize | offset + n))).
Proof.
  induction fuel as [|fuel IH]; intros offset readed l v l' v' Hc Hw Ho Hr Hf; cbn [Leaf.GetData_loop].
  { case_match eqn:E; [|done]. apply Z.leb_le in E. intros [= <- <-]. exists 0. rewrite app_nil_r.
    split; [done|]. split; [lia|lia]. }
  destruct (Z.leb_spec readed 0) as [|Hpos].
  { intros [= <- <-]. exists 0. rewrite app_nil_r. split; [done|]. split; lia. }
  rewrite block_index_eq by lia. destruct (ld_data l !! (offset / BlockSize)) as [s|] eqn:Es.
  2: { intros [= <- <-]. exists 0. rewrite app_nil_r, Z.add_0_r. split; [done|]. split; [lia|]. split; [done|lia]. }
  destruct (Hw _ _ Es) as (r & -> & Hra & Hro & Hrs). unfold block_bytes in Hrs.
  pose proof (Z.mul_div_le offset BlockSize ltac:(done)). pose proof (Z.mul_succ_div_gt offset BlockSize ltac:(done)).
  assert (Hu : RangeSet.upper_bound offset [r] = ([r], [])).
  { unfold RangeSet.upper_bound. cbn. by rewrite (proj2 (Z.ltb_ge _ _)) by lia. }
  rewrite Hu. rewrite Agrees_end, wrap_small by (done || lia).
  rewrite (proj2 (Z.leb_le _ _)), (proj2 (Z.leb_le offset _)) by lia. cbn [andb].
  pose proof (pins_only_pin _ _ _ _ _ _ _ Es Hu) as Hp. set (l1 := Leaf.with_data _ l) in *.
  destruct (rg_packets r) as [|p0 ps] eqn:Eps; [done|]. rewrite <- Eps in *.
  destruct (Leaf.seek _ _) as [[[st p] rest]|] eqn:Esk.
  2: { pose proof (seek_spec _ (Chunked_readable _ _ (holds_chunked _ _ _ Hra)) (offset - rg_offset r) ltac:(lia)) as G.
       rewrite Esk in G. pose proof (Chunked_length _ _ (holds_chunked _ _ _ Hra)). lia. }
  assert (Hle : rg_offset r ≤ offset) by lia.
  pose proof (spans_of_range _ _ _ _ _ _ Hra Hle Hpos Esk) as G. cbv zeta in G.
  destruct (Leaf.take_spans _ rest) as [spans more]. destruct G as (Hleft & Hmore & Hbytes). intros Er.
  edestruct (IH (offset + (readed - more)) more l1) as (n & Hb & Hn & Hm);
    [by eapply Coherent_pins_only|by eapply Whole_pins_only|lia..|exact Er|].
  exists (readed - more + n). rewrite Hb. split; [|split; [lia|]].
  - rewrite file_bytes_app, app_assoc by lia. f_equal. unfold BufferView.bytes. cbn [bv_spans].
    by rewrite bind_app, Hbytes.
  - intros Hlt. destruct (Hm ltac:(lia)) as [Hnone Hdiv]. rewrite Z.add_assoc. split.
    + by apply (pins_only_none _ _ _ Hp).
    + intros _. destruct (decide (n = 0)) as [->|]; [|by apply Hdiv; lia]. rewrite Z.add_0_r.
      exists (offset / BlockSize + 1). lia.
Qed.

Lemma GetData_whole offset size l :
  Coherent l → Whole l → 0 ≤ offset → 0 ≤ size →
  ∃ l' v n, Leaf.GetData offset size l = Ret (l', v) ∧ pins_only l l' ∧ Forall span_ok (bv_spans v) ∧
    BufferView.bytes v = file_bytes offset n ∧ 0 ≤ n ≤ Z.max 0 (Z.min size (fileSize - offset)) ∧
    (n < Z.max 0 (Z.min size (fileSize - offset)) →
     ld_data l !! ((offset + n) / BlockSize) = None ∧ (0 < n → (BlockSize | offset + n))).
Proof.
  intros Hc Hw Ho Hs. destruct (GetData_reads offset size l Hc Ho Hs) as (l' & v & m & E & Hp & _).
  pose proof (GetData_spans _ _ _ _ _ Hc Ho E) as Hspans. pose proof E as E1. unfold Leaf.GetData in E. revert E.
  rewrite (coherent_size _ Hc). destruct (Z.leb_spec fileSize offset).
  - intros [= <- <-]. exists l, (mkBufferView [] []), 0. split; [done|]. split; [done|]. split; [done|].
    split; [done|]. lia.
  - rewrite wrap_small by lia. intros E.
    apply GetData_loop_whole in E as (n & Hb & Hn & Hm); [|done|done|lia..].
    exists l', v, n. rewrite Z.max_r by lia. done.
Qed.

Definition whole_block (offset size : Z) : Prop :=
  ∃ k, 0 ≤ k ∧ offset = k * BlockSize ∧ size = block_bytes k.

Lemma block_index_block k : 0 ≤ k → k * BlockSize < fileSize → block_index (k * BlockSize) = k.
Proof.
  intros. rewrite block_index_eq by (unfold BlockSize in *; lia).
  apply Z.div_mul. unfold BlockSize. lia.
Qed.

Lemma Whole_extends k l :
  Whole l → 0 ≤ k → k * BlockSize < fileSize →
  ∀ s, ld_data l !! block_index (k * BlockSize) = Some s → Extends (k * BlockSize) (block_bytes k) s.
Proof.
  intros Hw ? ? s. rewrite block_index_block by done. intros Hs.
  destruct (Hw _ _ Hs) as (r & -> & _ & Ho & Hz).
  intros r' ->%list_elem_of_singleton _. lia.
Qed.

(** A block arrives: it is cached, or was cached already. *)
Lemma AddData_whole k data l :
  Coherent l → Whole l → 0 ≤ k → Holds (k * BlockSize) (block_bytes k) data →
  ∃ l' free, Leaf.AddData (k * BlockSize) (block_bytes k) data l = Ret (l', free) ∧ Whole l' ∧
    is_Some (ld_data l' !! k).
Proof.
  intros Hc Hw Hk Hh. destruct (holds_bounds _ _ _ Hh) as (?&?&?).
  destruct (ld_data l !! k) as [s|] eqn:Es.
  - destruct (Hw _ _ Es) as (r & -> & Ha & Ho & Hz). do 2 eexists.
    split; [eapply AddData_again; try done; by rewrite Ho, Hz|]. by split.
  - pose proof (status_in_range (k * BlockSize) l Hc ltac:(lia)) as Hi.
    rewrite block_index_block in Hi by lia. unfold Leaf.AddData.
    rewrite block_index_block, Es by lia. cbn [ld_piecesStatus Leaf.with_data].
    unfold PiecesStatus.SetStatus. rewrite bool_decide_true by done.
    do 2 eexists. split; [done|]. cbn. split; [|by rewrite lookup_insert_eq].
    intros k' s'. cbn. intros [[<- <-]|[_ Hs']]%lookup_insert_Some; [|by apply Hw].
    by eexists.
Qed.

Lemma cache_step_whole l l' :
  Coherent l ∧ Whole l → cache_step whole_block l l' → Coherent l' ∧ Whole l'.
Proof.
  intros [Hc Hw] H. split; [by eapply cache_step_coherent|]. destruct H.
  - destruct H as (k & Hk & -> & ->).
    destruct (AddData_whole _ _ _ Hc Hw Hk H0) as (l2 & f2 & E & Hl2 & _). rewrite H2 in E. by simplify_eq.
  - destruct (GetData_reads _ size _ Hc H0 H1) as (l2 & v2 & n & E & Hp & _).
    rewrite H in E. simplify_eq. by eapply Whole_pins_only.
  - by eapply Whole_pins_only, Hw; apply pins_only_drop_pin.
  - unfold Leaf.ExtractBlock in H. case_match; inv_res; [|done]. case_match; inv_res.
    intros k s. cbn. intros [_ Hs]%lookup_delete_Some. by apply Hw.
  - done.
  - unfold Leaf.SetInFlight in H. inv_res. by case_match; inv_res.
  - done.
  - unfold Leaf.TakePendingJobs. by case_match.
  - done.
  - intros k s Hk. cbn in Hk. by rewrite lookup_empty in Hk.
Qed.


Lemma cache_history_whole l :
  0 ≤ fileSize → rtc (cache_step whole_block) (Leaf.make fileSize) l → Coherent l ∧ Whole l.
Proof.
  intros Hf. apply (rtc_invariant _ (λ l, Coherent l ∧ Whole l)); [|intros a b; apply cache_step_whole]. split; [by apply Coherent_make|].
  intros k s Hk. cbn in Hk. by rewrite lookup_empty in Hk.
Qed.

(** A cached block has all its bytes. *)
Lemma Whole_not_missing x l :
  Whole l → 0 ≤ x < fileSize → is_Some (ld_data l !! (x / BlockSize)) → ¬ missing x l.
Proof.
  intros Hw Hx [s Hs] Hm. destruct (Hw _ _ Hs) as (r & -> & _ & Ho & Hz).
  apply (Hm [r]); [by rewrite block_index_eq by lia|by repeat constructor|].
  exists r. split; [by constructor|]. rewrite Ho, Hz. unfold block_bytes.
  pose proof (Z.div_mod x BlockSize). pose proof (Z.mod_pos_bound x BlockSize).
  unfold BlockSize in *. lia.
Qed.


(** when whole blocks arrive, as [FuseReadFileJob] asks for them, every arrival is
    taken and its block is in the cache, and a read of cached blocks is complete. *)
Theorem block_cache_complete l offset size :
  0 ≤ fileSize → rtc (cache_step whole_block) (Leaf.make fileSize) l →
  (∀ k data, 0 ≤ k → Holds (k * BlockSize) (block_bytes k) data →
     ∃ l' free, Leaf.AddData (k * BlockSize) (block_bytes k) data l = Ret (l', free) ∧
       is_Some (ld_data l' !! k)) ∧
  (0 ≤ offset < fileSize → 0 ≤ size →
   (∀ x, offset ≤ x < Z.min (offset + size) fileSize → is_Some (ld_data l !! (x / BlockSize))) →
   ∃ l' v, Leaf.GetData offset size l = Ret (l', v) ∧
     BufferView.bytes v = file_bytes offset (Z.min size (fileSize - offset))).
Proof.
  intros Hf H. destruct (cache_history_whole _ Hf H) as [Hc Hw]. split.
  - intros k data Hk Hh. destruct (AddData_whole _ _ _ Hc Hw Hk Hh) as (l' & free & ?&_&?). eauto.
  - intros Ho Hs Hall. destruct (GetData_reads offset size l Hc ltac:(lia) Hs) as (l' & v & n & E & _ & Hn & Hb & Hm).
    exists l', v. split; [done|]. rewrite Hb. f_equal.
    destruct (decide (n = Z.min size (fileSize - offset))); [done|].
    destruct Hm as [|Hm]; [lia|]. exfalso. eapply (Whole_not_missing (offset + n)); [done|lia| |done].
    apply Hall. lia.
Qed.

(** the block chosen for eviction is the first one that nobody reads from; all its
    bytes are taken out, under the offset where they belong, and it is gone. *)
Theorem evicted_block_whole l :
  0 ≤ fileSize → rtc (cache_step whole_block) (Leaf.make fileSize) l →
  let k := Leaf.GetFirstBlockIndex l in
  k ≠ SIZE_MAX →
  ∃ l' r, Leaf.ExtractBlock k l = Ret (l', k * BlockSize, rg_packets r) ∧
    ld_data l !! k = Some [r] ∧ Range.IsPinned r = false ∧
    Holds (k * BlockSize) (block_bytes k) (rg_packets r) ∧
    (∀ k' s, k' < k → ld_data l !! k' = Some s → Leaf.anyPinned s = true) ∧
    ld_data l' = delete k (ld_data l) ∧ PiecesStatus.GetStatus k (ld_piecesStatus l') = Ret NotFound.
Proof.
  intros Hf H k Hne. destruct (cache_history_whole _ Hf H) as [Hc Hw].
  destruct (GetFirstBlockIndex_spec l) as [[?|(s & Hs & Hp)] Hleast]; [done|]. fold k in Hs, Hleast.
  destruct (Hw _ _ Hs) as (r & -> & Ha & Ho & Hz). pose proof (holds_bounds _ _ _ Ha) as (?&?&?).
  assert (0 ≤ k) by (unfold BlockSize in *; lia).
  pose proof (status_in_range (k * BlockSize) l Hc ltac:(lia)) as Hi.
  rewrite block_index_block in Hi by lia.
  unfold Leaf.ExtractBlock. rewrite Hs. unfold PiecesStatus.SetStatus. rewrite bool_decide_true by done.
  eexists _, r. cbn. rewrite Ho, app_nil_r. split; [done|]. split; [done|].
  split; [by apply orb_false_iff in Hp as [? _]|]. split; [by rewrite <- Hz, <- Ho|]. split; [|split; [done|]].
  - intros k' s Hlt Hs'. destruct (Leaf.anyPinned s) eqn:E; [done|]. specialize (Hleast _ _ Hs' E). lia.
  - unfold PiecesStatus.GetStatus. cbn [ld_piecesStatus Leaf.with_data Leaf.with_status]. rewrite list_lookup_insert_eq by lia.
    by rewrite (proj2 (Z.leb_le _ _)) by lia.
Qed.

End File.

(** ** The theorems at work: a file of five letters in packets of two *)

Definition letters (x : Z) : Z := 65 + x.
Definition piece (bytes : list Z) : Packet :=
  from_res (Packet.make HeaderSize) (SetPayload bytes (Packet.make (HeaderSize + length bytes))).
Definition letter_pieces : list Packet := [piece [65; 66]; piece [67; 68]; piece [69]].

Lemma letters_hold (offset size : Z) (data : list Packet) :
  (0 ≤ offset ∧ 0 < size ∧ offset + size ≤ 5) → (2 | offset) → (2 | offset + size) ∨ offset + size = 5 →
  Chunked 2 size data → data ≫= payload = file_bytes letters offset size →
  Holds letters 5 2 offset size data.
Proof. by split. Qed.

(** Evaluate the arrival of concrete data. *)
Ltac holds_now := apply letters_hold;
  [lia|first [by exists 0|by exists 1|by exists 2]|first [by left; exists 1|by left; exists 2|by right]
  |vm_compute; by repeat split|reflexivity].

Definition leaf0 : LeafData Packet unit := Leaf.make 5.

(** The first two letters, then the next two; then the last one. *)
Definition leaf_ab : LeafData Packet unit := (from_res (leaf0, []) (Leaf.AddData 0 2 [piece [65; 66]] leaf0)).1.
Definition leaf_abcd : LeafData Packet unit :=
  (from_res (leaf0, []) (Leaf.AddData 2 2 [piece [67; 68]] leaf_ab)).1.
Definition leaf_block : LeafData Packet unit := (from_res (leaf0, []) (Leaf.AddData 0 5 letter_pieces leaf0)).1.

Example read_ab_to_f :
  (λ '(l, v), (BufferView.bytes v, bv_pin v, Leaf.GetFirstBlockIndex l)) <$> Leaf.GetData 1 10 leaf_abcd
  = Ret ([66; 67; 68], [0%nat; 0%nat], SIZE_MAX).
Proof. reflexivity. Qed.


Lemma leaf_block_reached : rtc (cache_step letters 5 2 (whole_block 5)) leaf0 leaf_block.
Proof.
  eapply rtc_l; [eapply (step_arrive _ _ _ _ leaf0 leaf_block 0 5 letter_pieces [])|reflexivity].
  - exists 0. by split.
  - holds_now.
  - intros s Hs. vm_compute in Hs. discriminate.
  - reflexivity.
Qed.


Lemma block_cache_complete_witness :
  ∃ l' v, Leaf.GetData 1 10 leaf_block = Ret (l', v) ∧
     BufferView.bytes v = file_bytes letters 1 (Z.min 10 (5 - 1)).
Proof.
  refine (proj2 (block_cache_complete letters 5 2 _ _ _ leaf_block 1 10 _ leaf_block_reached) _ _ _);
    [lia..|].
  intros x Hx. assert (x = 1 ∨ x = 2 ∨ x = 3 ∨ x = 4) as [->|[->|[->| ->]]] by lia; by eexists.
Defined.

Lemma evicted_block_whole_witness :
  let k := Leaf.GetFirstBlockIndex leaf_block in
  ∃ l' r, Leaf.ExtractBlock k leaf_block = Ret (l', k * BlockSize, rg_packets r) ∧
    ld_data leaf_block !! k = Some [r] ∧ Range.IsPinned r = false ∧
    Holds letters 5 2 (k * BlockSize) (block_bytes 5 k) (rg_packets r) ∧
    (∀ k' s, k' < k → ld_data leaf_block !! k' = Some s → Leaf.anyPinned s = true) ∧
    ld_data l' = delete k (ld_data leaf_block) ∧
    PiecesStatus.GetStatus k (ld_piecesStatus l') = Ret NotFound.
Proof.
  apply (evicted_block_whole letters 5 2 ltac:(lia) ltac:(lia) ltac:(lia) leaf_block);
    [lia|exact leaf_block_reached|vm_compute; discriminate].
Defined.

(** ** Behaviour the code does not mean to have *)

(** A whole file of one packet that arrives a second time is destroyed: the set does
    not take its range. *)
Lemma second_arrival_destroyed :
  let one := (from_res (leaf0, []) (Leaf.AddData 0 5 [piece [65; 66; 67; 68; 69]] leaf0)).1 in
  let again := piece [65; 66; 67; 68; 69] in
  ∃ l', Leaf.AddData 0 5 [again] one = Ret (l', []) ∧ cached l' = cached one.
Proof. eexists. split; reflexivity. Qed.

(** Data that end inside of a longer range make that range shorter: the end of the file,
    which was there, is not read any more. *)
Lemma contained_arrival_shrinks :
  (λ '(l, _), (λ '(_, v), BufferView.bytes v) <$> Leaf.GetData 4 1 l) <$>
    Leaf.AddData 0 2 [piece [65; 66]] leaf_block = Ret (Ret []) ∧
  (λ '(_, v), BufferView.bytes v) <$> Leaf.GetData 4 1 leaf_block = Ret [69].
Proof. split; reflexivity. Qed.

(** Data that begin in the middle of a packet of a range are joined at the wrong place: a
    byte of the file is left out, and the ones behind it are read in its place. *)
Lemma unaligned_arrival_corrupts :
  (λ '(l, _), (λ '(_, v), BufferView.bytes v) <$> Leaf.GetData 0 7 l) <$>
    Leaf.AddData 1 6 [piece [66; 67]; piece [68; 69]; piece [70; 71]]
      (from_res (leaf0, []) (Leaf.AddData 0 4 [piece [65; 66]; piece [67; 68]] (Leaf.make 7))).1
  = Ret (Ret [65; 66; 67; 68; 70; 71]).
Proof. reflexivity. Qed.
