(* ===== verification/FileTree.v ===== *)
(** * FileTree: the tree of leaves, its index and its cache accounts
    [FileSystem/src/Leaf.cpp] (the tree operations and the lifetime of leaves) and
    [FileSystem/src/FileTree.cpp].

    Leaves are objects owned by [shared_ptr]s: of the map of children of their parent, of
    the tree for its root, of [_selfPin] while the kernel has references, and of jobs that
    hold one ([ft_held]).  They live in a store under their address, which is also the
    inode the kernel knows them by.  [lo_serial] tells two leaves apart that had the same
    address one after the other, as the control block of a [weak_ptr] does. *)
From S2P Require Import Prelude Addr Packet Leaf.
Local Open Scope Z_scope.

(** ** std::map with string keys *)

(** [std::map<std::string, ...>]: the entries in the order of the keys. *)
Module StringMap.
Section Operations.
Context {A : Type}.
Implicit Types m : list (string * A).

Fixpoint find (k : string) m : option A :=
  match m with
  | [] => None
  | (k', a) :: m => if bool_decide (k = k') then Some a else find k m
  end.

(** [insert({ k, a })]: nothing happens when the key is there. *)
Fixpoint insert (k : string) (a : A) m : list (string * A) :=
  match m with
  | [] => [(k, a)]
  | (k', a') :: m' =>
      match String.compare k k' with
      | Lt => (k, a) :: m
      | Eq => m
      | Gt => (k', a') :: insert k a m'
      end
  end.

Fixpoint erase (k : string) m : list (string * A) :=
  match m with
  | [] => []
  | (k', a) :: m => if bool_decide (k = k') then m else (k', a) :: erase k m
  end.

End Operations.
End StringMap.

Inductive file_type :=
  | ft_none | ft_not_found | ft_regular | ft_directory | ft_symlink | ft_block
  | ft_character | ft_fifo | ft_socket | ft_unknown.

#[export] Instance file_type_eq_dec : EqDecision file_type.
Proof. solve_decision. Defined.

(** The root as FUSE knows it. *)
Definition FUSE_ROOT_ID : Z := 1.

(** ** The objects *)

Record LeafObject (P J : Type) := mkLeafObject {
  lo_serial : nat;
  lo_children : list (string * Z);
  lo_name : string;
  lo_type : file_type;
  lo_parent : option Z;
  lo_nlookup : Z;
  lo_selfPin : bool;
  lo_serverInode : Z;
  lo_tree : bool;                  (* _tree != nullptr *)
  lo_data : LeafData P J;
}.
Arguments mkLeafObject {_ _} _ _ _ _ _ _ _ _ _ _.
Arguments lo_serial {_ _} _.
Arguments lo_children {_ _} _.
Arguments lo_name {_ _} _.
Arguments lo_type {_ _} _.
Arguments lo_parent {_ _} _.
Arguments lo_nlookup {_ _} _.
Arguments lo_selfPin {_ _} _.
Arguments lo_serverInode {_ _} _.
Arguments lo_tree {_ _} _.
Arguments lo_data {_ _} _.

(** [FileTree], with the store of all leaves that are alive and the leaves of which jobs
    hold a [shared_ptr]. *)
Record FileTree (P J : Type) := mkFileTree {
  ft_leaves : gmap Z (LeafObject P J);
  ft_serial : nat;
  ft_held : list Z;
  ft_index : gmap Z (Z * nat);     (* _serverInodeIndex: weak_ptrs *)
  ft_root : Z;
  ft_cachePerShard : list (gmap Z Z);
  ft_grandTotal : Z;
}.
Arguments mkFileTree {_ _} _ _ _ _ _ _ _.
Arguments ft_leaves {_ _} _.
Arguments ft_serial {_ _} _.
Arguments ft_held {_ _} _.
Arguments ft_index {_ _} _.
Arguments ft_root {_ _} _.
Arguments ft_cachePerShard {_ _} _.
Arguments ft_grandTotal {_ _} _.

Module LeafObject.
Section Operations.
Context {P J : Type} `{!IPacket P}.
Implicit Types o : LeafObject P J.

Definition make (serial : nat) (name : string) (type : file_type) (size : Z) (parent : option Z) :
    LeafObject P J :=
  mkLeafObject serial [] name type parent 0 false 0 false (Leaf.make size).

Definition with_children c o : LeafObject P J :=
  mkLeafObject (lo_serial o) c (lo_name o) (lo_type o) (lo_parent o) (lo_nlookup o)
    (lo_selfPin o) (lo_serverInode o) (lo_tree o) (lo_data o).
Definition with_refs n pin o : LeafObject P J :=
  mkLeafObject (lo_serial o) (lo_children o) (lo_name o) (lo_type o) (lo_parent o) n
    pin (lo_serverInode o) (lo_tree o) (lo_data o).
Definition with_inode i o : LeafObject P J :=
  mkLeafObject (lo_serial o) (lo_children o) (lo_name o) (lo_type o) (lo_parent o) (lo_nlookup o)
    (lo_selfPin o) i (lo_tree o) (lo_data o).
Definition SetTree b o : LeafObject P J :=
  mkLeafObject (lo_serial o) (lo_children o) (lo_name o) (lo_type o) (lo_parent o) (lo_nlookup o)
    (lo_selfPin o) (lo_serverInode o) b (lo_data o).
Definition with_data d o : LeafObject P J :=
  mkLeafObject (lo_serial o) (lo_children o) (lo_name o) (lo_type o) (lo_parent o) (lo_nlookup o)
    (lo_selfPin o) (lo_serverInode o) (lo_tree o) d.

Definition GetSize o : Z := ld_size (lo_data o).
Definition IsDeleted o : bool := bool_decide (lo_type o = ft_not_found).
Definition Find (name : string) o : option Z := StringMap.find name (lo_children o).

(** A leaf that has no server inode reports its own address. *)
Definition GetServerInode (this : Z) o : Z :=
  if lo_serverInode o =? 0 then this else lo_serverInode o.

End Operations.
End LeafObject.

(** ** The operations *)

Module FileTree.
Section Operations.
Context {P J : Type} `{!IPacket P}.
(** [std::hash<fuse_ino_t>], and which entry [begin()] of an [unordered_map] is. *)
Context (hash : Z → Z) (begin : gmap Z Z → option Z).
Implicit Types (t : FileTree P J) (o : LeafObject P J) (a inode : Z).

Definition with_leaves m t : FileTree P J :=
  mkFileTree m (ft_serial t) (ft_held t) (ft_index t) (ft_root t) (ft_cachePerShard t) (ft_grandTotal t).
Definition with_index m t : FileTree P J :=
  mkFileTree (ft_leaves t) (ft_serial t) (ft_held t) m (ft_root t) (ft_cachePerShard t) (ft_grandTotal t).
Definition with_accounts shards total t : FileTree P J :=
  mkFileTree (ft_leaves t) (ft_serial t) (ft_held t) (ft_index t) (ft_root t) shards total.
Definition with_serial n t : FileTree P J :=
  mkFileTree (ft_leaves t) n (ft_held t) (ft_index t) (ft_root t) (ft_cachePerShard t) (ft_grandTotal t).
Definition with_held l t : FileTree P J :=
  mkFileTree (ft_leaves t) (ft_serial t) l (ft_index t) (ft_root t) (ft_cachePerShard t) (ft_grandTotal t).

(** A pointer that is followed must point to a leaf that is alive. *)
Definition leaf_at a t : res (LeafObject P J) :=
  match ft_leaves t !! a with Some o => Ret o | None => Err Undefined end.
Definition set_leaf a o t : FileTree P J := with_leaves (<[a := o]> (ft_leaves t)) t.

Definition ShardCount : nat := 4.
Definition MaxCachePackets : Z := 10000.
Definition ShardForInode inode : nat := Z.to_nat (hash inode `mod` Z.of_nat ShardCount).

(** [FileTree(name, cacheFolder)]; [a] is where the root is allocated. *)
Definition make (name : string) a : FileTree P J :=
  mkFileTree {[a := LeafObject.SetTree true (LeafObject.make 0 name ft_directory 0 None)]} 1 [] ∅ a
    (replicate ShardCount ∅) 0.

(** *** The index *)

Definition RegisterLeaf inode a t : FileTree P J :=
  match ft_leaves t !! a with
  | Some o => with_index (<[inode := (a, lo_serial o)]> (ft_index t)) t
  | None => t
  end.

Definition UnregisterLeaf inode t : FileTree P J := with_index (delete inode (ft_index t)) t.

(** [weak_ptr::lock()]. *)
Definition lock (w : Z * nat) t : option Z :=
  match ft_leaves t !! w.1 with
  | Some o => if bool_decide (lo_serial o = w.2) then Some w.1 else None
  | None => None
  end.

Definition FindLeafByServerInode inode t : res (option Z) :=
  root ← leaf_at (ft_root t) t;
  if inode =? LeafObject.GetServerInode (ft_root t) root then Ret (Some (ft_root t))
  else Ret (ft_index t !! inode ≫= λ w, lock w t).

(** *** Owners *)

(** Some [shared_ptr] points to the leaf. *)
Definition owned a t : bool :=
  bool_decide (ft_root t = a) || bool_decide (a ∈ ft_held t) ||
  existsb (λ '(b, o), (bool_decide (b = a) && lo_selfPin o) || bool_decide (a ∈ (lo_children o).*2))
    (map_to_list (ft_leaves t)).

(** A [shared_ptr] to [a] has gone: without another one the leaf is destroyed, and the
    pointers to its children go. *)
Fixpoint drop_ref (fuel : nat) a t : res (FileTree P J) :=
  if owned a t then Ret t
  else match ft_leaves t !! a with
  | None => Ret t
  | Some o =>
      match fuel with
      | O => Err OutOfFuel
      | S fuel =>
          foldl (λ m c, t ← m; drop_ref fuel c t) (Ret (with_leaves (delete a (ft_leaves t)) t))
            (lo_children o).*2
      end
  end.
Definition release a t : res (FileTree P J) := drop_ref (size (ft_leaves t)) a t.

(** *** The tree *)

(** The leaves below [queue], in the order of the loops that walk a subtree: the last
    one of the queue first, its children are put behind. *)
Fixpoint walk (fuel : nat) (queue : list Z) t : res (list Z) :=
  match queue with
  | [] => Ret []
  | current :: queue =>
      match fuel with
      | O => Err OutOfFuel
      | S fuel =>
          o ← leaf_at current t;
          rest ← walk fuel (reverse (lo_children o).*2 ++ queue) t;
          Ret (current :: rest)
      end
  end.
Definition subtree a t : res (list Z) := walk (size (ft_leaves t)) [a] t.

(** [AddChild(name, type, size)] at [parent]; [a] is where [make_shared] puts the leaf.
    When the name is taken the new leaf is destroyed. *)
Definition AddChild parent (name : string) (type : file_type) (sz : Z) a t :
    res (FileTree P J * Z) :=
  o ← leaf_at parent t;
  match StringMap.find name (lo_children o) with
  | Some child => Ret (with_serial (S (ft_serial t)) t, child)
  | None =>
      let leaf := LeafObject.SetTree (lo_tree o)
        (LeafObject.make (ft_serial t) name type sz (Some parent)) in
      let t := with_serial (S (ft_serial t))
        (set_leaf parent (LeafObject.with_children (StringMap.insert name a (lo_children o)) o)
          (set_leaf a leaf t)) in
      Ret ((if lo_tree o then RegisterLeaf (LeafObject.GetServerInode a leaf) a t else t), a)
  end.

(** A [shared_ptr] that a job holds goes away. *)
Fixpoint remove_one a (l : list Z) : list Z :=
  match l with
  | [] => []
  | b :: l => if bool_decide (a = b) then l else b :: remove_one a l
  end.
Definition unhold a t : res (FileTree P J) := release a (with_held (remove_one a (ft_held t)) t).
Definition hold a t : FileTree P J := with_held (a :: ft_held t) t.

(** [AddChild(shared_ptr<Leaf>)]: hang a leaf into the tree that the caller held.  When
    the name is taken, the one under that name gets the tree, and the new one goes. *)
Definition register_current (t : FileTree P J) (current : Z) : FileTree P J :=
  match ft_leaves t !! current with
  | Some o =>
      RegisterLeaf (LeafObject.GetServerInode current o) current
        (set_leaf current (LeafObject.SetTree true o) t)
  | None => t
  end.
Definition AddChildLeaf parent a t : res (FileTree P J * Z) :=
  o ← leaf_at parent t;
  leaf ← leaf_at a t;
  match StringMap.find (lo_name leaf) (lo_children o) with
  | Some child =>
      c ← leaf_at child t;
      t ← unhold a (set_leaf child (LeafObject.SetTree (lo_tree o) c) t);
      Ret (t, child)
  | None =>
      let t := set_leaf parent
        (LeafObject.with_children (StringMap.insert (lo_name leaf) a (lo_children o)) o)
        (with_held (remove_one a (ft_held t)) t) in
      if lo_tree o then
        below ← subtree a t;
        Ret (foldl register_current t below, a)
      else Ret (set_leaf a (LeafObject.SetTree false leaf) t, a)
  end.

Definition unregister_current (t : FileTree P J) (current : Z) : FileTree P J :=
  match ft_leaves t !! current with
  | Some o => UnregisterLeaf (LeafObject.GetServerInode current o) t
  | None => t
  end.

Definition RemoveChild parent (name : string) t : res (FileTree P J) :=
  o ← leaf_at parent t;
  match StringMap.find name (lo_children o) with
  | None => Ret t
  | Some a =>
      t ← (if lo_tree o then below ← subtree a t; Ret (foldl unregister_current t below) else Ret t);
      release a (set_leaf parent (LeafObject.with_children (StringMap.erase name (lo_children o)) o) t)
  end.

Definition SetServerInode a inode t : res (FileTree P J) :=
  o ← leaf_at a t;
  let t := if lo_tree o then UnregisterLeaf (LeafObject.GetServerInode a o) t else t in
  let o' := LeafObject.with_inode inode o in
  let t := set_leaf a o' t in
  Ret (if lo_tree o then RegisterLeaf (LeafObject.GetServerInode a o') a t else t).

(** The names from the root down to the leaf. *)
Fixpoint GetFullPath (fuel : nat) a t : res (list string) :=
  match fuel with
  | O => Err OutOfFuel
  | S fuel =>
      o ← leaf_at a t;
      match lo_parent o with
      | None => Ret [lo_name o]
      | Some parent => path ← GetFullPath fuel parent t; Ret (path ++ [lo_name o])
      end
  end.

(** *** References of the kernel *)

(** [_nlookup] is a 64-bit counter. *)
Definition AddRef a t : res (FileTree P J) :=
  o ← leaf_at a t;
  Ret (set_leaf a (LeafObject.with_refs (u64 (lo_nlookup o + 1))
    (if lo_nlookup o =? 0 then true else lo_selfPin o) o) t).

Definition ReleaseRef (nlookup : Z) a t : res (FileTree P J) :=
  o ← leaf_at a t;
  assert_that (nlookup <=? lo_nlookup o);;
  if lo_nlookup o =? nlookup then
    release a (set_leaf a (LeafObject.with_refs (u64 (lo_nlookup o - nlookup)) false o) t)
  else Ret (set_leaf a (LeafObject.with_refs (u64 (lo_nlookup o - nlookup)) (lo_selfPin o) o) t).

(** One turn of [DropPinsRecursively]; the leaf stays owned by its parent. *)
Definition drop_pin_at (t : FileTree P J) a : FileTree P J :=
  match ft_leaves t !! a with
  | Some o => set_leaf a (LeafObject.with_refs (lo_nlookup o) false o) t
  | None => t
  end.
Definition DropPinsRecursively a t : res (FileTree P J) :=
  below ← subtree a t;
  Ret (foldl drop_pin_at t below).

(** *** Scanning the disk

    What the [directory_iterator] shows of an entry. *)
Inductive dir_entry :=
  | File_entry (name : string) (sz : Z)
  | Directory_entry (name : string) (entries : list dir_entry)
  | Other_entry (name : string).
Definition entry_name (e : dir_entry) : string :=
  match e with File_entry n _ | Directory_entry n _ | Other_entry n => n end.

(** [Rescan] adds the entries that are not known; [alloc] is where the next leaf is
    allocated. *)
Definition Rescan_entry (alloc : FileTree P J → Z) a (m : res (FileTree P J)) (e : dir_entry) :
    res (FileTree P J) :=
  t ← m;
  o ← leaf_at a t;
  match LeafObject.Find (entry_name e) o, e with
  | Some _, _ => Ret t
  | None, File_entry name sz => fst <$> AddChild a name ft_regular sz (alloc t) t
  | None, Directory_entry name _ => fst <$> AddChild a name ft_directory 0 (alloc t) t
  | None, Other_entry _ => Ret t
  end.
Definition Rescan alloc a (listing : list dir_entry) t : res (FileTree P J) :=
  foldl (Rescan_entry alloc a) (Ret t) listing.

(** [Scan] goes down into the directories. *)
Fixpoint Scan_entry (alloc : FileTree P J → Z) (e : dir_entry) a t : res (FileTree P J) :=
  match e with
  | File_entry name sz => fst <$> AddChild a name ft_regular sz (alloc t) t
  | Directory_entry name entries =>
      '(t, directory) ← AddChild a name ft_directory 0 (alloc t) t;
      foldl (λ m e, t ← m; Scan_entry alloc e directory t) (Ret t) entries
  | Other_entry _ => Ret t
  end.
Definition Scan alloc (listing : list dir_entry) t : res (FileTree P J) :=
  foldl (λ m e, t ← m; Scan_entry alloc e (ft_root t) t) (Ret t) listing.

(** *** The data *)

(** [inode == FUSE_ROOT_ID ? root : reinterpret_cast<Leaf*>(inode)]. *)
Definition address inode t : Z := if inode =? FUSE_ROOT_ID then ft_root t else inode.

Definition update_data (a : Z) (d : LeafData P J) t : FileTree P J :=
  match ft_leaves t !! a with Some o => set_leaf a (LeafObject.with_data d o) t | None => t end.

Definition GetData inode (offset sz : Z) t : res (FileTree P J * BufferView P) :=
  o ← leaf_at (address inode t) t;
  '(d, v) ← Leaf.GetData offset sz (lo_data o);
  Ret (update_data (address inode t) d t, v).

(** The accounts of a shard; numbers of packets stay far below the width of [int]. *)
Definition shard (i : nat) t : gmap Z Z := default ∅ (ft_cachePerShard t !! i).

Definition AddData inode (offset sz : Z) (data : list P) t : res (FileTree P J * list P) :=
  let packetsNumber := Z.of_nat (length data) in
  o ← leaf_at (address inode t) t;
  '(d, freePackets) ← Leaf.AddData offset sz data (lo_data o);
  let added := packetsNumber - Z.of_nat (length freePackets) in
  let i := ShardForInode inode in
  let shardCache := shard i t in
  let shardCache := <[inode := default 0 (shardCache !! inode) + added]> shardCache in
  Ret (with_accounts (<[i := shardCache]> (ft_cachePerShard t)) (ft_grandTotal t + added)
    (update_data (address inode t) d t), freePackets).

(** [FreeData]; an empty one has no packets. *)
Record FreeData := mkFreeData {
  fd_inode : Z;
  fd_offset : Z;
  fd_size : Z;
  fd_data : list P;
}.
Definition no_data : FreeData := mkFreeData 0 0 0 [].

Definition GetFreeData (shardIdx : nat) t : res (FileTree P J * FreeData) :=
  match ft_cachePerShard t !! shardIdx with
  | None => Err (Throws "array::at")
  | Some shardCache =>
      match begin shardCache with
      | None => Ret (t, no_data)
      | Some inode =>
          o ← leaf_at (address inode t) t;
          let blockIndex := Leaf.GetFirstBlockIndex (lo_data o) in
          if blockIndex =? SIZE_MAX then Ret (t, no_data)
          else
            '(d, offset, data) ← Leaf.ExtractBlock blockIndex (lo_data o);
            let extracted := Z.of_nat (length data) in
            let left := default 0 (shardCache !! inode) - extracted in
            assert_that (0 <=? left);;
            let shardCache := if left =? 0 then delete inode shardCache else <[inode := left]> shardCache in
            let blockStart := blockIndex * BlockSize in
            Ret (with_accounts (<[shardIdx := shardCache]> (ft_cachePerShard t))
                   (ft_grandTotal t - extracted) (update_data (address inode t) d t),
                 mkFreeData inode offset (u64 (Z.min BlockSize (LeafObject.GetSize o - blockStart))) data)
      end
  end.

Definition NeedsEviction t : bool := MaxCachePackets <? ft_grandTotal t.

(** One turn of [Leaf::CancelAllPendingJobs] and the whole of it: the jobs that are
    cancelled. *)
Definition cancel_at (tj : FileTree P J * list J) a : FileTree P J * list J :=
  match ft_leaves tj.1 !! a with
  | Some o =>
      let '(d, jobs) := Leaf.CancelPendingJobs (lo_data o) in
      (set_leaf a (LeafObject.with_data d o) tj.1, tj.2 ++ jobs)
  | None => tj
  end.
Definition CancelAllPendingJobs t : res (FileTree P J * list J) :=
  below ← subtree (ft_root t) t;
  Ret (foldl cancel_at (t, []) below).

End Operations.
End FileTree.

(** ** A tree in order *)

Section StringMapLemmas.
Context {A : Type}.
Implicit Types m : list (string * A).

Lemma find_insert_perm k (a : A) m :
  StringMap.find k m = None → StringMap.insert k a m ≡ₚ (k, a) :: m.
Proof.
  induction m as [|[k' a'] m IH]; cbn; [done|]. case_bool_decide as Hk; [done|]. intros H.
  destruct (String.compare k k') eqn:E; [|done|].
  - by apply String.compare_eq_iff in E.
  - rewrite IH by done. apply Permutation_swap.
Qed.

Lemma find_erase_perm k (a : A) m :
  StringMap.find k m = Some a → m ≡ₚ (k, a) :: StringMap.erase k m.
Proof.
  induction m as [|[k' a'] m IH]; cbn; [done|]. case_bool_decide as Hk; [by intros [= ->]; subst|].
  intros H. rewrite (IH H) at 1. apply Permutation_swap.
Qed.

Lemma find_elem k (a : A) m : StringMap.find k m = Some a → (k, a) ∈ m.
Proof. intros H. rewrite (find_erase_perm _ _ _ H). by left. Qed.

End StringMapLemmas.

Section Trees.
Context {P J : Type} `{!IPacket P}.
Implicit Types (t : FileTree P J) (o : LeafObject P J) (a b c : Z).

Definition children o : list Z := (lo_children o).*2.

(** The owners of a leaf. *)
Definition Owned a t : Prop :=
  ft_root t = a ∨ a ∈ ft_held t ∨ (∃ o, ft_leaves t !! a = Some o ∧ lo_selfPin o = true) ∨
  ∃ b o, ft_leaves t !! b = Some o ∧ a ∈ children o.

Lemma owned_spec a t : FileTree.owned a t = true ↔ Owned a t.
Proof.
  unfold FileTree.owned, Owned. rewrite !orb_true_iff, !bool_decide_eq_true, existsb_exists.
  split.
  - intros [[?|?]|([b o] & Hin & Ho)]; [tauto..|]. right; right.
    apply list_elem_of_In, elem_of_map_to_list in Hin.
    apply orb_true_iff in Ho as [[Hb Hp]%andb_true_iff|Hc%bool_decide_eq_true]; [left|right; eauto].
    apply bool_decide_eq_true in Hb as ->. eauto.
  - intros [?|[?|[(o & Ho & Hp)|(b & o & Ho & Hc)]]]; [tauto|tauto|right|right].
    + exists (a, o). rewrite <- list_elem_of_In, elem_of_map_to_list, bool_decide_true, Hp by done. done.
    + exists (b, o). rewrite <- list_elem_of_In, elem_of_map_to_list. split; [done|].
      apply orb_true_iff. right. by apply bool_decide_eq_true.
Qed.

(** The order of the objects: children are younger than their parent, which is the only
    one they have; the index names what it says; pins go with references. *)
Record TreeOk t : Prop := {
  ok_root : ∃ o, ft_leaves t !! ft_root t = Some o;
  ok_serial : ∀ a o, ft_leaves t !! a = Some o → (lo_serial o < ft_serial t)%nat;
  ok_tree : ∀ a o, ft_leaves t !! a = Some o → lo_tree o = true ∧ a ≠ 0;
  ok_child : ∀ a o c, ft_leaves t !! a = Some o → c ∈ children o →
    ∃ oc, ft_leaves t !! c = Some oc ∧ (lo_serial o < lo_serial oc)%nat;
  ok_unique : ∀ a b o o' c, ft_leaves t !! a = Some o → ft_leaves t !! b = Some o' →
    c ∈ children o → c ∈ children o' → a = b;
  ok_nodup : ∀ a o, ft_leaves t !! a = Some o → NoDup (children o);
  ok_refs : ∀ a o, ft_leaves t !! a = Some o → 0 ≤ lo_nlookup o < 2 ^ 64 ∧
    (lo_selfPin o = true ↔ 0 < lo_nlookup o);
  ok_index : ∀ i a s, ft_index t !! i = Some (a, s) → (s < ft_serial t)%nat ∧
    ∀ o, ft_leaves t !! a = Some o → lo_serial o = s → LeafObject.GetServerInode a o = i;
  ok_held : ∀ a, a ∈ ft_held t → is_Some (ft_leaves t !! a);
}.

(** No leaf is alive without an owner, but those of [U]. *)
Definition NoLeak (U : list Z) t : Prop :=
  ∀ a, is_Some (ft_leaves t !! a) → Owned a t ∨ a ∈ U.

(** What is left of a tree when leaves are destroyed. *)
Definition shrunk t t' : Prop :=
  (∀ a o, ft_leaves t' !! a = Some o → ft_leaves t !! a = Some o) ∧
  (∀ a o, ft_leaves t !! a = Some o →
     lo_selfPin o = true ∨ a ∈ ft_held t ∨ a = ft_root t → ft_leaves t' !! a = Some o) ∧
  ft_serial t' = ft_serial t ∧ ft_held t' = ft_held t ∧ ft_index t' = ft_index t ∧
  ft_root t' = ft_root t ∧ ft_cachePerShard t' = ft_cachePerShard t ∧
  ft_grandTotal t' = ft_grandTotal t.

#[export] Instance shrunk_preorder : PreOrder shrunk.
Proof.
  split.
  - intros t. by repeat split.
  - intros x y z (A1&A2&A3&A4&A5&A6&A7&A8) (B1&B2&B3&B4&B5&B6&B7&B8).
    split; [eauto|]. split; [|repeat split; congruence].
    intros a o Ha Hk. apply B2; [by apply A2|]. by rewrite A4, A6.
Qed.

Lemma delete_unowned_shrunk a t :
  ¬ Owned a t → shrunk t (FileTree.with_leaves (delete a (ft_leaves t)) t).
Proof.
  intros Hn. split; [|split; [|done]]; cbn.
  - by intros b o [_ ?]%lookup_delete_Some.
  - intros b o Hb Hk. apply lookup_delete_Some. split; [|done]. intros ->. apply Hn.
    destruct Hk as [?|[?| ->]]; unfold Owned; eauto 10.
Qed.

Lemma TreeOk_delete a t :
  TreeOk t → ¬ Owned a t → TreeOk (FileTree.with_leaves (delete a (ft_leaves t)) t).
Proof.
  intros [H1 H2 H3 H4 H5 H6 H7 H8 H9] Hn. split; cbn.
  - destruct H1 as [o Ho]. exists o. apply lookup_delete_Some. split; [|done].
    intros ->. apply Hn. by left.
  - intros b o [_ ?]%lookup_delete_Some. eauto.
  - intros b o [_ ?]%lookup_delete_Some. eauto.
  - intros b o c [_ Hb]%lookup_delete_Some Hc. destruct (H4 _ _ _ Hb Hc) as (oc & Hoc & ?).
    exists oc. split; [|done]. apply lookup_delete_Some. split; [|done].
    intros ->. apply Hn. unfold Owned. eauto 10.
  - intros b b' o o' c [_ ?]%lookup_delete_Some [_ ?]%lookup_delete_Some. eauto.
  - intros b o [_ ?]%lookup_delete_Some. eauto.
  - intros b o [_ ?]%lookup_delete_Some. eauto.
  - intros i b s Hi. destruct (H8 _ _ _ Hi) as [? G]. split; [done|].
    intros o [_ ?]%lookup_delete_Some. eauto.
  - intros b Hb. destruct (H9 _ Hb) as [o Ho]. exists o. apply lookup_delete_Some. split; [|done].
    intros ->. apply Hn. right; by left.
Qed.

(** Destroying a leaf leaves its children without it as an owner, and no others. *)
Lemma NoLeak_delete a o U t :
  ft_leaves t !! a = Some o → NoLeak (a :: U) t →
  NoLeak (children o ++ U) (FileTree.with_leaves (delete a (ft_leaves t)) t).
Proof.
  intros Ha H b. cbn. intros [ob [Hne Hb]%lookup_delete_Some].
  destruct (H b) as [Hown|Hin]; [by eexists| |].
  - destruct Hown as [?|[?|[(o' & Ho' & Hp)|(p & o' & Hp & Hc)]]].
    + left. by left.
    + left. right; by left.
    + left. right; right; left. exists o'. split; [|done]. cbn. by apply lookup_delete_Some.
    + destruct (decide (p = a)) as [->|Hpa].
      * right. rewrite Ha in Hp. simplify_eq. apply elem_of_app. by left.
      * left. right; right; right. exists p, o'. split; [|done]. cbn. by apply lookup_delete_Some.
  - apply elem_of_cons in Hin as [->|Hin]; [done|right; apply elem_of_app; by right].
Qed.

(** Giving up a list of pointers, one after the other. *)
Lemma drop_refs_ok (f : Z → FileTree P J → res (FileTree P J)) n U :
  (∀ a t V, TreeOk t → NoLeak (a :: V) t → (size (ft_leaves t) ≤ n)%nat →
    ∃ t', f a t = Ret t' ∧ TreeOk t' ∧ NoLeak V t' ∧ shrunk t t') →
  ∀ cs t, TreeOk t → NoLeak (cs ++ U) t → (size (ft_leaves t) ≤ n)%nat →
  ∃ t', foldl (λ m c, t ← m; f c t) (Ret t) cs = Ret t' ∧ TreeOk t' ∧ NoLeak U t' ∧ shrunk t t'.
Proof.
  intros Hf. induction cs as [|c cs IH]; intros t Hok Hl Hn; [by exists t|].
  cbn [foldl mbind res_bind].
  destruct (Hf c t (cs ++ U) Hok Hl Hn) as (t1 & -> & Hok1 & Hl1 & Hs1).
  destruct (IH t1 Hok1 Hl1) as (t' & ? & ? & ? & ?).
  - etransitivity; [|exact Hn]. apply map_subseteq_size, map_subseteq_spec. intros b ob. apply Hs1.
  - exists t'. split; [done|split; [done|split; [done|by etransitivity]]].
Qed.

Lemma drop_ref_ok fuel : ∀ a t U,
  TreeOk t → NoLeak (a :: U) t → (size (ft_leaves t) ≤ fuel)%nat →
  ∃ t', FileTree.drop_ref fuel a t = Ret t' ∧ TreeOk t' ∧ NoLeak U t' ∧ shrunk t t' ∧
    (¬ Owned a t → ft_leaves t' !! a = None).
Proof.
  induction fuel as [|fuel IH]; intros a t U Hok Hl Hf; cbn [FileTree.drop_ref].
  { destruct (ok_root _ Hok) as [o Ho]. apply Nat.le_0_r, map_size_empty_iff in Hf.
    by rewrite Hf in Ho. }
  destruct (FileTree.owned a t) eqn:Eo.
  { apply owned_spec in Eo. exists t. split; [done|split; [done|split; [|by split]]].
    intros b Hb. destruct (Hl b Hb) as [?|[->|?]%elem_of_cons]; auto. }
  assert (Hn : ¬ Owned a t) by (rewrite <- owned_spec; congruence).
  destruct (ft_leaves t !! a) as [o|] eqn:Ea.
  2: { exists t. split; [done|split; [done|split; [|by split]]].
       intros b Hb. destruct (Hl b Hb) as [?|[->|?]%elem_of_cons]; auto. rewrite Ea in Hb. by destruct Hb. }
  destruct (drop_refs_ok (FileTree.drop_ref fuel) fuel U) with (cs := children o)
    (t := FileTree.with_leaves (delete a (ft_leaves t)) t) as (t' & E & Hok' & Hl' & Hs').
  - intros a' t' V Hok' Hl' Hs'. destruct (IH a' t' V Hok' Hl' Hs') as (t2 & ?&?&?&?&_). eauto.
  - by apply TreeOk_delete.
  - by eapply NoLeak_delete.
  - cbn. rewrite map_size_delete_Some by done. lia.
  - exists t'. split; [exact E|split; [done|split; [done|split]]].
    + etransitivity; [by apply delete_unowned_shrunk|done].
    + intros _. destruct (ft_leaves t' !! a) as [o'|] eqn:E'; [|done].
      apply Hs' in E'. cbn in E'. by rewrite lookup_delete_eq in E'.
Qed.

(** A [shared_ptr] to [a] goes: the leaf is destroyed if it was the last one. *)
Lemma release_ok a t U :
  TreeOk t → NoLeak (a :: U) t →
  ∃ t', FileTree.release a t = Ret t' ∧ TreeOk t' ∧ NoLeak U t' ∧ shrunk t t' ∧
    (¬ Owned a t → ft_leaves t' !! a = None).
Proof. intros. by apply drop_ref_ok. Qed.

(** *** Walking a subtree *)

Definition child t b c : Prop := ∃ o, ft_leaves t !! b = Some o ∧ c ∈ children o.

(** What a walk from [a] has [visited] and what it still has in its [queue]. *)
Record Walking a t (visited queue : list Z) : Prop := {
  walk_nodup : NoDup (visited ++ queue);
  walk_alive : ∀ b, b ∈ visited ++ queue → ∃ o, ft_leaves t !! b = Some o ∧
    ∀ oa, ft_leaves t !! a = Some oa → (lo_serial oa ≤ lo_serial o)%nat;
  walk_from : ∀ b, b ∈ visited ++ queue → b = a ∨ ∃ p, p ∈ visited ∧ child t p b;
  walk_below : ∀ b, b ∈ visited ++ queue → rtc (child t) a b;
  walk_closed : ∀ b c, b ∈ visited → child t b c → c ∈ visited ++ queue;
}.

Lemma Walking_step a t visited q queue o :
  TreeOk t → is_Some (ft_leaves t !! a) → Walking a t visited (q :: queue) →
  ft_leaves t !! q = Some o →
  Walking a t (visited ++ [q]) (reverse (children o) ++ queue).
Proof.
  intros Hok [oa Ha] [W1 W2 W3 W4 W5] Hq.
  assert (Hperm : (visited ++ [q]) ++ reverse (children o) ++ queue ≡ₚ
    (visited ++ q :: queue) ++ children o).
  { rewrite (reverse_Permutation (children o)). solve_Permutation. }
  assert (Hnew : ∀ c, c ∈ children o → c ∉ visited ++ q :: queue).
  { intros c Hc Hin. destruct (ok_child _ Hok _ _ _ Hq Hc) as (oc & Hoc & Hser).
    destruct (W2 q) as (o' & Ho' & Hge); [apply elem_of_app; right; by left|].
    rewrite Hq in Ho'. simplify_eq. specialize (Hge _ Ha).
    destruct (W3 c Hin) as [->|(p & Hp & op & Hop & Hcp)]; [rewrite Ha in Hoc; simplify_eq; lia|].
    assert (p = q) as -> by by eapply ok_unique.
    apply NoDup_app in W1 as (_ & Hd & _). apply (Hd q Hp). by left. }
  assert (Hin : ∀ b, b ∈ (visited ++ [q]) ++ reverse (children o) ++ queue →
    b ∈ visited ++ q :: queue ∨ b ∈ children o).
  { intros b. rewrite Hperm, elem_of_app. done. }
  split.
  - rewrite Hperm. apply NoDup_app. split; [done|split; [|by eapply ok_nodup]].
    intros b Hb Hc. by eapply Hnew.
  - intros b [Hb|Hb]%Hin; [by apply W2|].
    destruct (ok_child _ Hok _ _ _ Hq Hb) as (oc & Hoc & Hser). exists oc. split; [done|].
    destruct (W2 q) as (o' & Ho' & Hge); [apply elem_of_app; right; by left|].
    rewrite Hq in Ho'. simplify_eq. intros oa' Hoa'. specialize (Hge _ Hoa'). lia.
  - intros b [Hb|Hb]%Hin.
    + destruct (W3 b Hb) as [?|(p & Hp & Hc)]; [by left|right]. exists p.
      split; [apply elem_of_app; by left|done].
    + right. exists q. split; [apply elem_of_app; right; by left|by exists o].
  - intros b [Hb|Hb]%Hin; [by apply W4|].
    eapply rtc_r; [apply (W4 q); apply elem_of_app; right; by left|by exists o].
  - intros b c [Hb|Hb]%elem_of_app Hc.
    + rewrite Hperm. apply elem_of_app. left. by eapply W5.
    + apply list_elem_of_singleton in Hb as ->. destruct Hc as (o' & Ho' & Hc). rewrite Hq in Ho'.
      simplify_eq. rewrite Hperm. apply elem_of_app. by right.
Qed.

Lemma Walking_length a t visited queue :
  Walking a t visited queue → (length (visited ++ queue) ≤ size (ft_leaves t))%nat.
Proof.
  intros [W1 W2 _ _ _]. rewrite <- size_dom.
  rewrite <- (size_list_to_set (C := gset Z)) by done. apply subseteq_size.
  intros b. rewrite elem_of_list_to_set, elem_of_dom. intros Hb.
  destruct (W2 _ Hb) as (o & Ho & _). by exists o.
Qed.

Lemma walk_ok a t fuel : ∀ visited queue,
  TreeOk t → is_Some (ft_leaves t !! a) → Walking a t visited queue →
  (size (ft_leaves t) ≤ length visited + fuel)%nat →
  ∃ rest, FileTree.walk fuel queue t = Ret rest ∧ Walking a t (visited ++ rest) [].
Proof.
  induction fuel as [|fuel IH]; intros visited queue Hok Ha Hw Hf.
  - destruct queue as [|q queue]; [exists []; by rewrite app_nil_r|].
    pose proof (Walking_length _ _ _ _ Hw) as Hl. rewrite length_app in Hl. cbn in Hl. lia.
  - destruct queue as [|q queue]; [exists []; by rewrite app_nil_r|]. cbn [FileTree.walk].
    destruct (walk_alive _ _ _ _ Hw q) as (o & Ho & _); [apply elem_of_app; right; by left|].
    unfold FileTree.leaf_at. rewrite Ho. cbn [mbind res_bind].
    destruct (IH (visited ++ [q]) (reverse (children o) ++ queue)) as (rest & E & Hw');
      [done|done|by apply Walking_step|rewrite length_app; cbn; lia|].
    unfold children in E. rewrite E. exists (q :: rest). split; [done|].
    by rewrite <- app_assoc in Hw'.
Qed.

(** The leaves below [a], each once. *)
Lemma subtree_ok a t :
  TreeOk t → is_Some (ft_leaves t !! a) →
  ∃ l, FileTree.subtree a t = Ret l ∧ NoDup l ∧
    (∀ b, b ∈ l ↔ rtc (child t) a b) ∧ (∀ b, b ∈ l → is_Some (ft_leaves t !! b)).
Proof.
  intros Hok Ha. destruct (walk_ok a t (size (ft_leaves t)) [] [a] Hok Ha) as (l & E & Hw).
  - split; cbn; [apply NoDup_singleton|..].
    + intros b ->%list_elem_of_singleton. destruct Ha as [o Ho]. exists o. split; [done|].
      intros oa Hoa. rewrite Ho in Hoa. by simplify_eq.
    + intros b ->%list_elem_of_singleton. by left.
    + intros b ->%list_elem_of_singleton. done.
    + by intros b c ?%elem_of_nil.
  - cbn. lia.
  - exists l. cbn in Hw. destruct Hw as [W1 W2 W3 W4 W5]. rewrite !app_nil_r in *.
    split; [done|split; [done|split]].
    + intros b. split; [apply W4|]. intros Hb.
      assert (Hal : a ∈ l).
      { unfold FileTree.subtree in E. destruct Ha as [o Ho].
        destruct (size (ft_leaves t)); cbn in E; [discriminate|]. inv_res. by left. }
      clear -W5 Hal Hb. revert Hal. induction Hb as [|x y z Hxy _ IH]; [done|]. intros Hx. apply IH. by eapply W5.
    + intros b Hb. destruct (W2 b Hb) as (o & ? & _). by exists o.
Qed.

(** Unregistering leaves takes away what the index has under their inodes. *)
Lemma unregister_all t l :
  let t' := foldl FileTree.unregister_current t l in
  ft_leaves t' = ft_leaves t ∧ ft_serial t' = ft_serial t ∧ ft_held t' = ft_held t ∧
  ft_root t' = ft_root t ∧ ft_cachePerShard t' = ft_cachePerShard t ∧ ft_grandTotal t' = ft_grandTotal t ∧
  ft_index t' ⊆ ft_index t ∧
  ∀ b o, b ∈ l → ft_leaves t !! b = Some o → ft_index t' !! LeafObject.GetServerInode b o = None.
Proof.
  revert t. induction l as [|x l IH]; intros t; cbn.
  { repeat split; try done. by intros b o ?%elem_of_nil. }
  destruct (IH (FileTree.unregister_current t x)) as (E1&E2&E3&E4&E5&E6&E7&E8).
  assert (G : ft_leaves (FileTree.unregister_current t x) = ft_leaves t ∧
    ft_index (FileTree.unregister_current t x) ⊆ ft_index t ∧
    ∀ o, ft_leaves t !! x = Some o →
      ft_index (FileTree.unregister_current t x) !! LeafObject.GetServerInode x o = None).
  { unfold FileTree.unregister_current. destruct (ft_leaves t !! x) as [o|]; [|done].
    split; [done|split; [apply delete_subseteq|]]. intros o' [= ->]. cbn. apply lookup_delete_eq. }
  destruct G as (G1 & G2 & G3).
  rewrite E1, E2, E3, E4, E5, E6. unfold FileTree.unregister_current at 1 2 3 4 5 6.
  split; [by case_match|]. split; [by case_match|]. split; [by case_match|]. split; [by case_match|].
  split; [by case_match|]. split; [by case_match|]. split; [by etransitivity|].
  intros b o [->|Hb]%elem_of_cons Ho; [|apply E8; [done|by rewrite G1]].
  destruct (ft_index (foldl _ _ l) !! _) as [w|] eqn:Ew; [|done].
  eapply lookup_weaken in Ew; [|exact E7]. by rewrite (G3 _ Ho) in Ew.
Qed.

(** *** The operations keep the order *)

(** Replacing a leaf by one with the same place in the tree. *)
Lemma TreeOk_set a o o' t :
  TreeOk t → ft_leaves t !! a = Some o → lo_serial o' = lo_serial o → lo_tree o' = lo_tree o →
  (∀ c, c ∈ children o' → c ∈ children o) → NoDup (children o') →
  (0 ≤ lo_nlookup o' < 2 ^ 64 ∧ (lo_selfPin o' = true ↔ 0 < lo_nlookup o')) →
  (LeafObject.GetServerInode a o' = LeafObject.GetServerInode a o ∨
   ∀ i s, ft_index t !! i = Some (a, s) → lo_serial o ≠ s) →
  TreeOk (FileTree.set_leaf a o' t).
Proof.
  intros [H1 H2 H3 H4 H5 H6 H7 H8 H9] Ha Hs Ht Hc Hn Hr Hi.
  assert (G : ∀ b ob, <[a:=o']> (ft_leaves t) !! b = Some ob → ∃ ob', ft_leaves t !! b = Some ob' ∧
    lo_serial ob = lo_serial ob' ∧ lo_tree ob = lo_tree ob' ∧ ∀ c, c ∈ children ob → c ∈ children ob').
  { intros b ob [[-> <-]|[Hne Hb]]%lookup_insert_Some; [by exists o|by exists ob]. }
  assert (G' : ∀ b ob, ft_leaves t !! b = Some ob →
    ∃ ob', <[a:=o']> (ft_leaves t) !! b = Some ob' ∧ lo_serial ob' = lo_serial ob).
  { intros b ob Hb. destruct (decide (a = b)) as [->|].
    - rewrite Ha in Hb. simplify_eq. exists o'. by rewrite lookup_insert_eq.
    - exists ob. by rewrite lookup_insert_ne. }
  split; cbn.
  - destruct H1 as [r Hr']. destruct (G' _ _ Hr') as (? & ? & _). eauto.
  - intros b ob (ob' & Hb & -> & _)%G. eauto.
  - intros b ob (ob' & Hb & _ & -> & _)%G. eauto.
  - intros b ob c (ob' & Hb & Hser & _ & Hsub)%G Hin. destruct (H4 _ _ _ Hb (Hsub _ Hin)) as (oc & Hoc & ?).
    destruct (G' _ _ Hoc) as (oc' & ? & Hser'). exists oc'. split; [done|]. by rewrite Hser, Hser'.
  - intros b b' ob ob' c (x & Hb & _ & _ & Hsub)%G (x' & Hb' & _ & _ & Hsub')%G ? ?. eauto.
  - intros b ob [[-> <-]|[Hne Hb]]%lookup_insert_Some; eauto.
  - intros b ob [[-> <-]|[Hne Hb]]%lookup_insert_Some; eauto.
  - intros i b s Hib. destruct (H8 _ _ _ Hib) as [? G3]. split; [done|].
    intros ob [[-> <-]|[Hne Hb]]%lookup_insert_Some; [|eauto]. rewrite Hs.
    intros Heq. destruct Hi as [->|Hi]; [by eapply G3|]. by destruct (Hi _ _ Hib).
  - intros b Hb. destruct (H9 _ Hb) as [ob Hob]. destruct (G' _ _ Hob) as (? & ? & _). by eexists.
Qed.

Lemma NoLeak_set a o o' U t :
  ft_leaves t !! a = Some o → NoLeak U t →
  (∀ c, c ∈ children o → c ∈ children o' ∨ c ∈ U) → (lo_selfPin o = true → lo_selfPin o' = true ∨ a ∈ U) →
  NoLeak U (FileTree.set_leaf a o' t).
Proof.
  intros Ha H Hc Hp b Hb. assert (Hb' : is_Some (ft_leaves t !! b)).
  { destruct Hb as [ob Hb]. cbn in Hb. apply lookup_insert_Some in Hb as [[-> _]|[_ Hb]]; by eexists. }
  destruct (H b Hb') as [[Ho|[Ho|[(ob & Hob & Hob')|(p & op & Hop & Hin)]]]|Hin]; [..|by right].
  - left. by left.
  - left. right; by left.
  - destruct (decide (a = b)) as [->|].
    + rewrite Ha in Hob. simplify_eq. destruct (Hp Hob'); [left|by right].
      right; right; left. exists o'. cbn. by rewrite lookup_insert_eq.
    + left. right; right; left. exists ob. cbn. by rewrite lookup_insert_ne.
  - destruct (decide (a = p)) as [->|].
    + rewrite Ha in Hop. simplify_eq. destruct (Hc _ Hin); [left|by right].
      right; right; right. exists p, o'. cbn. by rewrite lookup_insert_eq.
    + left. right; right; right. exists p, op. cbn. by rewrite lookup_insert_ne.
Qed.

Lemma NoLeak_mono U V t : (∀ a, a ∈ U → a ∈ V) → NoLeak U t → NoLeak V t.
Proof. intros H HU a Ha. destruct (HU a Ha); auto. Qed.

(** The index alone does not matter to owners. *)
Lemma NoLeak_index U t m : NoLeak U t → NoLeak U (FileTree.with_index m t).
Proof. done. Qed.

Lemma TreeOk_index m t :
  TreeOk t → (∀ i a s, m !! i = Some (a, s) → (s < ft_serial t)%nat ∧
    ∀ o, ft_leaves t !! a = Some o → lo_serial o = s → LeafObject.GetServerInode a o = i) →
  TreeOk (FileTree.with_index m t).
Proof. intros [? ? ? ? ? ? ? _ ?] ?. by split. Qed.

Lemma TreeOk_unregister i t : TreeOk t → TreeOk (FileTree.UnregisterLeaf i t).
Proof.
  intros Hok. apply TreeOk_index; [done|]. intros j a s [_ Hj]%lookup_delete_Some.
  by eapply ok_index.
Qed.

Lemma TreeOk_register a o t :
  TreeOk t → ft_leaves t !! a = Some o →
  TreeOk (FileTree.RegisterLeaf (LeafObject.GetServerInode a o) a t).
Proof.
  intros Hok Ha. unfold FileTree.RegisterLeaf. rewrite Ha. apply TreeOk_index; [done|].
  intros i b s [[<- [= <- <-]]|[_ Hi]]%lookup_insert_Some; [|by eapply ok_index].
  split; [by eapply ok_serial|]. intros o' Ho' _. congruence.
Qed.

Lemma TreeOk_unregister_all t l : TreeOk t → TreeOk (foldl FileTree.unregister_current t l).
Proof.
  revert t. induction l as [|a l IH]; intros t Hok; cbn; [done|]. apply IH.
  unfold FileTree.unregister_current. by case_match; [apply TreeOk_unregister|].
Qed.

(** [AddRef], [SetServerInode] and the changes of the data. *)
Lemma AddRef_ok a o t :
  TreeOk t → NoLeak [] t → ft_leaves t !! a = Some o → lo_nlookup o < 2 ^ 64 - 1 →
  ∃ t', FileTree.AddRef a t = Ret t' ∧ TreeOk t' ∧ NoLeak [] t' ∧
    t' = FileTree.set_leaf a (LeafObject.with_refs (lo_nlookup o + 1) true o) t.
Proof.
  intros Hok Hl Ha Hmax. destruct (ok_refs _ Hok _ _ Ha) as [Hr Hp].
  assert (E : FileTree.AddRef a t =
    Ret (FileTree.set_leaf a (LeafObject.with_refs (lo_nlookup o + 1) true o) t)).
  { unfold FileTree.AddRef, FileTree.leaf_at. rewrite Ha. cbn [mbind res_bind].
    rewrite wrap_small by lia. case_match eqn:E; [done|]. apply Z.eqb_neq in E.
    by rewrite (proj2 Hp) by lia. }
  eexists. split; [exact E|split; [|split; [|done]]].
  - eapply TreeOk_set; try done; [exact (ok_nodup _ Hok a o Ha)|cbn; split; [lia|split; [lia|done]]|by left].
  - eapply NoLeak_set; try done; cbn; auto.
Qed.

Lemma set_data_ok a o d t :
  TreeOk t → NoLeak [] t → ft_leaves t !! a = Some o →
  TreeOk (FileTree.set_leaf a (LeafObject.with_data d o) t) ∧
  NoLeak [] (FileTree.set_leaf a (LeafObject.with_data d o) t).
Proof.
  intros Hok Hl Ha. split.
  - eapply TreeOk_set; try done; [exact (ok_nodup _ Hok a o Ha)|exact (ok_refs _ Hok a o Ha)|by left].
  - eapply NoLeak_set; try done; cbn; auto.
Qed.

Lemma SetServerInode_ok a o inode t :
  TreeOk t → NoLeak [] t → ft_leaves t !! a = Some o →
  ∃ t', FileTree.SetServerInode a inode t = Ret t' ∧ TreeOk t' ∧ NoLeak [] t' ∧
    ft_index t' !! LeafObject.GetServerInode a (LeafObject.with_inode inode o) = Some (a, lo_serial o).
Proof.
  intros Hok Hl Ha. destruct (ok_tree _ Hok _ _ Ha) as [Ht _].
  unfold FileTree.SetServerInode, FileTree.leaf_at. rewrite Ha. cbn [mbind res_bind]. rewrite Ht.
  set (t1 := FileTree.UnregisterLeaf _ t).
  assert (Hok1 : TreeOk t1) by by apply TreeOk_unregister.
  assert (Ha2 : ft_leaves (FileTree.set_leaf a (LeafObject.with_inode inode o) t1) !! a =
    Some (LeafObject.with_inode inode o)) by (cbn; by rewrite lookup_insert_eq).
  eexists. split; [done|]. split; [|split].
  - apply TreeOk_register; [|done]. eapply TreeOk_set; try done; [exact (ok_nodup _ Hok a o Ha)|exact (ok_refs _ Hok a o Ha)|].
    right. subst t1. cbn. intros i s [Hne Hi]%lookup_delete_Some Hs.
    apply Hne. by eapply (ok_index _ Hok).
  - unfold FileTree.RegisterLeaf. rewrite Ha2. apply NoLeak_index.
    eapply NoLeak_set; try done; cbn; auto.
  - unfold FileTree.RegisterLeaf. rewrite Ha2. cbn. by rewrite lookup_insert_eq.
Qed.

Lemma ReleaseRef_ok n a o t :
  TreeOk t → NoLeak [] t → ft_leaves t !! a = Some o → 0 < n ≤ lo_nlookup o →
  let o' := LeafObject.with_refs (lo_nlookup o - n) (bool_decide (n < lo_nlookup o)) o in
  ∃ t', FileTree.ReleaseRef n a t = Ret t' ∧ TreeOk t' ∧ NoLeak [] t' ∧
    shrunk (FileTree.set_leaf a o' t) t' ∧
    (n = lo_nlookup o → ¬ Owned a (FileTree.set_leaf a o' t) → ft_leaves t' !! a = None).
Proof.
  intros Hok Hl Ha Hn o'. destruct (ok_refs _ Hok _ _ Ha) as [Hr Hp].
  assert (Hok' : TreeOk (FileTree.set_leaf a o' t)).
  { eapply TreeOk_set; try done; [exact (ok_nodup _ Hok a o Ha)| |by left].
    cbn. rewrite bool_decide_eq_true. lia. }
  unfold FileTree.ReleaseRef, FileTree.leaf_at. rewrite Ha. cbn [mbind res_bind].
  rewrite (proj2 (Z.leb_le _ _)), wrap_small by lia. cbn [assert_that mbind res_bind].
  destruct (Z.eqb_spec (lo_nlookup o) n) as [E|E].
  - destruct (release_ok a (FileTree.set_leaf a o' t) []) as (t' & E' & ? & ? & ? & ?); [done| |].
    + eapply NoLeak_set; try done; [by eapply NoLeak_mono, Hl; intros ? ?%elem_of_nil|by left|].
      intros _. right. by left.
    + subst o'. rewrite bool_decide_false in * by lia. exists t'. naive_solver.
  - subst o'. rewrite bool_decide_true in * by lia. rewrite (proj2 Hp) by lia.
    eexists. split; [done|split; [done|split; [|split; [done|lia]]]].
    eapply NoLeak_set; try done; cbn; auto.
Qed.

(** A new leaf, which its maker holds. *)
Lemma TreeOk_new a leaf t :
  TreeOk t → ft_leaves t !! a = None → a ≠ 0 → lo_serial leaf = ft_serial t →
  lo_children leaf = [] → lo_tree leaf = true → lo_nlookup leaf = 0 → lo_selfPin leaf = false →
  TreeOk (FileTree.with_serial (S (ft_serial t)) (FileTree.set_leaf a leaf t)).
Proof.
  intros [H1 H2 H3 H4 H5 H6 H7 H8 H9] Ha Ha0 Hs Hc Ht Hn Hp.
  assert (G : ∀ b ob, <[a:=leaf]> (ft_leaves t) !! b = Some ob →
    b = a ∧ ob = leaf ∨ ft_leaves t !! b = Some ob).
  { intros b ob [[-> <-]|[_ ?]]%lookup_insert_Some; auto. }
  assert (Hnil : ∀ c, c ∉ children leaf) by (intros c; unfold children; rewrite Hc; apply not_elem_of_nil).
  assert (G' : ∀ b, is_Some (ft_leaves t !! b) → <[a:=leaf]> (ft_leaves t) !! b = ft_leaves t !! b).
  { intros b [ob Hb]. rewrite lookup_insert_ne; [done|]. congruence. }
  split; cbn.
  - destruct H1 as [o Ho]. exists o. by rewrite G' by eauto.
  - intros b ob [[-> ->]|Hb]%G; [lia|]. specialize (H2 _ _ Hb). lia.
  - intros b ob [[-> ->]|Hb]%G; eauto.
  - intros b ob c [[-> ->]|Hb]%G Hin; [by destruct (Hnil c)|].
    destruct (H4 _ _ _ Hb Hin) as (oc & Hoc & ?). exists oc. by rewrite G' by eauto.
  - intros b b' ob ob' c [[-> ->]|Hb]%G [[-> ->]|Hb']%G Hin Hin'; eauto;
      by destruct (Hnil c).
  - intros b ob [[-> ->]|Hb]%G; [unfold children; rewrite Hc; constructor|eauto].
  - intros b ob [[-> ->]|Hb]%G; [rewrite Hn, Hp; split; [lia|split; [done|lia]]|eauto].
  - intros i b s Hi. destruct (H8 _ _ _ Hi) as [Hlt G3]. split; [lia|].
    intros ob [[-> ->]|Hb]%G Hser; [lia|eauto].
  - intros b Hb. destruct (H9 _ Hb) as [ob Hob]. exists ob. by rewrite G' by eauto.
Qed.

(** A leaf without a parent gets one. *)
Lemma TreeOk_link parent a o o' leaf t :
  TreeOk t → ft_leaves t !! parent = Some o → ft_leaves t !! a = Some leaf → parent ≠ a →
  (lo_serial o < lo_serial leaf)%nat → (∀ b ob, ft_leaves t !! b = Some ob → a ∉ children ob) →
  lo_serial o' = lo_serial o → lo_tree o' = lo_tree o → lo_nlookup o' = lo_nlookup o →
  lo_selfPin o' = lo_selfPin o → lo_serverInode o' = lo_serverInode o →
  children o' ≡ₚ a :: children o → TreeOk (FileTree.set_leaf parent o' t).
Proof.
  intros Hok Hpar Ha Hne Hlt Hfree Hs Ht Hn Hp Hi Hc. pose proof Hok as [H1 H2 H3 H4 H5 H6 H7 H8 H9].
  assert (G : ∀ b ob, <[parent:=o']> (ft_leaves t) !! b = Some ob →
    ∃ ob', ft_leaves t !! b = Some ob' ∧ lo_serial ob = lo_serial ob' ∧ lo_tree ob = lo_tree ob' ∧
      ∀ c, c ∈ children ob → b = parent ∧ c = a ∨ c ∈ children ob').
  { intros b ob [[-> <-]|[_ ?]]%lookup_insert_Some; [exists o|exists ob; auto]. split; [done|].
    split; [done|split; [done|]]. intros c. rewrite Hc, elem_of_cons. intros [?|?]; auto. }
  assert (G' : ∀ b ob, ft_leaves t !! b = Some ob →
    ∃ ob', <[parent:=o']> (ft_leaves t) !! b = Some ob' ∧ lo_serial ob' = lo_serial ob).
  { intros b ob Hb. destruct (decide (parent = b)) as [->|].
    - rewrite Hpar in Hb. simplify_eq. exists o'. by rewrite lookup_insert_eq.
    - exists ob. by rewrite lookup_insert_ne. }
  split; cbn.
  - destruct H1 as [r Hr']. destruct (G' _ _ Hr') as (? & ? & _). eauto.
  - intros b ob (ob' & Hb & -> & _)%G. eauto.
  - intros b ob (ob' & Hb & _ & -> & _)%G. eauto.
  - intros b ob c (ob' & Hb & Hser & _ & Hsub)%G Hin. destruct (Hsub _ Hin) as [[-> ->]|Hin'].
    + exists leaf. rewrite lookup_insert_ne by done. split; [done|]. rewrite Hser. congruence.
    + destruct (H4 _ _ _ Hb Hin') as (oc & Hoc & ?). destruct (G' _ _ Hoc) as (oc' & ? & Hser').
      exists oc'. split; [done|]. by rewrite Hser, Hser'.
  - intros b b' ob ob' c (x & Hb & _ & _ & Hsub)%G (x' & Hb' & _ & _ & Hsub')%G Hin Hin'.
    destruct (Hsub _ Hin) as [[-> ->]|Hx], (Hsub' _ Hin') as [[-> Hca]|Hx']; try done;
      [by destruct (Hfree _ _ Hb' Hx')|subst c; by destruct (Hfree _ _ Hb Hx)|by eapply H5].
  - intros b ob [[-> <-]|[_ Hb]]%lookup_insert_Some; [|eauto]. rewrite Hc. constructor; [by eapply Hfree|eauto].
  - intros b ob [[-> <-]|[_ Hb]]%lookup_insert_Some; [rewrite Hn, Hp|]; eauto.
  - intros i b s Hib. destruct (H8 _ _ _ Hib) as [? G3]. split; [done|].
    intros ob [[-> <-]|[_ Hb]]%lookup_insert_Some; [|eauto].
    rewrite Hs. intros Hser. specialize (G3 _ Hpar Hser). unfold LeafObject.GetServerInode in *. by rewrite Hi.
  - intros b Hb. destruct (H9 _ Hb) as [ob Hob]. destruct (G' _ _ Hob) as (? & ? & _). by eexists.
Qed.

Lemma AddChild_ok parent name type sz a o t :
  TreeOk t → NoLeak [] t → ft_leaves t !! parent = Some o → ft_leaves t !! a = None → a ≠ 0 →
  ∃ t' c, FileTree.AddChild parent name type sz a t = Ret (t', c) ∧ TreeOk t' ∧ NoLeak [] t' ∧
    (∃ o', ft_leaves t' !! parent = Some o' ∧ (name, c) ∈ lo_children o' ∧
      lo_nlookup o' = lo_nlookup o ∧ lo_serial o' = lo_serial o) ∧
    ∀ b ob, b ≠ parent → ft_leaves t !! b = Some ob → ft_leaves t' !! b = Some ob.
Proof.
  intros Hok Hl Ho Ha Ha0. unfold FileTree.AddChild, FileTree.leaf_at. rewrite Ho. cbn [mbind res_bind].
  destruct (StringMap.find name (lo_children o)) as [c|] eqn:Ef.
  { eexists _, c. split; [done|]. split; [|split; [done|split]].
    - destruct Hok as [H1 H2 H3 H4 H5 H6 H7 H8 H9]. split; try done; cbn.
      + intros b ob Hb. specialize (H2 _ _ Hb). lia.
      + intros i b s Hi. destruct (H8 _ _ _ Hi). split; [lia|done].
    - exists o. split; [done|split; [by apply find_elem|done]].
    - done. }
  destruct (ok_tree _ Hok _ _ Ho) as [Ht _]. assert (Hpa : parent ≠ a) by congruence.
  set (leaf := LeafObject.SetTree (lo_tree o) _). set (o' := LeafObject.with_children _ o). rewrite Ht.
  pose proof (TreeOk_new a leaf t Hok Ha Ha0 eq_refl eq_refl Ht eq_refl eq_refl) as Hok0.
  set (t0 := FileTree.with_serial (S (ft_serial t)) (FileTree.set_leaf a leaf t)) in Hok0.
  change (FileTree.with_serial _ (FileTree.set_leaf parent o' _)) with (FileTree.set_leaf parent o' t0).
  assert (Hc' : children o' ≡ₚ a :: children o) by (unfold children, o'; cbn; by rewrite (find_insert_perm _ _ _ Ef)).
  assert (Ho0 : ft_leaves t0 !! parent = Some o) by (cbn; by rewrite lookup_insert_ne).
  assert (Ha1 : ft_leaves t0 !! a = Some leaf) by (cbn; by rewrite lookup_insert_eq).
  assert (Ha2 : ft_leaves (FileTree.set_leaf parent o' t0) !! a = Some leaf) by (cbn; rewrite lookup_insert_ne; done).
  do 2 eexists. split; [done|]. split; [|unfold FileTree.RegisterLeaf; rewrite Ha2; split; [|split]].
  - apply TreeOk_register; [|done]. eapply (TreeOk_link parent a o o' leaf t0); try done.
    + by eapply (ok_serial _ Hok).
    + intros b ob Hb Hin. cbn in Hb. apply lookup_insert_Some in Hb as [[_ <-]|[_ Hb]].
      * by apply elem_of_nil in Hin.
      * destruct (ok_child _ Hok _ _ _ Hb Hin) as (oc & Hoc & _). congruence.
  - apply NoLeak_index. intros b Hb. left.
    destruct (decide (b = a)) as [->|Hba].
    { right; right; right. exists parent, o'. split; [cbn; apply lookup_insert_eq|rewrite Hc'; by left]. }
    assert (HN : NoLeak [a] (FileTree.set_leaf parent o' t0)); [|by destruct (HN b Hb) as [?|?%list_elem_of_singleton]].
    eapply NoLeak_set; [exact Ho0| |intros c Hc; left; rewrite Hc'; by right|by left].
    intros x [ox Hx]. cbn in Hx. apply lookup_insert_Some in Hx as [[<- _]|[Hxa Hx]]; [by right; left|left].
    destruct (Hl x) as [[?|[?|[(ob & ? & ?)|(p & op & Hp & ?)]]]|?%elem_of_nil]; [by eexists|..|done].
    + by left.
    + by right; left.
    + right; right; left. exists ob. cbn. by rewrite lookup_insert_ne.
    + right; right; right. exists p, op. cbn. rewrite lookup_insert_ne; [done|congruence].
  - exists o'. cbn. rewrite lookup_insert_eq. split; [done|split; [|done]].
    unfold o'. cbn. rewrite (find_insert_perm _ _ _ Ef). by left.
  - intros b ob Hb Hob. cbn. rewrite !lookup_insert_ne by congruence. done.
Qed.

Lemma find_erase_none {A} k (m : list (string * A)) : StringMap.find k m = None → StringMap.erase k m = m.
Proof. induction m as [|[k' a] m IH]; cbn; [done|]. case_bool_decide; [done|]. intros Hm. by rewrite IH. Qed.

(** A leaf that nobody holds, taken out of the children of its parent, has no owner. *)
Lemma unlinked_unowned parent a o o' oa t t1 :
  TreeOk t → ft_leaves t1 = ft_leaves t → ft_held t1 = ft_held t → ft_root t1 = ft_root t →
  ft_leaves t !! parent = Some o → a ∈ children o → a ∉ children o' → parent ≠ a →
  ft_leaves t !! a = Some oa → lo_selfPin oa = false → a ∉ ft_held t → a ≠ ft_root t →
  ¬ Owned a (FileTree.set_leaf parent o' t1).
Proof.
  intros Hok E1 E3 E4 Ho Hin Hout Hne Ha Hp Hh Hr [?|[?|[(ob & Hob & ?)|(b & ob & Hob & Hc)]]].
  - cbn in *. congruence.
  - cbn in *. congruence.
  - cbn in Hob. rewrite lookup_insert_ne, E1 in Hob by done. congruence.
  - cbn in Hob. apply lookup_insert_Some in Hob as [[_ <-]|[Hb Hob]]; [done|]. rewrite E1 in Hob.
    apply Hb. by eapply (ok_unique _ Hok).
Qed.

(** The leaf that [RemoveChild] takes out, and what becomes of the ones below. *)
Lemma RemoveChild_ok parent name o t :
  TreeOk t → NoLeak [] t → ft_leaves t !! parent = Some o →
  ∃ t', FileTree.RemoveChild parent name t = Ret t' ∧ TreeOk t' ∧ NoLeak [] t' ∧
    ft_root t' = ft_root t ∧ (lo_selfPin o = true → is_Some (ft_leaves t' !! parent)) ∧
    (∀ b ob, b ≠ parent → ft_leaves t !! b = Some ob → lo_selfPin ob = true ∨ b ∈ ft_held t ∨ b = ft_root t →
      ft_leaves t' !! b = Some ob) ∧
    (∀ b ob, b ≠ parent → ft_leaves t' !! b = Some ob → ft_leaves t !! b = Some ob) ∧
    (∀ o', ft_leaves t' !! parent = Some o' →
      o' = LeafObject.with_children (StringMap.erase name (lo_children o)) o) ∧
    ∀ a, StringMap.find name (lo_children o) = Some a →
      (∀ b ob, rtc (child t) a b → ft_leaves t !! b = Some ob →
        ft_index t' !! LeafObject.GetServerInode b ob = None) ∧
      (∀ oa, ft_leaves t !! a = Some oa → lo_selfPin oa = false → a ∉ ft_held t → a ≠ ft_root t →
        ft_leaves t' !! a = None).
Proof.
  intros Hok Hl Ho. unfold FileTree.RemoveChild, FileTree.leaf_at. rewrite Ho. cbn [mbind res_bind].
  destruct (StringMap.find name (lo_children o)) as [a|] eqn:Ef.
  2: { exists t. split; [done|split; [done|split; [done|split; [done|split; [by eexists|split; [done|split; [done|split; [|done]]]]]]]].
       intros o' Ho'. rewrite Ho in Ho'. simplify_eq. by rewrite (find_erase_none _ _ Ef); destruct o'. }
  set (o' := LeafObject.with_children _ o).
  assert (Hc : children o ≡ₚ a :: children o').
  { unfold children, o'. cbn. by rewrite (find_erase_perm _ _ _ Ef) at 1. }
  assert (Hain : a ∈ children o) by (rewrite Hc; by left).
  destruct (ok_child _ Hok _ _ _ Ho Hain) as (oa & Hoa & Hser).
  destruct (ok_tree _ Hok _ _ Ho) as [Ht _]. rewrite Ht.
  destruct (subtree_ok a t Hok) as (below & -> & _ & Hbelow & _); [by eexists|]. cbn [mbind res_bind].
  destruct (unregister_all t below) as (E1&E2&E3&E4&E5&E6&E7&E8).
  pose proof (TreeOk_unregister_all t below Hok) as Hok1.
  set (t1 := foldl FileTree.unregister_current t below) in *.
  assert (Hnd : NoDup (a :: children o')) by (rewrite <- Hc; exact (ok_nodup _ Hok _ _ Ho)).
  apply NoDup_cons in Hnd as [Ha' Hnd'].
  assert (Hok2 : TreeOk (FileTree.set_leaf parent o' t1)).
  { eapply (TreeOk_set parent o o' t1); try done; [by rewrite E1| |exact (ok_refs _ Hok _ _ Ho)|by left].
    intros c Hin. rewrite Hc. by right. }
  destruct (release_ok a (FileTree.set_leaf parent o' t1) []) as (t' & E & Hok' & Hl' & Hs & Hdead); [done| |].
  { eapply NoLeak_set; [by rewrite E1| |intros c; rewrite Hc, elem_of_cons; intros [->|?]; [right; by left|by left]|by left].
    intros b Hb. rewrite E1 in Hb. destruct (Hl b Hb) as [Hown|?%elem_of_nil]; [left|done].
    unfold Owned. by rewrite E1, E3, E4. }
  assert (Hpa : parent ≠ a) by (intros ->; rewrite Ho in Hoa; simplify_eq; lia).
  destruct Hs as (S1 & S2 & S3 & S4 & S5 & S6 & _).
  exists t'. split; [done|split; [done|split; [done|]]].
  split; [by rewrite S6; cbn|]. split; [|split; [|split; [|split]]].
  - intros Hp. exists o'. apply S2; [cbn; apply lookup_insert_eq|by left].
  - intros b ob Hb Hob Hk. apply S2; [cbn; by rewrite lookup_insert_ne, E1|cbn; by rewrite E3, E4].
  - intros b ob Hb Hob. apply S1 in Hob. cbn in Hob. by rewrite lookup_insert_ne, E1 in Hob.
  - intros ob Hob. apply S1 in Hob. cbn in Hob. rewrite lookup_insert_eq in Hob. by simplify_eq.
  - intros a' [= <-]. split.
    + intros b ob Hb Hob. rewrite S5. cbn. apply E8; [by apply Hbelow|done].
    + intros oa' Hoa' Hp Hh Hr. rewrite Hoa in Hoa'. simplify_eq. apply Hdead.
      by apply (unlinked_unowned parent a o o' oa' t t1).
Qed.

Lemma remove_one_elem a b l : b ∈ l → b = a ∨ b ∈ FileTree.remove_one a l.
Proof.
  induction l as [|x l IH]; cbn; [by intros ?%elem_of_nil|].
  intros [->|Hb]%elem_of_cons; case_bool_decide; subst; [by left|right; by left|by right|].
  destruct (IH Hb); [by left|right; by right].
Qed.

Lemma remove_one_subset a b l : b ∈ FileTree.remove_one a l → b ∈ l.
Proof.
  induction l as [|x l IH]; cbn; [done|]. case_bool_decide; [intros; by right|].
  intros [->|Hb]%elem_of_cons; [by left|right; auto].
Qed.

Lemma hold_ok a t :
  TreeOk t → NoLeak [] t → is_Some (ft_leaves t !! a) →
  TreeOk (FileTree.hold a t) ∧ NoLeak [] (FileTree.hold a t).
Proof.
  intros [H1 H2 H3 H4 H5 H6 H7 H8 H9] Hl Ha. split.
  - split; try done. cbn. intros b [->|Hb]%elem_of_cons; auto.
  - intros b Hb. left. destruct (Hl b Hb) as [[?|[?|[?|?]]]|?%elem_of_nil]; [..|done].
    + by left.
    + right; left. cbn. by right.
    + by right; right; left.
    + by right; right; right.
Qed.

Lemma unhold_ok a t :
  TreeOk t → NoLeak [] t →
  ∃ t', FileTree.unhold a t = Ret t' ∧ TreeOk t' ∧ NoLeak [] t' ∧
    shrunk (FileTree.with_held (FileTree.remove_one a (ft_held t)) t) t'.
Proof.
  intros Hok Hl. destruct (release_ok a (FileTree.with_held (FileTree.remove_one a (ft_held t)) t) [])
    as (t' & ? & ? & ? & ? & _); [..|by exists t'].
  - destruct Hok as [H1 H2 H3 H4 H5 H6 H7 H8 H9]. split; try done. cbn.
    intros b Hb%remove_one_subset. auto.
  - intros b Hb. destruct (Hl b Hb) as [[?|[Hin|[?|?]]]|?%elem_of_nil]; [..|done].
    + left. by left.
    + destruct (remove_one_elem a _ _ Hin) as [->|?]; [right; by left|left; right; by left].
    + left. by right; right; left.
    + left. by right; right; right.
Qed.

Lemma TreeOk_accounts shards total t : TreeOk t → TreeOk (FileTree.with_accounts shards total t).
Proof. by intros [? ? ? ? ? ? ? ? ?]. Qed.

(** *** Histories *)

(** What happens to a tree.  A new leaf is put where no leaf is; the kernel forgets no
    more references than it has, and only those of leaves that [forgets] allows. *)
Inductive tree_step (forgets : Z → Prop) : relation (FileTree P J) :=
  | step_add t t' parent name type sz a c :
      is_Some (ft_leaves t !! parent) → ft_leaves t !! a = None → a ≠ 0 →
      FileTree.AddChild parent name type sz a t = Ret (t', c) → tree_step forgets t t'
  | step_remove t t' parent name :
      is_Some (ft_leaves t !! parent) →
      FileTree.RemoveChild parent name t = Ret t' → tree_step forgets t t'
  | step_inode t t' a inode :
      is_Some (ft_leaves t !! a) →
      FileTree.SetServerInode a inode t = Ret t' → tree_step forgets t t'
  | step_addref t t' a o :
      ft_leaves t !! a = Some o → lo_nlookup o < 2 ^ 64 - 1 →
      FileTree.AddRef a t = Ret t' → tree_step forgets t t'
  | step_release t t' a o n :
      forgets a → ft_leaves t !! a = Some o → 0 < n ≤ lo_nlookup o →
      FileTree.ReleaseRef n a t = Ret t' → tree_step forgets t t'
  | step_hold t a : is_Some (ft_leaves t !! a) → tree_step forgets t (FileTree.hold a t)
  | step_unhold t t' a : FileTree.unhold a t = Ret t' → tree_step forgets t t'
  | step_data t a o d shards total :
      ft_leaves t !! a = Some o →
      tree_step forgets t (FileTree.with_accounts shards total
        (FileTree.set_leaf a (LeafObject.with_data d o) t)).

Definition InOrder t : Prop := TreeOk t ∧ NoLeak [] t.

Lemma tree_step_in_order forgets t t' : InOrder t → tree_step forgets t t' → InOrder t'.
Proof.
  intros [Hok Hl] H. destruct H as [t t' parent name type sz a c [o Ho] Ha Ha0 E|t t' parent name [o Ho] E
    |t t' a inode [o Ho] E|t t' a o Ho Hn E|t t' a o n _ Ho Hn E|t a Ha|t t' a E|t a o d shards total Ho].
  - destruct (AddChild_ok parent name type sz a o t Hok Hl Ho Ha Ha0) as (t2 & c2 & E2 & ? & ? & _).
    rewrite E in E2. by simplify_eq.
  - destruct (RemoveChild_ok parent name o t Hok Hl Ho) as (t2 & E2 & ? & ? & _).
    rewrite E in E2. by simplify_eq.
  - destruct (SetServerInode_ok a o inode t Hok Hl Ho) as (t2 & E2 & ? & ? & _).
    rewrite E in E2. by simplify_eq.
  - destruct (AddRef_ok a o t Hok Hl Ho Hn) as (t2 & E2 & ? & ? & _). rewrite E in E2. by simplify_eq.
  - destruct (ReleaseRef_ok n a o t Hok Hl Ho Hn) as (t2 & E2 & ? & ? & _). rewrite E in E2. by simplify_eq.
  - by apply hold_ok.
  - destruct (unhold_ok a t Hok Hl) as (t2 & E2 & ? & ? & _). rewrite E in E2. by simplify_eq.
  - destruct (set_data_ok a o d t Hok Hl Ho) as [? ?]. split; [by apply TreeOk_accounts|done].
Qed.

Lemma make_in_order name a : a ≠ 0 → InOrder (FileTree.make name a).
Proof.
  intros Ha. split; [split; cbn|].
  - eexists. apply lookup_insert_eq.
  - intros b o [<- <-]%lookup_singleton_Some. cbn. lia.
  - intros b o [<- <-]%lookup_singleton_Some. done.
  - intros b o c [<- <-]%lookup_singleton_Some. by intros ?%elem_of_nil.
  - intros b b' o o' c [<- <-]%lookup_singleton_Some _. by intros ?%elem_of_nil.
  - intros b o [<- <-]%lookup_singleton_Some. constructor.
  - intros b o [<- <-]%lookup_singleton_Some. cbn. lia.
  - intros i b s Hi. by rewrite lookup_empty in Hi.
  - by intros b ?%elem_of_nil.
  - intros b [o Hb]. cbn in Hb. apply lookup_singleton_Some in Hb as [<- _]. left. by left.
Qed.

Lemma reachable_in_order forgets name a t :
  a ≠ 0 → rtc (tree_step forgets) (FileTree.make name a) t → InOrder t.
Proof.
  intros Ha. apply rtc_invariant; [by apply make_in_order|]. intros x y. apply tree_step_in_order.
Qed.


(** a lookup by server inode never gives a leaf that has been destroyed, nor one with
    another inode; and a leaf that was just given an inode is found by it, unless it is
    the root's. *)
Theorem find_by_inode forgets name root t :
  root ≠ 0 → rtc (tree_step forgets) (FileTree.make name root) t →
  (∀ inode, ∃ r, FileTree.FindLeafByServerInode inode t = Ret r ∧
     ∀ a, r = Some a → ∃ o, ft_leaves t !! a = Some o ∧ LeafObject.GetServerInode a o = inode) ∧
  ∀ a o inode, ft_leaves t !! a = Some o → inode ≠ 0 → a ≠ ft_root t →
  ∃ t', FileTree.SetServerInode a inode t = Ret t' ∧
    ∀ oroot, ft_leaves t !! ft_root t = Some oroot → LeafObject.GetServerInode (ft_root t) oroot ≠ inode →
    FileTree.FindLeafByServerInode inode t' = Ret (Some a).
Proof.
  intros Hr H. destruct (reachable_in_order _ _ _ _ Hr H) as [Hok Hl]. split.
  - intros inode. destruct (ok_root _ Hok) as [oroot Hroot].
    unfold FileTree.FindLeafByServerInode, FileTree.leaf_at. rewrite Hroot. cbn [mbind res_bind].
    case_match eqn:E; eexists; (split; [done|]).
    + intros a [= <-]. apply Z.eqb_eq in E. eauto.
    + intros a Ha. apply bind_Some in Ha as ([b s] & Hi & Hlock). unfold FileTree.lock in Hlock. cbn in Hlock.
      destruct (ft_leaves t !! b) as [o|] eqn:Eb; [|done]. case_bool_decide; [|done]. simplify_eq.
      exists o. split; [done|]. by eapply (ok_index _ Hok).
  - intros a o inode Ha Hi Hne. destruct (ok_tree _ Hok _ _ Ha) as [Ht _].
    unfold FileTree.SetServerInode, FileTree.leaf_at at 1. rewrite Ha. cbn [mbind res_bind]. rewrite Ht.
    eexists. split; [done|]. intros oroot Hroot Hin.
    assert (EI : LeafObject.GetServerInode a (LeafObject.with_inode inode o) = inode).
    { unfold LeafObject.GetServerInode. cbn. by rewrite (proj2 (Z.eqb_neq inode 0)). }
    rewrite EI. unfold FileTree.RegisterLeaf. cbn [ft_leaves FileTree.set_leaf FileTree.with_leaves].
    rewrite lookup_insert_eq. unfold FileTree.FindLeafByServerInode, FileTree.leaf_at. cbn.
    rewrite (lookup_insert_ne _ a (ft_root t)) by exact Hne. rewrite Hroot. cbn.
    rewrite (proj2 (Z.eqb_neq _ _)) by congruence. rewrite lookup_insert_eq. cbn.
    unfold FileTree.lock. cbn. by rewrite lookup_insert_eq, bool_decide_true by done.
Qed.

(** [RemoveChild] takes the child out of the tree and all leaves below it out of the
    index; those that the kernel refers to or a job holds stay alive, and the child is
    destroyed if nobody holds it. *)
Theorem removed_child_unreachable forgets name root t parent child_name o a :
  root ≠ 0 → rtc (tree_step forgets) (FileTree.make name root) t →
  ft_leaves t !! parent = Some o → StringMap.find child_name (lo_children o) = Some a →
  ∃ t', FileTree.RemoveChild parent child_name t = Ret t' ∧
    (∀ o', ft_leaves t' !! parent = Some o' → a ∉ children o') ∧
    (∀ b ob, rtc (child t) a b → ft_leaves t !! b = Some ob → b ≠ ft_root t →
      FileTree.FindLeafByServerInode (LeafObject.GetServerInode b ob) t' ≠ Ret (Some b)) ∧
    (∀ b ob, b ≠ parent → ft_leaves t !! b = Some ob → 0 < lo_nlookup ob ∨ b ∈ ft_held t →
      ft_leaves t' !! b = Some ob) ∧
    (∀ oa, ft_leaves t !! a = Some oa → lo_nlookup oa = 0 → a ∉ ft_held t → a ≠ ft_root t →
      ft_leaves t' !! a = None).
Proof.
  intros Hr H Ho Ef. destruct (reachable_in_order _ _ _ _ Hr H) as [Hok Hl].
  destruct (RemoveChild_ok parent child_name o t Hok Hl Ho) as (t' & E & Hok' & _ & Hroot' & _ & Hkeep & Hold & Hpar & Ha).
  destruct (Ha a Ef) as [Hidx Hdead]. exists t'. split; [done|]. split; [|split; [|split]].
  - intros o' Ho'. rewrite (Hpar _ Ho'). unfold children. cbn.
    pose proof (ok_nodup _ Hok _ _ Ho) as Hn. unfold children in Hn.
    rewrite (find_erase_perm _ _ _ Ef) in Hn. by apply NoDup_cons in Hn as [? _].
  - intros b ob Hb Hob Hbr Hfind. destruct (ok_root _ Hok') as [oroot Hroot].
    unfold FileTree.FindLeafByServerInode, FileTree.leaf_at in Hfind. rewrite Hroot in Hfind.
    cbn [mbind res_bind] in Hfind. rewrite (Hidx b ob Hb Hob) in Hfind.
    case_match; inv_res; congruence.
  - intros b ob Hb Hob Hk. apply Hkeep; [done..|]. destruct Hk as [Hn|]; [left|by right; left].
    destruct (ok_refs _ Hok _ _ Hob) as [_ Hp]. by apply Hp.
  - intros oa Hoa Hn Hh Hroot. eapply Hdead; [done| |done..].
    destruct (ok_refs _ Hok _ _ Hoa) as [_ Hp]. destruct (lo_selfPin oa); [|done].
    specialize (proj1 Hp eq_refl). lia.
Qed.

(** *** References *)

(** A step that forgets no reference to [a] keeps it alive, with all its references. *)
Lemma step_keeps_referred forgets a t t' o :
  ¬ forgets a → InOrder t → tree_step forgets t t' → ft_leaves t !! a = Some o → 0 < lo_nlookup o →
  ∃ o', ft_leaves t' !! a = Some o' ∧ lo_serial o' = lo_serial o ∧ lo_nlookup o ≤ lo_nlookup o'.
Proof.
  intros Hf [Hok Hl] H Ha Hn. pose proof (proj2 (proj2 (ok_refs _ Hok _ _ Ha)) Hn) as Hp.
  destruct H as [t t' parent name type sz b c [op Ho] Hb Hb0 E|t t' parent name [op Ho] E
    |t t' b inode [ob Ho] E|t t' b ob Ho Hm E|t t' b ob n Hfb Ho Hm E|t b Hb|t t' b E|t b ob d shards total Ho].
  - destruct (AddChild_ok parent name type sz b op t Hok Hl Ho Hb Hb0)
      as (t2 & c2 & E2 & _ & _ & (o' & Ho' & _ & Hn' & Hs') & Hold).
    rewrite E in E2. simplify_eq. destruct (decide (a = parent)) as [->|Hne].
    + rewrite Ha in Ho. simplify_eq. exists o'. split; [done|split; [done|lia]].
    + exists o. split; [by apply Hold|done].
  - destruct (RemoveChild_ok parent name op t Hok Hl Ho) as (t2 & E2 & Hok2 & _ & _ & Hpar' & Hkeep & _ & Hpar & _).
    rewrite E in E2. simplify_eq. destruct (decide (a = parent)) as [->|Hne].
    + rewrite Ha in Ho. simplify_eq.
      destruct (Hpar' Hp) as [o' Ho']. exists o'. split; [done|]. by rewrite (Hpar _ Ho').
    + exists o. split; [apply Hkeep; auto|done].
  - unfold FileTree.SetServerInode, FileTree.leaf_at in E. rewrite Ho in E. inv_res.
    destruct (ok_tree _ Hok _ _ Ho) as [-> _]. unfold FileTree.RegisterLeaf. cbn.
    rewrite lookup_insert_eq. cbn. destruct (decide (a = b)) as [->|Hne].
    + rewrite Ha in Ho. simplify_eq. eexists. by rewrite lookup_insert_eq.
    + exists o. by rewrite lookup_insert_ne.
  - destruct (AddRef_ok b ob t Hok Hl Ho Hm) as (t2 & E2 & _ & _ & ->). rewrite E in E2. simplify_eq. cbn.
    destruct (decide (a = b)) as [->|Hne].
    + rewrite Ha in Ho. simplify_eq. eexists. rewrite lookup_insert_eq. split; [done|]. cbn. split; [done|lia].
    + exists o. by rewrite lookup_insert_ne.
  - destruct (decide (a = b)) as [->|Hne]; [done|].
    destruct (ReleaseRef_ok n b ob t Hok Hl Ho Hm) as (t2 & E2 & _ & _ & (_ & S2 & _) & _).
    rewrite E in E2. simplify_eq. exists o. split; [|done].
    apply S2; [cbn; by rewrite lookup_insert_ne|by left].
  - by exists o.
  - destruct (unhold_ok b t Hok Hl) as (t2 & E2 & _ & _ & (_ & S2 & _)). rewrite E in E2. simplify_eq.
    exists o. split; [apply S2; [done|by left]|done].
  - cbn. destruct (decide (a = b)) as [->|Hne].
    + rewrite Ha in Ho. simplify_eq. eexists. by rewrite lookup_insert_eq.
    + exists o. by rewrite lookup_insert_ne.
Qed.

(** C22: as long as the kernel refers to a leaf it stays alive, at its address and with at
    least these references, whatever happens to the tree around it; and the last forget
    of a leaf that is in no directory any more destroys it. *)
Theorem references_keep_leaf name root forgets t t' a o :
  root ≠ 0 → rtc (tree_step (λ _, True)) (FileTree.make name root) t →
  ft_leaves t !! a = Some o → 0 < lo_nlookup o →
  (¬ forgets a → rtc (tree_step forgets) t t' →
   ∃ o', ft_leaves t' !! a = Some o' ∧ lo_serial o' = lo_serial o ∧ lo_nlookup o ≤ lo_nlookup o') ∧
  (a ≠ ft_root t → a ∉ ft_held t → (∀ b ob, ft_leaves t !! b = Some ob → a ∉ children ob) →
   ∃ t2, FileTree.ReleaseRef (lo_nlookup o) a t = Ret t2 ∧ ft_leaves t2 !! a = None).
Proof.
  intros Hr Hreach Ha Hn. pose proof (reachable_in_order _ _ _ _ Hr Hreach) as HI. split.
  - intros Hf H. clear Hreach. revert o Ha Hn HI.
    induction H as [x|x y z Hxy Hyz IH]; intros o Ha Hn HI; [by exists o|].
    destruct (step_keeps_referred _ _ _ _ _ Hf HI Hxy Ha Hn) as (o1 & Ho1 & Hs1 & Hn1).
    destruct (IH o1 Ho1 ltac:(lia) (tree_step_in_order _ _ _ HI Hxy)) as (o2 & ? & ? & ?).
    exists o2. split; [done|split; [congruence|lia]].
  - intros Hroot Hh Hfree. destruct HI as [Hok Hl].
    destruct (ReleaseRef_ok (lo_nlookup o) a o t Hok Hl Ha ltac:(lia)) as (t2 & E & _ & _ & _ & Hdead).
    exists t2. split; [done|]. apply Hdead; [done|].
    intros [?|[?|[(ob & Hob & Hp)|(b & ob & Hob & Hc)]]].
    + cbn in *. congruence.
    + cbn in *. done.
    + cbn in Hob. rewrite lookup_insert_eq in Hob. simplify_eq. cbn in Hp.
      by rewrite bool_decide_false in Hp by lia.
    + cbn in Hob. apply lookup_insert_Some in Hob as [[<- <-]|[_ Hob]]; [|by eapply Hfree].
      unfold children in Hc. cbn in Hc. by eapply (Hfree _ _ Ha).
Qed.

End Trees.

(** ** The accounts of the cache *)

Section LeafOk.
Context {P J : Type} `{!IPacket P}.
Implicit Types (l : LeafData P J) (s : list (Range P)).

(** Every block has a range, and a status. *)
Definition LeafOk l : Prop :=
  ∀ k s, ld_data l !! k = Some s → s ≠ [] ∧ 0 ≤ k < Z.of_nat (length (ld_piecesStatus l)).

Lemma rev_append_nonempty {A} (pre : list A) x post : rev_append pre (x :: post) ≠ [].
Proof. rewrite rev_append_reverse. by destruct (reverse pre). Qed.

Lemma insert_nonempty r s : RangeSet.insert r s ≠ [].
Proof. destruct s; cbn; [done|]. by repeat case_match. Qed.

Lemma join_prev_nonempty offset size data pre (prev : Range P) post s' free :
  Leaf.join_prev offset size data pre prev post = Ret (Some (s', free)) → s' ≠ [].
Proof.
  unfold Leaf.join_prev. intros H. case_match; [|naive_solver].
  case_match; inv_res; [apply rev_append_nonempty|].
  case_match; [naive_solver|]. case_match; [naive_solver|]. inv_res. apply rev_append_nonempty.
Qed.

Lemma add_range_nonempty id offset size data s s' free :
  Leaf.add_range id offset size data s = Ret (s', free) → s' ≠ [].
Proof.
  unfold Leaf.add_range. intros H. destruct (RangeSet.upper_bound offset s) as [pre post].
  assert (Hj : ∀ prev pre' (o : option (list (Range P) * list P)),
    Leaf.join_prev offset size data pre' prev post = Ret o →
    (s', free) = default (RangeSet.insert (Range.make id offset size data) s, []) o → s' ≠ []).
  { intros prev pre' [[s0 f0]|] Ho Hd; cbn in Hd; simplify_eq;
      [by eapply join_prev_nonempty|apply insert_nonempty]. }
  destruct post as [|next post]; [destruct pre as [|prev pre]; inv_res; by eapply Hj|].
  destruct pre as [|prev pre]; destruct (u64 (rg_offset next) =? _); inv_res; [..|by eapply Hj].
  - unfold Leaf.join_next. apply rev_append_nonempty.
  - unfold Leaf.add_front in H. case_match; by simplify_eq.
  - unfold Leaf.join_next. case_match; apply rev_append_nonempty.
Qed.

Lemma AddData_LeafOk offset size data l l' free :
  LeafOk l → Leaf.AddData offset size data l = Ret (l', free) → LeafOk l'.
Proof.
  unfold Leaf.AddData. intros Hl H k s. destruct (ld_data l !! block_index offset) as [s0|] eqn:E; inv_res.
  - destruct x as [s1 f]. inv_res. cbn. intros [[<- <-]|[_ Hs]]%lookup_insert_Some; [|by apply Hl].
    split; [by eapply add_range_nonempty|by eapply Hl].
  - unfold PiecesStatus.SetStatus in *. inv_res. cbn. rewrite length_insert.
    destruct x0. inv_res. apply bool_decide_eq_true in H. cbn in H.
    intros [[<- <-]|[_ Hs]]%lookup_insert_Some; [done|by apply Hl].
Qed.

Lemma ExtractBlock_LeafOk index l :
  LeafOk l → ∃ l' offset data, Leaf.ExtractBlock index l = Ret (l', offset, data) ∧ LeafOk l'.
Proof.
  intros Hl. unfold Leaf.ExtractBlock. destruct (ld_data l !! index) as [s|] eqn:E; [|eauto].
  destruct (Hl _ _ E) as [Hne Hi]. unfold PiecesStatus.SetStatus. rewrite bool_decide_true by done.
  cbn. destruct s as [|r s]; [done|]. do 3 eexists. split; [done|].
  intros k s'. cbn. intros [_ Hs]%lookup_delete_Some. rewrite length_insert. by apply Hl.
Qed.

Lemma pins_only_LeafOk l l' : pins_only l l' → LeafOk l → LeafOk l'.
Proof.
  intros (Hd & _ & _ & Hp & _) H k s Hk.
  pose proof (f_equal (.!! k) Hd) as E. rewrite !lookup_fmap, Hk in E. cbn in E.
  destruct (ld_data l !! k) as [s0|] eqn:E0; [|done]. apply (inj Some) in E.
  destruct (H _ _ E0) as [Hne Hi]. rewrite Hp. split; [|done]. intros ->. by destruct s0.
Qed.

Lemma pins_only_cached l l' : pins_only l l' → cached l' ≡ₚ cached l.
Proof.
  intros (Hd & _). unfold cached, cached_in.
  assert (G : ∀ m : gmap Z (list (Range P)), map_to_list m ≫= (λ kv, kv.2 ≫= rg_packets) =
    map_to_list (map bare <$> m) ≫= (λ kv, kv.2 ≫= rg_packets)).
  { intros m. rewrite map_to_list_fmap. unfold mbind at 1 3. induction (map_to_list m) as [|[k s] kvs IH]; [done|].
    cbn. rewrite IH. f_equal. clear. induction s as [|r s IH]; [done|]. cbn. by rewrite IH. }
  by rewrite G, Hd, <- G.
Qed.

Lemma GetData_loop_pins_only fuel : ∀ offset readed l w l' v,
  Leaf.GetData_loop fuel offset readed l w = Ret (l', v) → pins_only l l'.
Proof.
  induction fuel as [|fuel IH]; intros offset readed l w l' v; cbn [Leaf.GetData_loop].
  { case_match; intros; inv_res; done. }
  case_match; [intros; inv_res; done|].
  destruct (ld_data l !! _) as [s|] eqn:Es; [|intros; inv_res; done].
  destruct (RangeSet.upper_bound offset s) as [[|r pre] post] eqn:Eu; [intros; inv_res; done|].
  pose proof (pins_only_pin _ _ _ _ _ _ _ Es Eu) as Hp. cbv zeta.
  case_match; [|intros; inv_res; done]. case_match; [done|].
  destruct (Leaf.seek _ _) as [[[start q] rest]|]; [|intros; inv_res; done].
  destruct (Leaf.take_spans _ rest) as [spans more].
  intros Hg. etransitivity; [exact Hp|]. by eapply IH.
Qed.

Lemma GetData_pins_only offset size l l' v :
  Leaf.GetData offset size l = Ret (l', v) → pins_only l l'.
Proof.
  unfold Leaf.GetData. case_match; [intros; inv_res; done|]. apply GetData_loop_pins_only.
Qed.

End LeafOk.

Section Accounts.
Context {P J : Type} `{!IPacket P} (hash : Z → Z) (begin : gmap Z Z → option Z).
(** [begin()] is an entry of the map, if there is one. *)
Context (Hbegin : ∀ m, match begin m with Some k => is_Some (m !! k) | None => m = ∅ end).
Implicit Types (t : FileTree P J) (o : LeafObject P J) (a inode : Z).

(** The packets in the caches of all leaves. *)
Definition packets_in (m : gmap Z (LeafObject P J)) : list P :=
  map_to_list m ≫= λ kv, cached (lo_data kv.2).
Definition cached_packets t : list P := packets_in (ft_leaves t).

Lemma packets_in_lookup m a o :
  m !! a = Some o → packets_in m ≡ₚ cached (lo_data o) ++ packets_in (delete a m).
Proof. intros H. unfold packets_in. by rewrite <- (map_to_list_delete m a o H). Qed.

Lemma packets_in_insert m a o :
  packets_in (<[a := o]> m) ≡ₚ cached (lo_data o) ++ packets_in (delete a m).
Proof.
  unfold packets_in. rewrite <- insert_delete_eq.
  by rewrite (map_to_list_insert (delete a m)) by apply lookup_delete_eq.
Qed.

Definition entry t inode : Z := default 0 (FileTree.shard (FileTree.ShardForInode hash inode) t !! inode).

(** Packets that are gone without having been taken off the accounts, each with its leaf. *)
Implicit Types (gone : list (Z * P)) (l : list P).
Definition of_leaf a l : list (Z * P) := (λ p, (a, p)) <$> l.
Definition gone_at gone a : nat := length (filter (λ kp : Z * P, kp.1 = a) gone).

Lemma gone_at_app gone a l : gone_at (gone ++ of_leaf a l) a = (gone_at gone a + length l)%nat.
Proof.
  unfold gone_at. rewrite filter_app, length_app. f_equal. unfold of_leaf.
  induction l as [|p l IH]; [done|]. cbn [fmap list_fmap]. rewrite filter_cons_True by done. cbn. by rewrite IH.
Qed.

Lemma gone_at_other gone a k l : k ≠ a → gone_at (gone ++ of_leaf a l) k = gone_at gone k.
Proof.
  intros Hk. unfold gone_at. rewrite filter_app, length_app.
  assert (filter (λ kp : Z * P, kp.1 = k) (of_leaf a l) = []) as ->; [|cbn; lia].
  unfold of_leaf. induction l as [|p l IH]; [done|]. cbn [fmap list_fmap]. rewrite filter_cons_False; [done|].
  cbn. congruence.
Qed.

Lemma length_of_leaf a l : length (of_leaf a l) = length l.
Proof. apply length_fmap. Qed.

(** The accounts say what the caches hold, and what is gone behind their back. *)
Record Accounted gone t : Prop := {
  acc_shards : length (ft_cachePerShard t) = FileTree.ShardCount;
  acc_total : ft_grandTotal t = Z.of_nat (length (cached_packets t) + length gone);
  acc_entry : ∀ a o, ft_leaves t !! a = Some o →
    a ≠ FUSE_ROOT_ID ∧ entry t a = Z.of_nat (length (cached (lo_data o)) + gone_at gone a) ∧ LeafOk (lo_data o);
  acc_keys : ∀ i m k, ft_cachePerShard t !! i = Some m → is_Some (m !! k) →
    i = FileTree.ShardForInode hash k ∧ is_Some (ft_leaves t !! k);
}.

(** Nothing is cached, and the accounts are empty. *)
Lemma Accounted_empty t :
  ft_cachePerShard t = replicate FileTree.ShardCount ∅ → ft_grandTotal t = 0 →
  (∀ a o, ft_leaves t !! a = Some o → a ≠ FUSE_ROOT_ID ∧ ld_data (lo_data o) = ∅) → Accounted [] t.
Proof.
  intros Hs Ht Ho.
  assert (Hnone : ∀ i m, ft_cachePerShard t !! i = Some m → m = ∅).
  { rewrite Hs. by intros i m [-> _]%lookup_replicate. }
  assert (He : ∀ d : LeafData P J, ld_data d = ∅ → cached d = []).
  { intros d Hd. unfold cached, cached_in. by rewrite Hd, map_to_list_empty. }
  split.
  - by rewrite Hs, length_replicate.
  - rewrite Ht. unfold cached_packets, packets_in.
    assert (Hf : Forall (λ kv : Z * LeafObject P J, cached (lo_data kv.2) = []) (map_to_list (ft_leaves t))).
    { apply Forall_forall. intros [a o] Hao%elem_of_map_to_list. by apply He, (Ho _ _ Hao). }
    clear -Hf. induction Hf as [|kv l Hkv _ IH]; [done|]. rewrite bind_cons, Hkv. exact IH.
  - intros a o Ha. destruct (Ho _ _ Ha) as [Hr Hd]. split; [done|]. rewrite (He _ Hd). split.
    + unfold entry, FileTree.shard. destruct (ft_cachePerShard t !! _) as [m|] eqn:Em; [rewrite (Hnone _ _ Em)|];
        cbn; by rewrite lookup_empty.
    + intros k s Hk. by rewrite Hd, lookup_empty in Hk.
  - intros i m k Hi Hk. rewrite (Hnone _ _ Hi), lookup_empty in Hk. by destruct Hk.
Qed.

(** The set of ranges of the leaf does not take the data, and nothing is given back. *)
Definition swallowed t t' inode (free : list P) : Prop :=
  free = [] ∧ ∃ o o', ft_leaves t !! inode = Some o ∧ ft_leaves t' !! inode = Some o' ∧
    ld_data (lo_data o') = ld_data (lo_data o).

(** The operations on the data, for any arrivals; with the packets that were destroyed
    without being taken off the accounts. *)
Inductive account_step : relation (FileTree P J * list (Z * P)) :=
  | step_AddData t t' gone inode o offset sz data free :
      ft_leaves t !! inode = Some o →
      FileTree.AddData hash inode offset sz data t = Ret (t', free) → ¬ swallowed t t' inode free →
      account_step (t, gone) (t', gone)
  | step_AddData_swallowed t t' gone inode o offset sz data free :
      ft_leaves t !! inode = Some o →
      FileTree.AddData hash inode offset sz data t = Ret (t', free) → swallowed t t' inode free →
      account_step (t, gone) (t', gone ++ of_leaf inode data)
  | step_GetData t t' gone inode offset sz v :
      is_Some (ft_leaves t !! inode) →
      FileTree.GetData inode offset sz t = Ret (t', v) → account_step (t, gone) (t', gone)
  | step_Unpin t gone a o pin :
      ft_leaves t !! a = Some o →
      account_step (t, gone) (FileTree.update_data a (Leaf.drop_pin pin (lo_data o)) t, gone)
  | step_Invalidate t gone a o :
      ft_leaves t !! a = Some o →
      account_step (t, gone) (FileTree.update_data a (Leaf.InvalidateDataCache (lo_data o)) t,
        gone ++ of_leaf a (cached (lo_data o)))
  | step_GetFreeData t t' gone i fd :
      FileTree.GetFreeData begin i t = Ret (t', fd) → account_step (t, gone) (t', gone).

Lemma ShardForInode_lt inode : (FileTree.ShardForInode hash inode < FileTree.ShardCount)%nat.
Proof.
  unfold FileTree.ShardForInode. pose proof (Z.mod_pos_bound (hash inode) (Z.of_nat FileTree.ShardCount)).
  unfold FileTree.ShardCount in *. lia.
Qed.

(** A leaf gets other data, its account another number. *)
Lemma Accounted_update gone t a o d l n shards total :
  Accounted gone t → ft_leaves t !! a = Some o → LeafOk d →
  n = Z.of_nat (length (cached d) + gone_at gone a + length l) →
  total = ft_grandTotal t - Z.of_nat (length (cached (lo_data o))) + Z.of_nat (length (cached d) + length l) →
  length shards = FileTree.ShardCount →
  (∀ i m k, shards !! i = Some m → is_Some (m !! k) →
    (i = FileTree.ShardForInode hash k ∧ k = a) ∨ ∃ m', ft_cachePerShard t !! i = Some m' ∧ is_Some (m' !! k)) →
  default 0 (default ∅ (shards !! FileTree.ShardForInode hash a) !! a) = n →
  (∀ k, k ≠ a → default ∅ (shards !! FileTree.ShardForInode hash k) !! k =
    FileTree.shard (FileTree.ShardForInode hash k) t !! k) →
  Accounted (gone ++ of_leaf a l) (FileTree.with_accounts shards total (FileTree.update_data a d t)).
Proof.
  intros [H1 H2 H3 H4] Ha Hd Hn Ht Hs Hk Ha' Hne. unfold FileTree.update_data. rewrite Ha.
  split; [done| | |].
  - cbn. rewrite Ht, H2. unfold cached_packets. cbn.
    rewrite (Permutation_length (packets_in_insert _ _ _)),
      (Permutation_length (packets_in_lookup _ _ _ Ha)), !length_app, length_of_leaf. cbn. lia.
  - cbn. intros b ob [[<- <-]|[Hab Hb]]%lookup_insert_Some.
    + destruct (H3 _ _ Ha) as (? & _ & _). split; [done|split; [|done]]. unfold entry, FileTree.shard. cbn.
      rewrite Ha', Hn, gone_at_app. lia.
    + destruct (H3 _ _ Hb) as (? & He & ?). split; [done|split; [|done]]. rewrite gone_at_other, <- He by done.
      unfold entry, FileTree.shard at 1. cbn. by rewrite Hne.
  - cbn. intros i m k Hi Hm. destruct (Hk _ _ _ Hi Hm) as [[-> ->]|(m' & Hm' & Hk')].
    + split; [done|]. rewrite lookup_insert_eq. by eexists.
    + destruct (H4 _ _ _ Hm' Hk') as [-> [ob Hob]]. split; [done|].
      destruct (decide (k = a)) as [->|]; [rewrite lookup_insert_eq|rewrite lookup_insert_ne by done]; by eexists.
Qed.

(** A leaf gets data with the same packets, but some that are gone. *)
Lemma Accounted_same gone t a o d l :
  Accounted gone t → ft_leaves t !! a = Some o → cached d ++ l ≡ₚ cached (lo_data o) → LeafOk d →
  Accounted (gone ++ of_leaf a l) (FileTree.update_data a d t).
Proof.
  intros Hacc Ha Hp Hd. pose proof Hacc as [H1 H2 H3 H4]. destruct (H3 _ _ Ha) as (Hr & He & Hl).
  replace (FileTree.update_data a d t)
    with (FileTree.with_accounts (ft_cachePerShard t) (ft_grandTotal t) (FileTree.update_data a d t))
    by (unfold FileTree.update_data; by case_match; destruct t).
  pose proof (Permutation_length Hp) as Hc. rewrite length_app in Hc.
  apply (Accounted_update gone t a o d l (Z.of_nat (length (cached d) + gone_at gone a + length l)));
    [done|done|done|done|lia|done|..].
  - intros i m k Hi Hm. right. eauto.
  - transitivity (entry t a); [done|]. rewrite He. lia.
  - done.
Qed.

Lemma Accounted_permuted gone t a o d :
  Accounted gone t → ft_leaves t !! a = Some o → cached d ≡ₚ cached (lo_data o) → LeafOk d →
  Accounted gone (FileTree.update_data a d t).
Proof.
  intros Hacc Ha Hp Hd. rewrite <- (app_nil_r gone). change [] with (of_leaf a []).
  eapply Accounted_same; [done..|by rewrite app_nil_r|done].
Qed.

(** The pins do not count. *)
Lemma Accounted_pins gone t a o d :
  Accounted gone t → ft_leaves t !! a = Some o → pins_only (lo_data o) d →
  Accounted gone (FileTree.update_data a d t).
Proof.
  intros Hacc Ha Hp. eapply Accounted_permuted; [done..|by apply pins_only_cached|].
  eapply pins_only_LeafOk; [done|]. by apply (acc_entry _ _ Hacc _ _ Ha).
Qed.

(** One shard changes at one key. *)
Lemma Accounted_shard gone t a o d l x n total :
  Accounted gone t → ft_leaves t !! a = Some o → LeafOk d →
  n = Z.of_nat (length (cached d) + gone_at gone a + length l) →
  total = ft_grandTotal t - Z.of_nat (length (cached (lo_data o))) + Z.of_nat (length (cached d) + length l) →
  default 0 x = n →
  let i := FileTree.ShardForInode hash a in
  Accounted (gone ++ of_leaf a l) (FileTree.with_accounts
    (<[i := partial_alter (λ _, x) a (FileTree.shard i t)]> (ft_cachePerShard t)) total
    (FileTree.update_data a d t)).
Proof.
  intros Hacc Ha Hd Hn Ht Hx i. pose proof Hacc as [H1 H2 H3 H4].
  assert (Hi : (i < length (ft_cachePerShard t))%nat) by (rewrite H1; apply ShardForInode_lt).
  destruct (lookup_lt_is_Some_2 _ _ Hi) as [m Hm].
  assert (Hsh : FileTree.shard i t = m) by (unfold FileTree.shard; by rewrite Hm).
  eapply Accounted_update; try done.
  - by rewrite length_insert.
  - intros j m' k [(<- & <- & _)|(Hne & Hj)]%list_lookup_insert_Some Hk; [|right; eauto].
    destruct (decide (k = a)) as [->|Hka]; [by left|right].
    rewrite lookup_partial_alter_ne in Hk by done. exists m. by rewrite Hsh in Hk.
  - rewrite list_lookup_insert_eq by done. cbn. by rewrite lookup_partial_alter_eq.
  - intros k Hk. unfold FileTree.shard. destruct (decide (FileTree.ShardForInode hash k = i)) as [->|].
    + rewrite list_lookup_insert_eq by done. cbn. by rewrite lookup_partial_alter_ne.
    + by rewrite list_lookup_insert_ne by done.
Qed.

Lemma address_leaf gone t inode o :
  Accounted gone t → ft_leaves t !! inode = Some o → FileTree.address inode t = inode.
Proof.
  intros H Ho. destruct (acc_entry _ _ H _ _ Ho) as (Hr & _). unfold FileTree.address.
  by rewrite (proj2 (Z.eqb_neq _ _)).
Qed.

Lemma GetFreeData_ok gone t i :
  Accounted gone t → (i < FileTree.ShardCount)%nat →
  ∃ t' fd, FileTree.GetFreeData begin i t = Ret (t', fd) ∧ Accounted gone t' ∧
    cached_packets t' ++ FileTree.fd_data fd ≡ₚ cached_packets t ∧
    ∀ k, k ≠ FileTree.fd_inode fd → ft_leaves t' !! k = ft_leaves t !! k.
Proof.
  intros Hacc Hi. pose proof Hacc as [H1 H2 H3 H4]. unfold FileTree.GetFreeData.
  destruct (lookup_lt_is_Some_2 (ft_cachePerShard t) i) as [m Hm]; [by rewrite H1|]. rewrite Hm.
  pose proof (Hbegin m) as Hb. destruct (begin m) as [inode|].
  2: { exists t, FileTree.no_data. cbn. rewrite app_nil_r. done. }
  destruct (H4 _ _ _ Hm Hb) as [-> [o Ho]]. rewrite (address_leaf _ _ _ _ Hacc Ho).
  unfold FileTree.leaf_at. rewrite Ho. cbn [mbind res_bind]. cbv zeta.
  destruct (Z.eqb_spec (Leaf.GetFirstBlockIndex (lo_data o)) SIZE_MAX).
  { exists t, FileTree.no_data. cbn. rewrite app_nil_r. done. }
  destruct (H3 _ _ Ho) as (Hr & He & Hl).
  destruct (ExtractBlock_LeafOk (Leaf.GetFirstBlockIndex (lo_data o)) _ Hl) as (d & off & data & E & Hd).
  pose proof (ExtractBlock_packets _ _ _ _ _ E) as Hp. rewrite E. cbn [mbind res_bind].
  assert (Hsh : FileTree.shard (FileTree.ShardForInode hash inode) t = m) by (unfold FileTree.shard; by rewrite Hm).
  assert (Hent : default 0 (m !! inode) = Z.of_nat (length (cached (lo_data o)) + gone_at gone inode)) by (rewrite <- He; unfold entry; by rewrite Hsh).
  pose proof (Permutation_length Hp) as Hlen. rewrite length_app in Hlen.
  rewrite Hent, (proj2 (Z.leb_le _ _)) by lia. cbn [assert_that mbind res_bind].
  do 2 eexists. split; [done|]. cbn [FileTree.fd_data FileTree.fd_inode]. split; [|split].
  - set (left := Z.of_nat (length (cached (lo_data o)) + gone_at gone inode) - Z.of_nat (length data)).
    replace (if left =? 0 then delete inode m else <[inode:=left]> m)
      with (partial_alter (λ _, if left =? 0 then None else Some left) inode
        (FileTree.shard (FileTree.ShardForInode hash inode) t)) by (rewrite Hsh; by case_match).
    rewrite <- (app_nil_r gone). change [] with (of_leaf inode []).
    apply (Accounted_shard gone t inode o d [] _ left); [done..|cbn; lia|cbn; lia|]. case_match eqn:E0; cbn; lia.
  - unfold cached_packets, FileTree.update_data. rewrite Ho. cbn.
    rewrite packets_in_insert, (packets_in_lookup _ _ _ Ho). cbn. rewrite <- Hp. solve_Permutation.
  - intros k Hk. unfold FileTree.update_data. rewrite Ho. cbn. by rewrite lookup_insert_ne.
Qed.

(** The accounts after an arrival. *)
Lemma AddData_accounted gone t t' inode o offset sz data free :
  Accounted gone t → ft_leaves t !! inode = Some o →
  FileTree.AddData hash inode offset sz data t = Ret (t', free) →
  (¬ swallowed t t' inode free → Accounted gone t') ∧
  (swallowed t t' inode free → Accounted (gone ++ of_leaf inode data) t') ∧
  ((∀ s, ld_data (lo_data o) !! block_index offset = Some s → ¬ rejected offset s) → Accounted gone t').
Proof.
  intros Hacc Ho E. unfold FileTree.AddData in E. rewrite (address_leaf _ _ _ _ Hacc Ho) in E.
  unfold FileTree.leaf_at in E. rewrite Ho in E. cbn [mbind res_bind] in E.
  destruct (Leaf.AddData _ _ _ _) as [[d fr]|] eqn:Ed; [|done]. injection E as <- <-.
  destruct (acc_entry _ _ Hacc _ _ Ho) as (Hr & He & Hl).
  assert (Hl' : LeafOk d) by by eapply AddData_LeafOk.
  set (t2 := FileTree.with_accounts _ _ _).
  assert (Hsw : swallowed t t2 inode fr ↔ fr = [] ∧ ld_data d = ld_data (lo_data o)).
  { unfold swallowed. subst t2. unfold FileTree.update_data. rewrite Ho. cbn. split.
    - intros (-> & o1 & o2 & H1 & H2 & H3). split; [done|]. rewrite lookup_insert_eq in H2. by simplify_eq.
    - intros [-> Hd]. split; [done|]. do 2 eexists. rewrite lookup_insert_eq. split; [done|split; [done|done]]. }
  assert (Hkeep : (length (cached d) + length fr = length (cached (lo_data o)) + length data)%nat → Accounted gone t2).
  { intros Hp. rewrite <- (app_nil_r gone). change [] with (of_leaf inode []).
    eapply (Accounted_shard gone t inode o d [] (Some _)); [done..| |cbn; lia|].
    - done.
    - cbn. unfold entry in He. rewrite He. lia. }
  pose proof (AddData_packets _ _ _ _ _ _ Ed) as Hpk. split; [|split].
  - intros Hn. apply Hkeep. destruct Hpk as [Hp|(Hsame & -> & _)].
    + apply Permutation_length in Hp. by rewrite !length_app in Hp.
    + destruct Hn. by apply Hsw.
  - intros [-> Hd]%Hsw.
    assert (Hc : cached d = cached (lo_data o)) by (unfold cached; by rewrite Hd).
    eapply (Accounted_shard gone t inode o d data (Some _)); [done..| |rewrite Hc; cbn; lia|].
    + done.
    + cbn. unfold entry in He. rewrite He, Hc. lia.
  - intros Hn. apply Hkeep. destruct Hpk as [Hp|(_ & _ & s & Hs & Hx)]; [|by destruct (Hn s)].
    apply Permutation_length in Hp. by rewrite !length_app in Hp.
Qed.

Lemma account_step_ok x y : Accounted x.2 x.1 → account_step x y → Accounted y.2 y.1.
Proof.
  intros Hacc H. destruct H as [t t' gone inode o offset sz data free Ho E Hs|t t' gone inode o offset sz data free Ho E Hs
    |t t' gone inode offset sz v [o Ho] E|t gone a o pin Ho|t gone a o Ho|t t' gone i fd E]; cbn [fst snd] in *.
  - destruct (AddData_accounted _ _ _ _ _ _ _ _ _ Hacc Ho E) as (H & _). by apply H.
  - destruct (AddData_accounted _ _ _ _ _ _ _ _ _ Hacc Ho E) as (_ & H & _). by apply H.
  - unfold FileTree.GetData in E. rewrite (address_leaf _ _ _ _ Hacc Ho) in E.
    unfold FileTree.leaf_at in E. rewrite Ho in E. cbn [mbind res_bind] in E.
    destruct (Leaf.GetData _ _ _) as [[d w]|] eqn:Ed; [|done]. injection E as <- <-.
    eapply Accounted_pins; [done..|]. by eapply GetData_pins_only.
  - eapply Accounted_pins; [done..|]. apply pins_only_drop_pin.
  - eapply Accounted_same; [done..| |].
    + unfold cached at 1, cached_in. cbn. by rewrite map_to_list_empty.
    + intros k s Hk. cbn in Hk. by rewrite lookup_empty in Hk.
  - destruct (decide (i < FileTree.ShardCount)%nat) as [Hi|Hi].
    + destruct (GetFreeData_ok gone t i Hacc Hi) as (t2 & fd2 & E2 & ? & _). rewrite E in E2. by simplify_eq.
    + unfold FileTree.GetFreeData in E. rewrite lookup_ge_None_2 in E; [done|].
      rewrite (acc_shards _ _ Hacc). lia.
Qed.

(** What swallows the data of an arrival: a range that starts where they do. *)
Lemma swallowed_rejected t t' gone inode o offset sz data free :
  Accounted gone t → ft_leaves t !! inode = Some o → data ≠ [] →
  FileTree.AddData hash inode offset sz data t = Ret (t', free) → swallowed t t' inode free →
  ∃ s, ld_data (lo_data o) !! block_index offset = Some s ∧ rejected offset s.
Proof.
  intros Hacc Ho Hd E (-> & o1 & o2 & H1 & H2 & H3). unfold FileTree.AddData in E.
  rewrite (address_leaf _ _ _ _ Hacc Ho) in E.
  unfold FileTree.leaf_at in E. rewrite Ho in E. cbn [mbind res_bind] in E.
  destruct (Leaf.AddData _ _ _ _) as [[d fr]|] eqn:Ed; [|done]. injection E as <- ->.
  destruct (AddData_packets _ _ _ _ _ _ Ed) as [Hp|(_ & _ & Hs)]; [|done].
  unfold FileTree.update_data in H2. rewrite Ho in H1, H2. cbn in H2. rewrite lookup_insert_eq in H2. simplify_eq.
  cbn in H3. unfold cached in Hp. rewrite H3 in Hp. apply Permutation_length in Hp.
  rewrite !length_app in Hp. cbn in Hp. destruct data; [done|cbn in Hp; lia].
Qed.

(** C23: the accounts of cached packets in every history of arrivals, reads, invalidations
    and evictions that destroys no leaf: the total counts the packets in the caches and
    those that are gone behind its back, namely the packets of invalidated caches and those
    that a cache has destroyed because a range of it starts where they do; a leaf's entry
    counts the same for the leaf.  So, as long as none is gone, the accounts are exact.  An
    eviction never fails, it gives back what it takes out of the cache and takes it off the
    accounts. *)
Theorem accounts_exact t0 t gone :
  Accounted [] t0 → rtc account_step (t0, []) (t, gone) →
  ft_grandTotal t = Z.of_nat (length (cached_packets t) + length gone) ∧
  (∀ a o, ft_leaves t !! a = Some o →
     entry t a = Z.of_nat (length (cached (lo_data o)) + gone_at gone a)) ∧
  (∀ inode o offset sz data free t', ft_leaves t !! inode = Some o → data ≠ [] →
     FileTree.AddData hash inode offset sz data t = Ret (t', free) → swallowed t t' inode free →
     ∃ s, ld_data (lo_data o) !! block_index offset = Some s ∧ rejected offset s) ∧
  ∀ i, (i < FileTree.ShardCount)%nat →
  ∃ t' fd, FileTree.GetFreeData begin i t = Ret (t', fd) ∧
    cached_packets t' ++ FileTree.fd_data fd ≡ₚ cached_packets t ∧
    ft_grandTotal t' = ft_grandTotal t - Z.of_nat (length (FileTree.fd_data fd)).
Proof.
  intros H0 H. assert (Hacc : Accounted gone t).
  { apply (rtc_invariant _ (λ x, Accounted x.2 x.1)) in H; [done|done|]. intros x y. apply account_step_ok. }
  split; [apply Hacc|split; [intros a o Ho; by destruct (acc_entry _ _ Hacc _ _ Ho) as (_&?&_)|split]].
  { intros inode o offset sz data free t' Ho Hd E Hs. by eapply swallowed_rejected. }
  intros i Hi. destruct (GetFreeData_ok gone t i Hacc Hi) as (t' & fd & ? & Hacc' & Hp & _).
  exists t', fd. split; [done|split; [done|]]. rewrite (acc_total _ _ Hacc), (acc_total _ _ Hacc').
  apply Permutation_length in Hp. rewrite length_app in Hp. lia.
Qed.

End Accounts.

(** ** The theorems at work *)

Abbreviation Tree := (FileTree Packet unit).
Definition first_entry (m : gmap Z Z) : option Z := fst <$> head (map_to_list m).

Lemma first_entry_ok (m : gmap Z Z) :
  match first_entry m with Some k => is_Some (m !! k) | None => m = ∅ end.
Proof.
  unfold first_entry. destruct (map_to_list m) as [|[k x] kvs] eqn:E; cbn.
  - by apply map_to_list_empty_iff.
  - exists x. apply elem_of_map_to_list. rewrite E. by left.
Qed.

Ltac here := vm_compute; reflexivity.

(** A root at 64, a directory at 128 and in it a file of five bytes at 192. *)
Definition tree0 : Tree := FileTree.make "root" 64.
Definition tree1 : Tree := Eval vm_compute in
  (from_res (tree0, 0) (FileTree.AddChild 64 "dir" ft_directory 0 128 tree0)).1.
Definition tree2 : Tree := Eval vm_compute in
  (from_res (tree0, 0) (FileTree.AddChild 128 "file" ft_regular 5 192 tree1)).1.
(** The file gets a server inode, and the kernel looks it up. *)
Definition tree3 : Tree := Eval vm_compute in
  from_res tree0 (FileTree.SetServerInode 192 7 tree2).
Definition tree4 : Tree := Eval vm_compute in
  from_res tree0 (FileTree.AddRef 192 tree3).
(** Its directory is removed. *)
Definition tree5 : Tree := Eval vm_compute in
  from_res tree0 (FileTree.RemoveChild 64 "dir" tree4).

Lemma tree2_reached : rtc (tree_step (λ _, True)) tree0 tree2.
Proof.
  eapply rtc_l; [eapply (step_add _ tree0 tree1 64 "dir" ft_directory 0 128 128)|]; [by eexists|done|done|here|].
  eapply rtc_l; [eapply (step_add _ tree1 tree2 128 "file" ft_regular 5 192 192)|]; [by eexists|done|done|here|reflexivity].
Qed.

Lemma tree4_reached : rtc (tree_step (λ _, True)) tree0 tree4.
Proof.
  etransitivity; [exact tree2_reached|].
  eapply rtc_l; [eapply (step_inode _ tree2 tree3 192 7)|]; [by eexists|here|].
  eapply rtc_l; [eapply (step_addref _ tree3 tree4 192)|]; [reflexivity|done|here|reflexivity].
Qed.

Lemma tree5_reached : rtc (tree_step (λ _, True)) tree0 tree5.
Proof.
  etransitivity; [exact tree4_reached|].
  eapply rtc_l; [eapply (step_remove _ tree4 tree5 64 "dir")|]; [by eexists|here|reflexivity].
Qed.

Example tree5_keeps_the_file :
  (λ o, (lo_nlookup o, lo_parent o)) <$> ft_leaves tree5 !! 192 = Some (1, Some 128) ∧
  ft_leaves tree5 !! 128 = None ∧ FileTree.FindLeafByServerInode 7 tree4 = Ret (Some 192) ∧
  FileTree.FindLeafByServerInode 7 tree5 = Ret None ∧
  FileTree.GetFullPath 3 192 tree4 = Ret ["root"; "dir"; "file"].
Proof. by vm_compute. Qed.

Definition leaf_of (t : Tree) (a : Z) : LeafObject Packet unit :=
  from_res (LeafObject.make 0 "" ft_none 0 None) (FileTree.leaf_at a t).
Lemma root_at_64 : 64 ≠ 0. Proof. done. Qed.


Lemma find_by_inode_witness :
  ∃ r, FileTree.FindLeafByServerInode 7 tree4 = Ret r ∧
    ∀ a, r = Some a → ∃ o, ft_leaves tree4 !! a = Some o ∧ LeafObject.GetServerInode a o = 7.
Proof. exact (proj1 (find_by_inode (λ _, True) "root" 64 tree4 root_at_64 tree4_reached) 7). Defined.

Lemma removed_child_unreachable_witness :
  ∃ t', FileTree.RemoveChild 64 "dir" tree4 = Ret t' ∧
    FileTree.FindLeafByServerInode 7 t' ≠ Ret (Some 192) ∧
    ft_leaves t' !! 192 = ft_leaves tree4 !! 192 ∧ ft_leaves t' !! 128 = None.
Proof.
  destruct (removed_child_unreachable (λ _, True) "root" 64 tree4 64 "dir"
    (leaf_of tree4 64) 128)
    as (t' & E & _ & Hfind & Hkeep & Hdead); [exact root_at_64|exact tree4_reached|here|here|].
  exists t'. split; [exact E|]. split; [|split].
  - apply (Hfind 192 (leaf_of tree4 192));
      [|here|done].
    apply rtc_once. eexists. split; [here|]. vm_compute. by left.
  - apply (Hkeep 192); [done|here|]. left. by vm_compute.
  - apply (Hdead (leaf_of tree4 128)); [here|here|by apply not_elem_of_nil|done].
Defined.

Lemma references_keep_leaf_witness :
  (∃ o', ft_leaves tree5 !! 192 = Some o' ∧ 1 ≤ lo_nlookup o') ∧
  ∃ t2, FileTree.ReleaseRef 1 192 tree5 = Ret t2 ∧ ft_leaves t2 !! 192 = None.
Proof.
  pose (o := leaf_of tree4 192). split.
  - destruct (proj1 (references_keep_leaf "root" 64 (λ a, a ≠ 192) tree4 tree5 192 o root_at_64
      tree4_reached ltac:(here) ltac:(here))) as (o' & ? & _ & ?); [naive_solver| |by exists o'].
    apply rtc_once. eapply (step_remove _ _ _ 64 "dir"); [by eexists|here].
  - destruct (proj2 (references_keep_leaf "root" 64 (λ _, True) tree5 tree5 192 o root_at_64
      tree5_reached ltac:(here) ltac:(here))) as (t2 & ? & ?); [done|by apply not_elem_of_nil| |by exists t2].
    intros b ob Hb%elem_of_map_to_list%list_elem_of_In Hin%list_elem_of_In.
    vm_compute in Hb. destruct Hb as [[= <- <-]|[[= <- <-]|[]]]; vm_compute in Hin; exact Hin.
Defined.

(** *** The accounts *)

Definition account_tree0 : Tree := Eval vm_compute in from_res tree0 (FileTree.AddRef 192 tree2).
(** The five bytes arrive. *)
Definition arrival : Tree * list Packet := Eval vm_compute in
  from_res (tree0, []) (FileTree.AddData id 192 0 5 letter_pieces account_tree0).

Lemma account_tree0_ok : Accounted id [] account_tree0.
Proof.
  apply Accounted_empty; [reflexivity..|]. intros a o Ha%elem_of_map_to_list%list_elem_of_In. vm_compute in Ha.
  destruct Ha as [[= <- <-]|[[= <- <-]|[[= <- <-]|[]]]]; by split.
Qed.

Lemma arrival_step : account_step id first_entry (account_tree0, []) (arrival.1, []).
Proof.
  eapply (step_AddData _ _ _ _ _ 192 (leaf_of account_tree0 192) 0 5 letter_pieces []); [here|here|].
  intros (_ & o & o' & H1 & H2 & H3). vm_compute in H1, H2. injection H1 as <-. injection H2 as <-. discriminate H3.
Qed.

Lemma accounts_exact_witness :
  ft_grandTotal arrival.1 = 3 ∧
  ∃ t' fd, FileTree.GetFreeData first_entry 0 arrival.1 = Ret (t', fd) ∧
    cached_packets t' ++ FileTree.fd_data fd ≡ₚ cached_packets arrival.1 ∧
    ft_grandTotal t' = ft_grandTotal arrival.1 - Z.of_nat (length (FileTree.fd_data fd)).
Proof.
  destruct (accounts_exact id first_entry first_entry_ok account_tree0 arrival.1 [] account_tree0_ok
    (rtc_once _ _ arrival_step)) as (Ht & _ & _ & H).
  split; [rewrite Ht; here|]. apply H. unfold FileTree.ShardCount. lia.
Defined.

Example evicted :
  (λ '(t, fd), (FileTree.fd_inode fd, FileTree.fd_offset fd, FileTree.fd_size fd,
    length (FileTree.fd_data fd), ft_grandTotal t)) <$> FileTree.GetFreeData first_entry 0 arrival.1
  = Ret (192, 0, 5, 3%nat, 0).
Proof. here. Qed.

(** ** Behaviour the code does not mean to have *)

(** A file that the kernel refers to survives its directory, but its pointer to it
    dangles: asking for the path of the file reads memory that was freed. *)
Lemma orphan_path_undefined :
  FileTree.GetFullPath 3 192 tree4 = Ret ["root"; "dir"; "file"]%string ∧
  is_Some (ft_leaves tree5 !! 192) ∧ FileTree.GetFullPath 3 192 tree5 = Err Undefined.
Proof. split; [here|split; [exists (leaf_of tree5 192); here|here]]. Qed.

(** A leaf that is destroyed while it has cached data leaves its account behind: the
    eviction follows a pointer to it. *)
Lemma eviction_of_removed_leaf_undefined :
  let t := from_res tree0 (FileTree.ReleaseRef 1 192 arrival.1) in
  let removed := from_res tree0 (FileTree.RemoveChild 128 "file" t) in
  is_ret (FileTree.GetFreeData first_entry 0 t) = true ∧ ft_leaves removed !! 192 = None ∧
  FileTree.GetFreeData first_entry 0 removed = Err Undefined.
Proof. split; [here|split; here]. Qed.

(** [InvalidateDataCache] leaves the accounts as they were: the total counts packets that
    are gone, and the eviction keeps asking a leaf that has nothing to give. *)
Lemma invalidation_keeps_accounts :
  let t := FileTree.update_data 192 (Leaf.InvalidateDataCache (lo_data (leaf_of arrival.1 192))) arrival.1 in
  cached_packets t = [] ∧ ft_grandTotal t = 3 ∧
  FileTree.GetFreeData first_entry 0 t = Ret (t, FileTree.no_data).
Proof. split; [here|split; here]. Qed.

(** A packet that the set of ranges does not take is destroyed, but it is counted. *)
Lemma destroyed_packet_counted :
  let one := [piece [65; 66; 67; 68; 69]] in
  let t1 := (from_res (tree0, []) (FileTree.AddData id 192 0 5 one account_tree0)).1 in
  let t2 := (from_res (tree0, []) (FileTree.AddData id 192 0 5 one t1)).1 in
  ft_grandTotal t2 = 2 ∧ length (cached_packets t2) = 1%nat.
Proof. split; here. Qed.
