(* ===== verification/Framing.v ===== *)
(** * Framing: the packets of a connection cut into messages
    [Protocol/src/MessageTypeReadJob.cpp].

    A message says in its first four bytes of how many packets it consists, then of which
    type it is.  The job collects what [Recv] gives, in lists of any lengths, until a
    message is complete, makes the job that handles it, and schedules itself again. *)
From S2P Require Import Prelude MessageIO.
Local Open Scope Z_scope.

(** ** The types of messages *)

(** [MessageType::None] is [NoMessage]. *)
Inductive MessageType :=
  | NoMessage
  | RequestTree | ResponseTree | RequestGetAttr | ResponseGetAttr | RequestLookup | ResponseLookup | RequestOpenDir
  | ResponseOpenDir | RequestOpen | ResponseOpen | RequestRelease | ResponseRelease | RequestForgetMulti
  | ResponseForgetMulti | RequestReleaseDir | ResponseReleaseDir | RequestRead | ResponseRead | RequestReadDir
  | ResponseReadDir | RequestReadDirPlus | ResponseReadDirPlus | NotifyInvalInode | NotifyInvalEntry.

#[export] Instance MessageType_eq_dec : EqDecision MessageType.
Proof. solve_decision. Defined.

Definition MessageType_value (type : MessageType) : Z :=
  match type with
  | NoMessage => 0
  | RequestTree => 1 | ResponseTree => 2 | RequestGetAttr => 9 | ResponseGetAttr => 10 | RequestLookup => 11
  | ResponseLookup => 12 | RequestOpenDir => 13 | ResponseOpenDir => 14 | RequestOpen => 15 | ResponseOpen => 16
  | RequestRelease => 17 | ResponseRelease => 18 | RequestForgetMulti => 19 | ResponseForgetMulti => 20
  | RequestReleaseDir => 21 | ResponseReleaseDir => 22 | RequestRead => 23 | ResponseRead => 24
  | RequestReadDir => 25 | ResponseReadDir => 26 | RequestReadDirPlus => 27 | ResponseReadDirPlus => 28
  | NotifyInvalInode => 29 | NotifyInvalEntry => 30
  end.

Definition MessageTypes : list MessageType :=
  [NoMessage; RequestTree; ResponseTree; RequestGetAttr;
   ResponseGetAttr; RequestLookup; ResponseLookup; RequestOpenDir;
   ResponseOpenDir; RequestOpen; ResponseOpen; RequestRelease; ResponseRelease; RequestForgetMulti;
   ResponseForgetMulti; RequestReleaseDir; ResponseReleaseDir; RequestRead;
   ResponseRead; RequestReadDir; ResponseReadDir; RequestReadDirPlus; ResponseReadDirPlus; NotifyInvalInode; NotifyInvalEntry].

(** The enumerator of a value read from a message, if there is one. *)
Definition MessageType_of (value : Z) : option MessageType :=
  head (filter (λ type, MessageType_value type = value) MessageTypes).

Lemma MessageType_of_value type : MessageType_of (MessageType_value type) = Some type.
Proof. by destruct type. Qed.

Lemma MessageType_of_Some value type : MessageType_of value = Some type → MessageType_value type = value.
Proof.
  unfold MessageType_of. intros H. assert (Hin : type ∈ filter (λ type, MessageType_value type = value) MessageTypes).
  { destruct (filter _ _); simplify_eq/=. left. }
  by apply list_elem_of_filter in Hin as [? _].
Qed.

(** The jobs a message is handed to, by the names of their classes. *)
Inductive handler :=
  | MergeOut | MergeIn | ResponseGetAttrJob | ResponseGetAttrInJob | ResponseLookupJob | ResponseLookupInJob
  | ResponseOpenJob | ResponseOpenInJob | ResponseOpenDirJob | ResponseOpenDirInJob | ResponseForgetMultiJob
  | ResponseForgetMultiInJob | ResponseReleaseJob | ResponseReleaseInJob | ResponseReleaseDirJob
  | ResponseReleaseDirInJob | ResponseReadFileJob | ResponseReadFileInJob | ResponseReadDirJob
  | ResponseReadDirInJob | ResponseReadDirPlusJob | ResponseReadDirPlusInJob | NotifyInvalInodeJob
  | NotifyInvalEntryJob.

#[export] Instance handler_eq_dec : EqDecision handler.
Proof. solve_decision. Defined.

(** The [switch].  All jobs take the reader but [MergeOut], which takes no part of the
    message. *)
Definition handler_for (type : MessageType) : option (handler * bool) :=
  match type with
  | RequestTree => Some (MergeOut, false)
  | ResponseTree => Some (MergeIn, true)
  | RequestGetAttr => Some (ResponseGetAttrJob, true)
  | ResponseGetAttr => Some (ResponseGetAttrInJob, true)
  | RequestLookup => Some (ResponseLookupJob, true)
  | ResponseLookup => Some (ResponseLookupInJob, true)
  | RequestOpen => Some (ResponseOpenJob, true)
  | ResponseOpen => Some (ResponseOpenInJob, true)
  | RequestOpenDir => Some (ResponseOpenDirJob, true)
  | ResponseOpenDir => Some (ResponseOpenDirInJob, true)
  | RequestForgetMulti => Some (ResponseForgetMultiJob, true)
  | ResponseForgetMulti => Some (ResponseForgetMultiInJob, true)
  | RequestRelease => Some (ResponseReleaseJob, true)
  | ResponseRelease => Some (ResponseReleaseInJob, true)
  | RequestReleaseDir => Some (ResponseReleaseDirJob, true)
  | ResponseReleaseDir => Some (ResponseReleaseDirInJob, true)
  | RequestRead => Some (ResponseReadFileJob, true)
  | ResponseRead => Some (ResponseReadFileInJob, true)
  | RequestReadDir => Some (ResponseReadDirJob, true)
  | ResponseReadDir => Some (ResponseReadDirInJob, true)
  | RequestReadDirPlus => Some (ResponseReadDirPlusJob, true)
  | ResponseReadDirPlus => Some (ResponseReadDirPlusInJob, true)
  | NotifyInvalInode => Some (NotifyInvalInodeJob, true)
  | NotifyInvalEntry => Some (NotifyInvalEntryJob, true)
  | NoMessage => None
  end.
Definition handler_of (value : Z) : option (handler * bool) := MessageType_of value ≫= handler_for.

(** ** The job *)

Module MessageTypeReadJob.

(** What a run of the job does: it stops for good, waits in [Recv], schedules itself
    again with what it has, or schedules a handler, and itself with the rest. *)
Inductive outcome :=
  | Stops
  | Waits (messages : list payload)
  | Again (messages : list payload)
  | Handles (h : handler) (reader : option MessageReader.MessageReader) (messages : list payload).

(** [memcpy] of the first four bytes. *)
Definition messageSize (front : payload) : res Z :=
  assert_that (4 <=? length front)%nat;; Ret (le_combine (take 4 front)).

(** The end of the job, from where it has a first packet.  [received] is what the next
    calls of [Recv] return; [stop] is whether a stop has been requested by then. *)
Definition with_first (stop : bool) (received : list (list payload)) (front : payload) (messages : list payload) :
    res (outcome * list (list payload)) :=
  size ← messageSize front;
  if Z.of_nat (length messages) <? size then
    match received with
    | [] => Ret (Waits messages, [])
    | more :: received => Ret (if stop then Stops else Again (messages ++ more), received)
    end
  else
    let message := take (Z.to_nat size) messages in
    let messages := drop (Z.to_nat size) messages in
    reader ← MessageReader.make message;
    '(type, reader) ← MessageReader.read_trivial 4 reader;
    match handler_of type with
    | Some (h, with_reader) => Ret (Handles h (if with_reader then Some reader else None) messages, received)
    | None => Err (Throws "MessageTypeReadJob: unknown message type")
    end.

(** [ExecuteReadNetwork]: the loop that waits for a first packet, and the rest. *)
Fixpoint wait_first (stop : bool) (received : list (list payload)) (messages : list payload) :
    res (outcome * list (list payload)) :=
  match messages with
  | front :: _ => with_first stop received front messages
  | [] =>
      if stop then Ret (Stops, received)
      else match received with
      | [] => Ret (Waits messages, [])
      | more :: received => wait_first stop received (messages ++ more)
      end
  end.
Definition ExecuteReadNetwork (stop : bool) (received : list (list payload)) (messages : list payload) :=
  wait_first stop received messages.

(** The job and those it makes of itself, as long as there is something to receive: the
    handlers it schedules, in their order, and what it has at the end.  An exception
    ends up in a [std::future] nobody looks at, and no further job is scheduled. *)
Fixpoint run (fuel : nat) (received : list (list payload)) (messages : list payload) :
    res (list (handler * option MessageReader.MessageReader) * list payload) :=
  match fuel with
  | O => Err OutOfFuel
  | S fuel =>
      match ExecuteReadNetwork false received messages with
      | Err f => Err f
      | Ret (Stops, _) => Ret ([], [])
      | Ret (Waits messages, _) => Ret ([], messages)
      | Ret (Again messages, received) => run fuel received messages
      | Ret (Handles h reader messages, received) =>
          '(hs, rest) ← run fuel received messages; Ret ((h, reader) :: hs, rest)
      end
  end.

(** Each run of the job takes a list from [received] or a packet from [messages]. *)
Definition run_fuel (received : list (list payload)) (messages : list payload) : nat :=
  S (length received + length (concat received) + length messages).

End MessageTypeReadJob.

(** ** Correctness *)

Section Correctness.
Import MessageTypeReadJob.
Implicit Types (m : list payload) (received : list (list payload)).

(** A message as its sender has made it (see [message_with_packets_roundtrip]): the first
    packet says how many packets there are, and then the type. *)
Definition message_ok m (h : handler * option MessageReader.MessageReader) : Prop :=
  ∃ front rest type with_reader, m = front :: rest ∧ (8 ≤ length front)%nat ∧
    le_combine (take 4 front) = Z.of_nat (length m) ∧ le_combine (slice 4 4 front) = type ∧
    handler_of type = Some (h.1, with_reader) ∧
    h.2 = (if with_reader then Some (MessageReader.mkMessageReader m 0 8) else None).

Lemma wait_first_cons stop received front messages :
  wait_first stop received (front :: messages) = with_first stop received front (front :: messages).
Proof. by destruct received. Qed.

Lemma messageSize_ok m h front :
  message_ok m h → head m = Some front → messageSize front = Ret (Z.of_nat (length m)).
Proof.
  intros (front' & rest & type & b & -> & Hl & Hn & _) [= ->]. unfold messageSize.
  rewrite (proj2 (assert_that_ret _)) by (apply Nat.leb_le; lia). cbn [mbind res_bind]. by rewrite Hn.
Qed.

(** The job on packets that begin with a message. *)
Lemma execute_message m h received messages :
  message_ok m h → ExecuteReadNetwork false received (m ++ messages) = Ret (Handles h.1 h.2 messages, received).
Proof.
  intros Hm. pose proof Hm as (front & rest & type & b & -> & Hl & Hn & Ht & Hh & Hr).
  unfold ExecuteReadNetwork. cbn [app]. rewrite wait_first_cons. unfold with_first.
  rewrite (messageSize_ok _ _ front Hm eq_refl). cbn [mbind res_bind].
  rewrite (proj2 (Z.ltb_ge _ _)) by (cbn [length]; rewrite ?length_app; lia). rewrite Nat2Z.id.
  rewrite app_comm_cons, take_app_length, drop_app_length.
  unfold MessageReader.make. cbn [length Nat.eqb negb assert_that mbind res_bind mret res_ret].
  unfold MessageReader.read_trivial. rewrite (read_fits 4 _ front); [|done|cbn [MessageReader.mr_offset]; lia].
  cbn [mbind res_bind mret res_ret MessageReader.mr_offset]. rewrite Ht, Hh, Hr. by destruct b.
Qed.

(** ... and on packets that begin a message but do not finish it. *)
Lemma execute_partial m h messages future received :
  message_ok m h → messages ++ future = m → future ≠ [] → messages ≠ [] →
  ExecuteReadNetwork false received messages =
    match received with
    | [] => Ret (Waits messages, [])
    | more :: received => Ret (Again (messages ++ more), received)
    end.
Proof.
  intros Hm Hf Hne Hmne. destruct messages as [|front messages]; [done|].
  assert (Hh : head m = Some front) by (by subst m).
  unfold ExecuteReadNetwork. rewrite wait_first_cons. unfold with_first.
  rewrite (messageSize_ok _ _ front Hm Hh). cbn [mbind res_bind].
  rewrite (proj2 (Z.ltb_lt _ _)); [by destruct received|].
  rewrite <- Hf, length_app. destruct future; [done|cbn [length]; lia].
Qed.


Lemma message_nonempty m h : message_ok m h → (0 < length m)%nat.
Proof. intros (front & rest & type & b & -> & _). cbn. lia. Qed.

(** What a run on the beginning of the packets of [ms] has done at its end: it has handled
    the first [k] messages, in order, and has the beginning of the next one. *)
Definition handled ms hs received messages future (result : res (list (handler * option MessageReader.MessageReader) * list payload)) : Prop :=
  ∃ (k : nat) rest, result = Ret (take k hs, rest) ∧ (k ≤ length ms)%nat ∧
    messages ++ concat received = concat (take k ms) ++ rest ∧ rest ++ future = concat (drop k ms) ∧
    match drop k ms with [] => rest = [] | m :: _ => (length rest < length m)%nat end.

(** Another message in front. *)
Lemma handled_cons m ms h hs received messages future fuel :
  handled ms hs received messages future (run fuel received messages) →
  message_ok m h → handled (m :: ms) (h :: hs) received (m ++ messages) future (run (S fuel) received (m ++ messages)).
Proof.
  intros (k & rest & E & Hk & Hp & Hr & Hd) Hm. exists (S k), rest. cbn [run]. rewrite (execute_message _ _ _ _ Hm), E.
  cbn. split; [by destruct h|]. split; [lia|]. split; [by rewrite <- !app_assoc, Hp|done].
Qed.

Lemma run_nonempty fuel ms hs received messages future :
  (∀ ms hs received messages, Forall2 message_ok ms hs → messages ++ concat received ++ future = concat ms →
    (run_fuel received messages ≤ fuel)%nat → handled ms hs received messages future (run fuel received messages)) →
  Forall2 message_ok ms hs → messages ++ concat received ++ future = concat ms → messages ≠ [] →
  (run_fuel received messages ≤ S fuel)%nat → handled ms hs received messages future (run (S fuel) received messages).
Proof.
  intros IH Hms Hp Hne Hf. unfold run_fuel in *. destruct Hms as [|m h ms hs Hm Hms]; [by destruct messages|].
  cbn [concat] in Hp. pose proof (message_nonempty _ _ Hm) as Hpos.
  destruct (decide (length m ≤ length messages)%nat) as [Hle|Hlt].
  - assert (Em : messages = m ++ drop (length m) messages).
    { rewrite <- (take_drop (length m) messages) at 1. f_equal.
      apply (f_equal (take (length m))) in Hp. by rewrite take_app_le, take_app_length in Hp. }
    rewrite Em in *. clear Em. set (messages' := drop _ _) in *. apply handled_cons; [|done]. apply IH; [done| |].
    + rewrite <- app_assoc in Hp. by apply app_inv_head in Hp.
    + rewrite length_app in Hf. lia.
  - set (fut := drop (length messages) m).
    assert (Em : messages ++ fut = m).
    { rewrite <- (take_drop (length messages) m). fold fut. f_equal.
      apply (f_equal (take (length messages))) in Hp. by rewrite take_app_length, take_app_le in Hp by lia. }
    assert (Hfut : fut ≠ []) by (intros E; rewrite E, app_nil_r in Em; subst; lia).
    cbn [run]. rewrite (execute_partial m h messages fut received Hm Em Hfut Hne). destruct received as [|more received].
    + exists O, messages. cbn. rewrite app_nil_r. split; [done|]. split; [lia|]. split; [done|]. split; [done|lia].
    + cbn [concat length] in *. rewrite length_app in Hf. rewrite <- app_assoc in Hp. rewrite (app_assoc messages) in Hp.
      destruct (IH (m :: ms) (h :: hs) received (messages ++ more)) as (k & rest & E & Hk & Hp' & Hr & Hd);
        [by constructor|done|rewrite length_app; lia|].
      exists k, rest. split; [done|]. split; [done|]. split; [|done]. rewrite <- Hp'. cbn [concat]. by rewrite app_assoc.
Qed.

Lemma run_handled fuel : ∀ ms hs received messages future,
  Forall2 message_ok ms hs → messages ++ concat received ++ future = concat ms →
  (run_fuel received messages ≤ fuel)%nat → handled ms hs received messages future (run fuel received messages).
Proof.
  induction fuel as [|fuel IH]; intros ms hs received messages future Hms Hp Hf; [unfold run_fuel in Hf; lia|].
  destruct messages as [|p messages].
  2: { apply run_nonempty; try done. intros; by apply IH. }
  induction received as [|more received IHr].
  - exists O, []. cbn. split; [done|]. split; [lia|]. split; [done|]. split; [done|].
    destruct Hms as [|m h ms hs Hm Hms]; [done|]. by eapply message_nonempty.
  - assert (E : run (S fuel) (more :: received) [] = run (S fuel) received more) by done.
    unfold handled. rewrite E. destruct more as [|p more].
    + apply IHr; [done|]. unfold run_fuel in *. cbn in *. lia.
    + apply (run_nonempty fuel ms hs received (p :: more) future); try done.
      * intros; by apply IH.
      * cbn [app concat] in Hp |- *. by rewrite <- app_assoc in Hp.
      * unfold run_fuel in *. cbn in *. rewrite length_app in Hf. cbn in Hf. lia.
Qed.

(** C38: However the packets of a sequence of messages are cut into lists by [Recv], the job
    hands each message that has arrived whole to its handler, in order, each once, and
    keeps the packets behind; when all packets have arrived, all messages are handled. *)
Theorem framing_recovers_messages ms hs received future :
  Forall2 message_ok ms hs → concat received ++ future = concat ms →
  ∃ (k : nat) rest, run (run_fuel received []) received [] = Ret (take k hs, rest) ∧
    concat received = concat (take k ms) ++ rest ∧
    match drop k ms with [] => rest = [] | m :: _ => (length rest < length m)%nat end ∧
    (future = [] → take k hs = hs ∧ rest = []).
Proof.
  intros Hms Hp. destruct (run_handled (run_fuel received []) ms hs received [] future Hms Hp (le_n _))
    as (k & rest & E & Hk & Hc & Hr & Hd).
  exists k, rest. split; [done|]. split; [done|]. split; [done|]. intros ->. rewrite app_nil_r in Hr.
  destruct (drop k ms) as [|m ms'] eqn:Ed.
  - split; [|done]. apply take_ge. rewrite <- (Forall2_length _ _ _ Hms).
    apply (f_equal length) in Ed. rewrite length_drop in Ed. cbn in Ed. lia.
  - exfalso. rewrite Hr in Hd. cbn in Hd. rewrite length_app in Hd. lia.
Qed.

(** A message of a type that does not exist ends the reading: the exception leaves the
    job before it has scheduled its successor. *)
Lemma unknown_message_stops_reading front rest received :
  (8 ≤ length front)%nat → le_combine (take 4 front) = 1 → handler_of (le_combine (slice 4 4 front)) = None →
  run (run_fuel received (front :: rest)) received (front :: rest) = Err (Throws "MessageTypeReadJob: unknown message type").
Proof.
  intros Hl Hn Ht. unfold run_fuel. cbn [run]. unfold ExecuteReadNetwork. rewrite wait_first_cons.
  unfold with_first, messageSize. rewrite (proj2 (assert_that_ret _)) by (apply Nat.leb_le; lia).
  cbn [mbind res_bind]. rewrite Hn. rewrite (proj2 (Z.ltb_ge _ _)) by (cbn [length]; lia).
  change (Z.to_nat 1) with 1%nat. cbn [take]. unfold MessageReader.make. cbn [length Nat.eqb negb assert_that mbind res_bind mret res_ret].
  unfold MessageReader.read_trivial. rewrite take_0, (read_fits 4 _ front); [|done|cbn [MessageReader.mr_offset]; lia].
  cbn [mbind res_bind mret res_ret MessageReader.mr_offset]. by rewrite Ht.
Qed.

(** A first packet that says that there are no packets fails an assertion. *)
Lemma empty_message_asserts front rest received :
  (4 ≤ length front)%nat → le_combine (take 4 front) = 0 →
  ExecuteReadNetwork false received (front :: rest) = Err AssertFails.
Proof.
  intros Hl Hn. unfold ExecuteReadNetwork. rewrite wait_first_cons. unfold with_first, messageSize.
  rewrite (proj2 (assert_that_ret _)) by (apply Nat.leb_le; lia). cbn [mbind res_bind]. rewrite Hn.
  by rewrite (proj2 (Z.ltb_ge _ _)) by (cbn [length]; lia).
Qed.

End Correctness.

(** Every type has a handler of its own, and no other value has one. *)
Lemma handler_of_type value h b :
  handler_of value = Some (h, b) ↔ ∃ type, value = MessageType_value type ∧ handler_for type = Some (h, b).
Proof.
  unfold handler_of. rewrite bind_Some. split.
  - intros (type & E & H). exists type. by rewrite (MessageType_of_Some _ _ E).
  - intros (type & -> & H). exists type. by rewrite MessageType_of_value.
Qed.

Lemma handler_for_inj type1 type2 h b1 b2 :
  handler_for type1 = Some (h, b1) → handler_for type2 = Some (h, b2) → type1 = type2.
Proof. destruct type1, type2; naive_solver. Qed.

(** ** Witnesses *)

Section Witnesses.
Import MessageTypeReadJob.

Definition packet_of (n type : Z) : payload := le_split 4 n ++ le_split 4 type ++ [0; 0].
Definition lookup_message : list payload := [packet_of 1 11].
Definition read_message : list payload := [packet_of 3 24; [1; 1]; [2; 2]].
Definition lookup_handler : handler * option MessageReader.MessageReader :=
  (ResponseLookupJob, Some (MessageReader.mkMessageReader lookup_message 0 8)).
Definition read_handler : handler * option MessageReader.MessageReader :=
  (ResponseReadFileInJob, Some (MessageReader.mkMessageReader read_message 0 8)).

Lemma lookup_message_ok : message_ok lookup_message lookup_handler.
Proof. eexists _, [], _, true. repeat split; vm_compute; try done; lia. Qed.
Lemma read_message_ok : message_ok read_message read_handler.
Proof. eexists _, [_; _], _, true. repeat split; vm_compute; try done; lia. Qed.

(** Two messages in three lists of packets. *)
Lemma framing_recovers_messages_witness :
  ∃ (k : nat) rest, run (run_fuel [[packet_of 1 11; packet_of 3 24]; []; [[1; 1]; [2; 2]]] [])
      [[packet_of 1 11; packet_of 3 24]; []; [[1; 1]; [2; 2]]] [] =
    Ret (take k [lookup_handler; read_handler], rest) ∧ take k [lookup_handler; read_handler] = [lookup_handler; read_handler] ∧ rest = [].
Proof.
  destruct (framing_recovers_messages [lookup_message; read_message] [lookup_handler; read_handler]
    [[packet_of 1 11; packet_of 3 24]; []; [[1; 1]; [2; 2]]] []) as (k & rest & E & _ & _ & H).
  - constructor; [exact lookup_message_ok|constructor; [exact read_message_ok|constructor]].
  - reflexivity.
  - exists k, rest. split; [exact E|]. exact (H eq_refl).
Defined.

End Witnesses.
