(* ===== verification/Serializer.v ===== *)
(** * Serializer: the tree of leaves as a sequence of bytes
    [FileSystem/include/ByteStream.hpp], [LeafSerializer.hpp], [File.hpp], and the jobs
    that send a tree to the other side ([Protocol/src/MergeRequest.cpp], [MergeOut.cpp],
    [MergeIn.cpp]).

    The streams of the code are template parameters constrained by concepts; here they
    are classes, with laws that tie what was written to what is read, and the
    [MessageWriter] and [MessageReader] of [MessageIO] and lists of bytes as instances. *)
From S2P Require Import Prelude Addr Packet MessageIO Leaf FileTree.
From stdpp Require Import strings.
Local Open Scope Z_scope.

(** ** Streams *)

(** The concepts [OutputStream] and [InputStream]. *)
Class OutputStream (O : Type) := { write : list Z → O → res O }.
Class InputStream (I : Type) := { read : nat → I → res (list Z * I) }.

(** [contents] is what has been written, [fits] whether that many bytes more can be. *)
Class OutputLaws (O : Type) `{OutputStream O} := {
  contents : O → list Z;
  fits : O → nat → Prop;
  fits_le (o : O) m n : fits o n → (m ≤ n)%nat → fits o m;
  write_law (bs : list Z) (o : O) n : fits o (length bs + n) →
    ∃ o', write bs o = Ret o' ∧ contents o' = contents o ++ bs ∧ fits o' n;
}.

(** [pending i bs]: the next bytes are [bs]. *)
Class InputLaws (I : Type) `{InputStream I} := {
  pending : I → list Z → Prop;
  read_law (bs rest : list Z) (i : I) : pending i (bs ++ rest) →
    ∃ i', read (length bs) i = Ret (bs, i') ∧ pending i' rest;
}.

Definition sizeof_uint32 : nat := 4.
Definition sizeof_uint64 : nat := 8.
Definition sizeof_file_type : nat := 1.

Definition bytes_of (s : string) : list Z := (λ c, Z.of_nat (Ascii.nat_of_ascii c)) <$> String.list_ascii_of_string s.
Definition string_of (bs : list Z) : string := String.string_of_list_ascii ((λ b, Ascii.ascii_of_nat (Z.to_nat b)) <$> bs).

(** [OutputByteStream]. *)
Module OutputByteStream.
Section Operations.
Context {O : Type} `{!OutputStream O}.

Definition put_trivial (n : nat) (z : Z) (o : O) : res O := write (le_split n z) o.

(** A string is its 32-bit length and its characters. *)
Definition put_string (s : list Z) (o : O) : res O :=
  o ← write (le_split sizeof_uint32 (Z.of_nat (length s))) o; write s o.
Definition put_path (path : string) (o : O) : res O := put_string (bytes_of path) o.

End Operations.
End OutputByteStream.

(** [InputByteStream]. *)
Module InputByteStream.
Section Operations.
Context {I : Type} `{!InputStream I}.

Definition get_trivial (n : nat) (i : I) : res (Z * I) :=
  '(bs, i) ← read n i; Ret (le_combine bs, i).

Definition get_string (i : I) : res (list Z * I) :=
  '(bs, i) ← read sizeof_uint32 i; read (Z.to_nat (le_combine bs)) i.
Definition get_path (i : I) : res (string * I) :=
  '(bs, i) ← get_string i; Ret (string_of bs, i).

End Operations.
End InputByteStream.

(** The values of [std::filesystem::file_type], an enumeration of [signed char] (as
    [libstdc++] numbers it).  A byte that is none of them is taken for [unknown]; the code
    keeps it, and never compares it with anything. *)
Definition file_type_code (ty : file_type) : Z :=
  match ty with
  | ft_none => 0 | ft_not_found => 255 | ft_regular => 1 | ft_directory => 2 | ft_symlink => 3
  | ft_block => 4 | ft_character => 5 | ft_fifo => 6 | ft_socket => 7 | ft_unknown => 8
  end.
Definition all_file_types : list file_type :=
  [ft_none; ft_not_found; ft_regular; ft_directory; ft_symlink; ft_block; ft_character; ft_fifo; ft_socket].
Definition file_type_of (code : Z) : file_type :=
  default ft_unknown (head (filter (λ ty, file_type_code ty = code) all_file_types)).

(** ** The serialiser *)

Module LeafSerializer.
Section Operations.
Context {P J : Type} `{!IPacket P} {Out In : Type} `{!OutputStream Out, !InputStream In}.
(** Where the next leaf is allocated. *)
Context (alloc : FileTree P J → Z).
Implicit Types (t : FileTree P J).
Import OutputByteStream InputByteStream.

Definition put_header (leaf : LeafObject P J) (o : Out) : res Out :=
  o ← put_path (lo_name leaf) o;
  o ← put_trivial sizeof_file_type (file_type_code (lo_type leaf)) o;
  o ← put_trivial sizeof_uint64 (LeafObject.GetSize leaf) o;
  put_trivial sizeof_uint64 (Z.of_nat (length (lo_children leaf))) o.

(** [Serialize]; [fuel] bounds the depth of the recursion. *)
Fixpoint Serialize (fuel : nat) t (a : Z) (o : Out) : res Out :=
  match fuel with
  | O => Err OutOfFuel
  | S fuel =>
      leaf ← FileTree.leaf_at a t;
      o ← put_header leaf o;
      foldl (λ m '(_, child), o ← m; Serialize fuel t child o) (Ret o) (lo_children leaf)
  end.

Definition get_header (i : In) : res (string * file_type * Z * In) :=
  '(name, i) ← get_path i;
  '(type, i) ← get_trivial sizeof_file_type i;
  '(fileSize, i) ← get_trivial sizeof_uint64 i;
  Ret (name, file_type_of type, fileSize, i).

(** [std::make_shared<Leaf>(name, type, fileSize, parent)], held by a local variable. *)
Definition make_leaf (name : string) (type : file_type) (fileSize : Z) (parent : option Z) t : FileTree P J * Z :=
  let a := alloc t in
  (FileTree.hold a (FileTree.with_serial (S (ft_serial t))
     (FileTree.set_leaf a (LeafObject.make (ft_serial t) name type fileSize parent) t)), a).

(** The loop over the children. *)
Fixpoint add_children (deserialize : In → FileTree P J → res (FileTree P J * Z * In)) (n : nat) (leaf : Z)
    (i : In) t : res (FileTree P J * In) :=
  match n with
  | O => Ret (t, i)
  | S n =>
      '(t, childLeaf, i) ← deserialize i t;
      '(t, _) ← FileTree.AddChildLeaf leaf childLeaf t;
      add_children deserialize n leaf i t
  end.

(** [Deserialize]. *)
Fixpoint Deserialize (fuel : nat) (parent : option Z) (i : In) t : res (FileTree P J * Z * In) :=
  match fuel with
  | O => Err OutOfFuel
  | S fuel =>
      '(name, type, fileSize, i) ← get_header i;
      let '(t, leaf) := make_leaf name type fileSize parent t in
      '(size, i) ← get_trivial sizeof_uint64 i;
      '(t, i) ← add_children (Deserialize fuel (Some leaf)) (Z.to_nat size) leaf i t;
      Ret (t, leaf, i)
  end.

(** [File::Serialize] and [Deserialize]: a size and a type. *)
Definition File_Serialize (size : Z) (type : file_type) (o : Out) : res Out :=
  o ← put_trivial sizeof_uint64 size o; put_trivial sizeof_file_type (file_type_code type) o.
Definition File_Deserialize (i : In) : res (Z * file_type * In) :=
  '(size, i) ← get_trivial sizeof_uint64 i;
  '(type, i) ← get_trivial sizeof_file_type i;
  Ret (size, file_type_of type, i).

End Operations.
End LeafSerializer.

(** ** Streams of messages, and of bytes *)

#[export] Instance MessageWriter_stream : OutputStream MessageWriter.MessageWriter := { write := MessageWriter.write }.
#[export] Instance MessageReader_stream : InputStream MessageReader.MessageReader := { read := MessageReader.read }.

(** [std::basic_stringstream<std::byte>]: a short read leaves the rest of the destination,
    which the deserialiser has set to zero. *)
#[export] Instance list_output : OutputStream (list Z) := { write bs o := Ret (o ++ bs) }.
#[export] Instance list_input : InputStream (list Z) := {
  read n i := Ret (take n i ++ replicate (n - length i) 0, drop n i)
}.

(** ** The jobs *)

Module Merge.
Section Operations.
Context {P J : Type} `{!IPacket P} (alloc : FileTree P J → Z).
Implicit Types (t : FileTree P J).

Definition sizeof_MessageType : nat := 4.
Definition RequestTree : Z := 1.
Definition ResponseTree : Z := 2.

(** [MergeRequest::ExecuteMain]: the message to send, and the packets left. *)
Definition MergeRequest_Execute (message : list MessageIO.payload) : res (list MessageIO.payload * list MessageIO.payload) :=
  writer ← MessageWriter.write_trivial sizeof_MessageType RequestTree (MessageWriter.make message);
  MessageWriter.GetWritedPackets writer.

(** [MergeOut::ExecuteMain]. *)
Definition MergeOut_Execute (fuel : nat) t (message : list MessageIO.payload) : res (list MessageIO.payload * list MessageIO.payload) :=
  writer ← MessageWriter.write_trivial sizeof_MessageType ResponseTree (MessageWriter.make message);
  writer ← LeafSerializer.Serialize fuel t (ft_root t) writer;
  MessageWriter.GetWritedPackets writer.

(** [FileTree::SetRoot]: the old root goes. *)
Definition SetRoot (root : Z) t : res (FileTree P J) :=
  t ← FileTree.release (ft_root t) (mkFileTree (ft_leaves t) (ft_serial t) (FileTree.remove_one root (ft_held t))
    (ft_index t) root (ft_cachePerShard t) (ft_grandTotal t));
  o ← FileTree.leaf_at root t;
  Ret (FileTree.set_leaf root (LeafObject.SetTree true o) t).

(** [MergeIn::ExecuteMainRead], with a reader past the type of the message: the new tree,
    and the packets it gives back to the connection.  These are those of [_reader], which
    has been moved from: none. *)
Definition MergeIn_Execute (fuel : nat) (_reader : MessageReader.MessageReader) t :
    res (FileTree P J * list MessageIO.payload) :=
  let '(reader, _reader) := (_reader, MessageReader.mkMessageReader [] 0 4) in
  '(t, root, _) ← LeafSerializer.Deserialize alloc fuel None reader t;
  t ← SetRoot root t;
  Ret (t, MessageReader.GetPackets _reader).

End Operations.
End Merge.

(** ** Trees as values

    What a tree of leaves means to both sides: names, types and sizes. *)
#[local] Unset Elimination Schemes.
Inductive tree :=
  | Node (name : string) (type : file_type) (fileSize : Z) (subtrees : list tree).
#[local] Set Elimination Schemes.

Section TreeInduction.
Variable (Q : tree → Prop).
Hypothesis (HNode : ∀ name type fileSize ts, Forall Q ts → Q (Node name type fileSize ts)).
Fixpoint tree_ind (tr : tree) : Q tr :=
  match tr with
  | Node name type fileSize ts =>
      HNode name type fileSize ts
        ((fix all (ts : list tree) : Forall Q ts :=
            match ts with
            | [] => Forall_nil_2 _
            | tr :: ts => Forall_cons_2 _ _ _ (tree_ind tr) (all ts)
            end) ts)
  end.
End TreeInduction.

Definition tree_name (tr : tree) : string := match tr with Node name _ _ _ => name end.

Fixpoint height (tr : tree) : nat := match tr with Node _ _ _ ts => S (foldr max O (height <$> ts)) end.
Fixpoint nodes (tr : tree) : nat := match tr with Node _ _ _ ts => S (foldr Nat.add O (nodes <$> ts)) end.

(** The names of the children in the order of a [std::map]. *)
Definition name_lt (x y : string) : Prop := String.compare y x = Gt.

(** What fits into the fields of the format: sizes and numbers of 64 bits, names of less
    than 4 GiB. *)
Inductive tree_ok : tree → Prop :=
  | Node_ok name type fileSize ts :
      Z.of_nat (length (bytes_of name)) < 2 ^ 32 → 0 ≤ fileSize < 2 ^ 64 →
      Z.of_nat (length ts) < 2 ^ 64 →
      StronglySorted name_lt (tree_name <$> ts) → Forall tree_ok ts →
      tree_ok (Node name type fileSize ts).

(** The format. *)
Definition encode_header (name : string) (type : file_type) (fileSize : Z) (n : nat) : list Z :=
  le_split sizeof_uint32 (Z.of_nat (length (bytes_of name))) ++ bytes_of name ++
  le_split sizeof_file_type (file_type_code type) ++ le_split sizeof_uint64 fileSize ++
  le_split sizeof_uint64 (Z.of_nat n).
Fixpoint encode (tr : tree) : list Z :=
  match tr with
  | Node name type fileSize ts => encode_header name type fileSize (length ts) ++ concat (encode <$> ts)
  end.

(** [Represents t tr a]: the leaves from [a] down are the tree [tr]. *)
Section Represents.
Context {P J : Type} `{!IPacket P}.

Inductive Represents (m : gmap Z (LeafObject P J)) : tree → Z → Prop :=
  | Represents_Node name type fileSize ts a o :
      m !! a = Some o → lo_name o = name → lo_type o = type → LeafObject.GetSize o = fileSize →
      Forall2 (λ tr kv, kv.1 = tree_name tr ∧ Represents m tr kv.2) ts (lo_children o) →
      Represents m (Node name type fileSize ts) a.

End Represents.

Section Correctness.
Context {P J : Type} `{!IPacket P}.
Implicit Types (t : FileTree P J) (m : gmap Z (LeafObject P J)) (a : Z) (tr : tree).

Lemma height_child name type fileSize ts tr fuel :
  (height (Node name type fileSize ts) ≤ S fuel)%nat → tr ∈ ts → (height tr ≤ fuel)%nat.
Proof.
  cbn. intros H Hin. apply le_S_n in H. revert H.
  induction Hin as [tr ts|tr tr' ts Hin IH]; cbn; [lia|]. intros H. apply IH. lia.
Qed.

Lemma nodes_child name type fileSize ts tr : tr ∈ ts → (nodes tr < nodes (Node name type fileSize ts))%nat.
Proof. cbn. induction 1; cbn; lia. Qed.

(** *** The deepest path is shorter than the number of leaves *)

Lemma Represents_functional m tr tr' a : Represents m tr a → Represents m tr' a → tr = tr'.
Proof.
  intros H. revert tr'. revert a H.
  induction tr as [name type fileSize ts IH] using tree_ind; intros a H tr' H'.
  inversion H as [? ? ? ? ? o Ho ? ? ? Hts]; inversion H' as [? ? ? ts' ? o' Ho' ? ? ? Hts']; subst.
  rewrite Ho in Ho'. simplify_eq. f_equal. clear H H' Ho. revert ts' Hts'.
  induction Hts as [|tr kv ts kvs [_ Hk] Hts IHts]; intros ts' Hts'; inversion Hts' as [|tr' ? ts2 ? [_ Hk']]; [done|].
  subst. apply Forall_cons in IH as [IH1 IH2]. f_equal; [by eapply IH1|by apply IHts].
Qed.

Lemma Represents_delete m tr a c b :
  Represents m tr a → (nodes c < nodes tr)%nat → Represents m c b → Represents (delete a m) c b.
Proof.
  intros Ha. revert b. induction c as [name type fileSize ts IH] using tree_ind; intros b Hlt H.
  assert (Hne : a ≠ b) by (intros ->; rewrite (Represents_functional _ _ _ _ Ha H) in Hlt; lia).
  inversion H as [? ? ? ? ? o Ho ? ? ? Hts]; subst. econstructor; [by rewrite lookup_delete_ne|done..|].
  assert (Hsub : ∀ c, c ∈ ts → (nodes c < nodes tr)%nat)
    by (intros c Hc; pose proof (nodes_child (lo_name o) (lo_type o) (LeafObject.GetSize o) ts c Hc); lia).
  clear H Hlt Ho. induction Hts as [|c kv ts kvs [? Hk] Hts IHts]; constructor.
  - split; [done|]. apply Forall_cons in IH as [IH1 _]. apply IH1; [|done]. apply Hsub. by left.
  - apply Forall_cons in IH as [_ IH2]. apply IHts; [done|]. intros c' Hc'. apply Hsub. by right.
Qed.

Lemma Represents_height m tr a : Represents m tr a → (height tr ≤ size m)%nat.
Proof.
  remember (nodes tr) as n eqn:En. revert m tr a En.
  induction (lt_wf n) as [n _ IHn]. intros m tr a -> H. destruct tr as [name type fileSize ts].
  pose proof H as H0. inversion H as [? ? ? ? ? o Ho ? ? ? Hts]; subst. cbn [height].
  rewrite <- (insert_delete_id m a o Ho), map_size_insert_None by apply lookup_delete_eq. apply le_n_S.
  assert (Hall : Forall (λ c, height c ≤ size (delete a m))%nat ts).
  { apply Forall_forall. intros c Hc. apply list_elem_of_lookup in Hc as [j Hj].
    destruct (Forall2_lookup_l _ _ _ _ _ Hts Hj) as (kv & _ & _ & Hk).
    assert (Hlt : (nodes c < nodes (Node (lo_name o) (lo_type o) (LeafObject.GetSize o) ts))%nat)
      by (apply nodes_child, list_elem_of_lookup; eauto).
    eapply (IHn _ Hlt); [done|]. by apply (Represents_delete _ _ _ _ _ H0). }
  clear -Hall. induction Hall as [|c ts Hc Hall IH]; cbn; lia.
Qed.

(** *** Writing *)

Section Writing.
Context {Out : Type} `{!OutputStream Out, !OutputLaws Out}.

(** [f] appends [bs]. *)
Definition writes (f : Out → res Out) (bs : list Z) : Prop :=
  ∀ o n, fits o (length bs + n) → ∃ o', f o = Ret o' ∧ contents o' = contents o ++ bs ∧ fits o' n.

Lemma writes_write bs : writes (write bs) bs.
Proof. intros o n. apply write_law. Qed.

Lemma writes_nil : writes Ret [].
Proof. intros o n Hf. exists o. by rewrite app_nil_r. Qed.

Lemma writes_app f g bs cs : writes f bs → writes g cs → writes (λ o, o ← f o; g o) (bs ++ cs).
Proof.
  intros Hf Hg o n Hfit. rewrite length_app, <- Nat.add_assoc in Hfit.
  destruct (Hf _ _ Hfit) as (o1 & E1 & H1 & Hfit1). destruct (Hg _ _ Hfit1) as (o2 & E2 & H2 & Hfit2).
  exists o2. rewrite E1. cbn. by rewrite H2, H1, app_assoc.
Qed.

Lemma writes_path name : writes (OutputByteStream.put_path name)
  (le_split sizeof_uint32 (Z.of_nat (length (bytes_of name))) ++ bytes_of name).
Proof. unfold OutputByteStream.put_path, OutputByteStream.put_string. apply writes_app; apply writes_write. Qed.

Lemma writes_header (leaf : LeafObject P J) : writes (LeafSerializer.put_header leaf)
  (encode_header (lo_name leaf) (lo_type leaf) (LeafObject.GetSize leaf) (length (lo_children leaf))).
Proof.
  unfold LeafSerializer.put_header, encode_header. rewrite (assoc (++)).
  apply writes_app; [apply writes_path|]. repeat (apply writes_app; [apply writes_write|]). apply writes_write.
Qed.

Lemma Serialize_writes fuel : ∀ tr t a,
  Represents (ft_leaves t) tr a → (height tr ≤ fuel)%nat →
  writes (LeafSerializer.Serialize fuel t a) (encode tr).
Proof.
  induction fuel as [|fuel IH]; intros [name type fileSize ts] t a H Hh; [cbn in Hh; lia|].
  inversion H as [? ? ? ? ? leaf Ho ? ? ? Hts]; subst. cbn [LeafSerializer.Serialize encode].
  intros o n Hfit. unfold FileTree.leaf_at. rewrite Ho. cbn [mbind res_bind].
  rewrite (Forall2_length _ _ _ Hts) in *. revert o n Hfit. apply (writes_app (LeafSerializer.put_header leaf)).
  { apply writes_header. }
  assert (Hc : ∀ tr, tr ∈ ts → (height tr ≤ fuel)%nat) by (intros tr; by eapply height_child).
  clear H Ho Hh. induction Hts as [|tr [k b] ts kvs [_ Hk] Hts IHts]; [apply writes_nil|].
  intros o n Hfit. cbn [foldl fmap list_fmap concat mbind res_bind] in *. rewrite length_app, <- Nat.add_assoc in Hfit.
  destruct (IH tr t b Hk (Hc tr ltac:(by left)) _ _ Hfit) as (o1 & -> & H1 & Hfit1).
  destruct (IHts (λ tr Hin, Hc tr (list_elem_of_further _ _ _ Hin)) _ _ Hfit1) as (o2 & E2 & H2 & Hfit2).
  exists o2. by rewrite E2, H2, H1, app_assoc.
Qed.
End Writing.

(** *** Reading *)

Section Reading.
Context {In : Type} `{!InputStream In, !InputLaws In}.
Context (alloc : FileTree P J → Z) (Halloc : ∀ t, ft_leaves t !! alloc t = None).

(** [f] takes [bs] and gives [x]. *)
Definition reads {A} (f : In → res (A * In)) (bs : list Z) (x : A) : Prop :=
  ∀ i rest, pending i (bs ++ rest) → ∃ i', f i = Ret (x, i') ∧ pending i' rest.

Lemma reads_read n bs : length bs = n → reads (read n) bs bs.
Proof. intros <- i rest. apply read_law. Qed.

Lemma reads_bind {A B} (f : In → res (A * In)) (g : A → In → res (B * In)) bs cs x y :
  reads f bs x → reads (g x) cs y → reads (λ i, '(a, i) ← f i; g a i) (bs ++ cs) y.
Proof.
  intros Hf Hg i rest Hp. rewrite <- app_assoc in Hp. destruct (Hf _ _ Hp) as (i1 & E1 & H1).
  destruct (Hg _ _ H1) as (i2 & E2 & H2). exists i2. by rewrite E1.
Qed.

Lemma reads_ret {A B} (f : In → res (A * In)) (h : A → B) bs x :
  reads f bs x → reads (λ i, '(a, i) ← f i; Ret (h a, i)) bs (h x).
Proof. intros Hf i rest Hp. destruct (Hf _ _ Hp) as (i1 & E1 & H1). exists i1. by rewrite E1. Qed.

Lemma reads_trivial n z : 0 ≤ z < 2 ^ (8 * Z.of_nat n) → reads (InputByteStream.get_trivial n) (le_split n z) z.
Proof.
  intros Hz. unfold InputByteStream.get_trivial.
  rewrite <- (wrap_small (8 * Z.of_nat n) z Hz) at 2. rewrite <- le_combine_split.
  apply (reads_ret (read n)), reads_read, length_le_split.
Qed.

Lemma string_of_bytes s : string_of (bytes_of s) = s.
Proof.
  unfold string_of, bytes_of. rewrite <- list_fmap_compose.
  rewrite (list_fmap_ext _ id); [by rewrite list_fmap_id, String.string_of_list_ascii_of_string|].
  intros _ c _. cbn. by rewrite Nat2Z.id, Ascii.ascii_nat_embedding.
Qed.

Lemma reads_path name : Z.of_nat (length (bytes_of name)) < 2 ^ 32 →
  reads InputByteStream.get_path (le_split sizeof_uint32 (Z.of_nat (length (bytes_of name))) ++ bytes_of name) name.
Proof.
  intros Hl. unfold InputByteStream.get_path, InputByteStream.get_string. rewrite <- (string_of_bytes name) at 3.
  apply (reads_ret _ string_of).
  apply (reads_bind (read sizeof_uint32) (λ bs, read (Z.to_nat (le_combine bs))) _ _
    (le_split sizeof_uint32 (Z.of_nat (length (bytes_of name))))).
  - apply reads_read, length_le_split.
  - apply reads_read. rewrite le_combine_split, wrap_small by (change (8 * Z.of_nat sizeof_uint32) with 32; lia).
    by rewrite Nat2Z.id.
Qed.

Lemma file_type_of_code ty : file_type_of (file_type_code ty) = ty.
Proof. by destruct ty. Qed.

(** Reading the fields in front of the number of children. *)
Lemma get_header_reads name type fileSize :
  Z.of_nat (length (bytes_of name)) < 2 ^ 32 → 0 ≤ fileSize < 2 ^ 64 →
  reads LeafSerializer.get_header
    ((le_split sizeof_uint32 (Z.of_nat (length (bytes_of name))) ++ bytes_of name) ++
     le_split sizeof_file_type (file_type_code type) ++ le_split sizeof_uint64 fileSize) (name, type, fileSize).
Proof.
  intros Hl Hs. unfold LeafSerializer.get_header.
  apply (reads_bind InputByteStream.get_path (λ name i, '(type, i) ← InputByteStream.get_trivial sizeof_file_type i;
    '(fileSize, i) ← InputByteStream.get_trivial sizeof_uint64 i; Ret (name, file_type_of type, fileSize, i)) _ _ name).
  { by apply reads_path. }
  apply (reads_bind (InputByteStream.get_trivial sizeof_file_type) (λ type i,
    '(fileSize, i) ← InputByteStream.get_trivial sizeof_uint64 i; Ret (name, file_type_of type, fileSize, i))
    _ _ (file_type_code type)).
  { apply reads_trivial. by destruct type. }
  rewrite file_type_of_code.
  apply (reads_ret (InputByteStream.get_trivial sizeof_uint64) (λ fileSize, (name, type, fileSize))).
  apply reads_trivial. done.
Qed.

(** *** Building *)

Lemma Represents_mono m m' tr a :
  (∀ b o, m !! b = Some o → m' !! b = Some o) → Represents m tr a → Represents m' tr a.
Proof.
  intros Hm. revert a. induction tr as [name type fileSize ts IH] using tree_ind; intros a H.
  inversion H as [? ? ? ? ? o Ho ? ? ? Hts]; subst. econstructor; [by apply Hm|done..|].
  clear H Ho. induction Hts as [|c kv ts kvs [? Hk] Hts IHts]; constructor.
  - split; [done|]. apply Forall_cons in IH as [IH1 _]. by apply IH1.
  - apply Forall_cons in IH as [_ IH2]. by apply IHts.
Qed.

(** A name behind all others of a map is put behind them. *)
Lemma insert_last {A} k (x : A) (kvs : list (string * A)) :
  Forall (λ kv, name_lt kv.1 k) kvs →
  StringMap.find k kvs = None ∧ StringMap.insert k x kvs = kvs ++ [(k, x)].
Proof.
  induction 1 as [|[k' x'] kvs Hk Hkvs [IH1 IH2]]; cbn; [done|]. unfold name_lt in Hk. cbn in Hk. rewrite Hk.
  rewrite bool_decide_eq_false_2 by (intros <-; pose proof (String.compare_antisym k k) as E; by rewrite Hk in E).
  by rewrite IH2.
Qed.

(** What [Deserialize] promises: a tree of new leaves, held by the caller. *)
Definition built (tr : tree) parent t t' (a : Z) : Prop :=
  (∀ b o, ft_leaves t !! b = Some o → ft_leaves t' !! b = Some o) ∧
  Represents (ft_leaves t' ∖ ft_leaves t) tr a ∧
  (∃ o, ft_leaves t' !! a = Some o ∧ lo_tree o = false ∧ lo_parent o = parent) ∧
  ft_held t' = a :: ft_held t ∧ ft_index t' = ft_index t ∧ ft_root t' = ft_root t.

(** The loop over the children: [ts] are done, with their leaves in [kvs], and
    [t0] is the state before the leaf [a] was made. *)
Definition building (ts : list tree) name type fileSize parent t0 t (a : Z) : Prop :=
  (∀ b o, ft_leaves t0 !! b = Some o → ft_leaves t !! b = Some o) ∧ ft_leaves t0 !! a = None ∧
  (∃ o, ft_leaves t !! a = Some o ∧ lo_tree o = false ∧ lo_parent o = parent ∧ lo_name o = name ∧ lo_type o = type ∧
    LeafObject.GetSize o = fileSize ∧
    Forall2 (λ tr kv, kv.1 = tree_name tr ∧ Represents (delete a (ft_leaves t ∖ ft_leaves t0)) tr kv.2) ts (lo_children o)) ∧
  ft_held t = a :: ft_held t0 ∧ ft_index t = ft_index t0 ∧ ft_root t = ft_root t0.

Lemma building_step ts tr name type fileSize parent t0 t t1 a b :
  building ts name type fileSize parent t0 t a → built tr (Some a) t t1 b →
  Forall (λ c, name_lt (tree_name c) (tree_name tr)) ts →
  ∃ t2, FileTree.AddChildLeaf a b t1 = Ret (t2, b) ∧ building (ts ++ [tr]) name type fileSize parent t0 t2 a.
Proof.
  intros (Hsub & Ha0 & (o & Ho & Htree & Hpar & Hname & Htype & Hsize & Hts) & Hheld & Hix & Hroot)
    (Hsub1 & Hrep & (ob & Hob & Hbtree & _) & Hheld1 & Hix1 & Hroot1) Hlt.
  pose proof Hrep as Hrep0. inversion Hrep0 as [nm ty sz cs b' ob' Hob' Hbn _ _ _ Etr Eb]. subst b'.
  apply lookup_difference_Some in Hob' as [Hob' Hbnew]. rewrite Hob in Hob'. simplify_eq.
  cbn [tree_name] in Hlt. assert (Hab : a ≠ b) by congruence.
  assert (Hkvs : Forall (λ kv, name_lt kv.1 (lo_name ob')) (lo_children o)).
  { clear -Hts Hlt. induction Hts as [|c kv cs kvs [Hk _] Hts IH]; constructor; apply Forall_cons in Hlt as [? ?].
    - by rewrite Hk.
    - by apply IH. }
  destruct (insert_last _ b _ Hkvs) as [Hfind Hins].
  unfold FileTree.AddChildLeaf, FileTree.leaf_at. rewrite (Hsub1 _ _ Ho), Hob. cbn [mbind res_bind].
  rewrite Hfind, Htree, Hins. eexists. split; [done|]. cbn.
  assert (Esame : LeafObject.SetTree false ob' = ob') by (destruct ob'; cbn in *; by subst). rewrite Esame.
  assert (Hl : ∀ c x, <[b := ob']> (<[a := LeafObject.with_children (lo_children o ++ [(lo_name ob', b)]) o]> (ft_leaves t1)) !! c = Some x ↔
    (c = a ∧ x = LeafObject.with_children (lo_children o ++ [(lo_name ob', b)]) o) ∨ (c ≠ a ∧ ft_leaves t1 !! c = Some x)).
  { intros c x. rewrite insert_insert_ne, (insert_id (ft_leaves t1)) by done. rewrite lookup_insert_Some. naive_solver. }
  assert (Hmono : ∀ c x, delete a (ft_leaves t1 ∖ ft_leaves t0) !! c = Some x →
    delete a (<[b := ob']> (<[a := LeafObject.with_children (lo_children o ++ [(lo_name ob', b)]) o]> (ft_leaves t1)) ∖ ft_leaves t0) !! c = Some x).
  { intros c x. rewrite !lookup_delete_Some, !lookup_difference_Some, Hl. naive_solver. }
  split; [|split; [done|split; [|cbn; split; [|by rewrite Hix1, Hroot1]]]].
  - intros c x Hc. apply Hl. right. split; [congruence|]. auto.
  - exists (LeafObject.with_children (lo_children o ++ [(lo_name ob', b)]) o). split; [apply Hl; by left|]. cbn.
    do 5 (split; [done|]). apply Forall2_app; [|constructor; [|constructor]].
    + eapply Forall2_impl; [exact Hts|]. intros c kv [? Hk]. split; [done|].
      eapply Represents_mono; [|exact Hk]. intros d x Hd. apply Hmono. revert Hd.
      rewrite !lookup_delete_Some, !lookup_difference_Some. naive_solver.
    + split; [done|]. eapply Represents_mono; [|exact Hrep]. intros d x Hd. apply Hmono. revert Hd.
      rewrite lookup_delete_Some, !lookup_difference_Some. intros [H1 H2]. split; [congruence|]. split; [done|].
      destruct (ft_leaves t0 !! d) as [y|] eqn:E; [|done]. apply Hsub in E. congruence.
  - rewrite Hheld1. cbn. by rewrite bool_decide_eq_true_2.
Qed.

Lemma make_leaf_building name type fileSize parent t t1 a :
  0 ≤ fileSize →
  LeafSerializer.make_leaf alloc name type fileSize parent t = (t1, a) →
  building [] name type fileSize parent t t1 a.
Proof.
  unfold LeafSerializer.make_leaf. intros Hs [= <- <-]. pose proof (Halloc t) as Hn.
  split; [|split; [done|split; [|done]]]; cbn.
  - intros b o Hb. rewrite lookup_insert_ne by congruence. done.
  - eexists. rewrite lookup_insert_eq. split; [done|]. cbn. repeat split; done || constructor.
Qed.

Lemma building_built ts name type fileSize parent t t1 a :
  building ts name type fileSize parent t t1 a → built (Node name type fileSize ts) parent t t1 a.
Proof.
  intros (Hsub & Ha0 & (o & Ho & Htree & Hpar & Hname & Htype & Hsize & Hts) & Hheld & Hix & Hroot).
  split; [done|]. split; [|split; [by exists o|done]].
  econstructor; [by apply lookup_difference_Some|done..|].
  eapply Forall2_impl; [exact Hts|]. intros c kv [? Hk]. split; [done|].
  eapply Represents_mono; [|exact Hk]. intros d x [_ Hd]%lookup_delete_Some. done.
Qed.

(** Deserialisers of all subtrees make a deserialiser of the children. *)
Lemma add_children_ok (f : In → FileTree P J → res (FileTree P J * Z * In)) todo :
  ∀ ts name type fileSize parent t0 t a i rest,
  Forall (λ tr, ∀ i t rest, pending i (encode tr ++ rest) →
    ∃ t' b i', f i t = Ret (t', b, i') ∧ pending i' rest ∧ built tr (Some a) t t' b) todo →
  building ts name type fileSize parent t0 t a →
  StronglySorted name_lt (tree_name <$> ts ++ todo) →
  pending i (concat (encode <$> todo) ++ rest) →
  ∃ t' i', LeafSerializer.add_children f (length todo) a i t = Ret (t', i') ∧ pending i' rest ∧
    building (ts ++ todo) name type fileSize parent t0 t' a.
Proof.
  induction todo as [|tr todo IH]; intros ts name type fileSize parent t0 t a i rest Hf Hb Hsort Hp.
  { exists t, i. by rewrite app_nil_r. }
  apply Forall_cons in Hf as [Hf1 Hf2]. cbn [fmap list_fmap concat] in Hp. rewrite <- app_assoc in Hp.
  cbn [length LeafSerializer.add_children].
  destruct (Hf1 i t _ Hp) as (t1 & b & i1 & -> & Hp1 & Hb1). cbn [mbind res_bind].
  destruct (building_step _ _ _ _ _ _ _ _ _ _ _ Hb Hb1) as (t2 & -> & Hb2).
  { clear -Hsort. apply Forall_forall. intros c Hc. rewrite fmap_app in Hsort. cbn in Hsort.
    apply (list_elem_of_fmap_2 tree_name) in Hc. revert Hsort. generalize (tree_name <$> ts) as ns, (tree_name <$> todo) as ms, Hc.
    clear. intros ns ms Hc. induction Hc as [x ns|x y ns Hin IH]; intros Hs; inversion Hs as [|? ? Hs' Hall]; subst.
    - rewrite Forall_app, Forall_cons in Hall. tauto.
    - by apply IH. }
  cbn [mbind res_bind].
  destruct (IH (ts ++ [tr]) _ _ _ _ _ _ _ i1 rest Hf2 Hb2) as (t3 & i3 & -> & Hp3 & Hb3); [by rewrite <- app_assoc|done|].
  exists t3, i3. by rewrite <- app_assoc in Hb3.
Qed.

Lemma Deserialize_ok fuel : ∀ tr parent i t rest,
  tree_ok tr → (height tr ≤ fuel)%nat → pending i (encode tr ++ rest) →
  ∃ t' a i', LeafSerializer.Deserialize alloc fuel parent i t = Ret (t', a, i') ∧ pending i' rest ∧
    built tr parent t t' a.
Proof.
  induction fuel as [|fuel IH]; intros [name type fileSize ts] parent i t rest Hok Hh Hp; [cbn in Hh; lia|].
  inversion Hok as [? ? ? ? Hname Hsize Hnum Hsort Hts]; subst. cbn [encode] in Hp. unfold encode_header in Hp.
  rewrite <- !app_assoc in Hp. cbn [LeafSerializer.Deserialize].
  destruct (get_header_reads name type fileSize Hname Hsize i (le_split sizeof_uint64 (Z.of_nat (length ts)) ++
    concat (encode <$> ts) ++ rest)) as (i1 & -> & Hp1); [by rewrite <- !app_assoc|].
  cbn [mbind res_bind].
  destruct (LeafSerializer.make_leaf alloc name type fileSize parent t) as [t1 a] eqn:Em.
  apply make_leaf_building in Em as Hb; [|lia].
  destruct (reads_trivial sizeof_uint64 (Z.of_nat (length ts)) ltac:(change (8 * Z.of_nat sizeof_uint64) with 64; lia) i1 _ Hp1)
    as (i2 & -> & Hp2). cbn [mbind res_bind]. rewrite Nat2Z.id.
  destruct (add_children_ok (LeafSerializer.Deserialize alloc fuel (Some a)) ts [] name type fileSize parent t t1 a i2 rest)
    as (t3 & i3 & -> & Hp3 & Hb3); [|done..|].
  - apply Forall_forall. intros tr Hin i0 t0 rest0 Hp0. apply IH; [|by eapply height_child|done].
    by eapply Forall_forall in Hts.
  - cbn [mbind res_bind]. exists t3, a, i3. split; [done|]. split; [done|]. by apply building_built.
Qed.

End Reading.

(** *** The new root *)

Lemma Represents_unlinked m tr a b :
  Represents m tr b → b ≠ a → (∀ c o, m !! c = Some o → a ∉ children o) → Represents (delete a m) tr b.
Proof.
  intros H Hne Ha. revert b H Hne. induction tr as [name type fileSize ts IH] using tree_ind; intros b H Hne.
  inversion H as [? ? ? ? ? o Ho ? ? ? Hts]; subst. econstructor; [by rewrite lookup_delete_ne|done..|].
  pose proof (Ha _ _ Ho) as Hc. unfold children in Hc. clear H Ho.
  induction Hts as [|c kv ts kvs [? Hk] Hts IHts]; constructor; cbn in Hc; rewrite elem_of_cons in Hc;
    apply Forall_cons in IH as [IH1 IH2].
  - split; [done|]. apply IH1; [done|]. intros Hx. apply Hc. left. congruence.
  - apply IHts; tauto.
Qed.

(** Destroying what nobody owns ends, and keeps what the root owns. *)
Definition keeps_root t t' : Prop :=
  ft_root t' = ft_root t ∧ (size (ft_leaves t') ≤ size (ft_leaves t))%nat ∧
  ∀ tr, Represents (ft_leaves t) tr (ft_root t) → Represents (ft_leaves t') tr (ft_root t').

#[export] Instance keeps_root_preorder : PreOrder keeps_root.
Proof.
  split; [by intros t|]. intros x y z (A1 & A2 & A3) (B1 & B2 & B3).
  split; [congruence|]. split; [lia|auto].
Qed.

Lemma drop_ref_keeps_root fuel : ∀ a t, (size (ft_leaves t) ≤ fuel)%nat →
  ∃ t', FileTree.drop_ref fuel a t = Ret t' ∧ keeps_root t t'.
Proof.
  assert (Hall : ∀ n, (∀ a t, (size (ft_leaves t) ≤ n)%nat → ∃ t', FileTree.drop_ref n a t = Ret t' ∧ keeps_root t t') →
    ∀ cs t, (size (ft_leaves t) ≤ n)%nat →
    ∃ t', foldl (λ mt c, t ← mt; FileTree.drop_ref n c t) (Ret t) cs = Ret t' ∧ keeps_root t t').
  { intros n Hn. induction cs as [|c cs IHc]; intros t Ht; [by exists t|]. cbn.
    destruct (Hn c t Ht) as (t1 & -> & H1). pose proof H1 as (_ & Hs1 & _).
    destruct (IHc t1) as (t2 & -> & H2); [lia|]. exists t2. split; [done|by etransitivity]. }
  induction fuel as [|fuel IH]; intros a t Ht; cbn [FileTree.drop_ref];
    (destruct (FileTree.owned a t) eqn:Eo; [by exists t|]); (destruct (ft_leaves t !! a) as [o|] eqn:Ea; [|by exists t]).
  { apply Nat.le_0_r, map_size_empty_iff in Ht. by rewrite Ht in Ea. }
  assert (Hn : ¬ Owned a t) by (rewrite <- owned_spec; congruence).
  destruct (Hall fuel IH (lo_children o).*2 (FileTree.with_leaves (delete a (ft_leaves t)) t)) as (t' & -> & Hk).
  { cbn. rewrite map_size_delete_Some by done. lia. }
  exists t'. split; [done|]. etransitivity; [|exact Hk]. split; [done|]. split.
  - cbn. rewrite map_size_delete_Some by done. lia.
  - intros tr Htr. cbn. apply Represents_unlinked; [done|intros <-; apply Hn; by left|].
    intros c oc Hc Hin. apply Hn. unfold Owned. eauto 10.
Qed.

(** An update that a reader of the tree does not see. *)
Lemma Represents_set m tr b a o o' :
  Represents m tr b → m !! a = Some o → lo_name o' = lo_name o → lo_type o' = lo_type o →
  LeafObject.GetSize o' = LeafObject.GetSize o → lo_children o' = lo_children o → Represents (<[a := o']> m) tr b.
Proof.
  intros H Ha Hn Hty Hs Hc. revert b H. induction tr as [name type fileSize ts IH] using tree_ind; intros b H.
  inversion H as [? ? ? ? ? ob Ho ? ? ? Hts]; subst.
  assert (Hts' : Forall2 (λ tr kv, kv.1 = tree_name tr ∧ Represents (<[a:=o']> m) tr kv.2) ts (lo_children ob)).
  { clear H Ho. induction Hts as [|c kv ts kvs [? Hk] Hts IHts]; constructor; apply Forall_cons in IH as [IH1 IH2]; auto. }
  destruct (decide (a = b)) as [->|Hne].
  - simplify_eq. apply Represents_Node with o'; [by rewrite lookup_insert_eq|done..|by rewrite Hc].
  - by apply Represents_Node with ob; [rewrite lookup_insert_ne|..].
Qed.

Lemma SetRoot_ok t a tr o :
  Represents (ft_leaves t) tr a → ft_leaves t !! a = Some o →
  ∃ t', Merge.SetRoot a t = Ret t' ∧ ft_root t' = a ∧ Represents (ft_leaves t') tr a.
Proof.
  intros H Ho. unfold Merge.SetRoot, FileTree.release.
  match goal with |- context [FileTree.drop_ref _ _ ?x] => set (t1 := x) end.
  destruct (drop_ref_keeps_root (size (ft_leaves t1)) (ft_root t) t1) as (t' & -> & Hroot & _ & Hk); [done|].
  specialize (Hk tr H). rewrite Hroot in Hk. cbn in Hk, Hroot. cbn [mbind res_bind]. unfold FileTree.leaf_at.
  inversion Hk as [? ? ? ? ? o' Ho' ? ? ? Hts]; subst. rewrite Ho'. cbn [mbind res_bind].
  eexists. split; [done|]. split; [done|]. cbn. by apply Represents_set with o'.
Qed.

(** *** The laws of the streams *)

(** A writer that has filled no packet yet: its message is in the first one, of [size]
    bytes, and [rest] are untouched. *)
Definition first_packet (size : nat) (rest : list MessageIO.payload) (w : MessageWriter.MessageWriter) (n : nat) : Prop :=
  ∃ p offset, w = MessageWriter.mkMessageWriter (p :: rest) 0 1 offset ∧ length p = size ∧
    (4 ≤ offset ∧ offset + n ≤ size)%nat.
Definition first_contents (w : MessageWriter.MessageWriter) : list Z :=
  slice 4 (MessageWriter.mw_offset w - 4) (default [] (head (MessageWriter.mw_packets w))).

Definition MessageWriter_laws (size : nat) (rest : list MessageIO.payload) : OutputLaws MessageWriter.MessageWriter.
Proof.
  refine {| contents := first_contents; fits := first_packet size rest |}.
  - intros w m n (p & offset & -> & Hp & Ho) Hle. exists p, offset. repeat split; done || lia.
  - intros bs w n (p & offset & -> & Hp & Ho). cbn [write MessageWriter_stream].
    rewrite (write_fits bs _ p) by (cbn; lia || done). eexists. split; [done|]. cbn.
    split; [|exists (store offset bs p), (offset + length bs)%nat; rewrite store_length; repeat split; done || lia].
    unfold first_contents. cbn. set (X := slice 4 (offset - 4) p).
    assert (HX : length X = (offset - 4)%nat) by (apply length_slice; lia).
    assert (H : holds 4 (X ++ bs) (store offset bs p)).
    { apply holds_app.
      - apply store_keeps; [left; lia|]. unfold holds. by rewrite HX.
      - rewrite HX. replace (4 + (offset - 4))%nat with offset by lia. apply store_holds. lia. }
    unfold holds in H. rewrite length_app, HX in H.
    by replace (offset + length bs - 4)%nat with (offset - 4 + length bs)%nat by lia.
Defined.

#[export] Instance MessageReader_laws : InputLaws MessageReader.MessageReader.
Proof.
  refine {| pending r bs := ∃ p, MessageReader.mr_packets r !! MessageReader.mr_packet r = Some p ∧
    (MessageReader.mr_offset r + length bs ≤ length p)%nat ∧ holds (MessageReader.mr_offset r) bs p |}.
  intros bs rest r (p & Hp & Hl & Hh). rewrite length_app in Hl. apply holds_app_inv in Hh as [H1 H2].
  cbn [read MessageReader_stream]. rewrite (read_fits _ _ p) by (done || lia). eexists.
  split; [by rewrite H1|]. exists p. cbn. split; [done|]. split; [lia|done].
Defined.

#[export] Instance list_output_laws : OutputLaws (list Z).
Proof. refine {| contents := λ o : list Z, o; fits := λ _ _, True |}; [done|]. intros bs o n _. by eexists. Defined.

#[export] Instance list_input_laws : InputLaws (list Z).
Proof.
  refine {| pending i bs := ∃ rest, i = bs ++ rest |}. intros bs rest i [rest' ->].
  exists (rest ++ rest'). rewrite <- app_assoc. cbn. rewrite take_app_length, drop_app_length, !length_app.
  rewrite (proj2 (Nat.sub_0_le _ _)) by lia. cbn. rewrite app_nil_r. split; [done|by exists rest'].
Defined.

(** Over any streams: the bytes written for a tree are its encoding, and the same tree is
    built from them, of new leaves, by any reader of these bytes. *)
Theorem tree_roundtrip {Out In} `{!OutputStream Out, !OutputLaws Out, !InputStream In, !InputLaws In}
    (alloc : FileTree P J → Z) t a tr (o : Out) (i : In) parent t2 rest :
  (∀ t, ft_leaves t !! alloc t = None) → Represents (ft_leaves t) tr a → tree_ok tr →
  fits o (length (encode tr)) → pending i (encode tr ++ rest) →
  ∃ o' t' a' i', LeafSerializer.Serialize (size (ft_leaves t)) t a o = Ret o' ∧ contents o' = contents o ++ encode tr ∧
    LeafSerializer.Deserialize alloc (size (ft_leaves t)) parent i t2 = Ret (t', a', i') ∧ pending i' rest ∧
    built tr parent t2 t' a'.
Proof.
  intros Halloc Hr Hok Hfit Hp. pose proof (Represents_height _ _ _ Hr) as Hh.
  rewrite <- (Nat.add_0_r (length _)) in Hfit.
  destruct (Serialize_writes _ tr t a Hr Hh o 0%nat Hfit) as (o' & Eo & Hc & _).
  destruct (Deserialize_ok alloc Halloc _ tr parent i t2 rest Hok Hh Hp) as (t' & a' & i' & Ei & Hp' & Hb).
  by exists o', t', a', i'.
Qed.

(** C37: The tree of one side becomes the tree of the other one: what [MergeOut] sends is one
    message, of one packet, from which [MergeIn] makes a tree that is equal, provided
    that it fits into a packet.  (What becomes of a longer one [write_crossing_overwrites]
    says.) *)
Theorem merge_copies_tree (alloc : FileTree P J → Z) (ts tc : FileTree P J) tr front rest :
  (∀ t, ft_leaves t !! alloc t = None) → Represents (ft_leaves ts) tr (ft_root ts) → tree_ok tr →
  (8 + length (encode tr) ≤ length front)%nat →
  ∃ p r r' t', Merge.MergeOut_Execute (size (ft_leaves ts)) ts (front :: rest) = Ret ([p], rest) ∧
    MessageReader.make [p] = Ret r ∧ MessageReader.read_trivial 4 r = Ret (Merge.ResponseTree, r') ∧
    Merge.MergeIn_Execute alloc (size (ft_leaves ts)) r' tc = Ret (t', []) ∧
    Represents (ft_leaves t') tr (ft_root t').
Proof.
  intros Halloc Hr Hok Hl. pose proof (Represents_height _ _ _ Hr) as Hh.
  set (laws := MessageWriter_laws (length front) rest).
  assert (Hfit : fits (OutputLaws := laws) (MessageWriter.make (front :: rest)) (length (le_split 4 2 ++ encode tr) + 0)).
  { exists front, 4%nat. rewrite length_app, length_le_split. repeat split; lia. }
  destruct (writes_app (OutputLaws0 := laws) (write (le_split 4 2)) _ _ _ (writes_write _)
    (Serialize_writes _ tr ts (ft_root ts) Hr Hh) _ _ Hfit) as (w & Ew & Hc & (p' & offset & -> & Hp' & Ho)).
  set (p := store 0 (le_split 4 1) p').
  assert (Hpl : length p = length front) by (unfold p; by rewrite store_length).
  change (slice 4 (offset - 4) p' = le_split 4 2 ++ encode tr) in Hc.
  assert (Hlen : (offset - 4 = 4 + length (encode tr))%nat).
  { rewrite <- (length_slice 4 (offset - 4) p') by lia. by rewrite Hc, length_app, length_le_split. }
  assert (Hh' : holds 4 (le_split 4 2 ++ encode tr) p).
  { apply store_keeps; [right; rewrite length_le_split; lia|]. unfold holds.
    rewrite length_app, length_le_split, <- Hlen, Hc. done. }
  apply holds_app_inv in Hh' as [Ht He]. rewrite length_le_split in He. change (4 + 4)%nat with 8%nat in He.
  destruct (Deserialize_ok (In := MessageReader.MessageReader) alloc Halloc (size (ft_leaves ts)) tr None
    (MessageReader.mkMessageReader [p] 0 8) tc [] Hok Hh) as (t1 & root & r2 & Ed & _ & (_ & Hrep & (o & Hroot & _) & _)).
  { exists p. rewrite app_nil_r. split; [done|]. split; [cbn [MessageReader.mr_offset]; lia|done]. }
  destruct (SetRoot_ok t1 root tr o) as (t' & Es & Er & Ht'); [|done|].
  { eapply Represents_mono; [|exact Hrep]. intros c x [? _]%lookup_difference_Some. done. }
  exists p, (MessageReader.mkMessageReader [p] 0 4), (MessageReader.mkMessageReader [p] 0 8), t'.
  split; [|split; [done|split; [|split]]].
  - unfold Merge.MergeOut_Execute, MessageWriter.write_trivial, Merge.sizeof_MessageType, Merge.ResponseTree.
    apply bind_ret in Ew as (w0 & E0 & E1). cbn [write MessageWriter_stream] in E0.
    rewrite E0. cbn [mbind res_bind]. rewrite E1. cbn [mbind res_bind].
    unfold MessageWriter.GetWritedPackets. cbn [MessageWriter.mw_packet MessageWriter.mw_offset MessageWriter.mw_packets MessageWriter.mw_writedPacketNumber].
    rewrite (proj2 (Nat.eqb_neq offset 4)) by lia. rewrite (proj2 (Nat.eqb_neq offset 0)) by lia.
    cbn [Nat.eqb andb negb length assert_that mbind res_bind].
    rewrite (proj2 (defined_if_ret _)) by (apply Nat.leb_le; unfold sizeof_writedPacketNumber; lia).
    cbn [mbind res_bind]. unfold splice_from. done.
  - unfold MessageReader.read_trivial. rewrite (read_fits 4 _ p); [|done|cbn [MessageReader.mr_offset]; lia]. cbn [mbind res_bind MessageReader.mr_offset MessageReader.mr_packets MessageReader.mr_packet].
    unfold holds in Ht. rewrite length_le_split in Ht. rewrite Ht. done.
  - unfold Merge.MergeIn_Execute. rewrite Ed. cbn [mbind res_bind]. by rewrite Es.
  - by rewrite Er.
Qed.

End Correctness.

(** ** Witnesses *)

(** Addresses grow: a new leaf is behind all others. *)
Definition next_address {P J} (t : FileTree P J) : Z := map_fold (λ a _ n, Z.max n (a + 64)) 64 (ft_leaves t).

Lemma next_address_free {P J} (t : FileTree P J) : ft_leaves t !! next_address t = None.
Proof.
  unfold next_address. generalize (ft_leaves t). intros m.
  enough (∀ a o, m !! a = Some o → a < map_fold (λ a _ n, Z.max n (a + 64)) 64 m) as H.
  { destruct (m !! _) as [o|] eqn:E; [|done]. apply H in E. lia. }
  apply (map_fold_weak_ind (λ n m, ∀ a o, m !! a = Some o → a < n)); [by intros a o; rewrite lookup_empty|].
  intros b o' m' n Hb IH a o [[<- _]|[_ Ha]]%lookup_insert_Some; [lia|]. apply IH in Ha. lia.
Qed.

Section Witnesses.
Local Abbreviation Tree := (FileTree Packet unit).

Definition server_tree : Tree := Eval vm_compute in from_res (FileTree.make "share" 64)
  ('(t, _) ← FileTree.AddChild 64 "docs" ft_directory 0 128 (FileTree.make "share" 64);
   '(t, _) ← FileTree.AddChild 128 "b" ft_regular 1000 192 t;
   '(t, _) ← FileTree.AddChild 128 "a" ft_regular 10 256 t; Ret t).
Definition server_value : tree :=
  Node "share" ft_directory 0 [Node "docs" ft_directory 0 [Node "a" ft_regular 10 []; Node "b" ft_regular 1000 []]].
Definition client_tree : Tree := FileTree.make "cache" 4096.

Ltac represent := repeat first
  [apply Forall2_nil_2 | apply Forall2_cons_2; [split; [reflexivity|]|]
  | eapply Represents_Node; [vm_compute; reflexivity|reflexivity..|cbn]].
Lemma server_represents : Represents (ft_leaves server_tree) server_value 64.
Proof. represent. Qed.

Lemma server_value_ok : tree_ok server_value.
Proof. repeat (constructor; try (vm_compute; done)). Qed.

Lemma tree_roundtrip_witness :
  ∃ o' t' a' i', LeafSerializer.Serialize 4 server_tree 64 [7] = Ret o' ∧ o' = 7 :: encode server_value ∧
    LeafSerializer.Deserialize next_address 4 None (encode server_value ++ [9]) client_tree = Ret (t', a', i') ∧
    Represents (ft_leaves t' ∖ ft_leaves client_tree) server_value a'.
Proof.
  destruct (tree_roundtrip next_address server_tree 64 server_value [7] (encode server_value ++ [9]) None client_tree [9])
    as (o' & t' & a' & i' & E1 & E2 & E3 & _ & (_ & Hr & _)).
  - intros t. apply next_address_free.
  - exact server_represents.
  - exact server_value_ok.
  - done.
  - exists []. by rewrite app_nil_r.
  - exists o', t', a', i'. split; [exact E1|]. split; [exact E2|]. split; [exact E3|exact Hr].
Defined.

Lemma merge_copies_tree_witness :
  ∃ p r r' t', Merge.MergeOut_Execute 4 server_tree [replicate 200 0; [1]] = Ret ([p], [[1]]) ∧
    MessageReader.make [p] = Ret r ∧ MessageReader.read_trivial 4 r = Ret (2, r') ∧
    Merge.MergeIn_Execute next_address 4 r' client_tree = Ret (t', []) ∧
    Represents (ft_leaves t') server_value (ft_root t').
Proof.
  apply (merge_copies_tree next_address server_tree client_tree server_value (replicate 200 0) [[1]]).
  - intros t. apply next_address_free.
  - exact server_represents.
  - exact server_value_ok.
  - vm_compute. lia.
Defined.

(** [SetRoot] makes the new root a part of the tree, but none of the leaves below: they
    have no tree, and are not found by their inodes.  And the packet of the message is not
    given back. *)
Lemma merged_leaves_unindexed :
  match Merge.MergeOut_Execute 4 server_tree [replicate 200 0] with
  | Ret ([p], _) =>
      match Merge.MergeIn_Execute next_address 4 (MessageReader.mkMessageReader [p] 0 8) client_tree with
      | Ret (t, freed) =>
          freed = [] ∧ ∃ o, ft_leaves t !! 4224 = Some o ∧ lo_name o = "docs"%string ∧ lo_tree o = false ∧
            FileTree.FindLeafByServerInode (LeafObject.GetServerInode 4224 o) t = Ret None
      | Err _ => False
      end
  | _ => False
  end.
Proof. vm_compute. split; [done|]. eexists. repeat split. Qed.

End Witnesses.
