(* ===== verification/Messages.v ===== *)
(** * Messages: the requests, answers and notifications of the remote file system
    [Protocol/src/FileSystem/]: what the jobs [Request...Job] and [Response...Job] write,
    and what the jobs of the other side read ([Response...Job] and [Response...InJob]).

    A message is written field by field with [operator<<] and read with [operator>>]; nothing
    but the two sequences of calls ties the writer to the reader.  Here a message is a
    value of [message]; [write] is the sequence of its writer, [read] that of the job its
    type is given to. *)
From S2P Require Import Prelude MessageIO Framing Serializer.
Local Open Scope Z_scope.

(** What is sent of a [struct stat]; [st_mtim] is the 16 bytes of a [timespec]. *)
Record attributes := mkAttributes {
  st_mode : Z;
  st_nlink : Z;
  st_size : Z;
  st_uid : Z;
  st_gid : Z;
  st_mtim : Z;
}.

(** The fields of each message, in their order.  Requests and handles are pointers of the
    other side.  An answer is an error, which is not 0, or a result.  [data] are the
    packets behind the fields.  [ResponseGetAttrRoot] and [ResponseReleaseDirFailed] are
    the other ways to write [ResponseGetAttr] and [ResponseReleaseDir]. *)
Inductive message :=
  | RequestGetAttr (request clientInode inode remoteFile : Z)
  | ResponseGetAttr (request : Z) (answer : Z + Z * attributes)
  | ResponseGetAttrRoot (request clientInode : Z)
  | RequestLookup (request parentId : Z) (name : string)
  | ResponseLookup (request parentId : Z) (name : string) (answer : Z + Z * attributes)
  | RequestOpenDir (request inode fileInfo : Z)
  | ResponseOpenDir (request : Z) (answer : Z + Z * Z)
  | RequestOpen (request inode fileInfo : Z)
  | ResponseOpen (request : Z) (answer : Z + Z * Z)
  | RequestRelease (request inode remoteFile handle : Z)
  | ResponseRelease (request error handle : Z)
  | RequestForgetMulti (request : Z) (forgets : list (Z * Z))
  | ResponseForgetMulti (request : Z)
  | RequestReleaseDir (request inode remoteFile handle : Z)
  | ResponseReleaseDir (request error handle : Z)
  | ResponseReleaseDirFailed (request error : Z)
  | RequestRead (request inode size offset skipped remoteFile : Z)
  | ResponseRead (request inode size offset skipped : Z) (answer : Z + list payload)
  | RequestReadDir (request inode size off remoteFile : Z)
  | ResponseReadDir (request : Z) (data : list payload)
  | RequestReadDirPlus (request clientInode inode size off remoteFile : Z)
  | ResponseReadDirPlus (request clientInode : Z) (data : list payload)
  | NotifyInvalInode (serverInode : Z)
  | NotifyInvalEntry (eventType parentServerInode : Z) (name : string) (serverInode size isDir : Z).

Definition sizeof_int : nat := 4.
Definition sizeof_pointer : nat := 8.
Definition sizeof_fuse_ino_t : nat := 8.
Definition sizeof_mode_t : nat := 4.
Definition sizeof_nlink_t : nat := 8.
Definition sizeof_off_t : nat := 8.
Definition sizeof_uid_t : nat := 4.
Definition sizeof_timespec : nat := 16.
Definition sizeof_uint8 : nat := 1.

Definition S_IFDIR_0755 : Z := 16384 + 493.

(** [fuse_file_info] is a structure of libfuse, copied as it is. *)
Section Messages.
Context (sizeof_fuse_file_info : nat).

(** ** Writing *)

Section Write.
Context {Out : Type} `{!OutputStream Out}.
Implicit Types o : Out.

(** [operator<<] of [MessageWriter], for values of [n] bytes, strings and spans. *)
Definition put (n : nat) (z : Z) o : res Out := Serializer.write (le_split n z) o.
Definition put_string (s : string) o : res Out :=
  o ← put sizeof_size_t (Z.of_nat (length (bytes_of s))) o; Serializer.write (bytes_of s) o.
Definition put_forgets (forgets : list (Z * Z)) o : res Out :=
  o ← put sizeof_size_t (Z.of_nat (length forgets)) o;
  Serializer.write (concat ((λ f, le_split sizeof_fuse_ino_t f.1 ++ le_split sizeof_uint64 f.2) <$> forgets)) o.
Definition put_type (type : MessageType) o : res Out := put sizeof_int (MessageType_value type) o.

Definition write_RequestGetAttr (request clientInode inode remoteFile : Z) o : res Out :=
  o ← put_type Framing.RequestGetAttr o;
  o ← put sizeof_pointer request o;
  o ← put sizeof_fuse_ino_t clientInode o;
  o ← put sizeof_fuse_ino_t inode o;
  put sizeof_pointer remoteFile o.

Definition write_ResponseGetAttr (request : Z) (answer : Z + Z * attributes) o : res Out :=
  o ← put_type Framing.ResponseGetAttr o;
  o ← put sizeof_pointer request o;
  match answer with
  | inl error => put sizeof_int error o
  | inr (clientInode, stbuf) =>
      o ← put sizeof_int 0 o;
      o ← put sizeof_fuse_ino_t clientInode o;
      o ← put sizeof_mode_t (st_mode stbuf) o;
      o ← put sizeof_nlink_t (st_nlink stbuf) o;
      o ← put sizeof_off_t (st_size stbuf) o;
      o ← put sizeof_uid_t (st_uid stbuf) o;
      o ← put sizeof_uid_t (st_gid stbuf) o;
      put sizeof_timespec (st_mtim stbuf) o
  end.

(** For the root the mode and the number of links are literals of type [int]. *)
Definition write_ResponseGetAttrRoot (request clientInode : Z) o : res Out :=
  o ← put_type Framing.ResponseGetAttr o;
  o ← put sizeof_pointer request o;
  o ← put sizeof_int 0 o;
  o ← put sizeof_fuse_ino_t clientInode o;
  o ← put sizeof_int S_IFDIR_0755 o;
  o ← put sizeof_int 2 o;
  o ← put sizeof_off_t 0 o;
  o ← put sizeof_uid_t 0 o;
  o ← put sizeof_uid_t 0 o;
  put sizeof_timespec 0 o.

Definition write_RequestLookup (request parent : Z) (name : string) o : res Out :=
  o ← put_type Framing.RequestLookup o;
  o ← put sizeof_pointer request o;
  o ← put sizeof_fuse_ino_t parent o;
  put_string name o.

Definition write_ResponseLookup (request parentId : Z) (name : string) (answer : Z + Z * attributes) o : res Out :=
  o ← put_type Framing.ResponseLookup o;
  o ← put sizeof_pointer request o;
  o ← put sizeof_fuse_ino_t parentId o;
  o ← put_string name o;
  match answer with
  | inl error => put sizeof_int error o
  | inr (inode, stbuf) =>
      o ← put sizeof_int 0 o;
      o ← put sizeof_fuse_ino_t inode o;
      o ← put sizeof_mode_t (st_mode stbuf) o;
      o ← put sizeof_nlink_t (st_nlink stbuf) o;
      o ← put sizeof_uint64 (st_size stbuf) o;
      o ← put sizeof_uid_t (st_uid stbuf) o;
      o ← put sizeof_uid_t (st_gid stbuf) o;
      put sizeof_timespec (st_mtim stbuf) o
  end.

Definition write_RequestOpenDir (request inode fileInfo : Z) o : res Out :=
  o ← put_type Framing.RequestOpenDir o;
  o ← put sizeof_pointer request o;
  o ← put sizeof_fuse_ino_t inode o;
  put sizeof_fuse_file_info fileInfo o.

(** The answer of both kinds of [open]. *)
Definition put_opened (answer : Z + Z * Z) o : res Out :=
  match answer with
  | inl error => put sizeof_int error o
  | inr (fileInfo, remoteFile) =>
      o ← put sizeof_int 0 o; o ← put sizeof_fuse_file_info fileInfo o; put sizeof_pointer remoteFile o
  end.
Definition write_ResponseOpenDir (request : Z) (answer : Z + Z * Z) o : res Out :=
  o ← put_type Framing.ResponseOpenDir o; o ← put sizeof_pointer request o; put_opened answer o.

Definition write_RequestOpen (request inode fileInfo : Z) o : res Out :=
  o ← put_type Framing.RequestOpen o;
  o ← put sizeof_pointer request o;
  o ← put sizeof_fuse_ino_t inode o;
  put sizeof_fuse_file_info fileInfo o.
Definition write_ResponseOpen (request : Z) (answer : Z + Z * Z) o : res Out :=
  o ← put_type Framing.ResponseOpen o; o ← put sizeof_pointer request o; put_opened answer o.

Definition write_RequestRelease (request inode remoteFile handle : Z) o : res Out :=
  o ← put_type Framing.RequestRelease o;
  o ← put sizeof_pointer request o;
  o ← put sizeof_fuse_ino_t inode o;
  o ← put sizeof_pointer remoteFile o;
  put sizeof_pointer handle o.
Definition write_ResponseRelease (request error handle : Z) o : res Out :=
  o ← put_type Framing.ResponseRelease o;
  o ← put sizeof_pointer request o;
  o ← put sizeof_int error o;
  put sizeof_pointer handle o.

Definition write_RequestForgetMulti (request : Z) (forgets : list (Z * Z)) o : res Out :=
  o ← put_type Framing.RequestForgetMulti o;
  o ← put sizeof_pointer request o;
  put_forgets forgets o.
Definition write_ResponseForgetMulti (request : Z) o : res Out :=
  o ← put_type Framing.ResponseForgetMulti o; put sizeof_pointer request o.

Definition write_RequestReleaseDir (request inode remoteFile handle : Z) o : res Out :=
  o ← put_type Framing.RequestReleaseDir o;
  o ← put sizeof_pointer request o;
  o ← put sizeof_fuse_ino_t inode o;
  o ← put sizeof_pointer remoteFile o;
  put sizeof_pointer handle o.
Definition write_ResponseReleaseDir (request error handle : Z) o : res Out :=
  o ← put_type Framing.ResponseReleaseDir o;
  o ← put sizeof_pointer request o;
  o ← put sizeof_int error o;
  put sizeof_pointer handle o.
(** When [Close] fails the handle is not written. *)
Definition write_ResponseReleaseDirFailed (request error : Z) o : res Out :=
  o ← put_type Framing.ResponseReleaseDir o; o ← put sizeof_pointer request o; put sizeof_int error o.

Definition write_RequestRead (request inode size offset skipped remoteFile : Z) o : res Out :=
  o ← put_type Framing.RequestRead o;
  o ← put sizeof_pointer request o;
  o ← put sizeof_fuse_ino_t inode o;
  o ← put sizeof_size_t size o;
  o ← put sizeof_off_t offset o;
  o ← put sizeof_off_t skipped o;
  put sizeof_pointer remoteFile o.
Definition write_ResponseRead (request inode size offset skipped error : Z) o : res Out :=
  o ← put_type Framing.ResponseRead o;
  o ← put sizeof_pointer request o;
  o ← put sizeof_fuse_ino_t inode o;
  o ← put sizeof_size_t size o;
  o ← put sizeof_off_t offset o;
  o ← put sizeof_off_t skipped o;
  put sizeof_int error o.

Definition write_RequestReadDir (request inode size off remoteFile : Z) o : res Out :=
  o ← put_type Framing.RequestReadDir o;
  o ← put sizeof_pointer request o;
  o ← put sizeof_fuse_ino_t inode o;
  o ← put sizeof_size_t size o;
  o ← put sizeof_off_t off o;
  put sizeof_pointer remoteFile o.
Definition write_ResponseReadDir (request : Z) o : res Out :=
  o ← put_type Framing.ResponseReadDir o; put sizeof_pointer request o.

Definition write_RequestReadDirPlus (request clientInode inode size off remoteFile : Z) o : res Out :=
  o ← put_type Framing.RequestReadDirPlus o;
  o ← put sizeof_pointer request o;
  o ← put sizeof_fuse_ino_t clientInode o;
  o ← put sizeof_fuse_ino_t inode o;
  o ← put sizeof_size_t size o;
  o ← put sizeof_off_t off o;
  put sizeof_pointer remoteFile o.
Definition write_ResponseReadDirPlus (request clientInode : Z) o : res Out :=
  o ← put_type Framing.ResponseReadDirPlus o; o ← put sizeof_pointer request o; put sizeof_fuse_ino_t clientInode o.

Definition write_NotifyInvalInode (serverInode : Z) o : res Out :=
  o ← put_type Framing.NotifyInvalInode o; put sizeof_uint64 serverInode o.
Definition write_NotifyInvalEntry (eventType parentServerInode : Z) (name : string) (serverInode size isDir : Z) o : res Out :=
  o ← put_type Framing.NotifyInvalEntry o;
  o ← put sizeof_uint32 eventType o;
  o ← put sizeof_uint64 parentServerInode o;
  o ← put_string name o;
  o ← put sizeof_uint64 serverInode o;
  o ← put sizeof_uint64 size o;
  put sizeof_uint8 isDir o.

(** The fields of a message, by whichever job writes them. *)
Definition write_fields (m : message) : Out → res Out :=
  match m with
  | RequestGetAttr request clientInode inode remoteFile => write_RequestGetAttr request clientInode inode remoteFile
  | ResponseGetAttr request answer => write_ResponseGetAttr request answer
  | ResponseGetAttrRoot request clientInode => write_ResponseGetAttrRoot request clientInode
  | RequestLookup request parentId name => write_RequestLookup request parentId name
  | ResponseLookup request parentId name answer => write_ResponseLookup request parentId name answer
  | RequestOpenDir request inode fileInfo => write_RequestOpenDir request inode fileInfo
  | ResponseOpenDir request answer => write_ResponseOpenDir request answer
  | RequestOpen request inode fileInfo => write_RequestOpen request inode fileInfo
  | ResponseOpen request answer => write_ResponseOpen request answer
  | RequestRelease request inode remoteFile handle => write_RequestRelease request inode remoteFile handle
  | ResponseRelease request error handle => write_ResponseRelease request error handle
  | RequestForgetMulti request forgets => write_RequestForgetMulti request forgets
  | ResponseForgetMulti request => write_ResponseForgetMulti request
  | RequestReleaseDir request inode remoteFile handle => write_RequestReleaseDir request inode remoteFile handle
  | ResponseReleaseDir request error handle => write_ResponseReleaseDir request error handle
  | ResponseReleaseDirFailed request error => write_ResponseReleaseDirFailed request error
  | RequestRead request inode size offset skipped remoteFile =>
      write_RequestRead request inode size offset skipped remoteFile
  | ResponseRead request inode size offset skipped answer =>
      write_ResponseRead request inode size offset skipped (match answer with inl error => error | inr _ => 0 end)
  | RequestReadDir request inode size off remoteFile => write_RequestReadDir request inode size off remoteFile
  | ResponseReadDir request _ => write_ResponseReadDir request
  | RequestReadDirPlus request clientInode inode size off remoteFile =>
      write_RequestReadDirPlus request clientInode inode size off remoteFile
  | ResponseReadDirPlus request clientInode _ => write_ResponseReadDirPlus request clientInode
  | NotifyInvalInode serverInode => write_NotifyInvalInode serverInode
  | NotifyInvalEntry eventType parentServerInode name serverInode size isDir =>
      write_NotifyInvalEntry eventType parentServerInode name serverInode size isDir
  end.

End Write.

(** The packets behind the fields, for the messages that have some. *)
Definition message_data (m : message) : option (list payload) :=
  match m with
  | ResponseRead _ _ _ _ _ (inr data) | ResponseReadDir _ data | ResponseReadDirPlus _ _ data => Some data
  | _ => None
  end.

(** A job writes its fields, and then the packets, if there are some. *)
Definition write (m : message) (writer : MessageWriter.MessageWriter) : res MessageWriter.MessageWriter :=
  writer ← write_fields m writer;
  match message_data m with
  | Some data => MessageWriter.write_packets data writer
  | None => Ret writer
  end.

(** ** Reading *)

Section Read.
Context {In : Type} `{!InputStream In}.
Implicit Types i : In.

(** [operator>>] of [MessageReader]. *)
Definition get (n : nat) i : res (Z * In) := InputByteStream.get_trivial n i.
Definition get_int i : res (Z * In) := '(z, i) ← get sizeof_int i; Ret (i32 z, i).
Definition get_string i : res (string * In) :=
  '(size, i) ← get sizeof_size_t i; '(bs, i) ← Serializer.read (Z.to_nat size) i; Ret (string_of bs, i).

(** [read(data.data(), size * sizeof(T))] into the vector. *)
Fixpoint forgets_of (n : nat) (bs : list Z) : list (Z * Z) :=
  match n with
  | O => []
  | S n => (le_combine (take 8 bs), le_combine (take 8 (drop 8 bs))) :: forgets_of n (drop 16 bs)
  end.
Definition get_forgets i : res (list (Z * Z) * In) :=
  '(size, i) ← get sizeof_size_t i;
  '(bs, i) ← Serializer.read (Z.to_nat size * 16) i; Ret (forgets_of (Z.to_nat size) bs, i).

Definition read_RequestGetAttr i : res (message * In) :=
  '(request, i) ← get sizeof_pointer i;
  '(clientInode, i) ← get sizeof_fuse_ino_t i;
  '(inode, i) ← get sizeof_fuse_ino_t i;
  '(remoteFile, i) ← get sizeof_pointer i;
  Ret (RequestGetAttr request clientInode inode remoteFile, i).

Definition get_attributes i : res (Z * attributes * In) :=
  '(inode, i) ← get sizeof_fuse_ino_t i;
  '(mode, i) ← get sizeof_mode_t i;
  '(nlink, i) ← get sizeof_nlink_t i;
  '(size, i) ← get sizeof_off_t i;
  '(uid, i) ← get sizeof_uid_t i;
  '(gid, i) ← get sizeof_uid_t i;
  '(mtim, i) ← get sizeof_timespec i;
  Ret (inode, mkAttributes mode nlink size uid gid mtim, i).
Definition read_ResponseGetAttr i : res (message * In) :=
  '(request, i) ← get sizeof_pointer i;
  '(error, i) ← get_int i;
  if negb (error =? 0) then Ret (ResponseGetAttr request (inl error), i)
  else '(a, i) ← get_attributes i; Ret (ResponseGetAttr request (inr a), i).

Definition read_RequestLookup i : res (message * In) :=
  '(request, i) ← get sizeof_pointer i;
  '(parentId, i) ← get sizeof_fuse_ino_t i;
  '(name, i) ← get_string i;
  Ret (RequestLookup request parentId name, i).
Definition read_ResponseLookup i : res (message * In) :=
  '(request, i) ← get sizeof_pointer i;
  '(parentId, i) ← get sizeof_fuse_ino_t i;
  '(name, i) ← get_string i;
  '(error, i) ← get_int i;
  if negb (error =? 0) then Ret (ResponseLookup request parentId name (inl error), i)
  else '(a, i) ← get_attributes i; Ret (ResponseLookup request parentId name (inr a), i).

Definition read_RequestOpenDir i : res (message * In) :=
  '(request, i) ← get sizeof_pointer i;
  '(inode, i) ← get sizeof_fuse_ino_t i;
  '(fileInfo, i) ← get sizeof_fuse_file_info i;
  Ret (RequestOpenDir request inode fileInfo, i).
Definition read_ResponseOpenDir i : res (message * In) :=
  '(request, i) ← get sizeof_pointer i;
  '(error, i) ← get_int i;
  if negb (error =? 0) then Ret (ResponseOpenDir request (inl error), i)
  else
    '(fileInfo, i) ← get sizeof_fuse_file_info i;
    '(remoteFile, i) ← get sizeof_pointer i;
    Ret (ResponseOpenDir request (inr (fileInfo, remoteFile)), i).

Definition read_RequestOpen i : res (message * In) :=
  '(request, i) ← get sizeof_pointer i;
  '(inode, i) ← get sizeof_fuse_ino_t i;
  '(fileInfo, i) ← get sizeof_fuse_file_info i;
  Ret (RequestOpen request inode fileInfo, i).
Definition read_ResponseOpen i : res (message * In) :=
  '(request, i) ← get sizeof_pointer i;
  '(error, i) ← get_int i;
  if negb (error =? 0) then Ret (ResponseOpen request (inl error), i)
  else
    '(fileInfo, i) ← get sizeof_fuse_file_info i;
    '(remoteFile, i) ← get sizeof_pointer i;
    Ret (ResponseOpen request (inr (fileInfo, remoteFile)), i).

Definition read_RequestRelease i : res (message * In) :=
  '(request, i) ← get sizeof_pointer i;
  '(inode, i) ← get sizeof_fuse_ino_t i;
  '(remoteFile, i) ← get sizeof_pointer i;
  '(handle, i) ← get sizeof_pointer i;
  Ret (RequestRelease request inode remoteFile handle, i).
Definition read_ResponseRelease i : res (message * In) :=
  '(request, i) ← get sizeof_pointer i;
  '(error, i) ← get_int i;
  '(handle, i) ← get sizeof_pointer i;
  Ret (ResponseRelease request error handle, i).

Definition read_RequestForgetMulti i : res (message * In) :=
  '(request, i) ← get sizeof_pointer i;
  '(forgets, i) ← get_forgets i;
  Ret (RequestForgetMulti request forgets, i).
Definition read_ResponseForgetMulti i : res (message * In) :=
  '(request, i) ← get sizeof_pointer i;
  Ret (ResponseForgetMulti request, i).

Definition read_RequestReleaseDir i : res (message * In) :=
  '(request, i) ← get sizeof_pointer i;
  '(inode, i) ← get sizeof_fuse_ino_t i;
  '(remoteFile, i) ← get sizeof_pointer i;
  '(handle, i) ← get sizeof_pointer i;
  Ret (RequestReleaseDir request inode remoteFile handle, i).
Definition read_ResponseReleaseDir i : res (message * In) :=
  '(request, i) ← get sizeof_pointer i;
  '(error, i) ← get_int i;
  '(handle, i) ← get sizeof_pointer i;
  Ret (ResponseReleaseDir request error handle, i).

Definition read_RequestRead i : res (message * In) :=
  '(request, i) ← get sizeof_pointer i;
  '(inode, i) ← get sizeof_fuse_ino_t i;
  '(size, i) ← get sizeof_size_t i;
  '(offset, i) ← get sizeof_off_t i;
  '(skipped, i) ← get sizeof_off_t i;
  '(remoteFile, i) ← get sizeof_pointer i;
  Ret (RequestRead request inode size offset skipped remoteFile, i).
Definition read_ResponseRead i : res (message * In) :=
  '(request, i) ← get sizeof_pointer i;
  '(inode, i) ← get sizeof_fuse_ino_t i;
  '(size, i) ← get sizeof_size_t i;
  '(offset, i) ← get sizeof_off_t i;
  '(skipped, i) ← get sizeof_off_t i;
  '(error, i) ← get_int i;
  if negb (error =? 0) then Ret (ResponseRead request inode size offset skipped (inl error), i)
  else Ret (ResponseRead request inode size offset skipped (inr []), i).

Definition read_RequestReadDir i : res (message * In) :=
  '(request, i) ← get sizeof_pointer i;
  '(inode, i) ← get sizeof_fuse_ino_t i;
  '(size, i) ← get sizeof_size_t i;
  '(off, i) ← get sizeof_off_t i;
  '(remoteFile, i) ← get sizeof_pointer i;
  Ret (RequestReadDir request inode size off remoteFile, i).
Definition read_ResponseReadDir i : res (message * In) :=
  '(request, i) ← get sizeof_pointer i;
  Ret (ResponseReadDir request [], i).

Definition read_RequestReadDirPlus i : res (message * In) :=
  '(request, i) ← get sizeof_pointer i;
  '(clientInode, i) ← get sizeof_fuse_ino_t i;
  '(inode, i) ← get sizeof_fuse_ino_t i;
  '(size, i) ← get sizeof_size_t i;
  '(off, i) ← get sizeof_off_t i;
  '(remoteFile, i) ← get sizeof_pointer i;
  Ret (RequestReadDirPlus request clientInode inode size off remoteFile, i).
Definition read_ResponseReadDirPlus i : res (message * In) :=
  '(request, i) ← get sizeof_pointer i;
  '(clientInode, i) ← get sizeof_fuse_ino_t i;
  Ret (ResponseReadDirPlus request clientInode [], i).

Definition read_NotifyInvalInode i : res (message * In) :=
  '(serverInode, i) ← get sizeof_uint64 i;
  Ret (NotifyInvalInode serverInode, i).
Definition read_NotifyInvalEntry i : res (message * In) :=
  '(eventType, i) ← get sizeof_uint32 i;
  '(parentServerInode, i) ← get sizeof_uint64 i;
  '(name, i) ← get_string i;
  '(serverInode, i) ← get sizeof_uint64 i;
  '(size, i) ← get sizeof_uint64 i;
  '(isDir, i) ← get sizeof_uint8 i;
  Ret (NotifyInvalEntry eventType parentServerInode name serverInode size isDir, i).

(** The fields that the job of each class reads.  The jobs of trees are in [Serializer]. *)
Definition read_fields (h : handler) : In → res (message * In) :=
  match h with
  | MergeOut | MergeIn => λ _, Err Undefined
  | ResponseGetAttrJob => read_RequestGetAttr
  | ResponseGetAttrInJob => read_ResponseGetAttr
  | ResponseLookupJob => read_RequestLookup
  | ResponseLookupInJob => read_ResponseLookup
  | ResponseOpenJob => read_RequestOpen
  | ResponseOpenInJob => read_ResponseOpen
  | ResponseOpenDirJob => read_RequestOpenDir
  | ResponseOpenDirInJob => read_ResponseOpenDir
  | ResponseForgetMultiJob => read_RequestForgetMulti
  | ResponseForgetMultiInJob => read_ResponseForgetMulti
  | ResponseReleaseJob => read_RequestRelease
  | ResponseReleaseInJob => read_ResponseRelease
  | ResponseReleaseDirJob => read_RequestReleaseDir
  | ResponseReleaseDirInJob => read_ResponseReleaseDir
  | ResponseReadFileJob => read_RequestRead
  | ResponseReadFileInJob => read_ResponseRead
  | ResponseReadDirJob => read_RequestReadDir
  | ResponseReadDirInJob => read_ResponseReadDir
  | ResponseReadDirPlusJob => read_RequestReadDirPlus
  | ResponseReadDirPlusInJob => read_ResponseReadDirPlus
  | NotifyInvalInodeJob => read_NotifyInvalInode
  | NotifyInvalEntryJob => read_NotifyInvalEntry
  end.

End Read.

Definition with_data (data : list payload) (m : message) : message :=
  match m with
  | ResponseRead request inode size offset skipped (inr _) => ResponseRead request inode size offset skipped (inr data)
  | ResponseReadDir request _ => ResponseReadDir request data
  | ResponseReadDirPlus request clientInode _ => ResponseReadDirPlus request clientInode data
  | _ => m
  end.

(** A job reads the fields, and then the packets, if there are some. *)
Definition read (h : handler) (reader : MessageReader.MessageReader) : res (message * MessageReader.MessageReader) :=
  '(m, reader) ← read_fields h reader;
  match message_data m with
  | Some _ => '(data, reader) ← MessageReader.read_packets reader; Ret (with_data data m, reader)
  | None => Ret (m, reader)
  end.

End Messages.

(** ** Correctness *)

(** The type under which a message travels. *)
Definition type_of (m : message) : MessageType :=
  match m with
  | RequestGetAttr _ _ _ _ => Framing.RequestGetAttr
  | ResponseGetAttr _ _ | ResponseGetAttrRoot _ _ => Framing.ResponseGetAttr
  | RequestLookup _ _ _ => Framing.RequestLookup
  | ResponseLookup _ _ _ _ => Framing.ResponseLookup
  | RequestOpenDir _ _ _ => Framing.RequestOpenDir
  | ResponseOpenDir _ _ => Framing.ResponseOpenDir
  | RequestOpen _ _ _ => Framing.RequestOpen
  | ResponseOpen _ _ => Framing.ResponseOpen
  | RequestRelease _ _ _ _ => Framing.RequestRelease
  | ResponseRelease _ _ _ => Framing.ResponseRelease
  | RequestForgetMulti _ _ => Framing.RequestForgetMulti
  | ResponseForgetMulti _ => Framing.ResponseForgetMulti
  | RequestReleaseDir _ _ _ _ => Framing.RequestReleaseDir
  | ResponseReleaseDir _ _ _ | ResponseReleaseDirFailed _ _ => Framing.ResponseReleaseDir
  | RequestRead _ _ _ _ _ _ => Framing.RequestRead
  | ResponseRead _ _ _ _ _ _ => Framing.ResponseRead
  | RequestReadDir _ _ _ _ _ => Framing.RequestReadDir
  | ResponseReadDir _ _ => Framing.ResponseReadDir
  | RequestReadDirPlus _ _ _ _ _ _ => Framing.RequestReadDirPlus
  | ResponseReadDirPlus _ _ _ => Framing.ResponseReadDirPlus
  | NotifyInvalInode _ => Framing.NotifyInvalInode
  | NotifyInvalEntry _ _ _ _ _ _ => Framing.NotifyInvalEntry
  end.

(** The values that fit their fields. *)
Definition fits_in (n : nat) (z : Z) : Prop := 0 ≤ z < 2 ^ (8 * Z.of_nat n).
Definition is_error (z : Z) : Prop := -2 ^ 31 ≤ z < 2 ^ 31 ∧ z ≠ 0.
Definition name_ok (s : string) : Prop := Z.of_nat (length (bytes_of s)) < 2 ^ 64.
Definition attributes_ok (a : Z * attributes) : Prop :=
  fits_in 8 a.1 ∧ fits_in 4 (st_mode a.2) ∧ fits_in 8 (st_nlink a.2) ∧ fits_in 8 (st_size a.2) ∧
  fits_in 4 (st_uid a.2) ∧ fits_in 4 (st_gid a.2) ∧ fits_in 16 (st_mtim a.2).
Definition data_ok (data : list payload) : Prop := data ≠ [] ∧ Z.of_nat (length data) < 2 ^ 32 - 1.

Definition answer_ok {A} (ok : A → Prop) (answer : Z + A) : Prop :=
  match answer with inl error => is_error error | inr a => ok a end.

Section Correctness.
Context (sizeof_fuse_file_info : nat).

Definition opened_ok (a : Z * Z) : Prop := fits_in sizeof_fuse_file_info a.1 ∧ fits_in 8 a.2.

Definition wire_ok (m : message) : Prop :=
  match m with
  | RequestGetAttr request clientInode inode remoteFile =>
      fits_in 8 request ∧ fits_in 8 clientInode ∧ fits_in 8 inode ∧ fits_in 8 remoteFile
  | ResponseGetAttr request answer => fits_in 8 request ∧ answer_ok attributes_ok answer
  | RequestLookup request parentId name => fits_in 8 request ∧ fits_in 8 parentId ∧ name_ok name
  | ResponseLookup request parentId name answer =>
      fits_in 8 request ∧ fits_in 8 parentId ∧ name_ok name ∧ answer_ok attributes_ok answer
  | RequestOpenDir request inode fileInfo | RequestOpen request inode fileInfo =>
      fits_in 8 request ∧ fits_in 8 inode ∧ fits_in sizeof_fuse_file_info fileInfo
  | ResponseOpenDir request answer | ResponseOpen request answer => fits_in 8 request ∧ answer_ok opened_ok answer
  | RequestRelease request inode remoteFile handle | RequestReleaseDir request inode remoteFile handle =>
      fits_in 8 request ∧ fits_in 8 inode ∧ fits_in 8 remoteFile ∧ fits_in 8 handle
  | ResponseRelease request error handle | ResponseReleaseDir request error handle =>
      fits_in 8 request ∧ -2 ^ 31 ≤ error < 2 ^ 31 ∧ fits_in 8 handle
  | RequestForgetMulti request forgets => fits_in 8 request ∧ Z.of_nat (length forgets) < 2 ^ 64 ∧
      Forall (λ f, fits_in 8 f.1 ∧ fits_in 8 f.2) forgets
  | ResponseForgetMulti request => fits_in 8 request
  | RequestRead request inode size offset skipped remoteFile =>
      fits_in 8 request ∧ fits_in 8 inode ∧ fits_in 8 size ∧ fits_in 8 offset ∧ fits_in 8 skipped ∧ fits_in 8 remoteFile
  | ResponseRead request inode size offset skipped answer =>
      fits_in 8 request ∧ fits_in 8 inode ∧ fits_in 8 size ∧ fits_in 8 offset ∧ fits_in 8 skipped ∧ answer_ok data_ok answer
  | RequestReadDir request inode size off remoteFile =>
      fits_in 8 request ∧ fits_in 8 inode ∧ fits_in 8 size ∧ fits_in 8 off ∧ fits_in 8 remoteFile
  | ResponseReadDir request data => fits_in 8 request ∧ data_ok data
  | RequestReadDirPlus request clientInode inode size off remoteFile =>
      fits_in 8 request ∧ fits_in 8 clientInode ∧ fits_in 8 inode ∧ fits_in 8 size ∧ fits_in 8 off ∧ fits_in 8 remoteFile
  | ResponseReadDirPlus request clientInode data => fits_in 8 request ∧ fits_in 8 clientInode ∧ data_ok data
  | NotifyInvalInode serverInode => fits_in 8 serverInode
  | NotifyInvalEntry eventType parentServerInode name serverInode size isDir =>
      fits_in 4 eventType ∧ fits_in 8 parentServerInode ∧ name_ok name ∧ fits_in 8 serverInode ∧ fits_in 8 size ∧
      fits_in 1 isDir
  | ResponseGetAttrRoot request clientInode => fits_in 8 request ∧ fits_in 8 clientInode
  | ResponseReleaseDirFailed request error => fits_in 8 request ∧ is_error error
  end.

(** What is read of a message.  Of two messages fewer bytes are written than are read: of
    the attributes of the root the time is not what was written, and behind the error of a
    directory that could not be closed a handle is read that was not. *)
Definition agrees (m m' : message) : Prop :=
  match m with
  | ResponseGetAttrRoot request clientInode =>
      ∃ mtim, m' = ResponseGetAttr request (inr (clientInode, mkAttributes S_IFDIR_0755 2 0 0 0 mtim))
  | ResponseReleaseDirFailed request error => ∃ handle, m' = ResponseReleaseDir request error handle
  | _ => m' = m
  end.

Definition short (m : message) : bool :=
  match m with ResponseGetAttrRoot _ _ | ResponseReleaseDirFailed _ _ => true | _ => false end.

(** *** The fields *)

Section Fields.
Context {In : Type} `{!InputStream In, !InputLaws In}.

Lemma reads_get n z : fits_in n z → reads (get n) (le_split n z) z.
Proof. apply reads_trivial. Qed.

(** Whatever the bytes are, a value is read. *)
Lemma reads_bytes n bs : length bs = n → reads (get n) bs (le_combine bs).
Proof. intros Hn. unfold get, InputByteStream.get_trivial. by apply (reads_ret (Serializer.read n)), reads_read. Qed.

Lemma reads_int z : -2 ^ 31 ≤ z < 2 ^ 31 → reads get_int (le_split sizeof_int z) z.
Proof.
  intros Hz i rest Hp. unfold get_int, get, InputByteStream.get_trivial.
  destruct (reads_read sizeof_int _ (length_le_split sizeof_int z) i rest Hp) as (i' & E & Hp'). exists i'.
  rewrite E. cbn [mbind res_bind]. split; [|done]. do 2 f_equal. rewrite le_combine_split.
  change (8 * Z.of_nat sizeof_int) with 32. unfold swrap, wrap. rewrite Zplus_mod_idemp_l.
  rewrite Z.mod_small; lia.
Qed.

Lemma reads_string s : name_ok s →
  reads get_string (le_split sizeof_size_t (Z.of_nat (length (bytes_of s))) ++ bytes_of s) s.
Proof.
  intros Hs. unfold get_string. rewrite <- (string_of_bytes s) at 3.
  apply (reads_bind (get sizeof_size_t) (λ size i, '(bs, i) ← Serializer.read (Z.to_nat size) i; Ret (string_of bs, i))
    _ _ (Z.of_nat (length (bytes_of s)))).
  - apply reads_get. split; [lia|exact Hs].
  - apply (reads_ret _ string_of), reads_read. by rewrite Nat2Z.id.
Qed.

Definition encode_forgets (forgets : list (Z * Z)) : list Z :=
  concat ((λ f, le_split sizeof_fuse_ino_t f.1 ++ le_split sizeof_uint64 f.2) <$> forgets).

Lemma forgets_of_encoded forgets : Forall (λ f, fits_in 8 f.1 ∧ fits_in 8 f.2) forgets →
  length (encode_forgets forgets) = (length forgets * 16)%nat ∧
  forgets_of (length forgets) (encode_forgets forgets) = forgets.
Proof.
  unfold encode_forgets, sizeof_fuse_ino_t, sizeof_uint64. induction 1 as [|[inode n] forgets [H1 H2] _ [IH1 IH2]]; [done|].
  cbn [fmap list_fmap concat forgets_of fst snd length Nat.mul] in *.
  assert (L : ∀ z, length (le_split 8 z) = 8%nat) by (intros; apply length_le_split). split.
  { rewrite !length_app, !L, IH1. lia. }
  assert (D : drop 16 ((le_split 8 inode ++ le_split 8 n) ++ encode_forgets forgets) = encode_forgets forgets).
  { by rewrite drop_app_length' by (by rewrite length_app, !L). }
  unfold encode_forgets, sizeof_fuse_ino_t, sizeof_uint64 in D. rewrite D, IH2, <- app_assoc.
  rewrite take_app_length', drop_app_length', take_app_length' by done.
  rewrite !le_combine_split. by rewrite !wrap_small by done.
Qed.

Lemma reads_forgets forgets :
  Z.of_nat (length forgets) < 2 ^ 64 → Forall (λ f, fits_in 8 f.1 ∧ fits_in 8 f.2) forgets →
  reads get_forgets (le_split sizeof_size_t (Z.of_nat (length forgets)) ++ encode_forgets forgets) forgets.
Proof.
  intros Hn Hf. destruct (forgets_of_encoded forgets Hf) as [Hl He]. unfold get_forgets. rewrite <- He at 3.
  replace (forgets_of (length forgets) (encode_forgets forgets)) with
    (forgets_of (Z.to_nat (Z.of_nat (length forgets))) (encode_forgets forgets)) by (by rewrite Nat2Z.id).
  apply (reads_bind (get sizeof_size_t)
    (λ size i, '(bs, i) ← Serializer.read (Z.to_nat size * 16) i; Ret (forgets_of (Z.to_nat size) bs, i))
    _ _ (Z.of_nat (length forgets))).
  - apply reads_get. split; [lia|exact Hn].
  - apply (reads_ret _ (forgets_of _)), reads_read. by rewrite Nat2Z.id.
Qed.

Lemma reads_no_error : reads get_int (le_split sizeof_int 0) 0.
Proof. by apply reads_int. Qed.

Lemma reads_error error : is_error error → reads get_int (le_split sizeof_int error) error.
Proof. intros [? _]. by apply reads_int. Qed.

(** The last field. *)
Lemma reads_end {A B} (f : In → res (A * In)) (g : A → In → res (B * In)) bs x y :
  reads f bs x → (∀ i, g x i = Ret (y, i)) → reads (λ i, '(a, i) ← f i; g a i) bs y.
Proof. intros Hf Hg i rest Hp. destruct (Hf _ _ Hp) as (i' & E & Hp'). exists i'. rewrite E. cbn. by rewrite Hg. Qed.

Lemma reads_attributes inode a : attributes_ok (inode, a) →
  reads get_attributes (le_split sizeof_fuse_ino_t inode ++ le_split sizeof_mode_t (st_mode a) ++
    le_split sizeof_nlink_t (st_nlink a) ++ le_split sizeof_off_t (st_size a) ++
    le_split sizeof_uid_t (st_uid a) ++ le_split sizeof_uid_t (st_gid a) ++
    le_split sizeof_timespec (st_mtim a)) (inode, a).
Proof.
  destruct a as [mode nlink size uid gid mtim]. unfold attributes_ok. cbn [fst snd st_mode st_nlink st_size st_uid st_gid st_mtim].
  intros (? & ? & ? & ? & ? & ? & ?). unfold get_attributes.
  repeat (eapply reads_bind; [by apply reads_get|]). eapply reads_end; [by apply reads_get|done].
Qed.

End Fields.

End Correctness.

Create HintDb wire.
#[export] Hint Resolve reads_get reads_int reads_no_error reads_error reads_string reads_forgets reads_attributes : wire.

(** The definitions of single messages, for the proofs about all of them. *)
#[export] Hint Unfold
  read_RequestGetAttr read_ResponseGetAttr read_RequestLookup read_ResponseLookup read_RequestOpenDir
  read_ResponseOpenDir read_RequestOpen read_ResponseOpen read_RequestRelease read_ResponseRelease
  read_RequestForgetMulti read_ResponseForgetMulti read_RequestReleaseDir read_ResponseReleaseDir
  read_RequestRead read_ResponseRead read_RequestReadDir read_ResponseReadDir read_RequestReadDirPlus
  read_ResponseReadDirPlus read_NotifyInvalInode read_NotifyInvalEntry : wire.

(** A sequence of writes, and one of reads of what they wrote. *)
Ltac solve_writes := repeat first [apply writes_write | eapply writes_app].
Ltac solve_reads :=
  repeat first
    [ by eapply reads_end; [by eauto with wire|]
    | eapply reads_end; [by eauto with wire|]; by intros; rewrite (proj2 (Z.eqb_neq _ _)) by (by match goal with H : is_error _ |- _ => destruct H end)
    | eapply reads_bind; [by eauto with wire|]; cbn [negb Z.eqb] ].

Section Wire.
Context (sizeof_fuse_file_info : nat).

(** What all writers of a message put on the stream, and all readers take from it. *)
Lemma wire_agrees m : wire_ok sizeof_fuse_file_info m → short m = false → ∃ bs h,
  handler_for (type_of m) = Some (h, true) ∧
  (∀ Out `(!OutputStream Out) `(!OutputLaws Out),
    writes (write_fields sizeof_fuse_file_info m) (le_split 4 (MessageType_value (type_of m)) ++ bs)) ∧
  (∀ In `(!InputStream In) `(!InputLaws In),
    reads (read_fields sizeof_fuse_file_info h) bs (with_data [] m)).
Proof.
  destruct m as [| ? [|[]] | | | ? ? ? [|[]] | | ? [|[]] | | ? [|[]] | | | | | | | | | ? ? ? ? ? [|] | | | | | |];
    cbn [wire_ok answer_ok short]; intros H ?; try done; eexists _, _; (split; [reflexivity|]);
    (split; [intros; cbn [write_fields]; unfold put_type; solve_writes|intros; cbn [read_fields with_data]]).
  all: unfold opened_ok in *; cbn [fst snd] in *; destruct_and?.
  all: try (autounfold with wire; solve_reads).
Qed.

(** Of the two others so many bytes more are read than were written. *)
Lemma wire_behind m : wire_ok sizeof_fuse_file_info m → short m = true → ∃ bs h n,
  handler_for (type_of m) = Some (h, true) ∧ (n ≤ 8)%nat ∧
  (∀ Out `(!OutputStream Out) `(!OutputLaws Out),
    writes (write_fields sizeof_fuse_file_info m) (le_split 4 (MessageType_value (type_of m)) ++ bs)) ∧
  ∀ behind, length behind = n → ∃ m', agrees m m' ∧ message_data m' = None ∧
    ∀ In `(!InputStream In) `(!InputLaws In), reads (read_fields sizeof_fuse_file_info h) (bs ++ behind) m'.
Proof.
  destruct m; cbn [wire_ok short]; intros H ?; try done; destruct H as [H1 H2].
  - eexists _, _, 4%nat. split; [reflexivity|]. split; [lia|].
    split; [intros; cbn [write_fields]; unfold put_type; solve_writes|]. intros behind Hb.
    eexists. split; [by eexists|]. split; [done|]. intros In HI HL. cbn [read_fields].
    replace (_ ++ behind) with (le_split 8 request ++ le_split 4 0 ++ le_split 8 clientInode ++ le_split 4 S_IFDIR_0755 ++
      le_split 8 2 ++ le_split 8 0 ++ le_split 4 0 ++ le_split 4 0 ++ (replicate 12 0 ++ behind)) by (rewrite <-!app_assoc; reflexivity).
    unfold read_ResponseGetAttr. do 2 (eapply reads_bind; [by eauto with wire|]; cbn [negb Z.eqb]).
    eapply reads_end; [|done]. unfold get_attributes.
    do 6 (eapply reads_bind; [by apply reads_get|]). eapply reads_end; [|done].
    apply reads_bytes. by rewrite length_app, Hb.
  - eexists _, _, 8%nat. split; [reflexivity|]. split; [lia|].
    split; [intros; cbn [write_fields]; unfold put_type; solve_writes|]. intros behind Hb.
    eexists. split; [by eexists|]. split; [done|]. intros In HI HL. cbn [read_fields]. rewrite <-!app_assoc.
    unfold read_ResponseReleaseDir. do 2 (eapply reads_bind; [by eauto with wire|]).
    eapply reads_end; [by apply reads_bytes|done].
Qed.

(** The fields of a message as bytes. *)
Definition encode (m : message) : list Z := from_res [] (write_fields sizeof_fuse_file_info m (Out := list Z) []).

Lemma encode_written m bs :
  writes (Out := list Z) (write_fields sizeof_fuse_file_info m) bs → encode m = bs.
Proof. intros H. destruct (H [] 0%nat I) as (o & E & Ho & _). unfold encode. rewrite E. by cbn in *. Qed.

(** *** Packets *)

Definition data_of (m : message) : list payload := default [] (message_data m).

Definition count_of (m : message) : list Z :=
  match message_data m with Some data => le_split sizeof_size_t (Z.of_nat (length data)) | None => [] end.

(** A message in the first packet of a writer that has nothing else. *)
Lemma GetWritedPackets_first p rest offset :
  (4 < offset ≤ length p)%nat →
  MessageWriter.GetWritedPackets (MessageWriter.mkMessageWriter (p :: rest) 0 1 offset) =
    Ret ([store 0 (le_split 4 1) p], rest).
Proof.
  intros Ho. unfold MessageWriter.GetWritedPackets.
  cbn [MessageWriter.mw_packet MessageWriter.mw_offset MessageWriter.mw_packets MessageWriter.mw_writedPacketNumber].
  rewrite (proj2 (Nat.eqb_neq offset 4)), (proj2 (Nat.eqb_neq offset 0)) by lia.
  cbn [Nat.eqb andb negb length assert_that mbind res_bind].
  rewrite (proj2 (defined_if_ret _)) by (apply Nat.leb_le; unfold sizeof_writedPacketNumber; lia).
  cbn [mbind res_bind]. unfold splice_from. done.
Qed.

Lemma store_number n p : (4 ≤ length p)%nat → 0 ≤ n < 2 ^ 32 → le_combine (take 4 (store 0 (le_split 4 n) p)) = n.
Proof.
  intros Hp Hn. assert (H : holds 0 (le_split 4 n) (store 0 (le_split 4 n) p)) by (apply store_holds; rewrite length_le_split; lia).
  unfold holds in H. rewrite length_le_split in H. change (take 4 (store 0 (le_split 4 n) p)) with (slice 0 4 (store 0 (le_split 4 n) p)).
  rewrite H, le_combine_split. by apply wrap_small.
Qed.

(** What a message consists of: its first packet, which says how many there are and holds
    the type, the fields and the number of the packets of data, and the data. *)
Definition laid_out (m : message) (bs : list Z) (ps : list payload) : Prop :=
  ∃ p, ps = p :: data_of m ∧ le_combine (take 4 p) = Z.of_nat (length ps) ∧
    (8 + length bs + 8 ≤ length p)%nat ∧
    holds 4 (le_split 4 (MessageType_value (type_of m)) ++ bs ++ count_of m) p.

Lemma write_laid_out m bs front free rest :
  (∀ Out `(!OutputStream Out) `(!OutputLaws Out),
    writes (write_fields sizeof_fuse_file_info m) (le_split 4 (MessageType_value (type_of m)) ++ bs)) →
  match message_data m with Some data => data_ok data | None => True end → (8 + length bs + 8 ≤ length front)%nat →
  ∃ w ps, write sizeof_fuse_file_info m (MessageWriter.make (front :: free :: rest)) = Ret w ∧
    MessageWriter.GetWritedPackets w = Ret (ps, free :: rest) ∧ laid_out m bs ps.
Proof.
  intros Hw Hd Hl. set (head := le_split 4 (MessageType_value (type_of m)) ++ bs) in *.
  assert (Hh : length head = (4 + length bs)%nat) by (unfold head; by rewrite length_app, length_le_split).
  destruct (Hw _ _ (MessageWriter_laws (length front) (free :: rest)) (MessageWriter.make (front :: free :: rest)) 8%nat)
    as (w & E & Hc & (p & offset & -> & Hp & Ho)).
  { exists front, 4%nat. split; [done|]. split; [done|]. lia. }
  change (slice 4 (offset - 4) p = head) in Hc.
  assert (Hoff : offset = (4 + length head)%nat).
  { apply (f_equal length) in Hc. rewrite length_slice in Hc; lia. }
  assert (Hin : holds 4 head p) by (unfold holds; by replace (length head) with (offset - 4)%nat by lia).
  clear Hc. unfold write. rewrite E. cbn [mbind res_bind]. unfold laid_out, data_of, count_of.
  destruct (message_data m) as [data|] eqn:Em.
  - destruct Hd as [Hne Hnum]. rewrite write_packets_spec by (unfold sizeof_size_t; lia). eexists _, _. split; [done|].
    split; [apply GetWritedPackets_packets; rewrite store_length; unfold sizeof_writedPacketNumber; lia|].
    eexists. split; [done|]. split; [|split; [rewrite !store_length; lia|]].
    + rewrite store_number; [cbn [length default]; unfold wrap; rewrite Z.mod_small; lia|rewrite store_length; lia|].
      apply wrap_range. lia.
    + apply store_keeps; [right; rewrite length_le_split; unfold sizeof_writedPacketNumber; lia|].
      rewrite app_assoc. fold head.
      apply holds_app; [apply store_keeps; [left; lia|done]|].
      rewrite <- Hoff. apply store_holds. rewrite length_le_split. unfold sizeof_size_t. lia.
  - eexists _, _. split; [done|]. split; [apply GetWritedPackets_first; lia|].
    eexists. split; [done|]. split; [|split; [rewrite store_length; lia|]].
    + rewrite store_number; [done|lia|lia].
    + rewrite app_nil_r. apply store_keeps; [right; rewrite length_le_split; lia|done].
Qed.

(** A reader in the first packet, with [E] the end of what it reads there. *)
Definition reader_laws (ps : list payload) (E : nat) : InputLaws MessageReader.MessageReader.
Proof.
  refine {| pending r bs := ∃ p, head ps = Some p ∧ (length bs ≤ E ≤ length p)%nat ∧
    r = MessageReader.mkMessageReader ps 0 (E - length bs) ∧ holds (E - length bs) bs p |}.
  intros bs rest r (p & Hp & Hl & -> & Hh). rewrite length_app in *. apply holds_app_inv in Hh as [H1 H2].
  destruct ps as [|p' ps]; simplify_eq/=. rewrite (read_fits _ _ p) by (cbn; done || lia).
  cbn [MessageReader.mr_offset MessageReader.mr_packets MessageReader.mr_packet].
  eexists. split; [unfold holds in H1; by rewrite H1|]. exists p. split; [done|]. split; [lia|].
  replace (E - (length bs + length rest) + length bs)%nat with (E - length rest)%nat in * by lia. done.
Defined.

Lemma read_laid_out m bs ps h :
  (∀ In `(!InputStream In) `(!InputLaws In), reads (read_fields sizeof_fuse_file_info h) bs (with_data [] m)) →
  match message_data m with Some data => data_ok data | None => True end → laid_out m bs ps →
  ∃ r, read sizeof_fuse_file_info h (MessageReader.mkMessageReader ps 0 8) = Ret (m, r).
Proof.
  intros Hr Hd (p & -> & _ & Hl & Hh). assert (Ht : (length (count_of m) ≤ 8)%nat).
  { unfold count_of. destruct (message_data m); [by rewrite length_le_split|cbn; lia]. }
  apply holds_app_inv in Hh as [_ Hh]. rewrite length_le_split in Hh. cbn [Nat.add] in Hh.
  set (E := (8 + length (bs ++ count_of m))%nat).
  destruct (Hr _ _ (reader_laws (p :: data_of m) E) (MessageReader.mkMessageReader (p :: data_of m) 0 8) (count_of m))
    as (r & Er & (p' & [= <-] & HE & -> & Ht')).
  { exists p. replace (E - length (bs ++ count_of m))%nat with 8%nat by lia.
    split; [done|]. split; [unfold E; rewrite length_app; lia|done]. }
  unfold read. rewrite Er. cbn [mbind res_bind].
  assert (message_data (with_data [] m) = (λ _, []) <$> message_data m) as -> by (destruct m as [| | | | | | | | | | | | | | | | | ? ? ? ? ? []| | | | | |]; done).
  destruct (message_data m) as [data|] eqn:Em; cbn [fmap option_fmap option_map].
  - destruct Hd as [Hne Hnum]. clearbody E. unfold data_of, count_of in *. rewrite Em in *.
    change (default [] (Some data)) with data. rewrite length_le_split in HE.
    rewrite read_packets_spec; [|done|lia|rewrite length_le_split; unfold sizeof_size_t in *; lia|done].
    eexists. cbn [mbind res_bind]. do 3 f_equal. by destruct m as [| | | | | | | | | | | | | | | | | ? ? ? ? ? []| | | | | |]; simplify_eq/=.
  - eexists. do 2 f_equal. by destruct m as [| | | | | | | | | | | | | | | | | ? ? ? ? ? []| | | | | |]; simplify_eq/=.
Qed.

(** Fields that go on behind those that were written. *)
Lemma read_behind m m' bs behind ps h :
  (∀ In `(!InputStream In) `(!InputLaws In), reads (read_fields sizeof_fuse_file_info h) (bs ++ behind) m') →
  message_data m' = None → (length behind ≤ 8)%nat → laid_out m bs ps →
  (∀ p, head ps = Some p → behind = slice (8 + length bs) (length behind) p) →
  ∃ r, read sizeof_fuse_file_info h (MessageReader.mkMessageReader ps 0 8) = Ret (m', r).
Proof.
  intros Hr Hd Hb (p & -> & _ & Hl & Hh) Hin. specialize (Hin p eq_refl).
  rewrite (assoc (++)) in Hh. apply holds_app_inv in Hh as [Hh _].
  apply holds_app_inv in Hh as [_ Hh]. rewrite length_le_split in Hh.
  set (E := (8 + length (bs ++ behind))%nat).
  destruct (Hr _ _ (reader_laws (p :: data_of m) E) (MessageReader.mkMessageReader (p :: data_of m) 0 8) [])
    as (r & Er & _).
  { exists p. rewrite app_nil_r. replace (E - length (bs ++ behind))%nat with 8%nat by lia.
    split; [done|]. split; [unfold E; rewrite length_app; lia|]. split; [done|].
    apply holds_app; [done|]. exact (eq_sym Hin). }
  unfold read. rewrite Er. cbn [mbind res_bind]. rewrite Hd. by eexists.
Qed.

(** *** Conversations *)

(** A job is run with a writer over free packets; what it has written is sent, the rest
    is kept. *)
Definition send (m : message) (packets : list payload) : res (list payload * list payload) :=
  writer ← write sizeof_fuse_file_info m (MessageWriter.make packets); MessageWriter.GetWritedPackets writer.

(** The job that a message is handed to reads that message, as far as it was written. *)
Definition read_as (m : message) (h : handler * option MessageReader.MessageReader) : Prop :=
  handler_for (type_of m) = Some (h.1, true) ∧
  ∃ reader m' reader', h.2 = Some reader ∧ read sizeof_fuse_file_info h.1 reader = Ret (m', reader') ∧ agrees m m'.

Definition roomy (m : message) (packets : list payload) : Prop :=
  ∃ front free rest, packets = front :: free :: rest ∧ (12 + length (encode m) ≤ length front)%nat.

Lemma wire_ok_data m : wire_ok sizeof_fuse_file_info m →
  match message_data m with Some data => data_ok data | None => True end.
Proof. destruct m as [| | | | | | | | | | | | | | | | | ? ? ? ? ? []| | | | | |]; cbn; tauto. Qed.

Lemma laid_out_ok m bs ps h : handler_for (type_of m) = Some (h, true) →
  match message_data m with Some data => data_ok data | None => True end → laid_out m bs ps →
  message_ok ps (h, Some (MessageReader.mkMessageReader ps 0 8)).
Proof.
  intros Hh Hd (p & -> & Hn & Hl & Hc). apply holds_app_inv in Hc as [Ht _]. unfold holds in Ht. rewrite length_le_split in Ht.
  exists p, (data_of m), (MessageType_value (type_of m)), true. split; [done|]. split; [lia|]. split; [done|].
  rewrite Ht, le_combine_split. split; [by destruct m|]. split; [|done].
  unfold handler_of. by rewrite MessageType_of_value.
Qed.

Lemma sent_message m packets : wire_ok sizeof_fuse_file_info m → roomy m packets →
  ∃ ps h, send m packets = Ret (ps, tail packets) ∧ message_ok ps h ∧ read_as m h.
Proof.
  intros Hok (front & free & rest & -> & Hroom). pose proof (wire_ok_data m Hok) as Hd.
  assert (H : ∃ bs h, handler_for (type_of m) = Some (h, true) ∧
    (∀ Out `(!OutputStream Out) `(!OutputLaws Out),
      writes (write_fields sizeof_fuse_file_info m) (le_split 4 (MessageType_value (type_of m)) ++ bs)) ∧
    ∀ ps, laid_out m bs ps → ∃ m' r, read sizeof_fuse_file_info h (MessageReader.mkMessageReader ps 0 8) = Ret (m', r) ∧ agrees m m').
  { destruct (short m) eqn:Es.
    - destruct (wire_behind m Hok Es) as (bs & h & n & Hh & Hn & Hw & Hr). exists bs, h. split; [done|]. split; [done|].
      intros ps Hps. pose proof Hps as (p & -> & _ & Hl & _).
      destruct (Hr (slice (8 + length bs) n p)) as (m' & Ha & Hnone & Hr'); [rewrite length_slice; lia|].
      assert (Hlen : length (slice (8 + length bs) n p) = n) by (rewrite length_slice; lia).
      destruct (read_behind m m' bs _ _ h Hr' Hnone ltac:(lia) Hps) as [r Er]; [|by exists m', r].
      intros p' [= <-]. by rewrite Hlen.
    - destruct (wire_agrees m Hok Es) as (bs & h & Hh & Hw & Hr). exists bs, h. split; [done|]. split; [done|].
      intros ps Hps. destruct (read_laid_out m bs ps h Hr Hd Hps) as [r Er]. exists m, r. split; [done|]. by destruct m. }
  destruct H as (bs & h & Hh & Hw & Hr). rewrite (encode_written m _ (Hw _ _ _)) in Hroom.
  rewrite length_app, length_le_split in Hroom.
  destruct (write_laid_out m bs front free rest Hw Hd ltac:(lia)) as (w & ps & Ew & Eg & Hps).
  destruct (Hr ps Hps) as (m' & r & Er & Ha).
  exists ps, (h, Some (MessageReader.mkMessageReader ps 0 8)). split; [unfold send; by rewrite Ew|].
  split; [by eapply laid_out_ok|]. split; [done|]. by do 3 eexists.
Qed.

(** C39: Whatever messages the jobs of one side write, one after the other, and however their
    packets are cut into lists on the way: the other side hands each one that has arrived
    whole, in order and once, to the job of its type, and this job reads the fields and
    packets that were written, each with the type it was written with; only the time of the
    root, and the handle behind a failed close, are whatever is in the packet.  This is so
    if every value fits its field, the fields fit into the first packet, which has one
    behind it, and a list of packets is not empty. *)
Theorem messages_delivered (jobs : list (message * list payload)) :
  Forall (λ j, wire_ok sizeof_fuse_file_info j.1 ∧ roomy j.1 j.2) jobs →
  ∃ pss, Forall2 (λ j ps, send j.1 j.2 = Ret (ps, tail j.2)) jobs pss ∧
    ∀ received future, concat received ++ future = concat pss →
    ∃ k hs rest, MessageTypeReadJob.run (MessageTypeReadJob.run_fuel received []) received [] = Ret (hs, rest) ∧
      Forall2 read_as (take k jobs.*1) hs ∧ (future = [] → take k jobs.*1 = jobs.*1 ∧ rest = []).
Proof.
  intros Hjobs. assert (Hsent : ∃ pss hs, Forall2 (λ j ps, send j.1 j.2 = Ret (ps, tail j.2)) jobs pss ∧
    Forall2 message_ok pss hs ∧ Forall2 read_as jobs.*1 hs).
  { induction Hjobs as [|[m packets] jobs [Hok Hroom] _ (pss & hs & H1 & H2 & H3)]; [by exists [], []|].
    destruct (sent_message m packets Hok Hroom) as (ps & h & ? & ? & ?).
    exists (ps :: pss), (h :: hs). split; [by constructor|]. split; by constructor. }
  destruct Hsent as (pss & hs & H1 & H2 & H3). exists pss. split; [done|]. intros received future Hc.
  destruct (run_handled (MessageTypeReadJob.run_fuel received []) pss hs received [] future H2 Hc (le_n _))
    as (k & rest & E & Hk & _ & Hrest & Hnext).
  exists k, (take k hs), rest. split; [done|]. split; [by apply Forall2_take|]. intros ->. rewrite app_nil_r in Hrest.
  assert (Hall : drop k pss = []).
  { destruct (drop k pss) as [|ps pss']; [done|]. apply (f_equal length) in Hrest. cbn in Hrest.
    rewrite length_app in Hrest. lia. }
  rewrite Hall in Hrest. split; [|done]. apply take_ge. rewrite (Forall2_length _ _ _ H3), <- (Forall2_length _ _ _ H2).
  apply (f_equal length) in Hall. rewrite length_drop in Hall. cbn in Hall. lia.
Qed.

End Wire.

(** ** What goes wrong *)

(** The attributes of the root: the number of links is written with four bytes and read
    with eight.  The fields behind it are read at the wrong place, and the last bytes of
    the time are whatever the packet held before. *)
Lemma root_attributes_misread :
  let used := [replicate 100 170; []] in
  ∃ ps r r', send 40 (ResponseGetAttrRoot 7 1) used = Ret (ps, [[]]) ∧
    r = MessageReader.mkMessageReader ps 0 8 ∧
    read 40 ResponseGetAttrInJob r =
      Ret (ResponseGetAttr 7 (inr (1, mkAttributes 16877 2 0 0 0 (170 * 2 ^ 96 + 170 * 2 ^ 104 + 170 * 2 ^ 112 + 170 * 2 ^ 120))), r').
Proof. do 3 eexists. split; [vm_compute; reflexivity|]. split; [reflexivity|]. vm_compute. reflexivity. Qed.

(** More inodes than fit a packet: the type at its beginning is overwritten, and the
    message is one that no job handles. *)
Lemma long_forget_destroyed :
  let forgets := replicate 4 (4096, 1) in
  let packets := [replicate 72 0; replicate 72 0; replicate 72 0] in
  ∃ p p' rest, send 40 (RequestForgetMulti 7 forgets) packets = Ret ([p; p'], rest) ∧
    handler_of (le_combine (slice 4 4 p)) = None.
Proof. do 3 eexists. split; [vm_compute; reflexivity|]. vm_compute. reflexivity. Qed.

Definition blank : list payload := [replicate 100 0; replicate 100 0; replicate 100 0].

(** A list of no packets: its reader takes a range that begins at the end of the message
    ([MultiList.splice_range_undefined]). *)
Lemma empty_list_unread :
  ∃ ps, send 40 (ResponseReadDir 7 []) blank = Ret (ps, tail blank) ∧
    read 40 ResponseReadDirInJob (MessageReader.mkMessageReader ps 0 8) = Err Undefined.
Proof. eexists. split; [vm_compute; reflexivity|]. vm_compute. reflexivity. Qed.

(** ** Witness *)

Definition spoken : list message :=
  [RequestLookup 7 1 "name"; ResponseReadDir 8 [[1; 2]; [3]]; ResponseReleaseDirFailed 9 5; ResponseGetAttrRoot 10 1].
Definition speakers : list (message * list payload) := (λ m, (m, blank)) <$> spoken.

Lemma speakers_ok : Forall (λ j, wire_ok 40 j.1 ∧ roomy 40 j.1 j.2) speakers.
Proof.
  unfold speakers, spoken. cbn [fmap list_fmap].
  repeat constructor; cbn; unfold fits_in, name_ok, data_ok; cbn; try lia; try done;
    (eexists _, _, _; split; [reflexivity|vm_compute; lia]).
Qed.

Lemma messages_delivered_witness :
  ∃ pss, Forall2 (λ j ps, send 40 j.1 j.2 = Ret (ps, tail j.2)) speakers pss ∧
    ∃ hs, MessageTypeReadJob.run (MessageTypeReadJob.run_fuel ((λ p, [p]) <$> concat pss) []) ((λ p, [p]) <$> concat pss) [] = Ret (hs, []) ∧
      Forall2 (read_as 40) spoken hs.
Proof.
  destruct (messages_delivered 40 speakers speakers_ok) as (pss & H1 & H2).
  exists pss. split; [exact H1|]. destruct (H2 ((λ p, [p]) <$> concat pss) []) as (k & hs & rest & E & Hr & Hend).
  - rewrite app_nil_r. clear. induction (concat pss) as [|p ps IH]; [done|]. cbn in *. by rewrite IH.
  - destruct (Hend eq_refl) as [Hk ->]. rewrite Hk in Hr. by exists hs.
Defined.
