(* ===== verification/Names.v ===== *)
(** * Names: looking up, opening, listing and forgetting files
    [Protocol/src/FileSystem/]: the callbacks of [RemoteFileSystem] that libfuse calls, the
    jobs that ask the server ([Request...Job]), those that answer ([Response...Job]), those
    that take the answers ([Response...InJob]), and [Protocol/src/ProcessInotifyEventJob.cpp].

    Both sides have a [FileTree].  An inode of the client is the address of a leaf of the
    client, which knows the address of the leaf of the server; 1 is the root on both
    sides.  What is written and read of a message is in [Messages]; a job here takes the
    fields of its message and gives the message it writes. *)
From S2P Require Import Prelude Addr Packet Leaf FileTree Messages.
Local Open Scope Z_scope.

(** ** The operating system of the server *)

(** What the system calls and [std::filesystem] say about a path, and how many bytes
    libfuse needs for a directory entry.  [os_open] is the descriptor, [os_close] the
    result of [close] and [errno]. *)
Record OS := mkOS {
  os_status : list string → file_type;
  os_file_size : list string → option Z;
  os_stat : list string → option attributes;
  os_fstat : Z → option attributes;
  os_open : list string → option Z;
  os_close : Z → Z * Z;
  os_listing : list string → list FileTree.dir_entry;
  os_entry_size : string → Z;
}.

Definition ENOENT : Z := 2.
Definition S_IFMT : Z := 61440.
Definition S_IFDIR : Z := 16384.
Definition S_ISDIR (mode : Z) : bool := Z.land mode S_IFMT =? S_IFDIR.
Definition no_attributes : attributes := mkAttributes 0 0 0 0 0 0.
Definition with_size (size : Z) (a : attributes) : attributes :=
  mkAttributes (st_mode a) (st_nlink a) size (st_uid a) (st_gid a) (st_mtim a).

(** An entry of a listing with attributes ([fuse_direntplus]). *)
Record entry := mkEntry {
  en_name : string;
  en_nodeid : Z;
  en_attr : attributes;
  en_off : Z;
}.

(** What goes from the server to the client: a message, or the answer to a listing, whose
    data are entries: names, inodes and positions ([fuse_dirent]), or these and attributes. *)
Inductive answer :=
  | Plain (m : message)
  | Listing (request : Z) (entries : list (string * Z * Z))
  | Entries (request clientInode : Z) (entries : list entry).

Section Leaves.
Context {P J : Type} `{!IPacket P}.
Implicit Types (t : FileTree P J).

(** [GetLeaf]. *)
Definition GetLeaf (inode : Z) t : res (Z * LeafObject P J) :=
  o ← FileTree.leaf_at (FileTree.address inode t) t; Ret (FileTree.address inode t, o).

(** The parents are as many as there are leaves at most. *)
Definition GetFullPath a t : res (list string) := FileTree.GetFullPath (S (size (ft_leaves t))) a t.

End Leaves.

(** ** The jobs of the server *)

Module Server.

(** The tree, and the files that are open for clients: a [RemoteFileHandle] at its address,
    with the descriptor of its [NativeFile]. *)
Record Server (P J : Type) := mkServer {
  sv_tree : FileTree P J;
  sv_files : gmap Z Z;
}.
Arguments mkServer {_ _} _ _.
Arguments sv_tree {_ _} _.
Arguments sv_files {_ _} _.

Section Operations.
Context {P J : Type} `{!IPacket P}.
Implicit Types (t : FileTree P J) (s : Server P J).

Definition with_tree t s : Server P J := mkServer t (sv_files s).

Context (os : OS) (alloc : FileTree P J → Z) (new_file : gmap Z Z → Z).

Definition AddLeaf (path : list string) (name : string) parent t : res (FileTree P J * Z) :=
  let type := os_status os path in
  let size := if bool_decide (type = ft_regular) then default 0 (os_file_size os path) else 0 in
  FileTree.AddChild parent name type size (alloc t) t.

Definition ResponseLookupJob (request parentId : Z) (name : string) s : res (Server P J * message) :=
  let t := sv_tree s in
  '(parent, o) ← GetLeaf parentId t;
  let file := LeafObject.Find name o in
  parentPath ← GetFullPath parent t;
  let path := parentPath ++ [name] in
  if bool_decide (file = None) && bool_decide (os_status os path = ft_not_found) then
    Ret (s, ResponseLookup request parentId name (inl ENOENT))
  else
    '(t, fileRef) ← match file with Some leaf => Ret (t, leaf) | None => AddLeaf path name parent t end;
    match os_stat os path with
    | None => Ret (with_tree t s, ResponseLookup request parentId name (inl (-1)))
    | Some stbuf =>
        t ← FileTree.AddRef fileRef t;
        leaf ← FileTree.leaf_at fileRef t;
        Ret (with_tree t s,
          ResponseLookup request parentId name (inr (fileRef, with_size (LeafObject.GetSize leaf) stbuf)))
    end.

Definition ResponseGetAttrJob (request clientInode inode remoteFile : Z) s : res (Server P J * message) :=
  if inode =? FUSE_ROOT_ID then Ret (s, ResponseGetAttrRoot request clientInode)
  else
    stbuf ← (if negb (remoteFile =? 0) then
        match sv_files s !! remoteFile with
        | Some fd => assert_that (negb (fd =? -1));; Ret (os_fstat os fd)
        | None => Err Undefined
        end
      else '(leaf, _) ← GetLeaf inode (sv_tree s); path ← GetFullPath leaf (sv_tree s); Ret (os_stat os path));
    match stbuf with
    | None => Ret (s, ResponseGetAttr request (inl (-1)))
    | Some stbuf => Ret (s, ResponseGetAttr request (inr (clientInode, stbuf)))
    end.

(** [NativeFile::Open] asserts that the file could be opened, and [new RemoteFileHandle]. *)
Definition open_file (path : list string) s : res (Server P J * Z) :=
  match os_open os path with
  | None => Err AssertFails
  | Some fd => let handle := new_file (sv_files s) in Ret (mkServer (sv_tree s) (<[handle := fd]> (sv_files s)), handle)
  end.

Definition ResponseOpenJob (request inode fileInfo : Z) s : res (Server P J * message) :=
  '(leaf, _) ← GetLeaf inode (sv_tree s);
  path ← GetFullPath leaf (sv_tree s);
  '(s, remoteFile) ← open_file path s;
  t ← FileTree.AddRef leaf (sv_tree s);
  Ret (with_tree t s, ResponseOpen request (inr (fileInfo, remoteFile))).

Definition ResponseOpenDirJob (request inode fileInfo : Z) s : res (Server P J * message) :=
  '(leaf, _) ← GetLeaf inode (sv_tree s);
  t ← FileTree.AddRef leaf (sv_tree s);
  path ← GetFullPath leaf t;
  '(s, remoteFile) ← open_file path (with_tree t s);
  Ret (s, ResponseOpenDir request (inr (fileInfo, remoteFile))).

(** [delete remoteFile]: of one that is there, or of the null pointer. *)
Definition delete_file (remoteFile : Z) s : res (Server P J) :=
  if remoteFile =? 0 then Ret s
  else defined_if (bool_decide (is_Some (sv_files s !! remoteFile)));;
    Ret (mkServer (sv_tree s) (delete remoteFile (sv_files s))).

Definition ResponseReleaseJob (request inode remoteFile handle : Z) s : res (Server P J * message) :=
  '(leaf, _) ← GetLeaf inode (sv_tree s);
  t ← FileTree.ReleaseRef 1 leaf (sv_tree s);
  assert_that (negb (inode =? FUSE_ROOT_ID));;
  s ← delete_file remoteFile (with_tree t s);
  Ret (s, ResponseRelease request 0 handle).

Definition ResponseReleaseDirJob (request inode remoteFile handle : Z) s : res (Server P J * message) :=
  '(leaf, _) ← GetLeaf inode (sv_tree s);
  t ← FileTree.ReleaseRef 1 leaf (sv_tree s);
  let s := with_tree t s in
  if inode =? FUSE_ROOT_ID then
    s ← delete_file remoteFile s; Ret (s, ResponseReleaseDir request 0 handle)
  else
    match sv_files s !! remoteFile with
    | None => Err Undefined
    | Some fd =>
        assert_that (negb (fd =? -1));;
        let '(result, errno) := os_close os fd in
        if result =? -1 then
          Ret (mkServer (sv_tree s) (<[remoteFile := -1]> (sv_files s)), ResponseReleaseDirFailed request errno)
        else
          s ← delete_file remoteFile s; Ret (s, ResponseReleaseDir request 0 handle)
    end.

Definition ResponseForgetMultiJob (request : Z) (forgets : list (Z * Z)) s : res (Server P J * message) :=
  t ← foldl (λ m '(inode, nlookup), t ← m; '(leaf, _) ← GetLeaf inode t; FileTree.ReleaseRef nlookup leaf t)
    (Ret (sv_tree s)) forgets;
  Ret (with_tree t s, ResponseForgetMulti request).

(** The children behind the first [offset - 1] ones; [size] counts them.  The positions
    start again at 2 in each answer. *)
Definition ResponseReadDirJob (request inode size offset remoteFile : Z) s : res (Server P J * answer) :=
  '(_, o) ← GetLeaf inode (sv_tree s);
  let dots := (if offset <? 1 then [(".", inode, 0)] else []) ++ (if offset <? 2 then [("..", 1, 1)] else []) in
  let children := take (Z.to_nat size) (drop (Z.to_nat (offset - 1)) (lo_children o)) in
  Ret (s, Listing request (dots ++ imap (λ i '(name, child), (name, child, Z.of_nat i + 2)) children)).

(** The loop over the children: those that fit, without those that are deleted. *)
Fixpoint add_entries (size writedSize inodeIndex : Z) (children : list (string * Z)) t : res (FileTree P J * list entry) :=
  match children with
  | [] => Ret (t, [])
  | (name, child) :: rest =>
      if writedSize + os_entry_size os name <? size then
        o ← FileTree.leaf_at child t;
        if LeafObject.IsDeleted o then add_entries size writedSize (inodeIndex + 1) rest t
        else
          path ← GetFullPath child t;
          let stbuf := default no_attributes (os_stat os path) in
          t ← FileTree.AddRef child t;
          '(t, entries) ← add_entries size (writedSize + os_entry_size os name) (inodeIndex + 1) rest t;
          Ret (t, mkEntry name child stbuf inodeIndex :: entries)
      else Ret (t, [])
  end.

Definition dot_entries (inode offset : Z) (stbuf : attributes) : list entry :=
  (if offset <? 1 then [mkEntry "." inode stbuf 1] else []) ++
  (if offset <? 2 then [mkEntry ".." 1 no_attributes 2] else []).
Definition entries_size (entries : list entry) : Z := foldr (λ e n, os_entry_size os (en_name e) + n) 0 entries.

Definition ResponseReadDirPlusJob (request clientInode inode size offset remoteFile : Z) s : res (Server P J * answer) :=
  let t := sv_tree s in
  '(parent, _) ← GetLeaf inode t;
  path ← GetFullPath parent t;
  let dots := dot_entries inode offset (default no_attributes (os_stat os path)) in
  t ← FileTree.Rescan alloc parent (os_listing os path) t;
  o ← FileTree.leaf_at parent t;
  '(t, entries) ← add_entries size (entries_size dots) (3 + Z.max 0 (offset - 2))
    (drop (Z.to_nat (offset - 2)) (lo_children o)) t;
  Ret (with_tree t s, Entries request clientInode (dots ++ entries)).

(** The job of a request. *)
Definition Serve (m : message) s : res (Server P J * answer) :=
  match m with
  | RequestGetAttr request clientInode inode remoteFile =>
      '(s, m) ← ResponseGetAttrJob request clientInode inode remoteFile s; Ret (s, Plain m)
  | RequestLookup request parentId name => '(s, m) ← ResponseLookupJob request parentId name s; Ret (s, Plain m)
  | RequestOpenDir request inode fileInfo => '(s, m) ← ResponseOpenDirJob request inode fileInfo s; Ret (s, Plain m)
  | RequestOpen request inode fileInfo => '(s, m) ← ResponseOpenJob request inode fileInfo s; Ret (s, Plain m)
  | RequestRelease request inode remoteFile handle =>
      '(s, m) ← ResponseReleaseJob request inode remoteFile handle s; Ret (s, Plain m)
  | RequestReleaseDir request inode remoteFile handle =>
      '(s, m) ← ResponseReleaseDirJob request inode remoteFile handle s; Ret (s, Plain m)
  | RequestForgetMulti request forgets => '(s, m) ← ResponseForgetMultiJob request forgets s; Ret (s, Plain m)
  | RequestReadDir request inode size off remoteFile => ResponseReadDirJob request inode size off remoteFile s
  | RequestReadDirPlus request clientInode inode size off remoteFile =>
      ResponseReadDirPlusJob request clientInode inode size off remoteFile s
  | _ => Err (Throws "no request about names")
  end.

(** *** Changes on the disk *)

Inductive WatchEventType := Modified | Created | Deleted | MovedFrom | MovedTo.
Definition WatchEventType_value (type : WatchEventType) : Z :=
  match type with Modified => 0 | Created => 1 | Deleted => 2 | MovedFrom => 3 | MovedTo => 4 end.

Record WatchEvent := mkWatchEvent {
  we_path : list string;        (* below the root *)
  we_name : string;
  we_type : WatchEventType;
  we_isDir : bool;
}.

(** [ResolvePath]: the leaf at a path below the root. *)
Fixpoint walk_path (path : list string) (node : Z) t : res (option Z) :=
  match path with
  | [] => Ret (Some node)
  | part :: path =>
      o ← FileTree.leaf_at node t;
      match LeafObject.Find part o with
      | None => Ret None
      | Some child => walk_path path child t
      end
  end.
Definition ResolvePath (path : list string) t : res (option Z) := walk_path path (ft_root t) t.

Definition parent_path (path : list string) : list string := removelast path.

(** A name that appeared at a leaf, and one that went. *)
Definition process_created (event : WatchEvent) parent size s : res (Server P J * list answer) :=
  let fileType := if we_isDir event then ft_directory else ft_regular in
  '(t, leaf) ← FileTree.AddChild parent (we_name event) fileType size (alloc (sv_tree s)) (sv_tree s);
  o ← FileTree.leaf_at leaf t;
  op ← FileTree.leaf_at parent t;
  let parentServerInode := LeafObject.GetServerInode parent op in
  Ret (with_tree t s,
    [Plain (NotifyInvalEntry (WatchEventType_value (we_type event)) parentServerInode (we_name event)
       (LeafObject.GetServerInode leaf o) size (if we_isDir event then 1 else 0));
     Plain (NotifyInvalInode parentServerInode)]).

Definition process_deleted (event : WatchEvent) parent s : res (Server P J * list answer) :=
  op ← FileTree.leaf_at parent (sv_tree s);
  let parentServerInode := LeafObject.GetServerInode parent op in
  t ← FileTree.RemoveChild parent (we_name event) (sv_tree s);
  Ret (with_tree t s,
    [Plain (NotifyInvalEntry (WatchEventType_value (we_type event)) parentServerInode (we_name event) 0 0 0);
     Plain (NotifyInvalInode parentServerInode)]).

(** [ProcessInotifyEventJob] and the jobs it schedules, which write one message each. *)
Definition ProcessInotifyEventJob (event : WatchEvent) s : res (Server P J * list answer) :=
  let t := sv_tree s in
  match we_type event with
  | Modified =>
      leaf ← ResolvePath (we_path event) t;
      match leaf with
      | None => Ret (s, [])
      | Some leaf => o ← FileTree.leaf_at leaf t; Ret (s, [Plain (NotifyInvalInode (LeafObject.GetServerInode leaf o))])
      end
  | Created | MovedTo =>
      parent ← ResolvePath (parent_path (we_path event)) t;
      match parent with
      | None => Ret (s, [])
      | Some parent =>
          root ← FileTree.leaf_at (ft_root t) t;
          let size := if we_isDir event then 0 else default 0 (os_file_size os (lo_name root :: we_path event)) in
          process_created event parent size s
      end
  | Deleted | MovedFrom =>
      parent ← ResolvePath (parent_path (we_path event)) t;
      match parent with
      | None => Ret (s, [])
      | Some parent => process_deleted event parent s
      end
  end.

End Operations.
End Server.

(** ** The jobs of the client *)

Module Client.

(** The tree, and the [FileHandle]s of open files, with the [RemoteFileHandle] of each. *)
Record Client (P J : Type) := mkClient {
  cl_tree : FileTree P J;
  cl_handles : gmap Z Z;
}.
Arguments mkClient {_ _} _ _.
Arguments cl_tree {_ _} _.
Arguments cl_handles {_ _} _.

(** *** Jobs

    The jobs that the callbacks schedule; the forgets of a [RequestForgetMultiJob] have been
    translated by its constructor. *)
Inductive request_job :=
  | RequestGetAttrJob (request inode remoteFile : Z)
  | RequestLookupJob (request parent : Z) (name : string)
  | RequestOpenDirJob (request inode fileInfo : Z)
  | RequestOpenJob (request inode fileInfo : Z)
  | RequestReleaseJob (request inode handle : Z)
  | RequestReleaseDirJob (request inode handle : Z)
  | RequestForgetMultiJob (request : Z) (forgets : list (Z * Z))
  | RequestReadDirJob (request inode size off remoteFile : Z)
  | RequestReadDirPlusJob (request inode size off remoteFile : Z).

(** What is told to the kernel: an error, an entry, the attributes, an open file, a
    listing (the names and inodes of its entries), or nothing. *)
Inductive reply :=
  | Reply_err (request error : Z)
  | Reply_entry (request inode : Z) (attr : attributes)
  | Reply_attr (request inode : Z) (attr : attributes)
  | Reply_open (request fileInfo handle : Z)
  | Reply_list (request : Z) (entries : list (string * Z * Z))
  | Reply_data (request : Z) (entries : list (string * Z))
  | Reply_none (request : Z).

(** The jobs that the callbacks schedule. *)
Inductive client_job :=
  | Request_job (job : request_job)
  | ReleaseLeafRef_job (clientInode nlookup : Z).

Section Operations.
Context {P J : Type} `{!IPacket P}.
Implicit Types (t : FileTree P J) (c : Client P J).

Definition with_tree t c : Client P J := mkClient t (cl_handles c).

(** [ToServerInode]. *)
Definition ToServerInode (inode : Z) t : res Z :=
  if inode =? FUSE_ROOT_ID then Ret FUSE_ROOT_ID
  else o ← FileTree.leaf_at inode t; Ret (LeafObject.GetServerInode inode o).

(** [handle->remoteFile]. *)
Definition GetFileHandle (handle : Z) c : res Z :=
  match cl_handles c !! handle with Some remoteFile => Ret remoteFile | None => Err Undefined end.

(** *** [ExecuteMain] of each job: the message it writes *)

Definition RequestGetAttrJob_ExecuteMain (request inode remoteFile : Z) c : res message :=
  i ← ToServerInode inode (cl_tree c); Ret (RequestGetAttr request inode i remoteFile).

Definition RequestLookupJob_ExecuteMain (request parent : Z) (name : string) c : res message :=
  i ← ToServerInode parent (cl_tree c); Ret (RequestLookup request i name).

Definition RequestOpenDirJob_ExecuteMain (request inode fileInfo : Z) c : res message :=
  i ← ToServerInode inode (cl_tree c); Ret (RequestOpenDir request i fileInfo).

Definition RequestOpenJob_ExecuteMain (request inode fileInfo : Z) c : res message :=
  i ← ToServerInode inode (cl_tree c); Ret (RequestOpen request i fileInfo).

Definition RequestReleaseJob_ExecuteMain (request inode handle : Z) c : res message :=
  i ← ToServerInode inode (cl_tree c); remoteFile ← GetFileHandle handle c;
  Ret (RequestRelease request i remoteFile handle).

Definition RequestReleaseDirJob_ExecuteMain (request inode handle : Z) c : res message :=
  i ← ToServerInode inode (cl_tree c); remoteFile ← GetFileHandle handle c;
  Ret (RequestReleaseDir request i remoteFile handle).

Definition RequestForgetMultiJob_ExecuteMain (request : Z) (forgets : list (Z * Z)) : res message :=
  Ret (RequestForgetMulti request forgets).

Definition RequestReadDirJob_ExecuteMain (request inode size off remoteFile : Z) c : res message :=
  i ← ToServerInode inode (cl_tree c); Ret (RequestReadDir request i size off remoteFile).

Definition RequestReadDirPlusJob_ExecuteMain (request inode size off remoteFile : Z) c : res message :=
  i ← ToServerInode inode (cl_tree c); Ret (RequestReadDirPlus request inode i size off remoteFile).

(** The virtual call. *)
Definition ExecuteMain (job : request_job) c : res message :=
  match job with
  | RequestGetAttrJob request inode remoteFile => RequestGetAttrJob_ExecuteMain request inode remoteFile c
  | RequestLookupJob request parent name => RequestLookupJob_ExecuteMain request parent name c
  | RequestOpenDirJob request inode fileInfo => RequestOpenDirJob_ExecuteMain request inode fileInfo c
  | RequestOpenJob request inode fileInfo => RequestOpenJob_ExecuteMain request inode fileInfo c
  | RequestReleaseJob request inode handle => RequestReleaseJob_ExecuteMain request inode handle c
  | RequestReleaseDirJob request inode handle => RequestReleaseDirJob_ExecuteMain request inode handle c
  | RequestForgetMultiJob request forgets => RequestForgetMultiJob_ExecuteMain request forgets
  | RequestReadDirJob request inode size off remoteFile => RequestReadDirJob_ExecuteMain request inode size off remoteFile c
  | RequestReadDirPlusJob request inode size off remoteFile =>
      RequestReadDirPlusJob_ExecuteMain request inode size off remoteFile c
  end.

(** The constructor of [RequestForgetMultiJob]. *)
Fixpoint translate_forgets (forgets : list (Z * Z)) t : res (list (Z * Z)) :=
  match forgets with
  | [] => Ret []
  | (inode, nlookup) :: forgets =>
      i ← ToServerInode inode t; rest ← translate_forgets forgets t; Ret ((i, nlookup) :: rest)
  end.

(** [ReleaseLeafRefJob]. *)
Definition ReleaseLeafRefJob (clientInode nlookup : Z) c : res (Client P J) :=
  '(leaf, _) ← GetLeaf clientInode (cl_tree c);
  t ← FileTree.ReleaseRef nlookup leaf (cl_tree c);
  Ret (with_tree t c).

(** *** Answers *)

Context (alloc : FileTree P J → Z) (new_handle : gmap Z Z → Z).

Definition ResponseLookupInJob (request parentId : Z) (name : string) (answer : Z + Z * attributes) c : res (Client P J * reply) :=
  match answer with
  | inl error => Ret (c, Reply_err request error)
  | inr (inode, attr) =>
      let t := cl_tree c in
      let type := if S_ISDIR (st_mode attr) then ft_directory else ft_regular in
      parentLeaf ← (if parentId =? FUSE_ROOT_ID then Ret (Some (ft_root t)) else FileTree.FindLeafByServerInode parentId t);
      match parentLeaf with
      | None => Ret (c, Reply_err request ENOENT)
      | Some parent =>
          '(t, newLeaf) ← FileTree.AddChild parent name type (st_size attr) (alloc t) t;
          t ← FileTree.SetServerInode newLeaf inode t;
          t ← FileTree.AddRef newLeaf t;
          Ret (with_tree t c, Reply_entry request newLeaf attr)
      end
  end.

Definition ResponseOpenInJob (request : Z) (answer : Z + Z * Z) c : res (Client P J * reply) :=
  match answer with
  | inl error => Ret (c, Reply_err request error)
  | inr (fileInfo, remoteFile) =>
      let handle := new_handle (cl_handles c) in
      Ret (mkClient (cl_tree c) (<[handle := remoteFile]> (cl_handles c)), Reply_open request fileInfo handle)
  end.

(** The same for a directory. *)
Definition ResponseOpenDirInJob (request : Z) (answer : Z + Z * Z) c : res (Client P J * reply) :=
  ResponseOpenInJob request answer c.

Definition ResponseReleaseInJob (request error handle : Z) c : res (Client P J * reply) :=
  if negb (error =? 0) then Ret (c, Reply_err request error)
  else
    defined_if (bool_decide (is_Some (cl_handles c !! handle)));;
    Ret (mkClient (cl_tree c) (delete handle (cl_handles c)), Reply_err request error).

(** The same for a directory. *)
Definition ResponseReleaseDirInJob (request error handle : Z) c : res (Client P J * reply) :=
  ResponseReleaseInJob request error handle c.

Definition ResponseGetAttrInJob (request : Z) (answer : Z + Z * attributes) c : res (Client P J * reply) :=
  match answer with
  | inl error => Ret (c, Reply_err request error)
  | inr (inode, attr) => Ret (c, Reply_attr request inode attr)
  end.

(** [ResolveClientInode]. *)
Definition ResolveClientInode (parentInode parentLeaf : Z) (e : entry) t : res (FileTree P J * Z) :=
  if bool_decide (en_name e = ".") then Ret (t, parentInode)
  else if bool_decide (en_name e = "..") then
    o ← FileTree.leaf_at parentLeaf t;
    Ret (t, match lo_parent o with None => FUSE_ROOT_ID | Some grandparent => grandparent end)
  else
    o ← FileTree.leaf_at parentLeaf t;
    '(t, child) ← match LeafObject.Find (en_name e) o with
      | Some child => Ret (t, child)
      | None =>
          let type := if S_ISDIR (st_mode (en_attr e)) then ft_directory else ft_regular in
          '(t, child) ← FileTree.AddChild parentLeaf (en_name e) type (st_size (en_attr e)) (alloc t) t;
          t ← FileTree.SetServerInode child (en_nodeid e) t;
          Ret (t, child)
      end;
    t ← FileTree.AddRef child t;
    Ret (t, child).

(** [PopulateTreeAndPatchInodes]: the entries with the inodes of the client. *)
Fixpoint PopulateTreeAndPatchInodes (parentInode parentLeaf : Z) (entries : list entry) t :
    res (FileTree P J * list (string * Z)) :=
  match entries with
  | [] => Ret (t, [])
  | e :: entries =>
      '(t, localIno) ← ResolveClientInode parentInode parentLeaf e t;
      '(t, rest) ← PopulateTreeAndPatchInodes parentInode parentLeaf entries t;
      Ret (t, (en_name e, localIno) :: rest)
  end.

Definition ResponseReadDirPlusInJob (request clientInode : Z) (entries : list entry) c : res (Client P J * reply) :=
  '(parentLeaf, _) ← GetLeaf clientInode (cl_tree c);
  '(t, patched) ← PopulateTreeAndPatchInodes clientInode parentLeaf entries (cl_tree c);
  Ret (with_tree t c, Reply_data request patched).

(** [NotifyInvalEntryJob]; the dentry that the kernel is told to drop. *)
Definition NotifyInvalEntryJob (eventType parentServerInode : Z) (name : string) (serverInode size isDir : Z) c :
    res (Client P J * option (Z * string)) :=
  let t := cl_tree c in
  parentLeaf ← FileTree.FindLeafByServerInode parentServerInode t;
  match parentLeaf with
  | None => Ret (c, None)
  | Some parent =>
      if (eventType =? 1) || (eventType =? 4) then
        let fileType := if negb (isDir =? 0) then ft_directory else ft_regular in
        '(t, newLeaf) ← FileTree.AddChild parent name fileType size (alloc t) t;
        t ← FileTree.SetServerInode newLeaf serverInode t;
        Ret (with_tree t c, Some (parent, name))
      else if (eventType =? 2) || (eventType =? 3) then
        t ← FileTree.RemoveChild parent name t;
        Ret (with_tree t c, Some (parent, name))
      else Ret (c, None)
  end.

(** [NotifyInvalInodeJob]: the leaf for which it schedules an [InvalidateCacheLeafJob],
    which holds it. *)
Definition NotifyInvalInodeJob (serverInode : Z) c : res (Client P J * option Z) :=
  leaf ← FileTree.FindLeafByServerInode serverInode (cl_tree c);
  match leaf with
  | None => Ret (c, None)
  | Some leaf => Ret (with_tree (FileTree.hold leaf (cl_tree c)) c, Some leaf)
  end.

(** The job of an answer; notifications are not replied to.  (The time of the root is not
    what was written, see [root_attributes_misread].) *)
Definition React (a : answer) c : res (Client P J * option reply) :=
  match a with
  | Plain (ResponseLookup request parentId name answer) =>
      '(c, r) ← ResponseLookupInJob request parentId name answer c; Ret (c, Some r)
  | Plain (ResponseGetAttr request answer) => '(c, r) ← ResponseGetAttrInJob request answer c; Ret (c, Some r)
  | Plain (ResponseGetAttrRoot request clientInode) =>
      Ret (c, Some (Reply_attr request clientInode (mkAttributes S_IFDIR_0755 2 0 0 0 0)))
  | Plain (ResponseOpenDir request answer) => '(c, r) ← ResponseOpenDirInJob request answer c; Ret (c, Some r)
  | Plain (ResponseOpen request answer) => '(c, r) ← ResponseOpenInJob request answer c; Ret (c, Some r)
  | Plain (ResponseRelease request error handle) => '(c, r) ← ResponseReleaseInJob request error handle c; Ret (c, Some r)
  | Plain (ResponseReleaseDir request error handle) =>
      '(c, r) ← ResponseReleaseDirInJob request error handle c; Ret (c, Some r)
  | Plain (ResponseReleaseDirFailed request error) =>
      if negb (error =? 0) then Ret (c, Some (Reply_err request error))
      else Err Undefined (* deletes a handle that was not written *)
  | Plain (ResponseForgetMulti request) => Ret (c, Some (Reply_none request))
  | Plain (NotifyInvalEntry eventType parentServerInode name serverInode size isDir) =>
      '(c, _) ← NotifyInvalEntryJob eventType parentServerInode name serverInode size isDir c; Ret (c, None)
  | Plain (NotifyInvalInode serverInode) => '(c, _) ← NotifyInvalInodeJob serverInode c; Ret (c, None)
  | Listing request entries => Ret (c, Some (Reply_list request entries))
  | Entries request clientInode entries => '(c, r) ← ResponseReadDirPlusInJob request clientInode entries c; Ret (c, Some r)
  | Plain _ => Err (Throws "no answer about names")
  end.

(** *** The callbacks of [RemoteFileSystem]

    The jobs that each one schedules, in their order.  [FuseForgetmulti] translates the
    inodes after it has scheduled the jobs that release the leaves. *)
Definition FuseForget (request inode nlookup : Z) c : res (list client_job) :=
  forgets ← translate_forgets [(inode, nlookup)] (cl_tree c);
  Ret [Request_job (RequestForgetMultiJob request forgets); ReleaseLeafRef_job inode nlookup].

Definition FuseForgetmulti (request : Z) (forgets : list (Z * Z)) c : res (list client_job) :=
  translated ← translate_forgets forgets (cl_tree c);
  Ret (((λ f, ReleaseLeafRef_job f.1 f.2) <$> forgets) ++ [Request_job (RequestForgetMultiJob request translated)]).

Definition FuseGetattr (request inode : Z) (handle : option Z) c : res (list client_job) :=
  remoteFile ← match handle with Some handle => GetFileHandle handle c | None => Ret 0 end;
  Ret [Request_job (RequestGetAttrJob request inode remoteFile)].
Definition FuseLookup (request parentId : Z) (name : string) : list client_job :=
  [Request_job (RequestLookupJob request parentId name)].
Definition FuseOpendir (request inode fileInfo : Z) : list client_job :=
  [Request_job (RequestOpenDirJob request inode fileInfo)].
Definition FuseOpen (request inode fileInfo : Z) : list client_job :=
  [Request_job (RequestOpenJob request inode fileInfo)].
Definition FuseRelease (request inode handle : Z) : list client_job :=
  [Request_job (RequestReleaseJob request inode handle)].
Definition FuseReleaseDir (request inode handle : Z) : list client_job :=
  [Request_job (RequestReleaseDirJob request inode handle)].
Definition FuseReadDir (request inode size offset handle : Z) c : res (list client_job) :=
  remoteFile ← GetFileHandle handle c; Ret [Request_job (RequestReadDirJob request inode size offset remoteFile)].
Definition FuseReadDirPlus (request inode size offset handle : Z) c : res (list client_job) :=
  remoteFile ← GetFileHandle handle c; Ret [Request_job (RequestReadDirPlusJob request inode size offset remoteFile)].

End Operations.
End Client.
