(* ===== verification/References.v ===== *)
(** * References: what the operations of a tree keep

    How the references that leaves count follow the references that there are, and what
    each operation of [FileTree] leaves of the leaves that somebody refers to: the lemmas
    that [NameService] needs of both trees. *)
From S2P Require Import Prelude Addr Packet Leaf FileTree.
Local Open Scope Z_scope.

(** ** Counting *)

Definition count (a : Z) (l : list Z) : Z := Z.of_nat (length (filter (a =.) l)).

Lemma occurrences_app a l1 l2 : count a (l1 ++ l2) = count a l1 + count a l2.
Proof. unfold count. rewrite filter_app, length_app. lia. Qed.

Lemma occurrences_cons a b l : count a (b :: l) = (if decide (a = b) then 1 else 0) + count a l.
Proof. unfold count. rewrite filter_cons. case_decide; cbn [length]; lia. Qed.

Lemma count_nil a : count a [] = 0.
Proof. done. Qed.

Lemma count_nonneg a l : 0 ≤ count a l.
Proof. unfold count. lia. Qed.

#[export] Instance count_perm a : Proper ((≡ₚ) ==> (=)) (count a).
Proof. intros l1 l2 H. unfold count. by rewrite H. Qed.

Lemma count_elem a l : a ∈ l ↔ 0 < count a l.
Proof.
  induction l as [|b l IH].
  - rewrite count_nil. split; [by intros ?%elem_of_nil|lia].
  - rewrite elem_of_cons, IH, occurrences_cons. pose proof (count_nonneg a l). case_decide; [|naive_solver lia].
    split; [lia|by left].
Qed.

Lemma count_replicate a n b : count a (replicate n b) = if decide (a = b) then Z.of_nat n else 0.
Proof. induction n as [|n IH]; [by case_decide|]. cbn [replicate]. rewrite occurrences_cons, IH. case_decide; lia. Qed.

Section Trees.
Context {P J : Type} `{!IPacket P}.
Implicit Types (t : FileTree P J) (o : LeafObject P J) (m : gmap Z (LeafObject P J)).

(** The references that the leaves count are those of [l]. *)
Definition Counted m (l : list Z) : Prop :=
  (∀ a o, m !! a = Some o → lo_nlookup o = count a l) ∧ ∀ a, a ∈ l → is_Some (m !! a).

Lemma Counted_perm m l l' : l ≡ₚ l' → Counted m l → Counted m l'.
Proof.
  intros Hp [H1 H2]. split; [intros a o Ha; rewrite <- Hp; by apply H1|]. intros a Ha. apply H2. by rewrite Hp.
Qed.

#[export] Instance Counted_proper m : Proper ((≡ₚ) ==> iff) (Counted m).
Proof. intros l l' Hp. split; apply Counted_perm; [done|by symmetry]. Qed.

(** Leaves without references may come and go. *)
Lemma Counted_same m m' l :
  (∀ a o', m' !! a = Some o' → (∃ o, m !! a = Some o ∧ lo_nlookup o' = lo_nlookup o) ∨ (m !! a = None ∧ lo_nlookup o' = 0)) →
  (∀ a o, m !! a = Some o → 0 < lo_nlookup o → is_Some (m' !! a)) → Counted m l → Counted m' l.
Proof.
  intros Hm Hk [H1 H2]. split.
  - intros a o' Ha. destruct (Hm a o' Ha) as [(o & Ho & ->)|[Hn ->]]; [by apply H1|].
    destruct (decide (a ∈ l)) as [Hin|Hin]; [by destruct (H2 a Hin); simplify_eq|].
    rewrite count_elem in Hin. pose proof (count_nonneg a l). lia.
  - intros a Ha. destruct (H2 a Ha) as [o Ho]. apply (Hk a o Ho). rewrite (H1 a o Ho). by apply count_elem.
Qed.

Lemma Counted_add m l a o n b :
  m !! a = Some o → 0 ≤ n → Counted m l →
  Counted (<[a := LeafObject.with_refs (lo_nlookup o + n) b o]> m) (replicate (Z.to_nat n) a ++ l).
Proof.
  intros Ha Hn [H1 H2]. split.
  - intros c oc [[<- <-]|[Hne Hc]]%lookup_insert_Some; rewrite occurrences_app, count_replicate; cbn.
    + rewrite decide_True, (H1 _ _ Ha) by done. lia.
    + rewrite decide_False, (H1 _ _ Hc) by done. lia.
  - intros c Hc. destruct (decide (c = a)) as [->|Hne]; [rewrite lookup_insert_eq; by eexists|].
    rewrite lookup_insert_ne by done. apply H2. apply elem_of_app in Hc as [Hc|Hc]; [|done].
    by apply elem_of_replicate in Hc as [? _].
Qed.

Lemma Counted_drop m l a o n b :
  m !! a = Some o → 0 ≤ n → Counted m (replicate (Z.to_nat n) a ++ l) →
  Counted (<[a := LeafObject.with_refs (lo_nlookup o - n) b o]> m) l.
Proof.
  intros Ha Hn [H1 H2]. split.
  - intros c oc [[<- <-]|[Hne Hc]]%lookup_insert_Some; cbn.
    + rewrite (H1 _ _ Ha), occurrences_app, count_replicate, decide_True by done. lia.
    + rewrite (H1 _ _ Hc), occurrences_app, count_replicate, decide_False by done. lia.
  - intros c Hc. destruct (decide (c = a)) as [->|Hne]; [rewrite lookup_insert_eq; by eexists|].
    rewrite lookup_insert_ne by done. apply H2, elem_of_app. by right.
Qed.

(** ** What the operations of the tree change *)

(** What a leaf is, apart from its references and children. *)
Definition like o o' : Prop :=
  lo_serial o' = lo_serial o ∧ lo_name o' = lo_name o ∧ lo_parent o' = lo_parent o ∧
  lo_serverInode o' = lo_serverInode o.

#[export] Instance like_equivalence : Equivalence like.
Proof.
  split; unfold like; [by intros ?|by intros o1 o2 (->&->&->&->)|].
  intros o1 o2 o3 (?&?&?&?) (?&?&?&?). split_and!; congruence.
Qed.

(** A leaf of [t'] is one of [t], with the same references and no children it did not
    have; those with references are all still there. *)
Record keeps t t' : Prop := {
  keeps_leaf : ∀ a o', ft_leaves t' !! a = Some o' → ∃ o, ft_leaves t !! a = Some o ∧
    lo_nlookup o' = lo_nlookup o ∧ like o o' ∧ lo_children o' `sublist_of` lo_children o;
  keeps_referred : ∀ a o, ft_leaves t !! a = Some o → 0 < lo_nlookup o → is_Some (ft_leaves t' !! a);
  keeps_the_root : ft_root t' = ft_root t;
}.

#[export] Instance keeps_preorder : PreOrder keeps.
Proof.
  split.
  - intros t. split; [|by eauto|done]. intros a o Ha. exists o. naive_solver.
  - intros t1 t2 t3 [A1 A2 A3] [B1 B2 B3]. split; [| |congruence].
    + intros a o3 L3. destruct (B1 a o3 L3) as (o2 & L2 & -> & K2 & S2).
      destruct (A1 a o2 L2) as (o1 & L1 & -> & K1 & S1). exists o1. split_and!; [done|done|by etrans..].
    + intros a o1 L1 Hn. destruct (A2 a o1 L1 Hn) as [o2 L2]. apply (B2 a o2 L2).
      destruct (A1 a o2 L2) as (o & Ho & -> & _). by simplify_eq.
Qed.

Lemma keeps_Counted t t' l : keeps t t' → Counted (ft_leaves t) l → Counted (ft_leaves t') l.
Proof.
  intros [K1 K2 _]. apply Counted_same; [|exact K2]. intros a o' Ha. destruct (K1 a o' Ha) as (o & ? & ? & _).
  left. by exists o.
Qed.

(** The leaf of an address that has references stays what it is. *)
Lemma keeps_lookup t t' a o : keeps t t' → ft_leaves t !! a = Some o → 0 < lo_nlookup o →
  ∃ o', ft_leaves t' !! a = Some o' ∧ like o o' ∧ lo_nlookup o' = lo_nlookup o.
Proof.
  intros [K1 K2 _] Ha Hn. destruct (K2 a o Ha Hn) as [o' Ho']. exists o'.
  destruct (K1 a o' Ho') as (o1 & ? & ? & ? & _). by simplify_eq.
Qed.

Lemma shrunk_keeps t t' : TreeOk t → shrunk t t' → keeps t t'.
Proof.
  intros Hok (S1 & S2 & _ & _ & _ & S6 & _). split; [| |done].
  - intros a o Ha. exists o. split; [by apply S1|done].
  - intros a o Ha Hn. exists o. apply S2; [done|]. left. by apply (ok_refs _ Hok _ _ Ha).
Qed.

Lemma erase_sublist {A} k (m : list (string * A)) : StringMap.erase k m `sublist_of` m.
Proof.
  induction m as [|[k' a] m IH]; [done|]. cbn. case_bool_decide; [by apply sublist_cons|by apply sublist_skip].
Qed.

Lemma find_none {A} k (m : list (string * A)) a : StringMap.find k m = None → (k, a) ∉ m.
Proof.
  induction m as [|[k' b] m IH]; cbn; [intros _; apply not_elem_of_nil|].
  case_bool_decide; [done|]. intros Hm [[= <- _]|Hin]%elem_of_cons; [done|]. by apply IH.
Qed.

Lemma RemoveChild_keeps parent name o t :
  InOrder t → ft_leaves t !! parent = Some o →
  ∃ t', FileTree.RemoveChild parent name t = Ret t' ∧ InOrder t' ∧ keeps t t'.
Proof.
  intros [Hok Hl] Ho.
  destruct (RemoveChild_ok parent name o t Hok Hl Ho) as (t' & E & Hok' & Hl' & Hroot & Hpar & Hkeep & Hold & Hpar' & _).
  exists t'. split; [done|]. split; [done|]. split; [| |done].
  - intros a o' Ha. destruct (decide (a = parent)) as [->|Hne].
    + rewrite (Hpar' _ Ha). exists o. split_and!; [done..|]. apply erase_sublist.
    + exists o'. split; [by apply Hold|done].
  - intros a oa Ha Hn. assert (Hp : lo_selfPin oa = true) by by apply (ok_refs _ Hok _ _ Ha).
    destruct (decide (a = parent)) as [->|Hne]; [simplify_eq; by apply Hpar|]. exists oa. apply Hkeep; auto.
Qed.

Lemma unhold_keeps a t : InOrder t → ∃ t', FileTree.unhold a t = Ret t' ∧ InOrder t' ∧ keeps t t'.
Proof.
  intros [Hok Hl]. destruct (unhold_ok a t Hok Hl) as (t' & E & Hok' & Hl' & S1 & S2 & _ & _ & _ & S6 & _).
  exists t'. split; [done|]. split; [done|]. split; [| |done].
  - intros b o Hb. exists o. split; [by apply S1|done].
  - intros b o Hb Hn. exists o. apply S2; [done|]. left. by apply (ok_refs _ Hok _ _ Hb).
Qed.

(** A step that changes the leaves in nothing. *)
Lemma same_leaves_keeps t t' : ft_leaves t' = ft_leaves t → ft_root t' = ft_root t → keeps t t'.
Proof. intros E R. split; [|by rewrite E; eauto|done]. rewrite E. intros a o Ha. by exists o. Qed.

(** [AddChild]: the name is there, or the new leaf is. *)
Definition new_leaf (serial : nat) (name : string) (type : file_type) (sz : Z) (parent : Z) : LeafObject P J :=
  LeafObject.SetTree true (LeafObject.make serial name type sz (Some parent)).

Lemma AddChild_cases parent name type sz a o t :
  InOrder t → ft_leaves t !! parent = Some o → ft_leaves t !! a = None → a ≠ 0 →
  ∃ t' c, FileTree.AddChild parent name type sz a t = Ret (t', c) ∧ InOrder t' ∧ ft_root t' = ft_root t ∧
    ((LeafObject.Find name o = Some c ∧ ft_leaves t' = ft_leaves t) ∨
     (LeafObject.Find name o = None ∧ c = a ∧
      ft_leaves t' = <[parent := LeafObject.with_children (StringMap.insert name a (lo_children o)) o]>
        (<[a := new_leaf (ft_serial t) name type sz parent]> (ft_leaves t)))).
Proof.
  intros [Hok Hl] Ho Ha Ha0. destruct (AddChild_ok parent name type sz a o t Hok Hl Ho Ha Ha0) as (t' & c & E & Hok' & Hl' & _).
  exists t', c. split; [done|]. split; [done|]. unfold FileTree.AddChild, FileTree.leaf_at in E. rewrite Ho in E.
  cbn [mbind res_bind] in E. unfold LeafObject.Find. destruct (ok_tree _ Hok _ _ Ho) as [Ht _].
  destruct (StringMap.find name (lo_children o)) as [c'|] eqn:Ef.
  - apply (inj Ret) in E. injection E as <- <-. split; [done|by left].
  - rewrite Ht in E. apply (inj Ret) in E. injection E as <- <-. unfold FileTree.RegisterLeaf.
    cbn [ft_leaves FileTree.with_serial FileTree.set_leaf FileTree.with_leaves].
    rewrite lookup_insert_ne by congruence. rewrite lookup_insert_eq. split; [done|]. right. by repeat split.
Qed.

Lemma AddRef_cases a o t :
  InOrder t → ft_leaves t !! a = Some o → lo_nlookup o < 2 ^ 64 - 1 →
  ∃ t', FileTree.AddRef a t = Ret t' ∧ InOrder t' ∧ ft_root t' = ft_root t ∧
    ft_leaves t' = <[a := LeafObject.with_refs (lo_nlookup o + 1) true o]> (ft_leaves t).
Proof.
  intros [Hok Hl] Ha Hn. destruct (AddRef_ok a o t Hok Hl Ha Hn) as (t' & E & Hok' & Hl' & ->).
  exists (FileTree.set_leaf a (LeafObject.with_refs (lo_nlookup o + 1) true o) t).
  split; [exact E|]. split; [by split|by split].
Qed.

(** [ReleaseRef]: the references go, and with them perhaps the leaf and others. *)
Lemma ReleaseRef_cases n a o t :
  InOrder t → ft_leaves t !! a = Some o → 0 < n ≤ lo_nlookup o →
  let t1 := FileTree.set_leaf a (LeafObject.with_refs (lo_nlookup o - n) (bool_decide (n < lo_nlookup o)) o) t in
  ∃ t', FileTree.ReleaseRef n a t = Ret t' ∧ InOrder t' ∧ keeps t1 t'.
Proof.
  intros [Hok Hl] Ha Hn t1. destruct (ReleaseRef_ok n a o t Hok Hl Ha Hn) as (t' & E & Hok' & Hl' & Hs & _).
  exists t'. split; [done|]. split; [done|]. destruct Hs as (S1 & S2 & _ & _ & _ & S6 & _). split; [| |done].
  - intros b ob Hb. exists ob. split; [by apply S1|done].
  - intros b ob Hb Hn'. exists ob. apply S2; [done|]. left. cbn in Hb.
    apply lookup_insert_Some in Hb as [[<- <-]|[_ Hb]]; [cbn in *; apply bool_decide_eq_true; lia|].
    by apply (ok_refs _ Hok _ _ Hb).
Qed.

Lemma SetServerInode_cases a o inode t :
  InOrder t → ft_leaves t !! a = Some o →
  ∃ t', FileTree.SetServerInode a inode t = Ret t' ∧ InOrder t' ∧ ft_root t' = ft_root t ∧
    ft_leaves t' = <[a := LeafObject.with_inode inode o]> (ft_leaves t).
Proof.
  intros [Hok Hl] Ha. destruct (SetServerInode_ok a o inode t Hok Hl Ha) as (t' & E & Hok' & Hl' & _).
  exists t'. split; [done|]. split; [done|]. unfold FileTree.SetServerInode, FileTree.leaf_at in E. rewrite Ha in E.
  cbn [mbind res_bind] in E. destruct (ok_tree _ Hok _ _ Ha) as [Ht _]. rewrite Ht in E.
  apply (inj Ret) in E as <-. unfold FileTree.RegisterLeaf. cbn. by rewrite lookup_insert_eq.
Qed.

(** What an index entry leads to. *)
Lemma FindLeafByServerInode_cases inode t :
  InOrder t → ∃ r, FileTree.FindLeafByServerInode inode t = Ret r ∧
    ∀ a, r = Some a → ∃ o, ft_leaves t !! a = Some o ∧ LeafObject.GetServerInode a o = inode.
Proof.
  intros [Hok _]. destruct (ok_root _ Hok) as [oroot Hroot].
  unfold FileTree.FindLeafByServerInode, FileTree.leaf_at. rewrite Hroot. cbn [mbind res_bind].
  case_match eqn:E; eexists; (split; [done|]).
  - intros a [= <-]. apply Z.eqb_eq in E. eauto.
  - intros a Ha. apply bind_Some in Ha as ([b s] & Hi & Hlock). unfold FileTree.lock in Hlock. cbn in Hlock.
    destruct (ft_leaves t !! b) as [o|] eqn:Eb; [|done]. case_bool_decide; [|done]. simplify_eq.
    exists o. split; [done|]. by eapply (ok_index _ Hok).
Qed.

(** ** Paths *)

(** The names from the root to a leaf whose ancestors are all alive. *)
Inductive Path t : Z → list string → Prop :=
  | Path_root o : ft_leaves t !! ft_root t = Some o → lo_parent o = None → Path t (ft_root t) [lo_name o]
  | Path_child a o b ob p : ft_leaves t !! a = Some o → lo_parent o = Some b →
      ft_leaves t !! b = Some ob → (lo_serial ob < lo_serial o)%nat → Path t b p → Path t a (p ++ [lo_name o]).

(** The leaves on a path are all different. *)
Lemma Path_chain t a p : Path t a p → ∃ l, length l = length p ∧ NoDup l ∧
  ∀ b, b ∈ l → ∃ o ob, ft_leaves t !! a = Some o ∧ ft_leaves t !! b = Some ob ∧ (lo_serial ob ≤ lo_serial o)%nat.
Proof.
  induction 1 as [o Ho Hp|a o b ob p Ha Hp Hb Hs _ (l & E & Hnd & Hl)].
  - exists [ft_root t]. split; [done|]. split; [apply NoDup_singleton|]. intros b ->%list_elem_of_singleton. eauto.
  - exists (a :: l). split; [cbn; rewrite length_app, E; cbn; lia|]. split.
    + apply NoDup_cons. split; [|done]. intros Hin. destruct (Hl a Hin) as (o1 & o2 & ? & ? & ?). simplify_eq. lia.
    + intros c [->|Hc]%elem_of_cons; [eauto|]. destruct (Hl c Hc) as (o1 & o2 & ? & ? & ?). simplify_eq.
      exists o, o2. split_and!; [done..|lia].
Qed.

Lemma Path_length t a p : Path t a p → (length p ≤ size (ft_leaves t))%nat.
Proof.
  intros H. destruct (Path_chain t a p H) as (l & <- & Hnd & Hl).
  rewrite <- size_dom, <- (size_list_to_set (C := gset Z) l) by done. apply subseteq_size.
  intros b Hb%elem_of_list_to_set. apply elem_of_dom. destruct (Hl b Hb) as (? & ob & _ & ? & _). by eexists.
Qed.

(** [GetFullPath] goes up as often as the path is long. *)
Lemma GetFullPath_fuel t a p : Path t a p → ∀ n, (length p ≤ n)%nat → FileTree.GetFullPath n a t = Ret p.
Proof.
  induction 1 as [o Ho Hp|a o b ob p Ha Hp Hb Hs _ IH]; intros n Hn.
  - destruct n as [|n]; [cbn in Hn; lia|]. cbn [FileTree.GetFullPath]. unfold FileTree.leaf_at. rewrite Ho.
    cbn [mbind res_bind]. by rewrite Hp.
  - rewrite length_app in Hn. cbn in Hn. destruct n as [|n]; [lia|]. cbn [FileTree.GetFullPath].
    unfold FileTree.leaf_at. rewrite Ha. cbn [mbind res_bind]. rewrite Hp, IH by lia. done.
Qed.

Lemma GetFullPath_Path t a p : Path t a p → FileTree.GetFullPath (S (size (ft_leaves t))) a t = Ret p.
Proof. intros H. apply GetFullPath_fuel; [done|]. pose proof (Path_length t a p H). lia. Qed.

(** ** The tree of a server *)

(** A tree whose leaves are at addresses that [real] allows, have no server inode, and
    know their parent and the name they have there. *)
Record ServerTree (real : Z → Prop) t : Prop := {
  st_order : InOrder t;
  st_leaf : ∀ a o, ft_leaves t !! a = Some o → real a ∧ lo_serverInode o = 0;
  st_child : ∀ a o x c oc, ft_leaves t !! a = Some o → (x, c) ∈ lo_children o → ft_leaves t !! c = Some oc →
    lo_parent oc = Some a ∧ lo_name oc = x;
  st_names : ∀ a o, ft_leaves t !! a = Some o → NoDup (lo_children o).*1;
  st_root : ∀ o, ft_leaves t !! ft_root t = Some o → lo_parent o = None;
}.

(** The leaves are some of those there were, with no other children. *)
Definition within t t' : Prop := ∀ a o', ft_leaves t' !! a = Some o' →
  ∃ o, ft_leaves t !! a = Some o ∧ like o o' ∧ lo_children o' `sublist_of` lo_children o.

Lemma keeps_within t t' : keeps t t' → within t t'.
Proof. intros [K _ _] a o' Ha. destruct (K a o' Ha) as (o & ? & _ & ? & ?). by exists o. Qed.

Lemma refs_within t t' a o n b : ft_leaves t !! a = Some o →
  ft_leaves t' = <[a := LeafObject.with_refs n b o]> (ft_leaves t) → within t t'.
Proof.
  intros Ha Hl c oc. rewrite Hl. intros [[<- <-]|[_ Hc]]%lookup_insert_Some; [exists o|exists oc]; by split_and!.
Qed.

#[export] Instance within_preorder : PreOrder within.
Proof.
  split; [intros t a o Ha; exists o; by split_and!|]. intros t1 t2 t3 A B a o3 L3.
  destruct (B a o3 L3) as (o2 & L2 & K2 & S2). destruct (A a o2 L2) as (o1 & L1 & K1 & S1).
  exists o1. split_and!; [done|by etrans..].
Qed.

Lemma ServerTree_within real t t' :
  ServerTree real t → InOrder t' → ft_root t' = ft_root t → within t t' → ServerTree real t'.
Proof.
  intros [S1 S2 S3 S5 S4] Hok Hroot Hw. split; [done|..].
  - intros a o' Ha. destruct (Hw a o' Ha) as (o & Ho & (_ & _ & _ & ->) & _). by apply S2.
  - intros a o' x c oc' Ha Hin Hc. destruct (Hw a o' Ha) as (o & Ho & _ & Hs).
    destruct (Hw c oc' Hc) as (oc & Hoc & (_ & -> & -> & _) & _). eapply S3; [done| |done].
    by eapply elem_of_sublist.
  - intros a o' Ha. destruct (Hw a o' Ha) as (o & Ho & _ & Hs). eapply sublist_NoDup; [by apply (S5 a o)|].
    by apply fmap_sublist.
  - rewrite Hroot. intros o' Ha. destruct (Hw _ o' Ha) as (o & Ho & (_ & _ & -> & _) & _). by apply S4.
Qed.

(** A new leaf under a name that is free. *)
Definition grown parent name a o leaf t t' : Prop :=
  ft_root t' = ft_root t ∧ ft_leaves t !! parent = Some o ∧ ft_leaves t !! a = None ∧
  LeafObject.Find name o = None ∧
  ft_leaves t' = <[parent := LeafObject.with_children (StringMap.insert name a (lo_children o)) o]>
    (<[a := leaf]> (ft_leaves t)).

Lemma insert_elem {A} k (a : A) (m : list (string * A)) x : x ∈ StringMap.insert k a m → x = (k, a) ∨ x ∈ m.
Proof.
  induction m as [|[k' b] m IH]; cbn; [intros ->%list_elem_of_singleton; by left|].
  case_match; rewrite !elem_of_cons; naive_solver.
Qed.

Lemma grown_lookup parent name a o leaf t t' c oc :
  grown parent name a o leaf t t' → ft_leaves t' !! c = Some oc →
  (c = parent ∧ oc = LeafObject.with_children (StringMap.insert name a (lo_children o)) o) ∨
  (c = a ∧ oc = leaf) ∨ (c ≠ parent ∧ c ≠ a ∧ ft_leaves t !! c = Some oc).
Proof.
  intros (_ & _ & _ & _ & ->) [[<- <-]|[? [[<- <-]|[? ?]]%lookup_insert_Some]]%lookup_insert_Some; naive_solver.
Qed.

Lemma grown_old parent name a o leaf t t' c oc :
  grown parent name a o leaf t t' → ft_leaves t !! c = Some oc →
  ∃ oc', ft_leaves t' !! c = Some oc' ∧ like oc oc' ∧ lo_nlookup oc' = lo_nlookup oc.
Proof.
  intros (_ & Hp & Ha & _ & ->) Hc. destruct (decide (c = parent)) as [->|Hne].
  - rewrite lookup_insert_eq. simplify_eq. eexists. by split_and!.
  - rewrite !lookup_insert_ne by congruence. by exists oc.
Qed.

Lemma ServerTree_grown real parent name a o n ty sz t t' :
  ServerTree real t → InOrder t' → real a → grown parent name a o (new_leaf n name ty sz parent) t t' →
  ServerTree real t'.
Proof.
  intros [[Hok ?] S2 S3 S5 S4] Hord Hreal Hg. pose proof Hg as (Hroot & Hp & Ha & Hf & Hl). split; [done|..].
  - intros c oc Hc. destruct (grown_lookup _ _ _ _ _ _ _ _ _ Hg Hc) as [[-> ->]|[[-> ->]|(_ & _ & Hc')]];
      [by apply (S2 parent o)|done|by apply S2].
  - intros b ob x c oc Hb Hin Hc.
    assert (Hold : ∀ ob', ft_leaves t !! b = Some ob' → (x, c) ∈ lo_children ob' → lo_parent oc = Some b ∧ lo_name oc = x).
    { intros ob' Hb' Hin'. destruct (ok_child _ Hok b ob' c Hb') as (oc' & Hc' & _).
      { apply list_elem_of_fmap. by exists (x, c). }
      destruct (grown_old _ _ _ _ _ _ _ _ _ Hg Hc') as (oc2 & Hc2 & (_ & E1 & E2 & _) & _). simplify_eq.
      rewrite E1, E2. by eapply S3. }
    destruct (grown_lookup _ _ _ _ _ _ _ _ _ Hg Hb) as [[-> ->]|[[-> ->]|(_ & _ & Hb')]]; [|by apply not_elem_of_nil in Hin|by eapply Hold].
    cbn in Hin. apply insert_elem in Hin as [[= -> ->]|Hin]; [|by eapply Hold].
    destruct (grown_lookup _ _ _ _ _ _ _ _ _ Hg Hc) as [[-> ->]|[[_ ->]|(_ & ? & _)]]; [congruence|done|done].
  - intros c oc Hc. destruct (grown_lookup _ _ _ _ _ _ _ _ _ Hg Hc) as [[-> ->]|[[-> ->]|(_ & _ & Hc')]];
      [|by apply NoDup_nil|by apply (S5 c)].
    cbn. rewrite (find_insert_perm _ _ _ Hf). cbn. apply NoDup_cons. split; [|by apply (S5 parent)].
    intros ([x c] & -> & Hin)%list_elem_of_fmap. cbn in *. by eapply find_none.
  - rewrite Hroot. intros oc Hc. destruct (grown_lookup _ _ _ _ _ _ _ _ _ Hg Hc) as [[E ->]|[[E ->]|(_ & _ & Hc')]].
    + cbn. apply S4. by rewrite E.
    + destruct (ok_root _ Hok) as [? ?]. congruence.
    + by apply S4.
Qed.

(** What happens to a tree whose references stay: leaves that nobody refers to come and go. *)
Record evolves t t' : Prop := {
  ev_root : ft_root t' = ft_root t;
  ev_counted : ∀ l, Counted (ft_leaves t) l → Counted (ft_leaves t') l;
  ev_kept : ∀ a o, ft_leaves t !! a = Some o → 0 < lo_nlookup o ∨ a = ft_root t →
    ∃ o', ft_leaves t' !! a = Some o' ∧ like o o' ∧ lo_nlookup o' = lo_nlookup o;
}.

#[export] Instance evolves_preorder : PreOrder evolves.
Proof.
  split; [intros t; split; [done|done|]; intros a o ? _; by exists o|].
  intros t1 t2 t3 [A1 A2 A3] [B1 B2 B3]. split; [congruence|auto|]. intros a o1 L1 H1.
  destruct (A3 a o1 L1 H1) as (o2 & L2 & K2 & E2). destruct (B3 a o2 L2) as (o3 & L3 & K3 & E3); [by rewrite E2, A1|].
  exists o3. split_and!; [done|by etrans|congruence].
Qed.

Lemma keeps_evolves t t' : InOrder t' → keeps t t' → evolves t t'.
Proof.
  intros [Hok _] K. pose proof K as [K1 K2 K3]. split; [done|intros l; by apply keeps_Counted|].
  intros a o Ha [Hn|Hr]; [by apply keeps_lookup with t|]. subst a. destruct (ok_root _ Hok) as [o' Ho'].
  rewrite K3 in Ho'. destruct (K1 _ _ Ho') as (o2 & ? & ? & ? & _). simplify_eq. by exists o'.
Qed.

Lemma grown_evolves parent name a o leaf t t' :
  lo_nlookup leaf = 0 → grown parent name a o leaf t t' → evolves t t'.
Proof.
  intros Hleaf Hg. pose proof Hg as (Hroot & Hp & Ha & _). split; [done| |].
  - intros l. apply Counted_same.
    + intros c oc Hc. destruct (grown_lookup _ _ _ _ _ _ _ _ _ Hg Hc) as [[-> ->]|[[-> ->]|(_ & _ & Hc')]].
      * left. by exists o.
      * by right.
      * left. by exists oc.
    + intros c oc Hc _. by destruct (grown_old _ _ _ _ _ _ _ _ _ Hg Hc) as (oc' & ? & _).
  - intros c oc Hc _. by eapply grown_old.
Qed.

(** A kind of tree: it is in order, and stays of its kind when leaves go. *)
Class TreeSpec (ok : FileTree P J → Prop) : Prop := {
  spec_order : ∀ t, ok t → InOrder t;
  spec_within : ∀ t t', ok t → InOrder t' → ft_root t' = ft_root t → within t t' → ok t';
}.

#[export] Instance ServerTree_spec real : TreeSpec (ServerTree real).
Proof. split; [by intros t []|by apply ServerTree_within]. Qed.

(** What a request does to a tree whose references are [gone ++ l], for any [l]: then they
    are [new ++ l], and the leaves of [l] are what they were. *)
Record serves (ok : FileTree P J → Prop) (new gone : list Z) t t' : Prop := {
  se_tree : ok t';
  se_root : ft_root t' = ft_root t;
  se_counted : ∀ l, Counted (ft_leaves t) (gone ++ l) → Counted (ft_leaves t') (new ++ l);
  se_kept : ∀ l a o, Counted (ft_leaves t) (gone ++ l) → ft_leaves t !! a = Some o → a ∈ l ∨ a = ft_root t →
    ∃ o', ft_leaves t' !! a = Some o' ∧ like o o';
}.

Lemma serves_refl ok t : ok t → serves ok [] [] t t.
Proof. intros H. split; [done..|]. intros l a o _ Ha _. by exists o. Qed.

Lemma serves_more ok new new' gone t1 t2 t3 :
  serves ok new gone t1 t2 → serves ok new' [] t2 t3 → serves ok (new' ++ new) gone t1 t3.
Proof.
  intros [A1 A2 A3 A4] [B1 B2 B3 B4]. split; [done|congruence|..].
  - intros l Hl. rewrite <- app_assoc. by apply B3, A3.
  - intros l a o Hl Ha Hin. destruct (A4 l a o Hl Ha Hin) as (o2 & Ho2 & K).
    destruct (B4 (new ++ l) a o2) as (o3 & ? & ?); [by apply A3|done| |exists o3; split; [done|by etrans]].
    rewrite elem_of_app, A2. tauto.
Qed.

Lemma serves_less ok gone gone' t1 t2 t3 :
  serves ok [] gone t1 t2 → serves ok [] gone' t2 t3 → serves ok [] (gone ++ gone') t1 t3.
Proof.
  intros [A1 A2 A3 A4] [B1 B2 B3 B4]. split; [done|congruence|..].
  - intros l Hl. rewrite <- app_assoc in Hl. by apply B3, A3.
  - intros l a o Hl Ha Hin. rewrite <- app_assoc in Hl. destruct (A4 (gone' ++ l) a o Hl Ha) as (o2 & Ho2 & K).
    { rewrite elem_of_app. tauto. }
    destruct (B4 l a o2) as (o3 & ? & ?); [by apply A3|done|by rewrite A2|exists o3; split; [done|by etrans]].
Qed.

Lemma Counted_referred m l a o : Counted m l → m !! a = Some o → a ∈ l → 0 < lo_nlookup o.
Proof. intros [H _] Ha Hin. rewrite (H a o Ha). by apply count_elem. Qed.

Lemma evolves_serves (ok : FileTree P J → Prop) t t' : ok t' → evolves t t' → serves ok [] [] t t'.
Proof.
  intros Hs [E1 E2 E3]. split; [done..|]. intros l a o Hl Ha Hin.
  destruct (E3 a o Ha) as (o' & ? & ? & _); [|by exists o'].
  destruct Hin; [left; by eapply Counted_referred|by right].
Qed.

Lemma keeps_serves ok `{!TreeSpec ok} t t' : ok t → InOrder t' → keeps t t' → serves ok [] [] t t'.
Proof.
  intros Hs Hok K. apply evolves_serves; [|by apply keeps_evolves].
  eapply spec_within; [done|done|apply K|by apply keeps_within].
Qed.

(** No leaf goes, or gets or loses a reference. *)
Definition extends t t' : Prop := ft_root t' = ft_root t ∧
  ∀ a o, ft_leaves t !! a = Some o → ∃ o', ft_leaves t' !! a = Some o' ∧ like o o' ∧ lo_nlookup o' = lo_nlookup o.

#[export] Instance extends_preorder : PreOrder extends.
Proof.
  split; [intros t; split; [done|]; intros a o ?; by exists o|].
  intros t1 t2 t3 [A1 A2] [B1 B2]. split; [congruence|]. intros a o1 L1.
  destruct (A2 a o1 L1) as (o2 & L2 & K2 & E2). destruct (B2 a o2 L2) as (o3 & L3 & K3 & E3).
  exists o3. split_and!; [done|by etrans|congruence].
Qed.

(** [AddChild] at a leaf, where memory is given to the new leaf at a [real] address. *)
Lemma AddChild_serves real parent name type sz a o t :
  ServerTree real t → ft_leaves t !! parent = Some o → ft_leaves t !! a = None → real a → a ≠ 0 →
  ∃ t' c o', FileTree.AddChild parent name type sz a t = Ret (t', c) ∧ serves (ServerTree real) [] [] t t' ∧ evolves t t' ∧
    extends t t' ∧ ft_leaves t' !! parent = Some o' ∧ (name, c) ∈ lo_children o'.
Proof.
  intros Hs Ho Ha Hr Ha0. destruct (AddChild_cases parent name type sz a o t) as (t' & c & E & Hok & Hroot & Hc); [by apply Hs|done..|].
  assert (He : (evolves t t' ∧ extends t t') ∧ ServerTree real t').
  { destruct Hc as [[Hf Hl]|(Hf & -> & Hl)].
    - assert (K : keeps t t') by by apply same_leaves_keeps.
      split; [split; [by apply keeps_evolves|split; [done|]; rewrite Hl; intros b ob Hb; by exists ob]|].
      eapply ServerTree_within; [done|done|apply K|by apply keeps_within].
    - assert (Hg : grown parent name a o (new_leaf (ft_serial t) name type sz parent) t t') by done.
      split; [|by eapply ServerTree_grown].
      split; [by eapply grown_evolves, Hg|split; [done|]; intros b ob Hb; by eapply grown_old]. }
  exists t', c. destruct Hc as [[Hf Hl]|(Hf & -> & Hl)]; eexists; (split; [exact E|]); split_and!;
    try apply evolves_serves; try apply He; rewrite ?Hl, ?lookup_insert_eq; try done.
  - by apply find_elem.
  - cbn. rewrite (find_insert_perm _ _ _ Hf). by left.
Qed.

Lemma AddRef_serves ok `{!TreeSpec ok} a o t :
  ok t → ft_leaves t !! a = Some o → lo_nlookup o < 2 ^ 64 - 1 →
  ∃ t', FileTree.AddRef a t = Ret t' ∧ serves ok [a] [] t t' ∧
    ft_leaves t' = <[a := LeafObject.with_refs (lo_nlookup o + 1) true o]> (ft_leaves t).
Proof.
  intros Hs Ha Hn. destruct (AddRef_cases a o t) as (t' & E & Hok & Hroot & Hl); [by eapply spec_order|done..|].
  assert (Hw : ∀ c oc, ft_leaves t !! c = Some oc → ∃ oc', ft_leaves t' !! c = Some oc' ∧ like oc oc').
  { intros c oc Hc. rewrite Hl. destruct (decide (c = a)) as [->|Hne]; [|rewrite lookup_insert_ne by done; by exists oc].
    rewrite lookup_insert_eq. simplify_eq. by eexists. }
  exists t'. split; [done|]. split; [|done]. split; [|done|..].
  - eapply spec_within; [done..|]. by eapply refs_within.
  - intros l Hc. rewrite Hl. by apply (Counted_add _ l a o 1 true).
  - intros l c oc _ Hc _. by apply Hw.
Qed.

(** References that are counted can be released. *)
Lemma ReleaseRef_serves ok `{!TreeSpec ok} n a l t :
  ok t → 0 < n → Counted (ft_leaves t) (replicate (Z.to_nat n) a ++ l) →
  ∃ t', FileTree.ReleaseRef n a t = Ret t' ∧ serves ok [] (replicate (Z.to_nat n) a) t t' ∧ within t t'.
Proof.
  intros Hs Hn Hc. destruct Hc as [Hc1 Hc2]. destruct (Hc2 a) as [o Ho].
  { rewrite elem_of_app, elem_of_replicate. left. split; [done|lia]. }
  pose proof (Hc1 a o Ho) as Hcount. rewrite occurrences_app, count_replicate, decide_True in Hcount by done.
  pose proof (count_nonneg a l).
  destruct (ReleaseRef_cases n a o t) as (t' & E & Hok & K); [by eapply spec_order|done|lia|].
  exists t'. split; [done|].
  pose proof (refs_within t (FileTree.set_leaf a (LeafObject.with_refs (lo_nlookup o - n) (bool_decide (n < lo_nlookup o)) o) t) _ _ _ _ Ho eq_refl) as Hw.
  apply keeps_within in K as Kw. assert (within t t') by by etrans.
  split; [|done]. split; [|apply K|..].
  - eapply spec_within; [done|done|apply K|done].
  - intros l' Hl'. cbn. eapply keeps_Counted; [exact K|]. cbn. apply Counted_drop; [done|lia|done].
  - intros l' b ob Hl' Hb Hin.
    assert (Hb' : ∃ ob', ft_leaves (FileTree.set_leaf a (LeafObject.with_refs (lo_nlookup o - n) (bool_decide (n < lo_nlookup o)) o) t) !! b = Some ob' ∧ like ob ob').
    { cbn. destruct (decide (b = a)) as [->|Hne]; [|rewrite lookup_insert_ne by done; by exists ob].
      rewrite lookup_insert_eq. simplify_eq. by eexists. }
    destruct Hb' as (ob' & Hb' & L). destruct (ev_kept _ _ (keeps_evolves _ _ Hok K) b ob' Hb') as (ob2 & ? & ? & _).
    + destruct Hin as [Hin| ->]; [left|by right]. eapply Counted_referred; [|exact Hb'|exact Hin].
      cbn. apply Counted_drop; [done|lia|done].
    + exists ob2. split; [done|by etrans].
Qed.

Lemma RemoveChild_serves ok `{!TreeSpec ok} parent name o t :
  ok t → ft_leaves t !! parent = Some o →
  ∃ t', FileTree.RemoveChild parent name t = Ret t' ∧ serves ok [] [] t t' ∧ within t t'.
Proof.
  intros Hs Ho. destruct (RemoveChild_keeps parent name o t) as (t' & E & Hok & K); [by eapply spec_order|done|].
  exists t'. split; [done|]. split; [by apply keeps_serves|by apply keeps_within].
Qed.

End Trees.
