(* ===== verification/NameServer.v ===== *)
(** * NameServer: what the jobs of the server do to its tree
    The jobs [Names.Server] on a tree in order: they return, and the references that they
    add and take away are those that their answers and requests carry. *)
From S2P Require Import Prelude Addr Packet Leaf FileTree Messages Names References.
Import Server.
Local Open Scope Z_scope.

(** What the kernel forgets: every inode as often as it is given. *)
Definition expand (forgets : list (Z * Z)) : list Z := forgets ≫= λ f, replicate (Z.to_nat f.2) f.1.

Section Jobs.
Context {P J : Type} `{!IPacket P}.
Context (real : Z → Prop) (os : OS) (alloc : FileTree P J → Z) (new_file : gmap Z Z → Z).
Implicit Types (t : FileTree P J) (o : LeafObject P J) (s : Server P J).

(** Memory is given to a leaf where no leaf is. *)
Definition AllocOk : Prop := ∀ t, ft_leaves t !! alloc t = None ∧ real (alloc t) ∧ alloc t ≠ 0.
(** What the manual says of [open] and [close]: a descriptor is not -1, and there is an
    error number if [close] returns -1. *)
Definition OSOk : Prop :=
  (∀ p fd, os_open os p = Some fd → fd ≠ -1) ∧ ∀ fd, (os_close os fd).1 = -1 → (os_close os fd).2 ≠ 0.
Definition NewOk (fresh : gmap Z Z → Z) : Prop := ∀ m, m !! fresh m = None ∧ fresh m ≠ 0.

Context (Halloc : AllocOk) (Hos : OSOk) (Hnew : NewOk new_file).

(** The files that are open: a file that was closed with an error has no descriptor any
    more, and is never deleted. *)
Definition live (files : gmap Z Z) : gmap Z Z := filter (λ f, f.2 ≠ -1) files.

Lemma live_lookup files rf fd : live files !! rf = Some fd ↔ files !! rf = Some fd ∧ fd ≠ -1.
Proof. unfold live. by rewrite map_lookup_filter_Some. Qed.

Lemma live_insert files rf fd : files !! rf = None → fd ≠ -1 → live (<[rf := fd]> files) = <[rf := fd]> (live files).
Proof. intros _ H. unfold live. by apply map_filter_insert_True. Qed.

Lemma live_delete files rf : live (delete rf files) = delete rf (live files).
Proof. apply map_filter_delete. Qed.

Lemma live_closed files rf : live (<[rf := -1]> files) = delete rf (live files).
Proof. unfold live. rewrite map_filter_insert_False by (cbn; lia). by rewrite map_filter_delete. Qed.

Definition name_in t parent name n : Prop := ∃ o, ft_leaves t !! parent = Some o ∧ (name, n) ∈ lo_children o.

Lemma GetLeaf_at inode t o :
  ft_leaves t !! FileTree.address inode t = Some o → GetLeaf inode t = Ret (FileTree.address inode t, o).
Proof. intros Ho. unfold GetLeaf, FileTree.leaf_at. by rewrite Ho. Qed.

Lemma count_length a l : count a l ≤ Z.of_nat (length l).
Proof. unfold count. pose proof (length_filter (a =.) l). lia. Qed.

Lemma Counted_bound m l a (o : LeafObject P J) : Counted m l → m !! a = Some o → Z.of_nat (length l) < 2 ^ 63 →
  lo_nlookup o < 2 ^ 64 - 1.
Proof. intros [H _] Ha Hl. rewrite (H a o Ha). pose proof (count_length a l). lia. Qed.

Lemma child_alive t a o name c : InOrder t → ft_leaves t !! a = Some o → (name, c) ∈ lo_children o →
  ∃ oc, ft_leaves t !! c = Some oc ∧ (lo_serial o < lo_serial oc)%nat.
Proof. intros [Hok _] Ha Hin. apply (ok_child _ Hok a o c Ha), list_elem_of_fmap. by exists (name, c). Qed.

(** *** Lookup *)

Lemma add_or_find_serves path name parent o t :
  ServerTree real t → ft_leaves t !! parent = Some o →
  ∃ t' c o' oc, match LeafObject.Find name o with Some leaf => Ret (t, leaf) | None => AddLeaf os alloc path name parent t end = Ret (t', c) ∧
    serves (ServerTree real) [] [] t t' ∧ ft_leaves t' !! parent = Some o' ∧ (name, c) ∈ lo_children o' ∧ ft_leaves t' !! c = Some oc.
Proof.
  intros Hs Ho. destruct (LeafObject.Find name o) as [c|] eqn:Hf.
  - apply find_elem in Hf. destruct (child_alive t parent o name c) as (oc & Hoc & _); [by apply Hs|done..|].
    exists t, c, o, oc. split_and!; [done| |done..]. by apply serves_refl.
  - unfold AddLeaf. destruct (Halloc t) as (Ha & Hr & H0). set (type := os_status os path). set (size := if bool_decide _ then _ else _).
    destruct (AddChild_serves real parent name type size (alloc t) o t) as (t' & c & o' & E & Hse & _ & _ & Ho' & Hin); [done..|].
    destruct (child_alive t' parent o' name c) as (oc & Hoc & _); [by apply Hse|done..|].
    exists t', c, o', oc. split_and!; [exact E|done..].
Qed.

Lemma name_in_refs t t' p name n a o k b :
  ft_leaves t !! a = Some o → ft_leaves t' = <[a := LeafObject.with_refs k b o]> (ft_leaves t) →
  name_in t p name n → name_in t' p name n.
Proof.
  intros Ha Hl (op & Hp & Hin). unfold name_in. rewrite Hl. destruct (decide (p = a)) as [->|Hne].
  - rewrite lookup_insert_eq. simplify_eq. eexists. split; [done|done].
  - rewrite lookup_insert_ne by done. by exists op.
Qed.

(** The leaf of an answer to a lookup has one more reference. *)
Lemma ResponseLookupJob_serves request parentId name s o p l :
  let t := sv_tree s in
  ServerTree real t → ft_leaves t !! FileTree.address parentId t = Some o → Path t (FileTree.address parentId t) p →
  Counted (ft_leaves t) l → Z.of_nat (length l) < 2 ^ 63 →
  ∃ t' ans, ResponseLookupJob os alloc request parentId name s =
      Ret (with_tree t' s, ResponseLookup request parentId name ans) ∧
    match ans with
    | inl _ => serves (ServerTree real) [] [] t t'
    | inr (n, _) => serves (ServerTree real) [n] [] t t' ∧ name_in t' (FileTree.address parentId t) name n
    end.
Proof.
  intros t Hs Ho Hp Hc Hl. unfold ResponseLookupJob. fold t. rewrite (GetLeaf_at _ _ _ Ho). cbn [mbind res_bind].
  unfold GetFullPath. rewrite (GetFullPath_Path _ _ _ Hp). cbn [mbind res_bind].
  destruct (_ && _) eqn:Enone.
  { exists t, (inl ENOENT). split; [by destruct s|by apply serves_refl]. }
  destruct (add_or_find_serves (p ++ [name]) name _ o t Hs Ho) as (t1 & c & o1 & oc & -> & Hse & Ho1 & Hin & Hoc).
  cbn [mbind res_bind]. destruct (os_stat os (p ++ [name])) as [stbuf|]; [|by exists t1, (inl (-1))].
  destruct (AddRef_serves (ServerTree real) c oc t1) as (t2 & E2 & Hse2 & Hl2); [by apply Hse|done| |].
  { eapply (Counted_bound _ ([] ++ l)); [by apply (se_counted _ _ _ _ _ Hse)|done|done]. }
  rewrite E2. cbn [mbind res_bind]. unfold FileTree.leaf_at at 1. rewrite Hl2, lookup_insert_eq.
  cbn [mbind res_bind]. eexists t2, (inr (c, _)). split; [done|]. split; [by apply (serves_more _ [] [c] [] t t1 t2)|].
  eapply name_in_refs; [exact Hoc|exact Hl2|by exists o1].
Qed.

(** *** Opening and releasing *)

(** The file that a request is to open cannot be opened. *)
Definition refuses (m : message) s : Prop :=
  match m with
  | RequestOpen _ inode _ | RequestOpenDir _ inode _ =>
      ∃ path, GetFullPath (FileTree.address inode (sv_tree s)) (sv_tree s) = Ret path ∧ os_open os path = None
  | _ => False
  end.

Lemma open_file_ok path s : (os_open os path = None ∧ open_file os new_file path s = Err AssertFails) ∨ ∃ fd, fd ≠ -1 ∧
  open_file os new_file path s = Ret (mkServer (sv_tree s) (<[new_file (sv_files s) := fd]> (sv_files s)), new_file (sv_files s)).
Proof.
  destruct Hos as [Ho _]. unfold open_file. destruct (os_open os path) as [fd|] eqn:E; [right|by left].
  exists fd. split; [by eapply Ho|done].
Qed.

Lemma Path_like t t' a p :
  ft_root t' = ft_root t → (∀ b o, ft_leaves t !! b = Some o → ∃ o', ft_leaves t' !! b = Some o' ∧ like o o') →
  Path t a p → Path t' a p.
Proof.
  intros Hroot Hl. induction 1 as [o Ho Hp|a o b ob p Ha Hp Hb Hs _ IH].
  - destruct (Hl _ o Ho) as (o' & Ho' & _ & <- & E & _). rewrite <- Hroot in *. by apply Path_root; [|congruence].
  - destruct (Hl a o Ha) as (o' & Ha' & E1 & <- & E3 & _). destruct (Hl b ob Hb) as (ob' & Hb' & F1 & _).
    eapply Path_child; [done| |done| |done]; [congruence|lia].
Qed.

Lemma refs_like t t' a o n b :
  ft_leaves t !! a = Some o → ft_leaves t' = <[a := LeafObject.with_refs n b o]> (ft_leaves t) →
  ∀ c oc, ft_leaves t !! c = Some oc → ∃ oc', ft_leaves t' !! c = Some oc' ∧ like oc oc'.
Proof.
  intros Ha Hl c oc Hc. rewrite Hl. destruct (decide (c = a)) as [->|Hne]; [|rewrite lookup_insert_ne by done; by exists oc].
  rewrite lookup_insert_eq. simplify_eq. by eexists.
Qed.

(** The leaf has one more reference, and there is one more file. *)
Definition opened a s s' : Prop := ∃ fd, fd ≠ -1 ∧ serves (ServerTree real) [a] [] (sv_tree s) (sv_tree s') ∧
  (∀ p name n, name_in (sv_tree s') p name n → name_in (sv_tree s) p name n) ∧
  sv_files s' = <[new_file (sv_files s) := fd]> (sv_files s).

Lemma name_in_within t t' p name n : within t t' → name_in t' p name n → name_in t p name n.
Proof.
  intros Hw (o' & Ho' & Hin). destruct (Hw p o' Ho') as (o & Ho & _ & Hs). exists o. split; [done|]. by eapply elem_of_sublist.
Qed.

Lemma ResponseOpenJob_serves request inode fileInfo s o p l :
  let t := sv_tree s in
  ServerTree real t → ft_leaves t !! FileTree.address inode t = Some o → Path t (FileTree.address inode t) p →
  Counted (ft_leaves t) l → Z.of_nat (length l) < 2 ^ 63 →
  (os_open os p = None ∧ ResponseOpenJob os new_file request inode fileInfo s = Err AssertFails) ∨
  ∃ s', ResponseOpenJob os new_file request inode fileInfo s =
      Ret (s', ResponseOpen request (inr (fileInfo, new_file (sv_files s)))) ∧ opened (FileTree.address inode t) s s'.
Proof.
  intros t Hs Ho Hp Hc Hl. unfold ResponseOpenJob. fold t. rewrite (GetLeaf_at _ _ _ Ho). cbn [mbind res_bind].
  unfold GetFullPath. rewrite (GetFullPath_Path _ _ _ Hp). cbn [mbind res_bind].
  destruct (open_file_ok p s) as [[E ->]|(fd & Hfd & ->)]; [by left|right]. cbn [mbind res_bind sv_tree].
  destruct (AddRef_serves (ServerTree real) _ o t Hs Ho (Counted_bound _ _ _ _ Hc Ho Hl)) as (t2 & E2 & Hse2 & Hl2).
  fold t. rewrite E2. cbn [mbind res_bind]. eexists. split; [done|]. exists fd. split_and!; [done|done| |done].
  intros q name n. apply name_in_within. by eapply refs_within.
Qed.

Lemma ResponseOpenDirJob_serves request inode fileInfo s o p l :
  let t := sv_tree s in
  ServerTree real t → ft_leaves t !! FileTree.address inode t = Some o → Path t (FileTree.address inode t) p →
  Counted (ft_leaves t) l → Z.of_nat (length l) < 2 ^ 63 →
  (os_open os p = None ∧ ResponseOpenDirJob os new_file request inode fileInfo s = Err AssertFails) ∨
  ∃ s', ResponseOpenDirJob os new_file request inode fileInfo s =
      Ret (s', ResponseOpenDir request (inr (fileInfo, new_file (sv_files s)))) ∧ opened (FileTree.address inode t) s s'.
Proof.
  intros t Hs Ho Hp Hc Hl. unfold ResponseOpenDirJob. fold t. rewrite (GetLeaf_at _ _ _ Ho). cbn [mbind res_bind].
  destruct (AddRef_serves (ServerTree real) _ o t Hs Ho (Counted_bound _ _ _ _ Hc Ho Hl)) as (t2 & E2 & Hse2 & Hl2).
  fold t. rewrite E2. cbn [mbind res_bind]. unfold GetFullPath. erewrite GetFullPath_Path.
  2:{ eapply Path_like; [apply Hse2|by eapply refs_like|exact Hp]. }
  cbn [mbind res_bind]. destruct (open_file_ok p (with_tree t2 s)) as [[E ->]|(fd & Hfd & ->)]; [by left|right]. cbn [mbind res_bind sv_tree sv_files with_tree].
  eexists. split; [done|]. exists fd. split_and!; [done|done| |done].
  intros q name n. apply name_in_within. by eapply refs_within.
Qed.

(** The leaf has one reference less, and there is one open file less. *)
Definition released a remoteFile s s' : Prop := serves (ServerTree real) [] [a] (sv_tree s) (sv_tree s') ∧
  within (sv_tree s) (sv_tree s') ∧ live (sv_files s') = delete remoteFile (live (sv_files s)) ∧
  ∀ rf, is_Some (sv_files s' !! rf) → is_Some (sv_files s !! rf).

Lemma deleted_files remoteFile s t' : let s' := mkServer t' (delete remoteFile (sv_files s)) : Server P J in
  live (sv_files s') = delete remoteFile (live (sv_files s)) ∧ ∀ rf, is_Some (sv_files s' !! rf) → is_Some (sv_files s !! rf).
Proof. split; [apply live_delete|]. cbn. by intros rf [_ ?]%lookup_delete_is_Some. Qed.

Lemma delete_file_ok remoteFile s : remoteFile ≠ 0 → is_Some (sv_files s !! remoteFile) →
  delete_file remoteFile s = Ret (mkServer (sv_tree s) (delete remoteFile (sv_files s))).
Proof.
  intros H0 H. unfold delete_file. rewrite (proj2 (Z.eqb_neq _ _) H0), bool_decide_true by done. done.
Qed.

Lemma ResponseReleaseJob_serves request inode remoteFile handle s l fd :
  let t := sv_tree s in
  ServerTree real t → inode ≠ 1 → Counted (ft_leaves t) (inode :: l) → sv_files s !! remoteFile = Some fd → remoteFile ≠ 0 →
  ∃ s', ResponseReleaseJob request inode remoteFile handle s = Ret (s', ResponseRelease request 0 handle) ∧
    released (FileTree.address inode t) remoteFile s s'.
Proof.
  intros t Hs H1 Hc Hf H0. unfold ResponseReleaseJob. fold t.
  assert (Ha : FileTree.address inode t = inode) by (unfold FileTree.address, FUSE_ROOT_ID; by rewrite (proj2 (Z.eqb_neq _ _) H1)).
  destruct (proj2 Hc inode) as [o Ho]; [by left|]. erewrite GetLeaf_at by (rewrite Ha; exact Ho). rewrite Ha. cbn [mbind res_bind].
  destruct (ReleaseRef_serves (ServerTree real) 1 inode l t Hs ltac:(lia) Hc) as (t2 & -> & Hse & Hw). cbn [mbind res_bind].
  unfold FUSE_ROOT_ID. rewrite (proj2 (Z.eqb_neq _ _) H1). cbn [negb assert_that mbind res_bind].
  rewrite delete_file_ok by done. cbn [mbind res_bind]. eexists. split; [done|]. split; [done|]. split; [done|]. exact (deleted_files remoteFile s t2).
Qed.

Lemma ResponseReleaseDirJob_serves request inode remoteFile handle s l fd :
  let t := sv_tree s in
  ServerTree real t → Counted (ft_leaves t) (FileTree.address inode t :: l) →
  sv_files s !! remoteFile = Some fd → fd ≠ -1 → remoteFile ≠ 0 →
  ∃ s' m, ResponseReleaseDirJob os request inode remoteFile handle s = Ret (s', m) ∧
    (m = ResponseReleaseDir request 0 handle ∨ ∃ errno, errno ≠ 0 ∧ m = ResponseReleaseDirFailed request errno) ∧
    released (FileTree.address inode t) remoteFile s s'.
Proof.
  intros t Hs Hc Hf Hfd H0. unfold ResponseReleaseDirJob. fold t.
  destruct (proj2 Hc (FileTree.address inode t)) as [o Ho]; [by left|]. rewrite (GetLeaf_at _ _ _ Ho). cbn [mbind res_bind].
  destruct (ReleaseRef_serves (ServerTree real) 1 _ l t Hs ltac:(lia) Hc) as (t2 & -> & Hse & Hw). cbn [mbind res_bind].
  case_match.
  - rewrite delete_file_ok by done. cbn [mbind res_bind]. do 2 eexists. split; [done|]. split; [by left|].
    split; [done|]. split; [done|]. exact (deleted_files remoteFile s t2).
  - cbn [with_tree sv_files]. rewrite Hf, (proj2 (Z.eqb_neq _ _) Hfd). cbn [negb assert_that mbind res_bind].
    destruct Hos as [_ Hclose]. specialize (Hclose fd). destruct (os_close os fd) as [result errno]. cbn in Hclose.
    destruct (Z.eqb_spec result (-1)) as [Er|_].
    + do 2 eexists. split; [done|]. split; [right; exists errno; split; [by apply Hclose|done]|].
      split; [done|]. split; [done|]. split; [apply live_closed|]. cbn. intros rf. rewrite lookup_insert_is_Some'.
      intros [<-|?]; [by eexists|done].
    + rewrite delete_file_ok by done. cbn [mbind res_bind]. do 2 eexists. split; [done|]. split; [by left|].
      split; [done|]. split; [done|]. exact (deleted_files remoteFile s t2).
Qed.

(** *** Forgetting *)

Lemma forget_fold forgets : ∀ t l,
  ServerTree real t → Forall (λ f, f.1 ≠ 1 ∧ 0 < f.2) forgets → Counted (ft_leaves t) (expand forgets ++ l) →
  ∃ t', foldl (λ m '(inode, nlookup), t ← m; '(leaf, _) ← GetLeaf inode t; FileTree.ReleaseRef nlookup leaf t)
      (Ret t) forgets = Ret t' ∧ serves (ServerTree real) [] (expand forgets) t t' ∧ within t t'.
Proof.
  induction forgets as [|[inode n] forgets IH]; intros t l Hs Hf Hc.
  { exists t. split; [done|]. split; [by apply serves_refl|done]. }
  apply Forall_cons in Hf as [[H1 Hn] Hf]. unfold expand in *. cbn in *. rewrite <- app_assoc in Hc.
  assert (Ha : FileTree.address inode t = inode) by (unfold FileTree.address, FUSE_ROOT_ID; by rewrite (proj2 (Z.eqb_neq _ _) H1)).
  destruct (proj2 Hc inode) as [o Ho]; [apply elem_of_app; left; rewrite elem_of_replicate; split; [done|lia]|].
  erewrite GetLeaf_at by (rewrite Ha; exact Ho). rewrite Ha. cbn [mbind res_bind].
  destruct (ReleaseRef_serves (ServerTree real) n inode _ t Hs Hn Hc) as (t1 & -> & Hse & Hw).
  destruct (IH t1 l) as (t' & -> & Hse' & Hw'); [apply Hse|done|by apply (se_counted _ _ _ _ _ Hse)|].
  exists t'. split; [done|]. split; [by eapply serves_less|by etrans].
Qed.

(** *** Attributes *)

Lemma ResponseGetAttrJob_returns request clientInode inode remoteFile s o p :
  let t := sv_tree s in
  ft_leaves t !! FileTree.address inode t = Some o → Path t (FileTree.address inode t) p →
  (remoteFile ≠ 0 → ∃ fd, sv_files s !! remoteFile = Some fd ∧ fd ≠ -1) →
  ∃ m, ResponseGetAttrJob os request clientInode inode remoteFile s = Ret (s, m) ∧
    (m = ResponseGetAttrRoot request clientInode ∨ ∃ ans, m = ResponseGetAttr request ans ∧
       ∀ i at', ans = inr (i, at') → i = clientInode).
Proof.
  intros t Ho Hp Hf. unfold ResponseGetAttrJob. fold t. case_match; [by eexists; split; [|left]|].
  assert (E : ∃ r, (if negb (remoteFile =? 0) then
        match sv_files s !! remoteFile with
        | Some fd => assert_that (negb (fd =? -1));; Ret (os_fstat os fd)
        | None => Err Undefined
        end
      else '(leaf, _) ← GetLeaf inode t; path ← GetFullPath leaf t; Ret (os_stat os path)) = Ret r).
  { destruct (Z.eqb_spec remoteFile 0) as [E0|E0]; cbn [negb].
    - rewrite (GetLeaf_at _ _ _ Ho). cbn [mbind res_bind]. unfold GetFullPath. rewrite (GetFullPath_Path _ _ _ Hp). by eexists.
    - destruct (Hf E0) as (fd & -> & Hfd). rewrite (proj2 (Z.eqb_neq _ _) Hfd). by eexists. }
  destruct E as [r ->]. cbn [mbind res_bind]. destruct r as [at'|]; eexists; (split; [done|]); right; eexists; (split; [done|]).
  - by intros i at2 [= <- _].
  - done.
Qed.

(** *** Listings *)

Lemma Rescan_serves parent listing t o :
  ServerTree real t → ft_leaves t !! parent = Some o →
  ∃ t' o', FileTree.Rescan alloc parent listing t = Ret t' ∧ ServerTree real t' ∧ evolves t t' ∧ extends t t' ∧
    ft_leaves t' !! parent = Some o'.
Proof.
  unfold FileTree.Rescan. revert t o. induction listing as [|e listing IH]; intros t o Hs Ho.
  { exists t, o. by split_and!. }
  cbn [foldl]. assert (E : ∃ t1, FileTree.Rescan_entry alloc parent (Ret t) e = Ret t1 ∧ ServerTree real t1 ∧ evolves t t1 ∧ extends t t1).
  { unfold FileTree.Rescan_entry, FileTree.leaf_at. cbn [mbind res_bind]. rewrite Ho. cbn [mbind res_bind].
    destruct (Halloc t) as (Ha & Hreal & H0).
    assert (Hadd : ∀ name type sz, ∃ t1, fst <$> FileTree.AddChild parent name type sz (alloc t) t = Ret t1 ∧ ServerTree real t1 ∧ evolves t t1 ∧ extends t t1).
    { intros name type sz. destruct (AddChild_serves real parent name type sz (alloc t) o t) as (t1 & c & o' & -> & Hse & He & Hx & _); [done..|].
      exists t1. split; [done|]. split; [apply Hse|done]. }
    case_match; [by exists t|]. destruct e; [apply Hadd|apply Hadd|by exists t]. }
  destruct E as (t1 & -> & Hs1 & He1 & Hx1). destruct (proj2 Hx1 parent o Ho) as (o1 & Ho1 & _ & _).
  destruct (IH t1 o1) as (t' & o' & -> & Hs' & He' & Hx' & Ho'); [done..|].
  exists t', o'. split_and!; [done|done|by etrans|by etrans|done].
Qed.

(** Entries: each is a child, and brings a reference of it. *)
Definition same_names t t' : Prop := ∀ p name n, name_in t' p name n ↔ name_in t p name n.

Lemma refs_same_names t t' a o k b :
  ft_leaves t !! a = Some o → ft_leaves t' = <[a := LeafObject.with_refs k b o]> (ft_leaves t) → same_names t t'.
Proof.
  intros Ha Hl p name n. split; [apply name_in_within; by eapply refs_within|by eapply name_in_refs].
Qed.

Lemma add_entries_serves parent pp size children : ∀ t writedSize inodeIndex,
  ServerTree real t → Path t parent pp → NoDup children.*2 →
  (∀ name c, (name, c) ∈ children → name_in t parent name c ∧
     ∀ oc, ft_leaves t !! c = Some oc → lo_nlookup oc < 2 ^ 64 - 1) →
  ∃ t' es, add_entries os size writedSize inodeIndex children t = Ret (t', es) ∧
    serves (ServerTree real) (reverse (en_nodeid <$> es)) [] t t' ∧ same_names t t' ∧
    ∀ e, e ∈ es → name_in t parent (en_name e) (en_nodeid e).
Proof.
  induction children as [|[name c] children IH]; intros t w k Hs Hp Hnd Hsub.
  { exists t, []. split; [done|]. split; [by apply serves_refl|]. split; [done|]. by intros e ?%not_elem_of_nil. }
  cbn [add_entries]. destruct (_ <? _).
  2:{ exists t, []. split; [done|]. split; [by apply serves_refl|]. split; [done|]. by intros e ?%not_elem_of_nil. }
  rewrite fmap_cons in Hnd. apply NoDup_cons in Hnd as [Hnc Hnd]. destruct (Hsub name c) as [(o & Ho & Hin) Hb]; [by left|].
  destruct (child_alive t parent o name c) as (oc & Hoc & Hser); [by apply Hs|done|done|].
  unfold FileTree.leaf_at. rewrite Hoc. cbn [mbind res_bind]. destruct (LeafObject.IsDeleted oc).
  { apply (IH t); try done. intros name' c' ?. apply Hsub. by right. }
  destruct (st_child _ _ Hs parent o name c oc) as [Epar Ename]; [done..|].
  unfold GetFullPath. rewrite (GetFullPath_Path t c (pp ++ [lo_name oc])) by by eapply Path_child. cbn [mbind res_bind].
  destruct (AddRef_serves (ServerTree real) c oc t) as (t1 & -> & Hse & Hl1); [done|done|by apply Hb|]. cbn [mbind res_bind].
  pose proof (refs_same_names t t1 c oc _ _ Hoc Hl1) as Hn1.
  destruct (IH t1 (w + os_entry_size os name) (k + 1)) as (t' & es & -> & Hse' & Hn' & Hes); [apply Hse| |done|..].
  { eapply Path_like; [apply Hse|by eapply refs_like|done]. }
  { intros name' c' Hc'. destruct (Hsub name' c') as [Hc1 Hc2]; [by right|]. split; [by apply Hn1|].
    intros oc'. rewrite Hl1, lookup_insert_ne; [apply Hc2|]. intros E. apply Hnc, list_elem_of_fmap. exists (name', c'). by rewrite E. }
  cbn [mbind res_bind]. eexists t', _. split; [done|]. split; [|split].
  - rewrite fmap_cons, reverse_cons. by eapply serves_more.
  - intros q x n. rewrite (Hn' q x n). apply Hn1.
  - intros e [->|He]%elem_of_cons; [by apply Hsub; left|]. by apply Hn1, Hes.
Qed.

(** The entries that are no dots; the references they bring. *)
Definition is_dot (name : string) : bool := bool_decide (name = ".") || bool_decide (name = "..").
Definition real_entries (entries : list entry) : list entry := filter (λ e, is_dot (en_name e) = false) entries.

Lemma real_entries_dots inode offset stbuf : real_entries (dot_entries inode offset stbuf) = [].
Proof. unfold dot_entries, real_entries. by repeat case_match. Qed.

Lemma real_entries_all entries : (∀ e, e ∈ entries → is_dot (en_name e) = false) → real_entries entries = entries.
Proof.
  induction entries as [|e entries IH]; intros H; [done|]. unfold real_entries in *. rewrite filter_cons_True by (apply H; by left).
  f_equal. apply IH. intros e' He. apply H. by right.
Qed.

Lemma serves_perm new new' t t' : new ≡ₚ new' → serves (ServerTree real) new [] t t' → serves (ServerTree real) new' [] t t'.
Proof. intros E [A1 A2 A3 A4]. split; [done..| |done]. intros l Hl. eapply Counted_perm; [|by apply A3]. by rewrite E. Qed.

(** The answer brings references of its entries. *)
Lemma ResponseReadDirPlusJob_serves request clientInode inode size offset remoteFile s o p l :
  let t := sv_tree s in
  let a := FileTree.address inode t in
  ServerTree real t → ft_leaves t !! a = Some o → Path t a p → Counted (ft_leaves t) l → Z.of_nat (length l) < 2 ^ 63 →
  ∃ t' es, ResponseReadDirPlusJob os alloc request clientInode inode size offset remoteFile s =
      Ret (with_tree t' s, Entries request clientInode es) ∧
    ((∀ name n, name_in t' a name n → is_dot name = false) → serves (ServerTree real) (en_nodeid <$> real_entries es) [] t t') ∧
    ∀ e, e ∈ real_entries es → name_in t' a (en_name e) (en_nodeid e).
Proof.
  intros t a Hs Ho Hp Hc Hl. unfold ResponseReadDirPlusJob. fold t. rewrite (GetLeaf_at _ _ _ Ho). fold a. cbn [mbind res_bind].
  unfold GetFullPath. rewrite (GetFullPath_Path _ _ _ Hp). cbn [mbind res_bind].
  destruct (Rescan_serves a (os_listing os p) t o Hs Ho) as (t1 & o1 & -> & Hs1 & He1 & Hx1 & Ho1). cbn [mbind res_bind].
  unfold FileTree.leaf_at at 1. rewrite Ho1. cbn [mbind res_bind]. set (dots := dot_entries _ _ _).
  assert (Hp1 : Path t1 a p).
  { eapply Path_like; [apply Hx1| |done]. intros b ob Hb. destruct (proj2 Hx1 b ob Hb) as (ob' & ? & ? & _). by exists ob'. }
  destruct (add_entries_serves a p size (drop (Z.to_nat (offset - 2)) (lo_children o1)) t1 (entries_size os dots) (3 + Z.max 0 (offset - 2)))
    as (t' & es & -> & Hse & Hn & Hes); [done|done|..].
  { destruct (st_order _ _ Hs1) as [Hok _]. eapply sublist_NoDup; [apply (ok_nodup _ Hok a o1 Ho1)|].
    apply fmap_sublist, sublist_drop. }
  { intros name c Hin. apply (elem_of_sublist _ (lo_children o1)) in Hin; [|apply sublist_drop]. split; [by exists o1|]. intros oc Hoc.
    eapply Counted_bound; [by apply (ev_counted _ _ He1)|done|done]. }
  cbn [mbind res_bind]. exists t', (dots ++ es). split; [done|].
  assert (Edots : real_entries (dots ++ es) = real_entries es).
  { pose proof (real_entries_dots inode offset (default no_attributes (os_stat os p))) as E.
    unfold real_entries in *. rewrite filter_app. fold dots in E. by rewrite E. }
  rewrite Edots. split.
  - intros Hdots. assert (real_entries es = es) as ->.
    { apply real_entries_all. intros e He. apply (Hdots _ (en_nodeid e)), Hn, Hes, He. }
    eapply serves_perm; [|eapply (serves_more _ [] (reverse (en_nodeid <$> es)) [] t t1 t'); [by apply evolves_serves|done]].
    rewrite app_nil_r. apply reverse_Permutation.
  - intros e [_ He]%list_elem_of_filter. by apply Hn, Hes.
Qed.

(** *** Changes on the disk *)

Lemma walk_path_returns path : ∀ node t, InOrder t → is_Some (ft_leaves t !! node) →
  ∃ r, walk_path path node t = Ret r ∧ ∀ a, r = Some a → is_Some (ft_leaves t !! a).
Proof.
  induction path as [|part path IH]; intros node t Hok [o Ho].
  { exists (Some node). split; [done|]. intros a [= <-]. by eexists. }
  cbn [walk_path]. unfold FileTree.leaf_at. rewrite Ho. cbn [mbind res_bind].
  destruct (LeafObject.Find part o) as [c|] eqn:Hf; [|by exists None].
  apply find_elem in Hf. destruct (child_alive t node o part c Hok Ho Hf) as (oc & Hoc & _). apply IH; [done|by eexists].
Qed.

Lemma ResolvePath_returns path t : InOrder t →
  ∃ r, ResolvePath path t = Ret r ∧ ∀ a, r = Some a → ∃ o, ft_leaves t !! a = Some o.
Proof. intros Hok. apply walk_path_returns; [done|]. destruct (ok_root _ (proj1 Hok)) as [o Ho]. by exists o. Qed.

Lemma own_inode t a o : ServerTree real t → ft_leaves t !! a = Some o → LeafObject.GetServerInode a o = a.
Proof. intros Hs Ho. unfold LeafObject.GetServerInode. destruct (st_leaf _ _ Hs a o Ho) as [_ ->]. done. Qed.

(** A notification about a leaf that appeared, and one that it was given under its name. *)
Definition notifies t (a : answer) : Prop :=
  match a with
  | Plain (NotifyInvalInode _) => True
  | Plain (NotifyInvalEntry type p name n _ _) => (type = 1 ∨ type = 4) ∧ name_in t p name n ∨ type = 2 ∨ type = 3
  | _ => False
  end.

(** What an event does: it gives a tree and notifications. *)
Definition tells t s (r : res (Server P J * list answer)) : Prop :=
  ∃ t' answers, r = Ret (with_tree t' s, answers) ∧ serves (ServerTree real) [] [] t t' ∧ Forall (notifies t') answers.

Lemma process_created_tells event parent size s o :
  we_type event = Created ∨ we_type event = MovedTo → ServerTree real (sv_tree s) → ft_leaves (sv_tree s) !! parent = Some o →
  tells (sv_tree s) s (process_created alloc event parent size s).
Proof.
  intros Hk Hs Ho. unfold process_created. set (t := sv_tree s) in *. set (type := if we_isDir event then ft_directory else ft_regular).
  destruct (Halloc t) as (Ha & Hr & H0).
  destruct (AddChild_serves real parent (we_name event) type size (alloc t) o t) as (t' & c & o' & E & Hse & _ & _ & Ho' & Hin); [done..|].
  cbv zeta. rewrite E. cbn [mbind res_bind]. destruct (child_alive t' parent o' (we_name event) c) as (oc & Hoc & _); [by apply Hse|done|done|].
  unfold FileTree.leaf_at. rewrite Hoc. cbn [mbind res_bind]. rewrite Ho'. cbn [mbind res_bind].
  rewrite !(own_inode t') by (done || apply Hse). eexists t', _. split; [done|]. split; [done|].
  constructor; [|by repeat constructor]. left. split; [destruct Hk as [-> | ->]; cbn; tauto|by exists o'].
Qed.

Lemma process_deleted_tells event parent s o :
  we_type event = Deleted ∨ we_type event = MovedFrom → ServerTree real (sv_tree s) → ft_leaves (sv_tree s) !! parent = Some o →
  tells (sv_tree s) s (process_deleted event parent s).
Proof.
  intros Hk Hs Ho. unfold process_deleted, FileTree.leaf_at. rewrite Ho. cbn [mbind res_bind].
  destruct (RemoveChild_serves (ServerTree real) parent (we_name event) o (sv_tree s) Hs Ho) as (t' & -> & Hse & _). cbn [mbind res_bind].
  eexists t', _. split; [done|]. split; [done|]. constructor; [|by repeat constructor].
  right. destruct Hk as [-> | ->]; cbn; tauto.
Qed.

Lemma ProcessInotifyEventJob_tells event s :
  ServerTree real (sv_tree s) → tells (sv_tree s) s (ProcessInotifyEventJob os alloc event s).
Proof.
  intros Hs. pose proof (st_order _ _ Hs) as Hok. unfold ProcessInotifyEventJob. set (t := sv_tree s) in *.
  assert (Hnone : tells t s (Ret (s, []))).
  { exists t, []. split; [by destruct s|]. by split; [apply serves_refl|]. }
  destruct (ok_root _ (proj1 Hok)) as [oroot Hroot].
  destruct (we_type event) eqn:Et.
  1:{ destruct (ResolvePath_returns (we_path event) t Hok) as (r & -> & Hr). cbn [mbind res_bind]. destruct r as [a|]; [|done].
      destruct (Hr a eq_refl) as [o Ho]. unfold FileTree.leaf_at. rewrite Ho. cbn [mbind res_bind].
      eexists t, _. split; [by destruct s|]. split; [by apply serves_refl|by repeat constructor]. }
  all: destruct (ResolvePath_returns (parent_path (we_path event)) t Hok) as (r & -> & Hr); cbn [mbind res_bind];
    destruct r as [a|]; [|done]; destruct (Hr a eq_refl) as [o Ho].
  2,3: by eapply process_deleted_tells; [tauto|..].
  all: unfold FileTree.leaf_at; rewrite Hroot; cbn [mbind res_bind]; by eapply process_created_tells; [tauto|..].
Qed.

End Jobs.
