(* ===== verification/NameClient.v ===== *)
(** * NameClient: what the jobs of the client do to its tree
    The jobs [Names.Client] on a tree in order: they return, the references that they add
    are those that they tell the kernel, and a leaf that is found or made under a name has
    the inode of the server that the answer gives to this name. *)
From S2P Require Import Prelude Addr Packet Leaf FileTree Messages Names References NameServer.
Import Client.
Local Open Scope Z_scope.

Section Jobs.
Context {P J : Type} `{!IPacket P}.
Implicit Types (t : FileTree P J) (o : LeafObject P J) (c : Client P J).

(** A tree of which all leaves but the root stand for a leaf of the server; [good] says
    which inodes these may have. *)
Record ClientTree (good : Z → Prop) t : Prop := {
  ct_order : InOrder t;
  ct_root : ∀ o, ft_leaves t !! ft_root t = Some o → lo_serverInode o = 0 ∧ lo_serial o = 0%nat;
  ct_leaf : ∀ a o, ft_leaves t !! a = Some o → a ≠ ft_root t → good (lo_serverInode o);
  ct_one : ft_leaves t !! 1 = None;
}.

Context (good : Z → Prop).

#[export] Instance ClientTree_spec : TreeSpec (ClientTree good).
Proof.
  split; [by intros t []|]. intros t t' [C1 C2 C3 C4] Hok Hroot Hw. split; [done|..].
  - rewrite Hroot. intros o' Ho'. destruct (Hw _ o' Ho') as (o & Ho & (-> & _ & _ & ->) & _). by apply C2.
  - rewrite Hroot. intros a o' Ho' Ha. destruct (Hw _ o' Ho') as (o & Ho & (_ & _ & _ & ->) & _). by apply (C3 a).
  - destruct (ft_leaves t' !! 1) as [o'|] eqn:E; [|done]. destruct (Hw _ o' E) as (o & Ho & _). congruence.
Qed.

(** A child is not the root. *)
Lemma child_not_root t p o name d : ClientTree good t → ft_leaves t !! p = Some o → (name, d) ∈ lo_children o → d ≠ ft_root t.
Proof.
  intros Hc Hp Hin ->. destruct (child_alive t p o name (ft_root t)) as (od & Hod & Hser); [by apply Hc|done|done|].
  destruct (ct_root _ _ Hc od Hod) as [_ E]. lia.
Qed.

(** The leaf [d], which stands for [n], is now under a name of [parent], and [new] are
    references that were added. *)
Record adopts (new : list Z) t t' (parent : Z) (name : string) (d n : Z) : Prop := {
  ad_serves : serves (ClientTree good) new [] t t';
  ad_names : ∀ p x e, name_in t' p x e → name_in t p x e ∨ (p = parent ∧ x = name ∧ e = d);
  ad_like : ∀ a o, ft_leaves t !! a = Some o → ∃ o', ft_leaves t' !! a = Some o' ∧ like o o';
  ad_child : ∃ od, ft_leaves t' !! d = Some od ∧ lo_serverInode od = n;
  ad_other : d ≠ ft_root t;
}.

Lemma name_in_grown parent name a o leaf t t' p x e :
  lo_children leaf = [] → grown parent name a o leaf t t' → name_in t' p x e →
  name_in t p x e ∨ (p = parent ∧ x = name ∧ e = a).
Proof.
  intros Hleaf Hg (op & Hp & Hin). destruct (grown_lookup _ _ _ _ _ _ _ _ _ Hg Hp) as [[-> ->]|[[-> ->]|(_ & _ & Hp')]].
  - cbn in Hin. apply insert_elem in Hin as [[= -> ->]|Hin]; [by right|]. left. exists o. split; [apply Hg|done].
  - rewrite Hleaf in Hin. by apply not_elem_of_nil in Hin.
  - left. by exists op.
Qed.

Lemma ClientTree_grown parent name a o leaf t t' :
  ClientTree good t → InOrder t' → good (lo_serverInode leaf) → a ≠ 1 → grown parent name a o leaf t t' → ClientTree good t'.
Proof.
  intros [C1 C2 C3 C4] Hok Hn Ha1 Hg. pose proof Hg as (Hroot & Hp & Ha & Hf & Hl). split; [done|..].
  - rewrite Hroot. intros oc Hc. destruct (grown_lookup _ _ _ _ _ _ _ _ _ Hg Hc) as [[E ->]|[[E ->]|(_ & _ & Hc')]]; [|exfalso|by apply C2].
    + cbn. apply C2. by rewrite E.
    + destruct (ok_root _ (proj1 C1)) as [? ?]. congruence.
  - rewrite Hroot. intros b oc Hc Hb. destruct (grown_lookup _ _ _ _ _ _ _ _ _ Hg Hc) as [[-> ->]|[[-> ->]|(_ & _ & Hc')]];
      [cbn; by apply (C3 parent)|done|by apply (C3 b)].
  - rewrite Hl, !lookup_insert_ne; [done|done|congruence].
Qed.

(** [AddChild] and [SetServerInode]: the leaf of the name, which has this inode already or
    is new. *)
Lemma bind_child parent name type sz a n o t :
  ClientTree good t → ft_leaves t !! parent = Some o → ft_leaves t !! a = None → a ≠ 0 → a ≠ 1 → good n →
  (∀ d od, (name, d) ∈ lo_children o → ft_leaves t !! d = Some od → lo_serverInode od = n) →
  ∃ t1 d t', FileTree.AddChild parent name type sz a t = Ret (t1, d) ∧ FileTree.SetServerInode d n t1 = Ret t' ∧
    adopts [] t t' parent name d n.
Proof.
  intros Hc Ho Ha Ha0 Ha1 Hn Hsame.
  destruct (AddChild_cases parent name type sz a o t) as (t1 & d & E & Hok & Hroot & Hcase); [by apply Hc|done..|].
  exists t1, d. destruct Hcase as [[Hf Hl]|(Hf & -> & Hl)].
  - apply find_elem in Hf. destruct (child_alive t parent o name d) as (od & Hod & _); [by apply Hc|done|done|].
    destruct (SetServerInode_cases d od n t1 Hok) as (t2 & E2 & Hok2 & Hroot2 & Hl2); [by rewrite Hl|].
    exists t2. split_and!; [done..|]. assert (El : ft_leaves t2 = ft_leaves t).
    { rewrite Hl2, Hl. apply insert_id. rewrite Hod. f_equal. rewrite <- (Hsame d od Hf Hod). by destruct od. }
    split; [apply (keeps_serves (ClientTree good)); [exact Hc|exact Hok2|]| | |exists od|].
    + apply same_leaves_keeps; [done|congruence].
    + intros p x e. unfold name_in. rewrite El. by left.
    + intros b ob Hb. exists ob. by rewrite El.
    + rewrite El. split; [done|]. by apply (Hsame d).
    + exact (child_not_root t parent o name d Hc Ho Hf).
  - assert (Hpa : parent ≠ a) by congruence. set (leaf := new_leaf _ _ _ _ _) in *.
    destruct (SetServerInode_cases a leaf n t1 Hok) as (t2 & E2 & Hok2 & Hroot2 & Hl2).
    { rewrite Hl, lookup_insert_ne by done. by rewrite lookup_insert_eq. }
    exists t2. split_and!; [done..|].
    assert (Hg : grown parent name a o (LeafObject.with_inode n leaf) t t2).
    { split; [congruence|]. split; [done|]. split; [done|]. split; [done|].
      rewrite Hl2, Hl. rewrite insert_insert_ne by done. by rewrite insert_insert_eq. }
    split.
    + apply evolves_serves; [exact (ClientTree_grown _ _ _ _ (LeafObject.with_inode n leaf) _ _ Hc Hok2 Hn Ha1 Hg)|exact (grown_evolves _ _ _ _ (LeafObject.with_inode n leaf) _ _ eq_refl Hg)].
    + intros p x e. exact (name_in_grown _ _ _ _ (LeafObject.with_inode n leaf) _ _ p x e eq_refl Hg).
    + intros b ob Hb. destruct (grown_old _ _ _ _ _ _ _ _ _ Hg Hb) as (ob' & ? & ? & _). by exists ob'.
    + eexists. rewrite (proj2 (proj2 (proj2 (proj2 Hg)))), lookup_insert_ne, lookup_insert_eq by done. done.
    + destruct (ok_root _ (proj1 (ct_order _ _ Hc))) as [? ?]. congruence.
Qed.

(** [AddRef] of a leaf that was adopted. *)
Lemma adopts_AddRef t t1 parent name d n l :
  adopts [] t t1 parent name d n → Counted (ft_leaves t) l → Z.of_nat (length l) < 2 ^ 63 →
  ∃ t', FileTree.AddRef d t1 = Ret t' ∧ adopts [d] t t' parent name d n.
Proof.
  intros [A1 A2 A3 (od & Hod & Hi) A5] Hc Hl.
  destruct (AddRef_serves (ClientTree good) d od t1) as (t' & E & Hse & Hl'); [apply A1|done| |].
  { eapply (Counted_bound _ ([] ++ l)); [by apply (se_counted _ _ _ _ _ A1)|done|done]. }
  exists t'. split; [done|]. split; [by apply (serves_more _ [] [d] [] t t1 t')|..|done].
  - intros p x e Hin. apply A2. eapply name_in_within; [|exact Hin]. by eapply refs_within.
  - intros a o Ha. destruct (A3 a o Ha) as (o1 & Ho1 & L1). destruct (refs_like t1 t' d od _ _ Hod Hl' a o1 Ho1) as (o2 & ? & ?).
    exists o2. split; [done|by etrans].
  - rewrite Hl', lookup_insert_eq. by eexists.
Qed.

End Jobs.
