(* ===== verification/NameService.v ===== *)
(** * NameService: what the jobs of [Names] do together

    The kernel of the client looks up, opens, lists and forgets files; jobs and messages are
    under way and are processed in any order; files appear and disappear on the disk of the
    server.  The server keeps a leaf alive as long as the client may refer to it: every
    reference that it counts is one that the kernel has, or one in a message that is under
    way, or an open file. *)
From S2P Require Import Prelude Addr Packet Leaf FileTree Messages Names References NameServer NameClient.
Import Server Client.
Local Open Scope Z_scope.

(** ** The kernel *)

(** What the kernel asks: the callbacks of [RemoteFileSystem]. *)
Inductive call :=
  | Call_getattr (inode : Z) (handle : option Z)
  | Call_lookup (parent : Z) (name : string)
  | Call_opendir (inode fileInfo : Z)
  | Call_open (inode fileInfo : Z)
  | Call_release (inode handle : Z)
  | Call_releasedir (inode handle : Z)
  | Call_forget (inode nlookup : Z)
  | Call_forgetmulti (forgets : list (Z * Z))
  | Call_readdir (inode size offset handle : Z)
  | Call_readdirplus (inode size offset handle : Z).

(** The inode that it keeps while it waits, the open file it uses, the one it closes. *)
Definition call_inode (k : call) : option Z :=
  match k with
  | Call_getattr c _ | Call_lookup c _ | Call_opendir c _ | Call_open c _ | Call_release c _ | Call_releasedir c _
  | Call_readdir c _ _ _ | Call_readdirplus c _ _ _ => Some c
  | Call_forget _ _ | Call_forgetmulti _ => None
  end.
Definition call_uses (k : call) : option (Z * Z) :=
  match k with
  | Call_getattr c (Some h) | Call_readdir c _ _ h | Call_readdirplus c _ _ h => Some (c, h)
  | _ => None
  end.
Definition call_closes (k : call) : option Z :=
  match k with Call_release _ h | Call_releasedir _ h => Some h | _ => None end.

(** A reference of the kernel: an inode, found in a directory under a name. *)
Record dentry := mkDentry { d_inode : Z; d_parent : Z; d_name : string }.

(** A request under way: as a job of the client, a message, or an answer. *)
Inductive stage :=
  | Asked (job : request_job)
  | Sent (m : message)
  | Answered (a : answer).
Record request := mkRequest { rq_id : Z; rq_call : call; rq_stage : stage }.

(** An inode that the kernel may name. *)
Definition Known (refs : list dentry) (c : Z) : Prop := c = 1 ∨ c ∈ d_inode <$> refs.

Definition reply_request (r : reply) : Z :=
  match r with
  | Reply_err id _ | Reply_entry id _ _ | Reply_attr id _ _ | Reply_open id _ _ | Reply_list id _ | Reply_data id _ | Reply_none id => id
  end.

(** What the kernel gets with a reply: references and open files. *)
Definition taken (k : call) (r : reply) : list dentry * list (Z * Z) :=
  match k, r with
  | Call_lookup p x, Reply_entry _ d _ => ([mkDentry d p x], [])
  | Call_readdirplus p _ _ _, Reply_data _ entries =>
      (reverse ((λ e, mkDentry e.2 p e.1) <$> filter (λ e, is_dot e.1 = false) entries), [])
  | Call_open c _, Reply_open _ _ h | Call_opendir c _, Reply_open _ _ h => ([], [(c, h)])
  | _, _ => ([], [])
  end.

(** A reference of the server that comes with an answer that the client gives up. *)
Definition given_up (a : answer) (r : reply) : list Z :=
  match a, r with Plain (ResponseLookup _ _ _ (inr (n, _))), Reply_err _ _ => [n] | _, _ => [] end.

(** A handle of the client that is never deleted, since its file could not be closed. *)
Definition left_open (k : call) (a : answer) : list Z :=
  match a with Plain (ResponseReleaseDirFailed _ _) => option_list (call_closes k) | _ => [] end.

Lemma left_open_none k a : call_closes k = None → left_open k a = [].
Proof. intros Hk. unfold left_open. rewrite Hk. by repeat case_match. Qed.

(** ** The system *)

Section Service.
Context {P J : Type} `{!IPacket P}.
Implicit Types (t : FileTree P J).

(** [sy_releases]: the [ReleaseLeafRefJob]s that wait; [sy_notes]: notifications under way.
    [sy_lost], [sy_unclosed], [sy_asked] and [sy_replies] are its history. *)
Record System := mkSystem {
  sy_server : Server P J;
  sy_client : Client P J;
  sy_refs : list dentry;
  sy_opens : list (Z * Z);
  sy_requests : list request;
  sy_releases : list (Z * Z);
  sy_notes : list answer;
  sy_lost : list Z;
  sy_unclosed : list Z;
  sy_asked : list Z;
  sy_replies : list reply;
}.
Implicit Types s : System.

Definition FuseCall (id : Z) (k : call) (c : Client P J) : res (list client_job) :=
  match k with
  | Call_getattr inode handle => FuseGetattr id inode handle c
  | Call_lookup parent name => Ret (FuseLookup id parent name)
  | Call_opendir inode fileInfo => Ret (FuseOpendir id inode fileInfo)
  | Call_open inode fileInfo => Ret (FuseOpen id inode fileInfo)
  | Call_release inode handle => Ret (FuseRelease id inode handle)
  | Call_releasedir inode handle => Ret (FuseReleaseDir id inode handle)
  | Call_forget inode nlookup => FuseForget id inode nlookup c
  | Call_forgetmulti forgets => FuseForgetmulti id forgets c
  | Call_readdir inode size offset handle => FuseReadDir id inode size offset handle c
  | Call_readdirplus inode size offset handle => FuseReadDirPlus id inode size offset handle c
  end.

Definition requests_of (id : Z) (k : call) (jobs : list client_job) : list request :=
  jobs ≫= λ j, match j with Request_job j => [mkRequest id k (Asked j)] | ReleaseLeafRef_job _ _ => [] end.
Definition releases_of (jobs : list client_job) : list (Z * Z) :=
  jobs ≫= λ j, match j with Request_job _ => [] | ReleaseLeafRef_job c n => [(c, n)] end.

(** *** What the kernel does by itself

    It names inodes and open files it has; it closes a file that no request uses; it forgets
    references it has, and keeps the inodes that are open or that a request names, and the
    directories in which it found the others. *)
Definition busy s (refs : list dentry) : Prop :=
  (∀ c h, (c, h) ∈ sy_opens s → Known refs c) ∧
  (∀ q c, q ∈ sy_requests s → call_inode (rq_call q) = Some c → Known refs c) ∧
  (∀ d, d ∈ refs → Known refs (d_parent d)).

Definition forgets_from s (forgets : list (Z * Z)) (refs : list dentry) : Prop :=
  Forall (λ f, 0 < f.2) forgets ∧ busy s refs ∧
  ∃ gone, sy_refs s ≡ₚ gone ++ refs ∧ d_inode <$> gone ≡ₚ expand forgets.

Definition closes_from s (c h : Z) (opens : list (Z * Z)) : Prop :=
  sy_opens s ≡ₚ (c, h) :: opens ∧ ∀ q c', q ∈ sy_requests s → call_uses (rq_call q) ≠ Some (c', h).

Definition permits s (k : call) (refs : list dentry) (opens : list (Z * Z)) : Prop :=
  match k with
  | Call_getattr c None | Call_lookup c _ | Call_opendir c _ | Call_open c _ =>
      Known (sy_refs s) c ∧ refs = sy_refs s ∧ opens = sy_opens s
  | Call_getattr c (Some h) | Call_readdir c _ _ h | Call_readdirplus c _ _ h =>
      (c, h) ∈ sy_opens s ∧ refs = sy_refs s ∧ opens = sy_opens s
  | Call_release c h => c ≠ 1 ∧ closes_from s c h opens ∧ refs = sy_refs s
  | Call_releasedir c h => closes_from s c h opens ∧ refs = sy_refs s
  | Call_forget c n => forgets_from s [(c, n)] refs ∧ opens = sy_opens s
  | Call_forgetmulti forgets => forgets_from s forgets refs ∧ opens = sy_opens s
  end.

(** *** References *)

Definition addr (root inode : Z) : Z := if inode =? FUSE_ROOT_ID then root else inode.
(** The inode of the server for an inode of the client. *)
Definition inode_of t (c : Z) : Z :=
  if c =? FUSE_ROOT_ID then FUSE_ROOT_ID else match ft_leaves t !! c with Some o => lo_serverInode o | None => 0 end.
Definition file_of (handles : gmap Z Z) (h : Z) : Z := default 0 (handles !! h).

(** What the references of the kernel, the open files and the requests owe the server: the
    leaves, each as often as it must have references.  [I] translates inodes and [H]
    handles. *)
Section View.
Context (root : Z) (I H : Z → Z).

Definition place (c : Z) : Z := addr root (I c).

(** The open files that requests hold, with their leaves. *)
Definition request_files (q : request) : list (Z * Z) :=
  match rq_call q, rq_stage q with
  | Call_open c _, Answered (Plain (ResponseOpen _ (inr (_, rf))))
  | Call_opendir c _, Answered (Plain (ResponseOpenDir _ (inr (_, rf)))) => [(rf, place c)]
  | Call_release c h, Asked _ | Call_release c h, Sent _
  | Call_releasedir c h, Asked _ | Call_releasedir c h, Sent _ => [(H h, place c)]
  | _, _ => []
  end.

(** The names that an answer gives: a directory, a name, a leaf. *)
Definition answer_names (a : answer) : list (Z * string * Z) :=
  match a with
  | Plain (ResponseLookup _ parent name (inr (n, _))) => [(addr root parent, name, n)]
  | Plain (NotifyInvalEntry type parent name n _ _) => if (type =? 1) || (type =? 4) then [(parent, name, n)] else []
  | Entries _ c es => (λ e, (place c, en_name e, en_nodeid e)) <$> real_entries es
  | _ => []
  end.
Definition stage_names (st : stage) : list (Z * string * Z) :=
  match st with Answered a => answer_names a | _ => [] end.

(** The references that a message carries. *)
Definition stage_owes (st : stage) : list Z :=
  match st with
  | Asked (RequestForgetMultiJob _ forgets) | Sent (RequestForgetMulti _ forgets) => expand forgets
  | Answered (Plain (ResponseLookup _ _ _ (inr (n, _)))) => [n]
  | Answered (Entries _ _ es) => en_nodeid <$> real_entries es
  | _ => []
  end.

Definition request_owes (q : request) : list Z := (request_files q).*2 ++ stage_owes (rq_stage q).

End View.

Definition sroot s : Z := ft_root (sv_tree (sy_server s)).
Definition croot s : Z := ft_root (cl_tree (sy_client s)).
Definition inode s : Z → Z := inode_of (cl_tree (sy_client s)).
Definition file s : Z → Z := file_of (cl_handles (sy_client s)).

(** All references that the server has to count, and those that the client has to. *)
Definition owed s : list Z :=
  (place (sroot s) (inode s) <$> (d_inode <$> sy_refs s)) ++ (place (sroot s) (inode s) <$> (sy_opens s).*1) ++
  sy_lost s ++ (sy_requests s ≫= request_owes (sroot s) (inode s) (file s)).
Definition client_refs s : list Z := (d_inode <$> sy_refs s) ++ expand (sy_releases s).

(** Open files, and the handles of the client. *)
Definition files s : list (Z * Z) :=
  ((λ o, (file s o.2, place (sroot s) (inode s) o.1)) <$> sy_opens s) ++
  (sy_requests s ≫= request_files (sroot s) (inode s) (file s)).
Definition handles s : list Z :=
  (sy_opens s).*2 ++ (sy_requests s ≫= λ q, option_list (call_closes (rq_call q))) ++ sy_unclosed s.

(** *** Names

    A leaf that somebody takes for the child [x] of [p]: the server, the client, an answer or
    a notification. *)
Definition client_name (root : Z) t (p : Z) (x : string) (n : Z) : Prop :=
  ∃ c d oc od, name_in t c x d ∧ ft_leaves t !! c = Some oc ∧ ft_leaves t !! d = Some od ∧
    p = (if decide (c = ft_root t) then root else lo_serverInode oc) ∧ n = lo_serverInode od.

Definition claim s (p : Z) (x : string) (n : Z) : Prop :=
  name_in (sv_tree (sy_server s)) p x n ∨ client_name (sroot s) (cl_tree (sy_client s)) p x n ∨
  (p, x, n) ∈ (sy_requests s ≫= λ q, stage_names (sroot s) (inode s) (rq_stage q)) ∨
  (p, x, n) ∈ (sy_notes s ≫= answer_names (sroot s) (inode s)).

(** The names that a step gives to leaves of the server are new ones. *)
Definition names_free s t : Prop := ∀ p x n, name_in t p x n → name_in (sv_tree (sy_server s)) p x n ∨
  (is_dot x = false ∧ ∀ n', ¬ claim s p x n').

(** *** Steps

    The bound on the number of references keeps the counters from overflowing; what the
    allocators of the server give is no address of the root of the client. *)
Definition Bounded s : Prop := Z.of_nat (length (owed s) + length (client_refs s)) < 2 ^ 63.
Definition server_address s (a : Z) : Prop := a ≠ 0 ∧ a ≠ 1 ∧ a ≠ croot s.
Definition client_address (a : Z) : Prop := a ≠ 1.

Inductive step s : System → Prop :=
  | step_ask id k refs opens jobs :
      permits s k refs opens → id ∉ sy_asked s → FuseCall id k (sy_client s) = Ret jobs →
      step s (mkSystem (sy_server s) (sy_client s) refs opens (requests_of id k jobs ++ sy_requests s)
        (releases_of jobs ++ sy_releases s) (sy_notes s) (sy_lost s) (sy_unclosed s) (id :: sy_asked s) (sy_replies s))
  | step_execute l1 id k job l2 m :
      sy_requests s = l1 ++ mkRequest id k (Asked job) :: l2 → ExecuteMain job (sy_client s) = Ret m →
      step s (mkSystem (sy_server s) (sy_client s) (sy_refs s) (sy_opens s) (l1 ++ mkRequest id k (Sent m) :: l2)
        (sy_releases s) (sy_notes s) (sy_lost s) (sy_unclosed s) (sy_asked s) (sy_replies s))
  | step_serve os alloc new_file l1 id k m l2 server a :
      Bounded s → OSOk os → AllocOk (server_address s) alloc → NewOk new_file →
      sy_requests s = l1 ++ mkRequest id k (Sent m) :: l2 →
      Serve os alloc new_file m (sy_server s) = Ret (server, a) → names_free s (sv_tree server) →
      step s (mkSystem server (sy_client s) (sy_refs s) (sy_opens s) (l1 ++ mkRequest id k (Answered a) :: l2)
        (sy_releases s) (sy_notes s) (sy_lost s) (sy_unclosed s) (sy_asked s) (sy_replies s))
  | step_react alloc new_handle l1 id k a l2 client r :
      Bounded s → AllocOk client_address alloc → NewOk new_handle →
      sy_requests s = l1 ++ mkRequest id k (Answered a) :: l2 →
      React alloc new_handle a (sy_client s) = Ret (client, Some r) →
      step s (mkSystem (sy_server s) client ((taken k r).1 ++ sy_refs s) ((taken k r).2 ++ sy_opens s) (l1 ++ l2)
        (sy_releases s) (sy_notes s) (given_up a r ++ sy_lost s) (left_open k a ++ sy_unclosed s) (sy_asked s) (r :: sy_replies s))
  | step_release l1 c n l2 client :
      sy_releases s = l1 ++ (c, n) :: l2 → ReleaseLeafRefJob c n (sy_client s) = Ret client →
      step s (mkSystem (sy_server s) client (sy_refs s) (sy_opens s) (sy_requests s)
        (l1 ++ l2) (sy_notes s) (sy_lost s) (sy_unclosed s) (sy_asked s) (sy_replies s))
  | step_watch os alloc event server answers :
      AllocOk (server_address s) alloc →
      ProcessInotifyEventJob os alloc event (sy_server s) = Ret (server, answers) → names_free s (sv_tree server) →
      step s (mkSystem server (sy_client s) (sy_refs s) (sy_opens s) (sy_requests s)
        (sy_releases s) (answers ++ sy_notes s) (sy_lost s) (sy_unclosed s) (sy_asked s) (sy_replies s))
  | step_notify alloc new_handle l1 a l2 client :
      AllocOk client_address alloc → sy_notes s = l1 ++ a :: l2 →
      React alloc new_handle a (sy_client s) = Ret (client, None) →
      step s (mkSystem (sy_server s) client (sy_refs s) (sy_opens s) (sy_requests s)
        (sy_releases s) (l1 ++ l2) (sy_lost s) (sy_unclosed s) (sy_asked s) (sy_replies s))
  | step_unhold a t :
      FileTree.unhold a (cl_tree (sy_client s)) = Ret t →
      step s (mkSystem (sy_server s) (Client.with_tree t (sy_client s)) (sy_refs s) (sy_opens s) (sy_requests s)
        (sy_releases s) (sy_notes s) (sy_lost s) (sy_unclosed s) (sy_asked s) (sy_replies s)).

(** Both sides start with a root, the server perhaps with files below it. *)
Definition start (server : Server P J) (root : string) (a : Z) : System :=
  mkSystem server (mkClient (FileTree.make root a) ∅) [] [] [] [] [] [] [] [] [].

(** ** The invariant *)

(** The job, the message and the answers of a call; [forgets] is what it forgets. *)
Section Shape.
Context (root : Z) (I H : Z → Z).

Definition job_for (id : Z) (k : call) (forgets : list (Z * Z)) : request_job :=
  match k with
  | Call_getattr c h => RequestGetAttrJob id c (match h with Some h => H h | None => 0 end)
  | Call_lookup c x => RequestLookupJob id c x
  | Call_opendir c fi => RequestOpenDirJob id c fi
  | Call_open c fi => RequestOpenJob id c fi
  | Call_release c h => RequestReleaseJob id c h
  | Call_releasedir c h => RequestReleaseDirJob id c h
  | Call_forget _ _ | Call_forgetmulti _ => RequestForgetMultiJob id forgets
  | Call_readdir c size off h => RequestReadDirJob id c size off (H h)
  | Call_readdirplus c size off h => RequestReadDirPlusJob id c size off (H h)
  end.

Definition message_for (id : Z) (k : call) (forgets : list (Z * Z)) : message :=
  match k with
  | Call_getattr c h => RequestGetAttr id c (I c) (match h with Some h => H h | None => 0 end)
  | Call_lookup c x => RequestLookup id (I c) x
  | Call_opendir c fi => RequestOpenDir id (I c) fi
  | Call_open c fi => RequestOpen id (I c) fi
  | Call_release c h => RequestRelease id (I c) (H h) h
  | Call_releasedir c h => RequestReleaseDir id (I c) (H h) h
  | Call_forget _ _ | Call_forgetmulti _ => RequestForgetMulti id forgets
  | Call_readdir c size off h => RequestReadDir id (I c) size off (H h)
  | Call_readdirplus c size off h => RequestReadDirPlus id c (I c) size off (H h)
  end.

Definition answers_call (id : Z) (k : call) (a : answer) : Prop :=
  match k, a with
  | Call_getattr c _, Plain (ResponseGetAttr id' ans) => id' = id ∧ ∀ i at', ans = inr (i, at') → i = c
  | Call_getattr c _, Plain (ResponseGetAttrRoot id' c') => id' = id ∧ c' = c
  | Call_lookup c x, Plain (ResponseLookup id' parent x' ans) => id' = id ∧ parent = I c ∧ x' = x
  | Call_opendir c fi, Plain (ResponseOpenDir id' ans) => id' = id ∧ ∃ rf, ans = inr (fi, rf)
  | Call_open c fi, Plain (ResponseOpen id' ans) => id' = id ∧ ∃ rf, ans = inr (fi, rf)
  | Call_release c h, Plain (ResponseRelease id' error h') => id' = id ∧ error = 0 ∧ h' = h
  | Call_releasedir c h, Plain (ResponseReleaseDir id' error h') => id' = id ∧ error = 0 ∧ h' = h
  | Call_releasedir c h, Plain (ResponseReleaseDirFailed id' error) => id' = id ∧ error ≠ 0
  | (Call_forget _ _ | Call_forgetmulti _), Plain (ResponseForgetMulti id') => id' = id
  | Call_readdir c _ _ _, Listing id' _ => id' = id
  | Call_readdirplus c _ _ _, Entries id' c' _ => id' = id ∧ c' = c
  | _, _ => False
  end.

Definition forgettable (forgets : list (Z * Z)) : Prop := Forall (λ f, f.1 ≠ 1 ∧ 0 < f.2) forgets.

Definition shape (q : request) : Prop :=
  match rq_stage q with
  | Asked job => ∃ forgets, forgettable forgets ∧ job = job_for (rq_id q) (rq_call q) forgets
  | Sent m => ∃ forgets, forgettable forgets ∧ m = message_for (rq_id q) (rq_call q) forgets
  | Answered a => answers_call (rq_id q) (rq_call q) a
  end.
End Shape.

(** The leaf [n] is alive, below [p] under the name [x]. *)
Definition placed t (p : Z) (x : string) (n : Z) : Prop := ∃ o op,
  ft_leaves t !! n = Some o ∧ lo_parent o = Some p ∧ lo_name o = x ∧
  ft_leaves t !! p = Some op ∧ (lo_serial op < lo_serial o)%nat.

Definition good_inode s (n : Z) : Prop := n ≠ 0 ∧ n ≠ 1 ∧ n ≠ croot s ∧ n ≠ sroot s.

(** What is under way about a request. *)
Record RequestOk s (q : request) : Prop := {
  rq_known : ∀ c, call_inode (rq_call q) = Some c → Known (sy_refs s) c;
  rq_uses : ∀ c h, call_uses (rq_call q) = Some (c, h) → (c, h) ∈ sy_opens s;
  rq_not_root : ∀ c h, rq_call q = Call_release c h → c ≠ 1;
  rq_shape : shape (inode s) (file s) q;
  rq_placed : ∀ p x n, (p, x, n) ∈ stage_names (sroot s) (inode s) (rq_stage q) → placed (sv_tree (sy_server s)) p x n;
}.

Definition is_note (a : answer) : Prop :=
  match a with
  | Plain (NotifyInvalInode _) => True
  | Plain (NotifyInvalEntry type _ _ _ _ _) => type = 1 ∨ type = 2 ∨ type = 3 ∨ type = 4
  | _ => False
  end.

Record DentryOk s (d : dentry) : Prop := {
  d_known : Known (sy_refs s) (d_parent d);
  d_real : d_inode d ≠ 1 ∧ d_inode d ≠ croot s;
  d_placed : placed (sv_tree (sy_server s)) (place (sroot s) (inode s) (d_parent d)) (d_name d) (inode s (d_inode d));
}.

Record Inv s : Prop := {
  i_server : ServerTree (server_address s) (sv_tree (sy_server s));
  i_client : ClientTree (good_inode s) (cl_tree (sy_client s));
  i_owed : Counted (ft_leaves (sv_tree (sy_server s))) (owed s);
  i_crefs : Counted (ft_leaves (cl_tree (sy_client s))) (client_refs s);
  i_releases : Forall (λ f, 0 < f.2) (sy_releases s);
  i_files : (map_to_list (live (sv_files (sy_server s)))).*1 ≡ₚ (files s).*1;
  i_fds : ∀ rf, is_Some (sv_files (sy_server s) !! rf) → rf ≠ 0;
  i_handles : (map_to_list (cl_handles (sy_client s))).*1 ≡ₚ handles s;
  i_ids : sy_asked s ≡ₚ (reply_request <$> sy_replies s) ++ (rq_id <$> sy_requests s);
  i_fresh : NoDup (sy_asked s);
  i_refs : ∀ d, d ∈ sy_refs s → DentryOk s d;
  i_opens : ∀ c h, (c, h) ∈ sy_opens s → Known (sy_refs s) c;
  i_requests : ∀ q, q ∈ sy_requests s → RequestOk s q;
  i_notes : Forall is_note (sy_notes s);
  i_names : ∀ p x n n', claim s p x n → claim s p x n' → n = n';
  i_good : ∀ p x n, claim s p x n → good_inode s n ∧ is_dot x = false;
  i_dirs : ∀ p x n, claim s p x n → p ≠ croot s;
}.

(** ** The view of a request *)

Section Views.
Context (root : Z) (I I' H H' : Z → Z).

Lemma place_ext c : I c = I' c → place root I c = place root I' c.
Proof. intros E. unfold place. by rewrite E. Qed.

Lemma request_files_ext q :
  (∀ c, call_inode (rq_call q) = Some c → I c = I' c) → (∀ h, call_closes (rq_call q) = Some h → H h = H' h) →
  request_files root I H q = request_files root I' H' q.
Proof.
  destruct q as [id k st]. unfold request_files, place. cbn [rq_call rq_stage]. intros HI HH.
  destruct k; cbn in HI, HH; try done; rewrite ?(HI _ eq_refl), ?(HH _ eq_refl); done.
Qed.

(** The names in an answer are those of leaves that it carries references of, in the
    directory of the request. *)
Lemma stage_names_owes q p x n :
  shape I H q → (p, x, n) ∈ stage_names root I (rq_stage q) →
  n ∈ stage_owes (rq_stage q) ∧ ∃ c, call_inode (rq_call q) = Some c ∧ p = place root I c.
Proof.
  destruct q as [id k st]. unfold shape. cbn [rq_call rq_stage rq_id]. destruct st as [j|m|a]; cbn [stage_names]; [by intros _ ?%not_elem_of_nil..|].
  intros Hs Hin. destruct a as [m|id' es|id' c' es]; [|by apply not_elem_of_nil in Hin|].
  - destruct m; cbn [answer_names] in Hin; try by apply not_elem_of_nil in Hin.
    + destruct answer as [?|[n' ?]]; [by apply not_elem_of_nil in Hin|]. apply list_elem_of_singleton in Hin as [= -> -> ->].
      cbn. split; [by left|]. destruct k; try done. cbn in Hs. destruct Hs as (_ & -> & _). by eexists.
    + by destruct k.
  - cbn [answer_names] in Hin. apply list_elem_of_fmap in Hin as (e & [= -> -> ->] & He). destruct k; try done. destruct Hs as [-> ->].
    split; [|by eexists]. cbn. apply list_elem_of_fmap. by exists e.
Qed.

Lemma stage_names_ext q :
  shape I H q → (∀ c, call_inode (rq_call q) = Some c → I c = I' c) →
  stage_names root I (rq_stage q) = stage_names root I' (rq_stage q).
Proof.
  destruct q as [id k st]. unfold shape. cbn [rq_call rq_stage rq_id]. destruct st as [j|m|a]; [done..|]. intros Hs HI.
  cbn. destruct a as [m|id' es|id' c' es]; [by destruct m|done|]. cbn. destruct k; try done. destruct Hs as [-> ->].
  by rewrite (place_ext _ (HI _ eq_refl)).
Qed.

Lemma shape_ext q :
  (∀ c, call_inode (rq_call q) = Some c → I c = I' c) → (∀ h, call_closes (rq_call q) = Some h → H h = H' h) →
  (∀ c h, call_uses (rq_call q) = Some (c, h) → H h = H' h) → shape I H q → shape I' H' q.
Proof.
  destruct q as [id k st]. unfold shape. cbn [rq_call rq_stage rq_id]. intros HI HH HU. destruct st as [j|m|a].
  - intros (f & Hf & ->). exists f. split; [done|]. destruct k; cbn in *; try done; try (by rewrite (HU _ _ eq_refl)).
    destruct handle; [by rewrite (HU _ _ eq_refl)|done].
  - intros (f & Hf & ->). exists f. split; [done|]. destruct k; cbn in *; rewrite ?(HI _ eq_refl); try done;
      try (by rewrite (HU _ _ eq_refl)); try (by rewrite (HH _ eq_refl)).
    destruct handle; [by rewrite (HU _ _ eq_refl)|done].
  - destruct k; try done. cbn. destruct a as [m|?|?]; try done. destruct m; try done. by rewrite (HI _ eq_refl).
Qed.

Lemma note_names a : is_note a → answer_names root I a = answer_names root I' a.
Proof. destruct a as [m|?|?]; [by destruct m|done..]. Qed.

End Views.

(** ** Consequences of the invariant *)

(** What is owed apart from some requests. *)
Definition rest s (l : list request) : list Z :=
  (place (sroot s) (inode s) <$> (d_inode <$> sy_refs s)) ++ (place (sroot s) (inode s) <$> (sy_opens s).*1) ++
  sy_lost s ++ (l ≫= request_owes (sroot s) (inode s) (file s)).

Lemma rest_split s l1 q l2 : rest s (l1 ++ q :: l2) ≡ₚ request_owes (sroot s) (inode s) (file s) q ++ rest s (l1 ++ l2).
Proof. unfold rest. rewrite !bind_app, bind_cons. solve_Permutation. Qed.

Lemma owed_split s l1 q l2 : sy_requests s = l1 ++ q :: l2 →
  owed s ≡ₚ request_owes (sroot s) (inode s) (file s) q ++ rest s (l1 ++ l2).
Proof. intros E. rewrite <- rest_split, <- E. done. Qed.

Lemma client_leaf s c : Inv s → c ∈ d_inode <$> sy_refs s →
  ∃ o, ft_leaves (cl_tree (sy_client s)) !! c = Some o ∧ c ≠ 1 ∧ c ≠ croot s ∧ good_inode s (lo_serverInode o).
Proof.
  intros Hi Hc. apply list_elem_of_fmap in Hc as Hd. destruct Hd as (d & -> & Hd).
  destruct (d_real _ _ (i_refs _ Hi d Hd)) as [H1 Hr]. destruct (proj2 (i_crefs _ Hi) (d_inode d)) as [o Ho].
  { unfold client_refs. apply elem_of_app. by left. }
  exists o. split_and!; [done..|]. by apply (ct_leaf _ _ (i_client _ Hi) _ o Ho).
Qed.

Lemma inode_leaf s c : Inv s → c ∈ d_inode <$> sy_refs s →
  ∃ o, ft_leaves (cl_tree (sy_client s)) !! c = Some o ∧ inode s c = lo_serverInode o ∧ good_inode s (inode s c).
Proof.
  intros Hi Hc. destruct (client_leaf s c Hi Hc) as (o & Ho & H1 & _ & Hg). exists o.
  assert (E : inode s c = lo_serverInode o); [|by rewrite E].
  unfold inode, inode_of, FUSE_ROOT_ID. rewrite (proj2 (Z.eqb_neq _ _) H1). by rewrite Ho.
Qed.

Lemma inode_root s : inode s 1 = 1.
Proof. done. Qed.

Lemma place_known s c : Inv s → Known (sy_refs s) c →
  (place (sroot s) (inode s) c = sroot s ∧ c = 1) ∨
  (c ∈ d_inode <$> sy_refs s ∧ place (sroot s) (inode s) c = inode s c ∧ good_inode s (inode s c)).
Proof.
  intros Hi [->|Hc]; [by left|right]. destruct (inode_leaf s c Hi Hc) as (o & _ & _ & Hg). split; [done|]. split; [|done].
  unfold place, addr, FUSE_ROOT_ID. destruct Hg as (_ & Hg & _). by rewrite (proj2 (Z.eqb_neq _ _) Hg).
Qed.

Lemma known_in_rest s c l : Inv s → Known (sy_refs s) c →
  place (sroot s) (inode s) c ∈ rest s l ∨ place (sroot s) (inode s) c = sroot s.
Proof.
  intros Hi Hc. destruct (place_known s c Hi Hc) as [[-> _]|(Hin & E & _)]; [by right|left].
  unfold rest. apply elem_of_app. left. apply list_elem_of_fmap. by exists c.
Qed.

(** The server knows the leaf of every inode that the kernel may name. *)
Lemma known_leaf s c : Inv s → Known (sy_refs s) c →
  ∃ o, ft_leaves (sv_tree (sy_server s)) !! place (sroot s) (inode s) c = Some o.
Proof.
  intros Hi Hc. destruct (known_in_rest s c (sy_requests s) Hi Hc) as [Hin|E].
  - by apply (proj2 (i_owed _ Hi)).
  - rewrite E. by apply (ok_root _ (proj1 (st_order _ _ (i_server _ Hi)))).
Qed.

Lemma placed_kept ok new gone t t' l p x n :
  serves ok new gone t t' → Counted (ft_leaves t) (gone ++ l) → n ∈ l → p ∈ l ∨ p = ft_root t → placed t p x n → placed t' p x n.
Proof.
  intros Hse Hc Hn Hp (o & op & Ho & Hpar & Hname & Hop & Hser).
  destruct (se_kept _ _ _ _ _ Hse l n o Hc Ho) as (o' & Ho' & E1 & E2 & E3 & _); [by left|].
  destruct (se_kept _ _ _ _ _ Hse l p op Hc Hop Hp) as (op' & Hop' & F1 & _).
  exists o', op'. split_and!; [done|congruence|congruence|done|lia].
Qed.

(** The names of a request stay those of leaves that are where they were. *)
Lemma names_kept s ok new gone t' l q :
  Inv s → serves ok new gone (sv_tree (sy_server s)) t' → Counted (ft_leaves (sv_tree (sy_server s))) (gone ++ rest s l) →
  q ∈ l → RequestOk s q → ∀ p x n, (p, x, n) ∈ stage_names (sroot s) (inode s) (rq_stage q) → placed t' p x n.
Proof.
  intros Hi Hse Hc Hq Hok p x n Hin. destruct (stage_names_owes _ _ (file s) q p x n (rq_shape _ _ Hok) Hin) as (Hn & c & Hcall & ->).
  eapply placed_kept; [exact Hse|exact Hc| | |by apply (rq_placed _ _ Hok)].
  - unfold rest. rewrite !elem_of_app. right; right; right. apply list_elem_of_bind. exists q. split; [|done].
    unfold request_owes. apply elem_of_app. by right.
  - by apply known_in_rest, (rq_known _ _ Hok).
Qed.

(** References of the kernel are still placed when the server keeps the rest. *)
Lemma dentry_kept s ok new gone t' l d :
  Inv s → serves ok new gone (sv_tree (sy_server s)) t' → Counted (ft_leaves (sv_tree (sy_server s))) (gone ++ rest s l) →
  d ∈ sy_refs s → placed t' (place (sroot s) (inode s) (d_parent d)) (d_name d) (inode s (d_inode d)).
Proof.
  intros Hi Hse Hc Hd. pose proof (i_refs _ Hi d Hd) as Hok. eapply placed_kept; [exact Hse|exact Hc| | |by apply Hok].
  - destruct (place_known s (d_inode d) Hi) as [[_ E]|(Hin & <- & _)].
    + right. by apply list_elem_of_fmap_2.
    + by apply (d_real _ _ Hok) in E.
    + unfold rest. apply elem_of_app. left. by apply list_elem_of_fmap_2.
  - apply known_in_rest; [done|apply Hok].
Qed.

(** ** Steps of the server *)

Lemma name_in_unique real t p x n n' : ServerTree real t → name_in t p x n → name_in t p x n' → n = n'.
Proof.
  intros Hs (o & Ho & Hin) (o' & Ho' & Hin'). simplify_eq. pose proof (st_names _ _ Hs p o Ho) as Hnd.
  apply list_elem_of_lookup in Hin as [j Hj]. apply list_elem_of_lookup in Hin' as [k Hk].
  assert (j = k) as ->.
  { eapply NoDup_lookup; [exact Hnd|rewrite list_lookup_fmap, Hj; done|by rewrite list_lookup_fmap, Hk]. }
  by simplify_eq.
Qed.

Lemma name_in_good real t p x n : ServerTree real t → name_in t p x n → real n ∧ n ≠ ft_root t.
Proof.
  intros Hs (o & Ho & Hin). destruct (child_alive t p o x n) as (on & Hon & _); [apply Hs|done|done|].
  split; [by apply (st_leaf _ _ Hs n on)|]. intros ->.
  destruct (st_child _ _ Hs p o x _ on Ho Hin Hon) as [E _]. rewrite (st_root _ _ Hs on Hon) in E. done.
Qed.

Lemma names_server s s' t' :
  Inv s → names_free s t' → ServerTree (server_address s) t' → ft_root t' = sroot s → (∀ n, good_inode s n → good_inode s' n) →
  (∀ p x n, claim s' p x n → claim s p x n ∨ name_in t' p x n) →
  (∀ p x n n', claim s' p x n → claim s' p x n' → n = n') ∧ (∀ p x n, claim s' p x n → good_inode s' n ∧ is_dot x = false) ∧
  ∀ p x n, claim s' p x n → p ≠ croot s.
Proof.
  intros Hi Hfree Hs Hroot Hgood Hsub. split_and!.
  - assert (Hmix : ∀ p x n n', claim s p x n → name_in t' p x n' → n = n').
    { intros p x n n' Hc Hn. destruct (Hfree p x n' Hn) as [Hold|[_ Hno]]; [|by destruct (Hno n)].
      eapply (i_names _ Hi); [done|by left]. }
    intros p x n n' [H1|H1]%Hsub [H2|H2]%Hsub; [by eapply (i_names _ Hi)|by eapply Hmix|symmetry; by eapply Hmix|by eapply name_in_unique].
  - intros p x n [H1|H1]%Hsub; [destruct (i_good _ Hi p x n H1); auto|].
    destruct (Hfree p x n H1) as [Hold|[Hdot _]]; [destruct (i_good _ Hi p x n); [by left|auto]|].
    split; [|done]. apply Hgood. destruct (name_in_good _ _ _ _ _ Hs H1) as [(?&?&?) Hr]. rewrite Hroot in Hr. done.
  - intros p x n [H1|(o & Ho & _)]%Hsub; [by apply (i_dirs _ Hi p x n)|]. by apply (st_leaf _ _ Hs p o).
Qed.

(** The system after a step of the server: the requests [ql] have become [qs]. *)
Definition after_server s (server : Server P J) (requests : list request) (notes : list answer) : System :=
  mkSystem server (sy_client s) (sy_refs s) (sy_opens s) requests (sy_releases s) notes (sy_lost s) (sy_unclosed s) (sy_asked s) (sy_replies s).

Lemma RequestOk_server s s' q :
  sy_client s' = sy_client s → sy_refs s' = sy_refs s → sy_opens s' = sy_opens s → sroot s' = sroot s →
  (∀ p x n, (p, x, n) ∈ stage_names (sroot s) (inode s) (rq_stage q) → placed (sv_tree (sy_server s')) p x n) →
  RequestOk s q → RequestOk s' q.
Proof.
  intros Ec Er Eo Eroot Hp [R1 R2 R3 R4 R5].
  assert (EI : inode s' = inode s) by (unfold inode; by rewrite Ec). assert (EH : file s' = file s) by (unfold file; by rewrite Ec).
  split; rewrite ?Er, ?Eo, ?EI, ?EH, ?Eroot; done.
Qed.

Lemma closes_calls (l : list request) :
  (l ≫= λ q, option_list (call_closes (rq_call q))) = (rq_call <$> l) ≫= λ k, option_list (call_closes k).
Proof. induction l as [|q l IH]; [done|]. rewrite bind_cons, fmap_cons, bind_cons. by rewrite IH. Qed.

Lemma Inv_server s server l1 ql qs l2 notes :
  let t := sv_tree (sy_server s) in
  let t' := sv_tree server in
  let s' := after_server s server (l1 ++ qs ++ l2) (notes ++ sy_notes s) in
  Inv s → sy_requests s = l1 ++ ql ++ l2 → rq_id <$> qs = rq_id <$> ql → rq_call <$> qs = rq_call <$> ql →
  serves (ServerTree (server_address s)) (qs ≫= request_owes (sroot s) (inode s) (file s))
    (ql ≫= request_owes (sroot s) (inode s) (file s)) t t' →
  (map_to_list (live (sv_files server))).*1 ≡ₚ (files s').*1 →
  (∀ rf, is_Some (sv_files server !! rf) → rf ≠ 0) →
  (∀ q, q ∈ qs → RequestOk s' q) → Forall is_note notes → names_free s t' →
  (∀ p x n, (p, x, n) ∈ (qs ≫= λ q, stage_names (sroot s) (inode s) (rq_stage q)) ∨
            (p, x, n) ∈ (notes ≫= answer_names (sroot s) (inode s)) → claim s p x n ∨ name_in t' p x n) →
  Inv s'.
Proof.
  intros t t' s' Hi Hreq Hids Hcalls Hse Hfiles Hfds Hqs Hnotes Hfree Hnames.
  pose proof (se_root _ _ _ _ _ Hse) as Hroot. assert (Hr : sroot s' = sroot s) by exact Hroot.
  assert (Hg : good_inode s' = good_inode s) by (unfold good_inode; by rewrite Hr).
  assert (Hc : Counted (ft_leaves t) ((ql ≫= request_owes (sroot s) (inode s) (file s)) ++ rest s (l1 ++ l2))).
  { eapply Counted_perm; [|exact (i_owed _ Hi)]. unfold owed, rest. rewrite Hreq, !bind_app. solve_Permutation. }
  destruct (names_server s s' t') as (Hn1 & Hn2 & Hn3); [done|done|apply Hse|done|by rewrite Hg| |].
  { intros p x n. unfold claim at 1. rewrite Hr. subst s'. cbn [sy_requests sy_notes sy_server after_server sy_client].
    change (inode (after_server s server (l1 ++ qs ++ l2) (notes ++ sy_notes s))) with (inode s).
    rewrite !bind_app, !elem_of_app. intros Hclaim.
    assert (Hold : claim s p x n ∨ name_in t' p x n ∨
      (p, x, n) ∈ (qs ≫= λ q, stage_names (sroot s) (inode s) (rq_stage q)) ∨
      (p, x, n) ∈ (notes ≫= answer_names (sroot s) (inode s))) by (unfold claim; rewrite Hreq, !bind_app, !elem_of_app; tauto).
    destruct Hold as [?|[?|?]]; [by left|by right|by apply Hnames]. }
  split; try done.
  - apply Hse.
  - rewrite Hg. apply (i_client _ Hi).
  - eapply Counted_perm; [|exact (se_counted _ _ _ _ _ Hse _ Hc)]. unfold owed, rest. rewrite Hr. subst s'. cbn.
    rewrite !bind_app. solve_Permutation.
  - apply (i_crefs _ Hi).
  - apply (i_releases _ Hi).
  - etrans; [apply (i_handles _ Hi)|]. unfold handles. rewrite Hreq. subst s'. cbn. f_equiv. rewrite !bind_app.
    assert (E : (qs ≫= λ q, option_list (call_closes (rq_call q))) = (ql ≫= λ q, option_list (call_closes (rq_call q)))); [|by rewrite E].
    by rewrite !closes_calls, Hcalls.
  - etrans; [apply (i_ids _ Hi)|]. rewrite Hreq. subst s'. cbn. by rewrite !fmap_app, Hids.
  - apply (i_fresh _ Hi).
  - intros d Hd. destruct (i_refs _ Hi d Hd) as [D1 D2 D3]. split; [done|done|]. rewrite Hr. exact (dentry_kept s _ _ _ t' (l1 ++ l2) d Hi Hse Hc Hd).
  - apply (i_opens _ Hi).
  - subst s'. cbn. intros q. rewrite !elem_of_app. intros [Hq|[Hq|Hq]]; [|by apply Hqs|].
    all: assert (Hok : RequestOk s q) by (apply (i_requests _ Hi); rewrite Hreq, !elem_of_app; tauto).
    all: apply (RequestOk_server s); [done..|exact Hr| |exact Hok]; apply (names_kept s _ _ _ t' (l1 ++ l2) q Hi Hse Hc); [apply elem_of_app; tauto|done].
  - subst s'. cbn. apply Forall_app. split; [done|apply (i_notes _ Hi)].
Qed.

(** *** Paths

    The path by which the kernel has found an inode: the names of its dentries. *)
Inductive found s : Z → list string → Prop :=
  | found_root o : ft_leaves (sv_tree (sy_server s)) !! sroot s = Some o → found s 1 [lo_name o]
  | found_in d p : d ∈ sy_refs s → found s (d_parent d) p → found s (d_inode d) (p ++ [d_name d]).

Lemma place_ref s d : Inv s → d ∈ sy_refs s → place (sroot s) (inode s) (d_inode d) = inode s (d_inode d).
Proof.
  intros Hi Hd. destruct (place_known s (d_inode d) Hi) as [[_ E]|(_ & E & _)]; [right; by apply list_elem_of_fmap_2| |done].
  by apply (d_real _ _ (i_refs _ Hi d Hd)) in E.
Qed.

Lemma found_path s c p : Inv s → found s c p → Path (sv_tree (sy_server s)) (place (sroot s) (inode s) c) p.
Proof.
  intros Hi. induction 1 as [o Ho|d p Hd Hp IH].
  - change (place (sroot s) (inode s) 1) with (sroot s). apply Path_root; [done|]. by apply (st_root _ _ (i_server _ Hi)).
  - rewrite (place_ref s d Hi Hd). destruct (d_placed _ _ (i_refs _ Hi d Hd)) as (o & op & Ho & Hpar & <- & Hop & Hser).
    by eapply Path_child.
Qed.

Lemma known_found s c : Inv s → Known (sy_refs s) c → ∃ p, found s c p.
Proof.
  intros Hi Hc. destruct (known_leaf s c Hi Hc) as [o Ho]. remember (lo_serial o) as n eqn:En.
  revert c o Hc Ho En. induction n as [n IH] using lt_wf_ind. intros c o Hc Ho ->.
  destruct (place_known s c Hi Hc) as [[E ->]|(Hin & E & _)].
  - eexists. apply found_root. by rewrite <- E.
  - apply list_elem_of_fmap in Hin as (d & -> & Hd). pose proof (i_refs _ Hi d Hd) as [D1 _ (od & op & Hod & _ & _ & Hop & Hser)].
    rewrite <- E in Hod. simplify_eq. destruct (IH (lo_serial op) Hser (d_parent d) op D1 Hop eq_refl) as [p Hp].
    eexists. by apply found_in.
Qed.

(** *** Answers *)

Lemma request_files_keys root root' I I' H q : (request_files root I H q).*1 = (request_files root' I' H q).*1.
Proof. unfold request_files. by repeat case_match. Qed.

Lemma files_keys s : (files s).*1 = (file s <$> (sy_opens s).*2) ++ (sy_requests s ≫= λ q, (request_files 0 id (file s) q).*1).
Proof.
  unfold files. rewrite fmap_app. f_equal; [by rewrite <- !list_fmap_compose|].
  induction (sy_requests s) as [|q l IH]; [done|]. rewrite !bind_cons, fmap_app, IH. f_equal. apply request_files_keys.
Qed.

(** A message was answered: what has to be shown. *)
Lemma Inv_answered s server l1 id k m l2 a :
  let q := mkRequest id k (Sent m) in
  let q' := mkRequest id k (Answered a) in
  Inv s → sy_requests s = l1 ++ q :: l2 →
  serves (ServerTree (server_address s)) (request_owes (sroot s) (inode s) (file s) q')
    (request_owes (sroot s) (inode s) (file s) q) (sv_tree (sy_server s)) (sv_tree server) →
  (∀ F, (map_to_list (live (sv_files (sy_server s)))).*1 ≡ₚ (request_files 0 Datatypes.id (file s) q).*1 ++ F →
     (map_to_list (live (sv_files server))).*1 ≡ₚ (request_files 0 Datatypes.id (file s) q').*1 ++ F) →
  (∀ rf, is_Some (sv_files server !! rf) → rf ≠ 0) →
  answers_call (inode s) id k a →
  (∀ p x n, (p, x, n) ∈ answer_names (sroot s) (inode s) a → name_in (sv_tree server) p x n) →
  names_free s (sv_tree server) → Inv (after_server s server (l1 ++ q' :: l2) (sy_notes s)).
Proof.
  intros q q' Hi Hreq Hse Hfiles Hfds Hans Hnames Hfree.
  assert (Hok : RequestOk s q) by (apply (i_requests _ Hi); rewrite Hreq; apply elem_of_app; right; by left).
  apply (Inv_server s server l1 [q] [q'] l2 []); try done.
  - cbn [mbind list_bind]. by rewrite !app_nil_r.
  - change ([q'] ++ l2) with (q' :: l2). rewrite files_keys. cbn [after_server sy_opens sy_requests]. rewrite bind_app, bind_cons.
    change (file (after_server _ _ _ _)) with (file s). set (f := λ q, (request_files 0 Datatypes.id (file s) q).*1).
    etrans; [apply (Hfiles ((file s <$> (sy_opens s).*2) ++ (l1 ≫= f) ++ (l2 ≫= f)))|unfold f; solve_Permutation].
    etrans; [apply (i_files _ Hi)|]. rewrite files_keys, Hreq, bind_app, bind_cons. unfold f. solve_Permutation.
  - intros ? ->%list_elem_of_singleton. destruct Hok as [R1 R2 R3 R4 R5]. split; [done..|].
    intros p x n Hin. change (sroot (after_server _ _ _ _)) with (ft_root (sv_tree server)) in Hin.
    rewrite (se_root _ _ _ _ _ Hse) in Hin. destruct (Hnames p x n Hin) as (o & Ho & Hc).
    pose proof (se_tree _ _ _ _ _ Hse) as Hs. destruct (child_alive _ _ _ _ _ (st_order _ _ Hs) Ho Hc) as (on & Hon & Hser).
    destruct (st_child _ _ Hs _ _ _ _ _ Ho Hc Hon) as [? ?]. exists on, o. by split_and!.
  - intros p x n [Hin|?%not_elem_of_nil]; [|done]. right. apply Hnames. cbn [mbind list_bind] in Hin. by rewrite app_nil_r in Hin.
Qed.

(** *** Serving the requests *)

Section Serving.
Context (s : System) (os : OS) (alloc : FileTree P J → Z) (new_file : gmap Z Z → Z).
Context (Hi : Inv s) (Hb : Bounded s) (Hos : OSOk os) (Halloc : AllocOk (server_address s) alloc) (Hnew : NewOk new_file).

(** The message is answered, and [Inv_answered] applies. *)
Definition served (id : Z) (k : call) (m : message) : Prop := ∃ server a,
  Serve os alloc new_file m (sy_server s) = Ret (server, a) ∧ (names_free s (sv_tree server) →
  serves (ServerTree (server_address s)) (request_owes (sroot s) (inode s) (file s) (mkRequest id k (Answered a))) (request_owes (sroot s) (inode s) (file s) (mkRequest id k (Sent m))) (sv_tree (sy_server s)) (sv_tree server) ∧
  (∀ F, (map_to_list (live (sv_files (sy_server s)))).*1 ≡ₚ (request_files 0 Datatypes.id (file s) (mkRequest id k (Sent m))).*1 ++ F →
     (map_to_list (live (sv_files server))).*1 ≡ₚ (request_files 0 Datatypes.id (file s) (mkRequest id k (Answered a))).*1 ++ F) ∧
  (∀ rf, is_Some (sv_files server !! rf) → rf ≠ 0) ∧
  answers_call (inode s) id k a ∧
  ∀ p x n, (p, x, n) ∈ answer_names (sroot s) (inode s) a → name_in (sv_tree server) p x n).

Lemma owed_bound : Z.of_nat (length (owed s)) < 2 ^ 63.
Proof. unfold Bounded in Hb. lia. Qed.

Lemma keys_elem (m : gmap Z Z) k : k ∈ (map_to_list m).*1 ↔ ∃ v, m !! k = Some v.
Proof.
  rewrite list_elem_of_fmap. split.
  - intros ([k' v] & -> & Hin%elem_of_map_to_list). by exists v.
  - intros [v Hv]. exists (k, v). split; [done|]. by apply elem_of_map_to_list.
Qed.

(** A file that a request holds is open. *)
Lemma request_file_open q rf a : q ∈ sy_requests s → (rf, a) ∈ request_files (sroot s) (inode s) (file s) q →
  ∃ fd, sv_files (sy_server s) !! rf = Some fd ∧ rf ≠ 0 ∧ fd ≠ -1.
Proof.
  intros Hq Hin. assert (Hk : rf ∈ (map_to_list (live (sv_files (sy_server s)))).*1).
  { rewrite (i_files _ Hi). unfold files. rewrite fmap_app. apply elem_of_app. right. apply list_elem_of_fmap. exists (rf, a).
    split; [done|]. apply list_elem_of_bind. by exists q. }
  apply keys_elem in Hk as [fd [Hfd Hne]%live_lookup]. exists fd. split; [done|]. split; [|done]. by apply (i_fds _ Hi).
Qed.

Lemma opens_file_open c h : (c, h) ∈ sy_opens s → ∃ fd, sv_files (sy_server s) !! file s h = Some fd ∧ fd ≠ -1.
Proof.
  intros Hin. assert (Hk : file s h ∈ (map_to_list (live (sv_files (sy_server s)))).*1).
  { rewrite (i_files _ Hi), files_keys. apply elem_of_app. left. apply list_elem_of_fmap_2, list_elem_of_fmap. by exists (c, h). }
  apply keys_elem in Hk as [fd Hfd%live_lookup]. by exists fd.
Qed.

(** Messages that only read. *)
Lemma served_reading id k m a :
  Serve os alloc new_file m (sy_server s) = Ret (sy_server s, a) → request_owes (sroot s) (inode s) (file s) (mkRequest id k (Sent m)) = [] →
  request_owes (sroot s) (inode s) (file s) (mkRequest id k (Answered a)) = [] →
  request_files 0 Datatypes.id (file s) (mkRequest id k (Sent m)) = [] →
  request_files 0 Datatypes.id (file s) (mkRequest id k (Answered a)) = [] →
  answers_call (inode s) id k a → answer_names (sroot s) (inode s) a = [] → served id k m.
Proof.
  intros E E1 E2 F1 F2 Ha Hn. exists (sy_server s), a. split; [done|]. intros _. rewrite E1, E2, F1, F2, Hn. split_and!; [|done| |done|].
  - by apply serves_refl, (i_server _ Hi).
  - apply (i_fds _ Hi).
  - by intros p x n ?%not_elem_of_nil.
Qed.

Lemma served_getattr id c h : Known (sy_refs s) c → (∀ h', h = Some h' → (c, h') ∈ sy_opens s) →
  served id (Call_getattr c h) (message_for (inode s) (file s) id (Call_getattr c h) []).
Proof.
  intros Hc Hh. destruct (known_leaf s c Hi Hc) as [o Ho]. destruct (known_found s c Hi Hc) as [p Hp%(found_path s c p Hi)].
  destruct (ResponseGetAttrJob_returns os id c (inode s c) (match h with Some h => file s h | None => 0 end) (sy_server s) o p Ho Hp)
    as (m & E & Hm).
  { intros Hrf. destruct h as [h|]; [|done]. apply (opens_file_open c h). by apply Hh. }
  eapply served_reading; [cbn; rewrite E; done|done|..].
  all: destruct Hm as [->|(ans & -> & Hans)]; try done.
Qed.

Lemma served_lookup id c x : Known (sy_refs s) c → served id (Call_lookup c x) (RequestLookup id (inode s c) x).
Proof.
  intros Hc. destruct (known_leaf s c Hi Hc) as [o Ho]. destruct (known_found s c Hi Hc) as [p Hp%(found_path s c p Hi)].
  destruct (ResponseLookupJob_serves _ os alloc Halloc id (inode s c) x (sy_server s) o p (owed s) (i_server _ Hi) Ho Hp (i_owed _ Hi) owed_bound)
    as (t' & ans & E & Hans).
  exists (Server.with_tree t' (sy_server s)), (Plain (ResponseLookup id (inode s c) x ans)). split; [cbn; by rewrite E|]. intros _.
  split_and!; [by destruct ans as [?|[??]]; [|apply Hans]|done|apply (i_fds _ Hi)|done|].
  intros q y n. destruct ans as [?|[n' ?]]; [by intros ?%not_elem_of_nil|]. intros [= -> -> ->]%list_elem_of_singleton. apply Hans.
Qed.

Lemma served_opened id k m a c rf server' :
  opened (server_address s) new_file (place (sroot s) (inode s) c) (sy_server s) server' → rf = new_file (sv_files (sy_server s)) →
  Serve os alloc new_file m (sy_server s) = Ret (server', a) →
  request_owes (sroot s) (inode s) (file s) (mkRequest id k (Sent m)) = [] → request_owes (sroot s) (inode s) (file s) (mkRequest id k (Answered a)) = [place (sroot s) (inode s) c] →
  (request_files 0 Datatypes.id (file s) (mkRequest id k (Sent m))).*1 = [] →
  (request_files 0 Datatypes.id (file s) (mkRequest id k (Answered a))).*1 = [rf] →
  answers_call (inode s) id k a → answer_names (sroot s) (inode s) a = [] → served id k m.
Proof.
  intros (fd & Hfd & Hse & _ & Hf) -> E E1 E2 F1 F2 Ha Hn. exists server', a. split; [done|]. intros _. rewrite E1, E2, F1, F2, Hn, Hf.
  destruct (Hnew (sv_files (sy_server s))) as [Hfresh H0]. split_and!; [done| | |done|].
  - intros F EF. rewrite live_insert by done. rewrite map_to_list_insert by by apply map_lookup_filter_None_2; left.
    by rewrite fmap_cons, EF.
  - intros rf. rewrite lookup_insert_is_Some'. intros [<-|Hl]; [done|]. by apply (i_fds _ Hi).
  - by intros p x n ?%not_elem_of_nil.
Qed.

(** The request is served, or the file cannot be opened and the server stops. *)
Definition served_or_refused id k m : Prop :=
  (refuses os m (sy_server s) ∧ Serve os alloc new_file m (sy_server s) = Err AssertFails) ∨ served id k m.

Lemma served_open id c fi : Known (sy_refs s) c → served_or_refused id (Call_open c fi) (RequestOpen id (inode s c) fi).
Proof.
  intros Hc. destruct (known_leaf s c Hi Hc) as [o Ho]. destruct (known_found s c Hi Hc) as [p Hp%(found_path s c p Hi)].
  destruct (ResponseOpenJob_serves _ os new_file Hos id (inode s c) fi (sy_server s) o p (owed s) (i_server _ Hi) Ho Hp (i_owed _ Hi) owed_bound)
    as [[En E]|(s' & E & Ho')].
  { left. split; [|cbn; by rewrite E]. exists p. split; [by apply GetFullPath_Path|done]. }
  right. eapply served_opened; [exact Ho'|done|cbn; rewrite E; done|done|done|done|done|cbn; eauto|done].
Qed.

Lemma served_opendir id c fi : Known (sy_refs s) c → served_or_refused id (Call_opendir c fi) (RequestOpenDir id (inode s c) fi).
Proof.
  intros Hc. destruct (known_leaf s c Hi Hc) as [o Ho]. destruct (known_found s c Hi Hc) as [p Hp%(found_path s c p Hi)].
  destruct (ResponseOpenDirJob_serves _ os new_file Hos id (inode s c) fi (sy_server s) o p (owed s) (i_server _ Hi) Ho Hp (i_owed _ Hi) owed_bound)
    as [[En E]|(s' & E & Ho')].
  { left. split; [|cbn; by rewrite E]. exists p. split; [by apply GetFullPath_Path|done]. }
  right. eapply served_opened; [exact Ho'|done|cbn; rewrite E; done|done|done|done|done|cbn; eauto|done].
Qed.

Lemma released_files rf (files files' : gmap Z Z) F fd : files !! rf = Some fd → fd ≠ -1 → live files' = delete rf (live files) →
  (map_to_list (live files)).*1 ≡ₚ rf :: F → (map_to_list (live files')).*1 ≡ₚ F.
Proof.
  intros Hrf Hfd -> E. rewrite <- (map_to_list_delete (live files) rf fd) in E by by apply live_lookup. rewrite fmap_cons in E.
  by apply (Permutation_cons_inv (a := rf)).
Qed.

Lemma served_released id k m a c h server' :
  (∃ q, q ∈ sy_requests s ∧ (file s h, place (sroot s) (inode s) c) ∈ request_files (sroot s) (inode s) (file s) q) →
  released (server_address s) (place (sroot s) (inode s) c) (file s h) (sy_server s) server' →
  Serve os alloc new_file m (sy_server s) = Ret (server', a) →
  request_owes (sroot s) (inode s) (file s) (mkRequest id k (Sent m)) = [place (sroot s) (inode s) c] →
  request_owes (sroot s) (inode s) (file s) (mkRequest id k (Answered a)) = [] →
  (request_files 0 Datatypes.id (file s) (mkRequest id k (Sent m))).*1 = [file s h] →
  (request_files 0 Datatypes.id (file s) (mkRequest id k (Answered a))).*1 = [] →
  answers_call (inode s) id k a → answer_names (sroot s) (inode s) a = [] → served id k m.
Proof.
  intros (q & Hq & Hin) (Hse & _ & Hf & Hsub) E E1 E2 F1 F2 Ha Hn. exists server', a. split; [done|]. intros _. rewrite E1, E2, F1, F2, Hn.
  destruct (request_file_open q _ _ Hq Hin) as (fd & Hfd & _ & Hne). split_and!; [done| | |done|].
  - intros F EF. eapply released_files; [exact Hfd|exact Hne|exact Hf|exact EF].
  - intros rf Hrf. by apply (i_fds _ Hi), Hsub.
  - by intros p x n ?%not_elem_of_nil.
Qed.

Lemma served_release l1 id c h l2 : c ≠ 1 → Known (sy_refs s) c →
  sy_requests s = l1 ++ mkRequest id (Call_release c h) (Sent (RequestRelease id (inode s c) (file s h) h)) :: l2 →
  served id (Call_release c h) (RequestRelease id (inode s c) (file s h) h).
Proof.
  intros Hc1 Hc Hreq. pose proof (owed_split s _ _ _ Hreq) as Hsplit. cbn in Hsplit.
  destruct (place_known s c Hi Hc) as [[_ E1]|(_ & Ep & Hg)]; [done|].
  assert (Hfile : ∃ q, q ∈ sy_requests s ∧ (file s h, place (sroot s) (inode s) c) ∈ request_files (sroot s) (inode s) (file s) q).
  { eexists. split; [rewrite Hreq; apply elem_of_app; right; by left|by left]. }
  destruct Hfile as (q & Hq & Hin). destruct (request_file_open q _ _ Hq Hin) as (fd & Hfd & H0 & _).
  destruct (ResponseReleaseJob_serves (server_address s) id (inode s c) (file s h) h (sy_server s) (rest s (l1 ++ l2)) fd) as (s' & E & Hrel);
    [apply (i_server _ Hi)|apply Hg| |done|done|].
  { eapply Counted_perm; [|apply (i_owed _ Hi)]. by rewrite Hsplit, Ep. }
  eapply served_released; [by exists q|exact Hrel|cbn; rewrite E; done|done..].
Qed.

Lemma served_releasedir l1 id c h l2 : Known (sy_refs s) c →
  sy_requests s = l1 ++ mkRequest id (Call_releasedir c h) (Sent (RequestReleaseDir id (inode s c) (file s h) h)) :: l2 →
  served id (Call_releasedir c h) (RequestReleaseDir id (inode s c) (file s h) h).
Proof.
  intros Hc Hreq. pose proof (owed_split s _ _ _ Hreq) as Hsplit. cbn in Hsplit.
  assert (Hfile : ∃ q, q ∈ sy_requests s ∧ (file s h, place (sroot s) (inode s) c) ∈ request_files (sroot s) (inode s) (file s) q).
  { eexists. split; [rewrite Hreq; apply elem_of_app; right; by left|by left]. }
  destruct Hfile as (q & Hq & Hin). destruct (request_file_open q _ _ Hq Hin) as (fd & Hfd & H0 & Hfd1).
  destruct (ResponseReleaseDirJob_serves (server_address s) os Hos id (inode s c) (file s h) h (sy_server s) (rest s (l1 ++ l2)) fd) as (s' & m & E & Hm & Hrel);
    [apply (i_server _ Hi)| |done|done|done|].
  { eapply Counted_perm; [|apply (i_owed _ Hi)]. by rewrite Hsplit. }
  destruct Hm as [->|(errno & He & ->)]; (eapply served_released; [by exists q|exact Hrel|cbn; rewrite E; done|done..]).
Qed.

Lemma served_forget l1 id k forgets l2 : (∃ c n, k = Call_forget c n) ∨ (∃ fs, k = Call_forgetmulti fs) → forgettable forgets →
  sy_requests s = l1 ++ mkRequest id k (Sent (RequestForgetMulti id forgets)) :: l2 → served id k (RequestForgetMulti id forgets).
Proof.
  intros Hk Hf Hreq. pose proof (owed_split s _ _ _ Hreq) as Hsplit.
  assert (Hfiles : ∀ root I st, request_files root I (file s) (mkRequest id k st) = []).
  { intros root I st. by destruct Hk as [(? & ? & ->)|(? & ->)]. }
  unfold request_owes in Hsplit. rewrite Hfiles in Hsplit. cbn in Hsplit.
  destruct (forget_fold (server_address s) forgets (sv_tree (sy_server s)) (rest s (l1 ++ l2))) as (t' & E & Hse & _);
    [apply (i_server _ Hi)|done|by eapply Counted_perm; [|apply (i_owed _ Hi)]|].
  exists (Server.with_tree t' (sy_server s)), (Plain (ResponseForgetMulti id)). unfold Serve, ResponseForgetMultiJob. rewrite E.
  split; [done|]. intros _. unfold request_owes. rewrite !Hfiles. split_and!; [done|done|apply (i_fds _ Hi)| |].
  - by destruct Hk as [(? & ? & ->)|(? & ->)].
  - by intros p x n ?%not_elem_of_nil.
Qed.

Lemma served_readdir id c size off h : Known (sy_refs s) c →
  served id (Call_readdir c size off h) (RequestReadDir id (inode s c) size off (file s h)).
Proof.
  intros Hc. destruct (known_leaf s c Hi Hc) as [o Ho]. eapply served_reading; try done.
  - cbn. unfold ResponseReadDirJob. rewrite (GetLeaf_at (inode s c) _ _ Ho). done.
  - done.
  - done.
  - done.
Qed.

Lemma served_readdirplus id c size off h : Known (sy_refs s) c →
  served id (Call_readdirplus c size off h) (RequestReadDirPlus id c (inode s c) size off (file s h)).
Proof.
  intros Hc. destruct (known_leaf s c Hi Hc) as [o Ho]. destruct (known_found s c Hi Hc) as [p Hp%(found_path s c p Hi)].
  destruct (ResponseReadDirPlusJob_serves (server_address s) os alloc Halloc id c (inode s c) size off (file s h) (sy_server s) o p (owed s)
    (i_server _ Hi) Ho Hp (i_owed _ Hi) owed_bound) as (t' & es & E & Hse & Hes).
  exists (Server.with_tree t' (sy_server s)), (Entries id c es). split; [cbn; by rewrite E|]. intros Hfree.
  split_and!; [|done|apply (i_fds _ Hi)|done|].
  - apply Hse. intros x n Hx. destruct (Hfree _ x n Hx) as [Hold|[Hd _]]; [|done].
    by apply (i_good _ Hi (FileTree.address (inode s c) (sv_tree (sy_server s))) x n); left.
  - cbn. intros q x n (e & [= -> -> ->] & He)%list_elem_of_fmap. by apply Hes.
Qed.

(** Every request is served, and the invariant holds again. *)
Lemma serve_returns l1 id k m l2 : sy_requests s = l1 ++ mkRequest id k (Sent m) :: l2 →
  (refuses os m (sy_server s) ∧ Serve os alloc new_file m (sy_server s) = Err AssertFails) ∨
  ∃ server a, Serve os alloc new_file m (sy_server s) = Ret (server, a) ∧
    (names_free s (sv_tree server) → Inv (after_server s server (l1 ++ mkRequest id k (Answered a) :: l2) (sy_notes s))).
Proof.
  intros Hreq. assert (Hok : RequestOk s (mkRequest id k (Sent m))) by (apply (i_requests _ Hi); rewrite Hreq; apply elem_of_app; right; by left).
  destruct Hok as [R1 R2 R3 (forgets & Hf & Em) _]. cbn [rq_call rq_id] in *. subst m.
  assert (Hserved : served_or_refused id k (message_for (inode s) (file s) id k forgets)).
  { destruct k as [c h|c x|c fi|c fi|c h|c h|c n|fs|c size off h|c size off h]; cbn in *.
    - right. apply served_getattr; [by apply R1|]. intros h' ->. by apply R2.
    - right. apply served_lookup, R1, eq_refl.
    - apply served_opendir, R1, eq_refl.
    - apply served_open, R1, eq_refl.
    - right. exact (served_release l1 id c h l2 (R3 c h eq_refl) (R1 c eq_refl) Hreq).
    - right. exact (served_releasedir l1 id c h l2 (R1 c eq_refl) Hreq).
    - right. eapply served_forget; [left; eauto|exact Hf|exact Hreq].
    - right. eapply served_forget; [right; eauto|exact Hf|exact Hreq].
    - right. apply served_readdir, R1, eq_refl.
    - right. apply served_readdirplus, R1, eq_refl. }
  destruct Hserved as [Hrefused|(server & a & E & H)]; [by left|right]. exists server, a. split; [done|]. intros Hfree. destruct (H Hfree) as (H1 & H2 & H3 & H4 & H5).
  by eapply Inv_answered.
Qed.

End Serving.

(** Every change on the disk is told, and the invariant holds again. *)
Lemma watch_returns s os alloc event :
  Inv s → AllocOk (server_address s) alloc →
  ∃ server answers, ProcessInotifyEventJob os alloc event (sy_server s) = Ret (server, answers) ∧
    (names_free s (sv_tree server) → Inv (after_server s server (sy_requests s) (answers ++ sy_notes s))).
Proof.
  intros Hi Halloc. destruct (ProcessInotifyEventJob_tells _ os alloc Halloc event (sy_server s) (i_server _ Hi)) as (t' & answers & E & Hse & Hnote).
  exists (Server.with_tree t' (sy_server s)), answers. split; [done|]. intros Hfree.
  rewrite Forall_forall in Hnote. apply (Inv_server s _ [] [] [] (sy_requests s)); try done.
  - rewrite files_keys. etrans; [apply (i_files _ Hi)|]. by rewrite files_keys.
  - apply (i_fds _ Hi).
  - by intros q ?%not_elem_of_nil.
  - apply Forall_forall. intros a Ha. specialize (Hnote a Ha). destruct a as [m|?|?]; [destruct m|..]; try done. cbn in *. tauto.
  - intros p x n [?%not_elem_of_nil|Hin]; [done|]. right. apply list_elem_of_bind in Hin as (a & Hin & Ha). specialize (Hnote a Ha).
    destruct a as [m|?|?]; [destruct m|..]; try done; try by apply not_elem_of_nil in Hin. cbn in Hin, Hnote.
    destruct (_ || _) eqn:E2; [|by apply not_elem_of_nil in Hin].
    apply list_elem_of_singleton in Hin as [= -> -> ->]. destruct Hnote as [[_ H]|[-> | ->]]; done.
Qed.

(** A request goes on without the trees. *)
Lemma Inv_restage s l1 id k st st' l2 :
  Inv s → sy_requests s = l1 ++ mkRequest id k st :: l2 → stage_owes st' = stage_owes st →
  (∀ root I H, request_files root I H (mkRequest id k st') = request_files root I H (mkRequest id k st)) →
  (∀ y, y ∈ stage_names (sroot s) (inode s) st' → y ∈ stage_names (sroot s) (inode s) st) →
  shape (inode s) (file s) (mkRequest id k st') → Inv (after_server s (sy_server s) (l1 ++ mkRequest id k st' :: l2) (sy_notes s)).
Proof.
  intros Hi Hreq Ho Hf Hn Hsh. set (q := mkRequest id k st). set (q' := mkRequest id k st').
  assert (Hq : q ∈ sy_requests s) by (rewrite Hreq; apply elem_of_app; right; by left).
  pose proof (i_requests _ Hi q Hq) as [R1 R2 R3 R4 R5].
  apply (Inv_server s (sy_server s) l1 [q] [q'] l2 []); try done.
  - rewrite !bind_cons. unfold request_owes. rewrite Hf. cbn [rq_stage q q']. rewrite Ho. split; [apply (i_server _ Hi)|done|done|].
    intros l a o _ Ha _. by exists o.
  - change ([q'] ++ l2) with (q' :: l2). rewrite (i_files _ Hi), !files_keys. cbn [after_server sy_requests sy_opens].
    rewrite Hreq, !bind_app, !bind_cons. unfold q'. rewrite Hf. done.
  - apply (i_fds _ Hi).
  - intros ? ->%list_elem_of_singleton. split; [done..|]. intros p x n Hin. by apply R5, Hn.
  - intros p x n Hin. by left.
  - intros p x n [Hin|?%not_elem_of_nil]; [|done]. left. right; right; left. apply list_elem_of_bind. exists q. split; [|done].
    rewrite bind_cons in Hin. cbn in Hin. rewrite app_nil_r in Hin. by apply Hn.
Qed.

(** ** Steps of the client *)

(** Inodes of the kernel stay what they are when the client keeps its other references. *)
Lemma inode_kept s ok new gone l t' c :
  Inv s → serves ok new gone (cl_tree (sy_client s)) t' → client_refs s ≡ₚ gone ++ l →
  (∀ c, c ∈ d_inode <$> sy_refs s → c ∈ l) → Known (sy_refs s) c → inode_of t' c = inode s c.
Proof.
  intros Hi Hse Hl Hin [->|Hc]; [done|]. destruct (client_leaf s c Hi Hc) as (o & Ho & H1 & _ & _).
  destruct (se_kept _ _ _ _ _ Hse l c o) as (o' & Ho' & _ & _ & _ & E);
    [by rewrite <- Hl; apply (i_crefs _ Hi)|done|left; by apply Hin|].
  unfold inode, inode_of, FUSE_ROOT_ID. rewrite (proj2 (Z.eqb_neq _ _) H1), Ho. by rewrite Ho', E.
Qed.

(** A request that is in order stays so when its inode and files do. *)
Lemma RequestOk_client s s' q :
  sy_server s' = sy_server s → (∀ c, Known (sy_refs s) c → inode s' c = inode s c ∧ Known (sy_refs s') c) →
  (∀ o, o ∈ sy_opens s → o ∈ sy_opens s') →
  (∀ h, h ∈ (sy_opens s).*2 ∨ call_closes (rq_call q) = Some h → file s' h = file s h) →
  RequestOk s q → RequestOk s' q ∧
    (∀ root, request_files root (inode s') (file s') q = request_files root (inode s) (file s) q) ∧
    (∀ root, stage_names root (inode s') (rq_stage q) = stage_names root (inode s) (rq_stage q)).
Proof.
  intros Es HI Ho HH [R1 R2 R3 R4 R5].
  assert (HI' : ∀ c, call_inode (rq_call q) = Some c → inode s' c = inode s c) by (intros c Hc; by apply HI, R1).
  assert (HH' : ∀ h, call_closes (rq_call q) = Some h → file s' h = file s h) by (intros h Hh; apply HH; by right).
  assert (HU' : ∀ c h, call_uses (rq_call q) = Some (c, h) → file s' h = file s h).
  { intros c h Hh. apply HH. left. apply list_elem_of_fmap. exists (c, h). split; [done|]. by apply R2. }
  assert (En : ∀ root, stage_names root (inode s') (rq_stage q) = stage_names root (inode s) (rq_stage q)).
  { intros root. symmetry. eapply stage_names_ext; [exact R4|]. intros c Hc. symmetry. by apply HI'. }
  split; [split|split; [|done]].
  - intros c Hc. by apply HI, R1.
  - intros c h Hh. by apply Ho, R2.
  - done.
  - eapply shape_ext; [..|exact R4]; intros; symmetry; eauto.
  - intros p x n Hin. unfold sroot in Hin. rewrite Es in *. rewrite En in Hin. by apply R5.
  - intros root. by apply request_files_ext.
Qed.

Lemma client_name_within root t t' p x n :
  InOrder t → ft_root t' = ft_root t → within t t' → client_name root t' p x n → client_name root t p x n.
Proof.
  intros Hok Hroot Hw (c & d & oc & od & Hin & Hc & Hd & -> & ->). destruct (Hw c oc Hc) as (oc0 & Hc0 & (_ & _ & _ & Ec) & _).
  destruct (Hw d od Hd) as (od0 & Hd0 & (_ & _ & _ & Ed) & _). exists c, d, oc0, od0.
  split_and!; [by eapply name_in_within|done|done|by rewrite Hroot, Ec|done].
Qed.

(** The leaf of the server that a leaf of the client stands for. *)
Definition seat (root : Z) t (c : Z) (oc : LeafObject P J) : Z := if decide (c = ft_root t) then root else lo_serverInode oc.

Lemma client_name_adopts good new root t t' parent name d n op p x m :
  InOrder t → adopts good new t t' parent name d n → ft_leaves t !! parent = Some op → client_name root t' p x m →
  client_name root t p x m ∨ (p = seat root t parent op ∧ x = name ∧ m = n).
Proof.
  intros Hok [A1 A2 A3 (od & Hod & Hi) _] Hop (c & e & oc & oe & Hin & Hc & He & -> & ->).
  rewrite (se_root _ _ _ _ _ A1). destruct (A2 c x e Hin) as [(oc0 & Hc0 & Hch)|(-> & -> & ->)].
  - left. destruct (child_alive t c oc0 x e Hok Hc0 Hch) as (oe0 & He0 & _).
    destruct (A3 c oc0 Hc0) as (oc1 & Hc1 & _ & _ & _ & Ec). destruct (A3 e oe0 He0) as (oe1 & He1 & _ & _ & _ & Ee). simplify_eq.
    exists c, e, oc0, oe0. split_and!; [by exists oc0|done|done|by rewrite Ec|done].
  - right. destruct (A3 parent op Hop) as (op1 & Hop1 & _ & _ & _ & Ep). simplify_eq. unfold seat. by rewrite Ep.
Qed.

Section ClientStep.
Context (s : System) (client : Client P J) (drefs : list dentry) (dopens : list (Z * Z)) (l1 ql qs l2 : list request)
  (releases : list (Z * Z)) (notes : list answer) (dlost : list Z) (reps : list reply) (dunclosed : list Z) (cnew cgone crest : list Z).

(** The system after a step of the client: the requests [ql] have become [qs], and the
    kernel has got references and open files. *)
Definition after_client : System :=
  mkSystem (sy_server s) client (drefs ++ sy_refs s) (dopens ++ sy_opens s) (l1 ++ qs ++ l2) releases notes (dlost ++ sy_lost s)
    (dunclosed ++ sy_unclosed s) (sy_asked s) (reps ++ sy_replies s).
Let s' := after_client.

(** What the step may do: the tree has [cnew] instead of [cgone]; handles that stay in use
    are the same files; what the requests owed is now owed by what the kernel got. *)
Record client_step : Prop := {
  cs_inv : Inv s;
  cs_requests : sy_requests s = l1 ++ ql ++ l2;
  cs_serves : serves (ClientTree (good_inode s)) cnew cgone (cl_tree (sy_client s)) (cl_tree client);
  cs_before : client_refs s ≡ₚ cgone ++ crest;
  cs_after : client_refs s' ≡ₚ cnew ++ crest;
  cs_keeps : ∀ c, c ∈ d_inode <$> sy_refs s → c ∈ crest;
  cs_releases : Forall (λ f, 0 < f.2) releases;
  cs_ids : rq_id <$> ql ≡ₚ (reply_request <$> reps) ++ (rq_id <$> qs);
  cs_files : ∀ h, h ∈ (sy_opens s).*2 ∨ (∃ q, q ∈ l1 ++ l2 ∧ call_closes (rq_call q) = Some h) → file s' h = file s h;
  cs_handles : (map_to_list (cl_handles client)).*1 ≡ₚ handles s';
  cs_owes : (ql ≫= request_owes (sroot s) (inode s) (file s)) ≡ₚ
    (place (sroot s) (inode s') <$> (d_inode <$> drefs)) ++ (place (sroot s) (inode s') <$> dopens.*1) ++ dlost ++
    (qs ≫= request_owes (sroot s) (inode s') (file s'));
  cs_open : (ql ≫= λ q, (request_files 0 id (file s) q).*1) ≡ₚ (file s' <$> dopens.*2) ++ (qs ≫= λ q, (request_files 0 id (file s') q).*1);
  cs_dentries : ∀ d, d ∈ drefs → DentryOk s' d;
  cs_opens : ∀ c h, (c, h) ∈ dopens → Known (sy_refs s) c;
  cs_qs : ∀ q, q ∈ qs → RequestOk s' q;
  cs_notes : ∀ a, a ∈ notes → a ∈ sy_notes s;
  cs_names : ∀ p x n, client_name (sroot s) (cl_tree client) p x n → claim s p x n;
  cs_qs_names : ∀ q p x n, q ∈ qs → (p, x, n) ∈ stage_names (sroot s) (inode s') (rq_stage q) → claim s p x n;
}.

Context (Hstep : client_step).

Lemma inode_same c : Known (sy_refs s) c → inode s' c = inode s c.
Proof. by apply (inode_kept s _ _ _ _ (cl_tree client) c (cs_inv Hstep) (cs_serves Hstep) (cs_before Hstep) (cs_keeps Hstep)). Qed.

Lemma Known_more c : Known (sy_refs s) c → Known (drefs ++ sy_refs s) c.
Proof. intros [->|Hc]; [by left|right]. rewrite fmap_app. apply elem_of_app. by right. Qed.

(** What does not change about the other requests. *)
Lemma other_request q : q ∈ l1 ++ l2 → RequestOk s' q ∧
  (∀ root, request_files root (inode s') (file s') q = request_files root (inode s) (file s) q) ∧
  (∀ root, stage_names root (inode s') (rq_stage q) = stage_names root (inode s) (rq_stage q)).
Proof.
  intros Hq. apply RequestOk_client; [done|..].
  - intros c Hc. split; [by apply inode_same|by apply Known_more].
  - intros o Ho. apply elem_of_app. by right.
  - intros h [Hh|Hh]; apply (cs_files Hstep); [by left|right; by exists q].
  - apply (i_requests _ (cs_inv Hstep)). rewrite (cs_requests Hstep), !elem_of_app. apply elem_of_app in Hq. tauto.
Qed.

Lemma bind_ext {A B} (f g : A → list B) (l : list A) : (∀ a, a ∈ l → f a = g a) → l ≫= f = l ≫= g.
Proof.
  induction l as [|a l IH]; intros H; [done|]. rewrite !bind_cons, (H a) by by left. f_equal. apply IH. intros b Hb. apply H. by right.
Qed.

Lemma other_owes : (l1 ++ l2) ≫= request_owes (sroot s) (inode s') (file s') = (l1 ++ l2) ≫= request_owes (sroot s) (inode s) (file s).
Proof. apply bind_ext. intros q Hq. destruct (other_request q Hq) as (_ & E & _). unfold request_owes. by rewrite E. Qed.

Lemma other_keys : (l1 ++ l2) ≫= (λ q, (request_files 0 id (file s') q).*1) = (l1 ++ l2) ≫= (λ q, (request_files 0 id (file s) q).*1).
Proof.
  apply bind_ext. intros q Hq. destruct (other_request q Hq) as (_ & E & _).
  by rewrite (request_files_keys 0 0 id (inode s')), E, (request_files_keys 0 0 id (inode s)).
Qed.

Lemma places_same : (place (sroot s) (inode s') <$> (d_inode <$> sy_refs s)) = (place (sroot s) (inode s) <$> (d_inode <$> sy_refs s)) ∧
  (place (sroot s) (inode s') <$> (sy_opens s).*1) = (place (sroot s) (inode s) <$> (sy_opens s).*1) ∧
  (file s' <$> (sy_opens s).*2) = (file s <$> (sy_opens s).*2).
Proof.
  split_and!; apply list_fmap_ext; intros k c Hk%list_elem_of_lookup_2.
  - apply place_ext, inode_same. by right.
  - apply place_ext, inode_same. apply list_elem_of_fmap in Hk as ([c' h] & -> & Hin). by apply (i_opens _ (cs_inv Hstep) c' h).
  - apply (cs_files Hstep). by left.
Qed.

Lemma move_block {A} (f1 f2 f1' f2' q q' a b c d e g : list A) :
  f1' ++ f2' = f1 ++ f2 → q ≡ₚ d ++ e ++ g ++ q' →
  a ++ b ++ c ++ f1 ++ q ++ f2 ≡ₚ (d ++ a) ++ (e ++ b) ++ (g ++ c) ++ f1' ++ q' ++ f2'.
Proof.
  intros E ->. transitivity (a ++ b ++ c ++ (d ++ e ++ g ++ q') ++ (f1 ++ f2)); [solve_Permutation|]. rewrite <- E. solve_Permutation.
Qed.

Lemma Inv_client : Inv s'.
Proof.
  pose proof (cs_inv Hstep) as Hi. destruct places_same as (Ep1 & Ep2 & Ep3).
  pose proof (se_root _ _ _ _ _ (cs_serves Hstep)) as Hroot.
  assert (Hcroot : croot s' = croot s) by exact Hroot.
  assert (Hg : good_inode s' = good_inode s) by (unfold good_inode; by rewrite Hcroot).
  assert (Hsa : server_address s' = server_address s) by (unfold server_address; by rewrite Hcroot).
  assert (Hclaim : ∀ p x n, claim s' p x n → claim s p x n).
  { intros p x n [H|[H|[H|H]]]; [by left|by apply (cs_names Hstep)|..].
    - cbn [s' after_client sy_requests] in H. apply list_elem_of_bind in H as (q & Hin & Hq).
      assert (Hq' : q ∈ l1 ++ l2 ∨ q ∈ qs) by (rewrite !elem_of_app in *; tauto).
      destruct Hq' as [Hq'|Hq']; [|by eapply (cs_qs_names Hstep)].
      destruct (other_request q Hq') as (_ & _ & E). change (sroot s') with (sroot s) in Hin. rewrite E in Hin.
      right; right; left. apply list_elem_of_bind. exists q. split; [done|]. rewrite (cs_requests Hstep), !elem_of_app in *. tauto.
    - apply list_elem_of_bind in H as (a & Hin & Ha%(cs_notes Hstep)). pose proof (i_notes _ Hi) as Hn. rewrite Forall_forall in Hn.
      right; right; right. apply list_elem_of_bind. exists a. split; [|done]. by rewrite (note_names _ _ (inode s')) by by apply Hn. }
  split; try done.
  - rewrite Hsa. apply (i_server _ Hi).
  - rewrite Hg. apply (cs_serves Hstep).
  - eapply Counted_perm; [|exact (i_owed _ Hi)]. unfold owed. change (sroot s') with (sroot s).
    cbn [s' after_client sy_refs sy_opens sy_lost sy_requests]. rewrite !fmap_app, Ep1, Ep2, (cs_requests Hstep), !bind_app.
    pose proof other_owes as E. rewrite !bind_app in E. pose proof (cs_owes Hstep) as Eq. revert E Eq.
    apply move_block.
  - rewrite (cs_after Hstep). apply (se_counted _ _ _ _ _ (cs_serves Hstep)). rewrite <- (cs_before Hstep). apply (i_crefs _ Hi).
  - apply (cs_releases Hstep).
  - etrans; [apply (i_files _ Hi)|]. rewrite !files_keys. cbn [s' after_client sy_opens sy_requests]. rewrite !fmap_app, Ep3, (cs_requests Hstep), !bind_app.
    pose proof other_keys as E. rewrite !bind_app in E. pose proof (cs_open Hstep) as Eq. revert E Eq. generalize (file s <$> (sy_opens s).*2).
    intros X E Eq. rewrite Eq. transitivity (X ++ (file s' <$> dopens.*2) ++ (qs ≫= λ q, (request_files 0 id (file s') q).*1) ++
      ((l1 ≫= λ q, (request_files 0 id (file s) q).*1) ++ (l2 ≫= λ q, (request_files 0 id (file s) q).*1))); [solve_Permutation|].
    rewrite <- E. solve_Permutation.
  - apply (i_fds _ Hi).
  - apply (cs_handles Hstep).
  - etrans; [apply (i_ids _ Hi)|]. rewrite (cs_requests Hstep), !fmap_app, (cs_ids Hstep). cbn [s' after_client sy_replies sy_requests].
    rewrite !fmap_app. solve_Permutation.
  - apply (i_fresh _ Hi).
  - intros d [Hd|Hd]%elem_of_app; [by apply (cs_dentries Hstep)|]. destruct (i_refs _ Hi d Hd) as [D1 D2 D3].
    split; [by apply Known_more|by rewrite Hcroot|]. change (sroot s') with (sroot s).
    rewrite (place_ext _ _ (inode s)) by by apply inode_same. rewrite inode_same by (right; by apply list_elem_of_fmap_2). done.
  - intros c h [Hin|Hin]%elem_of_app; apply Known_more; [by apply (cs_opens Hstep c h)|by apply (i_opens _ Hi c h)].
  - intros q. cbn [s' after_client sy_requests]. rewrite !elem_of_app. intros [Hq|[Hq|Hq]]; [|by apply (cs_qs Hstep)|];
      apply other_request, elem_of_app; tauto.
  - apply Forall_forall. intros a Ha. pose proof (i_notes _ Hi) as Hn. rewrite Forall_forall in Hn. by apply Hn, (cs_notes Hstep).
  - intros p x n n' H1%Hclaim H2%Hclaim. by eapply (i_names _ Hi).
  - rewrite Hg. intros p x n H1%Hclaim. by apply (i_good _ Hi p x n).
  - rewrite Hcroot. intros p x n H1%Hclaim. by apply (i_dirs _ Hi p x n).
Qed.

End ClientStep.

Lemma handles_split s l1 q l2 : sy_requests s = l1 ++ q :: l2 →
  handles s ≡ₚ option_list (call_closes (rq_call q)) ++ (sy_opens s).*2 ++ ((l1 ++ l2) ≫= λ q, option_list (call_closes (rq_call q))) ++ sy_unclosed s.
Proof. intros E. unfold handles. rewrite E, !bind_app, bind_cons. solve_Permutation. Qed.

(** *** Replies that leave the trees alone *)

Lemma Inv_finish s l1 q l2 r dlost :
  Inv s → sy_requests s = l1 ++ q :: l2 → reply_request r = rq_id q → call_closes (rq_call q) = None →
  request_owes (sroot s) (inode s) (file s) q = dlost → (request_files 0 id (file s) q).*1 = [] →
  Inv (after_client s (sy_client s) [] [] l1 [] l2 (sy_releases s) (sy_notes s) dlost [r] []).
Proof.
  intros Hi Hreq Hr Hclose Howes Hfiles. apply (Inv_client s _ [] [] l1 [q] [] l2 _ _ dlost [r] _ [] [] (client_refs s)). split; try done.
  - apply serves_refl, (i_client _ Hi).
  - intros c Hc. unfold client_refs. apply elem_of_app. by left.
  - apply (i_releases _ Hi).
  - cbn. by rewrite Hr.
  - rewrite (i_handles _ Hi), (handles_split s l1 q l2 Hreq), Hclose. done.
  - rewrite bind_cons, Howes. cbn. by rewrite app_nil_r.
  - rewrite bind_cons, Hfiles. done.
  - by intros d ?%not_elem_of_nil.
  - by intros c h ?%not_elem_of_nil.
  - by intros q' ?%not_elem_of_nil.
  - intros p x n H. right; by left.
  - by intros q' p x n ?%not_elem_of_nil.
Qed.

(** *** A name that the kernel takes *)

(** A request [q] carries a reference of [n], the child [x] of the directory it asks
    about; the client has a leaf [d] for it, and the kernel gets it. *)
Lemma Inv_adopt s l1 q qs l2 c x n d parent op t' reps :
  let place c := place (sroot s) (inode s) c in
  Inv s → sy_requests s = l1 ++ q :: l2 → Known (sy_refs s) c →
  ft_leaves (cl_tree (sy_client s)) !! parent = Some op → seat (sroot s) (cl_tree (sy_client s)) parent op = place c →
  adopts (good_inode s) [d] (cl_tree (sy_client s)) t' parent x d n →
  claim s (place c) x n → placed (sv_tree (sy_server s)) (place c) x n →
  call_closes (rq_call q) = None → (∀ q', q' ∈ qs → RequestOk s q' ∧ call_closes (rq_call q') = None) →
  request_owes (sroot s) (inode s) (file s) q ≡ₚ n :: (qs ≫= request_owes (sroot s) (inode s) (file s)) →
  (request_files 0 id (file s) q).*1 = [] → (∀ q', q' ∈ qs → request_files 0 id (file s) q' = []) →
  (∀ q' y, q' ∈ qs → y ∈ stage_names (sroot s) (inode s) (rq_stage q') → y ∈ stage_names (sroot s) (inode s) (rq_stage q)) →
  [rq_id q] ≡ₚ (reply_request <$> reps) ++ (rq_id <$> qs) →
  Inv (after_client s (Client.with_tree t' (sy_client s)) [mkDentry d c x] [] l1 qs l2 (sy_releases s) (sy_notes s) [] reps []).
Proof.
  intros place0 Hi Hreq Hc Hop Hseat Had Hclaim Hplaced Hcl Hqs Howes Hf1 Hf2 Hnames Hids. set (s' := after_client _ _ _ _ _ _ _ _ _ _ _ _).
  pose proof (ad_serves _ _ _ _ _ _ _ _ Had) as Hse. destruct (ad_child _ _ _ _ _ _ _ _ Had) as (od & Hod & En).
  assert (Hkeep : ∀ c, c ∈ d_inode <$> sy_refs s → c ∈ client_refs s) by (intros e He; unfold client_refs; apply elem_of_app; by left).
  assert (HI : ∀ e, Known (sy_refs s) e → inode s' e = inode s e ∧ Known (sy_refs s') e).
  { intros e He. split; [by apply (inode_kept s (ClientTree (good_inode s)) [d] [] (client_refs s) t' e)|].
    destruct He as [->|He]; [by left|right]. by right. }
  destruct (i_good _ Hi _ _ _ Hclaim) as [(Hn0 & Hn1 & Hn2 & Hn3) Hdot].
  assert (Hd1 : d ≠ 1). { intros ->. rewrite (ct_one _ _ (se_tree _ _ _ _ _ Hse)) in Hod. done. }
  assert (Ed : inode s' d = n).
  { unfold inode, inode_of, FUSE_ROOT_ID. rewrite (proj2 (Z.eqb_neq _ _) Hd1). cbn [s' after_client sy_client Client.with_tree cl_tree]. by rewrite Hod. }
  assert (Hreqs : ∀ q', q' ∈ qs → RequestOk s' q' ∧
    (∀ root, request_files root (inode s') (file s') q' = request_files root (inode s) (file s) q') ∧
    (∀ root, stage_names root (inode s') (rq_stage q') = stage_names root (inode s) (rq_stage q'))).
  { intros q' Hq'. destruct (Hqs q' Hq') as [Hok Hcl']. by apply RequestOk_client; [done|exact HI|auto|..]. }
  assert (Hfiles0 : (qs ≫= λ q, (request_files 0 id (file s) q).*1) = []).
  { rewrite (bind_ext _ (λ _, [])); [by clear; induction qs|]. intros q' Hq'. by rewrite Hf2. }
  apply (Inv_client s _ [mkDentry d c x] [] l1 [q] qs l2 _ _ [] reps _ [d] [] (client_refs s)). split; fold s'; try done.
  - apply (i_releases _ Hi).
  - rewrite (i_handles _ Hi), (handles_split s l1 q l2 Hreq), Hcl. unfold handles. cbn [s' after_client sy_opens sy_requests].
    rewrite !bind_app. rewrite (bind_ext _ (λ _, []) qs); [|by intros q' Hq'; rewrite (proj2 (Hqs q' Hq'))].
    assert (E : (qs ≫= λ _, []) = ([] : list Z)) by (clear; by induction qs). by rewrite E.
  - rewrite bind_cons. cbn [fmap list_fmap]. rewrite app_nil_r, Howes. cbn. unfold place, addr, FUSE_ROOT_ID.
    rewrite Ed, (proj2 (Z.eqb_neq _ _) Hn1). f_equiv. erewrite bind_ext; [done|]. intros q' Hq'. unfold request_owes. by rewrite (proj1 (proj2 (Hreqs q' Hq'))).
  - change (file s') with (file s). rewrite bind_cons, Hf1, Hfiles0. done.
  - intros ? ->%list_elem_of_singleton. split; cbn [d_inode d_parent d_name].
    + by apply HI.
    + split; [done|]. unfold croot. cbn. rewrite (se_root _ _ _ _ _ Hse). by apply (ad_other _ _ _ _ _ _ _ _ Had).
    + change (sroot s') with (sroot s). rewrite Ed. unfold place. rewrite (proj1 (HI c Hc)). done.
  - by intros e h ?%not_elem_of_nil.
  - intros q' Hq'. by apply Hreqs.
  - intros p y m Hm. destruct (client_name_adopts _ _ _ _ _ _ _ _ _ op _ _ _ (ct_order _ _ (i_client _ Hi)) Had Hop Hm) as [Hold|(-> & -> & ->)].
    + right; by left.
    + by rewrite Hseat.
  - intros q' p y m Hq' Hin. rewrite (proj2 (proj2 (Hreqs q' Hq'))) in Hin. apply (Hnames q' _ Hq') in Hin.
    right; right; left. apply list_elem_of_bind. exists q. split; [done|]. rewrite Hreq. apply elem_of_app. right. by left.
Qed.

(** *** The answers *)

Section Reacting.
Context (alloc : FileTree P J → Z) (new_handle : gmap Z Z → Z).
Context (Halloc : AllocOk client_address alloc) (Hnew : NewOk new_handle).

(** A leaf in which the client puts the children of the leaf [p] of the server. *)
Definition stands_for s (p parent : Z) : Prop := ∃ op, ft_leaves (cl_tree (sy_client s)) !! parent = Some op ∧
  seat (sroot s) (cl_tree (sy_client s)) parent op = p.

Lemma find_parent s c : Inv s → Known (sy_refs s) c →
  ∃ r, (if inode s c =? FUSE_ROOT_ID then Ret (Some (ft_root (cl_tree (sy_client s))))
        else FileTree.FindLeafByServerInode (inode s c) (cl_tree (sy_client s))) = Ret r ∧ ∀ parent, r = Some parent → stands_for s (place (sroot s) (inode s) c) parent.
Proof.
  intros Hi Hc. pose proof (i_client _ Hi) as Ht. destruct (place_known s c Hi Hc) as [[E ->]|(Hin & E & Hg)].
  - eexists. split; [done|]. intros parent [= <-]. destruct (ok_root _ (proj1 (ct_order _ _ Ht))) as [op Hop].
    exists op. split; [done|]. unfold seat. by rewrite decide_True.
  - destruct Hg as (Hg0 & Hg1 & Hg2 & _). unfold FUSE_ROOT_ID. rewrite (proj2 (Z.eqb_neq _ _) Hg1).
    destruct (FindLeafByServerInode_cases (inode s c) (cl_tree (sy_client s)) (ct_order _ _ Ht)) as (r & -> & Hr).
    exists r. split; [done|]. intros parent ->. destruct (Hr parent eq_refl) as (op & Hop & Ei). exists op. split; [done|].
    rewrite E. unfold seat, LeafObject.GetServerInode in *. case_decide as Hd.
    + subst parent. destruct (ct_root _ _ Ht op Hop) as [E0 _]. rewrite E0 in Ei. cbn in Ei. by destruct Hg2.
    + destruct (ct_leaf _ _ Ht parent op Hop Hd) as (Hn0 & _). by rewrite (proj2 (Z.eqb_neq _ _) Hn0) in Ei.
Qed.

Lemma own_parent s c : Inv s → Known (sy_refs s) c →
  ∃ op, GetLeaf c (cl_tree (sy_client s)) = Ret (FileTree.address c (cl_tree (sy_client s)), op) ∧
    stands_for s (place (sroot s) (inode s) c) (FileTree.address c (cl_tree (sy_client s))).
Proof.
  intros Hi Hc. pose proof (i_client _ Hi) as Ht. destruct Hc as [->|Hc].
  - destruct (ok_root _ (proj1 (ct_order _ _ Ht))) as [op Hop]. exists op. split; [by apply GetLeaf_at|].
    exists op. split; [done|]. unfold seat. by rewrite decide_True.
  - destruct (client_leaf s c Hi Hc) as (o & Ho & H1 & Hr & _). destruct (place_known s c Hi) as [[_ E]|(_ & E & _)]; [by right|done|].
    assert (Ha : FileTree.address c (cl_tree (sy_client s)) = c) by (unfold FileTree.address, FUSE_ROOT_ID; by rewrite (proj2 (Z.eqb_neq _ _) H1)).
    exists o. rewrite Ha. split; [rewrite <- Ha at 2; apply GetLeaf_at; by rewrite Ha|]. exists o. split; [done|].
    rewrite E. unfold seat. rewrite decide_False by done. unfold inode, inode_of, FUSE_ROOT_ID. rewrite (proj2 (Z.eqb_neq _ _) H1). by rewrite Ho.
Qed.

(** The client has no other leaf of this name there. *)
Lemma same_child s p parent op x n d od : Inv s → ft_leaves (cl_tree (sy_client s)) !! parent = Some op →
  seat (sroot s) (cl_tree (sy_client s)) parent op = p →
  claim s p x n → (x, d) ∈ lo_children op → ft_leaves (cl_tree (sy_client s)) !! d = Some od →
  lo_serverInode od = n.
Proof.
  intros Hi Hop Hseat Hclaim Hin Hod. eapply (i_names _ Hi); [|exact Hclaim]. right; left.
  exists parent, d, op, od. split_and!; [by exists op|done|done|by rewrite <- Hseat|done].
Qed.

Lemma adopt_name s p parent x n type size :
  Inv s → stands_for s p parent → claim s p x n → Z.of_nat (length (client_refs s)) < 2 ^ 63 →
  ∃ t1 d t2 t3, FileTree.AddChild parent x type size (alloc (cl_tree (sy_client s))) (cl_tree (sy_client s)) = Ret (t1, d) ∧
    FileTree.SetServerInode d n t1 = Ret t2 ∧ FileTree.AddRef d t2 = Ret t3 ∧
    adopts (good_inode s) [] (cl_tree (sy_client s)) t2 parent x d n ∧ adopts (good_inode s) [d] (cl_tree (sy_client s)) t3 parent x d n.
Proof.
  intros Hi (op & Hop & Hseat) Hclaim Hb. destruct (Halloc (cl_tree (sy_client s))) as (Ha & Ha1 & Ha0).
  destruct (bind_child (good_inode s) parent x type size (alloc (cl_tree (sy_client s))) n op (cl_tree (sy_client s)))
    as (t1 & d & t2 & E1 & E2 & Had); [apply (i_client _ Hi)|done|done|done|done|by eapply (i_good _ Hi)| |].
  { intros d od. exact (same_child s p parent op x n d od Hi Hop Hseat Hclaim). }
  destruct (adopts_AddRef (good_inode s) (cl_tree (sy_client s)) t2 parent x d n (client_refs s) Had (i_crefs _ Hi) Hb) as (t3 & E3 & Had3).
  by exists t1, d, t2, t3.
Qed.

(** The answer is processed, and the kernel has what it was told. *)
Definition reacts s l1 id k a l2 : Prop := ∃ client r, React alloc new_handle a (sy_client s) = Ret (client, Some r) ∧ reply_request r = id ∧
  Inv (after_client s client (taken k r).1 (taken k r).2 l1 [] l2 (sy_releases s) (sy_notes s) (given_up a r) [r] (left_open k a)).

Lemma react_plain s l1 id k a l2 r :
  Inv s → sy_requests s = l1 ++ mkRequest id k (Answered a) :: l2 →
  React alloc new_handle a (sy_client s) = Ret (sy_client s, Some r) → reply_request r = id → taken k r = ([], []) → call_closes k = None →
  request_owes (sroot s) (inode s) (file s) (mkRequest id k (Answered a)) = given_up a r →
  (request_files 0 Datatypes.id (file s) (mkRequest id k (Answered a))).*1 = [] → reacts s l1 id k a l2.
Proof.
  intros Hi Hreq E Hr Ht Hcl Ho Hf. exists (sy_client s), r. split; [done|]. split; [done|]. rewrite Ht, left_open_none by done. by eapply Inv_finish.
Qed.

Lemma react_lookup s l1 id c x ans l2 :
  Inv s → Bounded s → sy_requests s = l1 ++ mkRequest id (Call_lookup c x) (Answered (Plain (ResponseLookup id (inode s c) x ans))) :: l2 →
  reacts s l1 id (Call_lookup c x) (Plain (ResponseLookup id (inode s c) x ans)) l2.
Proof.
  intros Hi Hb Hreq. destruct ans as [error|[n attr]]; [by eapply react_plain|].
  assert (Hok : RequestOk s (mkRequest id (Call_lookup c x) (Answered (Plain (ResponseLookup id (inode s c) x (inr (n, attr))))))).
  { apply (i_requests _ Hi). rewrite Hreq. apply elem_of_app. right. by left. }
  pose proof (rq_known _ _ Hok c eq_refl) as Hc. destruct (find_parent s c Hi Hc) as (r & Er & Hr).
  assert (Hclaim : claim s (place (sroot s) (inode s) c) x n).
  { right; right; left. apply list_elem_of_bind. eexists. split; [|rewrite Hreq; apply elem_of_app; right; by left]. by left. }
  destruct r as [parent|].
  - destruct (adopt_name s (place (sroot s) (inode s) c) parent x n (if S_ISDIR (st_mode attr) then ft_directory else ft_regular) (st_size attr) Hi (Hr parent eq_refl) Hclaim)
      as (t1 & d & t2 & t3 & E1 & E2 & E3 & _ & Had); [unfold Bounded in Hb; lia|].
    exists (Client.with_tree t3 (sy_client s)), (Reply_entry id d attr). split; [|split; [done|]].
    + cbn. unfold ResponseLookupInJob. rewrite Er. cbn [mbind res_bind]. rewrite E1. cbn [mbind res_bind]. rewrite E2. cbn [mbind res_bind].
      by rewrite E3.
    + destruct (Hr parent eq_refl) as (op & Hop & Hseat).
      eapply (Inv_adopt s l1 _ [] l2 c x n d parent op t3 [Reply_entry id d attr]); try done; try by intros ? ?%not_elem_of_nil.
      * apply (rq_placed _ _ Hok). by left.
      * by intros ? ? ?%not_elem_of_nil.
  - apply (react_plain s l1 id _ _ l2 (Reply_err id ENOENT)); try done. cbn. unfold ResponseLookupInJob. rewrite Er. done.
Qed.

Lemma file_insert (handles : gmap Z Z) h h' rf : h' ≠ h → file_of (<[h := rf]> handles) h' = file_of handles h'.
Proof. intros Hne. unfold file_of. by rewrite lookup_insert_ne. Qed.
Lemma file_delete (handles : gmap Z Z) h h' : h' ≠ h → file_of (delete h handles) h' = file_of handles h'.
Proof. intros Hne. unfold file_of. by rewrite lookup_delete_ne. Qed.

(** The handles that the kernel and the requests have. *)
Lemma used_handle s (l : list request) h : (∀ q, q ∈ l → q ∈ sy_requests s) →
  h ∈ (sy_opens s).*2 ∨ (∃ q, q ∈ l ∧ call_closes (rq_call q) = Some h) → h ∈ handles s.
Proof.
  intros Hl [Hh|(q & Hq & Hh)]; unfold handles; apply elem_of_app; [by left|right].
  apply elem_of_app. left. apply list_elem_of_bind. exists q. split; [rewrite Hh; by left|by apply Hl].
Qed.

Lemma handle_known s h : Inv s → h ∈ handles s → ∃ rf, cl_handles (sy_client s) !! h = Some rf.
Proof. intros Hi Hh. rewrite <- (i_handles _ Hi) in Hh. by apply keys_elem in Hh. Qed.

Lemma react_opened s l1 id k a l2 c fi rf :
  let handle := new_handle (cl_handles (sy_client s)) in
  Inv s → sy_requests s = l1 ++ mkRequest id k (Answered a) :: l2 → Known (sy_refs s) c →
  React alloc new_handle a (sy_client s) =
    Ret (mkClient (cl_tree (sy_client s)) (<[handle := rf]> (cl_handles (sy_client s))), Some (Reply_open id fi handle)) →
  taken k (Reply_open id fi handle) = ([], [(c, handle)]) → given_up a (Reply_open id fi handle) = [] → call_closes k = None →
  stage_owes (Answered a) = [] →
  (∀ root I H, request_files root I H (mkRequest id k (Answered a)) = [(rf, place root I c)]) → reacts s l1 id k a l2.
Proof.
  intros handle Hi Hreq Hc E Ht Hg Hcl Ho Hf. eexists _, _. split; [exact E|]. split; [done|]. rewrite Ht, Hg, left_open_none by done.
  destruct (Hnew (cl_handles (sy_client s))) as [Hfresh _].
  assert (Hin : ∀ q, q ∈ l1 ++ l2 → q ∈ sy_requests s) by (intros q; rewrite Hreq, !elem_of_app, elem_of_cons; tauto).
  set (s' := after_client _ _ _ _ _ _ _ _ _ _ _ _).
  assert (Hsame : ∀ h, h ∈ handles s → file s' h = file s h).
  { intros h Hh. destruct (handle_known s h Hi Hh) as [rf' Hrf]. apply file_insert. intros ->. subst handle. congruence. }
  apply (Inv_client s _ [] [(c, handle)] l1 [mkRequest id k (Answered a)] [] l2 _ _ [] _ _ [] [] (client_refs s)). split; fold s'; try done.
  - apply serves_refl, (i_client _ Hi).
  - intros e He. unfold client_refs. apply elem_of_app. by left.
  - apply (i_releases _ Hi).
  - intros h Hh. apply Hsame. by eapply used_handle.
  - cbn [cl_handles]. rewrite map_to_list_insert by done. rewrite fmap_cons, (i_handles _ Hi), (handles_split s l1 _ l2 Hreq).
    cbn [rq_call]. rewrite Hcl. done.
  - rewrite bind_cons. unfold request_owes. rewrite Hf. cbn [rq_stage]. rewrite Ho. done.
  - rewrite bind_cons, Hf. cbn. unfold file, file_of. cbn. by rewrite lookup_insert_eq.
  - by intros d ?%not_elem_of_nil.
  - by intros e h [= -> ->]%list_elem_of_singleton.
  - by intros q ?%not_elem_of_nil.
  - intros p x n H. right; by left.
  - by intros q p x n ?%not_elem_of_nil.
Qed.

Lemma react_released s l1 id k a l2 h :
  Inv s → sy_requests s = l1 ++ mkRequest id k (Answered a) :: l2 → call_closes k = Some h →
  React alloc new_handle a (sy_client s) = ('(c, r) ← ResponseReleaseInJob id 0 h (sy_client s); Ret (c, Some r)) →
  (∀ r, taken k r = ([], [])) → (∀ r, given_up a r = []) → left_open k a = [] → stage_owes (Answered a) = [] →
  (∀ root I H, request_files root I H (mkRequest id k (Answered a)) = []) → reacts s l1 id k a l2.
Proof.
  intros Hi Hreq Hcl E Ht Hg Hlo Ho Hf. pose proof (handles_split s l1 _ l2 Hreq) as Hsplit. cbn [rq_call] in Hsplit. rewrite Hcl in Hsplit. cbn [option_list app] in Hsplit.
  destruct (handle_known s h Hi) as [rf Hrf]; [rewrite Hsplit; by left|].
  exists (mkClient (cl_tree (sy_client s)) (delete h (cl_handles (sy_client s)))), (Reply_err id 0). split.
  { rewrite E. unfold ResponseReleaseInJob. cbn [Z.eqb negb]. by rewrite bool_decide_true by by eexists. }
  split; [done|]. rewrite Ht, Hg, Hlo. cbn [fst snd].
  assert (Hnd : NoDup (handles s)) by (rewrite <- (i_handles _ Hi); apply NoDup_fst_map_to_list).
  rewrite Hsplit in Hnd. apply NoDup_cons in Hnd as [Hnd _]. set (s' := after_client _ _ _ _ _ _ _ _ _ _ _ _).
  apply (Inv_client s _ [] [] l1 [mkRequest id k (Answered a)] [] l2 _ _ [] _ _ [] [] (client_refs s)). split; fold s'; try done.
  - apply serves_refl, (i_client _ Hi).
  - intros e He. unfold client_refs. apply elem_of_app. by left.
  - apply (i_releases _ Hi).
  - intros h' Hh. apply file_delete. intros ->. apply Hnd, elem_of_app.
    destruct Hh as [Hh|(q & Hq & Hh)]; [by left|right]. apply elem_of_app. left.
    apply list_elem_of_bind. exists q. split; [rewrite Hh; by left|done].
  - cbn [cl_handles]. pose proof (i_handles _ Hi) as Hk. rewrite Hsplit in Hk. rewrite <- (map_to_list_delete _ h rf Hrf) in Hk.
    rewrite fmap_cons in Hk. by apply Permutation_cons_inv in Hk.
  - rewrite bind_cons. unfold request_owes. rewrite Hf. cbn [rq_stage]. rewrite Ho. done.
  - rewrite bind_cons, Hf. done.
  - by intros d ?%not_elem_of_nil.
  - by intros e h' ?%not_elem_of_nil.
  - by intros q ?%not_elem_of_nil.
  - intros p x n H. right; by left.
  - by intros q p x n ?%not_elem_of_nil.
Qed.

(** A file that could not be closed: the handle stays. *)
Lemma react_unclosed s l1 id c h error l2 :
  Inv s → sy_requests s = l1 ++ mkRequest id (Call_releasedir c h) (Answered (Plain (ResponseReleaseDirFailed id error))) :: l2 →
  error ≠ 0 → reacts s l1 id (Call_releasedir c h) (Plain (ResponseReleaseDirFailed id error)) l2.
Proof.
  intros Hi Hreq He. exists (sy_client s), (Reply_err id error). split; [cbn; by rewrite (proj2 (Z.eqb_neq _ _) He)|]. split; [done|].
  cbn [taken fst snd given_up left_open call_closes option_list].
  apply (Inv_client s _ [] [] l1 [mkRequest id (Call_releasedir c h) (Answered (Plain (ResponseReleaseDirFailed id error)))] [] l2
    _ _ [] _ _ [] [] (client_refs s)). split; try done.
  - apply serves_refl, (i_client _ Hi).
  - intros e He'. unfold client_refs. apply elem_of_app. by left.
  - apply (i_releases _ Hi).
  - rewrite (i_handles _ Hi), (handles_split s l1 _ l2 Hreq). unfold handles. cbn. solve_Permutation.
  - by intros d ?%not_elem_of_nil.
  - by intros e h' ?%not_elem_of_nil.
  - by intros q ?%not_elem_of_nil.
  - intros p x n H. right; by left.
  - by intros q p x n ?%not_elem_of_nil.
Qed.

(** *** Listings *)

Lemma adopts_found s parent op x d od n : Inv s → ft_leaves (cl_tree (sy_client s)) !! parent = Some op →
  (x, d) ∈ lo_children op → ft_leaves (cl_tree (sy_client s)) !! d = Some od → lo_serverInode od = n →
  adopts (good_inode s) [] (cl_tree (sy_client s)) (cl_tree (sy_client s)) parent x d n.
Proof.
  intros Hi Hop Hin Hod E. pose proof (i_client _ Hi) as Ht. split.
  - by apply serves_refl.
  - intros p y e H. by left.
  - intros a o Ha. by exists o.
  - by exists od.
  - exact (child_not_root (good_inode s) _ parent op x d Ht Hop Hin).
Qed.

(** An entry that is no dot: the client finds or makes its leaf. *)
Lemma resolve_name s c parent e :
  Inv s → stands_for s (place (sroot s) (inode s) c) parent → claim s (place (sroot s) (inode s) c) (en_name e) (en_nodeid e) → is_dot (en_name e) = false →
  Z.of_nat (length (client_refs s)) < 2 ^ 63 →
  ∃ t' d, ResolveClientInode alloc c parent e (cl_tree (sy_client s)) = Ret (t', d) ∧
    adopts (good_inode s) [d] (cl_tree (sy_client s)) t' parent (en_name e) d (en_nodeid e).
Proof.
  intros Hi Hst Hclaim Hdot Hb. unfold is_dot in Hdot. apply orb_false_iff in Hdot as [Hd1 Hd2]. unfold ResolveClientInode.
  rewrite Hd1, Hd2. destruct Hst as (op & Hop & Hseat). unfold FileTree.leaf_at. rewrite Hop. cbn [mbind res_bind].
  destruct (LeafObject.Find (en_name e) op) as [d|] eqn:Hf.
  - apply find_elem in Hf. destruct (child_alive _ parent op (en_name e) d (ct_order _ _ (i_client _ Hi)) Hop Hf) as (od & Hod & _).
    pose proof (same_child s (place (sroot s) (inode s) c) parent op _ _ d od Hi Hop Hseat Hclaim Hf Hod) as En. cbn [mbind res_bind].
    destruct (adopts_AddRef (good_inode s) _ _ parent (en_name e) d _ (client_refs s) (adopts_found s parent op _ d od _ Hi Hop Hf Hod En)
      (i_crefs _ Hi) Hb) as (t' & -> & Had). cbn [mbind res_bind]. by exists t', d.
  - destruct (adopt_name s (place (sroot s) (inode s) c) parent (en_name e) (en_nodeid e) (if S_ISDIR (st_mode (en_attr e)) then ft_directory else ft_regular)
      (st_size (en_attr e)) Hi) as (t1 & d & t2 & t3 & E1 & E2 & E3 & _ & Had); [by exists op|done|done|].
    rewrite E1. cbn [mbind res_bind]. rewrite E2. cbn [mbind res_bind]. rewrite E3. cbn [mbind res_bind]. by exists t3, d.
Qed.

Lemma resolve_dot s c parent e : Inv s → stands_for s (place (sroot s) (inode s) c) parent → is_dot (en_name e) = true →
  ∃ d, ResolveClientInode alloc c parent e (cl_tree (sy_client s)) = Ret (cl_tree (sy_client s), d).
Proof.
  intros Hi (op & Hop & _) Hdot. unfold ResolveClientInode. apply orb_true_iff in Hdot as [Hd|Hd]; rewrite Hd; [by eexists|].
  case_match; [by eexists|]. unfold FileTree.leaf_at. rewrite Hop. by eexists.
Qed.

Definition dentries (c : Z) (entries : list (string * Z)) : list dentry :=
  reverse ((λ e, mkDentry e.2 c e.1) <$> filter (λ e, is_dot e.1 = false) entries).

Lemma dentries_cons c x d entries : dentries c ((x, d) :: entries) = dentries c entries ++ (if is_dot x then [] else [mkDentry d c x]).
Proof.
  unfold dentries. rewrite filter_cons. cbn. destruct (is_dot x) eqn:E.
  - rewrite decide_False by congruence. by rewrite app_nil_r.
  - rewrite decide_True by done. by rewrite fmap_cons, reverse_cons.
Qed.

Lemma real_entries_cons e es : real_entries (e :: es) = if is_dot (en_name e) then real_entries es else e :: real_entries es.
Proof. unfold real_entries. rewrite filter_cons. destruct (is_dot (en_name e)) eqn:E; case_decide; congruence. Qed.

Lemma populate l1 id c size off h l2 es : ∀ s,
  let k := Call_readdirplus c size off h in
  Inv s → sy_requests s = l1 ++ mkRequest id k (Answered (Entries id c es)) :: l2 →
  Z.of_nat (length (client_refs s) + length (real_entries es)) < 2 ^ 63 →
  ∃ t' patched, PopulateTreeAndPatchInodes alloc c (FileTree.address c (cl_tree (sy_client s))) es (cl_tree (sy_client s)) = Ret (t', patched) ∧
    Inv (mkSystem (sy_server s) (Client.with_tree t' (sy_client s)) (dentries c patched ++ sy_refs s) (sy_opens s)
      (l1 ++ mkRequest id k (Answered (Entries id c [])) :: l2) (sy_releases s) (sy_notes s) (sy_lost s) (sy_unclosed s) (sy_asked s) (sy_replies s)).
Proof.
  induction es as [|e es IH]; intros s k Hi Hreq Hb.
  { exists (cl_tree (sy_client s)), []. split; [done|]. rewrite <- Hreq. by destruct s as [? [] ? ? ? ? ? ? ? ? ?]. }
  assert (Hq : mkRequest id k (Answered (Entries id c (e :: es))) ∈ sy_requests s) by (rewrite Hreq; apply elem_of_app; right; by left).
  pose proof (i_requests _ Hi _ Hq) as Hok. pose proof (rq_known _ _ Hok c eq_refl) as Hc.
  destruct (own_parent s c Hi Hc) as (_ & _ & Hst). cbn [PopulateTreeAndPatchInodes]. rewrite real_entries_cons in Hb.
  destruct (is_dot (en_name e)) eqn:Hdot.
  - destruct (resolve_dot s c _ e Hi Hst Hdot) as (d & ->). cbn [mbind res_bind].
    assert (Hi1 : Inv (after_server s (sy_server s) (l1 ++ mkRequest id k (Answered (Entries id c es)) :: l2) (sy_notes s))).
    { eapply Inv_restage; [done|exact Hreq| |done| |exact (rq_shape _ _ Hok)];
        cbn [stage_owes stage_names answer_names]; rewrite real_entries_cons, Hdot; done. }
    destruct (IH _ Hi1 eq_refl Hb) as (t' & patched & E & Hi2). cbn [after_server sy_client] in E. rewrite E. cbn [mbind res_bind].
    exists t', ((en_name e, d) :: patched). split; [done|]. rewrite dentries_cons, Hdot, app_nil_r. exact Hi2.
  - cbn [length] in Hb. assert (Hn : (place (sroot s) (inode s) c, en_name e, en_nodeid e) ∈
      stage_names (sroot s) (inode s) (Answered (Entries id c (e :: es)))).
    { cbn [stage_names answer_names]. rewrite real_entries_cons, Hdot. by left. }
    assert (Hclaim : claim s (place (sroot s) (inode s) c) (en_name e) (en_nodeid e)).
    { right; right; left. apply list_elem_of_bind. eexists. by split; [|exact Hq]. }
    destruct (resolve_name s c _ e Hi Hst Hclaim Hdot) as (t1 & d & -> & Had); [lia|]. cbn [mbind res_bind].
    destruct Hst as (op & Hop & Hseat).
    assert (Hi1 : Inv (after_client s (Client.with_tree t1 (sy_client s)) [mkDentry d c (en_name e)] [] l1
      [mkRequest id k (Answered (Entries id c es))] l2 (sy_releases s) (sy_notes s) [] [] [])).
    { apply (Inv_adopt s l1 _ _ l2 c (en_name e) (en_nodeid e) d _ op t1 [] Hi Hreq Hc Hop Hseat Had Hclaim); try done.
      - by apply (rq_placed _ _ Hok).
      - intros q' ->%list_elem_of_singleton. split; [|done]. destruct Hok as [R1 R2 R3 R4 R5]. split; [done..|].
        intros p x n Hin. apply R5. cbn [rq_stage stage_names answer_names] in *. rewrite real_entries_cons, Hdot. by right.
      - rewrite bind_cons. unfold request_owes. cbn [rq_stage request_files rq_call stage_owes]. rewrite real_entries_cons, Hdot. by rewrite app_nil_r.
      - by intros q' ->%list_elem_of_singleton.
      - intros q' y ->%list_elem_of_singleton Hy. cbn [rq_stage stage_names answer_names] in *. rewrite real_entries_cons, Hdot. by right. }
    destruct (IH _ Hi1 eq_refl) as (t' & patched & E & Hi2); [change (client_refs (after_client _ _ _ _ _ _ _ _ _ _ _ _)) with (d :: client_refs s); cbn [length] in *; lia|].
    assert (Ea : FileTree.address c (cl_tree (Client.with_tree t1 (sy_client s))) = FileTree.address c (cl_tree (sy_client s))).
    { unfold FileTree.address. cbn. by rewrite (se_root _ _ _ _ _ (ad_serves _ _ _ _ _ _ _ _ Had)). }
    cbn [after_client sy_client] in E. rewrite Ea in E. cbn [Client.with_tree cl_tree] in E. rewrite E. cbn [mbind res_bind].
    exists t', ((en_name e, d) :: patched). split; [done|]. rewrite dentries_cons, Hdot, <- app_assoc. exact Hi2.
Qed.

Lemma react_entries s l1 id c size off h es l2 :
  let k := Call_readdirplus c size off h in
  Inv s → Bounded s → sy_requests s = l1 ++ mkRequest id k (Answered (Entries id c es)) :: l2 → reacts s l1 id k (Entries id c es) l2.
Proof.
  intros k Hi Hb Hreq. assert (Hc : Known (sy_refs s) c).
  { apply (rq_known s (mkRequest id k (Answered (Entries id c es)))); [|done]. apply (i_requests _ Hi). rewrite Hreq. apply elem_of_app. right. by left. }
  destruct (populate l1 id c size off h l2 es s Hi Hreq) as (t' & patched & E & Hi').
  { pose proof (owed_split s _ _ _ Hreq) as Hsplit. apply Permutation_length in Hsplit. unfold request_owes in Hsplit.
    rewrite !length_app in Hsplit. cbn [rq_stage stage_owes] in Hsplit. rewrite !length_fmap in Hsplit. unfold Bounded in Hb. lia. }
  destruct (own_parent s c Hi Hc) as (op & Hop & _).
  exists (Client.with_tree t' (sy_client s)), (Reply_data id patched). split; [|split; [done|]].
  - cbn. unfold ResponseReadDirPlusInJob. rewrite Hop. cbn [mbind res_bind]. rewrite E. done.
  - by apply (Inv_finish _ l1 (mkRequest id k (Answered (Entries id c []))) l2 (Reply_data id patched) [] Hi').
Qed.

(** Every answer is processed. *)
Lemma react_returns s l1 id k a l2 :
  Inv s → Bounded s → sy_requests s = l1 ++ mkRequest id k (Answered a) :: l2 → reacts s l1 id k a l2.
Proof.
  intros Hi Hb Hreq. assert (Hok : RequestOk s (mkRequest id k (Answered a))).
  { apply (i_requests _ Hi). rewrite Hreq. apply elem_of_app. right. by left. }
  pose proof (rq_shape _ _ Hok) as Hs. pose proof (rq_known _ _ Hok) as Hk. cbn in Hs.
  destruct k as [c h|c x|c fi|c fi|c h|c h|c n|fs|c size off h|c size off h]; cbn in Hs; destruct a as [m|id' es|id' c' es]; try done;
    try (destruct m; try done).
  - destruct Hs as [-> Hans]. by destruct answer as [e|[i at']]; eapply react_plain.
  - destruct Hs as [-> ->]. by eapply react_plain.
  - destruct Hs as (-> & -> & ->). by apply react_lookup.
  - destruct Hs as (-> & rf & ->). eapply react_opened; [done|exact Hreq|by apply Hk|done..].
  - destruct Hs as (-> & rf & ->). eapply react_opened; [done|exact Hreq|by apply Hk|done..].
  - destruct Hs as (-> & -> & ->). by eapply react_released.
  - destruct Hs as (-> & -> & ->). by eapply react_released.
  - destruct Hs as (-> & He). by apply react_unclosed.
  - subst. by eapply react_plain.
  - subst. by eapply react_plain.
  - subst. by eapply react_plain.
  - destruct Hs as [-> ->]. by apply react_entries.
Qed.

(** *** Notifications *)

Lemma notify_step s l1 a l2 t' :
  Inv s → sy_notes s = l1 ++ a :: l2 → serves (ClientTree (good_inode s)) [] [] (cl_tree (sy_client s)) t' →
  (∀ p x n, client_name (sroot s) t' p x n → claim s p x n) →
  Inv (after_client s (Client.with_tree t' (sy_client s)) [] [] [] [] (sy_requests s) (sy_releases s) (l1 ++ l2) [] [] []).
Proof.
  intros Hi Hn Hse Hnames. apply (Inv_client s _ [] [] [] [] [] _ _ _ [] [] _ [] [] (client_refs s)). split; try done.
  - intros e He. unfold client_refs. apply elem_of_app. by left.
  - apply (i_releases _ Hi).
  - rewrite (i_handles _ Hi). done.
  - by intros d ?%not_elem_of_nil.
  - by intros e h' ?%not_elem_of_nil.
  - by intros q ?%not_elem_of_nil.
  - intros b Hb. rewrite Hn. rewrite elem_of_app in *. rewrite elem_of_cons. tauto.
  - by intros q p x n ?%not_elem_of_nil.
Qed.

(** What a notification about the directory [p] finds. *)
Lemma notified_parent s p : Inv s → ∃ r, FileTree.FindLeafByServerInode p (cl_tree (sy_client s)) = Ret r ∧
  ∀ parent, r = Some parent → is_Some (ft_leaves (cl_tree (sy_client s)) !! parent) ∧ (p ≠ croot s → stands_for s p parent).
Proof.
  intros Hi. pose proof (i_client _ Hi) as Ht. destruct (FindLeafByServerInode_cases p (cl_tree (sy_client s)) (ct_order _ _ Ht)) as (r & -> & Hr).
  exists r. split; [done|]. intros parent ->. destruct (Hr parent eq_refl) as (op & Hop & Ei). split; [by eexists|]. intros Hp.
  exists op. split; [done|]. unfold seat, LeafObject.GetServerInode in *. case_decide as Hd.
  - subst parent. destruct (ct_root _ _ Ht op Hop) as [E0 _]. rewrite E0 in Ei. cbn in Ei. by destruct Hp.
  - destruct (ct_leaf _ _ Ht parent op Hop Hd) as (Hn0 & _). by rewrite (proj2 (Z.eqb_neq _ _) Hn0) in Ei.
Qed.

Definition notified s l1 a l2 : Prop := ∃ t', React alloc new_handle a (sy_client s) = Ret (Client.with_tree t' (sy_client s), None) ∧
  Inv (after_client s (Client.with_tree t' (sy_client s)) [] [] [] [] (sy_requests s) (sy_releases s) (l1 ++ l2) [] [] []).

Lemma notify_nothing s l1 a l2 : Inv s → sy_notes s = l1 ++ a :: l2 → React alloc new_handle a (sy_client s) = Ret (sy_client s, None) → notified s l1 a l2.
Proof.
  intros Hi Hn E. exists (cl_tree (sy_client s)). split; [rewrite E; by destruct (sy_client s)|]. eapply notify_step; [done|done|..].
  - by apply serves_refl, (i_client _ Hi).
  - intros p x n H. right; by left.
Qed.

Lemma notify_kept s l1 a l2 t' : Inv s → sy_notes s = l1 ++ a :: l2 →
  React alloc new_handle a (sy_client s) = Ret (Client.with_tree t' (sy_client s), None) →
  serves (ClientTree (good_inode s)) [] [] (cl_tree (sy_client s)) t' → within (cl_tree (sy_client s)) t' → notified s l1 a l2.
Proof.
  intros Hi Hn E Hse Hw. exists t'. split; [done|]. eapply notify_step; [done|done|done|]. intros p x n H. right; left.
  by eapply client_name_within; [apply (i_client _ Hi)|apply Hse|done|].
Qed.

Lemma notify_created s l1 type p x n size isDir l2 :
  let a := Plain (NotifyInvalEntry type p x n size isDir) in
  Inv s → sy_notes s = l1 ++ a :: l2 → type = 1 ∨ type = 4 → notified s l1 a l2.
Proof.
  intros a Hi Hn Ht. assert (Ec : (type =? 1) || (type =? 4) = true) by (destruct Ht as [-> | ->]; done).
  assert (Hclaim : claim s p x n).
  { right; right; right. apply list_elem_of_bind. exists a. split; [|rewrite Hn; apply elem_of_app; right; by left]. cbn. rewrite Ec. by left. }
  destruct (notified_parent s p Hi) as (r & Er & Hr). destruct r as [parent|].
  2:{ apply notify_nothing; [done|done|]. cbn. unfold NotifyInvalEntryJob. rewrite Er. done. }
  destruct (Hr parent eq_refl) as [_ Hst]. specialize (Hst (i_dirs _ Hi p x n Hclaim)). destruct Hst as (op & Hop & Hseat).
  destruct (Halloc (cl_tree (sy_client s))) as (Ha & Ha1 & Ha0).
  destruct (bind_child (good_inode s) parent x (if negb (isDir =? 0) then ft_directory else ft_regular) size (alloc (cl_tree (sy_client s))) n op
    (cl_tree (sy_client s))) as (t1 & d & t2 & E1 & E2 & Had); [apply (i_client _ Hi)|done|done|done|done|by eapply (i_good _ Hi)| |].
  { intros d od. exact (same_child s p parent op x n d od Hi Hop Hseat Hclaim). }
  exists t2. split.
  - cbn. unfold NotifyInvalEntryJob. rewrite Er. cbn [mbind res_bind]. rewrite Ec, E1. cbn [mbind res_bind]. rewrite E2. done.
  - eapply notify_step; [done|done|apply Had|]. intros q y m Hm.
    destruct (client_name_adopts _ _ _ _ _ _ _ _ _ op _ _ _ (ct_order _ _ (i_client _ Hi)) Had Hop Hm) as [Hold|(-> & -> & ->)]; [right; by left|].
    by rewrite Hseat.
Qed.

Lemma notify_deleted s l1 type p x n size isDir l2 :
  let a := Plain (NotifyInvalEntry type p x n size isDir) in
  Inv s → sy_notes s = l1 ++ a :: l2 → type = 2 ∨ type = 3 → notified s l1 a l2.
Proof.
  intros a Hi Hn Ht. assert (Ec : (type =? 1) || (type =? 4) = false) by (destruct Ht as [-> | ->]; done).
  assert (Ed : (type =? 2) || (type =? 3) = true) by (destruct Ht as [-> | ->]; done).
  destruct (notified_parent s p Hi) as (r & Er & Hr). destruct r as [parent|].
  2:{ apply notify_nothing; [done|done|]. cbn. unfold NotifyInvalEntryJob. rewrite Er. done. }
  destruct (Hr parent eq_refl) as [[op Hop] _].
  destruct (RemoveChild_serves (ClientTree (good_inode s)) parent x op _ (i_client _ Hi) Hop) as (t' & E & Hse & Hw).
  apply (notify_kept s l1 a l2 t'); [done|done| |done|done].
  cbn. unfold NotifyInvalEntryJob. rewrite Er. cbn [mbind res_bind]. rewrite Ec, Ed, E. done.
Qed.

Lemma notify_inode s l1 n l2 :
  Inv s → sy_notes s = l1 ++ Plain (NotifyInvalInode n) :: l2 → notified s l1 (Plain (NotifyInvalInode n)) l2.
Proof.
  intros Hi Hn. destruct (notified_parent s n Hi) as (r & Er & Hr). destruct r as [leaf|].
  2:{ apply notify_nothing; [done|done|]. cbn. unfold NotifyInvalInodeJob. rewrite Er. done. }
  destruct (Hr leaf eq_refl) as [Hleaf _]. pose proof (i_client _ Hi) as Ht.
  apply (notify_kept s l1 _ l2 (FileTree.hold leaf (cl_tree (sy_client s)))); [done|done| |..].
  - cbn. unfold NotifyInvalInodeJob. rewrite Er. done.
  - apply (keeps_serves (ClientTree (good_inode s))); [done| |by apply same_leaves_keeps].
    apply hold_ok; [apply (ct_order _ _ Ht)..|done].
  - apply keeps_within. by apply same_leaves_keeps.
Qed.

(** Every notification is processed. *)
Lemma notify_returns s l1 a l2 : Inv s → sy_notes s = l1 ++ a :: l2 → notified s l1 a l2.
Proof.
  intros Hi Hn. assert (Hnote : is_note a).
  { pose proof (i_notes _ Hi) as H. rewrite Forall_forall in H. apply H. rewrite Hn. apply elem_of_app. right. by left. }
  destruct a as [m|?|?]; [destruct m|..]; try done.
  - by apply notify_inode.
  - cbn in Hnote. assert (H : (eventType = 1 ∨ eventType = 4) ∨ (eventType = 2 ∨ eventType = 3)) by tauto.
    destruct H; [by apply notify_created|by apply notify_deleted].
Qed.

End Reacting.

(** *** The other jobs of the client *)

Lemma release_returns s l1 c n l2 : Inv s → sy_releases s = l1 ++ (c, n) :: l2 →
  ∃ client, ReleaseLeafRefJob c n (sy_client s) = Ret client ∧
    Inv (after_client s client [] [] [] [] (sy_requests s) (l1 ++ l2) (sy_notes s) [] [] []).
Proof.
  intros Hi Hrel. pose proof (i_client _ Hi) as Ht. pose proof (i_releases _ Hi) as Hn. rewrite Hrel, Forall_app, Forall_cons in Hn.
  destruct Hn as (Hn1 & Hn & Hn2). cbn in Hn. set (crest := (d_inode <$> sy_refs s) ++ expand (l1 ++ l2)).
  assert (Hsplit : client_refs s ≡ₚ replicate (Z.to_nat n) c ++ crest).
  { unfold client_refs, crest, expand. rewrite Hrel, !bind_app, bind_cons. cbn. solve_Permutation. }
  pose proof (i_crefs _ Hi) as Hc. rewrite Hsplit in Hc.
  destruct (proj2 Hc c) as [o Ho]; [apply elem_of_app; left; rewrite elem_of_replicate; split; [done|lia]|].
  assert (Ha : FileTree.address c (cl_tree (sy_client s)) = c).
  { unfold FileTree.address, FUSE_ROOT_ID. rewrite (proj2 (Z.eqb_neq _ _)); [done|]. intros ->. by rewrite (ct_one _ _ Ht) in Ho. }
  destruct (ReleaseRef_serves (ClientTree (good_inode s)) n c crest _ Ht Hn Hc) as (t' & E & Hse & Hw).
  exists (Client.with_tree t' (sy_client s)). split.
  { unfold ReleaseLeafRefJob. erewrite GetLeaf_at by (rewrite Ha; exact Ho). rewrite Ha. cbn [mbind res_bind]. by rewrite E. }
  apply (Inv_client s _ [] [] [] [] [] _ _ _ [] [] _ [] (replicate (Z.to_nat n) c) crest). split; try done.
  - intros e He. unfold crest. apply elem_of_app. by left.
  - by apply Forall_app.
  - rewrite (i_handles _ Hi). done.
  - by intros d ?%not_elem_of_nil.
  - by intros e h' ?%not_elem_of_nil.
  - by intros q ?%not_elem_of_nil.
  - intros p x m H. right; left. by eapply client_name_within; [apply Ht|apply Hse|done|].
  - by intros q p x m ?%not_elem_of_nil.
Qed.

Lemma unhold_returns s a : Inv s → ∃ t', FileTree.unhold a (cl_tree (sy_client s)) = Ret t' ∧
  Inv (after_client s (Client.with_tree t' (sy_client s)) [] [] [] [] (sy_requests s) (sy_releases s) (sy_notes s) [] [] []).
Proof.
  intros Hi. pose proof (i_client _ Hi) as Ht. destruct (unhold_keeps a _ (ct_order _ _ Ht)) as (t' & E & Hok & K). exists t'. split; [done|].
  pose proof (keeps_serves (ClientTree (good_inode s)) _ _ Ht Hok K) as Hse.
  apply (Inv_client s _ [] [] [] [] [] _ _ _ [] [] _ [] [] (client_refs s)). split; try done.
  - intros e He. unfold client_refs. apply elem_of_app. by left.
  - apply (i_releases _ Hi).
  - rewrite (i_handles _ Hi). done.
  - by intros d ?%not_elem_of_nil.
  - by intros e h' ?%not_elem_of_nil.
  - by intros q ?%not_elem_of_nil.
  - intros p x m H. right; left. by eapply client_name_within; [apply Ht|apply Hse|by apply keeps_within|].
  - by intros q p x m ?%not_elem_of_nil.
Qed.

(** *** Sending the requests *)

Lemma ToServerInode_known s c : Inv s → Known (sy_refs s) c → ToServerInode c (cl_tree (sy_client s)) = Ret (inode s c).
Proof.
  intros Hi [->|Hc]; [done|]. destruct (client_leaf s c Hi Hc) as (o & Ho & H1 & _ & (Hg & _)). unfold ToServerInode, inode, inode_of, FUSE_ROOT_ID.
  rewrite (proj2 (Z.eqb_neq _ _) H1). unfold FileTree.leaf_at. rewrite Ho. cbn [mbind res_bind]. unfold LeafObject.GetServerInode.
  by rewrite (proj2 (Z.eqb_neq _ _) Hg).
Qed.

Lemma GetFileHandle_known s h : Inv s → h ∈ handles s → GetFileHandle h (sy_client s) = Ret (file s h).
Proof.
  intros Hi Hh. rewrite <- (i_handles _ Hi) in Hh. apply keys_elem in Hh as [rf Hrf]. unfold GetFileHandle, file, file_of. by rewrite Hrf.
Qed.

Lemma open_handle s c h : (c, h) ∈ sy_opens s → h ∈ handles s.
Proof. intros Hin. unfold handles. apply elem_of_app. left. apply list_elem_of_fmap. by exists (c, h). Qed.

Ltac execute_main :=
  unfold RequestGetAttrJob_ExecuteMain, RequestLookupJob_ExecuteMain, RequestOpenDirJob_ExecuteMain, RequestOpenJob_ExecuteMain,
    RequestReleaseJob_ExecuteMain, RequestReleaseDirJob_ExecuteMain, RequestReadDirJob_ExecuteMain,
    RequestReadDirPlusJob_ExecuteMain.

Lemma execute_returns s l1 id k job l2 : Inv s → sy_requests s = l1 ++ mkRequest id k (Asked job) :: l2 →
  ∃ m, ExecuteMain job (sy_client s) = Ret m ∧ Inv (after_server s (sy_server s) (l1 ++ mkRequest id k (Sent m) :: l2) (sy_notes s)).
Proof.
  intros Hi Hreq. assert (Hq : mkRequest id k (Asked job) ∈ sy_requests s) by (rewrite Hreq; apply elem_of_app; right; by left).
  pose proof (i_requests _ Hi _ Hq) as [R1 R2 R3 (forgets & Hf & Ej) _]. cbn [rq_call rq_id] in *. subst job.
  assert (Hcl : ∀ h, call_closes k = Some h → h ∈ handles s).
  { intros h Hh. unfold handles. rewrite !elem_of_app. right; left. apply list_elem_of_bind. eexists. split; [|exact Hq]. cbn. rewrite Hh. by left. }
  exists (message_for (inode s) (file s) id k forgets). split.
  - destruct k as [c h|c x|c fi|c fi|c h|c h|c n|fs|c size off h|c size off h]; cbn in *; try done; execute_main;
      rewrite (ToServerInode_known s c Hi (R1 c eq_refl)); cbn [mbind res_bind]; try done; by rewrite (GetFileHandle_known s h Hi (Hcl h eq_refl)).
  - eapply Inv_restage; [done|exact Hreq|..].
    + by destruct k.
    + intros root I H. by destruct k.
    + done.
    + by exists forgets.
Qed.

(** *** Asking *)

Lemma Inv_ask s id k job refs opens rels :
  let q := mkRequest id k (Asked job) in
  Inv s → id ∉ sy_asked s → (∀ d, d ∈ refs → d ∈ sy_refs s) →
  (∀ d, d ∈ refs → Known refs (d_parent d)) → (∀ c h, (c, h) ∈ opens → Known refs c) →
  (∀ q c, q ∈ sy_requests s → call_inode (rq_call q) = Some c → Known refs c) →
  (∀ q c h, q ∈ sy_requests s → call_uses (rq_call q) = Some (c, h) → (c, h) ∈ opens) →
  (place (sroot s) (inode s) <$> (d_inode <$> sy_refs s)) ++ (place (sroot s) (inode s) <$> (sy_opens s).*1) ≡ₚ
    request_owes (sroot s) (inode s) (file s) q ++ (place (sroot s) (inode s) <$> (d_inode <$> refs)) ++ (place (sroot s) (inode s) <$> opens.*1) →
  d_inode <$> sy_refs s ≡ₚ expand rels ++ (d_inode <$> refs) → Forall (λ f, 0 < f.2) rels →
  (file s <$> (sy_opens s).*2) ≡ₚ (request_files 0 Datatypes.id (file s) q).*1 ++ (file s <$> opens.*2) →
  (sy_opens s).*2 ≡ₚ option_list (call_closes k) ++ opens.*2 →
  (∀ c, call_inode k = Some c → Known refs c) → (∀ c h, call_uses k = Some (c, h) → (c, h) ∈ opens) →
  (∀ c h, k = Call_release c h → c ≠ 1) → shape (inode s) (file s) q →
  Inv (mkSystem (sy_server s) (sy_client s) refs opens (q :: sy_requests s) (rels ++ sy_releases s) (sy_notes s) (sy_lost s) (sy_unclosed s)
    (id :: sy_asked s) (sy_replies s)).
Proof.
  intros q Hi Hid Hrefs Hpar Hopens Hknown Huses Howes Hcrefs Hrels Hfiles Hhandles K1 K2 K3 K4. set (s' := mkSystem _ _ _ _ _ _ _ _ _ _ _).
  assert (Hclaim : ∀ p x n, claim s' p x n → claim s p x n).
  { intros p x n [H|[H|[H|H]]]; [by left|right; by left| |right; right; by right]. cbn [s' sy_requests] in H. rewrite bind_cons in H. right; right; by left. }
  assert (Hnew : RequestOk s' q).
  { split; [done..|]. by intros p x n ?%not_elem_of_nil. }
  split; try done.
  - apply (i_server _ Hi).
  - apply (i_client _ Hi).
  - eapply Counted_perm; [|exact (i_owed _ Hi)]. unfold owed. cbn [s' sy_requests sy_refs sy_opens sy_lost]. rewrite bind_cons, app_assoc, Howes.
    change (inode s') with (inode s). change (file s') with (file s). change (sroot s') with (sroot s). solve_Permutation.
  - eapply Counted_perm; [|exact (i_crefs _ Hi)]. unfold client_refs, expand. cbn [s' sy_refs sy_releases]. rewrite Hcrefs, bind_app. unfold expand. solve_Permutation.
  - apply Forall_app. split; [done|apply (i_releases _ Hi)].
  - etrans; [apply (i_files _ Hi)|]. rewrite !files_keys. cbn [s' sy_requests sy_opens]. rewrite bind_cons, Hfiles. solve_Permutation.
  - apply (i_fds _ Hi).
  - etrans; [apply (i_handles _ Hi)|]. unfold handles. cbn [s' sy_requests sy_opens]. rewrite bind_cons, Hhandles. cbn [rq_call q]. solve_Permutation.
  - cbn [s' sy_asked sy_replies sy_requests fmap list_fmap rq_id q]. rewrite (i_ids _ Hi). solve_Permutation.
  - apply NoDup_cons. split; [done|apply (i_fresh _ Hi)].
  - intros d Hd. destruct (i_refs _ Hi d (Hrefs d Hd)) as [D1 D2 D3]. split; [by apply Hpar|done|done].
  - intros q' [->|Hq]%elem_of_cons; [done|]. destruct (i_requests _ Hi q' Hq) as [R1 R2 R3 R4 R5].
    split; [intros c Hc; by eapply Hknown|intros c h Hh; by eapply Huses|done|done|done].
  - apply (i_notes _ Hi).
  - intros p x n n' H1%Hclaim H2%Hclaim. by eapply (i_names _ Hi).
  - intros p x n H1%Hclaim. by apply (i_good _ Hi p x n).
  - intros p x n H1%Hclaim. by apply (i_dirs _ Hi p x n).
Qed.

(** The state after a call: its jobs wait. *)
Definition after_call s (id : Z) (k : call) (refs : list dentry) (opens : list (Z * Z)) (jobs : list client_job) : System :=
  mkSystem (sy_server s) (sy_client s) refs opens (requests_of id k jobs ++ sy_requests s) (releases_of jobs ++ sy_releases s)
    (sy_notes s) (sy_lost s) (sy_unclosed s) (id :: sy_asked s) (sy_replies s).

Lemma ask_plain s id k job :
  Inv s → id ∉ sy_asked s → call_closes k = None → (∀ c, call_inode k = Some c → Known (sy_refs s) c) →
  (∀ c h, call_uses k = Some (c, h) → (c, h) ∈ sy_opens s) → request_owes (sroot s) (inode s) (file s) (mkRequest id k (Asked job)) = [] →
  request_files 0 Datatypes.id (file s) (mkRequest id k (Asked job)) = [] →
  shape (inode s) (file s) (mkRequest id k (Asked job)) → Inv (after_call s id k (sy_refs s) (sy_opens s) [Request_job job]).
Proof.
  intros Hi Hid Hcl Hk Hu Ho Hf Hs. apply (Inv_ask s id k job (sy_refs s) (sy_opens s) []); try done.
  - intros d Hd. apply (i_refs _ Hi d Hd).
  - apply (i_opens _ Hi).
  - intros q c Hq. apply (rq_known _ _ (i_requests _ Hi q Hq)).
  - intros q c h Hq. apply (rq_uses _ _ (i_requests _ Hi q Hq)).
  - by rewrite Ho.
  - by rewrite Hf.
  - by rewrite Hcl.
  - intros c h ->. done.
Qed.

Lemma ask_close s id k job c h opens :
  Inv s → id ∉ sy_asked s → closes_from s c h opens → call_inode k = Some c → call_closes k = Some h → call_uses k = None →
  (∀ c h, k = Call_release c h → c ≠ 1) →
  (∀ root I H, request_files root I H (mkRequest id k (Asked job)) = [(H h, place root I c)]) →
  stage_owes (Asked job) = [] → shape (inode s) (file s) (mkRequest id k (Asked job)) →
  Inv (after_call s id k (sy_refs s) opens [Request_job job]).
Proof.
  intros Hi Hid [Hopens Hunused] Hk Hcl Hu H1 Hf Ho Hs.
  assert (Hc : Known (sy_refs s) c) by (apply (i_opens _ Hi c h); rewrite Hopens; by left).
  apply (Inv_ask s id k job (sy_refs s) opens []); try done.
  - intros d Hd. apply (i_refs _ Hi d Hd).
  - intros c' h' Hin. apply (i_opens _ Hi c' h'). rewrite Hopens. by right.
  - intros q c' Hq. apply (rq_known _ _ (i_requests _ Hi q Hq)).
  - intros q c' h' Hq Hu'. pose proof (rq_uses _ _ (i_requests _ Hi q Hq) _ _ Hu') as Hin. rewrite Hopens in Hin.
    apply elem_of_cons in Hin as [[= -> ->]|Hin]; [|done]. by destruct (Hunused q c Hq).
  - unfold request_owes. rewrite Hf. cbn [rq_stage]. rewrite Ho, Hopens. cbn. solve_Permutation.
  - rewrite Hf, Hopens. done.
  - rewrite Hcl, Hopens. done.
  - intros c' Hc'. rewrite Hk in Hc'. by injection Hc' as <-.
  - intros c' h' Hc'. by rewrite Hu in Hc'.
Qed.

Lemma expand_map (g : Z → Z) forgets : expand ((λ f, (g f.1, f.2)) <$> forgets) = g <$> expand forgets.
Proof.
  induction forgets as [|[c n] forgets IH]; [done|]. unfold expand in *. rewrite fmap_cons, !bind_cons, IH, fmap_app. cbn. by rewrite fmap_replicate.
Qed.

Lemma expand_elem c n forgets : (c, n) ∈ forgets → 0 < n → c ∈ expand forgets.
Proof.
  intros Hin Hn. apply list_elem_of_bind. exists (c, n). split; [|done]. cbn. rewrite elem_of_replicate. split; [done|lia].
Qed.

Lemma translate_known s forgets : Inv s → (∀ c n, (c, n) ∈ forgets → c ∈ d_inode <$> sy_refs s) →
  translate_forgets forgets (cl_tree (sy_client s)) = Ret ((λ f, (inode s f.1, f.2)) <$> forgets).
Proof.
  induction forgets as [|[c n] forgets IH]; intros Hi H; [done|]. cbn [translate_forgets].
  rewrite (ToServerInode_known s c Hi) by (right; apply (H c n); by left). cbn [mbind res_bind].
  rewrite IH; [done|done|]. intros c' n' Hin. apply (H c' n'). by right.
Qed.

Lemma ask_forget s id k forgets refs job :
  Inv s → id ∉ sy_asked s → forgets_from s forgets refs → (∃ c n, k = Call_forget c n) ∨ (∃ fs, k = Call_forgetmulti fs) →
  job = RequestForgetMultiJob id ((λ f, (inode s f.1, f.2)) <$> forgets) →
  translate_forgets forgets (cl_tree (sy_client s)) = Ret ((λ f, (inode s f.1, f.2)) <$> forgets) ∧
  Inv (mkSystem (sy_server s) (sy_client s) refs (sy_opens s) (mkRequest id k (Asked job) :: sy_requests s) (forgets ++ sy_releases s) (sy_notes s)
    (sy_lost s) (sy_unclosed s) (id :: sy_asked s) (sy_replies s)).
Proof.
  intros Hi Hid (Hn & (B1 & B2 & B3) & gone & Hgone & Hexp) Hk ->. rewrite Forall_forall in Hn.
  assert (Hin : ∀ c n, (c, n) ∈ forgets → c ∈ d_inode <$> sy_refs s).
  { intros c n Hin. rewrite Hgone, fmap_app, Hexp. apply elem_of_app. left. eapply expand_elem; [exact Hin|]. by apply (Hn (c, n)). }
  assert (Hinode : ∀ c, c ∈ d_inode <$> sy_refs s → place (sroot s) (inode s) c = inode s c ∧ inode s c ≠ 1).
  { intros c Hc. apply list_elem_of_fmap in Hc as (d & -> & Hd). split; [by apply place_ref|].
    destruct (inode_leaf s (d_inode d) Hi) as (o & _ & _ & Hg); [by apply list_elem_of_fmap_2|]. by destruct Hg as (_ & ? & _). }
  split; [by apply translate_known|].
  assert (Hfiles : ∀ root I H st, request_files root I H (mkRequest id k st) = []).
  { intros root I H st. by destruct Hk as [(? & ? & ->)|(? & ->)]. }
  apply (Inv_ask s id k _ refs (sy_opens s) forgets); try done.
  - intros d Hd. rewrite Hgone. apply elem_of_app. by right.
  - intros q c h Hq. apply (rq_uses _ _ (i_requests _ Hi q Hq)).
  - unfold request_owes. rewrite Hfiles. cbn [rq_stage stage_owes]. rewrite expand_map, Hgone, !fmap_app, <- app_assoc. f_equiv.
    assert (E : (place (sroot s) (inode s) <$> expand forgets) = (inode s <$> expand forgets)); [|by rewrite Hexp, E].
    apply list_fmap_ext. intros j c Hj%list_elem_of_lookup_2. apply Hinode. rewrite Hgone, fmap_app, Hexp. apply elem_of_app. by left.
  - by rewrite Hgone, fmap_app, Hexp.
  - by apply Forall_forall.
  - by rewrite Hfiles.
  - by destruct Hk as [(? & ? & ->)|(? & ->)].
  - intros c. by destruct Hk as [(? & ? & ->)|(? & ->)].
  - intros c h. by destruct Hk as [(? & ? & ->)|(? & ->)].
  - intros c h. by destruct Hk as [(? & ? & ->)|(? & ->)].
  - exists ((λ f, (inode s f.1, f.2)) <$> forgets). split; [|by destruct Hk as [(? & ? & ->)|(? & ->)]].
    apply Forall_fmap, Forall_forall. intros [c n] Hc. cbn. split; [by apply Hinode, (Hin c n)|by apply (Hn (c, n))].
Qed.

Lemma asked_shape s id k : shape (inode s) (file s) (mkRequest id k (Asked (job_for (file s) id k []))).
Proof. exists []. split; [by apply Forall_nil|done]. Qed.

Lemma ask_returns s id k refs opens : Inv s → permits s k refs opens → id ∉ sy_asked s →
  ∃ jobs, FuseCall id k (sy_client s) = Ret jobs ∧ Inv (after_call s id k refs opens jobs).
Proof.
  intros Hi Hp Hid.
  assert (Hfile : ∀ c h, (c, h) ∈ sy_opens s → GetFileHandle h (sy_client s) = Ret (file s h) ∧ Known (sy_refs s) c).
  { intros c h Hin. split; [by eapply GetFileHandle_known, open_handle|by apply (i_opens _ Hi c h)]. }
  destruct k as [c h|c x|c fi|c fi|c h|c h|c n|fs|c size off h|c size off h]; cbn in Hp.
  - destruct h as [h|]; destruct Hp as (Hc & -> & ->).
    + destruct (Hfile c h Hc) as [E Hk]. eexists. split; [cbn; unfold FuseGetattr; rewrite E; done|].
      apply ask_plain; try done; [by intros ? [= <-]|by intros ? ? [= <- <-]|by apply asked_shape].
    + eexists. split; [done|]. apply ask_plain; try done; [by intros ? [= <-]|by apply asked_shape].
  - destruct Hp as (Hc & -> & ->). eexists. split; [done|]. apply ask_plain; try done; [by intros ? [= <-]|by apply asked_shape].
  - destruct Hp as (Hc & -> & ->). eexists. split; [done|]. apply ask_plain; try done; [by intros ? [= <-]|by apply asked_shape].
  - destruct Hp as (Hc & -> & ->). eexists. split; [done|]. apply ask_plain; try done; [by intros ? [= <-]|by apply asked_shape].
  - destruct Hp as (Hc & Hcl & ->). eexists. split; [done|]. eapply ask_close; try done; [by intros ? ? [= <- <-]|by apply asked_shape].
  - destruct Hp as (Hcl & ->). eexists. split; [done|]. eapply ask_close; try done; by apply asked_shape.
  - destruct Hp as [Hf ->]. destruct (ask_forget s id (Call_forget c n) [(c, n)] refs _ Hi Hid Hf ltac:(eauto) eq_refl) as [E Hi'].
    eexists. split; [cbn [FuseCall]; unfold FuseForget; rewrite E; done|exact Hi'].
  - destruct Hp as [Hf ->]. destruct (ask_forget s id (Call_forgetmulti fs) fs refs _ Hi Hid Hf ltac:(eauto) eq_refl) as [E Hi'].
    eexists. split; [cbn [FuseCall]; unfold FuseForgetmulti; rewrite E; done|]. unfold after_call, requests_of, releases_of.
    rewrite !bind_app. assert (E1 : ∀ l : list (Z * Z), ((λ f, ReleaseLeafRef_job f.1 f.2) <$> l) ≫=
      (λ j, match j with Request_job j => [mkRequest id (Call_forgetmulti fs) (Asked j)] | ReleaseLeafRef_job _ _ => [] end) = []).
    { intros l. by induction l. }
    assert (E2 : ∀ l : list (Z * Z), ((λ f, ReleaseLeafRef_job f.1 f.2) <$> l) ≫=
      (λ j, match j with Request_job _ => [] | ReleaseLeafRef_job c n => [(c, n)] end) = l).
    { intros l. induction l as [|[c n] l IH]; [done|]. rewrite fmap_cons, bind_cons, IH. done. }
    rewrite E1, E2. cbn [mbind list_bind app]. rewrite app_nil_r. exact Hi'.
  - destruct Hp as (Hc & -> & ->). destruct (Hfile c h Hc) as [E Hk]. eexists. split; [cbn; unfold FuseReadDir; rewrite E; done|].
    apply ask_plain; try done; [by intros ? [= <-]|by intros ? ? [= <- <-]|by apply asked_shape].
  - destruct Hp as (Hc & -> & ->). destruct (Hfile c h Hc) as [E Hk]. eexists. split; [cbn; unfold FuseReadDirPlus; rewrite E; done|].
    apply ask_plain; try done; [by intros ? [= <-]|by intros ? ? [= <- <-]|by apply asked_shape].
Qed.

(** ** Every history *)

Lemma step_invariant s s' : Inv s → step s s' → Inv s'.
Proof.
  intros Hi H. destruct H as [id k refs opens jobs Hp Hid E|l1 id k job l2 m Hreq E|os alloc new_file l1 id k m l2 server a Hb Hos Ha Hnew Hreq E Hfree
    |alloc new_handle l1 id k a l2 client r Hb Ha Hnew Hreq E|l1 c n l2 client Hrel E|os alloc event server answers Ha E Hfree
    |alloc new_handle l1 a l2 client Ha Hn E|a t E].
  - destruct (ask_returns s id k refs opens Hi Hp Hid) as (jobs' & E' & Hi'). rewrite E in E'. by simplify_eq.
  - destruct (execute_returns s l1 id k job l2 Hi Hreq) as (m' & E' & Hi'). rewrite E in E'. by simplify_eq.
  - destruct (serve_returns s os alloc new_file Hi Hb Hos Ha Hnew l1 id k m l2 Hreq) as [[_ E']|(server' & a' & E' & Hi')]; rewrite E in E'; simplify_eq. by apply Hi'.
  - destruct (react_returns alloc new_handle Ha Hnew s l1 id k a l2 Hi Hb Hreq) as (client' & r' & E' & _ & Hi'). rewrite E in E'. by simplify_eq.
  - destruct (release_returns s l1 c n l2 Hi Hrel) as (client' & E' & Hi'). rewrite E in E'. by simplify_eq.
  - destruct (watch_returns s os alloc event Hi Ha) as (server' & answers' & E' & Hi'). rewrite E in E'. simplify_eq. by apply Hi'.
  - destruct (notify_returns alloc new_handle Ha s l1 a l2 Hi Hn) as (t' & E' & Hi'). rewrite E in E'. by simplify_eq.
  - destruct (unhold_returns s a Hi) as (t' & E' & Hi'). rewrite E in E'. by simplify_eq.
Qed.

(** The server starts with the tree [t] of what is on its disk, to which nobody refers; the
    client with the root, at [a]. *)
Record begins (t : FileTree P J) (a : Z) s : Prop := {
  be_state : ∃ name, s = mkSystem (mkServer t ∅) (mkClient (FileTree.make name a) ∅) [] [] [] [] [] [] [] [] [];
  be_root : a ≠ 0 ∧ a ≠ 1;
  be_server : ServerTree (λ b, b ≠ 0 ∧ b ≠ 1 ∧ b ≠ a) t;
  be_unreferred : ∀ b o, ft_leaves t !! b = Some o → lo_nlookup o = 0;
  be_names : ∀ p x n, name_in t p x n → is_dot x = false;
}.

Lemma begins_inv t a s : begins t a s → Inv s.
Proof.
  intros [[name ->] [Ha0 Ha1] Hs Hn Hd]. set (s := mkSystem _ _ _ _ _ _ _ _ _ _ _).
  assert (Hclaim : ∀ p x n, claim s p x n → name_in t p x n).
  { intros p x n [H|[(c & d & oc & od & (o & Ho & Hin) & _)|[H|H]]]; [done| |by apply not_elem_of_nil in H..].
    cbn in Ho. apply lookup_singleton_Some in Ho as [_ <-]. by apply not_elem_of_nil in Hin. }
  assert (Hempty : ∀ m : gmap Z (LeafObject P J), (∀ b o, m !! b = Some o → lo_nlookup o = 0) → Counted m []).
  { intros m Hm. split; [intros b o Hb; by rewrite (Hm b o Hb)|by intros b ?%not_elem_of_nil]. }
  split; try done.
  - split; [by apply make_in_order|..]; cbn.
    + intros o [_ <-]%lookup_singleton_Some. done.
    + intros b o [-> _]%lookup_singleton_Some. done.
    + by rewrite lookup_singleton_ne.
  - apply Hempty, Hn.
  - apply Hempty. cbn. intros b o [_ <-]%lookup_singleton_Some. done.
  - cbn. intros rf. by rewrite lookup_empty, is_Some_alt.
  - constructor.
  - by intros d ?%not_elem_of_nil.
  - by intros c h ?%not_elem_of_nil.
  - by intros q ?%not_elem_of_nil.
  - intros p x n n' H1%Hclaim H2%Hclaim. by eapply name_in_unique.
  - intros p x n H1%Hclaim. split; [|by eapply Hd]. destruct (name_in_good _ _ _ _ _ Hs H1) as [(?&?&?) Hr]. done.
  - intros p x n (o & Ho & _)%Hclaim. by apply (st_leaf _ _ Hs p o).
Qed.

Lemma name_reachable_inv t a s0 s : begins t a s0 → rtc step s0 s → Inv s.
Proof.
  intros Hb H. eapply (rtc_invariant step Inv); [by eapply begins_inv|exact step_invariant|exact H].
Qed.

(** C8: Every job of the names, on either side, returns, but one that is to open a file the
    operating system does not open, which stops the server with a failed assertion:
    whatever lookups, opens, listings, releases and forgets the kernel asks for, in whatever
    order their jobs and messages are processed, and whatever appears and disappears on the
    disk, the inodes in the messages are leaves that are alive, the files are open, and
    nothing that is forgotten was not referred to; each reply is to the request that it
    answers.  This is so as long as a name that a step gives to a leaf of the server is not
    known yet ([names_free]: no name is used again while somebody knows the old leaf),
    there are fewer than [2^63] references, memory is given where none is used, and each
    callback of the kernel is one step. *)
Theorem name_jobs_return t a s0 s :
  begins t a s0 → rtc step s0 s →
  (∀ id k refs opens, permits s k refs opens → id ∉ sy_asked s → ∃ jobs, FuseCall id k (sy_client s) = Ret jobs) ∧
  (∀ id k job, mkRequest id k (Asked job) ∈ sy_requests s → ∃ m, ExecuteMain job (sy_client s) = Ret m) ∧
  (∀ id k m os alloc new_file, mkRequest id k (Sent m) ∈ sy_requests s → Bounded s → OSOk os → AllocOk (server_address s) alloc → NewOk new_file →
     (refuses os m (sy_server s) ∧ Serve os alloc new_file m (sy_server s) = Err AssertFails) ∨
     ∃ server answer, Serve os alloc new_file m (sy_server s) = Ret (server, answer)) ∧
  (∀ id k answer alloc new_handle, mkRequest id k (Answered answer) ∈ sy_requests s → Bounded s → AllocOk client_address alloc → NewOk new_handle →
     ∃ client r, React alloc new_handle answer (sy_client s) = Ret (client, Some r) ∧ reply_request r = id) ∧
  (∀ c n, (c, n) ∈ sy_releases s → ∃ client, ReleaseLeafRefJob c n (sy_client s) = Ret client) ∧
  (∀ os alloc event, AllocOk (server_address s) alloc → ∃ server notes, ProcessInotifyEventJob os alloc event (sy_server s) = Ret (server, notes)) ∧
  (∀ note alloc new_handle, note ∈ sy_notes s → AllocOk client_address alloc →
     ∃ client, React alloc new_handle note (sy_client s) = Ret (client, None)).
Proof.
  intros Hb Hr. pose proof (name_reachable_inv _ _ _ _ Hb Hr) as Hi. split_and!.
  - intros id k refs opens Hp Hid. destruct (ask_returns s id k refs opens Hi Hp Hid) as (jobs & ? & _). by exists jobs.
  - intros id k job (l1 & l2 & E)%list_elem_of_split. destruct (execute_returns s l1 id k job l2 Hi E) as (m & ? & _). by exists m.
  - intros id k m os alloc new_file (l1 & l2 & E)%list_elem_of_split Hbd Hos Ha Hn.
    destruct (serve_returns s os alloc new_file Hi Hbd Hos Ha Hn l1 id k m l2 E) as [?|(server & a' & ? & _)]; [by left|right].
    by exists server, a'.
  - intros id k ans alloc new_handle (l1 & l2 & E)%list_elem_of_split Hbd Ha Hn.
    destruct (react_returns alloc new_handle Ha Hn s l1 id k ans l2 Hi Hbd E) as (client & r & ? & ? & _). by exists client, r.
  - intros c n (l1 & l2 & E)%list_elem_of_split. destruct (release_returns s l1 c n l2 Hi E) as (client & ? & _). by exists client.
  - intros os alloc event Ha. destruct (watch_returns s os alloc event Hi Ha) as (server & notes & ? & _). by exists server, notes.
  - intros note alloc new_handle (l1 & l2 & E)%list_elem_of_split Ha.
    destruct (notify_returns alloc new_handle Ha s l1 note l2 Hi E) as (t' & ? & _). by eexists.
Qed.

(** C9: The counters of both sides are exact: a leaf of the server counts the references of
    the kernel to it, those in messages, those of open files, and those that were lost with
    an answer the client gave up ([given_up]); a leaf of the client counts those of the
    kernel and those whose release waits.  When the kernel has forgotten and closed
    everything and nothing is under way, a leaf of the server that none was lost of has no
    references, every file of the server is closed, the handles of the client are those of
    files that could not be closed ([left_open]), and a leaf of the client has no
    references once the releases have run.  The histories are those of C8. *)
Theorem references_balanced t a s0 s :
  begins t a s0 → rtc step s0 s →
  (∀ b o, ft_leaves (sv_tree (sy_server s)) !! b = Some o → lo_nlookup o = count b (owed s)) ∧
  (∀ b, b ∈ owed s → is_Some (ft_leaves (sv_tree (sy_server s)) !! b)) ∧
  (∀ c o, ft_leaves (cl_tree (sy_client s)) !! c = Some o → lo_nlookup o = count c (client_refs s)) ∧
  (sy_refs s = [] → sy_opens s = [] → sy_requests s = [] →
     (∀ rf fd, sv_files (sy_server s) !! rf = Some fd → fd = -1) ∧
     (map_to_list (cl_handles (sy_client s))).*1 ≡ₚ sy_unclosed s ∧
     (∀ b o, ft_leaves (sv_tree (sy_server s)) !! b = Some o → b ∉ sy_lost s → lo_nlookup o = 0) ∧
     (sy_releases s = [] → ∀ c o, ft_leaves (cl_tree (sy_client s)) !! c = Some o → lo_nlookup o = 0)).
Proof.
  intros Hb Hr. pose proof (name_reachable_inv _ _ _ _ Hb Hr) as Hi. split_and!.
  - apply (i_owed _ Hi).
  - apply (i_owed _ Hi).
  - apply (i_crefs _ Hi).
  - intros E1 E2 E3. assert (Hnil : ∀ m : gmap Z Z, (map_to_list m).*1 ≡ₚ [] → m = ∅).
    { intros m Hm%Permutation_nil_r%fmap_nil_inv. by apply map_to_list_empty_iff. }
    split_and!.
    + assert (Hlive : live (sv_files (sy_server s)) = ∅).
      { apply Hnil. rewrite (i_files _ Hi). unfold files. by rewrite E2, E3. }
      intros rf fd Hrf. destruct (decide (fd = -1)) as [|Hne]; [done|].
      assert (H : live (sv_files (sy_server s)) !! rf = Some fd) by by apply live_lookup. by rewrite Hlive, lookup_empty in H.
    + rewrite (i_handles _ Hi). unfold handles. by rewrite E2, E3.
    + intros b o Ho Hlost. rewrite (proj1 (i_owed _ Hi) b o Ho). unfold owed. rewrite E1, E2, E3. cbn. rewrite app_nil_r.
      rewrite count_elem in Hlost. pose proof (count_nonneg b (sy_lost s)). lia.
    + intros E4 c o Ho. rewrite (proj1 (i_crefs _ Hi) c o Ho). unfold client_refs. by rewrite E1, E4.
Qed.

(** C10: An inode of the kernel is the file that the kernel found: the path at which the server
    serves it is made of the names by which the kernel went from the root to it. *)
Theorem inodes_name_files t a s0 s c path :
  begins t a s0 → rtc step s0 s → found s c path →
  ∃ n o, ToServerInode c (cl_tree (sy_client s)) = Ret n ∧
    GetLeaf n (sv_tree (sy_server s)) = Ret (FileTree.address n (sv_tree (sy_server s)), o) ∧
    GetFullPath (FileTree.address n (sv_tree (sy_server s))) (sv_tree (sy_server s)) = Ret path.
Proof.
  intros Hb Hr Hf. pose proof (name_reachable_inv _ _ _ _ Hb Hr) as Hi.
  assert (Hc : Known (sy_refs s) c) by (destruct Hf; [by left|right; by apply list_elem_of_fmap_2]).
  destruct (known_leaf s c Hi Hc) as [o Ho]. exists (inode s c), o. split; [by apply ToServerInode_known|].
  split; [by apply GetLeaf_at|]. by apply GetFullPath_Path, found_path.
Qed.

(** C11: Every request is answered once or is under way. *)
Theorem name_requests_answered_once t a s0 s :
  begins t a s0 → rtc step s0 s →
  NoDup (sy_asked s) ∧ sy_asked s ≡ₚ (reply_request <$> sy_replies s) ++ (rq_id <$> sy_requests s).
Proof. intros Hb Hr. pose proof (name_reachable_inv _ _ _ _ Hb Hr) as Hi. split; [apply (i_fresh _ Hi)|apply (i_ids _ Hi)]. Qed.

End Service.

(** ** The theorems at work *)

Lemma no_claims {P J : Type} `{!IPacket P} (s : System (P := P) (J := J)) :
  map_Forall (λ _ o, lo_children o = []) (ft_leaves (sv_tree (sy_server s))) →
  map_Forall (λ _ o, lo_children o = []) (ft_leaves (cl_tree (sy_client s))) →
  (sy_requests s ≫= λ q, stage_names (sroot s) (inode s) (rq_stage q)) = [] → sy_notes s = [] → ∀ p x n, ¬ claim s p x n.
Proof.
  intros H1 H2 H3 H4 p x n [(o & Ho & Hin)|[(c & d & oc & od & (o & Ho & Hin) & _)|[H|H]]].
  - rewrite (H1 p o Ho) in Hin. by apply not_elem_of_nil in Hin.
  - rewrite (H2 c o Ho) in Hin. by apply not_elem_of_nil in Hin.
  - rewrite H3 in H. by apply not_elem_of_nil in H.
  - rewrite H4 in H. by apply not_elem_of_nil in H.
Qed.

(** Memory is given behind everything that is used. *)
Definition next_free (m : list Z) : Z := 64 + foldr Z.max 64 m.
Definition next_leaf (t : Tree) : Z := next_free (map_to_list (ft_leaves t)).*1.
Definition next_file (m : gmap Z Z) : Z := next_free (map_to_list m).*1.

Lemma next_free_above l k : k ∈ l → k < next_free l.
Proof.
  unfold next_free. induction l as [|a l IH]; [by intros ?%not_elem_of_nil|]. cbn. intros [->|H]%elem_of_cons; [lia|]. specialize (IH H). lia.
Qed.

Lemma next_free_least l : 128 ≤ next_free l.
Proof. unfold next_free. induction l as [|a l IH]; cbn; lia. Qed.

Lemma next_fresh {A} (m : gmap Z A) : m !! next_free (map_to_list m).*1 = None.
Proof.
  destruct (m !! next_free _) as [a|] eqn:E; [|done]. exfalso.
  assert (H : next_free (map_to_list m).*1 < next_free (map_to_list m).*1); [|lia]. apply next_free_above.
  apply list_elem_of_fmap. exists (next_free (map_to_list m).*1, a). split; [done|]. by apply elem_of_map_to_list.
Qed.

Lemma next_file_ok : NewOk next_file.
Proof. intros m. split; [apply next_fresh|]. pose proof (next_free_least (map_to_list m).*1). unfold next_file. lia. Qed.

Lemma next_leaf_ok (real : Z → Prop) : (∀ a, 128 ≤ a → real a) → AllocOk real next_leaf.
Proof.
  intros Hr t. pose proof (next_free_least (map_to_list (ft_leaves t)).*1). split_and!; [apply next_fresh|by apply Hr|unfold next_leaf; lia].
Qed.

(** A disk with one file, "file". *)
Definition disk : OS := mkOS (λ _, ft_regular) (λ _, Some 5) (λ _, Some (mkAttributes 33188 1 5 0 0 0)) (λ _, Some (mkAttributes 33188 1 5 0 0 0))
  (λ _, Some 3) (λ _, (0, 0)) (λ _, [FileTree.File_entry "file" 5]) (λ _, 100).

Lemma disk_ok : OSOk disk.
Proof. split; [by intros p fd [= <-]|done]. Qed.

Abbreviation Sys := (System (P := Packet) (J := unit)).

(** The kernel looks up "file": it asks, the job sends, the server answers, the client
    replies. *)
Definition tree_at_64 : Tree := FileTree.make "disk" 64.
Definition sys0 : Sys := mkSystem (mkServer tree_at_64 ∅) (mkClient (FileTree.make "" 32) ∅) [] [] [] [] [] [] [] [] [].
Definition sys1 : Sys := Eval vm_compute in after_call sys0 7 (Call_lookup 1 "file") [] [] [Request_job (RequestLookupJob 7 1 "file")].
Definition sys2 : Sys := Eval vm_compute in after_server sys1 (sy_server sys1) [mkRequest 7 (Call_lookup 1 "file") (Sent (RequestLookup 7 1 "file"))] [].
Definition served3 : Server Packet unit * answer := Eval vm_compute in
  from_res (sy_server sys2, Listing 0 []) (Serve disk next_leaf next_file (RequestLookup 7 1 "file") (sy_server sys2)).
Definition sys3 : Sys := Eval vm_compute in after_server sys2 served3.1 [mkRequest 7 (Call_lookup 1 "file") (Answered served3.2)] [].
Definition reacted4 : Client Packet unit * option reply := Eval vm_compute in
  from_res (sy_client sys3, None) (React next_leaf next_file served3.2 (sy_client sys3)).
Definition sys4 : Sys := Eval vm_compute in
  mkSystem (sy_server sys3) reacted4.1 [mkDentry 128 1 "file"] [] [] [] [] [] [] [7] [default (Reply_none 0) reacted4.2].

Example sys4_has_the_file :
  reacted4.2 = Some (Reply_entry 7 128 (mkAttributes 33188 1 5 0 0 0)) ∧ inode sys4 128 = 128 ∧ owed sys4 = [128] ∧ client_refs sys4 = [128].
Proof. by vm_compute. Qed.

Lemma sys0_begins : begins tree_at_64 32 sys0.
Proof.
  split; [by exists ""|done| |..].
  - split; cbn.
    + by apply make_in_order.
    + intros b o [<- <-]%lookup_singleton_Some. done.
    + intros b o x c oc [<- <-]%lookup_singleton_Some Hin. by apply not_elem_of_nil in Hin.
    + intros b o [<- <-]%lookup_singleton_Some. constructor.
    + intros o [_ <-]%lookup_singleton_Some. done.
  - cbn. intros b o [_ <-]%lookup_singleton_Some. done.
  - intros p x n (o & Ho & Hin). cbn in Ho. apply lookup_singleton_Some in Ho as [_ <-]. by apply not_elem_of_nil in Hin.
Qed.

(** All children of the new tree of the server are "file". *)
Lemma sys2_free : names_free sys2 (sv_tree served3.1).
Proof.
  intros p x n (o & Ho & Hin). right.
  assert (Hall : map_Forall (λ _ o, Forall (λ c, c.1 = "file") (lo_children o)) (ft_leaves (sv_tree served3.1)))
    by (refine (bool_decide_eq_true_1 _ _); here).
  specialize (Hall p o Ho). rewrite Forall_forall in Hall. specialize (Hall (x, n) Hin). cbn in Hall. subst x.
  split; [done|]. intros n'. apply no_claims; [refine (bool_decide_eq_true_1 _ _); here..|done|done].
Qed.

Lemma sys2_reached : rtc step sys0 sys2.
Proof.
  eapply rtc_l; [eapply (step_ask sys0 7 (Call_lookup 1 "file") [] [])|].
  { by split; [left|]. }
  { by apply not_elem_of_nil. }
  { reflexivity. }
  eapply rtc_l; [eapply (step_execute sys1 [] 7 (Call_lookup 1 "file") (RequestLookupJob 7 1 "file") [])|].
  { here. }
  { here. }
  reflexivity.
Qed.

Lemma scene4_reached : rtc step sys0 sys4.
Proof.
  etransitivity; [exact sys2_reached|].
  eapply rtc_l; [eapply (step_serve sys2 disk next_leaf next_file [] 7 (Call_lookup 1 "file") (RequestLookup 7 1 "file") [] served3.1 served3.2)|].
  { by vm_compute. }
  { exact disk_ok. }
  { apply next_leaf_ok. intros a Ha. split_and!; [lia|lia|]. change (croot sys2) with 32. lia. }
  { exact next_file_ok. }
  { here. }
  { here. }
  { exact sys2_free. }
  eapply rtc_l; [eapply (step_react sys3 next_leaf next_file [] 7 (Call_lookup 1 "file") served3.2 [] reacted4.1
    (Reply_entry 7 128 (mkAttributes 33188 1 5 0 0 0)))|].
  { by vm_compute. }
  { apply next_leaf_ok. unfold client_address. lia. }
  { exact next_file_ok. }
  { here. }
  { here. }
  reflexivity.
Qed.

Lemma name_jobs_return_witness :
  (∃ server answer, Serve disk next_leaf next_file (RequestLookup 7 1 "file") (sy_server sys2) = Ret (server, answer)) ∧
  ∃ jobs, FuseCall 8 (Call_forget 128 1) (sy_client sys4) = Ret jobs.
Proof.
  split.
  - destruct (name_jobs_return tree_at_64 32 sys0 sys2 sys0_begins sys2_reached) as (_ & _ & H & _).
    destruct (H 7 (Call_lookup 1 "file") (RequestLookup 7 1 "file") disk next_leaf next_file) as [[[] _]|Hs]; [| | | | |exact Hs].
    + by left.
    + by vm_compute.
    + exact disk_ok.
    + apply next_leaf_ok. intros a Ha. split_and!; [lia|lia|]. change (croot sys2) with 32. lia.
    + exact next_file_ok.
  - destruct (name_jobs_return tree_at_64 32 sys0 sys4 sys0_begins scene4_reached) as [H _].
    apply (H 8 (Call_forget 128 1) [] []).
    + split; [|done]. split; [by repeat constructor|]. split; [|by exists [mkDentry 128 1 "file"]].
      split_and!; [by intros c h ?%not_elem_of_nil|by intros q c ?%not_elem_of_nil|by intros d ?%not_elem_of_nil].
    + by intros ?%list_elem_of_singleton.
Defined.

Lemma references_balanced_witness :
  ∃ o, ft_leaves (sv_tree (sy_server sys4)) !! 128 = Some o ∧ lo_nlookup o = count 128 (owed sys4) ∧ count 128 (owed sys4) = 1.
Proof.
  destruct (references_balanced tree_at_64 32 sys0 sys4 sys0_begins scene4_reached) as (H & _).
  eexists. split; [reflexivity|]. split; [by apply H|by vm_compute].
Defined.

Lemma inodes_name_files_witness :
  ∃ n o, ToServerInode 128 (cl_tree (sy_client sys4)) = Ret n ∧
    GetLeaf n (sv_tree (sy_server sys4)) = Ret (FileTree.address n (sv_tree (sy_server sys4)), o) ∧
    GetFullPath (FileTree.address n (sv_tree (sy_server sys4))) (sv_tree (sy_server sys4)) = Ret ["disk"; "file"].
Proof.
  apply (inodes_name_files tree_at_64 32 sys0 sys4 128 ["disk"; "file"] sys0_begins scene4_reached).
  apply (found_in sys4 (mkDentry 128 1 "file") ["disk"]); [by left|].
  change ["disk"] with [lo_name (default (LeafObject.make 0 "" ft_directory 0 None) (ft_leaves (sv_tree (sy_server sys4)) !! sroot sys4))].
  apply found_root. here.
Defined.

Lemma name_requests_answered_once_witness : [7] ≡ₚ (reply_request <$> sy_replies sys4) ++ (rq_id <$> sy_requests sys4).
Proof. exact (proj2 (name_requests_answered_once tree_at_64 32 sys0 sys4 sys0_begins scene4_reached)). Defined.

(** ** Where the assumptions end *)

(** "file" is removed and made again.  [ProcessInotifyEventJob] only schedules the
    notification; a lookup that waits behind the two events in the queue of the server is
    answered first, with the new leaf.  The client still has the old leaf under the name,
    with a reference of the kernel, and gives it the new inode. *)
Definition event_of (type : WatchEventType) : WatchEvent := mkWatchEvent ["file"] "file" type false.
Definition recreated : Server Packet unit := Eval vm_compute in
  let s := (from_res (sy_server sys4, []) (ProcessInotifyEventJob disk next_leaf (event_of Deleted) (sy_server sys4))).1 in
  (from_res (s, []) (ProcessInotifyEventJob disk next_leaf (event_of Created) s)).1.
Definition looked_up : Server Packet unit * answer := Eval vm_compute in
  from_res (recreated, Listing 0 []) (Serve disk next_leaf next_file (RequestLookup 8 1 "file") recreated).
Definition misled : Client Packet unit * option reply := Eval vm_compute in
  from_res (sy_client sys4, None) (React next_leaf next_file looked_up.2 (sy_client sys4)).

(** The kernel then forgets both references of its inode 128, and the server, which has one
    of each leaf, releases the two at the new one: the assertion fails. *)
Lemma recreated_name_misleads :
  misled.2 = Some (Reply_entry 8 128 (mkAttributes 33188 1 5 0 0 0)) ∧
  ToServerInode 128 (cl_tree (sy_client sys4)) = Ret 128 ∧ ToServerInode 128 (cl_tree misled.1) = Ret 192 ∧
  FuseForget 9 128 2 misled.1 = Ret [Request_job (RequestForgetMultiJob 9 [(192, 2)]); ReleaseLeafRef_job 128 2] ∧
  Serve disk next_leaf next_file (RequestForgetMulti 9 [(192, 2)]) looked_up.1 = Err AssertFails.
Proof. by vm_compute. Qed.

(** [FuseForgetmulti] schedules the [ReleaseLeafRefJob]s before the constructor of
    [RequestForgetMultiJob] reads the inodes of the leaves: when the leaf is no child any
    more and its job runs first, the constructor reads a leaf that was destroyed. *)
Definition unlinked : Client Packet unit := Eval vm_compute in
  Client.with_tree (from_res (cl_tree (sy_client sys4)) (FileTree.RemoveChild 32 "file" (cl_tree (sy_client sys4)))) (sy_client sys4).

Lemma forget_reads_destroyed_leaf :
  FuseForgetmulti 9 [(128, 1)] unlinked = Ret [ReleaseLeafRef_job 128 1; Request_job (RequestForgetMultiJob 9 [(128, 1)])] ∧
  (client ← ReleaseLeafRefJob 128 1 unlinked; translate_forgets [(128, 1)] (cl_tree client)) = Err Undefined.
Proof. by vm_compute. Qed.

(** A file that appears in the directory that is served: the notification names the root
    of the server by its address, by which the client does not know its root. *)
Lemma root_notifications_lost :
  (r ← ProcessInotifyEventJob disk next_leaf (mkWatchEvent ["new"] "new" Created false) (sy_server sys4); Ret r.2) =
    Ret [Plain (NotifyInvalEntry 1 64 "new" 192 5 0); Plain (NotifyInvalInode 64)] ∧
  React next_leaf next_file (Plain (NotifyInvalEntry 1 64 "new" 192 5 0)) (sy_client sys4) = Ret (sy_client sys4, None) ∧
  React next_leaf next_file (Plain (NotifyInvalInode 64)) (sy_client sys4) = Ret (sy_client sys4, None).
Proof. by vm_compute. Qed.

(** A successful lookup whose directory the client does not find any more is answered with
    an error; the reference that the server has counted is never given back. *)
Lemma reference_given_up :
  let a := Plain (ResponseLookup 9 192 "file" (inr (256, mkAttributes 33188 1 5 0 0 0))) in
  React next_leaf next_file a (sy_client sys4) = Ret (sy_client sys4, Some (Reply_err 9 ENOENT)) ∧ given_up a (Reply_err 9 ENOENT) = [256].
Proof. by vm_compute. Qed.

(** [ResponseReadDirJob] numbers the entries of every answer from 2: an answer that begins
    behind the position of the last one gives the same entries again. *)
Definition two_files : Server Packet unit := Eval vm_compute in
  (from_res (sy_server sys4, []) (ProcessInotifyEventJob disk next_leaf (mkWatchEvent ["new"] "new" Created false) (sy_server sys4))).1.

Lemma listing_repeats :
  (r ← ResponseReadDirJob 1 1 1 2 0 two_files; Ret r.2) = Ret (Listing 1 [("new", 192, 2)]) ∧
  (r ← ResponseReadDirJob 1 1 1 0 0 two_files; Ret r.2) = Ret (Listing 1 [(".", 1, 0); ("..", 1, 1); ("file", 128, 2)]).
Proof. by vm_compute. Qed.

(** A file that cannot be opened stops the server. *)
Lemma unopened_file_asserts :
  let os := mkOS (os_status disk) (os_file_size disk) (os_stat disk) (os_fstat disk) (λ _, None) (os_close disk) (os_listing disk) (os_entry_size disk) in
  Serve os next_leaf next_file (RequestOpen 9 128 1) (sy_server sys4) = Err AssertFails.
Proof. by vm_compute. Qed.
