(* ===== verification/FileCache.v ===== *)
(** * FileCache: the open files of the disk cache
    [FileSystem/src/FileCache/FileCache.cpp]: the files that were used last stay open, at
    most [MaxFiles] of them. *)
From S2P Require Import Prelude.
Local Open Scope Z_scope.

(** [_lruList] has the path used last in front.  [_openedFiles] maps a path to its
    [NativeFile]; [Create] makes a new one, which gets the number [fc_next].  The list
    iterator kept with the file is the place of its path in [_lruList]. *)
Record FileCache := mkFileCache {
  fc_openedFiles : gmap string nat;
  fc_lruList : list string;
  fc_next : nat;
}.

Module FileCache.

Definition MaxFiles : nat := 100.
Definition CleanupFiles : nat := 50.

Definition make : FileCache := mkFileCache ∅ [] 0.

(** [splice(begin(), list, iterator)]: move the entry to the front. *)
Definition touch (path : string) (l : list string) : list string :=
  path :: filter (λ p, p ≠ path) l.

(** One turn of the loop of [CleanupOldFiles]. *)
Definition cleanup_one (c : FileCache) : FileCache :=
  match last (fc_lruList c) with
  | None => c
  | Some p => mkFileCache (delete p (fc_openedFiles c)) (on_back (λ _, []) (fc_lruList c)) (fc_next c)
  end.
Definition CleanupOldFiles (c : FileCache) : FileCache := Nat.iter CleanupFiles cleanup_one c.

Definition GetFile (path : string) (c : FileCache) : FileCache * nat :=
  match fc_openedFiles c !! path with
  | Some file => (mkFileCache (fc_openedFiles c) (touch path (fc_lruList c)) (fc_next c), file)
  | None =>
      let c := if (MaxFiles <=? size (fc_openedFiles c))%nat then CleanupOldFiles c else c in
      let file := fc_next c in
      (mkFileCache (<[path := file]> (fc_openedFiles c)) (path :: fc_lruList c) (S (fc_next c)), file)
  end.

End FileCache.

(** ** The cache in order *)

Import FileCache.
Implicit Types (c : FileCache) (p path : string).

(** The list names each open file once; different paths have different files. *)
Record CacheOk c : Prop := {
  cache_nodup : NoDup (fc_lruList c);
  cache_dom : ∀ p, p ∈ fc_lruList c ↔ is_Some (fc_openedFiles c !! p);
  cache_next : ∀ p n, fc_openedFiles c !! p = Some n → (n < fc_next c)%nat;
  cache_inj : ∀ p q n, fc_openedFiles c !! p = Some n → fc_openedFiles c !! q = Some n → p = q;
}.

Lemma cache_size c : CacheOk c → size (fc_openedFiles c) = length (fc_lruList c).
Proof.
  intros [H1 H2 _ _]. rewrite <- size_dom, <- (size_list_to_set (C := gset string)) by done.
  f_equal. apply set_eq. intros p. by rewrite elem_of_list_to_set, elem_of_dom, H2.
Qed.

Lemma last_split {A} (l : list A) x : last l = Some x → l = on_back (λ _, []) l ++ [x].
Proof.
  intros H. apply last_Some in H as [k ->]. by rewrite on_back_snoc, app_nil_r.
Qed.

Lemma cleanup_one_ok c :
  CacheOk c → CacheOk (cleanup_one c) ∧
  fc_lruList (cleanup_one c) = take (length (fc_lruList c) - 1) (fc_lruList c) ∧
  fc_next (cleanup_one c) = fc_next c ∧
  ∀ p, p ∈ fc_lruList (cleanup_one c) → fc_openedFiles (cleanup_one c) !! p = fc_openedFiles c !! p.
Proof.
  intros Hok. unfold cleanup_one. destruct (last (fc_lruList c)) as [x|] eqn:E.
  2: { apply last_None in E. rewrite E. done. }
  apply last_split in E. set (k := on_back (λ _, []) (fc_lruList c)) in *. pose proof Hok as [H1 H2 H3 H4].
  pose proof H1 as Hnd. rewrite E in Hnd. apply NoDup_app in Hnd as (Hk & Hx & _).
  assert (Hkx : ∀ p, p ∈ k → p ≠ x) by (intros p Hp ->; apply (Hx x Hp); by left).
  assert (Hkeep : ∀ p, p ∈ k → delete x (fc_openedFiles c) !! p = fc_openedFiles c !! p).
  { intros p Hp. apply lookup_delete_ne. intros ->. by apply (Hkx p). }
  split; [split; cbn|cbn; split; [|split]]; try done.
  - intros p. split.
    + intros Hp. rewrite Hkeep by done. apply H2. rewrite E. apply elem_of_app. by left.
    + intros [n [Hne Hn]%lookup_delete_Some]. assert (Hp : p ∈ fc_lruList c) by (apply H2; eauto).
      rewrite E in Hp. apply elem_of_app in Hp as [?|Hpx]; [done|].
      apply list_elem_of_singleton in Hpx. congruence.
  - intros p n [_ ?]%lookup_delete_Some. eauto.
  - intros p q n [_ ?]%lookup_delete_Some [_ ?]%lookup_delete_Some. eauto.
  - rewrite E at 1 2. rewrite length_app. cbn. rewrite Nat.add_sub. by rewrite take_app_length.
Qed.

Lemma iter_cleanup_ok n c :
  CacheOk c → CacheOk (Nat.iter n cleanup_one c) ∧
  fc_lruList (Nat.iter n cleanup_one c) = take (length (fc_lruList c) - n) (fc_lruList c) ∧
  fc_next (Nat.iter n cleanup_one c) = fc_next c ∧
  ∀ p, p ∈ fc_lruList (Nat.iter n cleanup_one c) →
    fc_openedFiles (Nat.iter n cleanup_one c) !! p = fc_openedFiles c !! p.
Proof.
  intros Hok. induction n as [|n (IH1 & IH2 & IH3 & IH4)].
  { cbn. by rewrite Nat.sub_0_r, take_ge. }
  rewrite Nat.iter_succ.
  destruct (cleanup_one_ok _ IH1) as (K1 & K2 & K3 & K4). split; [done|]. split; [|split; [congruence|]].
  - rewrite K2, IH2, length_take, take_take. f_equal. lia.
  - intros p Hp. rewrite K4 by done. apply IH4. rewrite K2 in Hp.
    apply list_elem_of_lookup in Hp as [i Hi]. apply lookup_take_Some in Hi as [Hi _].
    by eapply list_elem_of_lookup_2.
Qed.

Lemma CleanupOldFiles_ok c :
  CacheOk c → CacheOk (CleanupOldFiles c) ∧
  fc_lruList (CleanupOldFiles c) = take (length (fc_lruList c) - CleanupFiles) (fc_lruList c) ∧
  fc_next (CleanupOldFiles c) = fc_next c ∧
  ∀ p, p ∈ fc_lruList (CleanupOldFiles c) → fc_openedFiles (CleanupOldFiles c) !! p = fc_openedFiles c !! p.
Proof. apply iter_cleanup_ok. Qed.
#[local] Opaque CleanupOldFiles.

Lemma touch_ok p c :
  CacheOk c → is_Some (fc_openedFiles c !! p) →
  CacheOk (mkFileCache (fc_openedFiles c) (touch p (fc_lruList c)) (fc_next c)).
Proof.
  intros [H1 H2 H3 H4] Hp. split; try done; cbn; unfold touch.
  - constructor; [rewrite list_elem_of_filter; naive_solver|by apply NoDup_filter].
  - intros q. rewrite elem_of_cons, list_elem_of_filter, <- H2. rewrite <- H2 in Hp.
    destruct (decide (q = p)) as [->|]; naive_solver.
Qed.

Lemma GetFile_ok p c :
  CacheOk c → (length (fc_lruList c) ≤ MaxFiles)%nat →
  let '(c', file) := GetFile p c in
  CacheOk c' ∧ (length (fc_lruList c') ≤ MaxFiles)%nat ∧ head (fc_lruList c') = Some p ∧
  fc_openedFiles c' !! p = Some file ∧
  (∀ n, fc_openedFiles c !! p = Some n → file = n) ∧
  (fc_openedFiles c !! p = None → file = fc_next c) ∧
  (∀ q, q ∈ fc_lruList c' → q ≠ p → fc_openedFiles c' !! q = fc_openedFiles c !! q).
Proof.
  intros Hok Hlen. unfold GetFile. destruct (fc_openedFiles c !! p) as [file|] eqn:E.
  - pose proof (touch_ok p c Hok ltac:(eauto)) as Ht. split; [done|]. cbn. split; [|naive_solver].
    pose proof (cache_size _ Ht) as Hsz. cbn in Hsz. rewrite (cache_size _ Hok) in Hsz. lia.
  - set (c1 := if (MaxFiles <=? size (fc_openedFiles c))%nat then CleanupOldFiles c else c).
    assert (H : CacheOk c1 ∧ (length (fc_lruList c1) < MaxFiles)%nat ∧ fc_next c1 = fc_next c ∧
      p ∉ fc_lruList c1 ∧ ∀ q, q ∈ fc_lruList c1 → fc_openedFiles c1 !! q = fc_openedFiles c !! q).
    { subst c1. rewrite (cache_size _ Hok). destruct (Nat.leb_spec MaxFiles (length (fc_lruList c))).
      - destruct (CleanupOldFiles_ok c Hok) as (K1 & K2 & K3 & K4).
        split; [done|split; [rewrite K2, length_take; unfold MaxFiles, CleanupFiles in *; lia|split; [done|split; [|done]]]].
        intros Hp. pose proof (proj1 (cache_dom _ K1 p) Hp) as Hs. rewrite (K4 _ Hp), E in Hs. by destruct Hs.
      - split; [done|split; [done|split; [done|split; [|done]]]].
        intros Hp%(cache_dom _ Hok). rewrite E in Hp. by destruct Hp. }
    destruct H as (H & Hlt & Hn & Hp & Hkeep). pose proof H as [K1 K2 K3 K4]. cbn.
    assert (Hnone : fc_openedFiles c1 !! p = None).
    { destruct (fc_openedFiles c1 !! p) eqn:E1; [|done]. destruct Hp. apply K2. eauto. }
    split; [split; cbn|split; [lia|split; [done|]]].
    + by constructor.
    + intros q. rewrite elem_of_cons, K2. destruct (decide (q = p)) as [->|].
      * rewrite lookup_insert_eq. split; [eauto|by left].
      * rewrite lookup_insert_ne by done. naive_solver.
    + intros q n [[_ <-]|[_ Hq]]%lookup_insert_Some; [lia|]. apply K3 in Hq. lia.
    + intros q r n [[<- <-]|[Hq Hqn]]%lookup_insert_Some [[<- Hr]|[Hr Hrn]]%lookup_insert_Some; [done|..].
      * apply K3 in Hrn. lia.
      * apply K3 in Hqn. lia.
      * by eapply K4.
    + split; [apply lookup_insert_eq|split; [done|split; [congruence|]]].
      intros q [->|Hq]%elem_of_cons Hne; [done|]. rewrite lookup_insert_ne by done. by apply Hkeep.
Qed.

(** The files a history of calls has opened. *)
Definition run (paths : list string) : FileCache := foldl (λ c p, (GetFile p c).1) FileCache.make paths.

Lemma run_ok paths : CacheOk (run paths) ∧ (length (fc_lruList (run paths)) ≤ MaxFiles)%nat.
Proof.
  unfold run. induction paths as [|p paths [IH1 IH2]] using rev_ind; cbn.
  { split; [split; cbn|lia]; [constructor|..].
    - intros p. rewrite elem_of_nil, lookup_empty. split; [done|by intros [? ?]].
    - intros p n Hp. by rewrite lookup_empty in Hp.
    - intros p q n Hp. by rewrite lookup_empty in Hp. }
  rewrite foldl_app. cbn. pose proof (GetFile_ok p _ IH1 IH2) as H.
  destruct (GetFile p _). destruct H as (?&?&_). done.
Qed.

(** The paths of a history, each once, the one used last in front: what "least recently
    used" is about, told from the calls alone. *)
Fixpoint by_last_use (paths : list string) : list string :=
  match paths with
  | [] => []
  | p :: later => by_last_use later ++ (if decide (p ∈ later) then [] else [p])
  end.

Lemma by_last_use_In paths q : q ∈ by_last_use paths ↔ q ∈ paths.
Proof.
  induction paths as [|p later IH]; cbn; [done|]. rewrite elem_of_app, IH, elem_of_cons.
  case_decide; set_solver.
Qed.

Lemma by_last_use_snoc paths p :
  by_last_use (paths ++ [p]) = p :: filter (λ q, q ≠ p) (by_last_use paths).
Proof.
  induction paths as [|q later IH]; cbn; [done|]. rewrite IH. cbn. f_equal. rewrite filter_app. f_equal.
  destruct (decide (q = p)) as [->|Hq].
  - rewrite decide_True by set_solver. case_decide; [done|]. rewrite filter_cons_False, filter_nil; naive_solver.
  - destruct (decide (q ∈ later)); [rewrite decide_True by set_solver; done|].
    rewrite decide_False by set_solver. rewrite filter_cons_True, filter_nil; done.
Qed.

Lemma filter_prefix {A} (P : A → Prop) `{!∀ x, Decision (P x)} (k l : list A) :
  k `prefix_of` l → filter P k `prefix_of` filter P l.
Proof. intros [m ->]. rewrite filter_app. by apply prefix_app_r. Qed.

Lemma filter_id {A} (P : A → Prop) `{!∀ x, Decision (P x)} (l : list A) :
  (∀ x, x ∈ l → P x) → filter P l = l.
Proof.
  induction l as [|x l IH]; intros Hl; [done|]. rewrite filter_cons_True by (apply Hl; by left).
  f_equal. apply IH. intros y Hy. apply Hl. by right.
Qed.

(** The list is what the history says, cut at its end. *)
Lemma lru_prefix paths : fc_lruList (run paths) `prefix_of` by_last_use paths.
Proof.
  induction paths as [|p paths IH] using rev_ind; [done|].
  rewrite by_last_use_snoc. unfold run in *. rewrite foldl_app. cbn.
  destruct (run_ok paths) as [Hok _]. unfold run in Hok. set (c := foldl _ _ paths) in *.
  unfold GetFile. destruct (fc_openedFiles c !! p) as [file|] eqn:E; cbn [fst fc_lruList].
  - apply prefix_cons. by apply filter_prefix.
  - apply prefix_cons.
    set (c1 := if (MaxFiles <=? size (fc_openedFiles c))%nat then CleanupOldFiles c else c).
    assert (Hc1 : fc_lruList c1 `prefix_of` fc_lruList c).
    { subst c1. case_match; [|done]. destruct (CleanupOldFiles_ok c Hok) as (_ & -> & _).
      eexists. by rewrite take_drop. }
    assert (Hp : filter (λ q, q ≠ p) (fc_lruList c1) = fc_lruList c1).
    { apply filter_id. intros q Hq ->. destruct Hc1 as [m Hm].
      assert (Hs : p ∈ fc_lruList c) by (rewrite Hm; set_solver).
      apply (cache_dom _ Hok) in Hs. rewrite E in Hs. by destruct Hs. }
    rewrite <- Hp. apply filter_prefix. by transitivity (fc_lruList c).
Qed.

Lemma lru_length paths p :
  length (fc_lruList (run (paths ++ [p]))) =
    match fc_openedFiles (run paths) !! p with
    | Some _ => length (fc_lruList (run paths))
    | None => S (if (MaxFiles <=? length (fc_lruList (run paths)))%nat
                 then length (fc_lruList (run paths)) - CleanupFiles else length (fc_lruList (run paths)))
    end.
Proof.
  unfold run. rewrite foldl_app. cbn [foldl]. destruct (run_ok paths) as [Hok Hlen]. unfold run in *.
  set (c := foldl _ _ paths) in *.
  pose proof (GetFile_ok p c Hok Hlen) as H. unfold GetFile in *.
  destruct (fc_openedFiles c !! p) as [file|] eqn:E; cbn [fst fc_lruList length] in *.
  - destruct H as (H1 & _). pose proof (cache_size _ H1) as Hs. cbn in Hs. by rewrite (cache_size _ Hok) in Hs.
  - f_equal. rewrite (cache_size _ Hok). destruct (Nat.leb_spec MaxFiles (length (fc_lruList c))); [|done].
    destruct (CleanupOldFiles_ok c Hok) as (_ & -> & _). rewrite length_take. lia.
Qed.

(** C26: after any calls at most [MaxFiles] files are open, and they are the first ones of
    the paths of the history taken in the order of last use ([by_last_use], which is computed
    from the calls alone), so files are closed in that order, the one used longest ago
    first.  A call for an open file closes none; a call for another file closes none if fewer
    than [MaxFiles] are open and else the [CleanupFiles] that were used longest ago.  The
    file of the path is the one opened for it, a fresh one if it had been closed, and no
    other path has it. *)
Theorem file_cache_lru paths p :
  let c := run paths in
  let '(c', file) := GetFile p c in
  (size (fc_openedFiles c') ≤ MaxFiles)%nat ∧
  fc_lruList c' `prefix_of` by_last_use (paths ++ [p]) ∧
  length (fc_lruList c') =
    (match fc_openedFiles c !! p with
     | Some _ => length (fc_lruList c)
     | None => S (if (MaxFiles <=? length (fc_lruList c))%nat
                  then length (fc_lruList c) - CleanupFiles else length (fc_lruList c))
     end)%nat ∧
  (∀ q, is_Some (fc_openedFiles c' !! q) ↔ q ∈ fc_lruList c') ∧
  fc_openedFiles c' !! p = Some file ∧
  (∀ q n, q ≠ p → fc_openedFiles c' !! q = Some n → n ≠ file ∧ fc_openedFiles c !! q = Some n) ∧
  (∀ n, fc_openedFiles c !! p = Some n → file = n) ∧
  (fc_openedFiles c !! p = None → ∀ q, fc_openedFiles c !! q ≠ Some file).
Proof.
  cbv zeta. destruct (run_ok paths) as [Hok Hlen]. pose proof (GetFile_ok p _ Hok Hlen) as H.
  pose proof (lru_prefix (paths ++ [p])) as Hpre. pose proof (lru_length paths p) as Hl.
  unfold run at 1 in Hpre. unfold run at 1 in Hl. rewrite foldl_app in Hpre, Hl. cbn in Hpre, Hl.
  fold (run paths) in Hpre, Hl.
  destruct (GetFile p (run paths)) as [c' file] eqn:E. destruct H as (H1 & H2 & H3 & H4 & H5 & H6 & H7).
  split; [by rewrite cache_size|]. split; [done|]. split; [done|].
  split; [intros q; by rewrite (cache_dom _ H1)|]. split; [done|]. split; [|split; [done|]].
  - intros q n Hq Hn. split; [intros ->; by apply Hq, (cache_inj _ H1 _ _ file)|].
    rewrite <- H7; [done|apply (cache_dom _ H1); eauto|done].
  - intros Hnone q Hq. rewrite (H6 Hnone) in Hq. apply (cache_next _ Hok) in Hq. lia.
Qed.

Lemma file_cache_lru_witness :
  fc_lruList (run ["a"; "b"; "c"]%string) = ["c"; "b"; "a"]%string ∧
  fc_lruList (GetFile "a" (run ["a"; "b"; "c"]%string)).1 `prefix_of` by_last_use ["a"; "b"; "c"; "a"]%string ∧
  by_last_use ["a"; "b"; "c"; "a"]%string = ["a"; "c"; "b"]%string.
Proof.
  split; [by vm_compute|]. split; [|by vm_compute].
  exact (proj1 (proj2 (file_cache_lru ["a"; "b"; "c"]%string "a"))).
Defined.

Example reopened :
  (GetFile "a" (run ["a"; "b"; "c"])).2 = 0%nat ∧ fc_lruList (GetFile "a" (run ["a"; "b"; "c"])).1 = ["a"; "c"; "b"]%string.
Proof. by vm_compute. Qed.
