(* ===== verification/NativeFile.v ===== *)
(** * NativeFile: files of the operating system
    [FileSystem/src/NativeFile.cpp].

    The system calls are a class: what a file is, and what [pwritev] and [preadv] do to it,
    is not in the repository.  Its laws say what POSIX promises for a regular file that is
    open for reading and writing: all bytes are written, reads are short at the end of the
    file only.  Lists of bytes are an instance. *)
From S2P Require Import Prelude Addr Packet Leaf.
Local Open Scope Z_scope.

Class PosixFile (F : Type) := {
  empty_file : F;                    (* what [open] with [O_CREAT] makes *)
  pwritev : Z → list Z → F → F;      (* the bytes of the buffers, from an offset on *)
  preadv : Z → Z → F → list Z;       (* from an offset on, at most so many bytes *)
}.

Class PosixFileLaws (F : Type) `{!PosixFile F} := {
  byte_at : Z → F → option Z;
  byte_at_written off bytes f i :
    0 ≤ off → off ≤ i < off + Z.of_nat (length bytes) →
    byte_at i (pwritev off bytes f) = bytes !! Z.to_nat (i - off);
  byte_at_kept off bytes f i b :
    0 ≤ off → ¬ (off ≤ i < off + Z.of_nat (length bytes)) →
    byte_at i f = Some b → byte_at i (pwritev off bytes f) = Some b;
  preadv_bytes off n m f (g : Z → Z) :
    0 ≤ off → 0 ≤ m ≤ n → (∀ i, off ≤ i < off + m → byte_at i f = Some (g i)) →
    m = n ∨ byte_at (off + m) f = None → preadv off n f = g <$> seqZ off m;
}.

Module NativeFile.
Section Operations.
Context {P : Type} `{!IPacket P} {F : Type} `{!PosixFile F}.
(** The memory behind the payload of a packet: so many bytes of it. *)
Context (beyond : P → nat → list Z).
Implicit Types (packets : list P) (f : F) (offset size : Z).

(** How many packets hold [size] bytes. *)
Definition blocks (size blockSize : Z) : Z :=
  i32 (size / blockSize) + (if size `mod` blockSize =? 0 then 0 else 1).

(** [iov_len] bytes from the start of the payload on. *)
Definition iov (blockSize : Z) (p : P) : list Z :=
  take (Z.to_nat blockSize) (payload p ++ beyond p (Z.to_nat blockSize)).

Definition Write packets size offset f : res F :=
  match packets with
  | [] => Err (Throws "No packets to read into")
  | front :: _ =>
      let blockSize := GetPayloadLength front in
      defined_if (negb (blockSize =? 0));;
      let n := blocks size blockSize in
      defined_if (n <=? Z.of_nat (length packets));;
      Ret (pwritev offset (take (Z.to_nat n) packets ≫= iov blockSize) f)
  end.

(** The packets get [blockSize] bytes each, as far as there are bytes; a packet that
    gets fewer has them as its payload. *)
Fixpoint fill (blockSize : nat) (bytes : list Z) packets : res (list P) :=
  match packets with
  | [] => Ret []
  | p :: packets =>
      p ← (match bytes with
           | [] => Ret (SetPayloadSize (Z.of_nat blockSize) p)
           | _ => SetPayload (take blockSize bytes) p
           end);
      packets ← fill blockSize (drop blockSize bytes) packets;
      Ret (p :: packets)
  end.

(** The packets that were read into, and those that were not needed. *)
Definition Read packets size offset f : res (list P * list P) :=
  match packets with
  | [] => Err (Throws "No packets to read into")
  | front :: _ =>
      let blockSize := GetPayloadLength front in
      defined_if (negb (blockSize =? 0));;
      let n := blocks size blockSize in
      defined_if (n <=? Z.of_nat (length packets));;
      let bytes := preadv offset (n * blockSize) f in
      let readed := Z.of_nat (length bytes) in
      into ← fill (Z.to_nat blockSize) bytes (take (Z.to_nat n) packets);
      let packets := into ++ drop (Z.to_nat n) packets in
      if blockSize * Z.of_nat (length packets) =? readed then Ret (packets, [])
      else
        let k := Z.to_nat (u64 (readed + blockSize - 1) / blockSize) in
        Ret (take k packets, drop k packets)
  end.

End Operations.
End NativeFile.

(** ** What is written and read *)

Section Files.
Context {P : Type} `{!IPacket P} {F : Type} `{!PosixFile F} `{!PosixFileLaws F}.
Context (content : Z → Z) (fileSize bs : Z).
Context (Hbs0 : 0 < bs) (Hbs : bs < 2 ^ 16) (Hfile : fileSize < 2 ^ 62).
Implicit Types (packets data : list P) (f : F).

(** The file on the disk has the bytes of the cached file from [a] to [b]. *)
Definition has_bytes (a b : Z) f : Prop := ∀ i, a ≤ i < b → byte_at i f = Some (content i).

Lemma has_bytes_read a n b f :
  0 ≤ a → 0 ≤ n → a + n ≤ b → has_bytes a b f → preadv a n f = file_bytes content a n.
Proof. intros ? ? ? H. apply preadv_bytes; [done|lia| |by left]. intros i Hi. apply H. lia. Qed.

Lemma blocks_eq size : 0 ≤ size < 2 ^ 31 → NativeFile.blocks size bs = (size + bs - 1) / bs.
Proof.
  intros. unfold NativeFile.blocks, swrap.
  pose proof (Z.div_mod size bs ltac:(lia)) as E. pose proof (Z.mod_pos_bound size bs ltac:(lia)).
  assert (0 ≤ size / bs ≤ size) by (split; [apply Z.div_pos; lia|apply Z.div_le_upper_bound; nia]).
  rewrite Z.mod_small by lia. destruct (Z.eqb_spec (size `mod` bs) 0).
  - apply Z.div_unique with (bs - 1); [left; lia|]. lia.
  - apply Z.div_unique with (size `mod` bs - 1); [left; lia|]. lia.
Qed.

(** *** Writing *)

Lemma Chunked_count n data : Chunked bs n data → Z.of_nat (length data) = (n + bs - 1) / bs.
Proof.
  revert n. induction data as [|p data IH]; intros n; cbn [Chunked length].
  { intros ->. symmetry. apply Z.div_small. lia. }
  intros (_ & Hn & _ & H). apply IH in H. rewrite Nat2Z.inj_succ, H. clear IH H.
  destruct (decide (bs ≤ n)).
  - rewrite Z.min_l by lia. replace (n + bs - 1) with (n - bs + bs - 1 + 1 * bs) by lia.
    by rewrite Z.div_add by lia.
  - rewrite Z.min_r, Z.sub_diag by lia. rewrite (Z.div_small (0 + bs - 1)) by lia.
    apply Z.div_unique with (n - 1); [left; lia|]. lia.
Qed.

(** The buffers hold the payloads, and what is behind the last one when it is not full. *)
Lemma iovs_of_chunks (beyond : P → nat → list Z) n data :
  Chunked bs n data →
  ∃ g, data ≫= NativeFile.iov beyond bs = (data ≫= payload) ++ g ∧ (g = [] ∨ ¬ (bs | n)).
Proof.
  revert n. induction data as [|p data IH]; intros n; [by exists []; split; [|left]|].
  intros (_ & Hn & Hl & H). rewrite !bind_cons. destruct (decide (bs ≤ n)).
  - destruct (IH _ H) as (g & -> & Hg). exists g. split.
    + unfold NativeFile.iov. rewrite take_app_le by lia. rewrite take_ge by lia. by rewrite app_assoc.
    + destruct Hg as [|Hg]; [by left|right]. intros Hd. apply Hg. rewrite Z.min_l by lia.
      apply Z.divide_sub_r; [done|apply Z.divide_refl].
  - rewrite Z.min_r, Z.sub_diag in * by lia. destruct data as [|q data]; [|cbn in H; lia].
    unfold NativeFile.iov. rewrite take_app_ge by lia. cbn [mbind list_bind]. rewrite !app_nil_r.
    eexists. split; [done|right]. intros Hd%Z.divide_pos_le; lia.
Qed.

Lemma Chunked_first n p data : Chunked bs n (p :: data) → GetPayloadLength p = Z.min bs n.
Proof. by intros ([_ ->] & _ & -> & _). Qed.

(** What is on the disk of the cached file stays there. *)
Definition keeps f f' : Prop :=
  ∀ i, 0 ≤ i < fileSize → byte_at i f = Some (content i) → byte_at i f' = Some (content i).

Lemma pwritev_ok offset size data g f :
  Holds content fileSize bs offset size data → g = [] ∨ offset + size = fileSize →
  let f' := pwritev offset ((data ≫= payload) ++ g) f in
  has_bytes offset (offset + size) f' ∧ keeps f f'.
Proof.
  intros [(Ho & Hs & Hf) _ _ _ Hb] Hg f'.
  assert (Hin : has_bytes offset (offset + size) f').
  { intros i Hi. subst f'. rewrite byte_at_written; [|done|rewrite length_app, Hb, length_file_bytes; lia].
    rewrite lookup_app_l by (rewrite Hb, length_file_bytes; lia). rewrite Hb. unfold file_bytes.
    rewrite list_lookup_fmap, lookup_seqZ_lt by lia. cbn. do 2 f_equal. lia. }
  split; [done|]. intros i Hi Hc. destruct (decide (offset ≤ i < offset + size)); [by apply Hin|].
  apply byte_at_kept; [done| |done]. rewrite length_app, Hb, length_file_bytes.
  destruct Hg as [->|]; cbn; lia.
Qed.

Lemma Write_ok (beyond : P → nat → list Z) offset size data f :
  Holds content fileSize bs offset size data → size < 2 ^ 31 →
  ∃ f', NativeFile.Write beyond data size offset f = Ret f' ∧
    has_bytes offset (offset + size) f' ∧ keeps f f'.
Proof.
  intros Hh Hsz. pose proof Hh as [(Ho & Hs & Hf) Ha He Hc Hb].
  destruct data as [|p data]; [cbn in Hc; lia|]. pose proof (Chunked_first _ _ _ Hc) as Hp.
  unfold NativeFile.Write. rewrite Hp, (proj2 (Z.eqb_neq _ 0)) by lia. cbn [negb defined_if mbind res_bind].
  destruct (decide (bs ≤ size)) as [Hle|Hlt].
  - rewrite Z.min_l, blocks_eq, <- (Chunked_count _ _ Hc), Z.leb_refl by lia. cbn [defined_if mbind res_bind].
    rewrite Nat2Z.id, take_ge by lia. destruct (iovs_of_chunks beyond _ _ Hc) as (g & -> & Hg).
    eexists. split; [done|]. apply pwritev_ok; [done|]. destruct Hg as [?|Hg]; [by left|right].
    destruct He as [He|]; [|done]. destruct Hg. by apply (Z.divide_add_cancel_r _ offset).
  - destruct Hc as ([Hpl Hl] & _ & Hlen & Hrest). rewrite Z.min_r in * by lia. rewrite Z.sub_diag in Hrest.
    destruct data as [|q data]; [|cbn in Hrest; lia].
    assert (NativeFile.blocks size size = 1) as ->.
    { unfold NativeFile.blocks. by rewrite Z.div_same, Z.mod_same by lia. }
    cbn [Z.leb length defined_if mbind res_bind]. change (1 <=? Z.of_nat 1) with true.
    eexists. split; [done|].
    replace (take (Z.to_nat 1) [p] ≫= NativeFile.iov beyond size) with (([p] ≫= payload) ++ []).
    + apply pwritev_ok; [done|by left].
    + change (Z.to_nat 1) with 1%nat. cbn. rewrite !app_nil_r. unfold NativeFile.iov.
      rewrite take_app_le by lia. by rewrite take_ge by lia.
Qed.

(** *** Reading *)

Section Reading.
Context `{!IPacketLaws P}.

(** A packet whose payload has room for [bs] bytes. *)
Definition Fresh (p : P) : Prop :=
  PacketOk p ∧ (Z.to_nat bs ≤ length (v_body (view p)))%nat ∧ GetPayloadLength p = bs.

Lemma SetPayload_fresh d p : Fresh p → (length d ≤ Z.to_nat bs)%nat →
  ∃ p', SetPayload d p = Ret p' ∧ Readable p' ∧ payload p' = d.
Proof.
  intros (Hok & Hb & _) Hd. pose proof (view_SetPayload d p Hok) as H.
  destruct (SetPayload d p) as [p'|] eqn:E; [|lia]. destruct H as [Hok' Hv]. exists p'. split; [done|].
  assert (Hg : GetPayload p' = Ret d ∧ GetPayloadLength p' = Z.of_nat (length d)).
  { rewrite (view_GetPayload _ Hok'). change (GetPayloadLength p') with (v_size (view p')).
    destruct (view p) as [ok ty sr ds sq ak sz ad bo]. cbn [v_body v_write v_SetPayloadSize] in *.
    rewrite (proj2 (defined_if_ret _)) in Hv by (apply Nat.leb_le; lia). cbn [mbind res_bind] in Hv.
    apply (inj Ret) in Hv. rewrite Hv.
    unfold v_GetPayload. cbn [v_size v_body]. rewrite !wrap_small by lia. rewrite Nat2Z.id, length_inserts.
    rewrite (proj2 (defined_if_ret _)) by (apply Nat.leb_le; lia). split; [|done]. cbn.
    pose proof (slice_inserts_eq 0 d bo ltac:(lia)) as Hs. unfold slice in Hs.
    rewrite drop_0 in Hs. by rewrite Hs. }
  destruct Hg as [Hg Hl]. assert (payload p' = d) as Hp by (unfold payload; by rewrite Hg).
  split; [|done]. split; [by rewrite Hp|by rewrite Hp].
Qed.

Lemma fill_ok packets : Forall Fresh packets → ∀ bytes,
  (length bytes ≤ Z.to_nat bs * length packets)%nat →
  ∃ into rest, NativeFile.fill (Z.to_nat bs) bytes packets = Ret (into ++ rest) ∧
    length (into ++ rest) = length packets ∧
    Chunked bs (Z.of_nat (length bytes)) into ∧ into ≫= payload = bytes.
Proof.
  induction 1 as [|p packets Hp _ IH]; intros bytes Hlen; cbn [length] in Hlen.
  { destruct bytes; cbn in Hlen; [|lia]. by exists [], []. }
  cbn [NativeFile.fill]. destruct bytes as [|b bytes].
  { destruct (IH [] ltac:(cbn; lia)) as (into & rest & E & El & Hc & Hb). cbn in Hc.
    assert (into = []) as -> by (destruct into; [done|cbn in Hc; lia]).
    cbn [mbind res_bind drop]. rewrite drop_nil, E. exists [], (SetPayloadSize (Z.of_nat (Z.to_nat bs)) p :: rest).
    cbn. cbn in El. split; [done|split; [lia|done]]. }
  set (bytes' := b :: bytes) in *. assert (Hpos : (0 < length bytes')%nat) by (cbn; lia). clearbody bytes'.
  destruct (SetPayload_fresh (take (Z.to_nat bs) bytes') p Hp) as (p' & -> & Hr & Hpay); [rewrite length_take; lia|].
  destruct (IH (drop (Z.to_nat bs) bytes')) as (into & rest & E & El & Hc & Hb); [rewrite length_drop; lia|].
  cbn [mbind res_bind]. rewrite E. exists (p' :: into), rest. cbn [app length]. split; [done|]. split; [lia|].
  split; [|rewrite bind_cons, Hpay, Hb; apply take_drop].
  cbn [Chunked]. split; [done|]. split; [lia|]. rewrite Hpay, length_take. split; [lia|].
  rewrite length_drop in Hc. replace (Z.of_nat (length bytes') - Z.min bs (Z.of_nat (length bytes')))
    with (Z.of_nat (length bytes' - Z.to_nat bs)) by lia. done.
Qed.

(** A file is read from [offset] on into packets of [bs] bytes. *)
Lemma Read_ok packets offset f :
  Forall Fresh packets → packets ≠ [] → has_bytes 0 fileSize f → byte_at fileSize f = None →
  0 ≤ offset < fileSize → (bs | offset) → bs * Z.of_nat (length packets) < 2 ^ 31 →
  let n := Z.min (bs * Z.of_nat (length packets)) (fileSize - offset) in
  ∃ data rest, NativeFile.Read packets (Z.of_nat (length packets) * bs) offset f = Ret (data, rest) ∧
    Holds content fileSize bs offset n data.
Proof.
  intros Hfresh Hne Hf Hend Ho Ha Hsmall n. set (len := Z.of_nat (length packets)) in *.
  assert (0 < len) by (destruct packets; [done|cbn in *; lia]).
  destruct packets as [|p packets]; [done|]. pose proof Hfresh as [(_ & _ & Hp) _]%Forall_cons.
  unfold NativeFile.Read. rewrite Hp, (proj2 (Z.eqb_neq bs 0)) by lia. cbn [negb defined_if mbind res_bind].
  set (all := p :: packets) in *.
  rewrite blocks_eq by lia. replace (len * bs + bs - 1) with (bs - 1 + len * bs) by lia.
  rewrite Z.div_add, (Z.div_small (bs - 1)), Z.add_0_l by lia. fold len. rewrite Z.leb_refl.
  cbn [defined_if mbind res_bind]. replace (len * bs) with (bs * len) by lia.
  rewrite (preadv_bytes offset (bs * len) n f content); [|lia|lia| |].
  2: { intros i Hi. apply Hf. lia. }
  2: { destruct (decide (bs * len ≤ fileSize - offset)); [left; lia|right].
       replace (offset + n) with fileSize by lia. done. }
  change (content <$> seqZ offset n) with (file_bytes content offset n).
  subst len. rewrite Nat2Z.id, take_ge, drop_ge, length_file_bytes by lia.
  destruct (fill_ok all Hfresh (file_bytes content offset n)) as (into & rest & -> & Hlen & Hc & Hb);
    [rewrite length_file_bytes; lia|]. cbn [mbind res_bind]. rewrite app_nil_r, Hlen.
  rewrite length_file_bytes in Hc. rewrite !Z2Nat.id in * by lia.
  pose proof (Chunked_count _ _ Hc) as Hcount.
  assert (Hh : Holds content fileSize bs offset n into).
  { split; [lia|done| |done|done]. destruct (decide (n = fileSize - offset)); [right; lia|left].
    replace n with (bs * Z.of_nat (length all)) by lia. apply Z.divide_add_r; [done|apply Z.divide_factor_l]. }
  case_match eqn:E.
  - exists (into ++ rest), []. split; [done|]. assert (rest = []) as ->; [|by rewrite app_nil_r].
    apply Z.eqb_eq in E. rewrite <- E in Hcount. replace (bs * Z.of_nat (length all) + bs - 1)
      with (bs - 1 + Z.of_nat (length all) * bs) in Hcount by lia.
    rewrite Z.div_add, (Z.div_small (bs - 1)) in Hcount by lia. rewrite length_app in Hlen.
    apply length_zero_iff_nil. lia.
  - rewrite wrap_small, <- Hcount, Nat2Z.id by lia. exists into, rest. rewrite take_app_length, drop_app_length. done.
Qed.

End Reading.
End Files.

(** ** Files as lists of bytes *)

#[export] Instance bytes_PosixFile : PosixFile (list Z) := {
  empty_file := [];
  pwritev off bytes f :=
    let off := Z.to_nat off in
    take off (f ++ replicate (off - length f) 0) ++ bytes ++ drop (off + length bytes) f;
  preadv off n f := take (Z.to_nat n) (drop (Z.to_nat off) f);
}.

#[export, program] Instance bytes_PosixFileLaws : PosixFileLaws (list Z) := {
  byte_at i f := if 0 <=? i then f !! Z.to_nat i else None;
}.
Next Obligation.
  intros off bytes f i H0 Hi. cbn. rewrite (proj2 (Z.leb_le 0 i)) by lia.
  rewrite lookup_app_r; rewrite length_take, length_app, length_replicate; [|lia].
  rewrite lookup_app_l by lia. f_equal. lia.
Qed.
Next Obligation.
  intros off bytes f i b H0 Hi. cbn. destruct (Z.leb_spec 0 i); [|done]. intros Hb.
  pose proof (lookup_lt_Some _ _ _ Hb). destruct (decide (i < off)).
  - rewrite lookup_app_l by (rewrite length_take, length_app, length_replicate; lia).
    rewrite lookup_take_lt by lia. by rewrite lookup_app_l by lia.
  - rewrite lookup_app_r; rewrite length_take, length_app, length_replicate; [|lia].
    rewrite lookup_app_r by lia. rewrite lookup_drop. rewrite <- Hb. f_equal. lia.
Qed.
Next Obligation.
  intros off n m f g H0 Hm Hg Hend. cbn in *. apply list_eq. intros i.
  rewrite list_lookup_fmap. destruct (decide (Z.of_nat i < m)).
  - rewrite lookup_take_lt, lookup_drop, lookup_seqZ_lt by lia. cbn.
    specialize (Hg (off + Z.of_nat i) ltac:(lia)). rewrite (proj2 (Z.leb_le 0 _)) in Hg by lia.
    rewrite <- Hg. f_equal. lia.
  - rewrite lookup_seqZ_ge by lia. cbn. destruct Hend as [->|Hend].
    + apply lookup_take_ge. lia.
    + rewrite (proj2 (Z.leb_le 0 _)) in Hend by lia. apply lookup_ge_None in Hend.
      apply lookup_ge_None. rewrite length_take, length_drop. lia.
Qed.

(** ** Descriptors
    The files of a process and the descriptors that are open.  [_file] is -1 for a file
    that is not open. *)

Module Descriptors.

Record Process := mkProcess {
  pc_files : gmap Z Z;         (* the objects, by their address, and their [_file] *)
  pc_open : gset Z;
  pc_badCloses : nat;          (* [close] of a descriptor that is not open *)
  pc_reopened : bool;          (* a file was opened or created that was open *)
  pc_moved : bool;             (* an open file was moved *)
}.
Implicit Types (s : Process).

Definition start : Process := mkProcess ∅ ∅ 0 false false.

Definition file_at a s : res Z := match pc_files s !! a with Some file => Ret file | None => Err Undefined end.

(** The constructor. *)
Definition make (a : Z) s : Process :=
  mkProcess (<[a := -1]> (pc_files s)) (pc_open s) (pc_badCloses s) (pc_reopened s) (pc_moved s).

Definition GetHandle a s : res Z := file_at a s.
Definition IsOpened a s : res bool := file ← file_at a s; mret (negb (file =? -1)).

(** [Open] and [Create]; [fd] is what [open] gives. *)
Definition Open (a fd : Z) s : res Process :=
  file ← file_at a s;
  let s := mkProcess (<[a := fd]> (pc_files s)) (if fd =? -1 then pc_open s else {[fd]} ∪ pc_open s) (pc_badCloses s)
    (pc_reopened s || negb (file =? -1)) (pc_moved s) in
  assert_that (negb (fd =? -1));; mret s.
Definition Create (a fd : Z) s : res Process := Open a fd s.

Definition close (fd : Z) s : Process :=
  mkProcess (pc_files s) (pc_open s ∖ {[fd]}) (if bool_decide (fd ∈ pc_open s) then pc_badCloses s else S (pc_badCloses s))
    (pc_reopened s) (pc_moved s).

Definition Close a s : res Process :=
  file ← file_at a s;
  assert_that (negb (file =? -1));;
  let s := close file s in
  mret (mkProcess (<[a := -1]> (pc_files s)) (pc_open s) (pc_badCloses s) (pc_reopened s) (pc_moved s)).

(** The destructor. *)
Definition destroy a s : res Process :=
  file ← file_at a s;
  s ← (if negb (file =? -1) then Close a s else Ret s);
  mret (mkProcess (delete a (pc_files s)) (pc_open s) (pc_badCloses s) (pc_reopened s) (pc_moved s)).

(** The constructor that moves: by default, which copies [_file]. *)
Definition move (a b : Z) s : res Process :=
  file ← file_at a s;
  mret (mkProcess (<[b := file]> (pc_files s)) (pc_open s) (pc_badCloses s) (pc_reopened s) (pc_moved s || negb (file =? -1))).

(** Memory is given to objects where none is; [open] gives descriptors that are not open. *)
Inductive step : relation Process :=
  | step_make a s : pc_files s !! a = None → step s (make a s)
  | step_open a fd s s' : 0 ≤ fd → fd ∉ pc_open s → Open a fd s = Ret s' → step s s'
  | step_close a s s' : Close a s = Ret s' → step s s'
  | step_destroy a s s' : destroy a s = Ret s' → step s s'
  | step_move a b s s' : pc_files s !! b = None → move a b s = Ret s' → step s s'.

Record Inv s : Prop := {
  iv_owned : ∀ fd, fd ∈ pc_open s ↔ fd ≠ -1 ∧ ∃ a, pc_files s !! a = Some fd;
  iv_once : ∀ a b fd, pc_files s !! a = Some fd → pc_files s !! b = Some fd → fd ≠ -1 → a = b;
  iv_closes : pc_badCloses s = 0%nat;
}.

Lemma file_at_ret a s file : file_at a s = Ret file → pc_files s !! a = Some file.
Proof. unfold file_at. destruct (pc_files s !! a); [by intros [= ->]|done]. Qed.

Lemma new_file_inv a s : pc_files s !! a = None → Inv s → Inv (make a s).
Proof.
  intros Ha [H1 H2 H3]. split; cbn; [| |done].
  - intros fd. rewrite H1. split; intros [Hne (b & Hb)]; (split; [done|]).
    + exists b. rewrite lookup_insert_ne; [done|]. congruence.
    + apply lookup_insert_Some in Hb as [[_ <-]|[_ Hb]]; [done|by exists b].
  - intros b c fd [[<- <-]|[_ Hb]]%lookup_insert_Some [[<- E]|[_ Hc]]%lookup_insert_Some Hne; [done|done|congruence|by eapply H2].
Qed.

Lemma Close_inv a s s' : Close a s = Ret s' → Inv s → Inv s' ∧ pc_files s' = <[a := -1]> (pc_files s) ∧
  pc_reopened s' = pc_reopened s ∧ pc_moved s' = pc_moved s.
Proof.
  unfold Close. intros (file & Hf%file_at_ret & H)%bind_ret [H1 H2 H3].
  apply bind_ret in H as ([] & Ha%assert_that_ret%negb_true_iff%Z.eqb_neq & H). injection H as <-. split; [|done].
  assert (file ∈ pc_open s) as Hin by (apply H1; eauto). split; cbn.
  - intros fd. rewrite elem_of_difference, not_elem_of_singleton, H1. split.
    + intros [[Hne (b & Hb)] Hfd]. split; [done|]. exists b. rewrite lookup_insert_ne; [done|]. congruence.
    + intros [Hne (b & [[_ <-]|[Hab Hb]]%lookup_insert_Some)]; [done|]. split; [by split; [|exists b]|].
      intros ->. by apply Hab, (H2 a b file).
  - intros b c fd [[<- <-]|[_ Hb]]%lookup_insert_Some [[<- E]|[_ Hc]]%lookup_insert_Some Hne; [done|done|congruence|by eapply H2].
  - by rewrite bool_decide_eq_true_2.
Qed.

Lemma step_inv_descriptors s s' : step s s' → (pc_moved s = false → pc_reopened s = false → Inv s) →
  pc_moved s' = false → pc_reopened s' = false → Inv s'.
Proof.
  destruct 1 as [a s Ha|a fd s s' Hfd Hnew H|a s s' H|a s s' H|a b s s' Hb H]; intros HI.
  - intros Hm Hr. by apply new_file_inv, HI.
  - unfold Open in H. apply bind_ret in H as (file & Hf%file_at_ret & H). apply bind_ret in H as ([] & _ & H). injection H as <-. cbn.
    intros Hm [Hr Hfile%negb_false_iff%Z.eqb_eq]%orb_false_iff. destruct (HI Hm Hr) as [H1 H2 H3]. subst file.
    rewrite (proj2 (Z.eqb_neq _ _)) by lia. split; cbn; [| |done].
    + intros x. rewrite elem_of_union, elem_of_singleton, H1. split.
      * intros [->|[Hne (b & Hb)]]; [split; [lia|]; exists a; apply lookup_insert_eq|]. split; [done|]. exists b.
        rewrite lookup_insert_ne; [done|]. congruence.
      * intros [Hne (b & [[_ <-]|[_ Hb]]%lookup_insert_Some)]; [by left|right]. split; [done|by exists b].
    + assert (∀ c, pc_files s !! c ≠ Some fd) as Hno.
      { intros c Hc. apply Hnew, H1. split; [lia|by exists c]. }
      intros b c x [[<- <-]|[_ Hb]]%lookup_insert_Some [[<- E]|[_ Hc]]%lookup_insert_Some Hne; [done| | |by eapply H2].
      * by apply Hno in Hc.
      * subst x. by apply Hno in Hb.
  - intros Hm Hr. apply Close_inv in H as (H & _ & Er & Em); [exact H|]. unfold Close in H.
    apply bind_ret in H as (file & _ & H). apply bind_ret in H as ([] & _ & H). injection H as <-. by apply HI.
  - unfold destroy in H. apply bind_ret in H as (file & Hf%file_at_ret & H). apply bind_ret in H as (s1 & H1 & H). injection H as <-.
    cbn. intros Hm Hr.
    assert (Inv s1 ∧ pc_files s1 !! a = Some (-1)) as [[I1 I2 I3] Ha].
    { destruct (Z.eqb_spec file (-1)) as [->|Hne]; cbn in H1; [injection H1 as <-; split; [by apply HI|done]|].
      assert (pc_moved s = false ∧ pc_reopened s = false) as [Em Er].
      { unfold Close in H1. apply bind_ret in H1 as (f & _ & H1). apply bind_ret in H1 as ([] & _ & H1). by injection H1 as <-. }
      destruct (Close_inv _ _ _ H1 (HI Em Er)) as (HI1 & E & _). split; [done|]. rewrite E. apply lookup_insert_eq. }
    split; cbn; [| |done].
    + intros fd. rewrite I1. split; intros [Hne (b & Hb)]; (split; [done|]).
      * exists b. rewrite lookup_delete_ne; [done|]. congruence.
      * apply lookup_delete_Some in Hb as [_ Hb]. by exists b.
    + intros b c fd [_ Hb]%lookup_delete_Some [_ Hc]%lookup_delete_Some. by apply I2.
  - unfold move in H. apply bind_ret in H as (file & Hf%file_at_ret & H). injection H as <-. cbn.
    intros [Hm Hfile%negb_false_iff%Z.eqb_eq]%orb_false_iff Hr. subst file. destruct (new_file_inv b s Hb (HI Hm Hr)) as [I1 I2 I3]. by split.
Qed.

(** Every descriptor that is open belongs to one file, and none is closed twice, as long as
    no file is opened that is open, and no open file is moved. *)
Lemma descriptors_owned s : rtc step start s → pc_moved s = false → pc_reopened s = false →
  (∀ fd, fd ∈ pc_open s ↔ fd ≠ -1 ∧ ∃ a, pc_files s !! a = Some fd) ∧
  (∀ a b fd, pc_files s !! a = Some fd → pc_files s !! b = Some fd → fd ≠ -1 → a = b) ∧ pc_badCloses s = 0%nat.
Proof.
  intros Hr Hm Ho. assert (Inv s) as [H1 H2 H3]; [|done].
  revert Hm Ho. apply (rtc_invariant step (λ s, pc_moved s = false → pc_reopened s = false → Inv s) start s); [|intros x y H1 H2; by apply (step_inv_descriptors x)|done].
  intros _ _. split; [|done|done]. intros fd. split; [set_solver|]. intros [_ (a & Ha)]. done.
Qed.

(** A file that was moved shares its descriptor with the new one; both close it. *)
Lemma moved_file_closed_twice :
  (s ← Open 1 5 (make 1 start); s ← move 1 2 s; s ← destroy 1 s; s ← destroy 2 s; mret (pc_badCloses s)) = Ret 1%nat.
Proof. by vm_compute. Qed.

End Descriptors.
