(* ===== verification/ReadJobs.v ===== *)
(** * ReadJobs: how a read of the kernel is served
    [Protocol/src/FileSystem/FileCache/FuseReadFileJob.cpp], [ApplyBlockCacheJob.cpp],
    [WriteFileCacheJob.cpp], [ReadFileCacheJob.cpp], [PrefixDiskReadFileCacheJob.cpp],
    [Protocol/src/FileSystem/RequestReadFileJob.cpp], [ResponseReadFileInJob.cpp] and, on
    the other side, [ResponseReadFileJob.cpp].

    A job is a value, its execution a function from the state of the client to the state
    after it; what it schedules is added to the jobs that wait.  The work on the cache of
    one leaf is done by one thread, so that a job is one step.  What is proved of these
    definitions is in [ReadService]. *)
From S2P Require Import Prelude Addr Packet Leaf FileTree FileCache NativeFile.
Local Open Scope Z_scope.

(** ** The data of the jobs *)

(** A [fuse_req_t]: each read has its own; 0 is [nullptr]. *)
Definition fuse_req_t : Type := Z.

(** What the kernel is told. *)
Inductive Answer :=
  | Data (bytes : list Z)       (* fuse_reply_data *)
  | Error (errno : Z).          (* fuse_reply_err *)
Definition EIO : Z := 5.

(** The members [FuseReadFileJob] and [FuseReadFilePendingJob] have in common. *)
Record Read := mkRead {
  rq_request : fuse_req_t;
  rq_inode : Z;
  rq_size : Z;
  rq_offset : Z;
  rq_remoteFile : Z;
}.
Definition with_size (n : Z) (r : Read) : Read :=
  mkRead (rq_request r) (rq_inode r) n (rq_offset r) (rq_remoteFile r).

(** [FuseReadFilePendingJob]. *)
Record PendingJob := mkPendingJob {
  pj_read : Read;
  pj_arrivedBlockIndex : Z;
  pj_leaf : Z;
}.

(** [RangePin]: the ranges, and the leaf they are of. *)
Record RangePin := mkRangePin { pin_leaf : Z; pin_ranges : list nat }.

(** [PinnedFuseBufVec]. *)
Record PinnedFuseBufVec (P : Type) := mkBufVec { pb_buf : list (Span P); pb_pin : RangePin }.
Arguments mkBufVec {_} _ _.
Arguments pb_buf {_} _.
Arguments pb_pin {_} _.

(** The messages [RequestRead] and [ResponseRead]. *)
Record RequestRead := mkRequestRead {
  rr_request : fuse_req_t;
  rr_inode : Z;
  rr_size : Z;
  rr_offset : Z;
  rr_skipped : Z;
  rr_remoteFile : Z;
}.
Record ResponseRead (P : Type) := mkResponseRead {
  rs_request : fuse_req_t;
  rs_inode : Z;
  rs_size : Z;
  rs_offset : Z;
  rs_skipped : Z;
  rs_error : Z;
  rs_data : list P;
}.
Arguments mkResponseRead {_} _ _ _ _ _ _ _.
Arguments rs_request {_} _.
Arguments rs_inode {_} _.
Arguments rs_size {_} _.
Arguments rs_offset {_} _.
Arguments rs_skipped {_} _.
Arguments rs_error {_} _.
Arguments rs_data {_} _.

Inductive Job (P : Type) :=
  | FuseReadFileJob (r : Read) (pins : list RangePin)
  | RequestReadFileJob (m : RequestRead)
  | ResponseReadFileInJob (m : ResponseRead P)
  | ApplyBlockCacheJob (request : fuse_req_t) (inode size offset skipped : Z) (data : list P)
  | WriteFileCacheJob (inode size offset : Z) (data : list P)
  | ReadFileCacheJob (request : fuse_req_t) (file : string) (size offset : Z)
      (appendData : option (PinnedFuseBufVec P))
  | PrefixDiskReadFileCacheJob (request : fuse_req_t) (prefixData : PinnedFuseBufVec P)
      (file : string) (diskOffset diskSize : Z)
  | FreeRecvPacketsJob (packets : list P).
Arguments FuseReadFileJob {_} _ _.
Arguments RequestReadFileJob {_} _.
Arguments ResponseReadFileInJob {_} _.
Arguments ApplyBlockCacheJob {_} _ _ _ _ _ _.
Arguments WriteFileCacheJob {_} _ _ _ _.
Arguments ReadFileCacheJob {_} _ _ _ _ _.
Arguments PrefixDiskReadFileCacheJob {_} _ _ _ _ _.
Arguments FreeRecvPacketsJob {_} _.

(** ** The state of the client

    The tree with the caches, the open files and the disk they are on, the jobs that
    wait in the queues of the [TaskScheduler], the requests on their way to the server,
    the packets given back to the connection, and what the kernel has been told. *)
Record Client (P F : Type) := mkClient {
  cl_tree : FileTree P PendingJob;
  cl_files : FileCache;
  cl_disk : gmap string F;
  cl_jobs : list (Job P);
  cl_wire : list RequestRead;
  cl_freed : list P;
  cl_replies : list (fuse_req_t * Answer);
}.
Arguments mkClient {_ _} _ _ _ _ _ _ _.
Arguments cl_tree {_ _} _.
Arguments cl_files {_ _} _.
Arguments cl_disk {_ _} _.
Arguments cl_jobs {_ _} _.
Arguments cl_wire {_ _} _.
Arguments cl_freed {_ _} _.
Arguments cl_replies {_ _} _.

Module ReadJobs.
Section Operations.
Context {P : Type} `{!IPacket P} {F : Type} `{!PosixFile F}.
Context (hash : Z → Z) (begin : gmap Z Z → option Z) (beyond : P → nat → list Z).
(** [GetCacheFolder()]. *)
Context (cacheFolder : string).
Abbreviation Client := (Client P F).
Implicit Types (c : Client) (r : Read) (j : Job P) (a inode : Z).

Definition with_tree t c : Client :=
  mkClient t (cl_files c) (cl_disk c) (cl_jobs c) (cl_wire c) (cl_freed c) (cl_replies c).
Definition with_jobs l c : Client :=
  mkClient (cl_tree c) (cl_files c) (cl_disk c) l (cl_wire c) (cl_freed c) (cl_replies c).
Definition with_files fc d c : Client :=
  mkClient (cl_tree c) fc d (cl_jobs c) (cl_wire c) (cl_freed c) (cl_replies c).
Definition with_wire l c : Client :=
  mkClient (cl_tree c) (cl_files c) (cl_disk c) (cl_jobs c) l (cl_freed c) (cl_replies c).
Definition free_packets l c : Client :=
  mkClient (cl_tree c) (cl_files c) (cl_disk c) (cl_jobs c) (cl_wire c) (cl_freed c ++ l) (cl_replies c).

(** [scheduler.Schedule...(job)]. *)
Definition schedule j c : Client := with_jobs (cl_jobs c ++ [j]) c.

(** [fuse_reply_data], [fuse_reply_err]. *)
Definition reply (request : fuse_req_t) (answer : Answer) c : Client :=
  mkClient (cl_tree c) (cl_files c) (cl_disk c) (cl_jobs c) (cl_wire c) (cl_freed c)
    (cl_replies c ++ [(request, answer)]).

(** An operation on the data of a leaf. *)
Definition leaf_op {X} a (f : LeafData P PendingJob → res (LeafData P PendingJob * X)) c :
    res (Client * X) :=
  o ← FileTree.leaf_at a (cl_tree c);
  '(d, x) ← f (lo_data o);
  Ret (with_tree (FileTree.update_data a d (cl_tree c)) c, x).

Definition GetStatus a index c : res PieceStatus :=
  o ← FileTree.leaf_at a (cl_tree c);
  PiecesStatus.GetStatus index (ld_piecesStatus (lo_data o)).
Definition SetStatus a index status c : res Client :=
  fst <$> leaf_op a (λ d, v ← PiecesStatus.SetStatus index status (ld_piecesStatus d);
    Ret (Leaf.with_status v d, ())) c.
Definition AddPendingJob a index (job : PendingJob) c : res Client :=
  fst <$> leaf_op a (λ d, Ret (Leaf.AddPendingJob index job d, ())) c.
Definition tree_GetData inode offset sz c : res (Client * BufferView P) :=
  '(t, v) ← FileTree.GetData inode offset sz (cl_tree c);
  Ret (with_tree t c, v).

(** [~RangePin]; the pins of a leaf that is gone are gone. *)
Definition drop_pin (pin : RangePin) c : Client :=
  match ft_leaves (cl_tree c) !! pin_leaf pin with
  | Some o => with_tree (FileTree.update_data (pin_leaf pin) (Leaf.drop_pin (pin_ranges pin) (lo_data o)) (cl_tree c)) c
  | None => c
  end.

Definition buildPinnedBufVec a (v : BufferView P) : PinnedFuseBufVec P :=
  mkBufVec (bv_spans v) (mkRangePin a (bv_pin v)).
Definition buf_bytes (b : PinnedFuseBufVec P) : list Z := pb_buf b ≫= BufferView.span_bytes.

(** [GetFileCache().GetFile(GetCacheFolder() / GetCachePath())]: the file is open and on
    the disk. *)
Definition GetCachePath (o : LeafObject P PendingJob) : string := lo_name o.
Definition path (o : LeafObject P PendingJob) : string := (cacheFolder +:+ "/" +:+ GetCachePath o)%string.
Definition GetFile a c : res (Client * string) :=
  o ← FileTree.leaf_at a (cl_tree c);
  let '(files, _) := FileCache.GetFile (path o) (cl_files c) in
  Ret (with_files files (<[path o := default empty_file (cl_disk c !! path o)]> (cl_disk c)) c, path o).

(** What [fuse_reply_data] reads from a file that is open. *)
Definition read_fd (file : string) (offset sz : Z) c : res (list Z) :=
  match cl_disk c !! file with Some f => Ret (preadv offset sz f) | None => Err Undefined end.

(** [GetLeaf(inode, tree)]. *)
Definition GetLeaf inode c : Z := FileTree.address inode (cl_tree c).

(** *** FuseReadFileJob *)

(** The index of the block of an offset that is not negative. *)
Definition blockOf (offset : Z) : Z := u64 offset / BlockSize.

Definition PrefetchAhead : nat := 4.

(** The blocks that are left to prefetch, the next one first. *)
Fixpoint prefetch r a (blocks : list Z) c : res Client :=
  match blocks with
  | [] => Ret c
  | b :: blocks =>
      o ← FileTree.leaf_at a (cl_tree c);
      if LeafObject.GetSize o <=? b * BlockSize then Ret c
      else
        '(c, requested) ← leaf_op (X := bool) a (Leaf.SetInFlight b) c;
        prefetch r a blocks
          (if (requested : bool)
           then schedule (RequestReadFileJob
                  (mkRequestRead 0 (rq_inode r) BlockSize (b * BlockSize) 0 (rq_remoteFile r))) c
           else c)
  end.
Definition TriggerPrefetch r a blockIndex c : res Client :=
  prefetch r a (seqZ (blockIndex + 1) (Z.of_nat PrefetchAhead)) c.

Definition FetchBlock r a blockIndex c : res Client :=
  '(c, requested) ← leaf_op (X := bool) a (Leaf.SetInFlight blockIndex) c;
  if (requested : bool) then
    c ← AddPendingJob a blockIndex (mkPendingJob r blockIndex a) c;
    TriggerPrefetch r a blockIndex
      (schedule (RequestReadFileJob
        (mkRequestRead 0 (rq_inode r) BlockSize (blockIndex * BlockSize) 0 (rq_remoteFile r))) c)
  else
    status ← GetStatus a blockIndex c;
    if bool_decide (status = InCache) then Ret (schedule (FuseReadFileJob r []) c)
    else AddPendingJob a blockIndex (mkPendingJob r blockIndex a) c.

(** The block is on the disk, the next one is not: wait for that one, unless the read is
    tried again. *)
Definition wait_next r a nextBlockIndex (nextStatus : PieceStatus) c : res Client :=
  if bool_decide (nextStatus = InCache) then Ret (schedule (FuseReadFileJob r []) c)
  else
    '(c, requested) ← leaf_op (X := bool) a (Leaf.SetInFlight nextBlockIndex) c;
    if (requested : bool) then
      c ← AddPendingJob a nextBlockIndex (mkPendingJob r nextBlockIndex a) c;
      Ret (schedule (RequestReadFileJob
        (mkRequestRead 0 (rq_inode r) BlockSize (nextBlockIndex * BlockSize) 0 (rq_remoteFile r))) c)
    else
      status ← GetStatus a nextBlockIndex c;
      if bool_decide (status = InCache) then Ret (schedule (FuseReadFileJob r []) c)
      else AddPendingJob a nextBlockIndex (mkPendingJob r nextBlockIndex a) c.

(** The cache has no byte at the offset, the disk has the block. *)
Definition read_disk r a blockIndex c : res Client :=
  '(c, file) ← GetFile a c;
  let blockEnd := (blockIndex + 1) * BlockSize in
  if blockEnd <? u64 (rq_offset r) + rq_size r then
    let nextBlockIndex := blockEnd / BlockSize in
    nextStatus ← GetStatus a nextBlockIndex c;
    if bool_decide (nextStatus = OnDisk) then
      Ret (schedule (ReadFileCacheJob (rq_request r) file (rq_size r) (rq_offset r) None) c)
    else
      let secondPartSize := u64 (rq_offset r + rq_size r - blockEnd) in
      '(c, pinned) ← leaf_op (X := BufferView P) a (Leaf.GetData blockEnd secondPartSize) c;
      if BufferView.HasData pinned then
        Ret (schedule (ReadFileCacheJob (rq_request r) file (rq_size r) (rq_offset r)
          (Some (buildPinnedBufVec a pinned))) c)
      else
        c ← wait_next r a nextBlockIndex nextStatus c;
        Ret (drop_pin (mkRangePin a (bv_pin pinned)) c)
  else Ret (schedule (ReadFileCacheJob (rq_request r) file (rq_size r) (rq_offset r) None) c).

(** [ExecuteCachedTree] when the cache has no byte at the offset. *)
Definition read_uncached r a c : res Client :=
  let blockIndex := blockOf (rq_offset r) in
  status ← GetStatus a blockIndex c;
  if bool_decide (status = OnDisk) then read_disk r a blockIndex c
  else FetchBlock r a blockIndex c.

(** When it has some of the bytes; the rest is in the next block. *)
Definition read_partly r a (buffer : BufferView P) c : res Client :=
  let totalBytes := BufferView.TotalSize buffer in
  let nextBlockIndex := blockOf (rq_offset r + totalBytes) in
  status ← GetStatus a nextBlockIndex c;
  if bool_decide (status = OnDisk) then
    '(c, file) ← GetFile a c;
    Ret (schedule (PrefixDiskReadFileCacheJob (rq_request r) (buildPinnedBufVec a buffer) file
      (nextBlockIndex * BlockSize) (u64 (rq_size r - totalBytes))) c)
  else
    c ← FetchBlock r a nextBlockIndex c;
    Ret (drop_pin (mkRangePin a (bv_pin buffer)) c).

Definition FuseReadFile_Execute (stop : bool) r c : res Client :=
  if stop then Ret (reply (rq_request r) (Error EIO) c)
  else
    let a := GetLeaf (rq_inode r) c in
    leaf ← FileTree.leaf_at a (cl_tree c);
    let size := LeafObject.GetSize leaf in
    if size <=? u64 (rq_offset r) then Ret (reply (rq_request r) (Error EIO) c)
    else
      let r := if size <? u64 (rq_offset r + rq_size r)
        then with_size (u64 (size - rq_offset r)) r else r in
      '(c, buffer) ← tree_GetData (rq_inode r) (rq_offset r) (rq_size r) c;
      if negb (BufferView.HasData buffer) then
        c ← read_uncached r a c;
        Ret (drop_pin (mkRangePin a (bv_pin buffer)) c)
      else if BufferView.TotalSize buffer <? rq_size r then read_partly r a buffer c
      else
        c ← TriggerPrefetch r a (blockOf (rq_offset r)) c;
        Ret (drop_pin (mkRangePin a (bv_pin buffer))
          (reply (rq_request r) (Data (buf_bytes (buildPinnedBufVec a buffer))) c)).

(** [FuseReadFilePendingJob::Execute]: the pins keep the two blocks in the cache until the
    read is tried again. *)
Definition PendingJob_Execute (p : PendingJob) c : res Client :=
  let r := pj_read p in
  '(c, arrived) ← leaf_op (X := BufferView P) (pj_leaf p) (Leaf.GetData (pj_arrivedBlockIndex p * BlockSize) BlockSize) c;
  '(c, requested) ← leaf_op (X := BufferView P) (pj_leaf p) (Leaf.GetData (blockOf (rq_offset r) * BlockSize) BlockSize) c;
  Ret (schedule (FuseReadFileJob r
    [mkRangePin (pj_leaf p) (bv_pin arrived); mkRangePin (pj_leaf p) (bv_pin requested)]) c).

(** [FuseReadFilePendingJob::Cancel] and [~FuseReadFileJob]. *)
Definition Cancel r c : Client :=
  if rq_request r =? 0 then c else reply (rq_request r) (Error EIO) c.

(** *** The other jobs *)

(** [RequestReadFileJob::ExecuteMain]. *)
Definition RequestReadFile_Execute (m : RequestRead) c : res Client :=
  Ret (with_wire (cl_wire c ++ [m]) c).

(** [ResponseReadFileInJob::ExecuteResponse]. *)
Definition ResponseReadFileIn_Execute (m : ResponseRead P) c : res Client :=
  if negb (rs_error m =? 0) then
    Ret (if rs_request m =? 0 then c else reply (rs_request m) (Error (rs_error m)) c)
  else Ret (schedule (ApplyBlockCacheJob (rs_request m) (rs_inode m) (rs_size m)
    (rs_offset m) (rs_skipped m) (rs_data m)) c).

(** [while (tree.NeedsEviction())]. *)
Fixpoint evict (fuel : nat) (shardIdx : nat) c : res Client :=
  if FileTree.NeedsEviction (cl_tree c) then
    match fuel with
    | O => Err OutOfFuel
    | S fuel =>
        '(t, fd) ← FileTree.GetFreeData begin shardIdx (cl_tree c);
        match FileTree.fd_data fd with
        | [] => Ret (with_tree t c)
        | _ =>
            evict fuel shardIdx (schedule (WriteFileCacheJob (FileTree.fd_inode fd)
              (FileTree.fd_size fd) (FileTree.fd_offset fd) (FileTree.fd_data fd)) (with_tree t c))
        end
    end
  else Ret c.

(** [for (auto& pendingJob : leaf.TakePendingJobs(blockIndex)) pendingJob->Execute()]. *)
Definition execute_all (jobs : list PendingJob) c : res Client :=
  foldl (λ m p, c ← m; PendingJob_Execute p c) (Ret c) jobs.

(** The bytes that arrived, all packets taken to be as long as the first one. *)
Definition readed_of (data : list P) : Z :=
  match data, last data with
  | front :: _, Some back =>
      u64 ((Z.of_nat (length data) - 1) * GetPayloadLength front + GetPayloadLength back)
  | _, _ => 0
  end.

Definition ApplyBlock_Execute (request : fuse_req_t) inode (sz offset skipped : Z) (data : list P) c :
    res Client :=
  let readed := readed_of data in
  let replySize := Z.min (u64 (readed + skipped)) sz in
  '(t, freePackets) ← FileTree.AddData hash inode (offset + skipped) readed data (cl_tree c);
  let c := with_tree t c in
  c ← (if request =? 0 then Ret c
       else
         '(c, bufView) ← tree_GetData inode offset replySize c;
         let buffVector := buildPinnedBufVec (GetLeaf inode c) bufView in
         Ret (drop_pin (pb_pin buffVector) (reply request (Data (buf_bytes buffVector)) c)));
  let a := GetLeaf inode c in
  '(c, pendingJobs) ← leaf_op (X := list PendingJob) a (λ d, Ret (Leaf.TakePendingJobs (blockOf (offset + skipped)) d)) c;
  c ← execute_all pendingJobs c;
  c ← evict (Z.to_nat (ft_grandTotal (cl_tree c))) (FileTree.ShardForInode hash inode) c;
  Ret (match freePackets with
       | [] => c
       | _ => schedule (FreeRecvPacketsJob freePackets) c
       end).

Definition WriteFileCache_Execute inode (sz offset : Z) (data : list P) c : res Client :=
  let a := GetLeaf inode c in
  '(c, file) ← GetFile a c;
  f ← NativeFile.Write beyond data sz offset (default empty_file (cl_disk c !! file));
  let c := with_files (cl_files c) (<[file := f]> (cl_disk c)) c in
  assert_that (sz <=? BlockSize);;
  c ← SetStatus a (u64 (Z.quot offset BlockSize)) OnDisk c;
  Ret (schedule (FreeRecvPacketsJob data) c).

Definition ReadFileCache_Execute (request : fuse_req_t) (file : string) (sz offset : Z)
    (appendData : option (PinnedFuseBufVec P)) c : res Client :=
  match appendData with
  | None =>
      bytes ← read_fd file offset sz c;
      Ret (reply request (Data bytes) c)
  | Some append =>
      let appendTotalSize := foldl (λ n s, u64 (n + sp_size s)) 0 (pb_buf append) in
      bytes ← read_fd file offset (u64 (sz - appendTotalSize)) c;
      Ret (drop_pin (pb_pin append) (reply request (Data (bytes ++ buf_bytes append)) c))
  end.

Definition PrefixDisk_Execute (request : fuse_req_t) (prefixData : PinnedFuseBufVec P)
    (file : string) (diskOffset diskSize : Z) c : res Client :=
  bytes ← read_fd file diskOffset diskSize c;
  Ret (drop_pin (pb_pin prefixData) (reply request (Data (buf_bytes prefixData ++ bytes)) c)).

(** [InvalidateCacheLeafJob::ExecuteCachedTree]. *)
Definition InvalidateCacheLeaf_Execute a c : res Client :=
  fst <$> leaf_op (X := ()) a (λ d, Ret (Leaf.InvalidateDataCache d, ())) c.

(** [job->Execute...]; a job is destroyed after it has run, and lets go of its pins. *)
Definition run_job (stop : bool) j c : res Client :=
  match j with
  | FuseReadFileJob r pins =>
      c ← FuseReadFile_Execute stop r c;
      Ret (foldr drop_pin c pins)
  | RequestReadFileJob m => RequestReadFile_Execute m c
  | ResponseReadFileInJob m => ResponseReadFileIn_Execute m c
  | ApplyBlockCacheJob request inode sz offset skipped data =>
      ApplyBlock_Execute request inode sz offset skipped data c
  | WriteFileCacheJob inode sz offset data => WriteFileCache_Execute inode sz offset data c
  | ReadFileCacheJob request file sz offset append => ReadFileCache_Execute request file sz offset append c
  | PrefixDiskReadFileCacheJob request prefix file diskOffset diskSize =>
      PrefixDisk_Execute request prefix file diskOffset diskSize c
  | FreeRecvPacketsJob packets => Ret (free_packets packets c)
  end.

(** A job that never runs is destroyed: only [FuseReadFileJob] answers. *)
Definition destroy_job j c : Client :=
  match j with
  | FuseReadFileJob r pins => foldr drop_pin (Cancel r c) pins
  | ReadFileCacheJob _ _ _ _ (Some append) => drop_pin (pb_pin append) c
  | PrefixDiskReadFileCacheJob _ prefix _ _ _ => drop_pin (pb_pin prefix) c
  | _ => c
  end.
(** The end of the scheduler: when all its threads have stopped, the queues are cleared. *)
Definition destroy_jobs c : Client := foldl (λ c j, destroy_job j c) (with_jobs [] c) (cl_jobs c).

(** [CancelAllPendingJobs], with what it does to the jobs. *)
Definition cancel_pending c : res Client :=
  '(t, jobs) ← FileTree.CancelAllPendingJobs (cl_tree c);
  Ret (foldl (λ c p, Cancel (pj_read p) c) (with_tree t c) jobs).

(** *** The server *)

(** [ResponseReadFileJob::ExecuteResponse]: [dataPackets] are the packets
    [GetDataPackets(1000)] gives, [errno] what the system calls have left there. *)
Definition Serve (errno : Z) (dataPackets : list P) (m : RequestRead) (f : F) :
    res (ResponseRead P * list P) :=
  match dataPackets with
  | [] => Err Undefined          (* dataPackets.front() *)
  | front :: _ =>
      let room := Z.of_nat (length dataPackets) * GetPayloadLength front in
      assert_that (rr_size m <=? room);;
      '(readed, unused) ← NativeFile.Read dataPackets room (rr_offset m + rr_skipped m) f;
      let respond := mkResponseRead (rr_request m) (rr_inode m) (rr_size m) (rr_offset m) (rr_skipped m) in
      Ret (match readed with
           | [] => (respond errno [], [])
           | _ => (respond 0 readed, unused)
           end)
  end.

End Operations.
End ReadJobs.

(** ** FuseReplyJob
    How the packets of an answer are given to the kernel ([FuseReplyJob.cpp]).  The sizes
    of [fuse_bufvec], whose header is followed by one [fuse_buf], are those of libfuse. *)
Module FuseReplyJob.
Section Reply.
Context {P : Type} `{!IPacket P}.
Context (sizeof_header sizeof_fuse_buf : Z).
Implicit Types (packets : list P).

Definition sizeof_fuse_bufvec : Z := sizeof_header + sizeof_fuse_buf.

(** The number of buffers, and where each of them is. *)
Record fuse_bufvec := mkBufvec { bv_count : Z; bv_bufs : list (list Z) }.

(** [PrepareBuffer]: the bytes that are allocated, and the vector. *)
Definition PrepareBuffer packets : Z * fuse_bufvec :=
  (u64 (sizeof_fuse_bufvec + u64 (sizeof_fuse_buf * u64 (Z.of_nat (length packets) - 1))),
   mkBufvec (Z.of_nat (length packets)) (map payload packets)).

(** [ExecuteResponse]: the bytes that [fuse_reply_data] is given, and the packets that
    [ReturnFreeDiskPackets] is. *)
Definition ExecuteResponse packets : list Z * list P :=
  let buffer := (PrepareBuffer packets).2 in
  (concat (take (Z.to_nat (bv_count buffer)) (bv_bufs buffer)), packets).

(** The vector fits into what is allocated, the empty one, for which the number of
    buffers behind the first wraps around, too. *)
Lemma PrepareBuffer_fits packets :
  0 < sizeof_header → 0 < sizeof_fuse_buf → sizeof_header + Z.of_nat (length packets) * sizeof_fuse_buf < 2 ^ 64 →
  (PrepareBuffer packets).1 = sizeof_header + Z.of_nat (length packets) * sizeof_fuse_buf.
Proof.
  intros H1 H2 H3. unfold PrepareBuffer, sizeof_fuse_bufvec, u64, wrap. cbn [fst].
  rewrite Z.mul_mod_idemp_r, Z.add_mod_idemp_r by lia.
  rewrite <-(Z.mod_small (sizeof_header + Z.of_nat (length packets) * sizeof_fuse_buf) (2 ^ 64)) by lia. f_equal. lia.
Qed.

Lemma ExecuteResponse_bytes packets : ExecuteResponse packets = (packets ≫= payload, packets).
Proof.
  unfold ExecuteResponse, PrepareBuffer. cbn [snd bv_count bv_bufs]. rewrite Nat2Z.id, firstn_all2 by (rewrite length_map; lia).
  f_equal. induction packets as [|p packets IH]; [done|]. cbn. by rewrite IH.
Qed.

End Reply.
End FuseReplyJob.
