(* ===== verification/ReadService.v ===== *)
(** * ReadService: every read is answered, and with the bytes of the file

    What the jobs of [ReadJobs] do together, in any order in which they run.  The state
    of a block in the cache of a leaf, the jobs and messages under way for it and the
    disk agree ([BlockInv]); every read is in one place: answered, in a job that waits, or
    pending at a block that is under way ([inv_all]). *)
From S2P Require Import Prelude Addr Packet Leaf FileTree FileCache NativeFile ReadJobs.
Local Open Scope Z_scope.

Section Gather.
Context {V A : Type}.
Implicit Types (f : V → list A) (m : gmap Z V).

(** The lists of all entries of a map. *)
Definition gather f m : list A := map_to_list m ≫= λ kv, f kv.2.

Lemma gather_delete f m k v : m !! k = Some v → gather f m ≡ₚ f v ++ gather f (delete k m).
Proof. intros H. unfold gather. by rewrite <- (map_to_list_delete m k v H). Qed.

Lemma gather_insert f m k v : gather f (<[k := v]> m) ≡ₚ f v ++ gather f (delete k m).
Proof.
  unfold gather. rewrite <- insert_delete_eq.
  by rewrite (map_to_list_insert (delete k m)) by apply lookup_delete_eq.
Qed.

(** One entry changes, and what is taken out of it goes elsewhere. *)
Lemma gather_update f m k v v' l l' :
  m !! k = Some v → l ++ f v ≡ₚ l' ++ f v' → l ++ gather f m ≡ₚ l' ++ gather f (<[k := v']> m).
Proof.
  intros Hk H. rewrite gather_insert, (gather_delete _ _ _ _ Hk), !app_assoc. by rewrite H.
Qed.

Lemma gather_elem f m x : x ∈ gather f m ↔ ∃ k v, m !! k = Some v ∧ x ∈ f v.
Proof.
  unfold gather. rewrite list_elem_of_bind. split.
  - intros ([k v] & Hx & Hkv). apply elem_of_map_to_list in Hkv. eauto.
  - intros (k & v & Hk & Hx). exists (k, v). by rewrite elem_of_map_to_list.
Qed.

(** Elements move between two of four places. *)
Lemma perm_move (a a' j g g' r : list A) :
  a ++ g ≡ₚ a' ++ g' → a ++ j ++ g ++ r ≡ₚ a' ++ j ++ g' ++ r.
Proof.
  intros H. rewrite !(Permutation_app_swap_app j), !(app_assoc _ _ (j ++ r)). by rewrite H.
Qed.

End Gather.

Section Service.
Context {P : Type} `{!IPacket P} {F : Type} `{!PosixFile F} `{!PosixFileLaws F}.
Context (hash : Z → Z) (begin : gmap Z Z → option Z) (beyond : P → nat → list Z) (cacheFolder : string).
Context (Hbegin : ∀ m, match begin m with Some k => is_Some (m !! k) | None => m = ∅ end).
(** The files that are read: their bytes, sizes and names. *)
Context (file : Z → Prop) (content : Z → Z → Z) (fsize : Z → Z) (name : Z → string).
Context (Hfsize : ∀ i, file i → 0 ≤ fsize i < 2 ^ 62).
Context (Hname : ∀ i k, file i → file k → name i = name k → i = k).
Abbreviation Client := (Client P F).
Abbreviation bs := (Z.of_nat MaxPayloadSize).
Abbreviation Holds i := (Holds (content i) (fsize i) bs).
Implicit Types (c : Client) (r : Read) (j : Job P) (d : LeafData P PendingJob) (i k : Z).

(** *** What is asked and answered *)

(** A read as the kernel asks for it: of a file, and not more than a block. *)
Definition Valid r : Prop :=
  rq_request r ≠ 0 ∧ file (rq_inode r) ∧ 0 ≤ rq_offset r < 2 ^ 62 ∧ 0 ≤ rq_size r ≤ BlockSize.

Definition wanted r : Z := Z.min (rq_size r) (fsize (rq_inode r) - rq_offset r).

(** The answer to a read. *)
Definition right_answer r : Answer :=
  if decide (rq_offset r < fsize (rq_inode r))
  then Data (file_bytes (content (rq_inode r)) (rq_offset r) (wanted r))
  else Error EIO.

(** The read of a job is one that was asked, or its part in the file. *)
Definition ReadOk (asked : list Read) r : Prop :=
  Valid r ∧ ∃ r0, r0 ∈ asked ∧ rq_request r0 = rq_request r ∧ rq_inode r0 = rq_inode r ∧
    rq_offset r0 = rq_offset r ∧ wanted r0 = wanted r.

Definition Answered (asked : list Read) (ra : fuse_req_t * Answer) : Prop :=
  ∃ r, r ∈ asked ∧ rq_request r = ra.1 ∧ right_answer r = ra.2.

(** *** Blocks *)

(** A block of a file. *)
Definition is_block i k : Prop := file i ∧ 0 ≤ k ∧ k * BlockSize < fsize i.

Abbreviation block_size i k := (block_bytes (fsize i) k).

Abbreviation disk := (gmap string F).
Definition cache_path i : string := (cacheFolder +:+ "/" +:+ name i)%string.

(** The cache file of [i] is there and has the bytes of the file from [a] to [b]. *)
Definition disk_bytes (D : disk) i (a b : Z) : Prop :=
  ∃ f, D !! cache_path i = Some f ∧ has_bytes (content i) a b f.
Definition on_disk (D : disk) i k : Prop :=
  disk_bytes D i (k * BlockSize) (k * BlockSize + block_size i k).

(** The status of a block says where it is; [under_way]: a request for it, its answer
    or the job with its data. *)
Definition BlockInv (D : disk) (under_way : Prop) i k (present : Prop) (status : PieceStatus) : Prop :=
  match status with
  | NotFound => ¬ present ∧ ¬ under_way
  | InFlight => ¬ present ∧ under_way
  | InCache => present ∧ ¬ under_way
  | OnDisk => on_disk D i k ∧ (present → ¬ under_way)
  end.

Definition PendingOk (asked : list Read) i k (p : PendingJob) : Prop :=
  pj_leaf p = i ∧ pj_arrivedBlockIndex p = k ∧ rq_inode (pj_read p) = i ∧ ReadOk asked (pj_read p).

Record LeafInv (asked : list Read) (D : disk) (under_way : Z → Prop) i d : Prop := {
  leaf_coherent : Coherent (content i) (fsize i) bs d;
  leaf_whole : Whole (content i) (fsize i) bs d;
  leaf_blocks : ∀ k status, is_block i k → ld_piecesStatus d !! Z.to_nat k = Some status →
    BlockInv D (under_way k) i k (is_Some (ld_data d !! k)) status;
  leaf_pending : ∀ k ps, ld_pendingJobs d !! k = Some ps → ps ≠ [] →
    is_block i k ∧ under_way k ∧ Forall (PendingOk asked i k) ps;
}.

(** *** Jobs and messages *)

Definition MessageOk (m : RequestRead) : Prop :=
  rr_request m = 0 ∧ rr_size m = BlockSize ∧ rr_skipped m = 0 ∧
  ∃ k, is_block (rr_inode m) k ∧ rr_offset m = k * BlockSize.

(** Data in hand that are the end of an answer, or its beginning. *)
Definition BufOk i (a n : Z) (b : PinnedFuseBufVec P) : Prop :=
  Forall span_ok (pb_buf b) ∧ pb_buf b ≫= BufferView.span_bytes = file_bytes (content i) a n.

Definition JobOk (asked : list Read) (D : disk) j : Prop :=
  match j with
  | FuseReadFileJob r _ => ReadOk asked r
  | RequestReadFileJob m => MessageOk m
  | ResponseReadFileInJob m =>
      rs_request m = 0 ∧ (rs_error m = 0 → rs_skipped m = 0 ∧
      ∃ k, is_block (rs_inode m) k ∧ rs_offset m = k * BlockSize ∧
        Holds (rs_inode m) (rs_offset m) (block_size (rs_inode m) k) (rs_data m))
  | ApplyBlockCacheJob request i _ offset skipped data =>
      request = 0 ∧ skipped = 0 ∧
      ∃ k, is_block i k ∧ offset = k * BlockSize ∧ Holds i offset (block_size i k) data
  | WriteFileCacheJob i size offset data =>
      ∃ k, is_block i k ∧ offset = k * BlockSize ∧ size = block_size i k ∧ Holds i offset size data
  | ReadFileCacheJob request path size offset append =>
      ∃ r n, ReadOk asked r ∧ rq_request r = request ∧ rq_offset r = offset ∧
        offset < fsize (rq_inode r) ∧ wanted r = size ∧ path = cache_path (rq_inode r) ∧ 0 ≤ n ≤ size ∧
        disk_bytes D (rq_inode r) offset (offset + size - n) ∧
        match append with
        | None => n = 0
        | Some b => BufOk (rq_inode r) (offset + size - n) n b
        end
  | PrefixDiskReadFileCacheJob request prefix path diskOffset diskSize =>
      ∃ r, ReadOk asked r ∧ rq_request r = request ∧ rq_offset r < fsize (rq_inode r) ∧
        path = cache_path (rq_inode r) ∧ 0 ≤ diskSize ≤ wanted r ∧
        diskOffset = rq_offset r + (wanted r - diskSize) ∧
        disk_bytes D (rq_inode r) diskOffset (diskOffset + diskSize) ∧
        BufOk (rq_inode r) (rq_offset r) (wanted r - diskSize) prefix
  | FreeRecvPacketsJob _ => True
  end.

(** The reads in a job, and the blocks under way in jobs and messages: an answer with an
    error brings none. *)
Definition job_reads j : list fuse_req_t :=
  match j with
  | FuseReadFileJob r _ => [rq_request r]
  | ReadFileCacheJob request _ _ _ _ => [request]
  | PrefixDiskReadFileCacheJob request _ _ _ _ => [request]
  | _ => []
  end.
Definition block_at (i offset : Z) : Z * Z := (i, offset / BlockSize).
Definition message_block (m : RequestRead) : Z * Z := block_at (rr_inode m) (rr_offset m).
Definition job_blocks j : list (Z * Z) :=
  match j with
  | RequestReadFileJob m => [message_block m]
  | ResponseReadFileInJob m => if rs_error m =? 0 then [block_at (rs_inode m) (rs_offset m)] else []
  | ApplyBlockCacheJob _ i _ offset _ _ => [block_at i offset]
  | _ => []
  end.
Definition blocks_of c : list (Z * Z) :=
  (cl_jobs c ≫= job_blocks) ++ (message_block <$> cl_wire c).

(** The reads that are pending at a leaf, and at all leaves. *)
Definition leaf_reads d : list fuse_req_t :=
  gather (fmap (λ p, rq_request (pj_read p))) (ld_pendingJobs d).
Definition pending_reads (t : FileTree P PendingJob) : list fuse_req_t :=
  gather (λ o, leaf_reads (lo_data o)) (ft_leaves t).

(** *** The invariant

    [cur] are reads and [E] blocks that the job which is running has in hand. *)
Record Inv (asked : list Read) (cur : list fuse_req_t) (E : list (Z * Z)) c : Prop := {
  inv_accounted : Accounted hash [] (cl_tree c);
  inv_keys : ∀ n m i, ft_cachePerShard (cl_tree c) !! n = Some m → is_Some (m !! i) → file i;
  inv_leaf : ∀ i, file i → ∃ o, ft_leaves (cl_tree c) !! i = Some o ∧ lo_name o = name i ∧
    LeafInv asked (cl_disk c) (λ k, (i, k) ∈ E ++ blocks_of c) i (lo_data o);
  inv_blocks : NoDup (E ++ blocks_of c);
  inv_jobs : Forall (JobOk asked (cl_disk c)) (cl_jobs c);
  inv_wire : Forall MessageOk (cl_wire c);
  inv_replies : Forall (Answered asked) (cl_replies c);
  inv_all : rq_request <$> asked ≡ₚ
    cur ++ (cl_jobs c ≫= job_reads) ++ pending_reads (cl_tree c) ++ (cl_replies c).*1;
  inv_others : ∀ i o, ft_leaves (cl_tree c) !! i = Some o → file i ∨ leaf_reads (lo_data o) = [];
}.

(** ** How the operations keep it *)

Lemma bs_pos : 0 < bs. Proof. done. Qed.
Lemma bs_small : bs < 2 ^ 16. Proof. done. Qed.

Lemma BlockInv_proper D D' (u u' : Prop) i k (p p' : Prop) status :
  (u ↔ u') → (p ↔ p') → (on_disk D i k → on_disk D' i k) →
  BlockInv D u i k p status → BlockInv D' u' i k p' status.
Proof. unfold BlockInv. destruct status; tauto. Qed.

(** Another disk that has what the first one has; other reads that were asked. *)
Definition disk_le (D D' : disk) : Prop :=
  ∀ i f, file i → D !! cache_path i = Some f →
    ∃ f', D' !! cache_path i = Some f' ∧ keeps (content i) (fsize i) f f'.

#[local] Instance disk_le_refl : Reflexive disk_le.
Proof. intros D i f _ Hf. exists f. split; [done|]. by intros ? _. Qed.

Lemma disk_bytes_le D D' i a b :
  disk_le D D' → file i → 0 ≤ a → b ≤ fsize i → disk_bytes D i a b → disk_bytes D' i a b.
Proof.
  intros Hle Hi Ha Hb (f & Hf & Hbytes). destruct (Hle _ _ Hi Hf) as (f' & Hf' & Hk). exists f'.
  split; [done|]. intros x Hx. apply Hk; [lia|by apply Hbytes].
Qed.

Lemma block_end i k : k * BlockSize + block_size i k ≤ fsize i.
Proof. unfold block_bytes. lia. Qed.

Lemma on_disk_le D D' i k : disk_le D D' → is_block i k → on_disk D i k → on_disk D' i k.
Proof.
  intros Hle (Hi & Hk & _). apply disk_bytes_le; [done..|unfold BlockSize; lia|apply block_end].
Qed.

Lemma ReadOk_mono asked asked' r :
  (∀ x, x ∈ asked → x ∈ asked') → ReadOk asked r → ReadOk asked' r.
Proof. intros Ha (Hv & r0 & H & ?). split; [done|]. exists r0. auto. Qed.

Lemma JobOk_mono asked asked' D D' j :
  (∀ x, x ∈ asked → x ∈ asked') → disk_le D D' → JobOk asked D j → JobOk asked' D' j.
Proof.
  intros Ha Hle. destruct j; cbn; try done.
  - by apply ReadOk_mono.
  - intros (r & n & Hr & ? & Ho & ? & Hw & ? & Hn & Hd & ?). exists r, n.
    split; [by eapply ReadOk_mono|]. do 6 (split; [done|]). split; [|done].
    destruct Hr as [(_ & Hf & ? & ?) _].
    eapply disk_bytes_le; [done|done|lia| |done]. unfold wanted in Hw. lia.
  - intros (r & Hr & ? & Ho & ? & ? & Hoff & Hd & ?). exists r.
    split; [by eapply ReadOk_mono|]. do 5 (split; [done|]). split; [|done].
    destruct Hr as [(_ & Hf & ? & ?) _].
    eapply disk_bytes_le; [done|done|lia| |done]. unfold wanted in *. lia.
Qed.

Lemma LeafInv_mono asked asked' D D' (u u' : Z → Prop) i d :
  (∀ x, x ∈ asked → x ∈ asked') → disk_le D D' → (∀ k, u k ↔ u' k) →
  LeafInv asked D u i d → LeafInv asked' D' u' i d.
Proof.
  intros Ha Hle Hu [H1 H2 H3 H4]. split; [done|done| |].
  - intros k st Hk Hst. eapply BlockInv_proper; [apply Hu|done| |by apply H3].
    by apply on_disk_le.
  - intros k ps Hps Hne. destruct (H4 _ _ Hps Hne) as (?&?&Hf). split; [done|]. split; [by apply Hu|].
    eapply Forall_impl; [exact Hf|]. intros p (?&?&?&?). split; [done|]. split; [done|]. split; [done|].
    by eapply ReadOk_mono.
Qed.

(** Nothing but the tree changes, and of the tree the data of one leaf. *)
Lemma Inv_leaf asked cur cur' E E' c t' i o d :
  Inv asked cur E c → file i → ft_leaves (cl_tree c) !! i = Some o →
  ft_leaves t' = <[i := LeafObject.with_data d o]> (ft_leaves (cl_tree c)) →
  Accounted hash [] t' →
  (∀ n m k, ft_cachePerShard t' !! n = Some m → is_Some (m !! k) →
    k = i ∨ ∃ m', ft_cachePerShard (cl_tree c) !! n = Some m' ∧ is_Some (m' !! k)) →
  NoDup (E' ++ blocks_of c) →
  (∀ i' k, i' ≠ i → (i', k) ∈ E ↔ (i', k) ∈ E') →
  LeafInv asked (cl_disk c) (λ k, (i, k) ∈ E' ++ blocks_of c) i d →
  cur ++ leaf_reads (lo_data o) ≡ₚ cur' ++ leaf_reads d →
  Inv asked cur' E' (ReadJobs.with_tree t' c).
Proof.
  intros [H1 H2 H3 H4 H5 H6 H7 H8 H9] Hi Ho Ht Hacc Hkeys Hnd HE Hd Hperm. split; try done.
  - intros n m k Hm Hk. destruct (Hkeys _ _ _ Hm Hk) as [->|(m' & ? & ?)]; [done|eauto].
  - intros k Hk. cbn. rewrite Ht. destruct (decide (k = i)) as [->|Hne].
    + rewrite lookup_insert_eq. eexists. split; [done|]. destruct (H3 _ Hi) as (o' & Ho' & Hn & _).
      simplify_eq. done.
    + rewrite lookup_insert_ne by done. destruct (H3 _ Hk) as (o' & Ho' & Hn & Hl). exists o'.
      split; [done|]. split; [done|]. eapply LeafInv_mono; [done|reflexivity| |exact Hl].
      intros b. rewrite (elem_of_app E), (elem_of_app E'), (HE k b Hne). done.
  - rewrite H8. cbn. unfold pending_reads. rewrite Ht.
    pose proof (gather_update (λ o, leaf_reads (lo_data o)) _ _ _ (LeafObject.with_data d o) cur cur' Ho Hperm) as G.
    by apply perm_move.
  - cbn. rewrite Ht. intros k o' [[<- <-]|[_ Hk]]%lookup_insert_Some; [by left|eauto].
Qed.

(** Reads and blocks in hand go into a job, or to the kernel. *)
Lemma schedule_ok asked cur E j c :
  Inv asked (job_reads j ++ cur) (job_blocks j ++ E) c → JobOk asked (cl_disk c) j →
  Inv asked cur E (ReadJobs.schedule j c).
Proof.
  intros [H1 H2 H3 H4 H5 H6 H7 H8 H9] Hj.
  assert (Hb : E ++ blocks_of (ReadJobs.schedule j c) ≡ₚ (job_blocks j ++ E) ++ blocks_of c).
  { unfold blocks_of. cbn. rewrite bind_app. cbn. rewrite app_nil_r. solve_Permutation. }
  split; try done.
  - intros i Hi. destruct (H3 i Hi) as (o & Ho & Hn & Hl). exists o. split; [done|]. split; [done|].
    eapply LeafInv_mono; [done|reflexivity| |exact Hl]. intros k. cbn. by rewrite Hb.
  - by rewrite Hb.
  - cbn. apply Forall_app. by rewrite Forall_singleton.
  - rewrite H8. cbn. rewrite bind_app. cbn. rewrite app_nil_r. solve_Permutation.
Qed.

Lemma reply_ok asked cur E q a c :
  Inv asked (q :: cur) E c → Answered asked (q, a) → Inv asked cur E (ReadJobs.reply q a c).
Proof.
  intros [H1 H2 H3 H4 H5 H6 H7 H8 H9] Ha. split; try done.
  - cbn. apply Forall_app. by rewrite Forall_singleton.
  - rewrite H8. cbn. rewrite fmap_app. cbn. solve_Permutation.
Qed.

Lemma job_runs asked cur E j c :
  Inv asked cur E c → JobOk asked (cl_disk c) j → job_reads j = [] → job_blocks j = [] →
  Inv asked cur E (ReadJobs.schedule j c).
Proof. intros H Hj Hr Hb. apply schedule_ok; [|done]. by rewrite Hr, Hb. Qed.

(** The files and the disk change. *)
Lemma Inv_disk asked cur E c fc D :
  Inv asked cur E c → disk_le (cl_disk c) D → Inv asked cur E (ReadJobs.with_files fc D c).
Proof.
  intros [H1 H2 H3 H4 H5 H6 H7 H8 H9] Hle. split; try done.
  - intros i Hi. destruct (H3 i Hi) as (o & Ho & Hn & Hl). exists o. split; [done|]. split; [done|].
    by eapply LeafInv_mono; [| | |exact Hl].
  - cbn. eapply Forall_impl; [exact H5|]. intros j. by apply JobOk_mono.
Qed.

Lemma inv_leaf_at asked cur E c i :
  Inv asked cur E c → file i → ∃ o, FileTree.leaf_at i (cl_tree c) = Ret o ∧
    ft_leaves (cl_tree c) !! i = Some o ∧ lo_name o = name i ∧
    LeafInv asked (cl_disk c) (λ k, (i, k) ∈ E ++ blocks_of c) i (lo_data o).
Proof.
  intros H Hi. destruct (inv_leaf _ _ _ _ H i Hi) as (o & Ho & ?). exists o. unfold FileTree.leaf_at.
  by rewrite Ho.
Qed.

Lemma inv_address asked cur E c i :
  Inv asked cur E c → file i → FileTree.address i (cl_tree c) = i.
Proof.
  intros H Hi. destruct (inv_leaf _ _ _ _ H i Hi) as (o & Ho & _).
  by eapply address_leaf; [apply (inv_accounted _ _ _ _ H)|].
Qed.

(** *** Pins *)

Lemma LeafInv_pins asked D u i d d' :
  pins_only d d' → LeafInv asked D u i d → LeafInv asked D u i d'.
Proof.
  intros Hp [H1 H2 H3 H4]. pose proof Hp as (Hd & _ & _ & Hs & Hj).
  split; [by eapply Coherent_pins_only|by eapply Whole_pins_only| |by rewrite Hj].
  intros k st Hk. rewrite Hs. intros Hst. eapply BlockInv_proper; [done| |done|by apply H3].
  pose proof (f_equal (.!! k) Hd) as E. rewrite !lookup_fmap in E.
  destruct (ld_data d !! k), (ld_data d' !! k); try done; by split; intros [? [=]].
Qed.

Lemma Inv_pins asked cur E c a o d :
  Inv asked cur E c → ft_leaves (cl_tree c) !! a = Some o → pins_only (lo_data o) d →
  Inv asked cur E (ReadJobs.with_tree (FileTree.update_data a d (cl_tree c)) c).
Proof.
  intros [H1 H2 H3 H4 H5 H6 H7 H8 H9] Ho Hp.
  pose proof (Accounted_pins hash _ _ _ _ _ H1 Ho Hp) as Hacc.
  assert (Hr : leaf_reads d = leaf_reads (lo_data o)).
  { unfold leaf_reads. by destruct Hp as (_ & _ & _ & _ & ->). }
  assert (Hl : ft_leaves (FileTree.update_data a d (cl_tree c)) =
    <[a := LeafObject.with_data d o]> (ft_leaves (cl_tree c))).
  { unfold FileTree.update_data. by rewrite Ho. }
  split; try done.
  - unfold FileTree.update_data. by rewrite Ho.
  - intros i Hi. cbn. rewrite Hl. destruct (H3 i Hi) as (o' & Ho' & Hn & Hl').
    destruct (decide (i = a)) as [->|].
    + rewrite lookup_insert_eq. eexists. split; [done|]. simplify_eq. split; [done|].
      by eapply LeafInv_pins.
    + rewrite lookup_insert_ne by done. eauto.
  - rewrite H8. cbn. unfold pending_reads. rewrite Hl. apply perm_move, (gather_update _ _ _ o); [done|].
    cbn. by rewrite Hr.
  - cbn. rewrite Hl. intros k o' [[<- <-]|[_ Hk]]%lookup_insert_Some; [|eauto]. cbn. rewrite Hr. eauto.
Qed.

Lemma drop_pin_ok asked cur E c pin :
  Inv asked cur E c → Inv asked cur E (ReadJobs.drop_pin pin c).
Proof.
  intros H. unfold ReadJobs.drop_pin. case_match eqn:Ho; [|done].
  eapply Inv_pins; [done..|]. apply pins_only_drop_pin.
Qed.

Lemma drop_pins_ok asked cur E c pins :
  Inv asked cur E c → Inv asked cur E (foldr ReadJobs.drop_pin c pins).
Proof. intros H. induction pins; [done|]. by apply drop_pin_ok. Qed.

(** *** Reading a leaf *)

Definition present c i k : Prop :=
  ∃ o, ft_leaves (cl_tree c) !! i = Some o ∧ is_Some (ld_data (lo_data o) !! k).

Lemma GetStatus_ok asked cur E c i k :
  Inv asked cur E c → is_block i k →
  ∃ status, ReadJobs.GetStatus i k c = Ret status ∧
    BlockInv (cl_disk c) ((i, k) ∈ E ++ blocks_of c) i k (present c i k) status.
Proof.
  intros H Hk. pose proof Hk as (Hi & Hk0 & Hsz). destruct (inv_leaf_at _ _ _ _ _ H Hi) as (o & E1 & Ho & _ & [Hc _ Hb _]).
  pose proof (Hfsize i Hi).
  assert (Hlt : (Z.to_nat k < length (ld_piecesStatus (lo_data o)))%nat).
  { pose proof (coherent_status _ _ _ _ Hc) as Hst.
    assert (k ≤ fsize i / BlockSize) by (apply Z.div_le_lower_bound; unfold BlockSize in *; lia). lia. }
  destruct (lookup_lt_is_Some_2 _ _ Hlt) as [st Hst]. exists st.
  unfold ReadJobs.GetStatus. rewrite E1. cbn [mbind res_bind]. unfold PiecesStatus.GetStatus.
  rewrite Hst, (proj2 (Z.leb_le 0 k)) by lia. split; [done|].
  eapply BlockInv_proper; [done| |done|by apply Hb]. unfold present. rewrite Ho. naive_solver.
Qed.

(** What a read of the cache gives: bytes of the file, up to a block that is not there. *)
Record Got i (offset size : Z) c (v : BufferView P) (n : Z) : Prop := {
  got_bytes : bv_spans v ≫= BufferView.span_bytes = file_bytes (content i) offset n;
  got_spans : Forall span_ok (bv_spans v);
  got_some : BufferView.HasData v = (0 <? n);
  got_total : BufferView.TotalSize v = n;
  got_least : 0 ≤ n ≤ Z.max 0 (Z.min size (fsize i - offset));
  got_end : n < Z.max 0 (Z.min size (fsize i - offset)) →
    ¬ present c i ((offset + n) / BlockSize) ∧ (0 < n → (BlockSize | offset + n));
}.

Lemma leaf_GetData_ok asked cur E c i offset size :
  Inv asked cur E c → file i → 0 ≤ offset → 0 ≤ size →
  ∃ t v n, ReadJobs.leaf_op i (Leaf.GetData offset size) c = Ret (ReadJobs.with_tree t c, v) ∧
    FileTree.GetData i offset size (cl_tree c) = Ret (t, v) ∧
    Inv asked cur E (ReadJobs.with_tree t c) ∧ Got i offset size (ReadJobs.with_tree t c) v n ∧
    ∀ k, ReadJobs.GetStatus i k (ReadJobs.with_tree t c) = ReadJobs.GetStatus i k c.
Proof.
  intros H Hi Ho Hs. destruct (inv_leaf_at _ _ _ _ _ H Hi) as (o & E1 & Hleaf & _ & [Hc Hw _ _]).
  pose proof (Hfsize i Hi) as [_ Hf].
  destruct (GetData_whole (content i) (fsize i) bs bs_pos Hf offset size _ Hc Hw Ho Hs)
    as (d & v & n & E2 & Hp & Hspans & Hb & Hn & Hend).
  exists (FileTree.update_data i d (cl_tree c)), v, n.
  unfold ReadJobs.leaf_op, FileTree.GetData. rewrite (inv_address _ _ _ _ _ H Hi), E1.
  cbn [mbind res_bind]. rewrite E2. cbn [mbind res_bind]. split; [done|]. split; [done|].
  split; [by eapply Inv_pins|].
  assert (Hlen : Z.of_nat (length (BufferView.bytes v)) = n) by (rewrite Hb, length_file_bytes; lia).
  destruct (TotalSize_bytes v Hspans) as [Ht Hd]; [lia|]. rewrite Hlen in *.
  split; [split; try done|]; [intros Hlt; destruct (Hend Hlt) as [Hnone Hdiv]; split; [|done]|].
  2: { intros k. unfold ReadJobs.GetStatus, FileTree.leaf_at, FileTree.update_data. cbn. rewrite Hleaf. cbn.
       rewrite lookup_insert_eq. cbn. by destruct Hp as (_ & _ & _ & -> & _). }
  intros (o' & Ho' & [s Hs']). cbn in Ho'. unfold FileTree.update_data in Ho'. rewrite Hleaf in Ho'. cbn in Ho'.
  rewrite lookup_insert_eq in Ho'. simplify_eq. cbn in Hs'.
  apply (pins_only_none _ _ _ Hp) in Hnone. congruence.
Qed.

(** *** Asking for blocks *)

Lemma block_in_range asked D u i k d :
  LeafInv asked D u i d → is_block i k →
  0 ≤ k < Z.of_nat (length (ld_piecesStatus d)).
Proof.
  intros [Hc _ _ _] (Hi & Hk0 & Hsz). rewrite (coherent_status _ _ _ _ Hc).
  assert (k ≤ fsize i / BlockSize) by (apply Z.div_le_lower_bound; unfold BlockSize in *; lia). lia.
Qed.

(** The status of one block changes. *)
Lemma LeafInv_status asked D (u u' : Z → Prop) i k st d :
  LeafInv asked D u i d → is_block i k →
  (∀ k', k' ≠ k → u k' ↔ u' k') → (u k → u' k) →
  BlockInv D (u' k) i k (is_Some (ld_data d !! k)) st →
  LeafInv asked D u' i (Leaf.with_status (<[Z.to_nat k := st]> (ld_piecesStatus d)) d).
Proof.
  intros Hl Hk Hu Huk Hst. pose proof (block_in_range _ _ _ _ _ _ Hl Hk) as Hr. destruct Hl as [H1 H2 H3 H4].
  split; [|done| |].
  - apply Coherent_with_status; [by rewrite length_insert|done].
  - cbn. intros k' st' Hk' Hst'. destruct (decide (k' = k)) as [->|Hne].
    + rewrite list_lookup_insert_eq in Hst' by lia. by simplify_eq.
    + destruct Hk as (_&?&_), Hk' as (?&?&?). rewrite list_lookup_insert_ne in Hst' by lia.
      eapply BlockInv_proper; [by apply Hu|done|done|by apply H3].
  - cbn. intros k' ps Hps Hne. destruct (H4 _ _ Hps Hne) as (?&?&?). split; [done|]. split; [|done].
    destruct (decide (k' = k)) as [->|]; [by apply Huk|by apply Hu].
Qed.

(** A status or the pending jobs of a leaf change. *)
Lemma Inv_same asked cur cur' E E' c i o d :
  Inv asked cur E c → file i → ft_leaves (cl_tree c) !! i = Some o →
  ld_data d = ld_data (lo_data o) → length (ld_piecesStatus d) = length (ld_piecesStatus (lo_data o)) →
  NoDup (E' ++ blocks_of c) → (∀ i' k, i' ≠ i → (i', k) ∈ E ↔ (i', k) ∈ E') →
  LeafInv asked (cl_disk c) (λ k, (i, k) ∈ E' ++ blocks_of c) i d →
  cur ++ leaf_reads (lo_data o) ≡ₚ cur' ++ leaf_reads d →
  Inv asked cur' E' (ReadJobs.with_tree (FileTree.update_data i d (cl_tree c)) c).
Proof.
  intros H Hi Ho Hd Hlen Hnd HE Hl Hp. pose proof (inv_accounted _ _ _ _ H) as Hacc.
  pose proof (acc_entry _ _ _ Hacc _ _ Ho) as (_ & _ & Hok).
  assert (Hu : FileTree.update_data i d (cl_tree c) = FileTree.set_leaf i (LeafObject.with_data d o) (cl_tree c)).
  { unfold FileTree.update_data. by rewrite Ho. }
  apply (Inv_leaf asked cur cur' E E' c _ i o d); [done..|by rewrite Hu| |by rewrite Hu; eauto|done|done|done|done].
  eapply Accounted_permuted; [done..| |].
  - unfold cached. by rewrite Hd.
  - intros k s. rewrite Hd, Hlen. apply Hok.
Qed.

Lemma SetInFlight_ok asked cur E c i k :
  Inv asked cur E c → is_block i k →
  ∃ t b, ReadJobs.leaf_op i (Leaf.SetInFlight k) c = Ret (ReadJobs.with_tree t c, b) ∧
    if b : bool then Inv asked cur ((i, k) :: E) (ReadJobs.with_tree t c)
    else Inv asked cur E (ReadJobs.with_tree t c) ∧
      ReadJobs.GetStatus i k (ReadJobs.with_tree t c) = ReadJobs.GetStatus i k c ∧
      ReadJobs.GetStatus i k c ≠ Ret NotFound.
Proof.
  intros H Hk. pose proof Hk as (Hi & Hk0 & _).
  destruct (inv_leaf_at _ _ _ _ _ H Hi) as (o & E1 & Ho & Hn & Hl).
  destruct (GetStatus_ok _ _ _ _ _ _ H Hk) as (st & Est & Hst).
  pose proof (block_in_range _ _ _ _ _ _ Hl Hk) as Hr.
  unfold ReadJobs.leaf_op, ReadJobs.GetStatus in *. rewrite E1 in *. cbn [mbind res_bind] in *.
  unfold Leaf.SetInFlight. rewrite Est. cbn [mbind res_bind]. case_bool_decide as Hnf.
  - subst st. unfold PiecesStatus.SetStatus. rewrite bool_decide_true by lia. cbn [defined_if mbind res_bind].
    do 2 eexists. split; [done|]. cbv iota. destruct Hst as [Hp Hu].
    assert (HE : (i, k) ∉ E ++ blocks_of c) by done.
    eapply Inv_same; [done..|cbn; by rewrite length_insert| | | |done].
    + cbn [app]. constructor; [done|]. apply (inv_blocks _ _ _ _ H).
    + intros i' k' Hne. rewrite elem_of_cons. naive_solver.
    + eapply LeafInv_status; [done..| | |].
      * intros k' Hne. cbn [app]. rewrite elem_of_cons. naive_solver.
      * intros _. cbn [app]. by left.
      * split; [|cbn [app]; by left]. intros Hs. apply Hp. by exists o.
  - do 2 eexists. split; [done|]. cbv iota. split; [|split; [|congruence]].
    + eapply Inv_same; [done..|apply (inv_blocks _ _ _ _ H)|done|done|done].
    + unfold FileTree.leaf_at, FileTree.update_data. cbn. rewrite Ho. cbn. by rewrite lookup_insert_eq.
Qed.

Lemma gather_reads m k ps (p : PendingJob) :
  default [] (m !! k) = ps →
  gather (fmap (λ p, rq_request (pj_read p))) (<[k := ps ++ [p]]> m) ≡ₚ
  rq_request (pj_read p) :: gather (fmap (λ p, rq_request (pj_read p))) m.
Proof.
  intros Hps. rewrite gather_insert, fmap_app. destruct (m !! k) as [ps'|] eqn:Hk; cbn in Hps; subst ps.
  - rewrite (gather_delete _ _ _ _ Hk). cbn. solve_Permutation.
  - by rewrite delete_id.
Qed.

Lemma AddPendingJob_ok asked cur E c i k p :
  Inv asked (rq_request (pj_read p) :: cur) E c → is_block i k → (i, k) ∈ E ++ blocks_of c →
  PendingOk asked i k p →
  ∃ t, ReadJobs.AddPendingJob i k p c = Ret (ReadJobs.with_tree t c) ∧
    Inv asked cur E (ReadJobs.with_tree t c).
Proof.
  intros H Hk Hu Hp. pose proof Hk as (Hi & Hk0 & _).
  destruct (inv_leaf_at _ _ _ _ _ H Hi) as (o & E1 & Ho & Hn & Hl).
  unfold ReadJobs.AddPendingJob, ReadJobs.leaf_op. rewrite E1. cbn [mbind res_bind fmap res_fmap].
  eexists. split; [done|]. eapply Inv_same; [done..|apply (inv_blocks _ _ _ _ H)|done| |].
  - destruct Hl as [H1 H2 H3 H4]. split; [by destruct H1|done|done|].
    cbn. intros k' ps [[<- <-]|[_ Hps]]%lookup_insert_Some Hne; [|by apply H4].
    split; [done|]. split; [done|]. apply Forall_app. split; [|by apply Forall_singleton].
    destruct (ld_pendingJobs (lo_data o) !! k) as [ps|] eqn:Eps; [|constructor]. cbn.
    destruct ps as [|p' ps]; [constructor|]. by apply (H4 k (p' :: ps)).
  - unfold leaf_reads. cbn [ld_pendingJobs Leaf.AddPendingJob Leaf.with_jobs]. rewrite gather_reads by done.
    solve_Permutation.
Qed.

(** *** Fetching *)

Lemma blockOf_eq offset : 0 ≤ offset < 2 ^ 63 → ReadJobs.blockOf offset = offset / BlockSize.
Proof. intros. unfold ReadJobs.blockOf. by rewrite wrap_small by lia. Qed.

Lemma block_of_byte i x : file i → 0 ≤ x < fsize i → is_block i (x / BlockSize).
Proof.
  intros Hi Hx. split; [done|]. split; [apply Z.div_pos; [lia|done]|].
  pose proof (Z.mul_div_le x BlockSize ltac:(done)). lia.
Qed.

Lemma block_at_block i k : 0 ≤ k → block_at i (k * BlockSize) = (i, k).
Proof. intros. unfold block_at. by rewrite Z.div_mul by done. Qed.

Lemma request_ok asked cur E c i k remote :
  Inv asked cur ((i, k) :: E) c → is_block i k →
  Inv asked cur E (ReadJobs.schedule (RequestReadFileJob
    (mkRequestRead 0 i BlockSize (k * BlockSize) 0 remote)) c).
Proof.
  intros H Hk. pose proof Hk as (_ & ? & _). apply schedule_ok.
  - cbn. unfold message_block. cbn. by rewrite block_at_block.
  - repeat split. exists k. by split.
Qed.

Lemma prefetch_ok asked r blocks : file (rq_inode r) → Forall (λ k, 0 ≤ k) blocks → ∀ cur E c,
  Inv asked cur E c →
  ∃ c', ReadJobs.prefetch r (rq_inode r) blocks c = Ret c' ∧ Inv asked cur E c'.
Proof.
  intros Hi. induction 1 as [|k blocks Hk _ IH]; intros cur E c H; cbn [ReadJobs.prefetch]; [by exists c|].
  destruct (inv_leaf_at _ _ _ _ _ H Hi) as (o & -> & Ho & _ & Hl). cbn [mbind res_bind].
  unfold LeafObject.GetSize. rewrite (coherent_size _ _ _ _ (leaf_coherent _ _ _ _ _ Hl)).
  destruct (Z.leb_spec (fsize (rq_inode r)) (k * BlockSize)); [by exists c|].
  destruct (SetInFlight_ok _ _ _ _ (rq_inode r) k H ltac:(done)) as (t & b & -> & Hb). cbn [mbind res_bind].
  destruct b; [|by apply IH, Hb]. apply IH, request_ok; [|done]. done.
Qed.

Lemma TriggerPrefetch_ok asked cur E c r k :
  Inv asked cur E c → file (rq_inode r) → 0 ≤ k →
  ∃ c', ReadJobs.TriggerPrefetch r (rq_inode r) k c = Ret c' ∧ Inv asked cur E c'.
Proof.
  intros H Hi Hk. apply prefetch_ok; [done| |done]. apply Forall_forall. intros x Hx.
  apply elem_of_seqZ in Hx. lia.
Qed.

Lemma retry_ok asked cur E c r :
  Inv asked (rq_request r :: cur) E c → ReadOk asked r →
  Inv asked cur E (ReadJobs.schedule (FuseReadFileJob r []) c).
Proof. intros H Hr. by apply schedule_ok. Qed.

(** The read waits for a block that is asked for, or was. *)
Lemma wait_ok asked cur E c r k :
  Inv asked (rq_request r :: cur) E c → ReadOk asked r → is_block (rq_inode r) k →
  (rq_inode r, k) ∈ E ++ blocks_of c →
  ∃ t, ReadJobs.AddPendingJob (rq_inode r) k (mkPendingJob r k (rq_inode r)) c = Ret (ReadJobs.with_tree t c) ∧
    Inv asked cur E (ReadJobs.with_tree t c).
Proof. intros H Hr Hk Hu. by apply (AddPendingJob_ok _ _ _ _ _ _ (mkPendingJob r k (rq_inode r))). Qed.

(** The block is there after all, or under way. *)
Lemma not_requested asked cur E c i k :
  Inv asked cur E c → is_block i k →
  ReadJobs.GetStatus i k c ≠ Ret NotFound → ReadJobs.GetStatus i k c ≠ Ret OnDisk →
  ∃ status, ReadJobs.GetStatus i k c = Ret status ∧ (status = InCache ∨ status = InFlight ∧ (i, k) ∈ E ++ blocks_of c).
Proof.
  intros H Hk Hnf Hod. destruct (GetStatus_ok _ _ _ _ _ _ H Hk) as (st & Hst & Hb). exists st.
  split; [done|]. destruct st; [congruence|right|left|congruence]; [|done]. split; [done|apply Hb].
Qed.

Lemma FetchBlock_ok asked cur E c r k :
  Inv asked (rq_request r :: cur) E c → ReadOk asked r → is_block (rq_inode r) k →
  ReadJobs.GetStatus (rq_inode r) k c ≠ Ret OnDisk →
  ∃ c', ReadJobs.FetchBlock r (rq_inode r) k c = Ret c' ∧ Inv asked cur E c'.
Proof.
  intros H Hr Hk Hod. pose proof Hk as (Hi & Hk0 & _). unfold ReadJobs.FetchBlock.
  destruct (SetInFlight_ok _ _ _ _ (rq_inode r) k H Hk) as (t & b & -> & Hb). cbn [mbind res_bind].
  destruct b.
  - destruct (wait_ok _ _ _ _ r k Hb Hr Hk) as (t2 & -> & H2); [by left|]. cbn [mbind res_bind].
    apply TriggerPrefetch_ok; [|done..]. by apply request_ok.
  - destruct Hb as (Hb & Est & Hnf). rewrite <- Est in Hnf, Hod.
    destruct (not_requested _ _ _ _ _ _ Hb Hk Hnf Hod) as (st & -> & Hst). cbn [mbind res_bind].
    case_bool_decide; [eexists; split; [done|]; by apply retry_ok|].
    destruct Hst as [|[_ Hu]]; [done|].
    destruct (wait_ok _ _ _ _ r k Hb Hr Hk Hu) as (t2 & -> & H2). eauto.
Qed.

Lemma wait_next_ok asked cur E c r k status :
  Inv asked (rq_request r :: cur) E c → ReadOk asked r → is_block (rq_inode r) k →
  ReadJobs.GetStatus (rq_inode r) k c ≠ Ret OnDisk →
  ∃ c', ReadJobs.wait_next r (rq_inode r) k status c = Ret c' ∧ Inv asked cur E c'.
Proof.
  intros H Hr Hk Hod. pose proof Hk as (Hi & Hk0 & _). unfold ReadJobs.wait_next.
  case_bool_decide; [eexists; split; [done|]; by apply retry_ok|].
  destruct (SetInFlight_ok _ _ _ _ (rq_inode r) k H Hk) as (t & b & -> & Hb). cbn [mbind res_bind].
  destruct b.
  - destruct (wait_ok _ _ _ _ r k Hb Hr Hk) as (t2 & -> & H2); [by left|]. cbn [mbind res_bind].
    eexists. split; [done|]. by apply request_ok.
  - destruct Hb as (Hb & Est & Hnf). rewrite <- Est in Hnf, Hod.
    destruct (not_requested _ _ _ _ _ _ Hb Hk Hnf Hod) as (st & -> & Hst). cbn [mbind res_bind].
    case_bool_decide; [eexists; split; [done|]; by apply retry_ok|].
    destruct Hst as [|[_ Hu]]; [done|].
    destruct (wait_ok _ _ _ _ r k Hb Hr Hk Hu) as (t2 & -> & H2). eauto.
Qed.

(** *** Reading the disk *)

Lemma open_cache_file_ok asked cur E c i :
  Inv asked cur E c → file i →
  ∃ fc D, ReadJobs.GetFile cacheFolder i c = Ret (ReadJobs.with_files fc D c, cache_path i) ∧
    disk_le (cl_disk c) D ∧ Inv asked cur E (ReadJobs.with_files fc D c) ∧
    D !! cache_path i = Some (default empty_file (cl_disk c !! cache_path i)).
Proof.
  intros H Hi. destruct (inv_leaf_at _ _ _ _ _ H Hi) as (o & E1 & Ho & Hn & _).
  assert (Hp : ReadJobs.path cacheFolder o = cache_path i).
  { unfold ReadJobs.path, ReadJobs.GetCachePath, cache_path. by rewrite Hn. }
  unfold ReadJobs.GetFile. rewrite E1. cbn [mbind res_bind]. rewrite Hp.
  destruct (FileCache.FileCache.GetFile _ _) as [fc n]. do 2 eexists. split; [done|].
  assert (Hle : disk_le (cl_disk c) (<[cache_path i := default empty_file (cl_disk c !! cache_path i)]> (cl_disk c))).
  { intros k f Hk Hf. destruct (decide (cache_path k = cache_path i)) as [He|He].
    - exists f. rewrite <- He, Hf, lookup_insert_eq. split; [done|]. by intros ? _.
    - exists f. rewrite lookup_insert_ne by done. split; [done|]. by intros ? _. }
  split; [done|]. split; [by apply Inv_disk|]. by rewrite lookup_insert_eq.
Qed.

Lemma disk_bytes_sub D i a b a' b' : a ≤ a' → b' ≤ b → disk_bytes D i a b → disk_bytes D i a' b'.
Proof. intros ? ? (f & Hf & Hb). exists f. split; [done|]. intros x Hx. apply Hb. lia. Qed.

Lemma disk_bytes_app D i a b b' : disk_bytes D i a b → disk_bytes D i b b' → disk_bytes D i a b'.
Proof.
  intros (f & Hf & Hb) (f' & Hf' & Hb'). simplify_eq. exists f. split; [done|]. intros x Hx.
  destruct (decide (x < b)); [apply Hb; lia|apply Hb'; lia].
Qed.

(** A read that lies in the file. *)
Definition InFile asked r : Prop :=
  ReadOk asked r ∧ 0 ≤ rq_offset r < fsize (rq_inode r) ∧ rq_offset r + rq_size r ≤ fsize (rq_inode r).

Lemma InFile_bounds asked r :
  InFile asked r → file (rq_inode r) ∧ 0 ≤ rq_size r ≤ BlockSize ∧ wanted r = rq_size r ∧
  rq_offset r + rq_size r < 2 ^ 62.
Proof.
  intros (((_ & Hi & _ & Hs) & _) & Ho & He). pose proof (Hfsize _ Hi). unfold wanted. split; [done|lia].
Qed.

Lemma disk_job_ok asked cur E c r n append :
  Inv asked (rq_request r :: cur) E c → InFile asked r → 0 ≤ n ≤ rq_size r →
  disk_bytes (cl_disk c) (rq_inode r) (rq_offset r) (rq_offset r + rq_size r - n) →
  match append with
  | None => n = 0
  | Some b => BufOk (rq_inode r) (rq_offset r + rq_size r - n) n b
  end →
  Inv asked cur E (ReadJobs.schedule
    (ReadFileCacheJob (rq_request r) (cache_path (rq_inode r)) (rq_size r) (rq_offset r) append) c).
Proof.
  intros H Hr Hn Hd Ha. apply schedule_ok; [done|].
  destruct (InFile_bounds _ _ Hr) as (_ & _ & Hw & _). destruct Hr as (Hok & Ho & _).
  exists r, n. do 3 (split; [done|]). split; [lia|]. done.
Qed.

(** The block of a byte, by its bounds. *)
Lemma in_block k x : k * BlockSize ≤ x < (k + 1) * BlockSize → x / BlockSize = k.
Proof. intros. symmetry. apply Z.div_unique with (x - BlockSize * k); [left; lia|lia]. Qed.

Lemma block_bounds x : x / BlockSize * BlockSize ≤ x < (x / BlockSize + 1) * BlockSize.
Proof.
  pose proof (Z.mul_div_le x BlockSize ltac:(done)). pose proof (Z.mul_succ_div_gt x BlockSize ltac:(done)). lia.
Qed.

Lemma no_block_start k x : k * BlockSize < x < (k + 1) * BlockSize → ¬ (BlockSize | x).
Proof.
  intros [H1 H2] [q ->]. apply (Z.mul_lt_mono_pos_r BlockSize) in H1; [|done].
  apply (Z.mul_lt_mono_pos_r BlockSize) in H2; [|done]. lia.
Qed.

(** The first part of a read that crosses a block is on the disk. *)
Lemma first_part D r asked k :
  InFile asked r → k = rq_offset r / BlockSize → on_disk D (rq_inode r) k →
  ∀ x, x ≤ rq_offset r + rq_size r → x ≤ (k + 1) * BlockSize →
  disk_bytes D (rq_inode r) (rq_offset r) x.
Proof.
  intros Hr -> Hd x Hx1 Hx2. pose proof (block_bounds (rq_offset r)). destruct Hr as (_ & _ & He).
  eapply disk_bytes_sub; [| |exact Hd]; [lia|]. unfold block_bytes. lia.
Qed.

Lemma next_in_memory asked r c v n k :
  InFile asked r → k = rq_offset r / BlockSize → (k + 1) * BlockSize < rq_offset r + rq_size r →
  let rest := rq_offset r + rq_size r - (k + 1) * BlockSize in
  Got (rq_inode r) ((k + 1) * BlockSize) rest c v n → 0 < n → n = rest.
Proof.
  intros Hr -> Hx rest [_ _ _ _ Hn Hend] Hpos. destruct (InFile_bounds _ _ Hr) as (_ & Hs & _).
  destruct Hr as (_ & _ & He). pose proof (block_bounds (rq_offset r)).
  destruct (decide (n = rest)); [done|exfalso]. destruct Hend as [_ Hdiv]; [lia|].
  eapply (no_block_start (rq_offset r / BlockSize + 1)); [|apply Hdiv; lia]. unfold BlockSize in *. lia.
Qed.

Lemma read_disk_ok asked cur E c r k :
  Inv asked (rq_request r :: cur) E c → InFile asked r → k = rq_offset r / BlockSize →
  on_disk (cl_disk c) (rq_inode r) k →
  ∃ c', ReadJobs.read_disk cacheFolder r (rq_inode r) k c = Ret c' ∧ Inv asked cur E c'.
Proof.
  intros H Hr Hk Hod. destruct (InFile_bounds _ _ Hr) as (Hi & Hs & Hw & Hb).
  pose proof Hr as (Hok & Ho & He). pose proof (block_bounds (rq_offset r)) as Hkb. rewrite <- Hk in Hkb.
  unfold ReadJobs.read_disk. destruct (open_cache_file_ok _ _ _ _ (rq_inode r) H Hi) as (fc & D & -> & Hle & H1 & _).
  cbn [mbind res_bind]. set (c1 := ReadJobs.with_files fc D c) in *. rewrite wrap_small by lia.
  assert (Hkblock : is_block (rq_inode r) k) by (rewrite Hk; apply block_of_byte; [done|lia]).
  assert (Hod1 : on_disk (cl_disk c1) (rq_inode r) k) by (by eapply on_disk_le).
  destruct (Z.ltb_spec ((k + 1) * BlockSize) (rq_offset r + rq_size r)) as [Hx|Hx].
  2: { eexists. split; [done|]. apply (disk_job_ok _ _ _ _ _ 0); [done|done|lia| |done].
       apply (first_part _ _ asked k); [done|done|done|lia|lia]. }
  rewrite Z.div_mul by done.
  assert (Hnext : is_block (rq_inode r) (k + 1)) by (destruct Hkblock as (?&?&?); split; [done|lia]).
  destruct (GetStatus_ok _ _ _ _ _ _ H1 Hnext) as (st & Est & Hst). rewrite Est. cbn [mbind res_bind].
  case_bool_decide as Hod2.
  - subst st. destruct Hst as [Hd2 _]. eexists. split; [done|].
    apply (disk_job_ok _ _ _ _ _ 0); [done|done|lia| |done].
    eapply disk_bytes_app; [apply (first_part _ _ asked k Hr Hk Hod1 ((k + 1) * BlockSize)); lia|].
    eapply disk_bytes_sub; [| |exact Hd2]; [lia|]. unfold block_bytes. lia.
  - rewrite wrap_small by lia.
    destruct (leaf_GetData_ok _ _ _ _ (rq_inode r) ((k + 1) * BlockSize)
      (rq_offset r + rq_size r - (k + 1) * BlockSize) H1 Hi) as (t & v & n & -> & _ & H2 & Hgot & Hsame); [lia|lia|].
    cbn [mbind res_bind]. rewrite (got_some _ _ _ _ _ _ Hgot). destruct (Z.ltb_spec 0 n).
    + pose proof (next_in_memory _ _ _ _ _ _ Hr Hk Hx Hgot ltac:(done)) as ->. eexists. split; [done|].
      eapply disk_job_ok; [done|done| | |].
      3: { split; [by apply (got_spans _ _ _ _ _ _ Hgot)|]. cbn. rewrite (got_bytes _ _ _ _ _ _ Hgot). f_equal. lia. }
      * lia.
      * apply (first_part _ _ asked k); [done|done|done|lia|lia].
    + destruct (wait_next_ok asked cur E (ReadJobs.with_tree t c1) r (k + 1) st H2 Hok Hnext) as (c3 & -> & H3);
        [by rewrite Hsame, Est; intros [=]|]. cbn [mbind res_bind]. eexists. split; [done|]. by apply drop_pin_ok.
Qed.

Lemma read_uncached_ok asked cur E c r :
  Inv asked (rq_request r :: cur) E c → InFile asked r →
  ∃ c', ReadJobs.read_uncached cacheFolder r (rq_inode r) c = Ret c' ∧ Inv asked cur E c'.
Proof.
  intros H Hr. destruct (InFile_bounds _ _ Hr) as (Hi & Hs & Hw & Hb). pose proof Hr as (Hok & Ho & He).
  unfold ReadJobs.read_uncached. rewrite blockOf_eq by lia.
  assert (Hk : is_block (rq_inode r) (rq_offset r / BlockSize)) by (by apply block_of_byte).
  destruct (GetStatus_ok _ _ _ _ _ _ H Hk) as (st & Est & Hst). rewrite Est. cbn [mbind res_bind].
  case_bool_decide as Hod.
  - subst st. apply (read_disk_ok asked); [done|done|done|apply Hst].
  - apply FetchBlock_ok; [done..|]. rewrite Est. by intros [=].
Qed.

Lemma read_partly_ok asked cur E c r v n :
  Inv asked (rq_request r :: cur) E c → InFile asked r →
  Got (rq_inode r) (rq_offset r) (rq_size r) c v n → 0 < n < rq_size r →
  ∃ c', ReadJobs.read_partly cacheFolder r (rq_inode r) v c = Ret c' ∧ Inv asked cur E c'.
Proof.
  intros H Hr Hgot Hn. destruct (InFile_bounds _ _ Hr) as (Hi & Hs & Hw & Hb). pose proof Hr as (Hok & Ho & He).
  destruct (got_end _ _ _ _ _ _ Hgot) as [Hnone Hdiv]; [lia|]. specialize (Hdiv ltac:(lia)).
  unfold ReadJobs.read_partly. rewrite (got_total _ _ _ _ _ _ Hgot), blockOf_eq by lia.
  set (k := (rq_offset r + n) / BlockSize) in *.
  assert (Hk : is_block (rq_inode r) k) by (apply block_of_byte; [done|lia]).
  assert (Hstart : k * BlockSize = rq_offset r + n).
  { pose proof (block_bounds (rq_offset r + n)). fold k in H0.
    destruct (decide (k * BlockSize = rq_offset r + n)); [done|]. exfalso.
    by eapply (no_block_start k); [|exact Hdiv]; lia. }
  destruct (GetStatus_ok _ _ _ _ _ _ H Hk) as (st & Est & Hst). rewrite Est. cbn [mbind res_bind].
  case_bool_decide as Hod.
  - subst st. destruct Hst as [Hd _].
    destruct (open_cache_file_ok _ _ _ _ (rq_inode r) H Hi) as (fc & D & -> & Hle & H1 & _). cbn [mbind res_bind].
    eexists. split; [done|]. rewrite wrap_small by lia. apply schedule_ok; [done|].
    exists r. do 2 (split; [done|]). split; [lia|]. split; [done|]. rewrite Hw. split; [lia|].
    split; [lia|]. split.
    + eapply disk_bytes_sub; [| |by eapply on_disk_le]; [lia|].
      unfold block_bytes. unfold BlockSize in *. lia.
    + split; [by apply (got_spans _ _ _ _ _ _ Hgot)|]. cbn. rewrite (got_bytes _ _ _ _ _ _ Hgot). f_equal. lia.
  - destruct (FetchBlock_ok asked cur E c r k) as (c2 & -> & H2); [done..|by rewrite Est; intros [=]|].
    cbn [mbind res_bind]. eexists. split; [done|]. by apply drop_pin_ok.
Qed.

(** *** The jobs *)

Lemma ReadOk_data asked r n :
  ReadOk asked r → rq_offset r < fsize (rq_inode r) → n = wanted r →
  Answered asked (rq_request r, Data (file_bytes (content (rq_inode r)) (rq_offset r) n)).
Proof.
  intros (_ & r0 & H0 & Hq & Hi & Ho & Hw) Hlt ->. exists r0. split; [done|]. split; [done|].
  unfold right_answer. rewrite Hi, Ho, Hw. by rewrite decide_True.
Qed.

Lemma ReadOk_error asked r :
  ReadOk asked r → fsize (rq_inode r) ≤ rq_offset r → Answered asked (rq_request r, Error EIO).
Proof.
  intros (_ & r0 & H0 & Hq & Hi & Ho & Hw) Hlt. exists r0. split; [done|]. split; [done|].
  unfold right_answer. rewrite Hi, Ho. by rewrite decide_False by lia.
Qed.

(** The part of a read that lies in the file. *)
Lemma clip_ok asked r n :
  ReadOk asked r → rq_offset r < fsize (rq_inode r) → n = wanted r → InFile asked (with_size n r).
Proof.
  intros ((Hq & Hi & Ho & Hs) & r0 & H0 & Hq0 & Hi0 & Ho0 & Hw0) Hlt ->.
  pose proof (Hfsize _ Hi). unfold InFile, ReadOk, Valid, wanted in *. cbn.
  split; [|lia]. split; [split; [done|]; split; [done|]; lia|]. exists r0. repeat (split; [done|]). lia.
Qed.

Lemma FuseReadFile_ok asked cur E c r :
  Inv asked (rq_request r :: cur) E c → ReadOk asked r →
  ∃ c', ReadJobs.FuseReadFile_Execute cacheFolder false r c = Ret c' ∧ Inv asked cur E c'.
Proof.
  intros H Hr. pose proof Hr as ((_ & Hi & Ho & Hs) & _). pose proof (Hfsize _ Hi) as Hf.
  unfold ReadJobs.FuseReadFile_Execute, ReadJobs.GetLeaf. rewrite (inv_address _ _ _ _ _ H Hi).
  destruct (inv_leaf_at _ _ _ _ _ H Hi) as (o & -> & Hleaf & _ & Hl). cbn [mbind res_bind].
  unfold LeafObject.GetSize. rewrite (coherent_size _ _ _ _ (leaf_coherent _ _ _ _ _ Hl)).
  assert (BlockSize < 2 ^ 62) by done. rewrite !wrap_small by lia.
  destruct (Z.leb_spec (fsize (rq_inode r)) (rq_offset r)) as [Hle|Hlt].
  { eexists. split; [done|]. apply reply_ok; [done|]. by apply ReadOk_error. }
  set (r' := if _ <? _ then _ else r).
  assert (Hr' : InFile asked r' ∧ r' = with_size (wanted r) r).
  { assert (r' = with_size (wanted r) r) as ->; [|split; [by apply clip_ok|done]].
    subst r'. unfold wanted. destruct (Z.ltb_spec (fsize (rq_inode r)) (rq_offset r + rq_size r)).
    - rewrite wrap_small by lia. f_equal. lia.
    - destruct r. unfold with_size. cbn in *. f_equal. lia. }
  clearbody r'. destruct Hr' as [Hr' ->]. set (r' := with_size (wanted r) r) in *.
  destruct (InFile_bounds _ _ Hr') as (_ & Hs' & Hw' & Hb'). unfold ReadJobs.tree_GetData.
  assert (Ho' : rq_offset r' = rq_offset r) by done.
  destruct (leaf_GetData_ok _ _ _ _ (rq_inode r') (rq_offset r') (rq_size r') H Hi)
    as (t & v & n & _ & -> & H1 & Hgot & _); [lia|lia|].
  cbn [mbind res_bind]. rewrite (got_some _ _ _ _ _ _ Hgot), (got_total _ _ _ _ _ _ Hgot).
  pose proof (got_least _ _ _ _ _ _ Hgot) as Hn.
  destruct (Z.ltb_spec 0 n) as [Hpos|Hpos]; cbn [negb].
  2: { destruct (read_uncached_ok asked cur E _ r' H1 Hr') as (c2 & Ec2 & H2).
       change (rq_inode r) with (rq_inode r'). rewrite Ec2. cbn [mbind res_bind].
       eexists. split; [done|]. by apply drop_pin_ok. }
  destruct (Z.ltb_spec n (rq_size r')) as [Hpart|Hall].
  { by apply (read_partly_ok asked cur E _ r' v n). }
  destruct (TriggerPrefetch_ok asked (rq_request r' :: cur) E _ r' (ReadJobs.blockOf (rq_offset r')) H1 Hi)
    as (c2 & Ec2 & H2).
  { rewrite blockOf_eq by (cbn; lia). apply Z.div_pos; [cbn; lia|done]. }
  change (rq_inode r) with (rq_inode r'). rewrite Ec2. cbn [mbind res_bind].
  eexists. split; [done|]. apply drop_pin_ok, reply_ok; [done|].
  unfold ReadJobs.buf_bytes, ReadJobs.buildPinnedBufVec. cbn [pb_buf]. rewrite (got_bytes _ _ _ _ _ _ Hgot).
  apply (ReadOk_data asked r'); [apply Hr'|apply Hr'|]. rewrite Hw'. lia.
Qed.

Lemma PendingJob_ok asked cur E c i k p :
  Inv asked (rq_request (pj_read p) :: cur) E c → is_block i k → PendingOk asked i k p →
  ∃ c', ReadJobs.PendingJob_Execute p c = Ret c' ∧ Inv asked cur E c'.
Proof.
  intros H (Hi & Hk & _) (Hleaf & Hix & Hin & Hr). unfold ReadJobs.PendingJob_Execute. rewrite Hleaf, Hix.
  destruct (leaf_GetData_ok _ _ _ _ i (k * BlockSize) BlockSize H Hi) as (t & v & n & -> & _ & H1 & _);
    [unfold BlockSize; lia|done|]. cbn [mbind res_bind].
  pose proof Hr as ((_ & _ & Ho & _) & _). rewrite blockOf_eq by lia.
  destruct (leaf_GetData_ok _ _ _ _ i (rq_offset (pj_read p) / BlockSize * BlockSize) BlockSize H1 Hi)
    as (t2 & v2 & n2 & -> & _ & H2 & _); [|done|].
  { apply Z.mul_nonneg_nonneg; [|done]. by apply Z.div_pos; [lia|]. }
  cbn [mbind res_bind]. eexists. split; [done|]. by apply schedule_ok.
Qed.

Lemma execute_all_ok asked i k ps : is_block i k → Forall (PendingOk asked i k) ps → ∀ cur E c,
  Inv asked (((λ p, rq_request (pj_read p)) <$> ps) ++ cur) E c →
  ∃ c', ReadJobs.execute_all ps c = Ret c' ∧ Inv asked cur E c'.
Proof.
  intros Hk. unfold ReadJobs.execute_all. induction 1 as [|p ps Hp _ IH]; intros cur E c H; [by exists c|].
  cbn [foldl mbind res_bind]. destruct (PendingJob_ok _ _ _ _ _ _ _ H Hk Hp) as (c1 & -> & H1). by apply IH.
Qed.

(** *** A block arrives *)

Lemma Chunked_readed n (data : list P) back :
  Chunked bs n data → last data = Some back →
  (Z.of_nat (length data) - 1) * bs + GetPayloadLength back = n.
Proof.
  revert n. induction data as [|p [|q data] IH]; intros n; [done| |].
  - intros ([_ Hl] & Hn & Hlen & H0) [= <-]. cbn in *. lia.
  - intros H Hlast. pose proof H as (_ & Hn & _ & Hrest).
    assert (bs < n) by (destruct Hrest as (_ & ? & _); lia).
    specialize (IH _ Hrest Hlast). rewrite Z.min_l in IH by lia. cbn [length] in *. lia.
Qed.

Lemma readed_ok i offset n (data : list P) :
  Holds i offset n data → n < 2 ^ 62 → ReadJobs.readed_of data = n.
Proof.
  intros [(Ho & Hn & _) _ _ Hc _] Hlt. unfold ReadJobs.readed_of. destruct data as [|p data]; [cbn in Hc; lia|].
  destruct (last (p :: data)) as [back|] eqn:El; [|by apply last_None in El].
  pose proof (Chunked_readed _ _ _ Hc El) as Hr. destruct data as [|q data].
  - change (Z.of_nat (length [p]) - 1) with 0 in *. rewrite Z.mul_0_l in *. rewrite Hr. apply wrap_small. lia.
  - rewrite (Chunked_front bs n p q data Hc). rewrite Hr. apply wrap_small. lia.
Qed.

(** The data of a leaf when a block has come, and those that waited for it are taken. *)
Lemma LeafInv_arrive asked D (u u' : Z → Prop) i k d data :
  LeafInv asked D u i d → is_block i k → ld_data d !! k = None →
  (∀ k', k' ≠ k → u k' ↔ u' k') → ¬ u' k → Holds i (k * BlockSize) (block_size i k) data →
  ∃ d1, Leaf.AddData (k * BlockSize) (block_size i k) data d = Ret (d1, []) ∧
    ld_pendingJobs d1 = ld_pendingJobs d ∧ LeafInv asked D u' i (Leaf.TakePendingJobs k d1).1.
Proof.
  intros Hl Hk Hnone Hu Hk' Hh. pose proof Hk as (Hi & Hk0 & Hsz). pose proof (Hfsize i Hi) as [Hf0 Hf].
  pose proof (block_in_range _ _ _ _ _ _ Hl Hk) as Hr.
  destruct Hl as [H1 H2 H3 H4].
  destruct (AddData_coherent (content i) (fsize i) bs bs_pos bs_small Hf _ _ _ _ H1 Hh) as (d1 & free & E1 & Hc1).
  { by eapply Whole_extends. }
  destruct (AddData_whole (content i) (fsize i) bs bs_pos bs_small Hf k data d H1 H2 Hk0 Hh) as (d2 & free2 & E2 & Hw1 & _).
  rewrite E1 in E2. injection E2 as <- <-. pose proof E1 as E.
  unfold Leaf.AddData in E. rewrite (block_index_block _ Hf), Hnone in E by done. cbn [ld_piecesStatus Leaf.with_data] in E.
  unfold PiecesStatus.SetStatus in E. rewrite bool_decide_true in E by lia. cbn in E. injection E as Ed <-.
  exists d1. split; [done|]. split; [by subst d1|].
  assert (Hst : ∀ k' st, is_block i k' → ld_piecesStatus d1 !! Z.to_nat k' = Some st →
    BlockInv D (u' k') i k' (is_Some (ld_data d1 !! k')) st).
  { intros k' st Hb Hs. destruct (decide (k' = k)) as [->|Hne].
    - subst d1. cbn in *. rewrite list_lookup_insert_eq in Hs by lia. injection Hs as <-.
      rewrite lookup_insert_eq. split; [by eexists|done].
    - destruct Hb as (?&?&?). subst d1. cbn in *. rewrite list_lookup_insert_ne in Hs by lia. rewrite lookup_insert_ne by done.
      eapply BlockInv_proper; [by apply Hu|done|done|by apply H3]. }
  assert (Hp : ld_pendingJobs d1 = ld_pendingJobs d) by (by subst d1). unfold Leaf.TakePendingJobs.
  destruct (ld_pendingJobs d1 !! k) as [ps|] eqn:Eps; cbn; split; try done.
  - by destruct Hc1.
  - cbn. intros k' ps' [Hne Hps']%lookup_delete_Some Hne'. rewrite Hp in Hps'.
    destruct (H4 _ _ Hps' Hne') as (?&?&?). split; [done|]. split; [|done]. by apply Hu; auto.
  - intros k' ps' Hps' Hne'. rewrite Hp in Hps'. destruct (H4 _ _ Hps' Hne') as (?&?&?).
    split; [done|]. split; [|done]. apply Hu; [|done]. intros ->. congruence.
Qed.

(** What the tree does with the data, when the leaf takes all of them. *)
Lemma tree_AddData_ok t i offset size data o d :
  ft_leaves t !! i = Some o → FileTree.address i t = i →
  Leaf.AddData offset size data (lo_data o) = Ret (d, []) →
  ∃ t1, FileTree.AddData hash i offset size data t = Ret (t1, []) ∧
    ft_leaves t1 = <[i := LeafObject.with_data d o]> (ft_leaves t) ∧ ft_root t1 = ft_root t ∧
    ∀ n m b, ft_cachePerShard t1 !! n = Some m → is_Some (m !! b) →
      b = i ∨ ∃ m', ft_cachePerShard t !! n = Some m' ∧ is_Some (m' !! b).
Proof.
  intros Ho Haddr Ed. unfold FileTree.AddData, FileTree.leaf_at. rewrite Haddr, Ho. cbn [mbind res_bind].
  rewrite Ed. cbn [mbind res_bind].
  eexists. split; [done|]. unfold FileTree.update_data. rewrite Ho. split; [done|]. split; [done|]. cbn.
  intros n m b [(<- & <- & _)|[_ ?]]%list_lookup_insert_Some Hb; [|right; eauto].
  destruct (decide (b = i)) as [->|]; [by left|right]. rewrite lookup_insert_ne in Hb by done.
  unfold FileTree.shard in Hb. destruct (ft_cachePerShard t !! _) as [m'|] eqn:Em; [eauto|].
  cbn in Hb. rewrite lookup_empty in Hb. by destruct Hb.
Qed.

Lemma arrive_ok asked cur E c i k data :
  Inv asked cur ((i, k) :: E) c → is_block i k → Holds i (k * BlockSize) (block_size i k) data →
  ∃ t1 t2 ps, FileTree.AddData hash i (k * BlockSize) (block_size i k) data (cl_tree c) = Ret (t1, []) ∧
    FileTree.address i t1 = i ∧
    ReadJobs.leaf_op i (λ d, Ret (Leaf.TakePendingJobs k d)) (ReadJobs.with_tree t1 c) =
      Ret (ReadJobs.with_tree t2 c, ps) ∧
    Forall (PendingOk asked i k) ps ∧
    Inv asked (((λ p, rq_request (pj_read p)) <$> ps) ++ cur) E (ReadJobs.with_tree t2 c).
Proof.
  intros H Hk Hh. pose proof Hk as (Hi & Hk0 & Hsz). pose proof (Hfsize i Hi) as [Hf0 Hf].
  destruct (inv_leaf_at _ _ _ _ _ H Hi) as (o & E1 & Ho & Hn & Hl).
  pose proof (inv_address _ _ _ _ _ H Hi) as Haddr. pose proof (inv_accounted _ _ _ _ H) as Hacc.
  pose proof (inv_blocks _ _ _ _ H) as Hnd. cbn [app] in Hnd. apply NoDup_cons in Hnd as [Hnot Hnd].
  assert (Hnone : ld_data (lo_data o) !! k = None).
  { destruct (GetStatus_ok _ _ _ _ _ _ H Hk) as (st & _ & Hst). destruct (ld_data (lo_data o) !! k) eqn:Es; [|done].
    assert (present c i k) by (exists o; rewrite Es; eauto).
    assert ((i, k) ∈ ((i, k) :: E) ++ blocks_of c) by (by left). destruct st; cbn in Hst; tauto. }
  destruct (LeafInv_arrive _ _ _ (λ k', (i, k') ∈ E ++ blocks_of c) _ _ _ data Hl Hk Hnone) as (d1 & Ed & Hp & Hl2);
    [|done|done|].
  { intros k' Hne. cbn [app]. rewrite elem_of_cons. naive_solver. }
  set (d2 := (Leaf.TakePendingJobs k d1).1) in *.
  destruct (tree_AddData_ok _ _ _ _ _ _ _ Ho Haddr Ed) as (t1 & Et1 & Hleaves & Hroot & Hkeys).
  assert (Hacc1 : Accounted hash [] t1).
  { destruct (AddData_accounted _ _ _ _ _ _ _ _ _ _ Hacc Ho Et1) as (_ & _ & Hkept). apply Hkept.
    intros s. rewrite (block_index_block _ Hf) by done. congruence. }
  exists t1, (FileTree.update_data i d2 t1), (Leaf.TakePendingJobs k d1).2.
  assert (Hat : ft_leaves t1 !! i = Some (LeafObject.with_data d1 o)) by (by rewrite Hleaves, lookup_insert_eq).
  split; [done|]. split; [unfold FileTree.address in *; by rewrite Hroot|]. split.
  { unfold ReadJobs.leaf_op, FileTree.leaf_at. cbn. rewrite Hat. cbn. by destruct (Leaf.TakePendingJobs k d1). }
  split.
  { unfold Leaf.TakePendingJobs. rewrite Hp. destruct (ld_pendingJobs (lo_data o) !! k) as [ps|] eqn:Eps; cbn; [|constructor].
    destruct ps as [|p ps]; [constructor|]. by eapply (leaf_pending _ _ _ _ _ Hl k (p :: ps)). }
  assert (Hu : ft_leaves (FileTree.update_data i d2 t1) = <[i := LeafObject.with_data d2 o]> (ft_leaves (cl_tree c))).
  { unfold FileTree.update_data. rewrite Hat. cbn. by rewrite Hleaves, insert_insert_eq. }
  apply (Inv_leaf asked cur _ ((i, k) :: E) E c _ i o d2); try done.
  - eapply Accounted_permuted; [exact Hacc1|exact Hat| |]; unfold d2, Leaf.TakePendingJobs; case_match; try done;
      by apply (acc_entry _ _ _ Hacc1 _ _ Hat).
  - intros n m b. unfold FileTree.update_data. rewrite Hat. cbn. apply Hkeys.
  - intros i' k' Hne. rewrite elem_of_cons. naive_solver.
  - subst d2. unfold Leaf.TakePendingJobs. rewrite Hp.
    destruct (ld_pendingJobs (lo_data o) !! k) as [ps|] eqn:Eps.
    + unfold leaf_reads. cbn. rewrite (gather_delete _ _ _ _ Eps). solve_Permutation.
    + cbn. unfold leaf_reads. by rewrite Hp.
Qed.

(** *** Eviction *)

(** The block leaves the cache: it is nowhere, unless the disk has it, and then nobody
    knows. *)
Lemma LeafInv_extract asked D u i k d (r : Range P) :
  LeafInv asked D u i d → ld_data d !! k = Some [r] → is_block i k →
  rg_offset r = k * BlockSize →
  ∃ d', Leaf.ExtractBlock k d = Ret (d', k * BlockSize, rg_packets r) ∧
    ld_pendingJobs d' = ld_pendingJobs d ∧ LeafInv asked D u i d'.
Proof.
  intros Hl Hr Hk Ho. pose proof (block_in_range _ _ _ _ _ _ Hl Hk) as Hrange. pose proof Hl as [H1 H2 H3 H4].
  unfold Leaf.ExtractBlock. rewrite Hr. unfold PiecesStatus.SetStatus. rewrite bool_decide_true by done.
  cbn [defined_if mbind res_bind]. rewrite Ho. cbn [list_bind mbind]. rewrite app_nil_r.
  eexists. split; [done|]. split; [done|].
  destruct (lookup_lt_is_Some_2 (ld_piecesStatus d) (Z.to_nat k)) as [st Hst]; [lia|].
  assert (Hu : ¬ u k).
  { pose proof (H3 _ _ Hk Hst) as Hb. rewrite Hr in Hb. destruct st; cbn in Hb; naive_solver. }
  split.
  - apply Coherent_delete; [by rewrite length_insert|done].
  - intros k' s'. cbn. intros [_ ?]%lookup_delete_Some. by apply H2.
  - cbn. intros k' st' Hb Hst'. destruct (decide (k' = k)) as [->|Hne].
    + rewrite list_lookup_insert_eq in Hst' by lia. injection Hst' as <-. rewrite lookup_delete_eq.
      split; [by intros [? [=]]|done].
    + destruct Hb as (?&?&?), Hk as (?&?&?). rewrite list_lookup_insert_ne in Hst' by lia.
      rewrite lookup_delete_ne by done. by apply H3.
  - done.
Qed.

Lemma GetFreeData_inv asked cur E c n :
  Inv asked cur E c → (n < FileTree.ShardCount)%nat →
  ∃ t fd, FileTree.GetFreeData begin n (cl_tree c) = Ret (t, fd) ∧
    Inv asked cur E (ReadJobs.with_tree t c) ∧
    (FileTree.fd_data fd = [] ∨
     JobOk asked (cl_disk c) (WriteFileCacheJob (FileTree.fd_inode fd) (FileTree.fd_size fd)
       (FileTree.fd_offset fd) (FileTree.fd_data fd)) ∧
     ft_grandTotal t = ft_grandTotal (cl_tree c) - Z.of_nat (length (FileTree.fd_data fd))).
Proof.
  intros H Hn. pose proof (inv_accounted _ _ _ _ H) as Hacc.
  destruct (GetFreeData_ok hash begin Hbegin [] _ n Hacc Hn) as (t & fd & Ef & Hacc' & _ & _).
  exists t, fd. split; [done|]. unfold FileTree.GetFreeData in Ef.
  destruct (ft_cachePerShard (cl_tree c) !! n) as [m|] eqn:Em; [|done].
  pose proof (Hbegin m) as Hb. destruct (begin m) as [i|].
  2: { injection Ef as <- <-. split; [by destruct c|by left]. }
  assert (Hi : file i) by (by eapply (inv_keys _ _ _ _ H)).
  destruct (inv_leaf_at _ _ _ _ _ H Hi) as (o & E1 & Ho & Hname' & Hl).
  rewrite (inv_address _ _ _ _ _ H Hi), E1 in Ef. cbn [mbind res_bind] in Ef. cbv zeta in Ef.
  set (k := Leaf.GetFirstBlockIndex (lo_data o)) in *.
  destruct (Z.eqb_spec k SIZE_MAX) as [|Hne].
  { injection Ef as <- <-. split; [by destruct c|by left]. }
  destruct (GetFirstBlockIndex_spec (lo_data o)) as [[?|(s & Hs & _)] _]; [done|]. fold k in Hs.
  destruct (leaf_whole _ _ _ _ _ Hl _ _ Hs) as (r & -> & Ha & Hro & Hrs).
  pose proof (holds_bounds _ _ _ _ _ _ Ha) as (?&?&?).
  assert (Hk : is_block i k).
  { split; [done|]. rewrite Hro in *. unfold block_bytes, BlockSize in *. lia. }
  destruct (LeafInv_extract _ _ _ _ _ _ _ Hl Hs Hk Hro) as (d & Ed & Hp & Hl').
  rewrite Ed in Ef. cbn [mbind res_bind] in Ef. destruct (0 <=? _) eqn:Epos; [|done].
  cbn [assert_that mbind res_bind] in Ef. injection Ef as <- <-. split.
  - apply (Inv_leaf asked cur cur E E c _ i o d); try done.
    + cbn. unfold FileTree.update_data. by rewrite Ho.
    + cbn. intros n' m' b [(<- & <- & _)|[_ ?]]%list_lookup_insert_Some Hb'; [|right; eauto].
      right. exists m. split; [done|]. case_match; [apply lookup_delete_is_Some in Hb' as [_ ?]; done|].
      destruct (decide (b = i)) as [->|]; [done|]. by rewrite lookup_insert_ne in Hb'.
    + apply (inv_blocks _ _ _ _ H).
    + unfold leaf_reads. by rewrite Hp.
  - right. split; [|done]. cbn. exists k. split; [done|]. split; [done|].
    unfold LeafObject.GetSize. rewrite (coherent_size _ _ _ _ (leaf_coherent _ _ _ _ _ Hl)).
    pose proof (Hfsize i Hi). rewrite wrap_small by (unfold block_bytes, BlockSize in *; lia).
    split; [done|]. change (Z.min BlockSize (fsize i - k * BlockSize)) with (block_size i k).
    rewrite <- Hro, <- Hrs. exact Ha.
Qed.

Lemma evict_ok asked cur E n : (n < FileTree.ShardCount)%nat → ∀ fuel c,
  Inv asked cur E c → (Z.to_nat (ft_grandTotal (cl_tree c)) ≤ fuel)%nat →
  ∃ c', ReadJobs.evict begin fuel n c = Ret c' ∧ Inv asked cur E c'.
Proof.
  intros Hn. induction fuel as [|fuel IH]; intros c H Hfuel; cbn [ReadJobs.evict]; unfold FileTree.NeedsEviction;
    (destruct (Z.ltb_spec FileTree.MaxCachePackets (ft_grandTotal (cl_tree c))) as [Hlt|];
      [unfold FileTree.MaxCachePackets in Hlt|by exists c]); [lia|].
  destruct (GetFreeData_inv _ _ _ _ _ H Hn) as (t & fd & -> & H1 & Hfd). cbn [mbind res_bind].
  destruct (FileTree.fd_data fd) as [|p data] eqn:Ed; [by eexists|]. destruct Hfd as [|[Hj Ht]]; [done|].
  apply IH; [by apply job_runs|]. cbn in *. lia.
Qed.

(** *** Every job returns *)

Lemma ApplyBlock_ok asked cur E c request i size offset skipped data :
  Inv asked cur (block_at i offset :: E) c →
  JobOk asked (cl_disk c) (ApplyBlockCacheJob request i size offset skipped data) →
  ∃ c', ReadJobs.ApplyBlock_Execute hash begin request i size offset skipped data c = Ret c' ∧ Inv asked cur E c'.
Proof.
  intros H (-> & -> & k & Hk & -> & Hh). pose proof Hk as (Hi & Hk0 & Hsz). pose proof (Hfsize i Hi) as [_ Hf].
  rewrite block_at_block in H by done. unfold ReadJobs.ApplyBlock_Execute.
  pose proof (holds_bounds _ _ _ _ _ _ Hh) as (Hb1 & Hb2 & Hb3).
  rewrite (readed_ok _ _ _ _ Hh), Z.add_0_r, blockOf_eq, Z.div_mul by (done || lia).
  destruct (arrive_ok _ _ _ _ _ _ _ H Hk Hh) as (t1 & t2 & ps & -> & Haddr & E2 & Hps & H2).
  cbn [mbind res_bind]. change (0 =? 0) with true. cbv iota. cbn [mbind res_bind].
  unfold ReadJobs.GetLeaf. cbn [cl_tree ReadJobs.with_tree]. rewrite Haddr, E2. cbn [mbind res_bind].
  destruct (execute_all_ok _ _ _ _ Hk Hps _ _ _ H2) as (c3 & -> & H3). cbn [mbind res_bind].
  destruct (evict_ok _ _ _ _ (ShardForInode_lt hash i) _ _ H3 (Nat.le_refl _)) as (c4 & -> & H4).
  cbn [mbind res_bind]. by eexists.
Qed.

Lemma cache_path_inj i k : file i → file k → cache_path i = cache_path k → i = k.
Proof. intros Hi Hk He. apply Hname; [done..|]. unfold cache_path in He. by repeat apply (inj (String.append _)) in He. Qed.

Lemma disk_le_write D i f f' :
  file i → D !! cache_path i = Some f → keeps (content i) (fsize i) f f' → disk_le D (<[cache_path i := f']> D).
Proof.
  intros Hi Hf Hk k g Hfk Hg. destruct (decide (k = i)) as [->|Hne].
  - exists f'. rewrite lookup_insert_eq. split; [done|]. by simplify_eq.
  - exists g. rewrite lookup_insert_ne by (intros He; by apply Hne, cache_path_inj). split; [done|]. by intros ? _.
Qed.

Lemma SetOnDisk_ok asked cur E c i k :
  Inv asked cur E c → is_block i k → on_disk (cl_disk c) i k →
  ∃ t, ReadJobs.SetStatus i k OnDisk c = Ret (ReadJobs.with_tree t c) ∧
    Inv asked cur E (ReadJobs.with_tree t c).
Proof.
  intros H Hk Hd. pose proof Hk as (Hi & Hk0 & _).
  destruct (inv_leaf_at _ _ _ _ _ H Hi) as (o & E1 & Ho & Hn & Hl).
  pose proof (block_in_range _ _ _ _ _ _ Hl Hk) as Hr.
  unfold ReadJobs.SetStatus, ReadJobs.leaf_op. rewrite E1. cbn [mbind res_bind].
  unfold PiecesStatus.SetStatus. rewrite bool_decide_true by done. cbn [defined_if mbind res_bind fmap res_fmap].
  eexists. split; [done|]. eapply Inv_same; [done..|cbn; by rewrite length_insert|apply (inv_blocks _ _ _ _ H)|done| |done].
  eapply LeafInv_status; [done..|]. split; [done|]. intros Hp.
  destruct (lookup_lt_is_Some_2 (ld_piecesStatus (lo_data o)) (Z.to_nat k)) as [st Hst]; [lia|].
  pose proof (leaf_blocks _ _ _ _ _ Hl _ _ Hk Hst) as Hb. destruct st; cbn in Hb; tauto.
Qed.

Lemma WriteFileCache_ok asked cur E c i size offset data :
  Inv asked cur E c → JobOk asked (cl_disk c) (WriteFileCacheJob i size offset data) →
  ∃ c', ReadJobs.WriteFileCache_Execute beyond cacheFolder i size offset data c = Ret c' ∧ Inv asked cur E c'.
Proof.
  intros H (k & Hk & -> & -> & Hh). pose proof Hk as (Hi & Hk0 & Hsz). pose proof (Hfsize i Hi) as [_ Hf].
  pose proof (holds_bounds _ _ _ _ _ _ Hh) as (Hb1 & Hb2 & Hb3).
  unfold ReadJobs.WriteFileCache_Execute, ReadJobs.GetLeaf. rewrite (inv_address _ _ _ _ _ H Hi).
  destruct (open_cache_file_ok _ _ _ _ i H Hi) as (fc & D & -> & Hle & H1 & Hfile). cbn [mbind res_bind].
  cbn [cl_disk cl_files ReadJobs.with_files]. set (f0 := default empty_file (cl_disk c !! cache_path i)) in Hfile.
  rewrite Hfile. change (default empty_file (Some f0)) with f0.
  destruct (Write_ok (content i) (fsize i) bs bs_pos beyond _ _ _ f0 Hh)
    as (f' & Ew & Hbytes & Hkeeps); [unfold block_bytes, BlockSize; lia|].
  rewrite Ew. cbn [mbind res_bind].
  rewrite (proj2 (Z.leb_le (block_size i k) BlockSize)) by (unfold block_bytes; lia). cbn [assert_that mbind res_bind].
  rewrite Z.quot_mul, wrap_small by (done || (unfold BlockSize in *; lia)).
  set (D' := <[cache_path i := f']> D).
  assert (H2 : Inv asked cur E (ReadJobs.with_files fc D' (ReadJobs.with_files fc D c))).
  { apply Inv_disk; [done|]. by eapply disk_le_write. }
  destruct (SetOnDisk_ok _ _ _ _ i k H2 Hk) as (t & Et & H3).
  { exists f'. split; [apply lookup_insert_eq|done]. }
  change (ReadJobs.with_files fc D' (ReadJobs.with_files fc D c)) with (ReadJobs.with_files fc D' c) in *.
  rewrite Et. cbn [mbind res_bind]. eexists. split; [done|]. by apply job_runs.
Qed.

Lemma read_fd_ok c i a n b :
  file i → 0 ≤ a → 0 ≤ n → a + n ≤ b → disk_bytes (cl_disk c) i a b →
  ReadJobs.read_fd (cache_path i) a n c = Ret (file_bytes (content i) a n).
Proof.
  intros Hi Ha Hn Hb (f & Hf & Hbytes). unfold ReadJobs.read_fd. rewrite Hf. f_equal. by eapply has_bytes_read.
Qed.

Lemma ReadFileCache_ok asked cur E c request path size offset append :
  Inv asked (request :: cur) E c →
  JobOk asked (cl_disk c) (ReadFileCacheJob request path size offset append) →
  ∃ c', ReadJobs.ReadFileCache_Execute request path size offset append c = Ret c' ∧ Inv asked cur E c'.
Proof.
  intros H (r & n & Hr & <- & <- & Hlt & <- & -> & Hn & Hd & Ha).
  pose proof Hr as ((_ & Hi & Ho & Hs) & _). pose proof (Hfsize _ Hi).
  assert (Hans : Answered asked (rq_request r, Data (file_bytes (content (rq_inode r)) (rq_offset r) (wanted r)))).
  { by apply ReadOk_data. }
  assert (wanted r < 2 ^ 62) by (unfold wanted; lia). unfold ReadJobs.ReadFileCache_Execute.
  destruct append as [append|].
  - destruct Ha as [Hspans Hbytes].
    assert (Hlen : Z.of_nat (length (pb_buf append ≫= BufferView.span_bytes)) = n) by (rewrite Hbytes, length_file_bytes; lia).
    rewrite (spans_total _ Hspans) by lia. rewrite Hlen, Z.add_0_l, wrap_small by lia.
    rewrite (read_fd_ok _ _ _ _ (rq_offset r + wanted r - n) Hi) by (done || lia).
    cbn [mbind res_bind]. eexists. split; [done|]. apply drop_pin_ok, reply_ok; [done|].
    unfold ReadJobs.buf_bytes. rewrite Hbytes.
    replace (wanted r) with ((wanted r - n) + n) in Hans at 1 by lia. rewrite file_bytes_app in Hans by lia.
    by rewrite Z.add_sub_assoc in Hans.
  - subst n. rewrite (read_fd_ok _ _ _ _ (rq_offset r + wanted r - 0) Hi) by (done || lia).
    cbn [mbind res_bind]. eexists. split; [done|]. by apply reply_ok.
Qed.

Lemma PrefixDisk_ok asked cur E c request prefix path diskOffset diskSize :
  Inv asked (request :: cur) E c →
  JobOk asked (cl_disk c) (PrefixDiskReadFileCacheJob request prefix path diskOffset diskSize) →
  ∃ c', ReadJobs.PrefixDisk_Execute request prefix path diskOffset diskSize c = Ret c' ∧ Inv asked cur E c'.
Proof.
  intros H (r & Hr & <- & Hlt & -> & Hn & -> & Hd & [Hspans Hbytes]).
  pose proof Hr as ((_ & Hi & Ho & Hs) & _). unfold ReadJobs.PrefixDisk_Execute.
  rewrite (read_fd_ok _ _ _ _ (rq_offset r + (wanted r - diskSize) + diskSize) Hi) by (done || lia). cbn [mbind res_bind].
  eexists. split; [done|]. apply drop_pin_ok, reply_ok; [done|]. unfold ReadJobs.buf_bytes. rewrite Hbytes.
  rewrite <- file_bytes_app by lia. replace (wanted r - diskSize + diskSize) with (wanted r) by lia. by apply ReadOk_data.
Qed.

Lemma run_job_ok asked cur E c j :
  Inv asked (job_reads j ++ cur) (job_blocks j ++ E) c → JobOk asked (cl_disk c) j →
  ∃ c', ReadJobs.run_job hash begin beyond cacheFolder false j c = Ret c' ∧ Inv asked cur E c'.
Proof.
  destruct j; cbn [job_reads job_blocks app ReadJobs.run_job]; intros H Hj.
  - destruct (FuseReadFile_ok _ _ _ _ _ H Hj) as (c1 & -> & H1). cbn [mbind res_bind].
    eexists. split; [done|]. by apply drop_pins_ok.
  - eexists. split; [done|]. destruct H as [H1 H2 H3 H4 H5 H6 H7 H8 H9].
    assert (Hb : E ++ blocks_of (ReadJobs.with_wire (cl_wire c ++ [m]) c) ≡ₚ (message_block m :: E) ++ blocks_of c).
    { unfold blocks_of. cbn. rewrite fmap_app. cbn. solve_Permutation. }
    split; try done; [|by rewrite Hb|by apply Forall_app; rewrite Forall_singleton].
    intros i Hi. destruct (H3 i Hi) as (o & Ho & Hn & Hl). exists o. split; [done|]. split; [done|].
    eapply LeafInv_mono; [done|reflexivity| |exact Hl]. intros k. cbn beta. by rewrite Hb.
  - destruct Hj as [Hq Hok]. unfold ReadJobs.ResponseReadFileIn_Execute.
    destruct (Z.eqb_spec (rs_error m) 0) as [He|He]; cbn [negb app] in *; [|rewrite Hq; cbn; by eexists].
    destruct (Hok He) as (Hs & k & Hk & Ho & Hh). eexists. split; [done|]. apply schedule_ok; [done|].
    split; [done|]. split; [done|]. by exists k.
  - by apply ApplyBlock_ok.
  - by apply WriteFileCache_ok.
  - by apply ReadFileCache_ok.
  - by apply PrefixDisk_ok.
  - eexists. split; [done|]. by destruct H.
Qed.

(** ** Histories *)

Section Histories.
Context `{!IPacketLaws P}.

(** A packet that carries what [p] carries. *)
Definition same_payload (p q : P) : Prop := Readable q ∧ payload q = payload p.

(** The server's file is the file that is cached here. *)
Definition serves i (f : F) : Prop := has_bytes (content i) 0 (fsize i) f ∧ byte_at (fsize i) f = None.

Definition with_data (data : list P) (m : ResponseRead P) : ResponseRead P :=
  mkResponseRead (rs_request m) (rs_inode m) (rs_size m) (rs_offset m) (rs_skipped m) (rs_error m) data.

(** What happens: the kernel asks for a read, a job that waits runs, or the server
    answers a request, with the packets it has, and other packets bring the answer
    here.  The server may fail to read the file: what it has read is then what it would
    have read of a file [f] without these bytes, and the answer is an error.  The second
    component of the state is the history of the blocks that were refused so. *)
Inductive service_step : relation (list Read * list (Z * Z) * Client) :=
  | step_read asked refused c r :
      Valid r → rq_request r ∉ rq_request <$> asked →
      service_step (asked, refused, c) (r :: asked, refused, ReadJobs.schedule (FuseReadFileJob r []) c)
  | step_job asked refused c c' a j b :
      cl_jobs c = a ++ j :: b →
      ReadJobs.run_job hash begin beyond cacheFolder false j (ReadJobs.with_jobs (a ++ b) c) = Ret c' →
      service_step (asked, refused, c) (asked, refused, c')
  | step_serve asked refused c a m b f errno packets response unused data :
      cl_wire c = a ++ m :: b → serves (rr_inode m) f →
      Forall (Fresh bs) packets → length packets = 1000%nat →
      ReadJobs.Serve errno packets m f = Ret (response, unused) →
      Forall2 same_payload (rs_data response) data →
      service_step (asked, refused, c) (asked, refused,
        ReadJobs.schedule (ResponseReadFileInJob (with_data data response)) (ReadJobs.with_wire (a ++ b) c))
  | step_fail asked refused c a m b f errno packets response unused :
      cl_wire c = a ++ m :: b →
      ReadJobs.Serve errno packets m f = Ret (response, unused) → rs_error response ≠ 0 →
      service_step (asked, refused, c) (asked, message_block m :: refused,
        ReadJobs.schedule (ResponseReadFileInJob response) (ReadJobs.with_wire (a ++ b) c)).

(** The client before it is asked for anything: nothing is cached of the files. *)
Record Start c : Prop := {
  start_shards : ft_cachePerShard (cl_tree c) = replicate FileTree.ShardCount ∅;
  start_total : ft_grandTotal (cl_tree c) = 0;
  start_empty : ∀ a o, ft_leaves (cl_tree c) !! a = Some o →
    a ≠ FUSE_ROOT_ID ∧ ld_data (lo_data o) = ∅ ∧ ld_pendingJobs (lo_data o) = ∅;
  start_leaf : ∀ i, file i → ∃ o, ft_leaves (cl_tree c) !! i = Some o ∧ lo_name o = name i ∧
    lo_data o = Leaf.make (fsize i);
  start_jobs : cl_jobs c = [];
  start_wire : cl_wire c = [];
  start_replies : cl_replies c = [];
}.

Lemma Start_inv c : Start c → Inv [] [] [] c.
Proof.
  intros [H1 H2 H3 H4 H5 H6 H7].
  assert (Hnone : ∀ i o, ft_leaves (cl_tree c) !! i = Some o → leaf_reads (lo_data o) = []).
  { intros i o Ho. destruct (H3 _ _ Ho) as (_ & _ & Hp). unfold leaf_reads, gather. by rewrite Hp, map_to_list_empty. }
  split; try done.
  - apply Accounted_empty; [done..|]. intros a o Ho. by destruct (H3 _ _ Ho) as (? & ? & _).
  - rewrite H1. intros n m i [-> _]%lookup_replicate Hi. rewrite lookup_empty in Hi. by destruct Hi.
  - intros i Hi. destruct (H4 i Hi) as (o & Ho & Hn & Hd). exists o. split; [done|]. split; [done|].
    rewrite Hd. unfold blocks_of. rewrite H5, H6. split.
    + apply Coherent_make. by apply Hfsize.
    + intros k s Hk. cbn in Hk. by rewrite lookup_empty in Hk.
    + intros k st Hk Hst. cbn in Hst. apply lookup_replicate in Hst as [-> _]. cbn.
      rewrite lookup_empty. split; [by intros [? [=]]|apply not_elem_of_nil].
    + intros k ps Hps. cbn in Hps. by rewrite lookup_empty in Hps.
  - unfold blocks_of. rewrite H5, H6. constructor.
  - by rewrite H5.
  - by rewrite H6.
  - by rewrite H7.
  - rewrite H5, H7. cbn. rewrite app_nil_r. destruct (pending_reads (cl_tree c)) as [|q l] eqn:Eq; [done|exfalso].
    assert (Hq : q ∈ pending_reads (cl_tree c)) by (rewrite Eq; by left).
    apply gather_elem in Hq as (i & o & Ho & Hq). rewrite (Hnone _ _ Ho) in Hq. by apply elem_of_nil in Hq.
  - intros i o Ho. right. by eapply Hnone.
Qed.

(** A job leaves the queue. *)
Lemma take_job_ok asked E c a j b :
  Inv asked [] E c → cl_jobs c = a ++ j :: b →
  Inv asked (job_reads j ++ []) (job_blocks j ++ E) (ReadJobs.with_jobs (a ++ b) c) ∧ JobOk asked (cl_disk c) j.
Proof.
  intros [H1 H2 H3 H4 H5 H6 H7 H8 H9] Hj.
  assert (Hb : E ++ blocks_of c ≡ₚ (job_blocks j ++ E) ++ blocks_of (ReadJobs.with_jobs (a ++ b) c)).
  { unfold blocks_of. cbn. rewrite Hj, !bind_app, bind_cons. solve_Permutation. }
  rewrite Hj in H5. apply Forall_app in H5 as [Ha [Hjob Hb']%Forall_cons]. split; [|done]. split; try done.
  - intros i Hi. destruct (H3 i Hi) as (o & Ho & Hn & Hl). exists o. split; [done|]. split; [done|].
    eapply LeafInv_mono; [done|reflexivity| |exact Hl]. intros k. cbn. by rewrite Hb.
  - by rewrite <- Hb.
  - apply Forall_app. by split.
  - rewrite H8, Hj. cbn. rewrite !bind_app, bind_cons. solve_Permutation.
Qed.

Lemma Chunked_same n data data' :
  Forall2 same_payload data data' → Chunked bs n data → Chunked bs n data' ∧ data' ≫= payload = data ≫= payload.
Proof.
  intros H. revert n. induction H as [|p q data data' [Hq Hp] _ IH]; intros n; [by intros ->|].
  intros (_ & Hn & Hl & Hc). destruct (IH _ Hc) as [Hc' Hb]. rewrite !bind_cons, Hb, Hp. split; [|done].
  split; [done|]. by rewrite Hp.
Qed.

(** The server answers a request with the bytes of the block. *)
Lemma Serve_ok m f errno packets :
  MessageOk m → serves (rr_inode m) f → Forall (Fresh bs) packets → length packets = 1000%nat →
  ∃ data unused, ReadJobs.Serve errno packets m f =
      Ret (mkResponseRead 0 (rr_inode m) (rr_size m) (rr_offset m) 0 0 data, unused) ∧
    Holds (rr_inode m) (rr_offset m) (block_size (rr_inode m) (rr_offset m / BlockSize)) data.
Proof.
  intros (Hq & Hs & Hk0 & k & (Hi & Hk & Hsz) & Ho) [Hf Hend] Hfresh Hlen. pose proof (Hfsize _ Hi) as [_ Hlt].
  unfold ReadJobs.Serve. destruct packets as [|p packets]; [done|]. pose proof Hfresh as [(_ & _ & Hp) _]%Forall_cons.
  rewrite Hp. set (all := p :: packets) in *. rewrite Hs, Hq, Hk0, Z.add_0_r.
  rewrite (proj2 (Z.leb_le _ _)) by (rewrite Hlen; done). cbn [assert_that mbind res_bind].
  destruct (Read_ok (content (rr_inode m)) (fsize (rr_inode m)) bs bs_pos bs_small all (rr_offset m) f)
    as (data & rest & -> & Hh); try done.
  - rewrite Ho. unfold BlockSize in *. lia.
  - rewrite Ho. apply Z.divide_mul_r. by exists 1000.
  - by rewrite Hlen.
  - cbn [mbind res_bind]. pose proof (holds_chunked _ _ _ _ _ _ Hh) as Hc.
    destruct data as [|q data].
    { pose proof (holds_bounds _ _ _ _ _ _ Hh) as (_ & ? & _). cbn in Hc. lia. }
    exists (q :: data), rest. split; [done|]. rewrite Ho, Z.div_mul by done. rewrite Ho, Hlen in Hh. exact Hh.
Qed.

(** A request leaves the wire. *)
Lemma take_message_ok asked E c a m b :
  Inv asked [] E c → cl_wire c = a ++ m :: b →
  Inv asked [] (message_block m :: E) (ReadJobs.with_wire (a ++ b) c) ∧ MessageOk m.
Proof.
  intros [H1 H2 H3 H4 H5 H6 H7 H8 H9] Hw. rewrite Hw in H6. apply Forall_app in H6 as [Ha [Hm Hb]%Forall_cons].
  assert (Hbl : E ++ blocks_of c ≡ₚ (message_block m :: E) ++ blocks_of (ReadJobs.with_wire (a ++ b) c)).
  { unfold blocks_of. cbn. rewrite Hw, !fmap_app, fmap_cons. solve_Permutation. }
  split; [|done]. split; try done.
  - intros i Hi. destruct (H3 i Hi) as (o & Ho & Hn & Hl). exists o. split; [done|]. split; [done|].
    eapply LeafInv_mono; [done|reflexivity| |exact Hl]. intros x. cbn beta. by rewrite Hbl.
  - by rewrite <- Hbl.
  - by apply Forall_app.
Qed.

Lemma serve_step_ok asked E c a m b f errno packets response unused data :
  Inv asked [] E c → cl_wire c = a ++ m :: b → serves (rr_inode m) f →
  Forall (Fresh bs) packets → length packets = 1000%nat →
  ReadJobs.Serve errno packets m f = Ret (response, unused) →
  Forall2 same_payload (rs_data response) data →
  Inv asked [] E (ReadJobs.schedule (ResponseReadFileInJob (with_data data response))
    (ReadJobs.with_wire (a ++ b) c)).
Proof.
  intros H Hw Hs Hfresh Hlen Eq Hsame. destruct (take_message_ok _ _ _ _ _ _ H Hw) as [Ht Hm].
  destruct (Serve_ok _ _ errno _ Hm Hs Hfresh Hlen) as (data0 & unused0 & E0 & Hh). rewrite E0 in Eq. simplify_eq.
  cbn in Hsame. destruct (Chunked_same _ _ _ Hsame (holds_chunked _ _ _ _ _ _ Hh)) as [Hc' Hbytes].
  assert (Hh' : Holds (rr_inode m) (rr_offset m) (block_size (rr_inode m) (rr_offset m / BlockSize)) data).
  { destruct Hh as [B1 B2 B3 B4 B5]. split; try done. by rewrite Hbytes. }
  destruct Hm as (Hq & Hsz & Hsk & k & Hk & Ho). apply schedule_ok; [exact Ht|].
  split; [done|]. intros _. split; [done|]. exists k. cbn. split; [done|]. split; [done|].
  rewrite Ho in Hh' |- *. by rewrite Z.div_mul in Hh'.
Qed.

(** An error is the error number, and no data. *)
Lemma Serve_error m f errno packets response unused :
  ReadJobs.Serve errno packets m f = Ret (response, unused) → rs_error response ≠ 0 →
  response = mkResponseRead (rr_request m) (rr_inode m) (rr_size m) (rr_offset m) (rr_skipped m) errno [].
Proof.
  unfold ReadJobs.Serve. destruct packets as [|p l]; [done|]. destruct (_ <=? _); cbn [assert_that mbind res_bind]; [|done].
  destruct (NativeFile.Read _ _ _ f) as [[[|q readed] rest]|]; cbn [mbind res_bind]; intros ? Hne; simplify_eq; done.
Qed.

Lemma fail_step_ok asked E c a m b f errno packets response unused :
  Inv asked [] E c → cl_wire c = a ++ m :: b →
  ReadJobs.Serve errno packets m f = Ret (response, unused) → rs_error response ≠ 0 →
  Inv asked [] (message_block m :: E) (ReadJobs.schedule (ResponseReadFileInJob response) (ReadJobs.with_wire (a ++ b) c)).
Proof.
  intros H Hw Hs Hne. destruct (take_message_ok _ _ _ _ _ _ H Hw) as [Ht (Hq & _)].
  pose proof (Serve_error _ _ _ _ _ _ Hs Hne) as ->. cbn in Hne. apply schedule_ok; cbn [job_reads job_blocks rs_error app].
  - by rewrite (proj2 (Z.eqb_neq _ _) Hne).
  - split; [done|]. intros He. by apply Hne in He.
Qed.

Definition ServiceInv (s : list Read * list (Z * Z) * Client) : Prop :=
  Inv s.1.1 [] s.1.2 s.2 ∧ NoDup (rq_request <$> s.1.1).

Lemma ask_ok asked E c r : Inv asked [] E c → Inv (r :: asked) [rq_request r] E c.
Proof.
  intros [H1 H2 H3 H4 H5 H6 H7 H8 H9]. split; try done.
  - intros i Hi. destruct (H3 i Hi) as (o & Ho & Hn & Hl). exists o. split; [done|]. split; [done|].
    eapply LeafInv_mono; [| | |exact Hl]; [by right|reflexivity|done].
  - eapply Forall_impl; [exact H5|]. intros j. apply JobOk_mono; [by right|reflexivity].
  - eapply Forall_impl; [exact H7|]. intros ra (r0 & ? & ?). exists r0. split; [by right|done].
  - cbn. by rewrite H8.
Qed.

Lemma service_step_ok s s' : ServiceInv s → service_step s s' → ServiceInv s'.
Proof.
  intros [H Hnd] Hstep. destruct Hstep; cbn in *.
  - split; cbn; [|by constructor]. apply schedule_ok.
    + by apply ask_ok.
    + split; [done|]. exists r. split; [by left|done].
  - split; [|done]. destruct (take_job_ok _ _ _ _ _ _ H H0) as [Ht Hj].
    destruct (run_job_ok _ _ _ _ _ Ht Hj) as (c2 & E2 & H2). cbn. congruence.
  - split; [|done]. by eapply serve_step_ok.
  - split; [|done]. by eapply fail_step_ok.
Qed.

Lemma reached_ok c0 s : Start c0 → rtc service_step ([], [], c0) s → ServiceInv s.
Proof.
  intros H0. apply rtc_invariant; [|intros a b; apply service_step_ok]. split; [by apply Start_inv|constructor].
Qed.



(** The reads that wait, in jobs or at a block that is under way. *)
Definition waiting_reads c : list fuse_req_t := (cl_jobs c ≫= job_reads) ++ pending_reads (cl_tree c).

(** C5: whatever order the reads, the jobs and the answers of the server come in, every read the
    kernel asked for is in exactly one place: it is answered, once, or it waits in a job or
    for a block. *)
Theorem read_answered_once c0 asked refused c :
  Start c0 → rtc service_step ([], [], c0) (asked, refused, c) →
  rq_request <$> asked ≡ₚ waiting_reads c ++ (cl_replies c).*1 ∧
  NoDup (waiting_reads c ++ (cl_replies c).*1).
Proof.
  intros H0 H. destruct (reached_ok _ _ H0 H) as [Hi Hnd]. cbn in *.
  pose proof (inv_all _ _ _ _ Hi) as Hall. cbn in Hall. unfold waiting_reads. rewrite <- app_assoc.
  split; [done|]. by rewrite <- Hall.
Qed.

(** C4: every answer is right: the bytes of the file, wherever they were found — in the cache,
    on the disk, partly here and partly there — as many as were asked for and the file has,
    or an error if the read begins behind the end of the file; a server that fails to read
    does not change this.  This is so for reads of at most a block each, of files that do
    not change and whose names are distinct, whatever directories they are in. *)
Theorem read_answers_right c0 asked refused c request answer :
  Start c0 → rtc service_step ([], [], c0) (asked, refused, c) → (request, answer) ∈ cl_replies c →
  ∃ r, r ∈ asked ∧ rq_request r = request ∧ answer = right_answer r.
Proof.
  intros H0 H Hin. destruct (reached_ok _ _ H0 H) as [Hi _].
  pose proof (inv_replies _ _ _ _ Hi) as Hr. rewrite Forall_forall in Hr. destruct (Hr _ Hin) as (r & ? & ? & ?).
  by exists r.
Qed.



End Histories.
End Service.

(** ** The theorems at work: a file of five letters *)

Abbreviation Client0 := (Client Packet (list Z)).

Definition no_memory (p : Packet) (n : nat) : list Z := replicate n 0.
Abbreviation run_here := (ReadJobs.run_job id first_entry no_memory "cache").

(** A root at 64 and a file at 128. *)
Definition service_tree : FileTree Packet PendingJob := Eval vm_compute in
  (from_res (FileTree.make "root" 64, 0) (FileTree.AddChild 64 "file" ft_regular 5 128 (FileTree.make "root" 64))).1.
Definition client0 : Client0 := mkClient service_tree FileCache.FileCache.make ∅ [] [] [] [].

(** A read of ten bytes from the second one on; one behind the end of the file. *)
Definition read1 : Read := mkRead 1001 128 10 1 77.
Definition read2 : Read := mkRead 1002 128 10 9 77.

(** The packet with the whole file, as it is received. *)
Definition letter_packet : Packet := piece [65; 66; 67; 68; 69].

Definition run_at (n : nat) (c : Client0) : Client0 :=
  match cl_jobs c !! n with
  | Some j => from_res c (run_here false j (ReadJobs.with_jobs (delete n (cl_jobs c)) c))
  | None => c
  end.

(** The client after each step: it is asked, asks for the block, the answer comes and is
    cached, and the read that waited is answered. *)
Definition client1 : Client0 := Eval vm_compute in ReadJobs.schedule (FuseReadFileJob read1 []) client0.
Definition client2 : Client0 := Eval vm_compute in run_at 0 client1.
Definition client3 : Client0 := Eval vm_compute in run_at 0 client2.
Definition client4 : Client0 := Eval vm_compute in
  ReadJobs.schedule (ResponseReadFileInJob (mkResponseRead 0 128 BlockSize 0 0 0 [letter_packet]))
    (ReadJobs.with_wire [] client3).
Definition client5 : Client0 := Eval vm_compute in run_at 0 client4.
Definition client6 : Client0 := Eval vm_compute in run_at 0 client5.
Definition client7 : Client0 := Eval vm_compute in run_at 0 client6.

Example read1_answered : cl_replies client7 = [(1001, Data [66; 67; 68; 69])] ∧ cl_jobs client7 = [].
Proof. by split. Qed.

(** *** The steps *)

Definition letter_file : list Z := [65; 66; 67; 68; 69].
Definition the_file (i : Z) : Prop := i = 128.
Definition server_packets : list Packet := replicate 1000 (SetPayloadSize 1300 (Packet.make (HeaderSize + 1300))).
Definition block_request : RequestRead := mkRequestRead 0 128 BlockSize 0 0 77.
Abbreviation step_here := (service_step id first_entry no_memory "cache" the_file (λ _, letters) (λ _, 5)).
Abbreviation start_here := (Start the_file (λ _, 5) (λ _, "file"%string)).

Lemma the_file_size i : the_file i → 0 ≤ 5 < 2 ^ 62. Proof. by split. Qed.
Lemma the_file_name i k : the_file i → the_file k → "file"%string = "file"%string → i = k.
Proof. by intros -> ->. Qed.

Lemma client0_starts : start_here client0.
Proof.
  split; try reflexivity.
  - intros a o Ha%elem_of_map_to_list%list_elem_of_In. vm_compute in Ha.
    destruct Ha as [[= <- <-]|[[= <- <-]|[]]]; by repeat split.
  - intros i ->. eexists. split; [here|]. by split.
Qed.

Lemma letter_file_serves : serves (λ _, letters) (λ _, 5) 128 letter_file.
Proof.
  split; [|reflexivity]. intros i Hi. assert (i = 0 ∨ i = 1 ∨ i = 2 ∨ i = 3 ∨ i = 4) as Hc by lia.
  destruct Hc as [->|[->|[->|[->| ->]]]]; reflexivity.
Qed.

Lemma server_packets_fresh : Forall (Fresh (Z.of_nat MaxPayloadSize)) server_packets ∧ length server_packets = 1000%nat.
Proof.
  split; [|apply length_replicate]. apply Forall_replicate. split; [|by split; vm_compute].
  split; vm_compute; [lia|done].
Qed.

Lemma same_payloads (l data : list Packet) :
  payload <$> l = payload <$> data → Forall Readable data → Forall2 same_payload l data.
Proof.
  intros H Hd. revert l H. induction Hd as [|q data Hq _ IH]; intros [|p l] [=]; constructor; [by split|by apply IH].
Qed.

Definition served : ResponseRead Packet * list Packet :=
  from_res (mkResponseRead 0 0 0 0 0 0 [], []) (ReadJobs.Serve 0 server_packets block_request letter_file).

Lemma served_ok :
  ReadJobs.Serve 0 server_packets block_request letter_file = Ret served ∧
  with_data [letter_packet] served.1 = mkResponseRead 0 128 BlockSize 0 0 0 [letter_packet] ∧
  Forall2 same_payload (rs_data served.1) [letter_packet].
Proof.
  split; [|split].
  - unfold served. assert (H : is_ret (ReadJobs.Serve 0 server_packets block_request letter_file) = true) by here.
    by destruct (ReadJobs.Serve _ _ _ _).
  - here.
  - apply same_payloads; [here|]. by constructor; [split; here|].
Qed.

Lemma run_first asked refused (c c' : Client0) :
  match cl_jobs c with j :: b => run_here false j (ReadJobs.with_jobs b c) = Ret c' | [] => False end →
  step_here (asked, refused, c) (asked, refused, c').
Proof.
  destruct (cl_jobs c) as [|j b] eqn:Ej; [done|]. intros H. by apply (step_job _ _ _ _ _ _ _ asked refused c c' [] j b).
Qed.

Lemma read1_served : step_here ([read1], [], client3) ([read1], [], client4).
Proof.
  destruct served_ok as (Hs & Hd & Hf). destruct served as [response unused]. cbn [fst] in Hd, Hf.
  pose proof (step_serve id first_entry no_memory "cache" the_file (λ _, letters) (λ _, 5) [read1] [] client3 []
    block_request [] letter_file 0 server_packets response unused [letter_packet] ltac:(here) letter_file_serves
    (proj1 server_packets_fresh) (proj2 server_packets_fresh) Hs Hf) as Hstep.
  rewrite Hd in Hstep. exact Hstep.
Qed.

Lemma read1_asked : step_here ([], [], client0) ([read1], [], client1).
Proof. apply (step_read _ _ _ _ _ _ _ [] [] client0 read1); [by repeat split|apply not_elem_of_nil]. Qed.

Lemma read1_reached : rtc step_here ([], [], client0) ([read1], [], client7).
Proof.
  apply rtc_l with ([read1], [], client1); [exact read1_asked|].
  apply rtc_l with ([read1], [], client2); [apply run_first; here|].
  apply rtc_l with ([read1], [], client3); [apply run_first; here|].
  apply rtc_l with ([read1], [], client4); [exact read1_served|].
  apply rtc_l with ([read1], [], client5); [apply run_first; here|].
  apply rtc_l with ([read1], [], client6); [apply run_first; here|].
  apply rtc_once, run_first. here.
Qed.

Lemma read_answered_once_witness :
  rq_request <$> [read1] ≡ₚ waiting_reads client2 ++ (cl_replies client2).*1 ∧
  NoDup (waiting_reads client2 ++ (cl_replies client2).*1).
Proof.
  apply (read_answered_once id first_entry no_memory "cache" first_entry_ok the_file (λ _, letters) (λ _, 5)
    (λ _, "file"%string) the_file_size the_file_name client0 [read1] [] client2 client0_starts).
  apply rtc_l with ([read1], [], client1); [exact read1_asked|apply rtc_once, run_first; here].
Defined.

Lemma read_answers_right_witness :
  ∃ r, r ∈ [read1] ∧ rq_request r = 1001 ∧ Data [66; 67; 68; 69] = right_answer (λ _, letters) (λ _, 5) r.
Proof.
  apply (read_answers_right id first_entry no_memory "cache" first_entry_ok the_file (λ _, letters) (λ _, 5)
    (λ _, "file"%string) the_file_size the_file_name client0 [read1] [] client7 1001 (Data [66; 67; 68; 69]) client0_starts
    read1_reached).
  apply list_elem_of_In. by left.
Defined.


(** The server cannot read the file: the request is answered with the error. *)
Definition refusal : ResponseRead Packet := mkResponseRead 0 128 BlockSize 0 0 5 [].
Definition client_refused : Client0 := Eval vm_compute in
  ReadJobs.schedule (ResponseReadFileInJob refusal) (ReadJobs.with_wire [] client3).
Definition client_failed : Client0 := Eval vm_compute in run_at 0 client_refused.




(** A read behind the end of the file. *)
Example read2_answered :
  cl_replies (run_at 0 (ReadJobs.schedule (FuseReadFileJob read2 []) client0)) = [(1002, Error EIO)].
Proof. here. Qed.

(** ** Behaviour the code does not mean to have *)

(** The server answers a request for a block with an error: nobody else will ask for the
    block, and the read that waits for it is never answered. *)
Lemma failed_fetch_forgets_readers :
  cl_jobs client_failed = [] ∧ cl_wire client_failed = [] ∧ cl_replies client_failed = [] ∧
  pending_reads (cl_tree client_failed) = [1001] ∧ ReadJobs.GetStatus 128 0 client_failed = Ret InFlight ∧
  let again := run_at 0 (ReadJobs.schedule (FuseReadFileJob (mkRead 1003 128 10 0 77) []) client_failed) in
  cl_jobs again = [] ∧ cl_wire again = [] ∧ cl_replies again = [] ∧ pending_reads (cl_tree again) = [1001; 1003].
Proof. repeat split; here. Qed.

(** When the scheduler ends, a read that is to be served from the disk is destroyed without
    an answer, and so is one that waits for a block; one whose job has not looked at the
    cache yet is told [EIO].  The pending ones would be, if they were cancelled. *)
Lemma shutdown_forgets_reads :
  let c := ReadJobs.destroy_jobs (ReadJobs.schedule (ReadFileCacheJob 1004 "cache/file" 5 0 None)
    (ReadJobs.schedule (FuseReadFileJob read2 []) client2)) in
  cl_replies c = [(1002, Error EIO)] ∧ cl_jobs c = [] ∧ pending_reads (cl_tree c) = [1001] ∧
  cl_replies <$> ReadJobs.cancel_pending c = Ret [(1002, Error EIO); (1001, Error EIO)].
Proof. repeat split; here. Qed.

(** Two files with the same name in different directories have the same cache file: one
    is read, and the bytes of the other one come. *)
Definition twin_tree : FileTree Packet PendingJob := Eval vm_compute in
  from_res (FileTree.make "root" 64)
    ('(t, _) ← FileTree.AddChild 64 "a" ft_directory 0 128 (FileTree.make "root" 64);
     '(t, _) ← FileTree.AddChild 64 "b" ft_directory 0 192 t;
     '(t, _) ← FileTree.AddChild 128 "file" ft_regular 5 256 t;
     '(t, _) ← FileTree.AddChild 192 "file" ft_regular 5 320 t;
     Ret t).
Definition twins : Client0 :=
  mkClient twin_tree FileCache.FileCache.make ∅
    [WriteFileCacheJob 256 5 0 [letter_packet]; WriteFileCacheJob 320 5 0 [piece [86; 87; 88; 89; 90]];
     FuseReadFileJob (mkRead 1005 256 5 0 77) []] [] [] [].
Lemma same_name_reads_other_file :
  cl_replies (run_at 2 (run_at 0 (run_at 0 (run_at 0 twins)))) = [(1005, Data [86; 87; 88; 89; 90])].
Proof. here. Qed.

(** The file changes on the server while a block that was evicted waits to be written: the
    cache is invalidated, then the old block is written and takes its place on the disk. *)
Lemma invalidated_block_comes_back :
  let c := mkClient service_tree FileCache.FileCache.make ∅
    [WriteFileCacheJob 128 5 0 [letter_packet]; FuseReadFileJob (mkRead 1006 128 5 0 77) []] [] [] [] in
  (λ c, cl_replies (run_at 1 (run_at 0 (run_at 0 c)))) <$> ReadJobs.InvalidateCacheLeaf_Execute 128 c
  = Ret [(1006, Data [65; 66; 67; 68; 69])].
Proof. here. Qed.

(** A request behind the end of the file: nothing is read, and the packets that were to take the
    data are not given back. *)
Lemma empty_read_loses_packets :
  (λ '(r, unused), (rs_data r, length unused)) <$>
    ReadJobs.Serve 0 server_packets (mkRequestRead 0 128 BlockSize BlockSize 0 77) letter_file = Ret ([], 0%nat).
Proof. here. Qed.
