(* ===== verification/Scheduler.v ===== *)
(** * The queues that run the jobs
    [Protocol/src/Queue.cpp], [Protocol/src/TaskScheduler.cpp] and the [Accept] methods of
    the classes of jobs: which queue a job goes to, what the scheduler does around it, and
    where the packets are meanwhile.

    A packet is an [IPacket::Ptr] here: what counts is who owns it.  What a job does is a
    parameter of the step that runs it; all that is known is that a [unique_ptr] is not
    copied ([lawful]). *)
From stdpp Require Import functions.
From S2P Require Import Prelude LockedList Packet Connection Leaf FileTree.
Local Open Scope nat_scope.

(** ** A queue and its thread *)

Module TaskQueue.
Section Queue.
Context {T C : Type}.

(** The thread in [ProcessQueue]: in [Wait], in the loop over the list it has taken, or
    gone.  While a task runs it makes calls, [calls] are those still to come. *)
Inductive worker :=
  | Waiting
  | Running (calls : list C) (batch : list T)
  | Ended.

Record TaskQueue := mkTaskQueue { tq_taskQueue : list T; tq_worker : worker }.

Definition make : TaskQueue := mkTaskQueue [] Waiting.

Definition Async (task : T) (q : TaskQueue) : TaskQueue :=
  mkTaskQueue (LockedList.LockedPushBack task (tq_taskQueue q)) (tq_worker q).

(** [ProcessQueue]: [Wait] and, when it returns true, [LockedSwap] with an empty list. *)
Definition Wait (stop : bool) (q : TaskQueue) : option TaskQueue :=
  match LockedList.Wait stop (tq_taskQueue q) with
  | LockedList.Returns true =>
      let '(tasks, batch) := LockedList.LockedSwap [] (tq_taskQueue q) in Some (mkTaskQueue tasks (Running [] batch))
  | LockedList.Returns false => Some (mkTaskQueue (tq_taskQueue q) Ended)
  | LockedList.Blocks => None
  end.

(** The tasks that have not begun, in their order. *)
Definition waiting (q : TaskQueue) : list T :=
  match tq_worker q with Running _ batch => batch | _ => [] end ++ tq_taskQueue q.
Definition pending (q : TaskQueue) : list C := match tq_worker q with Running calls _ => calls | _ => [] end.

Lemma Wait_waiting stop q q' : Wait stop q = Some q' → tq_worker q = Waiting →
  waiting q' = waiting q ∧ pending q' = [].
Proof.
  destruct q as [[|t ts] w]; cbn; intros H ->; cbn in H.
  - destruct stop; [|done]. by injection H as <-.
  - injection H as <-. cbn. by rewrite app_nil_r.
Qed.

(** The thread ends only when it was told to and has nothing to do. *)
Lemma Wait_ends stop q : Wait stop q = Some (mkTaskQueue (tq_taskQueue q) Ended) → stop = true ∧ tq_taskQueue q = [].
Proof. destruct q as [[|t ts] w]; cbn; [|done]. by destruct stop. Qed.

End Queue.
End TaskQueue.
Import TaskQueue.
Arguments TaskQueue : clear implicits.
Arguments worker : clear implicits.

(** ** Jobs, calls and tasks *)

Inductive queue :=
  | WriteNetwork | ReadNetwork | Main | Disk (idx : nat) | CacheTree (idx : nat) | Inotify.

#[export] Instance queue_eq_dec : EqDecision queue.
Proof. solve_decision. Defined.

Definition DiskThreadCount : nat := 4.
Definition CacheTreeThreadCount : nat := FileTree.ShardCount.
Definition MaxWriterPackets : nat := 1100.

Definition all_queues : list queue :=
  [WriteNetwork; ReadNetwork; Main; Inotify] ++ (Disk <$> seq 0 DiskThreadCount) ++ (CacheTree <$> seq 0 CacheTreeThreadCount).

(** [std::array::at]. *)
Definition at_ (size idx : nat) : res nat := if idx <? size then Ret idx else Err (Throws "array::at").

Section Scheduler.
Context {P J : Type} (held : J → list P) (GetInode : J → Z) (hash : Z → Z).

(** The classes of jobs; a [J] is an object of a class derived from them.  Of the two
    network classes [SendMessageJob] and [FreeRecvPacketsJob] do nothing but give their
    packets to the connection. *)
Inductive job :=
  | MainJob (j : J)
  | MainReadJob (j : J)
  | SendMessageJob (message : list P)
  | FreeRecvPacketsJob (message : list P)
  | ReadNetworkJob (j : J)
  | DiskJob (j : J)
  | FuseNetworkJob (j : J)
  | ResponseFuseNetworkJob (j : J)
  | ResponseReadFileJob (j : J)
  | ResponseInFuseNetworkJob (j : J)
  | CacheTreeJob (j : J)
  | InotifyWatcherJob (j : J).

Definition job_packets (k : job) : list P :=
  match k with
  | SendMessageJob message | FreeRecvPacketsJob message => message
  | MainJob j | MainReadJob j | ReadNetworkJob j | DiskJob j | FuseNetworkJob j | ResponseFuseNetworkJob j
  | ResponseReadFileJob j | ResponseInFuseNetworkJob j | CacheTreeJob j | InotifyWatcherJob j => held j
  end.

(** Calls to the scheduler, and the two calls of [Async] that its own tasks make. *)
Inductive call :=
  | Schedule (k : job)
  | ReturnFreeDiskPackets (packets : list P)
  | ReadFromDisk (j : J) (writerPackets : list P)
  | ReturnUnused (unusedPackets : list P).

Definition call_packets (c : call) : list P :=
  match c with
  | Schedule k => job_packets k
  | ReturnFreeDiskPackets packets => packets
  | ReadFromDisk j writerPackets => held j ++ writerPackets
  | ReturnUnused unusedPackets => unusedPackets
  end.

(** What is in a queue: the lambdas of [TaskScheduler.cpp] with what they capture. *)
Inductive task :=
  | Task (k : job)
  | DiskTask (idx : nat) (j : J)
  | AllocTask (j : J)
  | ReadTask (j : J) (writerPackets : list P)
  | ReturnTask (unusedPackets : list P)
  | ReturnDiskTask (idx : nat) (packets : list P).

Definition task_packets (x : task) : list P :=
  match x with
  | Task k => job_packets k
  | DiskTask _ j | AllocTask j => held j
  | ReadTask j writerPackets => held j ++ writerPackets
  | ReturnTask packets | ReturnDiskTask _ packets => packets
  end.

(** What a job has done when it returns: the packets it has written, those left of the
    ones it was given, those it has done with, the calls it made, and the packets it
    has destroyed.  Or it has thrown. *)
Record result := mkResult {
  r_written : list P;
  r_left : list P;
  r_free : list P;
  r_calls : list call;
  r_dropped : list P;
}.
Inductive outcome := Returned (r : result) | Threw (calls : list call) (kept dropped : list P).

Definition outcome_packets (o : outcome) : list P :=
  match o with
  | Returned r => r_written r ++ r_left r ++ r_free r ++ (r_calls r ≫= call_packets) ++ r_dropped r
  | Threw calls kept dropped => (calls ≫= call_packets) ++ kept ++ dropped
  end.

(** Packets are neither made nor copied. *)
Definition lawful (j : J) (execute : list P → outcome) : Prop :=
  ∀ given, outcome_packets (execute given) ≡ₚ given ++ held j.

(** ** The scheduler *)

Record Scheduler := mkScheduler {
  sc_freeDiskPackets : list (list P);
  sc_freeSendPackets : list P;
  sc_nextDiskQueue : Z;
}.
Implicit Types (s : Scheduler).

Definition make_scheduler : Scheduler := mkScheduler (replicate DiskThreadCount []) [] 0.
Definition with_send (packets : list P) s : Scheduler := mkScheduler (sc_freeDiskPackets s) packets (sc_nextDiskQueue s).
Definition with_disk (idx : nat) (packets : list P) s : Scheduler :=
  mkScheduler (<[idx := packets]> (sc_freeDiskPackets s)) (sc_freeSendPackets s) (sc_nextDiskQueue s).

(** [_nextDiskQueue.fetch_add(1) % DiskThreadCount], a [size_t]. *)
Definition next_disk s : nat * Scheduler :=
  (Z.to_nat (sc_nextDiskQueue s `mod` Z.of_nat DiskThreadCount),
   mkScheduler (sc_freeDiskPackets s) (sc_freeSendPackets s) (u64 (sc_nextDiskQueue s + 1))).

#[local] Arguments next_disk : simpl never.
#[local] Arguments at_ : simpl never.

(** *** Where a job goes *)

Definition ScheduleMainJob (j : J) s : res (queue * task * Scheduler) := Ret (Main, Task (MainJob j), s).
Definition ScheduleMainReadJob (j : J) s : res (queue * task * Scheduler) := Ret (Main, Task (MainReadJob j), s).
Definition ScheduleWriteNetworkJob (message : list P) s : res (queue * task * Scheduler) :=
  Ret (WriteNetwork, Task (SendMessageJob message), s).
Definition ScheduleReadNetworkJob (k : job) s : res (queue * task * Scheduler) := Ret (ReadNetwork, Task k, s).
Definition ScheduleDiskJob (j : J) s : res (queue * task * Scheduler) :=
  let '(idx, s) := next_disk s in idx ← at_ DiskThreadCount idx; Ret (Disk idx, DiskTask idx j, s).
Definition ScheduleFuseNetworkJob (j : J) s : res (queue * task * Scheduler) := Ret (Main, Task (FuseNetworkJob j), s).
Definition ScheduleResponseFuseNetworkJob (j : J) s : res (queue * task * Scheduler) :=
  Ret (Main, Task (ResponseFuseNetworkJob j), s).
Definition ScheduleResponseReadDiskJob (j : J) s : res (queue * task * Scheduler) := Ret (Main, AllocTask j, s).
Definition ScheduleResponseInFuseNetworkJob (j : J) s : res (queue * task * Scheduler) :=
  Ret (Main, Task (ResponseInFuseNetworkJob j), s).
Definition ScheduleCacheTreeJob (j : J) s : res (queue * task * Scheduler) :=
  idx ← at_ CacheTreeThreadCount (FileTree.ShardForInode hash (GetInode j));
  Ret (CacheTree idx, Task (CacheTreeJob j), s).
Definition ScheduleInotifyWatcherJob (j : J) s : res (queue * task * Scheduler) :=
  Ret (Inotify, Task (InotifyWatcherJob j), s).

(** [Schedule]: the [Accept] of the class of the job. *)
Definition Accept (k : job) s : res (queue * task * Scheduler) :=
  match k with
  | MainJob j => ScheduleMainJob j s
  | MainReadJob j => ScheduleMainReadJob j s
  | SendMessageJob message => ScheduleWriteNetworkJob message s
  | FreeRecvPacketsJob _ | ReadNetworkJob _ => ScheduleReadNetworkJob k s
  | DiskJob j => ScheduleDiskJob j s
  | FuseNetworkJob j => ScheduleFuseNetworkJob j s
  | ResponseFuseNetworkJob j => ScheduleResponseFuseNetworkJob j s
  | ResponseReadFileJob j => ScheduleResponseReadDiskJob j s
  | ResponseInFuseNetworkJob j => ScheduleResponseInFuseNetworkJob j s
  | CacheTreeJob j => ScheduleCacheTreeJob j s
  | InotifyWatcherJob j => ScheduleInotifyWatcherJob j s
  end.

(** The queue that a call puts a task into. *)
Definition dispatch (c : call) s : res (queue * task * Scheduler) :=
  match c with
  | Schedule k => Accept k s
  | ReturnFreeDiskPackets packets =>
      let '(idx, s) := next_disk s in idx ← at_ DiskThreadCount idx; Ret (Disk idx, ReturnDiskTask idx packets, s)
  | ReadFromDisk j writerPackets =>
      let '(idx, s) := next_disk s in idx ← at_ DiskThreadCount idx; Ret (Disk idx, ReadTask j writerPackets, s)
  | ReturnUnused unusedPackets => Ret (Main, ReturnTask unusedPackets, s)
  end.

(** *** What a task does *)

(** The scheduler after a task, the calls it makes, the packets it got from the
    connection and gave to it, and those that were destroyed. *)
Record effect := mkEffect {
  ef_scheduler : Scheduler;
  ef_calls : list call;
  ef_got : list P;
  ef_given : list P;
  ef_dropped : list P;
}.

(** Packets that were written are sent, packets that were read are given back. *)
Definition send_written (writedPackets : list P) : list call :=
  match writedPackets with [] => [] | _ => [Schedule (SendMessageJob writedPackets)] end.
Definition free_received (freePackets : list P) : list call :=
  match freePackets with [] => [] | _ => [Schedule (FreeRecvPacketsJob freePackets)] end.

(** [free] is what [Send2] returns, when it is called. *)
Definition run_MainJob (free : list P) (execute : list P → outcome) s : res effect :=
  match execute (sc_freeSendPackets s ++ free) with
  | Threw calls kept dropped => Ret (mkEffect (with_send kept s) calls free [] dropped)
  | Returned r =>
      assert_that (negb (length (r_left r) =? 0));;
      Ret (mkEffect (with_send (r_left r) s) (r_calls r) free [] (r_written r ++ r_free r ++ r_dropped r))
  end.

(** Jobs that are given no packets and return none. *)
Definition run_quietly (execute : list P → outcome) s : effect :=
  match execute [] with
  | Threw calls kept dropped => mkEffect s calls [] [] (kept ++ dropped)
  | Returned r => mkEffect s (r_calls r) [] [] (r_written r ++ r_left r ++ r_free r ++ r_dropped r)
  end.

(** [received] is what the calls of [Recv] return. *)
Definition run_ReadNetworkJob (received : list P) (execute : list P → outcome) s : effect :=
  match execute received with
  | Threw calls kept dropped => mkEffect s calls received [] (kept ++ dropped)
  | Returned r => mkEffect s (r_calls r) received [] (r_written r ++ r_left r ++ r_free r ++ r_dropped r)
  end.

Definition run_DiskJob (idx : nat) (execute : list P → outcome) s : res effect :=
  match sc_freeDiskPackets s !! idx with
  | None => Err (Throws "array::at")
  | Some packets =>
      match execute packets with
      | Threw calls kept dropped => Ret (mkEffect (with_disk idx kept s) calls [] [] dropped)
      | Returned r =>
          Ret (mkEffect (with_disk idx (r_left r) s) (r_calls r) [] [] (r_written r ++ r_free r ++ r_dropped r))
      end
  end.

(** The lambda of [ScheduleFuseNetworkJob] and that of [ScheduleResponseFuseNetworkJob]
    from the writer on: [packets] are the free ones. *)
Definition run_writer (packets got : list P) (execute : list P → outcome) s : res effect :=
  assert_that (negb (length packets =? 0));;
  let '(writerPackets, packets) := LockedList.LockedTryGenerate MaxWriterPackets packets in
  match execute writerPackets with
  | Threw calls kept dropped => Ret (mkEffect (with_send packets s) calls got [] (kept ++ dropped))
  | Returned r =>
      Ret (mkEffect (with_send (packets ++ r_left r) s)
        (r_calls r ++ send_written (r_written r) ++ free_received (r_free r)) got [] (r_dropped r))
  end.

Definition run_FuseNetworkJob (free : list P) (execute : list P → outcome) s : res effect :=
  if length (sc_freeSendPackets s) =? 0 then run_writer (sc_freeSendPackets s ++ free) free execute s
  else run_writer (sc_freeSendPackets s) [] execute s.

Definition run_ResponseFuseNetworkJob (free : list P) (execute : list P → outcome) s : res effect :=
  if length (sc_freeSendPackets s) <? 2500 then run_writer (sc_freeSendPackets s ++ free) free execute s
  else run_writer (sc_freeSendPackets s) [] execute s.

(** The loop of [ScheduleResponseReadDiskJob]: one answer of [Send2] for each turn; the
    packets and those that were got. *)
Fixpoint alloc_loop (answers : list (list P)) (packets got : list P) : res (list P * list P) :=
  if length packets <? MaxWriterPackets then
    match answers with
    | [] => Err OutOfFuel
    | free :: answers => alloc_loop answers (packets ++ free) (got ++ free)
    end
  else Ret (packets, got).

(** Phase 1: [found] is what [TryGetFreeSendPackets] returns. *)
Definition run_alloc (found : list P) (answers : list (list P)) (j : J) s : res effect :=
  '(packets, got) ← alloc_loop answers (sc_freeSendPackets s ++ found) found;
  assert_that (negb (length packets =? 0));;
  let '(writerPackets, packets) := LockedList.LockedTryGenerate MaxWriterPackets packets in
  Ret (mkEffect (with_send packets s) [ReadFromDisk j writerPackets] got [] []).

(** Phase 2, on a disk queue. *)
Definition run_read (writerPackets : list P) (execute : list P → outcome) s : effect :=
  match execute writerPackets with
  | Threw calls kept dropped => mkEffect s calls [] [] (kept ++ dropped)
  | Returned r =>
      mkEffect s (r_calls r ++ send_written (r_written r) ++ free_received (r_free r) ++
        match r_left r with [] => [] | unusedPackets => [ReturnUnused unusedPackets] end) [] [] (r_dropped r)
  end.

Definition run_ResponseInFuseNetworkJob (execute : list P → outcome) s : res effect :=
  assert_that (negb (length (sc_freeSendPackets s) =? 0));;
  match execute [] with
  | Threw calls kept dropped => Ret (mkEffect s calls [] [] (kept ++ dropped))
  | Returned r => Ret (mkEffect s (r_calls r ++ free_received (r_free r)) [] [] (r_written r ++ r_left r ++ r_dropped r))
  end.

Definition run_return (unusedPackets : list P) s : effect :=
  mkEffect (with_send (sc_freeSendPackets s ++ unusedPackets) s) [] [] [] [].

Definition run_ReturnFreeDiskPackets (idx : nat) (packets : list P) s : res effect :=
  match sc_freeDiskPackets s !! idx with
  | None => Err (Throws "array::at")
  | Some free => Ret (mkEffect (with_disk idx (free ++ packets) s) [] [] [] [])
  end.

(** [SendMessageJob] gives its packets to [Send], [FreeRecvPacketsJob] to [AddFreeRecvPackets]. *)
Definition SendMessageJob_ExecuteWriteNetwork (message : list P) s : effect := mkEffect s [] [] message [].
Definition FreeRecvPacketsJob_ExecuteReadNetwork (message : list P) s : effect := mkEffect s [] [] message [].

(** [FreeDiskPacketsJob], a [DiskJob] that holds [data]. *)
Definition FreeDiskPacketsJob_ExecuteDisk (data free : list P) : outcome := Returned (mkResult [] (free ++ data) [] [] []).

(** Running a task: [free] and [answers] are what the calls of [Send2] return, [received]
    what those of [Recv] or [TryGetFreeSendPackets] do; [execute] is what the job does. *)
Definition run_job (free received : list P) (execute : list P → outcome) (k : job) s : res effect :=
  match k with
  | MainJob _ => run_MainJob free execute s
  | MainReadJob _ | CacheTreeJob _ | InotifyWatcherJob _ => Ret (run_quietly execute s)
  | SendMessageJob message => Ret (SendMessageJob_ExecuteWriteNetwork message s)
  | FreeRecvPacketsJob message => Ret (FreeRecvPacketsJob_ExecuteReadNetwork message s)
  | ReadNetworkJob _ => Ret (run_ReadNetworkJob received execute s)
  | FuseNetworkJob _ => run_FuseNetworkJob free execute s
  | ResponseFuseNetworkJob _ => run_ResponseFuseNetworkJob free execute s
  | ResponseInFuseNetworkJob _ => run_ResponseInFuseNetworkJob execute s
  | DiskJob _ | ResponseReadFileJob _ => Err (Throws "not a task")
  end.

Definition run_task (free received : list P) (answers : list (list P)) (execute : list P → outcome) (x : task) s : res effect :=
  match x with
  | Task k => run_job free received execute k s
  | DiskTask idx _ => run_DiskJob idx execute s
  | AllocTask j => run_alloc received answers j s
  | ReadTask _ writerPackets => Ret (run_read writerPackets execute s)
  | ReturnTask unusedPackets => Ret (run_return unusedPackets s)
  | ReturnDiskTask idx packets => run_ReturnFreeDiskPackets idx packets s
  end.

(** ** The system: threads, queues and the connection *)

Record System := mkSystem {
  sy_scheduler : Scheduler;
  sy_queues : queue → TaskQueue task call;
  sy_stop : queue → bool;               (* [RequestStop] *)
  sy_closed : bool;                     (* the connection is closed *)
  (* the history: what was put into the queues, and into each of them, what has begun, and
     where packets went *)
  sy_puts : list (queue * task);
  sy_scheduled : queue → list task;
  sy_ran : queue → list task;
  sy_got : list P;
  sy_given : list P;
  sy_dropped : list P;
}.
Implicit Types (y : System).

Definition make_system : System :=
  mkSystem make_scheduler (λ _, TaskQueue.make) (λ _, false) false [] (λ _, []) (λ _, []) [] [] [].

Definition set_queue (q : queue) (w : TaskQueue task call) y : System :=
  mkSystem (sy_scheduler y) (<[q := w]> (sy_queues y)) (sy_stop y) (sy_closed y) (sy_puts y) (sy_scheduled y) (sy_ran y)
    (sy_got y) (sy_given y) (sy_dropped y).

(** A task is put into its queue. *)
Definition put (q : queue) (x : task) s y : System :=
  mkSystem s (<[q := Async x (sy_queues y q)]> (sy_queues y)) (sy_stop y) (sy_closed y)
    (sy_puts y ++ [(q, x)]) (<[q := sy_scheduled y q ++ [x]]> (sy_scheduled y)) (sy_ran y) (sy_got y) (sy_given y) (sy_dropped y).

(** A task has begun on [q]; the calls it makes follow. *)
Definition begun (q : queue) (x : task) (batch : list task) (e : effect) y : System :=
  mkSystem (ef_scheduler e) (<[q := mkTaskQueue (tq_taskQueue (sy_queues y q)) (Running (ef_calls e) batch)]> (sy_queues y))
    (sy_stop y) (sy_closed y) (sy_puts y) (sy_scheduled y) (<[q := sy_ran y q ++ [x]]> (sy_ran y))
    (sy_got y ++ ef_got e) (sy_given y ++ ef_given e) (sy_dropped y ++ ef_dropped e).

(** [Send2] returns no packets only when it was told to stop or the connection is closed
    ([Send2_answers]). *)
Definition answer (q : queue) (free : list P) y : Prop := free = [] → sy_stop y q = true ∨ sy_closed y = true.

Definition task_job (x : task) : option J :=
  match x with
  | Task k => match k with
      | SendMessageJob _ | FreeRecvPacketsJob _ => None
      | MainJob j | MainReadJob j | ReadNetworkJob j | DiskJob j | FuseNetworkJob j | ResponseFuseNetworkJob j
      | ResponseReadFileJob j | ResponseInFuseNetworkJob j | CacheTreeJob j | InotifyWatcherJob j => Some j
      end
  | DiskTask _ j | AllocTask j | ReadTask j _ => Some j
  | ReturnTask _ | ReturnDiskTask _ _ => None
  end.

Inductive step y : System → Prop :=
  (* a callback of FUSE, or the program, schedules a job, which has no packets *)
  | step_outside k q x s :
      job_packets k = [] → Accept k (sy_scheduler y) = Ret (q, x, s) → step y (put q x s y)
  | step_wait q w :
      tq_worker (sy_queues y q) = Waiting → TaskQueue.Wait (sy_stop y q) (sy_queues y q) = Some w →
      step y (set_queue q w y)
  | step_done q :
      tq_worker (sy_queues y q) = Running [] [] → step y (set_queue q (mkTaskQueue (tq_taskQueue (sy_queues y q)) Waiting) y)
  | step_run q x batch free received answers execute e :
      tq_worker (sy_queues y q) = Running [] (x :: batch) →
      answer q free y → Forall (λ free, answer q free y) answers →
      (∀ j, task_job x = Some j → lawful j execute) →
      run_task free received answers execute x (sy_scheduler y) = Ret e →
      step y (begun q x batch e y)
  | step_call q c calls batch q' x s :
      tq_worker (sy_queues y q) = Running (c :: calls) batch → dispatch c (sy_scheduler y) = Ret (q', x, s) →
      step y (put q' x s (set_queue q (mkTaskQueue (tq_taskQueue (sy_queues y q)) (Running calls batch)) y))
  | step_request_stop q :
      step y (mkSystem (sy_scheduler y) (sy_queues y) (<[q := true]> (sy_stop y)) (sy_closed y) (sy_puts y) (sy_scheduled y) (sy_ran y)
        (sy_got y) (sy_given y) (sy_dropped y))
  | step_close :
      step y (mkSystem (sy_scheduler y) (sy_queues y) (sy_stop y) true (sy_puts y) (sy_scheduled y) (sy_ran y)
        (sy_got y) (sy_given y) (sy_dropped y)).

(** ** Where tasks run *)

Definition home (x : task) (q : queue) : Prop :=
  match x with
  | Task k => match k with
      | MainJob _ | MainReadJob _ | FuseNetworkJob _ | ResponseFuseNetworkJob _ | ResponseInFuseNetworkJob _ => q = Main
      | SendMessageJob _ => q = WriteNetwork
      | FreeRecvPacketsJob _ | ReadNetworkJob _ => q = ReadNetwork
      | CacheTreeJob j => q = CacheTree (FileTree.ShardForInode hash (GetInode j))
      | InotifyWatcherJob _ => q = Inotify
      | DiskJob _ | ResponseReadFileJob _ => False
      end
  | DiskTask idx _ | ReturnDiskTask idx _ => q = Disk idx ∧ idx < DiskThreadCount
  | ReadTask _ _ => ∃ idx, q = Disk idx ∧ idx < DiskThreadCount
  | AllocTask _ | ReturnTask _ => q = Main
  end.

(** The disk queues take turns: of the tasks that were put into any of them, in their
    order, each goes to the next one. *)
Definition is_disk (q : queue) : bool := match q with Disk _ => true | _ => false end.
Definition disk_puts y : list (queue * task) := filter (λ p, is_disk p.1 = true) (sy_puts y).
Definition in_turns (puts : list (queue * task)) : Prop :=
  ∀ i q x, puts !! i = Some (q, x) → q = Disk (i mod DiskThreadCount).

Lemma shard_lt inode : FileTree.ShardForInode hash inode < CacheTreeThreadCount.
Proof. apply ShardForInode_lt. Qed.

Lemma all_queues_disk idx : idx < DiskThreadCount → Disk idx ∈ all_queues.
Proof.
  intros H. unfold all_queues. apply elem_of_app. right. apply elem_of_app. left. apply list_elem_of_fmap_2, elem_of_seq. lia.
Qed.
Lemma all_queues_cache idx : idx < CacheTreeThreadCount → CacheTree idx ∈ all_queues.
Proof.
  intros H. unfold all_queues. apply elem_of_app. right. apply elem_of_app. right. apply list_elem_of_fmap_2, elem_of_seq. lia.
Qed.
Lemma all_queues_NoDup : NoDup all_queues.
Proof. refine (bool_decide_eq_true_1 _ _). by vm_compute. Qed.

Lemma home_known x q : home x q → q ∈ all_queues.
Proof.
  destruct x as [[]|idx j|j|j w|w|idx w]; cbn; intros H; try done;
    try (subst q; first [by apply all_queues_cache, shard_lt | refine (bool_decide_eq_true_1 _ _); by vm_compute]).
  - destruct H as [-> H]. by apply all_queues_disk.
  - destruct H as (i & -> & H). by apply all_queues_disk.
  - destruct H as [-> H]. by apply all_queues_disk.
Qed.

Lemma next_disk_lt s idx s' : next_disk s = (idx, s') → idx < DiskThreadCount.
Proof.
  unfold next_disk. intros H. injection H as <- _.
  pose proof (Z.mod_pos_bound (sc_nextDiskQueue s) (Z.of_nat DiskThreadCount)). unfold DiskThreadCount in *. lia.
Qed.

Lemma at_lt size idx : idx < size → at_ size idx = Ret idx.
Proof. intros H. unfold at_. by rewrite (proj2 (Nat.ltb_lt _ _)). Qed.

(** The turn of a queue: where the next disk task goes. *)
Definition takes_turn (q : queue) s s' : Prop :=
  if is_disk q then q = Disk (Z.to_nat (sc_nextDiskQueue s `mod` Z.of_nat DiskThreadCount)) ∧
    sc_nextDiskQueue s' = u64 (sc_nextDiskQueue s + 1)
  else sc_nextDiskQueue s' = sc_nextDiskQueue s.

Definition scheduler_packets s : list P := sc_freeSendPackets s ++ concat (sc_freeDiskPackets s).

(** Every call finds its queue, which is the home of its task; no packet is lost. *)
Lemma dispatch_total c s : ∃ q x s', dispatch c s = Ret (q, x, s') ∧ home x q ∧ task_packets x = call_packets c ∧
  sc_freeDiskPackets s' = sc_freeDiskPackets s ∧ sc_freeSendPackets s' = sc_freeSendPackets s ∧ takes_turn q s s'.
Proof.
  destruct (next_disk s) as [idx s'] eqn:E. pose proof (next_disk_lt _ _ _ E) as Hi.
  assert (Hs : sc_freeDiskPackets s' = sc_freeDiskPackets s ∧ sc_freeSendPackets s' = sc_freeSendPackets s ∧ takes_turn (Disk idx) s s').
  { unfold next_disk in E. by injection E as <- <-. }
  destruct Hs as (? & ? & ?). destruct c as [[]|l|j w|l]; cbn; unfold ScheduleDiskJob, ScheduleCacheTreeJob;
    rewrite ?E, ?at_lt by (done || apply shard_lt); eexists _, _, _; (split; [reflexivity|]); cbn; eauto 10.
Qed.

Lemma concat_insert {A} (ls : list (list A)) i l new : ls !! i = Some l →
  concat (<[i := new]> ls) ++ l ≡ₚ concat ls ++ new.
Proof.
  intros H. rewrite <- (take_drop_middle ls i l H) at 2. rewrite (insert_take_drop _ _ _ (lookup_lt_Some _ _ _ H)).
  rewrite !concat_app. cbn. solve_Permutation.
Qed.

Lemma TryGenerate_split {A} size (l taken rest : list A) : LockedList.LockedTryGenerate size l = (taken, rest) → l = taken ++ rest.
Proof.
  unfold LockedList.LockedTryGenerate. destruct (_ <? _); intros H; injection H as <- <-; [by rewrite take_drop|by rewrite app_nil_r].
Qed.

Lemma send_written_packets l : (send_written l ≫= call_packets) = l.
Proof. destruct l; cbn; by rewrite ?app_nil_r. Qed.
Lemma free_received_packets l : (free_received l ≫= call_packets) = l.
Proof. destruct l; cbn; by rewrite ?app_nil_r. Qed.

Lemma alloc_loop_packets answers : ∀ packets got packets' got',
  alloc_loop answers packets got = Ret (packets', got') →
  MaxWriterPackets ≤ length packets' ∧ ∃ more, packets' = packets ++ more ∧ got' = got ++ more.
Proof.
  induction answers as [|free answers IH]; intros packets got packets' got'; cbn [alloc_loop];
    destruct (Nat.ltb_spec (length packets) MaxWriterPackets); try done; intros E;
    try (injection E as <- <-; split; [done|]; exists []; by rewrite !app_nil_r).
  apply IH in E as (Hl & more & -> & ->). split; [done|]. exists (free ++ more). by rewrite !app_assoc.
Qed.

(** *** The packets of an effect *)

Definition accounts s (owned : list P) (e : effect) : Prop :=
  scheduler_packets (ef_scheduler e) ++ (ef_calls e ≫= call_packets) ++ ef_given e ++ ef_dropped e ≡ₚ
  scheduler_packets s ++ owned ++ ef_got e ∧
  length (sc_freeDiskPackets (ef_scheduler e)) = length (sc_freeDiskPackets s).

Ltac account := unfold accounts, scheduler_packets; cbn [ef_scheduler ef_calls ef_got ef_given ef_dropped with_send with_disk
  sc_freeSendPackets sc_freeDiskPackets] in *;
  rewrite ?bind_app, ?send_written_packets, ?free_received_packets, ?length_insert; (split; [|done]).

(** From the law of a job to the accounts of the task around it. *)
Ltac by_law Hl rest :=
  cbn [outcome_packets] in Hl;
  match type of Hl with ?l ≡ₚ _ => transitivity (l ++ rest); [solve_Permutation|rewrite Hl; solve_Permutation] end.

Lemma run_MainJob_accounts j free execute s e : lawful j execute → run_MainJob free execute s = Ret e → accounts s (held j) e.
Proof.
  intros Hl. unfold run_MainJob. specialize (Hl (sc_freeSendPackets s ++ free)).
  destruct (execute _) as [r|calls kept dropped]; intros H.
  - destruct (negb _); [|done]. cbn in H. injection H as <-. account. by_law Hl (concat (sc_freeDiskPackets s)).
  - injection H as <-. account. by_law Hl (concat (sc_freeDiskPackets s)).
Qed.

Lemma run_quietly_accounts j execute s : lawful j execute → accounts s (held j) (run_quietly execute s).
Proof.
  intros Hl. unfold run_quietly. specialize (Hl []).
  destruct (execute _) as [r|calls kept dropped]; account; by_law Hl (scheduler_packets s).
Qed.

Lemma run_ReadNetworkJob_accounts j received execute s : lawful j execute →
  accounts s (held j) (run_ReadNetworkJob received execute s).
Proof.
  intros Hl. unfold run_ReadNetworkJob. specialize (Hl received).
  destruct (execute _) as [r|calls kept dropped]; account; by_law Hl (scheduler_packets s).
Qed.

Lemma run_DiskJob_accounts idx j execute s e : lawful j execute → run_DiskJob idx execute s = Ret e → accounts s (held j) e.
Proof.
  intros Hl. unfold run_DiskJob. destruct (_ !! idx) as [packets|] eqn:E; [|done]. specialize (Hl packets).
  destruct (execute _) as [r|calls kept dropped]; intros H; injection H as <-; account.
  - pose proof (concat_insert _ _ _ (r_left r) E) as Hc. apply (Permutation_app_inv_r packets).
    transitivity ((concat (<[idx:=r_left r]> (sc_freeDiskPackets s)) ++ packets) ++ sc_freeSendPackets s ++ (r_calls r ≫= call_packets) ++ r_written r ++ r_free r ++ r_dropped r); [solve_Permutation|].
    rewrite Hc. by_law Hl (scheduler_packets s).
  - pose proof (concat_insert _ _ _ kept E) as Hc. apply (Permutation_app_inv_r packets).
    transitivity ((concat (<[idx:=kept]> (sc_freeDiskPackets s)) ++ packets) ++ sc_freeSendPackets s ++ (calls ≫= call_packets) ++ dropped); [solve_Permutation|].
    rewrite Hc. by_law Hl (scheduler_packets s).
Qed.

Lemma run_writer_accounts j packets got execute s e : lawful j execute → packets = sc_freeSendPackets s ++ got →
  run_writer packets got execute s = Ret e → accounts s (held j) e.
Proof.
  intros Hl Hp. unfold run_writer. destruct (negb _); [|done]. cbn [assert_that mbind res_bind].
  destruct (LockedList.LockedTryGenerate _ _) as [writerPackets rest] eqn:E. apply TryGenerate_split in E. specialize (Hl writerPackets).
  assert (Hs : sc_freeSendPackets s ++ got ≡ₚ writerPackets ++ rest) by (by rewrite <- E, Hp).
  destruct (execute _) as [r|calls kept dropped]; intros H; injection H as <-; account;
    (transitivity ((writerPackets ++ rest) ++ concat (sc_freeDiskPackets s) ++ held j); [|rewrite <- Hs; solve_Permutation]);
    by_law Hl (rest ++ concat (sc_freeDiskPackets s)).
Qed.

Lemma run_FuseNetworkJob_accounts j free execute s e : lawful j execute →
  run_FuseNetworkJob free execute s = Ret e → accounts s (held j) e.
Proof. intros Hl. unfold run_FuseNetworkJob. destruct (_ =? _); by apply run_writer_accounts; rewrite ?app_nil_r. Qed.

Lemma run_ResponseFuseNetworkJob_accounts j free execute s e : lawful j execute →
  run_ResponseFuseNetworkJob free execute s = Ret e → accounts s (held j) e.
Proof. intros Hl. unfold run_ResponseFuseNetworkJob. destruct (_ <? _); by apply run_writer_accounts; rewrite ?app_nil_r. Qed.

Lemma run_alloc_accounts found answers j s e : run_alloc found answers j s = Ret e → accounts s (held j) e.
Proof.
  unfold run_alloc. destruct (alloc_loop _ _ _) as [[packets got]|] eqn:E; [|done]. cbn [mbind res_bind].
  apply alloc_loop_packets in E as (_ & more & -> & ->). destruct (negb _); [|done]. cbn [assert_that mbind res_bind].
  destruct (LockedList.LockedTryGenerate _ _) as [writerPackets rest] eqn:E. apply TryGenerate_split in E.
  intros H. injection H as <-. account. cbn. rewrite !app_nil_r.
  transitivity ((writerPackets ++ rest) ++ concat (sc_freeDiskPackets s) ++ held j); [solve_Permutation|]. rewrite <- E. solve_Permutation.
Qed.

Lemma run_read_accounts j writerPackets execute s : lawful j execute →
  accounts s (held j ++ writerPackets) (run_read writerPackets execute s).
Proof.
  intros Hl. unfold run_read. specialize (Hl writerPackets). destruct (execute _) as [r|calls kept dropped]; account.
  - replace (match r_left r with [] => [] | unusedPackets => [ReturnUnused unusedPackets] end ≫= call_packets) with (r_left r)
      by (destruct (r_left r); cbn; by rewrite ?app_nil_r).
    by_law Hl (scheduler_packets s).
  - by_law Hl (scheduler_packets s).
Qed.

Lemma run_ResponseInFuseNetworkJob_accounts j execute s e : lawful j execute →
  run_ResponseInFuseNetworkJob execute s = Ret e → accounts s (held j) e.
Proof.
  intros Hl. unfold run_ResponseInFuseNetworkJob. destruct (negb _); [|done]. cbn [assert_that mbind res_bind]. specialize (Hl []).
  destruct (execute _) as [r|calls kept dropped]; intros H; injection H as <-; account; by_law Hl (scheduler_packets s).
Qed.

Lemma run_return_accounts packets s : accounts s packets (run_return packets s).
Proof. account. cbn. solve_Permutation. Qed.

Lemma run_ReturnFreeDiskPackets_accounts idx packets s e :
  run_ReturnFreeDiskPackets idx packets s = Ret e → accounts s packets e.
Proof.
  unfold run_ReturnFreeDiskPackets. destruct (_ !! idx) as [free|] eqn:E; [|done]. intros H. injection H as <-. account. cbn.
  pose proof (concat_insert _ _ _ (free ++ packets) E) as Hc. apply (Permutation_app_inv_r free).
  transitivity (sc_freeSendPackets s ++ concat (<[idx:=free ++ packets]> (sc_freeDiskPackets s)) ++ free); [solve_Permutation|].
  rewrite Hc. solve_Permutation.
Qed.

(** A task accounts for every packet: it is where it was, with the scheduler, in a call,
    with the connection, or the job has destroyed it. *)
Lemma run_task_accounts x free received answers execute s e :
  (∀ j, task_job x = Some j → lawful j execute) →
  run_task free received answers execute x s = Ret e → accounts s (task_packets x) e.
Proof.
  intros Hl. destruct x as [[]|idx j|j|j w|w|idx w]; cbn in *; intros H;
    try (specialize (Hl _ eq_refl)); try done;
    eauto using run_MainJob_accounts, run_DiskJob_accounts, run_FuseNetworkJob_accounts, run_ResponseFuseNetworkJob_accounts,
      run_alloc_accounts, run_ResponseInFuseNetworkJob_accounts, run_ReturnFreeDiskPackets_accounts;
    injection H as <-; auto using run_quietly_accounts, run_ReadNetworkJob_accounts, run_read_accounts, run_return_accounts.
  - account. cbn. by rewrite !app_nil_r.
  - account. cbn. by rewrite !app_nil_r.
Qed.

(** No task takes a turn. *)
Lemma run_writer_next packets got execute s e : run_writer packets got execute s = Ret e →
  sc_nextDiskQueue (ef_scheduler e) = sc_nextDiskQueue s.
Proof.
  unfold run_writer. destruct (negb _); [|done]. cbn [assert_that mbind res_bind].
  destruct (LockedList.LockedTryGenerate _ _). by destruct (execute _); intros H; injection H as <-.
Qed.

Lemma run_task_next x free received answers execute s e :
  run_task free received answers execute x s = Ret e → sc_nextDiskQueue (ef_scheduler e) = sc_nextDiskQueue s.
Proof.
  destruct x as [[]|idx j|j|j w|w|idx w]; cbn; intros H; try done;
    try (injection H as <-; unfold run_quietly, run_ReadNetworkJob, run_read; by repeat case_match).
  - unfold run_MainJob in H. destruct (execute _); [|injection H as <-; done]. destruct (negb _); [|done]. by injection H as <-.
  - unfold run_FuseNetworkJob in H. by destruct (_ =? _); apply run_writer_next in H.
  - unfold run_ResponseFuseNetworkJob in H. by destruct (_ <? _); apply run_writer_next in H.
  - unfold run_ResponseInFuseNetworkJob in H. destruct (negb _); [|done]. cbn in H. by destruct (execute _); injection H as <-.
  - unfold run_DiskJob in H. destruct (_ !! idx); [|done]. by destruct (execute _); injection H as <-.
  - unfold run_alloc in H. destruct (alloc_loop _ _ _) as [[packets got]|]; [|done]. cbn in H. destruct (negb _); [|done]. cbn in H.
    destruct (LockedList.LockedTryGenerate _ _). by injection H as <-.
  - unfold run_ReturnFreeDiskPackets in H. destruct (_ !! idx); [|done]. by injection H as <-.
Qed.

(** ** The invariant *)

Definition queue_packets (w : TaskQueue task call) : list P :=
  (waiting w ≫= task_packets) ++ (pending w ≫= call_packets).
Definition in_queues y : list P := all_queues ≫= λ q, queue_packets (sy_queues y q).

(** Everything that is still on this side of the connection. *)
Definition in_system y : list P := scheduler_packets (sy_scheduler y) ++ in_queues y.

#[local] Arguments all_queues : simpl never.
#[local] Arguments in_queues : simpl never.

(** [hand] are the packets of a call that is being made. *)
Record Inv (hand : list P) y : Prop := {
  i_order : ∀ q, sy_scheduled y q = sy_ran y q ++ waiting (sy_queues y q);
  i_home : ∀ q x, x ∈ sy_scheduled y q → home x q;
  i_quiet : ∀ q, q ∉ all_queues → pending (sy_queues y q) = [];
  i_disks : length (sc_freeDiskPackets (sy_scheduler y)) = DiskThreadCount;
  i_packets : sy_got y ≡ₚ in_system y ++ hand ++ sy_given y ++ sy_dropped y;
  i_puts : ∀ q, sy_scheduled y q = (filter (λ p, p.1 = q) (sy_puts y)).*2;
  i_turns : in_turns (disk_puts y) ∧ sc_nextDiskQueue (sy_scheduler y) = u64 (Z.of_nat (length (disk_puts y)));
}.

Lemma bind_ext_in {A B} (f g : A → list B) l : (∀ x, x ∈ l → f x = g x) → (l ≫= f) = (l ≫= g).
Proof.
  induction l as [|a l IH]; intros H; [done|]. cbn. rewrite (H a) by left. f_equal. apply IH. intros x Hx. apply H. by right.
Qed.

Lemma bind_update {B} (f : B → list P) (g : queue → B) q w l : NoDup l → q ∈ l →
  (l ≫= λ x, f (<[q := w]> g x)) ++ f (g q) ≡ₚ (l ≫= λ x, f (g x)) ++ f w.
Proof.
  induction 1 as [|a l Ha Hl IH]; intros Hq; [by apply not_elem_of_nil in Hq|]. cbn.
  apply elem_of_cons in Hq as [->|Hq].
  - rewrite fn_lookup_insert. rewrite (bind_ext_in (λ x, f (<[a := w]> g x)) (λ x, f (g x)) l); [solve_Permutation|].
    intros x Hx. rewrite fn_lookup_insert_ne by (intros ->; done). done.
  - rewrite fn_lookup_insert_ne by (intros ->; done). specialize (IH Hq).
    transitivity (f (g a) ++ ((l ≫= λ x, f (<[q := w]> g x)) ++ f (g q))); [solve_Permutation|]. rewrite IH. solve_Permutation.
Qed.

(** One queue changes. *)
Lemma in_queues_update y q w : q ∈ all_queues →
  (all_queues ≫= λ x, queue_packets (<[q := w]> (sy_queues y) x)) ++ queue_packets (sy_queues y q) ≡ₚ
  in_queues y ++ queue_packets w.
Proof. intros Hq. apply (bind_update queue_packets); [apply all_queues_NoDup|done]. Qed.

Lemma in_queues_same y q w : queue_packets w = queue_packets (sy_queues y q) →
  (all_queues ≫= λ x, queue_packets (<[q := w]> (sy_queues y) x)) = in_queues y.
Proof.
  intros E. apply bind_ext_in. intros x _. destruct (decide (q = x)) as [<-|Hne].
  - by rewrite fn_lookup_insert.
  - by rewrite fn_lookup_insert_ne.
Qed.

(** Split on whether [q'] is the queue that changed. *)
Ltac at_queue q q' := destruct (decide (q = q')) as [<-|?]; [rewrite ?fn_lookup_insert|rewrite ?fn_lookup_insert_ne by done].

Lemma quiet_update y q w : (∀ q, q ∉ all_queues → pending (sy_queues y q) = []) → pending w = [] ∨ q ∈ all_queues →
  ∀ q', q' ∉ all_queues → pending (<[q := w]> (sy_queues y) q') = [].
Proof. intros H Hw q' Hq. at_queue q q'; [by destruct Hw|by apply H]. Qed.

(** A change of the thread alone, with the same tasks and calls to come. *)
Lemma Inv_set_queue q w y : Inv [] y → waiting w = waiting (sy_queues y q) → pending w = pending (sy_queues y q) →
  Inv [] (set_queue q w y).
Proof.
  intros Hi Hw Hp. split; cbn.
  - intros q'. rewrite (i_order _ _ Hi). f_equal. by at_queue q q'.
  - apply (i_home _ _ Hi).
  - intros q' Hq. at_queue q q'; [rewrite Hp|]; by apply (i_quiet _ _ Hi).
  - apply (i_disks _ _ Hi).
  - rewrite (i_packets _ _ Hi). unfold in_system. cbn. unfold in_queues at 2. cbn. rewrite (in_queues_same y); [done|].
    unfold queue_packets. by rewrite Hw, Hp.
  - apply (i_puts _ _ Hi).
  - apply (i_turns _ _ Hi).
Qed.

(** A call is taken from those to come. *)
Lemma Inv_take q c calls batch y : Inv [] y → tq_worker (sy_queues y q) = Running (c :: calls) batch →
  Inv (call_packets c) (set_queue q (mkTaskQueue (tq_taskQueue (sy_queues y q)) (Running calls batch)) y).
Proof.
  intros Hi Hw. assert (Hq : q ∈ all_queues).
  { destruct (decide (q ∈ all_queues)) as [|Hn]; [done|]. apply (i_quiet _ _ Hi) in Hn. unfold pending in Hn. by rewrite Hw in Hn. }
  split; cbn.
  - intros q'. rewrite (i_order _ _ Hi). f_equal. at_queue q q'; [|done]. unfold waiting. by rewrite Hw.
  - apply (i_home _ _ Hi).
  - apply quiet_update; [apply (i_quiet _ _ Hi)|by right].
  - apply (i_disks _ _ Hi).
  - rewrite (i_packets _ _ Hi). unfold in_system. cbn. unfold in_queues at 2. cbn.
    set (w := mkTaskQueue _ _). pose proof (in_queues_update y q w Hq) as Hu.
    assert (Hc : queue_packets (sy_queues y q) ≡ₚ queue_packets w ++ call_packets c).
    { unfold queue_packets, waiting, pending, w. rewrite Hw. cbn. solve_Permutation. }
    rewrite Hc in Hu. assert (Hu' : in_queues y ≡ₚ (all_queues ≫= λ x, queue_packets (<[q := w]> (sy_queues y) x)) ++ call_packets c).
    { apply (Permutation_app_inv_r (queue_packets w)). rewrite <- Hu. solve_Permutation. }
    rewrite Hu'. solve_Permutation.
  - apply (i_puts _ _ Hi).
  - apply (i_turns _ _ Hi).
Qed.

(** The next disk task goes to the next queue. *)
Lemma turns_snoc y q x s : in_turns (disk_puts y) → sc_nextDiskQueue (sy_scheduler y) = u64 (Z.of_nat (length (disk_puts y))) →
  takes_turn q (sy_scheduler y) s →
  in_turns (disk_puts (put q x s y)) ∧ sc_nextDiskQueue s = u64 (Z.of_nat (length (disk_puts (put q x s y)))).
Proof.
  unfold takes_turn, disk_puts. intros Ht Hn Hs. cbn [sy_puts put]. rewrite filter_app.
  destruct (is_disk q) eqn:Hd; [rewrite filter_cons_True by done|rewrite filter_cons_False by (cbn; congruence)];
    rewrite filter_nil; [|rewrite app_nil_r; split; [done|congruence]].
  set (l := filter _ (sy_puts y)) in *. destruct Hs as [-> ->]. rewrite Hn. split.
  - intros i q' x'. intros [H|[Hle H]]%lookup_app_Some; [by eapply Ht|].
    apply list_lookup_singleton_Some in H as [Hi [= <- <-]]. f_equal.
    replace i with (length l) by lia.
    assert (u64 (Z.of_nat (length l)) `mod` Z.of_nat DiskThreadCount = Z.of_nat (length l) `mod` Z.of_nat DiskThreadCount)%Z as ->.
    { unfold wrap. change (Z.of_nat DiskThreadCount) with 4%Z. apply Z.mod_mod_divide. by exists (2 ^ 62)%Z. }
    rewrite <- Nat2Z.inj_mod. by rewrite Nat2Z.id.
  - rewrite length_app. cbn [length]. wrap_eq.
Qed.

(** A task is put into its queue. *)
Lemma Inv_put q x s y : Inv (task_packets x) y → home x q →
  sc_freeDiskPackets s = sc_freeDiskPackets (sy_scheduler y) → sc_freeSendPackets s = sc_freeSendPackets (sy_scheduler y) →
  takes_turn q (sy_scheduler y) s → Inv [] (put q x s y).
Proof.
  intros Hi Hh Hd Hs Ht.
  assert (Hp : pending (Async x (sy_queues y q)) = pending (sy_queues y q)) by done.
  assert (Hw : waiting (Async x (sy_queues y q)) = waiting (sy_queues y q) ++ [x]) by exact (app_assoc _ _ _).
  split; cbn.
  - intros q'. at_queue q q'; [|apply (i_order _ _ Hi)]. by rewrite (i_order _ _ Hi), Hw, app_assoc.
  - intros q' x'. at_queue q q'; [|apply (i_home _ _ Hi)]. rewrite elem_of_app, list_elem_of_singleton.
    intros [H| ->]; [by apply (i_home _ _ Hi)|done].
  - apply quiet_update; [apply (i_quiet _ _ Hi)|]. right. by apply (home_known x).
  - rewrite Hd. apply (i_disks _ _ Hi).
  - rewrite (i_packets _ _ Hi). unfold in_system, scheduler_packets. cbn. rewrite Hd, Hs. unfold in_queues at 2. cbn.
    pose proof (in_queues_update y q (Async x (sy_queues y q)) (home_known _ _ Hh)) as Hu.
    unfold queue_packets in Hu at 2 3. rewrite Hp, Hw, bind_app in Hu. cbn in Hu. rewrite app_nil_r in Hu.
    assert (Hu' : (all_queues ≫= λ x', queue_packets (<[q := Async x (sy_queues y q)]> (sy_queues y) x')) ≡ₚ in_queues y ++ task_packets x).
    { eapply Permutation_app_inv_r. rewrite Hu. solve_Permutation. }
    rewrite Hu'. solve_Permutation.
  - intros q'. rewrite filter_app, fmap_app, <- (i_puts _ _ Hi). at_queue q q'.
    + by rewrite filter_cons_True, filter_nil.
    + by rewrite filter_cons_False, filter_nil, app_nil_r.
  - destruct (i_turns _ _ Hi) as [H1 H2]. by apply turns_snoc.
Qed.

(** A task begins. *)
Lemma Inv_begun q x batch e y : Inv [] y → tq_worker (sy_queues y q) = Running [] (x :: batch) →
  accounts (sy_scheduler y) (task_packets x) e →
  sc_nextDiskQueue (ef_scheduler e) = sc_nextDiskQueue (sy_scheduler y) → Inv [] (begun q x batch e y).
Proof.
  intros Hi Hw [Ha Hd] Hnext. assert (Hx : waiting (sy_queues y q) = x :: batch ++ tq_taskQueue (sy_queues y q)) by (unfold waiting; by rewrite Hw).
  assert (Hh : home x q).
  { apply (i_home _ _ Hi). rewrite (i_order _ _ Hi), Hx. apply elem_of_app. right. by left. }
  split; cbn.
  - intros q'. at_queue q q'; [|apply (i_order _ _ Hi)]. rewrite (i_order _ _ Hi), Hx, <- app_assoc. done.
  - apply (i_home _ _ Hi).
  - apply quiet_update; [apply (i_quiet _ _ Hi)|]. right. by apply (home_known x).
  - rewrite Hd. apply (i_disks _ _ Hi).
  - unfold in_system. cbn. unfold in_queues. cbn. set (w := mkTaskQueue _ _).
    pose proof (in_queues_update y q w (home_known _ _ Hh)) as Hu.
    assert (Hq : queue_packets (sy_queues y q) ++ (ef_calls e ≫= call_packets) ≡ₚ task_packets x ++ queue_packets w).
    { unfold queue_packets, waiting, pending, w. rewrite Hw. cbn. rewrite !app_nil_r. solve_Permutation. }
    pose proof (i_packets _ _ Hi) as Hp. unfold in_system in Hp. cbn in Hp. rewrite Hp.
    apply (Permutation_app_inv_r (queue_packets (sy_queues y q))).
    transitivity (scheduler_packets (ef_scheduler e) ++ ((all_queues ≫= λ x0, queue_packets (<[q:=w]> (sy_queues y) x0)) ++ queue_packets (sy_queues y q))
      ++ sy_given y ++ sy_dropped y ++ ef_given e ++ ef_dropped e); [rewrite Hu|solve_Permutation].
    apply (Permutation_app_inv_r (ef_calls e ≫= call_packets)).
    transitivity ((scheduler_packets (ef_scheduler e) ++ (ef_calls e ≫= call_packets) ++ ef_given e ++ ef_dropped e) ++ queue_packets w ++ in_queues y ++ sy_given y ++ sy_dropped y);
      [rewrite Ha|solve_Permutation].
    transitivity ((queue_packets (sy_queues y q) ++ (ef_calls e ≫= call_packets)) ++ scheduler_packets (sy_scheduler y) ++ in_queues y ++ sy_given y ++ sy_dropped y ++ ef_got e);
      [solve_Permutation|rewrite Hq; solve_Permutation].
  - apply (i_puts _ _ Hi).
  - rewrite Hnext. apply (i_turns _ _ Hi).
Qed.

Lemma Inv_step y y' : Inv [] y → step y y' → Inv [] y'.
Proof.
  intros Hi Hs. destruct Hs as [k q x s Hk E|q w Hw E|q Hw|q x batch free received answers execute e Hw Hf Hfs Hl E|q c calls batch q' x s Hw E|q|].
  - destruct (dispatch_total (Schedule k) (sy_scheduler y)) as (q1 & x1 & s1 & E1 & Hh & Hx & Hd & Hsp & Ht). cbn [dispatch] in E1.
    rewrite E in E1. injection E1 as <- <- <-. apply Inv_put; try done. by rewrite Hx; cbn; rewrite Hk.
  - destruct (Wait_waiting _ _ _ E Hw) as [H1 H2]. apply Inv_set_queue; [done..|]. rewrite H2. unfold pending. by rewrite Hw.
  - apply Inv_set_queue; [done|..]; unfold waiting, pending; by rewrite Hw.
  - apply Inv_begun; [done|done|by eapply run_task_accounts|by eapply run_task_next].
  - destruct (dispatch_total c (sy_scheduler y)) as (q1 & x1 & s1 & E1 & Hh & Hx & Hd & Hsp & Ht).
    rewrite E in E1. injection E1 as <- <- <-. apply Inv_put; try done. rewrite Hx. by apply Inv_take.
  - by destruct Hi.
  - by destruct Hi.
Qed.

Lemma Inv_make : Inv [] make_system.
Proof. split; try done. intros q x Hx. by apply not_elem_of_nil in Hx. Qed.

Lemma scheduler_reachable_inv y : rtc step make_system y → Inv [] y.
Proof. intros H. apply (rtc_invariant step (Inv []) make_system y); [apply Inv_make|apply Inv_step|done]. Qed.

Lemma FreeDiskPacketsJob_lawful j : lawful j (FreeDiskPacketsJob_ExecuteDisk (held j)).
Proof. intros given. cbn. by rewrite !app_nil_r. Qed.

(** *** Which thread touches what *)

Lemma run_writer_disks packets got execute s e : run_writer packets got execute s = Ret e →
  sc_freeDiskPackets (ef_scheduler e) = sc_freeDiskPackets s.
Proof.
  unfold run_writer. destruct (negb _); [|done]. cbn [assert_that mbind res_bind].
  destruct (LockedList.LockedTryGenerate _ _). by destruct (execute _); intros H; injection H as <-.
Qed.

(** Only tasks of the main queue use the free packets to send, only those of a disk queue
    its own free packets. *)
Lemma run_task_confined x q free received answers execute s e : home x q →
  run_task free received answers execute x s = Ret e →
  (q ≠ Main → sc_freeSendPackets (ef_scheduler e) = sc_freeSendPackets s) ∧
  (∀ i, q ≠ Disk i → sc_freeDiskPackets (ef_scheduler e) !! i = sc_freeDiskPackets s !! i).
Proof.
  destruct x as [[]|idx j|j|j w|w|idx w]; cbn; intros Hh H; try done; repeat match goal with H : _ ∧ _ |- _ => destruct H end; subst;
    try (injection H as <-; unfold run_quietly, run_ReadNetworkJob, run_read; by repeat case_match).
  - unfold run_MainJob in H. destruct (execute _); [|injection H as <-; done]. destruct (negb _); [|done]. by injection H as <-.
  - unfold run_FuseNetworkJob in H. destruct (_ =? _); apply run_writer_disks in H; by rewrite H.
  - unfold run_ResponseFuseNetworkJob in H. destruct (_ <? _); apply run_writer_disks in H; by rewrite H.
  - unfold run_ResponseInFuseNetworkJob in H. destruct (negb _); [|done]. cbn in H. by destruct (execute _); injection H as <-.
  - unfold run_DiskJob in H. destruct (_ !! idx); [|done]. destruct (execute _); injection H as <-; cbn;
      (split; [done|]; intros i Hi; apply list_lookup_insert_ne; intros ->; by apply Hi).
  - unfold run_alloc in H. destruct (alloc_loop _ _ _) as [[packets got]|]; [|done]. cbn in H. destruct (negb _); [|done]. cbn in H.
    destruct (LockedList.LockedTryGenerate _ _). by injection H as <-.
  - unfold run_ReturnFreeDiskPackets in H. destruct (_ !! idx); [|done]. injection H as <-. cbn.
    split; [done|]; intros i Hi; apply list_lookup_insert_ne; intros ->; by apply Hi.
Qed.

(** ** The theorems *)

(** C12: A queue runs what is put into it in that order, each task once and one at a time.
    The jobs of a class go to one queue, those of the cache to the one of the shard of their
    file, but for the jobs of the disk: these, what reads for an answer, and the packets that
    are returned go to the four disk queues in turns, in the order in which they are
    scheduled, so that of two of them either may run first. *)
Theorem queues_run_in_order y :
  rtc step make_system y →
  (∀ q, sy_scheduled y q = sy_ran y q ++ waiting (sy_queues y q)) ∧
  (∀ q x, x ∈ sy_scheduled y q → home x q) ∧
  (∀ q, sy_scheduled y q = (filter (λ p, p.1 = q) (sy_puts y)).*2) ∧
  in_turns (disk_puts y).
Proof.
  intros Hi%scheduler_reachable_inv.
  split; [apply (i_order _ _ Hi)|split; [apply (i_home _ _ Hi)|split; [apply (i_puts _ _ Hi)|apply (i_turns _ _ Hi)]]].
Qed.


(** The free packets are used without a lock: each list by one thread only. *)
Theorem pools_confined y y' :
  rtc step make_system y → step y y' →
  (sc_freeSendPackets (sy_scheduler y') ≠ sc_freeSendPackets (sy_scheduler y) → ∃ x, sy_ran y' Main = sy_ran y Main ++ [x]) ∧
  ∀ i, sc_freeDiskPackets (sy_scheduler y') !! i ≠ sc_freeDiskPackets (sy_scheduler y) !! i →
    ∃ x, sy_ran y' (Disk i) = sy_ran y (Disk i) ++ [x].
Proof.
  intros Hi%scheduler_reachable_inv Hs.
  destruct Hs as [k q x s Hk E|q w Hw E|q Hw|q x batch free received answers execute e Hw Hf Hfs Hl E|q c calls batch q' x s Hw E|q|]; cbn; try done.
  - destruct (dispatch_total (Schedule k) (sy_scheduler y)) as (q1 & x1 & s1 & E1 & _ & _ & Hd & Hsp & _). cbn [dispatch] in E1.
    rewrite E in E1. injection E1 as <- <- <-. by rewrite Hd, Hsp.
  - assert (Hh : home x q).
    { apply (i_home _ _ Hi). rewrite (i_order _ _ Hi). unfold waiting. rewrite Hw. apply elem_of_app. right. by left. }
    destruct (run_task_confined _ _ _ _ _ _ _ _ Hh E) as [H1 H2]. split.
    + intros Hne. destruct (decide (q = Main)) as [->|Hq]; [|by destruct Hne; apply H1]. exists x. by rewrite fn_lookup_insert.
    + intros i Hne. destruct (decide (q = Disk i)) as [->|Hq]; [|by destruct Hne; apply H2]. exists x. by rewrite fn_lookup_insert.
  - destruct (dispatch_total c (sy_scheduler y)) as (q1 & x1 & s1 & E1 & _ & _ & Hd & Hsp & _).
    rewrite E in E1. injection E1 as <- <- <-. by rewrite Hd, Hsp.
Qed.

(** *** Tasks return *)

(** Each answer of [Send2] has a packet at least. *)
Lemma alloc_loop_returns answers : ∀ packets got,
  Forall (λ free : list P, free ≠ []) answers → MaxWriterPackets ≤ length packets + length answers →
  ∃ packets' got', alloc_loop answers packets got = Ret (packets', got').
Proof.
  induction answers as [|free answers IH]; intros packets got Hf Hl; cbn [alloc_loop];
    destruct (Nat.ltb_spec (length packets) MaxWriterPackets); eauto.
  - cbn in Hl. lia.
  - apply Forall_cons in Hf as [Hne Hf]. apply IH; [done|]. rewrite length_app. cbn in Hl. destruct free; [done|]. cbn. lia.
Qed.

(** When a task can fail: [ScheduleMainJob] asserts that the job has returned packets, and
    [ScheduleResponseInFuseNetworkJob] that there are free packets, which it does not use
    and does not ask for. *)
Definition may_assert (free : list P) (execute : list P → outcome) (x : task) s : Prop :=
  match x with
  | Task (ResponseInFuseNetworkJob _) => sc_freeSendPackets s = []
  | Task (MainJob _) => match execute (sc_freeSendPackets s ++ free) with Returned r => r_left r = [] | Threw _ _ _ => False end
  | _ => False
  end.

(** C14: While the connection is open and nobody has asked to stop, so that every call of
    [Send2] that returns has packets, every task returns, but a [MainJob] that returns no
    packets and an answer of the server that comes when no packet is free, which fail an
    assertion; the loop of [ScheduleResponseReadDiskJob] ends with as many answers of
    [Send2] as packets are missing at most. *)
Theorem tasks_return y q x batch free received answers execute :
  rtc step make_system y → tq_worker (sy_queues y q) = Running [] (x :: batch) →
  sy_stop y q = false → sy_closed y = false → answer q free y → Forall (λ free, answer q free y) answers →
  MaxWriterPackets ≤ length (sc_freeSendPackets (sy_scheduler y)) + length answers →
  (¬ may_assert free execute x (sy_scheduler y) →
     ∃ e, run_task free received answers execute x (sy_scheduler y) = Ret e) ∧
  (may_assert free execute x (sy_scheduler y) →
     run_task free received answers execute x (sy_scheduler y) = Err AssertFails).
Proof.
  intros Hi%scheduler_reachable_inv Hw Hst Hcl Hf Hfs Hn. split; intros Hm.
  2: { destruct x as [[]|idx j|j|j w|w|idx w]; cbn in *; try done.
       - unfold run_MainJob. destruct (execute _) as [r|]; [|done]. by rewrite Hm.
       - unfold run_ResponseInFuseNetworkJob. by rewrite Hm. }
  assert (Hh : home x q).
  { apply (i_home _ _ Hi). rewrite (i_order _ _ Hi). unfold waiting. rewrite Hw. apply elem_of_app. right. by left. }
  assert (Hne : ∀ free, answer q free y → free ≠ []) by (intros f Ha ->; destruct (Ha eq_refl); congruence).
  pose proof (Hne _ Hf) as Hfree. pose proof (i_disks _ _ Hi) as Hd. set (s := sy_scheduler y) in *.
  assert (Hwriter : ∀ packets got, packets ≠ [] → ∃ e, run_writer packets got execute s = Ret e).
  { intros packets got Hp. unfold run_writer. destruct packets; [done|]. cbn [length Nat.eqb negb assert_that mbind res_bind].
    destruct (LockedList.LockedTryGenerate _ _) as [l rest]. destruct (execute l); eauto. }
  destruct x as [[]|idx j|j|j w|w|idx w]; cbn in *; try done; eauto.
  - unfold run_MainJob. destruct (execute _) as [r|]; [|eauto]. destruct (r_left r); [done|]. cbn. eauto.
  - unfold run_FuseNetworkJob. destruct (Nat.eqb_spec (length (sc_freeSendPackets s)) 0) as [E|E].
    + apply Hwriter. by intros [_ Hx]%app_eq_nil.
    + apply Hwriter. intros Hx. by rewrite Hx in E.
  - unfold run_ResponseFuseNetworkJob. destruct (Nat.ltb_spec (length (sc_freeSendPackets s)) 2500) as [E|E].
    + apply Hwriter. by intros [_ Hx]%app_eq_nil.
    + apply Hwriter. intros Hx. rewrite Hx in E. cbn in E. lia.
  - unfold run_ResponseInFuseNetworkJob. destruct (sc_freeSendPackets s); [done|]. cbn. destruct (execute []); eauto.
  - unfold run_DiskJob. destruct Hh as [_ Hlt]. rewrite <- Hd in Hlt. apply lookup_lt_is_Some in Hlt as [l ->]. destruct (execute l); eauto.
  - unfold run_alloc. destruct (alloc_loop_returns answers (sc_freeSendPackets s ++ received) received) as (packets & got & E).
    + by eapply Forall_impl.
    + rewrite length_app. lia.
    + rewrite E. cbn [mbind res_bind]. apply alloc_loop_packets in E as [Hl _].
      destruct packets; [cbn in Hl; unfold MaxWriterPackets in Hl; lia|]. cbn [length Nat.eqb negb assert_that mbind res_bind].
      destruct (LockedList.LockedTryGenerate _ _). eauto.
  - unfold run_ReturnFreeDiskPackets. destruct Hh as [_ Hlt]. rewrite <- Hd in Hlt. apply lookup_lt_is_Some in Hlt as [l ->]. eauto.
Qed.

End Scheduler.

(** ** Send2 *)

(** What [step_run] says of the answers of [Send2] holds of [Connection.Send2]. *)
Lemma Send2_answers {P} `{!IPacket P} stop (data free : list P) (c c' : Connection P) :
  Connection.Send2 stop data c = (Some free, c') → free = [] → stop = true ∨ Connection.IsClosed c = true.
Proof.
  unfold Connection.Send2, Connection.GetFreeSendPackets.
  set (c0 := Connection.NotifySendPacketsEvent _).
  assert (Hc : Connection.IsClosed c0 = Connection.IsClosed c) by (unfold c0; by destruct data).
  unfold LockedList.WaitPredicate, LockedList.cv_wait. rewrite Hc.
  destruct (cn_freeUserSendPackets c0) as [|p l] eqn:E; cbn.
  - destruct (Connection.IsClosed c); [by right|]. destruct stop; [by left|]. intros H. discriminate H.
  - intros H Hn. rewrite Hn in H. discriminate H.
Qed.

(** ** The theorems at work *)

Module Example.

(** Packets and jobs are numbers; job 1 is a message that has been received. *)
Definition held (j : nat) : list nat := if j =? 1 then [7] else [].
Definition GetInode (j : nat) : Z := Z.of_nat j.
Definition hash (z : Z) : Z := z.

(** A job that writes one packet. *)
Definition write_one (given : list nat) : @outcome nat nat :=
  Returned (mkResult (take 1 given) (drop 1 given) [] [] []).

Lemma write_one_lawful : lawful held 0 write_one.
Proof. intros given. cbn. by rewrite !app_nil_r, take_drop. Qed.

Abbreviation step := (step held GetInode hash).
Abbreviation begin := (@make_system nat nat).
Abbreviation System := (@System nat nat).

(** A request is scheduled, runs with three packets from the connection, and its packet is
    sent. *)
Definition y1 : System := put Main (Task (FuseNetworkJob 0)) make_scheduler begin.
Definition y2 : System := set_queue Main (mkTaskQueue [] (Running [] [Task (FuseNetworkJob 0)])) y1.
Definition e2 : @effect nat nat := mkEffect (with_send [11; 12] make_scheduler) [Schedule (SendMessageJob [10])] [10; 11; 12] [] [].
Definition y3 : System := begun Main (Task (FuseNetworkJob 0)) [] e2 y2.
Definition y4 : System :=
  put WriteNetwork (Task (SendMessageJob [10])) (with_send [11; 12] make_scheduler) (set_queue Main (mkTaskQueue [] (Running [] [])) y3).
Definition y5 : System := set_queue WriteNetwork (mkTaskQueue [] (Running [] [Task (SendMessageJob [10])])) y4.
Definition y6 : System :=
  begun WriteNetwork (Task (SendMessageJob [10])) [] (mkEffect (with_send [11; 12] make_scheduler) [] [] [10] []) y5.

Lemma y2_reached : rtc step begin y2.
Proof.
  eapply rtc_l; [by apply (step_outside held GetInode hash begin (FuseNetworkJob 0) Main (Task (FuseNetworkJob 0)) make_scheduler)|].
  eapply rtc_l; [|apply rtc_refl]. by apply (step_wait held GetInode hash y1 Main).
Qed.

Lemma y3_step : step y2 y3.
Proof.
  apply (step_run held GetInode hash y2 Main _ [] [10; 11; 12] [] [] write_one); try done.
  intros j E. injection E as <-. apply write_one_lawful.
Qed.

Lemma y6_reached : rtc step begin y6.
Proof.
  transitivity y2; [apply y2_reached|]. eapply rtc_l; [apply y3_step|].
  eapply rtc_l; [by apply (step_call held GetInode hash y3 Main (Schedule (SendMessageJob [10])) [] [] WriteNetwork (Task (SendMessageJob [10])) (with_send [11; 12] make_scheduler))|].
  eapply rtc_l; [by apply (step_wait held GetInode hash y4 WriteNetwork)|].
  eapply rtc_l; [|apply rtc_refl].
  apply (step_run held GetInode hash y5 WriteNetwork _ [] [1] [] [] write_one); done.
Qed.

End Example.
Import Example.

Lemma queues_run_in_order_witness : sy_scheduled y6 Main = sy_ran y6 Main ++ waiting (sy_queues y6 Main).
Proof. exact (proj1 (queues_run_in_order held GetInode hash y6 y6_reached) Main). Defined.


Lemma pools_confined_witness : ∃ x, sy_ran y3 Main = sy_ran y2 Main ++ [x].
Proof. apply (proj1 (pools_confined held GetInode hash y2 y3 y2_reached y3_step)). discriminate. Defined.

Lemma tasks_return_witness : ∃ e,
  run_task [10; 11; 12] [] (replicate 1100 [1]) write_one (Task (FuseNetworkJob 0)) (sy_scheduler y2) = Ret e.
Proof.
  apply (tasks_return held GetInode hash y2 Main _ [] _ _ _ _ y2_reached); try reflexivity; try discriminate.
  - apply Forall_replicate. discriminate.
  - intros [].
Defined.

(** *** What the code does not do *)

(** The lambda of [ScheduleResponseInFuseNetworkJob] asserts that there are free packets.
    They are taken from the connection by other tasks: an answer, or a notification of the
    server, that comes before the first request of the client fails the assertion. *)
Definition a1 : System := put ReadNetwork (Task (ReadNetworkJob 0)) make_scheduler begin.
Definition a2 : System := set_queue ReadNetwork (mkTaskQueue [] (Running [] [Task (ReadNetworkJob 0)])) a1.
Definition deliver (received : list nat) : @outcome nat nat :=
  if bool_decide (received = [7]) then Returned (mkResult [] [] [] [Schedule (ResponseInFuseNetworkJob 1)] [])
  else Returned (mkResult [] [] [] [] received).
Definition a3 : System :=
  begun ReadNetwork (Task (ReadNetworkJob 0)) [] (mkEffect make_scheduler [Schedule (ResponseInFuseNetworkJob 1)] [7] [] []) a2.
Definition a4 : System :=
  put Main (Task (ResponseInFuseNetworkJob 1)) make_scheduler (set_queue ReadNetwork (mkTaskQueue [] (Running [] [])) a3).
Definition a5 : System := set_queue Main (mkTaskQueue [] (Running [] [Task (ResponseInFuseNetworkJob 1)])) a4.

Theorem early_answer_asserts :
  rtc step begin a5 ∧ tq_worker (sy_queues a5 Main) = Running [] [Task (ResponseInFuseNetworkJob 1)] ∧
  ∀ free received answers execute,
    run_task free received answers execute (Task (ResponseInFuseNetworkJob 1)) (sy_scheduler a5) = Err AssertFails.
Proof.
  split; [|done].
  eapply rtc_l; [by apply (step_outside held GetInode hash begin (ReadNetworkJob 0) ReadNetwork (Task (ReadNetworkJob 0)) make_scheduler)|].
  apply (rtc_l _ a1 a2); [by apply (step_wait held GetInode hash a1 ReadNetwork)|].
  apply (rtc_l _ a2 a3).
  { apply (step_run held GetInode hash a2 ReadNetwork (Task (ReadNetworkJob 0)) [] [1] [7] [] deliver); try done.
    intros j E. injection E as <-. intros given. unfold deliver. case_bool_decide as Hg; [by subst|]. cbn. by rewrite app_nil_r. }
  eapply rtc_l; [by apply (step_call held GetInode hash a3 ReadNetwork (Schedule (ResponseInFuseNetworkJob 1)) [] [] Main (Task (ResponseInFuseNetworkJob 1)) make_scheduler)|].
  eapply rtc_l; [by apply (step_wait held GetInode hash a4 Main)|]. apply rtc_refl.
Qed.

(** The loop of [ScheduleResponseReadDiskJob] asks [Send2] until it has 1100 packets.  When
    the connection is closed, or the scheduler stops, [Send2] returns nothing at once, and
    the loop goes on for ever: the destructor waits for the main queue in vain. *)
Theorem closed_connection_spins {P : Type} n (packets got : list P) :
  length packets < MaxWriterPackets → alloc_loop (replicate n []) packets got = Err OutOfFuel.
Proof.
  intros H. induction n as [|n IH]; cbn [replicate alloc_loop]; rewrite (proj2 (Nat.ltb_lt _ _) H); [done|]. by rewrite !app_nil_r.
Qed.

(** A job that throws while it writes a message takes the packets of its writer with it. *)
Theorem throwing_job_destroys_packets {P J : Type} (packets : list P) (s : Scheduler (P := P)) :
  let execute (given : list P) : @outcome P J := Threw [] [] given in
  sc_freeSendPackets s = packets → 0 < length packets ≤ MaxWriterPackets →
  ∃ e, run_FuseNetworkJob [] execute s = Ret e ∧ sc_freeSendPackets (ef_scheduler e) = [] ∧ ef_dropped e = packets.
Proof.
  intros execute E H. unfold run_FuseNetworkJob, run_writer. rewrite E.
  rewrite (proj2 (Nat.eqb_neq (length packets) 0)) by lia. cbn [negb assert_that mbind res_bind].
  unfold LockedList.LockedTryGenerate. rewrite (proj2 (Nat.ltb_ge MaxWriterPackets (length packets))) by lia. by eexists.
Qed.
