(* ===== verification/Directory.v ===== *)
(** * Directory entries
    [Protocol/src/FileSystem/DirectoryEntryWriter.cpp]: the entries of a directory packed
    into packets, and the walk over these packets by [PopulateTreeAndPatchInodes] of
    [ResponseReadDirPlusInJob.cpp], which [Names] describes by entries.

    The bytes of an entry are made by libfuse and laid out as [struct fuse_direntplus] of
    [<linux/fuse.h>]: both are the class [FuseDirent], with the laws [FuseDirentLaws]. *)
From S2P Require Import Prelude Packet Leaf FileTree Serializer Messages Names MessageIO.
Local Open Scope nat_scope.

Definition NAME_MAX : nat := 255.

(** [(n + (sizeof(uint64_t) - 1)) & ~(sizeof(uint64_t) - 1)], a [size_t]. *)
Definition padded (n : nat) : nat := Z.to_nat (Z.land (Z.of_nat n + 7) (Z.lnot 7)).

Lemma padded_le n : n ≤ padded n < n + 8.
Proof.
  unfold padded. rewrite <- Z.ldiff_land. change 7%Z with (Z.ones 3). rewrite Z.ldiff_ones_r, Z.shiftl_mul_pow2, Z.shiftr_div_pow2 by lia.
  change (Z.ones 3) with 7%Z. change (2 ^ 3)%Z with 8%Z.
  pose proof (Z.div_mod (Z.of_nat n + 7) 8). pose proof (Z.mod_pos_bound (Z.of_nat n + 7) 8). lia.
Qed.

(** ** libfuse *)

(** [fuse_add_direntry_plus] writes [fuse_add_direntry_plus name ino attr off], of which
    it returns the length; and where the fields of [struct fuse_direntplus] are. *)
Class FuseDirent := {
  fuse_add_direntry : string → Z → Z → Z → list Z;
  fuse_add_direntry_plus : string → Z → attributes → Z → list Z;
  sizeof_direntplus : nat;
  offsetof_name : nat;
  offsetof_nodeid : nat;       (* entry_out.nodeid *)
  offsetof_attr_ino : nat;     (* entry_out.attr.ino *)
  offsetof_size : nat;         (* entry_out.attr.size *)
  offsetof_mode : nat;         (* entry_out.attr.mode *)
  offsetof_ino : nat;          (* dirent.ino *)
  offsetof_namelen : nat;      (* dirent.namelen *)
}.

(** The field of [n] bytes at [offset]. *)
Definition field (offset n : nat) (entry : list Z) : Z := le_combine (slice offset n entry).

Class FuseDirentLaws `{FuseDirent} := {
  (* the fields lie apart, in front of the name *)
  layout_apart :
    offsetof_nodeid + 8 ≤ offsetof_attr_ino ∧ offsetof_attr_ino + 8 ≤ offsetof_size ∧
    offsetof_size + 8 ≤ offsetof_mode ∧ offsetof_mode + 4 ≤ offsetof_ino ∧
    offsetof_ino + 8 ≤ offsetof_namelen ∧ offsetof_namelen + 4 ≤ sizeof_direntplus;
  layout_name : sizeof_direntplus = offsetof_name;
  direntry_plus_length name ino attr off :
    length (fuse_add_direntry_plus name ino attr off) = padded (offsetof_name + length (bytes_of name));
  direntry_plus_nodeid name ino attr off : field offsetof_nodeid 8 (fuse_add_direntry_plus name ino attr off) = u64 ino;
  direntry_plus_size name ino attr off : field offsetof_size 8 (fuse_add_direntry_plus name ino attr off) = u64 (st_size attr);
  direntry_plus_mode name ino attr off : field offsetof_mode 4 (fuse_add_direntry_plus name ino attr off) = u32 (st_mode attr);
  direntry_plus_namelen name ino attr off :
    field offsetof_namelen 4 (fuse_add_direntry_plus name ino attr off) = u32 (Z.of_nat (length (bytes_of name)));
  direntry_plus_name name ino attr off :
    slice offsetof_name (length (bytes_of name)) (fuse_add_direntry_plus name ino attr off) = bytes_of name;
}.

(** ** The writer of the server *)

Module DirectoryEntryWriter.
Section Writer.
Context `{FuseDirent}.

Record DirectoryEntryWriter := mkDirectoryEntryWriter {
  dw_packets : list payload;
  dw_packet : nat;
  dw_offset : nat;
}.
Implicit Types (w : DirectoryEntryWriter).

Definition make (packets : list payload) : DirectoryEntryWriter := mkDirectoryEntryWriter packets 0 0.

Definition GetPacket w : res payload :=
  match dw_packets w !! dw_packet w with Some p => Ret p | None => Err Undefined end.

(** [GetPacket().SetPayloadSize(_offset)], which makes a payload shorter. *)
Definition SetPayloadSize w : res DirectoryEntryWriter :=
  packet ← GetPacket w;
  mret (mkDirectoryEntryWriter (<[dw_packet w := take (dw_offset w) packet]> (dw_packets w)) (dw_packet w) (dw_offset w)).

Definition GetNextPacket w : res DirectoryEntryWriter :=
  w ← SetPayloadSize w;
  assert_that (negb (S (dw_packet w) =? length (dw_packets w)));;
  mret (mkDirectoryEntryWriter (dw_packets w) (S (dw_packet w)) 0).

(** What [AddDirectoryEntry] and [AddDirectoryEntryPlus] do with the bytes of the entry. *)
Definition add_entry (entry : list Z) w : res DirectoryEntryWriter :=
  packet ← GetPacket w;
  w ← (if length packet - dw_offset w <? length entry then
      w ← SetPayloadSize w;
      w ← GetNextPacket w;
      packet ← GetPacket w;
      assert_that (length entry <=? length packet);;
      Ret w
    else Ret w);
  packet ← GetPacket w;
  mret (mkDirectoryEntryWriter (<[dw_packet w := store (dw_offset w) entry packet]> (dw_packets w))
    (dw_packet w) (dw_offset w + length entry)).

(** [NullTerminatedName]. *)
Definition NullTerminatedName (name : string) : res () := assert_that (length (bytes_of name) <=? NAME_MAX).

Definition AddDirectoryEntry (name : string) (inode mode off : Z) w : res (nat * DirectoryEntryWriter) :=
  NullTerminatedName name;;
  let entry := fuse_add_direntry name inode mode off in
  w ← add_entry entry w; mret (length entry, w).

Definition GetEntryPlusSize (name : string) : res nat :=
  NullTerminatedName name;; mret (length (fuse_add_direntry_plus name 0 no_attributes 0)).

Definition AddDirectoryEntryPlus (name : string) (ino : Z) (attr : attributes) (off : Z) w : res (nat * DirectoryEntryWriter) :=
  NullTerminatedName name;;
  let entry := fuse_add_direntry_plus name ino attr off in
  w ← add_entry entry w; mret (length entry, w).

(** The packets that were written, and the writer with the others. *)
Definition GetWritedPackets w : res (list payload * DirectoryEntryWriter) :=
  w ← GetNextPacket w;
  mret (take (dw_packet w) (dw_packets w), mkDirectoryEntryWriter (drop (dw_packet w) (dw_packets w)) 0 (dw_offset w)).

Definition GetPackets w : res (list payload) := w ← SetPayloadSize w; mret (dw_packets w).

(** The calls of [ResponseReadDirPlusJob], one for each entry of the answer. *)
Fixpoint add_all (entries : list entry) w : res DirectoryEntryWriter :=
  match entries with
  | [] => Ret w
  | e :: entries =>
      '(_, w) ← AddDirectoryEntryPlus (en_name e) (en_nodeid e) (en_attr e) (en_off e) w; add_all entries w
  end.

End Writer.
End DirectoryEntryWriter.

(** ** The walk of the client *)

Module DirectoryWalk.
Section Walk.
Context `{FuseDirent} {P J : Type} `{!IPacket P} (alloc : FileTree P J → Z).
Implicit Types (t : FileTree P J).

(** The three inodes of an entry are replaced. *)
Definition patch (pos : nat) (ino : Z) (p : payload) : payload :=
  store (pos + offsetof_ino) (le_split 8 ino)
    (store (pos + offsetof_attr_ino) (le_split 8 ino) (store (pos + offsetof_nodeid) (le_split 8 ino) p)).

(** The fields that are read of an entry. *)
Definition read_entry (namelen : nat) (entrySpan : list Z) : entry :=
  mkEntry (string_of (slice offsetof_name namelen entrySpan)) (field offsetof_nodeid 8 entrySpan)
    (mkAttributes (field offsetof_mode 4 entrySpan) 0 (field offsetof_size 8 entrySpan) 0 0 0) 0.

(** The loop of [PopulateTreeAndPatchInodes]; each turn goes forward by one byte at least. *)
Fixpoint populate_loop (fuel : nat) (parentInode parentLeaf : Z) (pos : nat) (p : payload) t :
    res (FileTree P J * payload) :=
  if pos <? length p then
    match fuel with
    | O => Err OutOfFuel
    | S fuel =>
        let entrySpan := drop pos p in
        if length entrySpan <? sizeof_direntplus then Ret (t, p)
        else
          let namelen := Z.to_nat (field offsetof_namelen 4 entrySpan) in
          if (namelen =? 0) || (length entrySpan <? offsetof_name + namelen) then Ret (t, p)
          else
            '(t, localIno) ← Client.ResolveClientInode alloc parentInode parentLeaf (read_entry namelen entrySpan) t;
            populate_loop fuel parentInode parentLeaf (pos + padded (offsetof_name + namelen)) (patch pos localIno p) t
    end
  else Ret (t, p).

Definition PopulateTreeAndPatchInodes (parentInode parentLeaf : Z) (p : payload) t : res (FileTree P J * payload) :=
  populate_loop (length p) parentInode parentLeaf 0 p t.

(** The loop over the packets of the answer, and what is given to the kernel. *)
Fixpoint populate_packets (parentInode parentLeaf : Z) (data : list payload) t : res (FileTree P J * list payload) :=
  match data with
  | [] => Ret (t, [])
  | packet :: data =>
      '(t, packet) ← PopulateTreeAndPatchInodes parentInode parentLeaf packet t;
      '(t, data) ← populate_packets parentInode parentLeaf data t;
      mret (t, packet :: data)
  end.

End Walk.

(** What the kernel reads of an entry: the name, all three inodes, the size and the mode. *)
Record kernel_entry := mkKernelEntry {
  ke_name : string;
  ke_nodeid : Z;       (* entry_out.nodeid *)
  ke_attr_ino : Z;     (* entry_out.attr.ino *)
  ke_ino : Z;          (* dirent.ino *)
  ke_size : Z;
  ke_mode : Z;
}.

Fixpoint entries_in `{FuseDirent} (fuel : nat) (p : list Z) : list kernel_entry :=
  match fuel with
  | O => []
  | S fuel =>
      if length p <? sizeof_direntplus then []
      else
        let namelen := Z.to_nat (field offsetof_namelen 4 p) in
        mkKernelEntry (string_of (slice offsetof_name namelen p)) (field offsetof_nodeid 8 p) (field offsetof_attr_ino 8 p)
          (field offsetof_ino 8 p) (field offsetof_size 8 p) (field offsetof_mode 4 p) ::
          entries_in fuel (drop (padded (offsetof_name + namelen)) p)
  end.
Definition kernel_reads `{FuseDirent} (data : list payload) : list kernel_entry := data ≫= λ p, entries_in (length p) p.

(** The entry of the server with the inode of the client. *)
Definition kernel_sees (e : entry) (i : string * Z) : kernel_entry :=
  mkKernelEntry (en_name e) (u64 i.2) (u64 i.2) (u64 i.2) (st_size (en_attr e)) (st_mode (en_attr e)).

End DirectoryWalk.

(** ** What the writer makes *)

Import DirectoryEntryWriter DirectoryWalk.

Definition entry_bytes `{FuseDirent} (e : entry) : list Z :=
  fuse_add_direntry_plus (en_name e) (en_nodeid e) (en_attr e) (en_off e).
Definition bytes_of_entries `{FuseDirent} (entries : list entry) : list Z := entries ≫= entry_bytes.

(** The entries of each packet: those that fit, from [offset] on. *)
Fixpoint pages `{FuseDirent} (size offset : nat) (entries : list entry) : list (list entry) :=
  match entries with
  | [] => [[]]
  | e :: entries =>
      let n := length (entry_bytes e) in
      if size - offset <? n then [] :: (match pages size n entries with [] => [] | page :: rest => (e :: page) :: rest end)
      else match pages size (offset + n) entries with [] => [] | page :: rest => (e :: page) :: rest end
  end.

(** An entry that can be written and read: its name is a file name, its numbers fit. *)
Record entry_ok (e : entry) : Prop := {
  ok_name : 0 < length (bytes_of (en_name e)) ≤ NAME_MAX;
  ok_nodeid : (0 ≤ en_nodeid e < 2 ^ 64)%Z;
  ok_size : (0 ≤ st_size (en_attr e) < 2 ^ 64)%Z;
  ok_mode : (0 ≤ st_mode (en_attr e) < 2 ^ 32)%Z;
}.

Section Writing.
Context `{FuseDirent}.

Lemma take_store_app (offset : nat) (src : list Z) (p : list Z) : offset + length src ≤ length p →
  take (offset + length src) (store offset src p) = take offset p ++ src.
Proof.
  intros Hl. apply list_eq. intros i. unfold store. destruct (decide (i < offset + length src)) as [Hi|Hi].
  - rewrite lookup_take_lt by done. destruct (decide (i < offset)) as [Ho|Ho].
    + rewrite list_lookup_inserts_lt by done. rewrite lookup_app_l by (rewrite length_take; lia). by rewrite lookup_take_lt.
    + rewrite list_lookup_inserts by lia. rewrite lookup_app_r by (rewrite length_take; lia). f_equal. rewrite length_take. lia.
  - rewrite lookup_take_ge by lia. symmetry. apply lookup_ge_None. rewrite length_app, length_take. lia.
Qed.

Lemma pages_nonempty size offset entries : ∃ page rest, pages size offset entries = page :: rest.
Proof.
  revert offset. induction entries as [|e entries IH]; intros offset; cbn [pages]; [eauto|].
  destruct (_ <? _); [eauto|]. destruct (IH (offset + length (entry_bytes e))) as (page & rest & ->). eauto.
Qed.

Lemma GetPacket_at done cur rest offset : GetPacket (mkDirectoryEntryWriter (done ++ cur :: rest) (length done) offset) = Ret cur.
Proof. unfold GetPacket. cbn [dw_packets dw_packet]. by rewrite list_lookup_middle. Qed.

(** The entry goes behind those of the current packet. *)
Lemma add_entry_fits entry done cur rest offset : offset + length entry ≤ length cur →
  add_entry entry (mkDirectoryEntryWriter (done ++ cur :: rest) (length done) offset) =
  Ret (mkDirectoryEntryWriter (done ++ store offset entry cur :: rest) (length done) (offset + length entry)).
Proof.
  intros Hl. unfold add_entry. rewrite GetPacket_at. cbn [mbind res_bind dw_packets dw_packet dw_offset].
  rewrite (proj2 (Nat.ltb_ge _ _)) by lia. cbn [mbind res_bind dw_packets dw_packet dw_offset].
  rewrite GetPacket_at. cbn [mbind res_bind mret res_ret dw_packets dw_packet dw_offset]. by rewrite insert_app_r_alt, Nat.sub_diag by done.
Qed.

Lemma SetPayloadSize_at done cur rest offset :
  SetPayloadSize (mkDirectoryEntryWriter (done ++ cur :: rest) (length done) offset) =
  Ret (mkDirectoryEntryWriter (done ++ take offset cur :: rest) (length done) offset).
Proof.
  unfold SetPayloadSize. rewrite GetPacket_at. cbn [mbind res_bind mret res_ret dw_packets dw_packet dw_offset].
  by rewrite insert_app_r_alt, Nat.sub_diag by done.
Qed.

Lemma GetNextPacket_at done cur rest offset :
  GetNextPacket (mkDirectoryEntryWriter (done ++ cur :: rest) (length done) offset) =
  (if bool_decide (rest = []) then Err AssertFails
   else Ret (mkDirectoryEntryWriter ((done ++ [take offset cur]) ++ rest) (length (done ++ [take offset cur])) 0)).
Proof.
  unfold GetNextPacket. rewrite SetPayloadSize_at. cbn [mbind res_bind dw_packets dw_packet]. rewrite !length_app. cbn [length].
  case_bool_decide as E.
  - subst rest. cbn [length]. by rewrite (proj2 (Nat.eqb_eq _ _)) by lia.
  - rewrite (proj2 (Nat.eqb_neq _ _)) by (destruct rest; [done|cbn [length]; lia]). cbn. rewrite <- app_assoc. cbn. by rewrite Nat.add_1_r.
Qed.

(** Or it begins the next one, if there is one. *)
Lemma add_entry_turns entry done cur rest offset : length cur < offset + length entry → offset ≤ length cur →
  Forall (λ p, length entry ≤ length p) rest →
  add_entry entry (mkDirectoryEntryWriter (done ++ cur :: rest) (length done) offset) =
  match rest with
  | [] => Err AssertFails
  | next :: rest => Ret (mkDirectoryEntryWriter ((done ++ [take offset cur]) ++ store 0 entry next :: rest)
      (length (done ++ [take offset cur])) (length entry))
  end.
Proof.
  intros Hl Ho Hn. unfold add_entry. rewrite GetPacket_at. cbn [mbind res_bind dw_packets dw_packet dw_offset]. rewrite (proj2 (Nat.ltb_lt _ _)) by lia. rewrite SetPayloadSize_at. cbn [mbind res_bind].
  rewrite GetNextPacket_at, take_take, Nat.min_id. destruct rest as [|next rest]; [by rewrite bool_decide_true|].
  rewrite bool_decide_false by done. apply Forall_cons in Hn as [Hn _]. cbn [mbind res_bind].
  rewrite GetPacket_at. cbn [mbind res_bind].
  rewrite (proj2 (assert_that_ret _)) by (by apply Nat.leb_le). cbn [mbind res_bind dw_packets dw_packet dw_offset].
  rewrite GetPacket_at. cbn [mbind res_bind mret res_ret dw_packets dw_packet dw_offset]. by rewrite insert_app_r_alt, Nat.sub_diag by done.
Qed.

Lemma AddDirectoryEntryPlus_add e w : entry_ok e →
  AddDirectoryEntryPlus (en_name e) (en_nodeid e) (en_attr e) (en_off e) w =
  (w ← add_entry (entry_bytes e) w; mret (length (entry_bytes e), w)).
Proof.
  intros [Hn _ _ _]. unfold AddDirectoryEntryPlus, NullTerminatedName. rewrite (proj2 (assert_that_ret _)) by (apply Nat.leb_le; lia). done.
Qed.

(** The writer fills the packets as [pages] says; [written] are those that are full, and
    what is written of the current one. *)
Lemma add_all_pages size entries : ∀ done cur rest offset,
  length cur = size → Forall (λ p, length p = size) rest → offset ≤ size →
  Forall (λ e, entry_ok e ∧ length (entry_bytes e) ≤ size) entries →
  if length rest <? pred (length (pages size offset entries)) then
    add_all entries (mkDirectoryEntryWriter (done ++ cur :: rest) (length done) offset) = Err AssertFails
  else ∃ full cur' rest' offset',
    add_all entries (mkDirectoryEntryWriter (done ++ cur :: rest) (length done) offset) =
      Ret (mkDirectoryEntryWriter ((done ++ full) ++ cur' :: rest') (length (done ++ full)) offset') ∧
    length cur' = size ∧ offset' ≤ size ∧ length full + length rest' = length rest ∧
    length full = pred (length (pages size offset entries)) ∧
    full ++ [take offset' cur'] =
      match pages size offset entries with
      | [] => []
      | page :: rest => (take offset cur ++ bytes_of_entries page) :: (bytes_of_entries <$> rest)
      end.
Proof.
  induction entries as [|e entries IH]; intros done cur rest offset Hc Hr Ho He.
  { cbn. exists [], cur, rest, offset. by rewrite !app_nil_r. }
  apply Forall_cons in He as [[Hok Hsize] He]. cbn [add_all pages]. rewrite AddDirectoryEntryPlus_add by done.
  destruct (Nat.ltb_spec (size - offset) (length (entry_bytes e))) as [Hlt|Hge].
  - rewrite add_entry_turns; [|lia..|eapply Forall_impl; [exact Hr|cbn; lia]].
    destruct (pages_nonempty size (length (entry_bytes e)) entries) as (page & more & Hp).
    destruct rest as [|next rest]; [rewrite Hp; done|]. apply Forall_cons in Hr as [Hnext Hr]. cbn [mbind res_bind mret res_ret].
    specialize (IH (done ++ [take offset cur]) (store 0 (entry_bytes e) next) rest (length (entry_bytes e))).
    rewrite store_length in IH. specialize (IH Hnext Hr Hsize He). rewrite Hp in IH |- *. cbn [length pred] in IH |- *.
    change (S (length rest) <? S (length more)) with (length rest <? length more).
    destruct (_ <? _); [done|]. destruct IH as (full & cur' & rest' & offset' & E & Hc' & Ho' & Hlen & Hfl & Hfull).
    exists (take offset cur :: full), cur', rest', offset'. rewrite E.
    replace (done ++ take offset cur :: full) with ((done ++ [take offset cur]) ++ full) by (by rewrite <- app_assoc).
    split; [done|]. split; [done|]. split; [done|]. cbn [length]. split; [lia|]. split; [lia|].
    cbn [app]. rewrite Hfull. rewrite app_nil_r. cbn [bytes_of_entries mbind list_bind fmap list_fmap]. f_equal. f_equal.
    f_equal. rewrite <- (Nat.add_0_l (length (entry_bytes e))) at 1. rewrite take_store_app by lia. by rewrite take_0.
  - rewrite add_entry_fits by lia. cbn [mbind res_bind mret res_ret].
    destruct (pages_nonempty size (offset + length (entry_bytes e)) entries) as (page & more & Hp).
    specialize (IH done (store offset (entry_bytes e) cur) rest (offset + length (entry_bytes e))).
    rewrite store_length in IH. assert (Hle : offset + length (entry_bytes e) ≤ size) by lia. specialize (IH Hc Hr Hle He).
    rewrite Hp in IH |- *. cbn [length pred] in IH |- *. destruct (_ <? _); [done|].
    destruct IH as (full & cur' & rest' & offset' & E & Hc' & Ho' & Hlen & Hfl & Hfull).
    exists full, cur', rest', offset'. do 5 (split; [done|]). rewrite Hfull. f_equal.
    rewrite take_store_app by lia. cbn. by rewrite <- app_assoc.
Qed.

(** The packets of the answer: the entries in their order, a page each. *)
Lemma listing_written size packets entries :
  Forall (λ p, length p = size) packets → Forall (λ e, entry_ok e ∧ length (entry_bytes e) ≤ size) entries →
  if length packets <=? length (pages size 0 entries) then
    packets ≠ [] → (w ← add_all entries (make packets); GetWritedPackets w) = Err AssertFails
  else ∃ rest, (w ← add_all entries (make packets); GetWritedPackets w) =
      Ret (bytes_of_entries <$> pages size 0 entries, make rest) ∧
    length (pages size 0 entries) + length rest = length packets ∧ rest ≠ [].
Proof.
  intros Hp He. destruct packets as [|cur rest].
  { destruct (pages_nonempty size 0 entries) as (page & more & ->). cbn. done. }
  apply Forall_cons in Hp as [Hc Hr]. pose proof (add_all_pages size entries [] cur rest 0 Hc Hr (Nat.le_0_l _) He) as Hall.
  cbn [app length] in Hall. destruct (pages_nonempty size 0 entries) as (page & more & Hpg). rewrite Hpg in *. cbn [length pred] in *.
  unfold make. destruct (Nat.ltb_spec (length rest) (length more)) as [Hlt|Hge].
  { rewrite (proj2 (Nat.leb_le _ _)) by lia. intros _. by rewrite Hall. }
  destruct Hall as (full & cur' & rest' & offset' & E & Hc' & Ho' & Hlen & Hfl & Hfull). rewrite E. cbn [mbind res_bind].
  unfold GetWritedPackets. rewrite GetNextPacket_at. destruct (decide (rest' = [])) as [->|Hne].
  - rewrite bool_decide_true by done. cbn [length] in Hlen. rewrite (proj2 (Nat.leb_le _ _)) by lia. done.
  - rewrite bool_decide_false by done. destruct rest' as [|next rest']; [done|]. cbn [length] in Hlen.
    rewrite (proj2 (Nat.leb_gt _ _)) by lia. exists (next :: rest'). cbn [mbind res_bind mret res_ret dw_packet dw_packets dw_offset].
    rewrite take_app_length, drop_app_length. split; [|cbn [length]; split; [lia|done]].
    rewrite Hfull. by rewrite take_0.
Qed.

End Writing.

(** ** What the walk reads *)

Section Walking.
Context `{FuseDirentLaws}.

(** The bytes of an entry. *)
Record wire_entry (b : list Z) (e : entry) : Prop := {
  wire_length : length b = padded (offsetof_name + length (bytes_of (en_name e)));
  wire_named : 0 < length (bytes_of (en_name e));
  wire_namelen : field offsetof_namelen 4 b = Z.of_nat (length (bytes_of (en_name e)));
  wire_name : slice offsetof_name (length (bytes_of (en_name e))) b = bytes_of (en_name e);
  wire_nodeid : field offsetof_nodeid 8 b = en_nodeid e;
  wire_size : field offsetof_size 8 b = st_size (en_attr e);
  wire_mode : field offsetof_mode 4 b = st_mode (en_attr e);
}.

Lemma entry_wire e : entry_ok e → wire_entry (entry_bytes e) e.
Proof.
  intros [Hn Hi Hs Hm]. unfold entry_bytes. split.
  - apply direntry_plus_length.
  - lia.
  - rewrite direntry_plus_namelen. apply wrap_small. unfold NAME_MAX in Hn. lia.
  - apply direntry_plus_name.
  - rewrite direntry_plus_nodeid. by apply wrap_small.
  - rewrite direntry_plus_size. by apply wrap_small.
  - rewrite direntry_plus_mode. by apply wrap_small.
Qed.

Lemma wire_long b e : wire_entry b e → offsetof_name + length (bytes_of (en_name e)) ≤ length b.
Proof. intros W. rewrite (wire_length _ _ W). apply padded_le. Qed.

Lemma slice_app_l {A} offset n (b rest : list A) : offset + n ≤ length b → slice offset n (b ++ rest) = slice offset n b.
Proof. intros Hl. unfold slice. rewrite drop_app_le by lia. rewrite take_app_le by (rewrite length_drop; lia). done. Qed.

(** Reading an entry that is followed by others. *)
Lemma read_entry_app b e rest : wire_entry b e →
  field offsetof_namelen 4 (b ++ rest) = Z.of_nat (length (bytes_of (en_name e))) ∧
  read_entry (length (bytes_of (en_name e))) (b ++ rest) =
    mkEntry (en_name e) (en_nodeid e) (mkAttributes (st_mode (en_attr e)) 0 (st_size (en_attr e)) 0 0 0) 0.
Proof.
  intros W. pose proof (wire_long _ _ W) as Hl. destruct layout_apart as (L1 & L2 & L3 & L4 & L5 & L6). pose proof layout_name.
  unfold read_entry, field. rewrite !slice_app_l by lia. split; [apply (wire_namelen _ _ W)|].
  rewrite (wire_name _ _ W), string_of_bytes. f_equal; [apply (wire_nodeid _ _ W)|].
  f_equal; [apply (wire_mode _ _ W)|apply (wire_size _ _ W)].
Qed.

Lemma store_app_l offset (src b rest : list Z) : offset + length src ≤ length b → store offset src (b ++ rest) = store offset src b ++ rest.
Proof.
  unfold store. revert offset. induction src as [|x src IH]; intros offset Hl; [done|]. cbn [length list_inserts] in *.
  rewrite IH by lia. rewrite insert_app_l; [done|]. rewrite length_inserts. lia.
Qed.

Lemma store_app_r offset (src pre b : list Z) : store (length pre + offset) src (pre ++ b) = pre ++ store offset src b.
Proof. apply list_inserts_app_r. Qed.

Lemma patch_app pre b rest ino e : wire_entry b e →
  patch (length pre) ino (pre ++ b ++ rest) = pre ++ patch 0 ino b ++ rest.
Proof.
  intros W. pose proof (wire_long _ _ W) as Hl. destruct layout_apart as (L1 & L2 & L3 & L4 & L5 & L6). pose proof layout_name.
  unfold patch. cbn [Nat.add]. rewrite !store_app_r. rewrite !store_app_l by (rewrite ?store_length, length_le_split; lia). done.
Qed.

Lemma field_store_eq offset n ino b : offset + n ≤ length b → field offset n (store offset (le_split n ino) b) = wrap (8 * Z.of_nat n) ino.
Proof.
  intros Hl. unfold field. rewrite <- (length_le_split n ino) at 1. unfold store.
  rewrite slice_inserts_eq by (rewrite length_le_split; lia). apply le_combine_split.
Qed.
Lemma field_store_ne offset n offset' src b : (offset + n ≤ offset' ∨ offset' + length src ≤ offset) → field offset n (store offset' src b) = field offset n b.
Proof. intros Hl. unfold field, store. by rewrite slice_inserts_ne. Qed.

Definition with_nodeid (ino : Z) (e : entry) : entry := mkEntry (en_name e) ino (en_attr e) (en_off e).

Lemma patch_wire ino b e : wire_entry b e → wire_entry (patch 0 ino b) (with_nodeid (u64 ino) e).
Proof.
  intros W. pose proof (wire_long _ _ W) as Hl. destruct layout_apart as (L1 & L2 & L3 & L4 & L5 & L6). pose proof layout_name.
  destruct W as [W1 W2 W3 W4 W5 W6 W7]. unfold patch. cbn [Nat.add]. split; cbn [with_nodeid en_name en_nodeid en_attr].
  - by rewrite !store_length.
  - done.
  - rewrite !field_store_ne by (rewrite ?length_le_split; lia). done.
  - unfold store. rewrite !slice_inserts_ne by (rewrite length_le_split; lia). done.
  - rewrite !(field_store_ne offsetof_nodeid) by (rewrite ?length_le_split; lia). apply (field_store_eq offsetof_nodeid 8). lia.
  - rewrite !field_store_ne by (rewrite ?length_le_split; lia). done.
  - rewrite !field_store_ne by (rewrite ?length_le_split; lia). done.
Qed.

(** An entry whose three inodes are the same. *)
Definition one_inode (b : list Z) (e : entry) : Prop :=
  wire_entry b e ∧ field offsetof_attr_ino 8 b = en_nodeid e ∧ field offsetof_ino 8 b = en_nodeid e.

Lemma patch_one_inode ino b e : wire_entry b e → one_inode (patch 0 ino b) (with_nodeid (u64 ino) e).
Proof.
  intros W. split; [by apply patch_wire|].
  pose proof (wire_long _ _ W) as Hl. destruct layout_apart as (L1 & L2 & L3 & L4 & L5 & L6). pose proof layout_name.
  unfold patch. cbn [Nat.add with_nodeid en_nodeid]. split.
  - rewrite (field_store_ne offsetof_attr_ino 8 offsetof_ino) by (rewrite ?length_le_split; lia).
    apply (field_store_eq offsetof_attr_ino 8). rewrite store_length. lia.
  - apply (field_store_eq offsetof_ino 8). rewrite !store_length. lia.
Qed.

(** What is read of an entry is all that [ResolveClientInode] looks at. *)
Lemma ResolveClientInode_read {P J} `{!IPacket P} (alloc : FileTree P J → Z) i leaf e t :
  Client.ResolveClientInode alloc i leaf (mkEntry (en_name e) (en_nodeid e) (mkAttributes (st_mode (en_attr e)) 0 (st_size (en_attr e)) 0 0 0) 0) t =
  Client.ResolveClientInode alloc i leaf e t.
Proof. done. Qed.

Definition patched (bs : list (list Z)) (inodes : list (string * Z)) : list (list Z) := zip_with (λ b i, patch 0 i.2 b) bs inodes.

Lemma Populate_length {P J} `{!IPacket P} (alloc : FileTree P J → Z) i leaf es : ∀ t t' inodes,
  Client.PopulateTreeAndPatchInodes alloc i leaf es t = Ret (t', inodes) → inodes.*1 = en_name <$> es.
Proof.
  induction es as [|e es IH]; intros t t' inodes E; cbn [Client.PopulateTreeAndPatchInodes] in E.
  - by injection E as <- <-.
  - apply bind_ret in E as ((t1 & ino) & E1 & E). apply bind_ret in E as ((t2 & rest) & E2 & E). injection E as <- <-.
    cbn. f_equal. by eapply IH.
Qed.

(** The walk over a packet is the walk over its entries. *)
Lemma populate_loop_entries {P J} `{!IPacket P} (alloc : FileTree P J → Z) i leaf bs es : Forall2 wire_entry bs es →
  ∀ pre t fuel, length (concat bs) ≤ fuel →
  populate_loop alloc fuel i leaf (length pre) (pre ++ concat bs) t =
  ('(t, inodes) ← Client.PopulateTreeAndPatchInodes alloc i leaf es t; mret (t, pre ++ concat (patched bs inodes))).
Proof.
  induction 1 as [|b e bs es W HW IH]; intros pre t fuel Hf.
  - cbn [concat] in *. rewrite app_nil_r. destruct fuel; cbn [populate_loop];
      rewrite (proj2 (Nat.ltb_ge _ _)) by done; cbn; by rewrite app_nil_r.
  - cbn [concat] in *. pose proof (wire_long _ _ W) as Hl. pose proof (wire_named _ _ W) as Hnm. pose proof layout_name as Hln.
    destruct fuel as [|fuel]; [rewrite length_app in Hf; lia|]. cbn [populate_loop Client.PopulateTreeAndPatchInodes].
    rewrite (proj2 (Nat.ltb_lt _ _)) by (rewrite !length_app; lia). rewrite drop_app_length.
    rewrite (proj2 (Nat.ltb_ge _ _)) by (rewrite length_app; lia).
    destruct (read_entry_app b e (concat bs) W) as [En Er]. rewrite En, Nat2Z.id.
    rewrite (proj2 (Nat.eqb_neq _ _)) by lia. rewrite (proj2 (Nat.ltb_ge _ _)) by (rewrite length_app; lia). cbn [orb].
    rewrite Er, ResolveClientInode_read. destruct (Client.ResolveClientInode alloc i leaf e t) as [[t1 ino]|]; [|done]. cbn [mbind res_bind].
    rewrite (patch_app _ _ _ _ _ W). rewrite <- (wire_length _ _ W).
    replace (length pre + length b) with (length (pre ++ patch 0 ino b)).
    2: { rewrite length_app. f_equal. unfold patch. by rewrite !store_length. }
    rewrite app_assoc. rewrite (IH (pre ++ patch 0 ino b) t1 fuel) by (rewrite length_app in Hf; lia).
    destruct (Client.PopulateTreeAndPatchInodes alloc i leaf es t1) as [[t2 inodes]|]; [|done]. cbn.
    by rewrite <- app_assoc.
Qed.

Lemma Forall2_entries es : Forall entry_ok es → Forall2 wire_entry (entry_bytes <$> es) es.
Proof. intros Hok. apply Forall2_fmap_l, Forall_Forall2_diag. eapply Forall_impl; [exact Hok|]. cbn. intros e. apply entry_wire. Qed.

Lemma Populate_app {P J} `{!IPacket P} (alloc : FileTree P J → Z) i leaf es es' t :
  Client.PopulateTreeAndPatchInodes alloc i leaf (es ++ es') t =
  ('(t, l) ← Client.PopulateTreeAndPatchInodes alloc i leaf es t;
   '(t, l') ← Client.PopulateTreeAndPatchInodes alloc i leaf es' t; Ret (t, l ++ l')).
Proof.
  revert t. induction es as [|e es IH]; intros t; cbn [Client.PopulateTreeAndPatchInodes app].
  - cbn. by destruct (Client.PopulateTreeAndPatchInodes alloc i leaf es' t) as [[]|].
  - destruct (Client.ResolveClientInode _ _ _ _ _) as [[t1 ino]|]; [|done]. cbn [mbind res_bind]. rewrite IH.
    destruct (Client.PopulateTreeAndPatchInodes alloc i leaf es t1) as [[t2 l]|]; [|done]. cbn [mbind res_bind].
    by destruct (Client.PopulateTreeAndPatchInodes alloc i leaf es' t2) as [[]|].
Qed.

(** What the kernel reads of entries in a row. *)
Lemma entries_in_wire bs es : Forall2 one_inode bs es → ∀ fuel, length (concat bs) ≤ fuel →
  entries_in fuel (concat bs) = (λ e, mkKernelEntry (en_name e) (en_nodeid e) (en_nodeid e) (en_nodeid e)
    (st_size (en_attr e)) (st_mode (en_attr e))) <$> es.
Proof.
  induction 1 as [|b e bs es (W & Wa & Wi) HW IH]; intros fuel Hf.
  - destruct fuel; [done|]. cbn [concat entries_in fmap list_fmap]. destruct layout_apart as (_ & _ & _ & _ & _ & L6).
    rewrite (proj2 (Nat.ltb_lt _ _)); [done|cbn [length]; lia].
  - cbn [concat] in *. pose proof (wire_long _ _ W) as Hl. pose proof (wire_named _ _ W) as Hnm. pose proof layout_name as Hln.
    destruct layout_apart as (L1 & L2 & L3 & L4 & L5 & L6).
    destruct fuel as [|fuel]; [rewrite length_app in Hf; lia|]. cbn [entries_in].
    rewrite (proj2 (Nat.ltb_ge _ _)) by (rewrite length_app; lia).
    destruct (read_entry_app b e (concat bs) W) as [En Er]. rewrite En, Nat2Z.id. injection Er as E1 E2 E3 E4.
    assert (E5 : field offsetof_attr_ino 8 (b ++ concat bs) = en_nodeid e) by (unfold field; rewrite slice_app_l by lia; exact Wa).
    assert (E6 : field offsetof_ino 8 (b ++ concat bs) = en_nodeid e) by (unfold field; rewrite slice_app_l by lia; exact Wi).
    rewrite E1, E2, E3, E4, E5, E6, <- (wire_length _ _ W), drop_app_length. cbn. f_equal. apply IH. rewrite length_app in Hf. lia.
Qed.

Lemma patched_wire bs es inodes : Forall2 wire_entry bs es → inodes.*1 = en_name <$> es →
  Forall2 one_inode (patched bs inodes) (zip_with (λ e i, with_nodeid (u64 i.2) e) es inodes).
Proof.
  intros HW. revert inodes. induction HW as [|b e bs es W HW IH]; intros [|[x ino] inodes] E; try done; cbn in *.
  injection E as -> E. constructor; [by apply patch_one_inode|by apply IH].
Qed.

Lemma with_nodeids es inodes :
  (λ e, mkKernelEntry (en_name e) (en_nodeid e) (en_nodeid e) (en_nodeid e) (st_size (en_attr e)) (st_mode (en_attr e))) <$>
    zip_with (λ e i, with_nodeid (u64 i.2) e) es inodes = zip_with kernel_sees es inodes.
Proof. revert inodes. induction es as [|e es IH]; intros [|i inodes]; try done. cbn in *. f_equal. by apply IH. Qed.

(** The packets of pages. *)
Lemma populate_packets_pages {P J} `{!IPacket P} (alloc : FileTree P J → Z) i leaf ps : ∀ t t' inodes,
  Forall (Forall entry_ok) ps → Client.PopulateTreeAndPatchInodes alloc i leaf (concat ps) t = Ret (t', inodes) →
  ∃ data, populate_packets alloc i leaf (bytes_of_entries <$> ps) t = Ret (t', data) ∧
    kernel_reads data = zip_with kernel_sees (concat ps) inodes.
Proof.
  induction ps as [|page ps IH]; intros t t' inodes Hok E; cbn [concat] in E.
  { injection E as <- <-. by exists []. }
  apply Forall_cons in Hok as [Hp Hps]. rewrite Populate_app in E.
  apply bind_ret in E as ((t1 & l) & E1 & E). apply bind_ret in E as ((t2 & l') & E2 & E). injection E as <- <-.
  destruct (IH _ _ _ Hps E2) as (data & Ed & Hd). pose proof (Forall2_entries _ Hp) as HW. pose proof (Populate_length _ _ _ _ _ _ _ E1) as Hl.
  exists (concat (patched (entry_bytes <$> page) l) :: data). cbn [fmap list_fmap populate_packets].
  assert (Hb : bytes_of_entries page = concat (entry_bytes <$> page)) by (unfold bytes_of_entries; by rewrite list_bind_alt || (clear; induction page; cbn; congruence)).
  unfold PopulateTreeAndPatchInodes. rewrite Hb.
  pose proof (populate_loop_entries alloc i leaf _ _ HW [] t (length (concat (entry_bytes <$> page))) (le_n _)) as Hw.
  cbn [length app] in Hw. rewrite Hw, E1. cbn [mbind res_bind mret res_ret].
  rewrite Ed. split; [done|]. unfold kernel_reads in *. cbn [mbind list_bind concat].
  rewrite zip_with_app by (apply (f_equal length) in Hl; by rewrite !length_fmap in Hl). rewrite <- Hd. f_equal.
  rewrite (entries_in_wire _ _ (patched_wire _ _ _ HW Hl) _ (le_n _)). apply with_nodeids.
Qed.

Lemma pages_concat size entries : ∀ offset, concat (pages size offset entries) = entries.
Proof.
  induction entries as [|e entries IH]; intros offset; [done|]. cbn [pages].
  destruct (_ <? _).
  - destruct (pages_nonempty size (length (entry_bytes e)) entries) as (page & rest & E). specialize (IH (length (entry_bytes e))).
    rewrite E in *. cbn in *. by rewrite IH.
  - destruct (pages_nonempty size (offset + length (entry_bytes e)) entries) as (page & rest & E). specialize (IH (offset + length (entry_bytes e))).
    rewrite E in *. cbn in *. by rewrite IH.
Qed.

(** C36: A listing goes from the server to the kernel: the entries that the server writes into
    packets are those the client walks over, in their order, whatever packets they fall
    into, and the kernel reads them in that order, with their names, sizes and modes, and
    with the inode of the client in all three places where an entry has one.  When there
    are not enough packets for them an assertion of the server fails. *)
Theorem listing_roundtrip {P J} `{!IPacket P} (alloc : FileTree P J → Z) i leaf size packets entries t t' inodes :
  Forall (λ p, length p = size) packets → packets ≠ [] → Forall (λ e, entry_ok e ∧ length (entry_bytes e) ≤ size) entries →
  Client.PopulateTreeAndPatchInodes alloc i leaf entries t = Ret (t', inodes) →
  if length packets <=? length (pages size 0 entries) then
    (w ← add_all entries (make packets); GetWritedPackets w) = Err AssertFails
  else ∃ data rest data',
    (w ← add_all entries (make packets); GetWritedPackets w) = Ret (data, make rest) ∧
    length data + length rest = length packets ∧
    populate_packets alloc i leaf data t = Ret (t', data') ∧
    kernel_reads data' = zip_with kernel_sees entries inodes ∧ inodes.*1 = en_name <$> entries.
Proof.
  intros Hp Hne He E. pose proof (listing_written size packets entries Hp He) as Hw.
  destruct (_ <=? _); [by apply Hw|]. destruct Hw as (rest & Ew & Hl & _).
  assert (Hok : Forall (Forall entry_ok) (pages size 0 entries)).
  { apply Forall_forall. intros page Hpage. apply Forall_forall. intros e Hin. rewrite Forall_forall in He.
    apply He. rewrite <- (pages_concat size entries 0). apply list_elem_of_In, in_concat. exists page. by rewrite <- !list_elem_of_In. }
  pose proof (Populate_length _ _ _ _ _ _ _ E) as Hnames.
  rewrite <- (pages_concat size entries 0) in E. destruct (populate_packets_pages alloc i leaf _ _ _ _ Hok E) as (data' & Ed & Hk).
  rewrite pages_concat in Hk. exists (bytes_of_entries <$> pages size 0 entries), rest, data'. rewrite length_fmap. done.
Qed.

End Walking.

(** ** Linux

    The layout of [struct fuse_direntplus], as libfuse fills it: a [fuse_entry_out] with
    its [fuse_attr], a [fuse_dirent], the name, and zeros up to a multiple of 8. *)

Definition direntplus_head (ino : Z) (attr : attributes) (off namelen : Z) : list Z :=
  le_split 8 ino ++ le_split 8 0 ++ le_split 8 1 ++ le_split 8 1 ++ le_split 4 0 ++ le_split 4 0 ++
  le_split 8 ino ++ le_split 8 (st_size attr) ++ le_split 8 0 ++ le_split 8 0 ++ le_split 8 (st_mtim attr) ++ le_split 8 0 ++
  le_split 4 0 ++ le_split 4 0 ++ le_split 4 0 ++ le_split 4 (st_mode attr) ++ le_split 4 (st_nlink attr) ++
  le_split 4 (st_uid attr) ++ le_split 4 (st_gid attr) ++ le_split 4 0 ++ le_split 4 0 ++ le_split 4 0 ++
  le_split 8 ino ++ le_split 8 off ++ le_split 4 namelen ++ le_split 4 0.

Definition with_name (head : list Z) (name : string) : list Z :=
  let n := length head + length (bytes_of name) in head ++ bytes_of name ++ replicate (padded n - n) 0%Z.

#[export] Instance linux : FuseDirent := {|
  fuse_add_direntry name ino mode off :=
    with_name (le_split 8 ino ++ le_split 8 off ++ le_split 4 (Z.of_nat (length (bytes_of name))) ++ le_split 4 (Z.shiftr (Z.land mode S_IFMT) 12)) name;
  fuse_add_direntry_plus name ino attr off := with_name (direntplus_head ino attr off (Z.of_nat (length (bytes_of name)))) name;
  sizeof_direntplus := 152;
  offsetof_name := 152;
  offsetof_nodeid := 0;
  offsetof_attr_ino := 40;
  offsetof_size := 48;
  offsetof_mode := 100;
  offsetof_ino := 128;
  offsetof_namelen := 144;
|}.

Lemma head_field offset n z ino attr off namelen name :
  slice offset n (direntplus_head ino attr off namelen) = le_split n z → offset + n ≤ 152 →
  field offset n (with_name (direntplus_head ino attr off namelen) name) = wrap (8 * Z.of_nat n) z.
Proof.
  intros E Hl. unfold field, with_name. rewrite slice_app_l by exact Hl. rewrite E. apply le_combine_split.
Qed.

#[export] Instance linux_laws : FuseDirentLaws.
Proof.
  split; cbn [fuse_add_direntry_plus sizeof_direntplus offsetof_name offsetof_nodeid offsetof_attr_ino offsetof_size offsetof_mode
    offsetof_ino offsetof_namelen linux]; intros.
  - lia.
  - done.
  - unfold with_name. rewrite !length_app, length_replicate. change (length (direntplus_head _ _ _ _)) with 152.
    pose proof (padded_le (152 + length (bytes_of name))). lia.
  - apply (head_field 0 8); [done|lia].
  - apply (head_field 48 8); [done|lia].
  - apply (head_field 100 4); [done|lia].
  - apply (head_field 144 4); [done|lia].
  - unfold slice, with_name. change 152 with (length (direntplus_head ino attr off (Z.of_nat (length (bytes_of name))))).
    by rewrite drop_app_length, take_app_length.
Qed.

(** ** The theorem at work *)

(** A directory of the client with nothing below it learns two names. *)
Definition sample_tree : FileTree Packet unit := FileTree.make "mnt" 64.
Definition sample_alloc (t : FileTree Packet unit) : Z := 1000 + Z.of_nat (size (ft_leaves t)).
Definition sample_entries : list entry :=
  [mkEntry "." 1 no_attributes 1; mkEntry "src" 500 (mkAttributes 16877 2 0 0 0 0) 3;
   mkEntry "README" 504 (mkAttributes 33188 1 77 0 0 0) 4].

Definition sample_inodes : list (string * Z) := [("."%string, 1%Z); ("src"%string, 1001%Z); ("README"%string, 1002%Z)].

Lemma sample_entries_ok : Forall (λ e, entry_ok e ∧ length (entry_bytes e) ≤ 200) sample_entries.
Proof. repeat constructor; vm_compute; done || lia. Qed.

Definition sample_packets : list payload := replicate 5 (replicate 200 0%Z).
Definition sample_filled : FileTree Packet unit := Eval vm_compute in
  (from_res (sample_tree, []) (Client.PopulateTreeAndPatchInodes sample_alloc 1 64 sample_entries sample_tree)).1.

Lemma sample_populated :
  Client.PopulateTreeAndPatchInodes sample_alloc 1 64 sample_entries sample_tree = Ret (sample_filled, sample_inodes).
Proof. by vm_compute. Qed.

Lemma listing_roundtrip_witness : ∃ data rest data',
  (w ← add_all sample_entries (make sample_packets); GetWritedPackets w) = Ret (data, make rest) ∧
  length data + length rest = 5 ∧
  populate_packets sample_alloc 1 64 data sample_tree = Ret (sample_filled, data') ∧
  kernel_reads data' = [mkKernelEntry "." 1 1 1 0 0; mkKernelEntry "src" 1001 1001 1001 0 16877;
    mkKernelEntry "README" 1002 1002 1002 77 33188] ∧ sample_inodes.*1 = en_name <$> sample_entries.
Proof.
  assert (Hroom : (length sample_packets <=? length (pages 200 0 sample_entries)) = false) by reflexivity.
  pose proof (listing_roundtrip sample_alloc 1 64 200 sample_packets sample_entries sample_tree sample_filled sample_inodes) as Hw.
  rewrite Hroom in Hw. apply Hw.
  - apply Forall_replicate. reflexivity.
  - discriminate.
  - exact sample_entries_ok.
  - exact sample_populated.
Defined.

(** ** What the code does not do *)

(** [GetPackets] gives the packet behind the last entry the payload size 0 and returns it
    among the free ones.  Nobody gives it its size back: a message that begins with it is
    written out of its bounds. *)
Theorem listing_leaves_empty_packet `{FuseDirent} size packets entries data w b bs others :
  Forall (λ p, length p = size) packets → Forall (λ e, entry_ok e ∧ length (entry_bytes e) ≤ size) entries →
  packets ≠ [] → (w ← add_all entries (make packets); GetWritedPackets w) = Ret (data, w) →
  ∃ rest, GetPackets w = Ret ([] :: rest) ∧
    MessageWriter.write (b :: bs) (MessageWriter.make (([] :: rest) ++ others)) = Err Undefined.
Proof.
  intros Hp He Hne E. pose proof (listing_written size packets entries Hp He) as Hw. destruct (_ <=? _).
  { rewrite Hw in E by done. done. }
  destruct Hw as (rest & Ew & _ & Hr). rewrite Ew in E. injection E as _ <-. destruct rest as [|p rest]; [done|].
  exists rest. split; [done|]. done.
Qed.
