(* ===== verification/Watcher.v ===== *)
(** * Watching the served directory
    [FileSystem/src/InotifyWatcher.cpp]: which directories are watched, what the events of
    inotify are taken for, and [Protocol/src/InotifyWatcherJob.cpp], which gives them to
    the main queue.

    The disk changes while the watcher works: both are one machine here, [run] executes a
    change of the disk, or the next turn of the watcher.  A path is relative to the root. *)
From stdpp Require Import functions.
From S2P Require Import Prelude Packet Leaf FileTree Messages Names.
Import Names.Server.
Local Open Scope Z_scope.

Abbreviation path := (list string).

(** ** Events of inotify *)

Definition IN_MODIFY : Z := 2.
Definition IN_ATTRIB : Z := 4.
Definition IN_CLOSE_WRITE : Z := 8.
Definition IN_MOVED_FROM : Z := 64.
Definition IN_MOVED_TO : Z := 128.
Definition IN_CREATE : Z := 256.
Definition IN_DELETE : Z := 512.
Definition IN_IGNORED : Z := 32768.
Definition IN_ISDIR : Z := 1073741824.

Definition WatchMask : Z :=
  Z.lor IN_MODIFY (Z.lor IN_CLOSE_WRITE (Z.lor IN_CREATE (Z.lor IN_DELETE (Z.lor IN_MOVED_FROM (Z.lor IN_MOVED_TO IN_ATTRIB))))).

(** [name] is empty when [len] is 0. *)
Record inotify_event := mkEvent { ie_wd : Z; ie_mask : Z; ie_name : string }.

#[export] Instance inotify_event_eq_dec : EqDecision inotify_event.
Proof. solve_decision. Defined.

Definition has (bits : Z) (event : inotify_event) : bool := negb (Z.land (ie_mask event) bits =? 0).

(** ** The watcher *)

Module InotifyWatcher.

Record InotifyWatcher := mkInotifyWatcher {
  iw_wdToPath : gmap Z path;
  iw_pathToWd : gmap path Z;
}.
Implicit Types (w : InotifyWatcher).

Definition make : InotifyWatcher := mkInotifyWatcher ∅ ∅.

(** A turn of [AddWatch]: [watchDesc] is what [inotify_add_watch] returned for [dir],
    [None] for an error.  The directories in it are looked for then. *)
Definition AddWatch_turn (dir : path) (watchDesc : option Z) w : InotifyWatcher :=
  match watchDesc with
  | None => w
  | Some wd => mkInotifyWatcher (<[wd := dir]> (iw_wdToPath w)) (<[dir := wd]> (iw_pathToWd w))
  end.

(** [RemoveWatch], and whether it calls [inotify_rm_watch]. *)
Definition RemoveWatch (wd : Z) w : bool * InotifyWatcher :=
  match iw_wdToPath w !! wd with
  | None => (false, w)
  | Some dir => (true, mkInotifyWatcher (delete wd (iw_wdToPath w)) (delete dir (iw_pathToWd w)))
  end.

Definition event_type (event : inotify_event) : option WatchEventType :=
  if has (Z.lor (Z.lor IN_MODIFY IN_CLOSE_WRITE) IN_ATTRIB) event then Some Modified
  else if has IN_CREATE event then Some Created
  else if has IN_DELETE event then Some Deleted
  else if has IN_MOVED_FROM event then Some MovedFrom
  else if has IN_MOVED_TO event then Some MovedTo
  else None.

(** What [ProcessEvent] does: a directory to be watched, a watch to be removed, and the
    event for the callback. *)
Record processed := mkProcessed {
  pr_watcher : InotifyWatcher;
  pr_add : option path;
  pr_remove : option Z;
  pr_callback : option WatchEvent;
}.

Definition ProcessEvent (event : inotify_event) w : processed :=
  match iw_wdToPath w !! ie_wd event with
  | None => mkProcessed w None None None
  | Some dir =>
      if has IN_IGNORED event then
        mkProcessed (mkInotifyWatcher (delete (ie_wd event) (iw_wdToPath w)) (delete dir (iw_pathToWd w))) None None None
      else
        let isDir := has IN_ISDIR event in
        let name := ie_name event in
        let fullPath := if bool_decide (name = "") then dir else dir ++ [name] in
        let callback := (λ type, mkWatchEvent fullPath name type isDir) <$> event_type event in
        if has IN_CREATE event && isDir then mkProcessed w (Some fullPath) None callback
        else if has (Z.lor IN_DELETE IN_MOVED_FROM) event && isDir then
          match iw_pathToWd w !! fullPath with
          | None => mkProcessed w None None callback
          | Some wd =>
              let '(removed, w) := RemoveWatch wd w in
              mkProcessed w None (if removed then Some wd else None) callback
          end
        else mkProcessed w None None callback
  end.

(** Where the thread is: in [poll], or in [AddWatch], with the directories still to be
    watched and what follows, or between [inotify_add_watch] and the iteration of a
    directory. *)
Inductive place :=
  | Polling
  | Adding (queue : list path) (callback : option WatchEvent)
  | Iterating (dir : path) (queue : list path) (callback : option WatchEvent).

End InotifyWatcher.
Import InotifyWatcher.

(** ** The disk, inotify and the watcher *)

(** A change of the disk: of a name, or of the attributes of a directory. *)
Inductive change :=
  | Change (p : path) (type : WatchEventType)
  | Attributes (p : path).

(** What there is to be told of a change.  [WatchMask] asks for [IN_ATTRIB], which inotify
    tells of a directory twice: to the watch of its parent, with its name, and to its own,
    with no name.  The root has no parent that is watched. *)
Definition tellings (c : change) : list (path * WatchEventType) :=
  match c with
  | Change p type => [(p, type)]
  | Attributes [] => [([], Modified)]
  | Attributes p => [(p, Modified); (p, Modified)]
  end.

(** Directories have an inode; the kernel watches inodes, and queues events. *)
Record System := mkSystem {
  sy_dirs : gmap path Z;
  sy_next : Z;                    (* the next inode *)
  sy_watches : gmap Z Z;          (* the watch of an inode *)
  sy_nextWd : Z;
  sy_events : list inotify_event;
  sy_watcher : InotifyWatcher;
  sy_place : place;
  sy_reported : list WatchEvent;
  (* the history: names that were used, changes that happened, whether a directory was
     moved, or the name of a directory used again *)
  sy_used : gset path;
  sy_happened : list change;
  sy_moved : bool;
  sy_reused : bool;
}.
Implicit Types (s : System).

(** The watch on the directory at a path. *)
Definition watch_at (p : path) s : option Z := i ← sy_dirs s !! p; sy_watches s !! i.

(** The event of a change of [name] in the directory [p]. *)
Definition notify (p : path) (mask : Z) (name : string) s : list inotify_event :=
  match watch_at p s with Some wd => [mkEvent wd mask name] | None => [] end.

Definition subdirectories (p : path) s : list path :=
  filter (λ q, removelast q = p ∧ q ≠ []) (map_to_list (sy_dirs s)).*1.

(** What can happen; [first] says whether the event of a removed directory's own watch
    comes before that of its parent. *)
Inductive command :=
  | Mkdir (p : path) (name : string)
  | Rmdir (p : path) (name : string) (first : bool)
  | ChangeFile (p : path) (name : string) (mask : Z) (type : WatchEventType)
  | ChangeDir (p : path)
  | MoveDir (p : path) (name : string) (p' : path) (name' : string)
  | Turn.

Definition disk_changed (dirs : gmap path Z) (next : Z) (watches : gmap Z Z) (events : list inotify_event)
    (used : gset path) (happened : list change) (moved reused : bool) s : System :=
  mkSystem dirs next watches (sy_nextWd s) (sy_events s ++ events) (sy_watcher s) (sy_place s) (sy_reported s)
    used (sy_happened s ++ happened) moved reused.

Definition mkdir (p : path) (name : string) s : System :=
  let q := p ++ [name] in
  disk_changed (<[q := sy_next s]> (sy_dirs s)) (sy_next s + 1) (sy_watches s) (notify p (Z.lor IN_CREATE IN_ISDIR) name s)
    ({[q]} ∪ sy_used s) [Change q Created] (sy_moved s) (sy_reused s || bool_decide (q ∈ sy_used s)) s.

Definition rmdir (p : path) (name : string) (i : Z) (first : bool) s : System :=
  let q := p ++ [name] in
  let ignored := match sy_watches s !! i with Some wd => [mkEvent wd IN_IGNORED ""] | None => [] end in
  let deleted := notify p (Z.lor IN_DELETE IN_ISDIR) name s in
  disk_changed (delete q (sy_dirs s)) (sy_next s) (delete i (sy_watches s))
    (if first then ignored ++ deleted else deleted ++ ignored)
    (sy_used s) [Change q Deleted] (sy_moved s) (sy_reused s) s.

(** The attributes of a directory change: the event goes to the watch of its parent, and
    to its own. *)
Definition chattr (p : path) s : System :=
  let mask := Z.lor IN_ATTRIB IN_ISDIR in
  disk_changed (sy_dirs s) (sy_next s) (sy_watches s)
    (match last p with Some name => notify (removelast p) mask name s | None => [] end ++ notify p mask "" s)
    (sy_used s) [Attributes p] (sy_moved s) (sy_reused s) s.

(** A path below [q] is one below [q'] afterwards. *)
Definition moved_path (q q' r : path) : path := if bool_decide (take (length q) r = q) then q' ++ drop (length q) r else r.

Definition move (p : path) (name : string) (p' : path) (name' : string) s : System :=
  let q := p ++ [name] in let q' := p' ++ [name'] in
  disk_changed (kmap (moved_path q q') (sy_dirs s)) (sy_next s) (sy_watches s)
    (notify p (Z.lor IN_MOVED_FROM IN_ISDIR) name s ++ notify p' (Z.lor IN_MOVED_TO IN_ISDIR) name' s)
    ({[q']} ∪ sy_used s) [Change q MovedFrom; Change q' MovedTo] true (sy_reused s) s.

Definition watcher_turned (watches : gmap Z Z) (nextWd : Z) (events : list inotify_event) (w : InotifyWatcher) (at_ : place)
    (reported : list WatchEvent) s : System :=
  mkSystem (sy_dirs s) (sy_next s) watches nextWd events w at_ reported (sy_used s) (sy_happened s) (sy_moved s) (sy_reused s).

(** [inotify_add_watch]: the watch of the directory, a new one if there is none. *)
Definition inotify_add_watch (dir : path) s : option Z * gmap Z Z * Z :=
  match sy_dirs s !! dir with
  | None => (None, sy_watches s, sy_nextWd s)
  | Some i =>
      match sy_watches s !! i with
      | Some wd => (Some wd, sy_watches s, sy_nextWd s)
      | None => (Some (sy_nextWd s), <[i := sy_nextWd s]> (sy_watches s), sy_nextWd s + 1)
      end
  end.

(** [inotify_rm_watch]: of a watch that is there; its last event is [IN_IGNORED]. *)
Definition inotify_rm_watch (wd : Z) s : gmap Z Z * list inotify_event :=
  (filter (λ iw, iw.2 ≠ wd) (sy_watches s),
   if bool_decide (wd ∈ (map_to_list (sy_watches s)).*2) then [mkEvent wd IN_IGNORED ""] else []).

(** The turns of [Run], [ProcessEvent] and [AddWatch]. *)
Definition turn s : option System :=
  match sy_place s with
  | Polling =>
      match sy_events s with
      | [] => None
      | event :: events =>
          let r := ProcessEvent event (sy_watcher s) in
          let '(watches, ignored) := match pr_remove r with Some wd => inotify_rm_watch wd s | None => (sy_watches s, []) end in
          Some (watcher_turned watches (sy_nextWd s) (events ++ ignored) (pr_watcher r)
            (Adding (match pr_add r with Some dir => [dir] | None => [] end) (pr_callback r)) (sy_reported s) s)
      end
  | Adding queue callback =>
      match last queue with
      | None =>
          Some (watcher_turned (sy_watches s) (sy_nextWd s) (sy_events s) (sy_watcher s) Polling
            (sy_reported s ++ option_list callback) s)
      | Some dir =>
          let queue := removelast queue in
          let '(watchDesc, watches, nextWd) := inotify_add_watch dir s in
          Some (watcher_turned watches nextWd (sy_events s) (AddWatch_turn dir watchDesc (sy_watcher s))
            (match watchDesc with Some _ => Iterating dir queue callback | None => Adding queue callback end) (sy_reported s) s)
      end
  | Iterating dir queue callback =>
      Some (watcher_turned (sy_watches s) (sy_nextWd s) (sy_events s) (sy_watcher s)
        (Adding (queue ++ subdirectories dir s) callback) (sy_reported s) s)
  end.

(** A mask of an event about a file, one of those that are asked for. *)
Definition file_mask (mask : Z) (type : WatchEventType) : bool :=
  bool_decide (Z.land mask IN_ISDIR = 0) && bool_decide (Z.land mask IN_IGNORED = 0) &&
  has WatchMask (mkEvent 0 mask "") &&
  match event_type (mkEvent 0 mask "") with Some type' => WatchEventType_value type' =? WatchEventType_value type | None => false end.

Definition run (c : command) s : option System :=
  match c with
  | Mkdir p name =>
      if bool_decide (is_Some (sy_dirs s !! p)) && bool_decide (sy_dirs s !! (p ++ [name]) = None) && negb (bool_decide (name = ""))
      then Some (mkdir p name s) else None
  | Rmdir p name first =>
      i ← sy_dirs s !! (p ++ [name]);
      if bool_decide (subdirectories (p ++ [name]) s = []) && negb (bool_decide (name = ""))
      then Some (rmdir p name i first s) else None
  | ChangeFile p name mask type =>
      if bool_decide (is_Some (sy_dirs s !! p)) && negb (bool_decide (name = "")) && file_mask mask type then
        Some (disk_changed (sy_dirs s) (sy_next s) (sy_watches s) (notify p mask name s) (sy_used s)
          [Change (p ++ [name]) type] (sy_moved s) (sy_reused s) s)
      else None
  | ChangeDir p => if bool_decide (is_Some (sy_dirs s !! p)) && negb (bool_decide (last p = Some "")) then Some (chattr p s) else None
  | MoveDir p name p' name' =>
      if bool_decide (is_Some (sy_dirs s !! (p ++ [name]))) && bool_decide (is_Some (sy_dirs s !! p')) &&
         bool_decide (sy_dirs s !! (p' ++ [name']) = None) && negb (bool_decide (take (S (length p)) p' = p ++ [name]))
      then Some (move p name p' name' s) else None
  | Turn => turn s
  end.

Definition step s s' : Prop := ∃ c, run c s = Some s'.

(** The constructor: the root is watched, and all that is below it. *)
Definition start (dirs : gmap path Z) (next : Z) : System :=
  mkSystem dirs next ∅ 1 [] InotifyWatcher.make (Adding [[]] None) [] (dom dirs) [] false false.

(** ** What the events say *)

(** The path an event is about, and the change it tells of, [home] being the paths of the
    watches. *)
Definition subject (home : Z → path) (event : inotify_event) : path :=
  if bool_decide (ie_name event = "") then home (ie_wd event) else home (ie_wd event) ++ [ie_name event].

Definition told (home : Z → path) (event : inotify_event) : option (path * WatchEventType) :=
  if has IN_IGNORED event then None else (λ type, (subject home event, type)) <$> event_type event.

(** The events that [ProcessEvent] adds or removes a watch for. *)
Definition names (event : inotify_event) : bool := has IN_CREATE event || has (Z.lor IN_DELETE IN_MOVED_FROM) event.

Definition spoken (event : WatchEvent) : path * WatchEventType := (we_path event, we_type event).

(** What is still to be reported of an event that was processed. *)
Definition held s : list WatchEvent :=
  match sy_place s with Polling => [] | Adding _ callback | Iterating _ _ callback => option_list callback end.

(** The directories that [AddWatch] is about. *)
Definition waiting s : list path :=
  match sy_place s with Polling => [] | Adding queue _ | Iterating _ queue _ => queue end.

(** A path that was a directory, and is none. *)
Definition gone (p : path) s : Prop := p ∈ sy_used s ∧ sy_dirs s !! p = None.

Record Truth (home : Z → path) s : Prop := {
  tr_inode : ∀ p i, sy_dirs s !! p = Some i → i < sy_next s;
  tr_inj : ∀ p q i, sy_dirs s !! p = Some i → sy_dirs s !! q = Some i → p = q;
  tr_live : ∀ i wd, sy_watches s !! i = Some wd → wd < sy_nextWd s ∧ sy_dirs s !! home wd = Some i;
  tr_mapped : ∀ wd p, iw_wdToPath (sy_watcher s) !! wd = Some p → wd < sy_nextWd s ∧ home wd = p;
  tr_events : ∀ e, e ∈ sy_events s → ie_wd e < sy_nextWd s ∧ (names e = true → ie_name e ≠ "");
  tr_told : sublist (map spoken (sy_reported s ++ held s) ++ omap (told home) (sy_events s)) (sy_happened s ≫= tellings);
}.

Record Complete (home : Z → path) s : Prop := {
  co_closed : ∀ p n, is_Some (sy_dirs s !! (p ++ [n])) → is_Some (sy_dirs s !! p);
  co_used : ∀ p, is_Some (sy_dirs s !! p) → p ∈ sy_used s;
  co_wds : ∀ p wd, iw_pathToWd (sy_watcher s) !! p = Some wd → wd < sy_nextWd s ∧ home wd = p;
  co_gone : ∀ e, e ∈ sy_events s →
    (has IN_IGNORED e = true → gone (home (ie_wd e)) s) ∧
    (has (Z.lor IN_DELETE IN_MOVED_FROM) e && has IN_ISDIR e = true → gone (home (ie_wd e) ++ [ie_name e]) s);
  co_live : ∀ p wd, watch_at p s = Some wd →
    iw_wdToPath (sy_watcher s) !! wd = Some p ∧ iw_pathToWd (sy_watcher s) !! p = Some wd;
  co_root : is_Some (sy_dirs s !! []) ∧ (is_Some (watch_at [] s) ∨ [] ∈ waiting s);
  co_below : ∀ p n wd, watch_at p s = Some wd → is_Some (sy_dirs s !! (p ++ [n])) →
    (∃ e, e ∈ sy_events s ∧ ie_wd e = wd ∧ ie_name e = n ∧ has IN_IGNORED e = false ∧ has IN_CREATE e && has IN_ISDIR e = true) ∨
    is_Some (watch_at (p ++ [n]) s) ∨ p ++ [n] ∈ waiting s ∨ ∃ queue callback, sy_place s = Iterating p queue callback;
}.

Definition Inv s : Prop := sy_moved s = false → ∃ home, Truth home s ∧ (sy_reused s = false → Complete home s).

(** ** Lemmas *)

Lemma elem_of_subdirectories p q s : q ∈ subdirectories p s ↔ is_Some (sy_dirs s !! q) ∧ removelast q = p ∧ q ≠ [].
Proof.
  unfold subdirectories. rewrite list_elem_of_filter, list_elem_of_fmap. split.
  - intros [[H1 H2] ((x & i) & -> & H3)]. apply elem_of_map_to_list in H3. eauto.
  - intros [[i H1] H2]. split; [done|]. exists (q, i). split; [done|]. by apply elem_of_map_to_list.
Qed.

Lemma child_of_subdirectories p n s : p ++ [n] ∈ subdirectories p s ↔ is_Some (sy_dirs s !! (p ++ [n])).
Proof.
  rewrite elem_of_subdirectories, removelast_last. split; [tauto|]. intros H. repeat split; [done|].
  intros H1. by apply app_nil in H1 as [_ ?].
Qed.

Lemma watch_at_Some p wd s : watch_at p s = Some wd ↔ ∃ i, sy_dirs s !! p = Some i ∧ sy_watches s !! i = Some wd.
Proof. unfold watch_at. by rewrite bind_Some. Qed.

Lemma last_child (p q : path) m n : p ++ [m] = q ++ [n] → p = q ∧ m = n.
Proof. intros H. apply app_inj_tail in H. done. Qed.

Lemma self_not_child (p : path) n : p ++ [n] ≠ p.
Proof. intros H. apply (f_equal length) in H. rewrite length_app in H. cbn in H. lia. Qed.

(** Watches are in the order of their paths. *)
Lemma watch_home home p wd s : Truth home s → watch_at p s = Some wd → home wd = p ∧ wd < sy_nextWd s.
Proof.
  intros HT (i & H1 & H2)%watch_at_Some. apply (tr_live _ _ HT) in H2 as [H2 H3].
  split; [|done]. by apply (tr_inj _ _ HT _ _ i).
Qed.

Lemma notify_elem p mask name s e : e ∈ notify p mask name s → ∃ wd, watch_at p s = Some wd ∧ e = mkEvent wd mask name.
Proof.
  unfold notify. destruct (watch_at p s) as [wd|]; [|by intros ?%not_elem_of_nil]. intros ->%list_elem_of_singleton. eauto.
Qed.

(** The event of a change, read with the paths of the watches, is the change. *)
Lemma notify_told home p mask name type s :
  Truth home s → event_type (mkEvent 0 mask name) = Some type → has IN_IGNORED (mkEvent 0 mask name) = false →
  sublist (omap (told home) (notify p mask name s)) [(if bool_decide (name = "") then p else p ++ [name], type)].
Proof.
  intros HT Ht Hi. unfold notify. destruct (watch_at p s) as [wd|] eqn:Hw; [|apply sublist_nil_l].
  apply (watch_home home) in Hw as [Hw _]; [|done]. cbn. unfold told, subject. cbn [ie_wd ie_name].
  change (has IN_IGNORED (mkEvent wd mask name)) with (has IN_IGNORED (mkEvent 0 mask name)). rewrite Hi.
  change (event_type (mkEvent wd mask name)) with (event_type (mkEvent 0 mask name)). rewrite Ht. cbn.
  by rewrite Hw.
Qed.

Lemma name_told home p mask name type s :
  Truth home s → event_type (mkEvent 0 mask name) = Some type → has IN_IGNORED (mkEvent 0 mask name) = false → name ≠ "" →
  sublist (omap (told home) (notify p mask name s)) [(p ++ [name], type)].
Proof. intros HT Ht Hi Hn. pose proof (notify_told home p mask name type s HT Ht Hi) as H. by rewrite bool_decide_eq_false_2 in H. Qed.

Lemma told_ignored home wd : told home (mkEvent wd IN_IGNORED "") = None.
Proof. done. Qed.

(** What a change of the disk has to satisfy. *)
Lemma disk_truth home dirs next watches events used happened moved reused s :
  Truth home s →
  (∀ p i, dirs !! p = Some i → i < next ∧ (sy_dirs s !! p = Some i ∨ sy_next s ≤ i ∧ ∀ q, dirs !! q = Some i → q = p)) →
  (∀ i wd, watches !! i = Some wd → sy_watches s !! i = Some wd ∧ (∀ p, sy_dirs s !! p = Some i → dirs !! p = Some i)) →
  (∀ e, e ∈ events → ie_wd e < sy_nextWd s ∧ (names e = true → ie_name e ≠ "")) →
  sublist (omap (told home) events) (happened ≫= tellings) →
  Truth home (disk_changed dirs next watches events used happened moved reused s).
Proof.
  intros HT Hd Hw He Hh. split; cbn.
  - intros p i H. by apply Hd in H as [? _].
  - intros p q i H1 H2. destruct (Hd _ _ H1) as [_ [H3|[_ H3]]]; [|by rewrite (H3 _ H2)].
    destruct (Hd _ _ H2) as [_ [H4|[H4 _]]]; [by apply (tr_inj _ _ HT _ _ i)|].
    apply (tr_inode _ _ HT) in H3. lia.
  - intros i wd H. apply Hw in H as [H1 H2]. apply (tr_live _ _ HT) in H1 as [H1 H3]. split; [done|]. by apply H2.
  - apply HT.
  - intros e [H|H]%elem_of_app; [by apply (tr_events _ _ HT)|by apply He].
  - rewrite omap_app, app_assoc, bind_app. apply sublist_app; [apply HT|done].
Qed.

Lemma mkdir_truth home p name s : name ≠ "" → sy_dirs s !! (p ++ [name]) = None → Truth home s → Truth home (mkdir p name s).
Proof.
  intros Hn Hd HT. apply disk_truth; [done| | | |].
  - intros q i [[<- <-]|[Hne H]]%lookup_insert_Some.
    + split; [lia|]. right. split; [lia|]. intros q [[<- _]|[_ H]]%lookup_insert_Some; [done|].
      apply (tr_inode _ _ HT) in H. lia.
    + split; [apply (tr_inode _ _ HT) in H; lia|by left].
  - intros i wd H. split; [done|]. intros q Hq. rewrite lookup_insert_ne; [done|]. intros <-; simplify_eq.
  - intros e (wd & H & ->)%notify_elem. apply (watch_home home) in H as [_ ?]; done.
  - by apply name_told.
Qed.

Lemma rmdir_truth home p name i first s :
  name ≠ "" → sy_dirs s !! (p ++ [name]) = Some i → Truth home s → Truth home (rmdir p name i first s).
Proof.
  intros Hn Hd HT. apply disk_truth; [done| | | |].
  - intros q j [_ H]%lookup_delete_Some. split; [by apply (tr_inode _ _ HT) in H|by left].
  - intros j wd [Hne H]%lookup_delete_Some. split; [done|]. intros q Hq. rewrite lookup_delete_ne; [done|]. intros <-. simplify_eq.
  - intros e He.
    assert (e ∈ notify p (Z.lor IN_DELETE IN_ISDIR) name s ∨
      ∃ wd, sy_watches s !! i = Some wd ∧ e = mkEvent wd IN_IGNORED "") as [(wd & H & ->)%notify_elem|(wd & H & ->)].
    { destruct first; apply elem_of_app in He; destruct (sy_watches s !! i); set_solver. }
    + apply (watch_home home) in H as [_ ?]; done.
    + apply (tr_live _ _ HT) in H as [? _]. done.
  - assert (∀ l, omap (told home) l = [] → sublist (omap (told home) (l ++ notify p (Z.lor IN_DELETE IN_ISDIR) name s)) [(p ++ [name], Deleted)] ∧
      sublist (omap (told home) (notify p (Z.lor IN_DELETE IN_ISDIR) name s ++ l)) [(p ++ [name], Deleted)]) as Hl.
    { intros l Hl. rewrite !omap_app, Hl, app_nil_r. cbn [app]. split; by apply name_told. }
    destruct first; apply Hl; by destruct (sy_watches s !! i).
Qed.

Lemma file_mask_spec mask type : file_mask mask type = true →
  (∀ wd n, has IN_ISDIR (mkEvent wd mask n) = false ∧ has IN_IGNORED (mkEvent wd mask n) = false ∧
    event_type (mkEvent wd mask n) = Some type).
Proof.
  unfold file_mask. intros H wd n.
  apply andb_true_iff in H as [[[H1%bool_decide_eq_true H2%bool_decide_eq_true]%andb_true_iff _]%andb_true_iff H3].
  unfold has at 1 2. cbn. rewrite H1, H2. split; [done|]. split; [done|].
  change (event_type (mkEvent wd mask n)) with (event_type (mkEvent 0 mask "")).
  destruct (event_type (mkEvent 0 mask "")) as [t|]; [|done]. by destruct t, type.
Qed.

Lemma change_truth home p name mask type s : name ≠ "" → file_mask mask type = true → Truth home s →
  Truth home (disk_changed (sy_dirs s) (sy_next s) (sy_watches s) (notify p mask name s) (sy_used s)
    [Change (p ++ [name]) type] (sy_moved s) (sy_reused s) s).
Proof.
  intros Hn Hm HT. destruct (file_mask_spec _ _ Hm 0 name) as (_ & Hi & Ht). apply disk_truth; [done| | | |].
  - intros q i H. split; [by apply (tr_inode _ _ HT) in H|by left].
  - intros i wd H. by split.
  - intros e (wd & H & ->)%notify_elem. apply (watch_home home) in H as [_ ?]; done.
  - by apply name_told.
Qed.

(** The turns. *)

Lemma ProcessEvent_sub event w : let r := ProcessEvent event w in
  (∀ wd p, iw_wdToPath (pr_watcher r) !! wd = Some p → iw_wdToPath w !! wd = Some p) ∧
  (∀ p wd, iw_pathToWd (pr_watcher r) !! p = Some wd → iw_pathToWd w !! p = Some wd).
Proof.
  unfold ProcessEvent, RemoveWatch. cbv zeta. repeat case_match; simplify_eq; cbn; try done;
    by split; intros ? ? [_ ?]%lookup_delete_Some.
Qed.

Lemma ProcessEvent_callback home event w :
  (∀ wd p, iw_wdToPath w !! wd = Some p → home wd = p) →
  sublist (map spoken (option_list (pr_callback (ProcessEvent event w)))) (option_list (told home event)).
Proof.
  intros Hh. unfold ProcessEvent. destruct (iw_wdToPath w !! ie_wd event) as [dir|] eqn:Hd; [|apply sublist_nil_l].
  destruct (has IN_IGNORED event) eqn:Hi; [apply sublist_nil_l|]. apply Hh in Hd.
  unfold told, subject. rewrite Hi, Hd.
  destruct (event_type event) as [type|]; cbn; [|repeat case_match; cbn; apply sublist_nil_l].
  by repeat case_match.
Qed.

Lemma omap_cons_app {A B} (f : A → option B) x l : omap f (x :: l) = option_list (f x) ++ omap f l.
Proof. cbn. by destruct (f x). Qed.

(** The watches that are left, and the events of the one that went. *)
Lemma inotify_rm_watch_sub wd s : let '(watches, events) := inotify_rm_watch wd s in
  (∀ i wd', watches !! i = Some wd' ↔ sy_watches s !! i = Some wd' ∧ wd' ≠ wd) ∧
  (∀ e, e ∈ events → e = mkEvent wd IN_IGNORED "" ∧ ∃ i, sy_watches s !! i = Some wd).
Proof.
  unfold inotify_rm_watch. split.
  - intros i wd'. by rewrite map_lookup_filter_Some.
  - intros e. case_bool_decide as H; [|by intros ?%not_elem_of_nil]. intros ->%list_elem_of_singleton. split; [done|].
    apply list_elem_of_fmap in H as ((i & ?) & -> & H%elem_of_map_to_list). eauto.
Qed.

Lemma truth_turned home watches nextWd events w at_ reported s :
  Truth home s → sy_nextWd s ≤ nextWd →
  (∀ i wd, watches !! i = Some wd → sy_watches s !! i = Some wd ∨ wd < nextWd ∧ sy_dirs s !! home wd = Some i) →
  (∀ wd p, iw_wdToPath w !! wd = Some p → iw_wdToPath (sy_watcher s) !! wd = Some p ∨ wd < nextWd ∧ home wd = p) →
  (∀ e, e ∈ events → e ∈ sy_events s ∨ ie_wd e < nextWd ∧ names e = false) →
  (let s' := watcher_turned watches nextWd events w at_ reported s in
   sublist (map spoken (reported ++ held s') ++ omap (told home) events)
     (map spoken (sy_reported s ++ held s) ++ omap (told home) (sy_events s))) →
  Truth home (watcher_turned watches nextWd events w at_ reported s).
Proof.
  intros HT Hle Hw Hp He Hs. split; cbn.
  - apply HT.
  - apply HT.
  - intros i wd H. destruct (Hw _ _ H) as [H1|H1]; [|done]. apply (tr_live _ _ HT) in H1 as [? ?]. split; [lia|done].
  - intros wd p H. destruct (Hp _ _ H) as [H1|H1]; [|done]. apply (tr_mapped _ _ HT) in H1 as [? ?]. split; [lia|done].
  - intros e H. destruct (He _ H) as [H1|[H1 H2]]; [apply (tr_events _ _ HT) in H1 as [? ?]; split; [lia|done]|].
    split; [done|]. by rewrite H2.
  - etransitivity; [exact Hs|apply HT].
Qed.

Definition next_home home s : Prop := ∀ queue callback dir,
  sy_place s = Adding queue callback → last queue = Some dir → home (sy_nextWd s) = dir.

Lemma poll_truth home e events s : sy_place s = Polling → sy_events s = e :: events → Truth home s →
  ∀ s', turn s = Some s' → Truth home s'.
Proof.
  intros Hp He HT s'. unfold turn. rewrite Hp, He. set (r := ProcessEvent e (sy_watcher s)).
  destruct (ProcessEvent_sub e (sy_watcher s)) as [Hsub _]. fold r in Hsub.
  assert (e ∈ sy_events s) as Hin by (rewrite He; by left).
  destruct (match pr_remove r with Some wd => inotify_rm_watch wd s | None => (sy_watches s, []) end) as [watches ignored] eqn:Hrm.
  assert ((∀ i wd, watches !! i = Some wd → sy_watches s !! i = Some wd) ∧
    (∀ x, x ∈ ignored → ie_wd x < sy_nextWd s ∧ names x = false ∧ told home x = None)) as [Hw Hig].
  { destruct (pr_remove r) as [wd|]; simplify_eq; [|by split; [|intros ? ?%not_elem_of_nil]].
    pose proof (inotify_rm_watch_sub wd s) as H. rewrite Hrm in H. destruct H as [H1 H2]. split; [intros i wd' H; by apply H1 in H as [? _]|].
    intros x (-> & i & H)%H2. apply (tr_live _ _ HT) in H as [? _]. done. }
  intros [= <-]. apply truth_turned; [done|lia| | | |].
  - intros i wd H. left. by apply Hw.
  - intros wd p H. left. by apply Hsub.
  - intros x [H|H]%elem_of_app; [left; rewrite He; by right|right]. destruct (Hig _ H) as (? & ? & _). done.
  - cbv zeta. unfold held. cbn [sy_place watcher_turned]. rewrite Hp, He, app_nil_r, omap_app, map_app, omap_cons_app, <-!app_assoc.
    assert (omap (told home) ignored = []) as ->.
    { clear -Hig. induction ignored as [|x l IH]; [done|]. rewrite omap_cons_app.
      destruct (Hig x) as (_ & _ & ->); [by left|]. apply IH. intros y ?. apply Hig. by right. }
    rewrite app_nil_r. apply sublist_app; [done|]. apply sublist_app; [|done].
    apply ProcessEvent_callback. intros wd p H. by apply (tr_mapped _ _ HT) in H as [_ ?].
Qed.

Lemma add_truth home queue callback s : sy_place s = Adding queue callback → next_home home s → Truth home s →
  ∀ s', turn s = Some s' → Truth home s'.
Proof.
  intros Hp Hh HT s'. unfold turn. rewrite Hp. destruct (last queue) as [dir|] eqn:Hl.
  - specialize (Hh _ _ _ Hp Hl). unfold inotify_add_watch.
    destruct (sy_dirs s !! dir) as [i|] eqn:Hd.
    + destruct (sy_watches s !! i) as [wd|] eqn:Hw; intros [= <-]; (apply truth_turned; [done|lia| | | |]); cbn.
      * auto.
      * destruct (watch_home home dir wd s HT) as [H1 H2]; [apply watch_at_Some; eauto|].
        intros wd' p [[<- <-]|[_ H]]%lookup_insert_Some; auto.
      * auto.
      * unfold held. cbn. by rewrite Hp.
      * intros j wd [[<- <-]|[_ H]]%lookup_insert_Some; [right; rewrite Hh; split; [lia|done]|by left].
      * intros wd p [[<- <-]|[_ H]]%lookup_insert_Some; [right; split; [lia|done]|by left].
      * auto.
      * unfold held. cbn. by rewrite Hp.
    + intros [= <-]. apply truth_turned; [done|lia|auto|auto|auto|]. unfold held. cbn. by rewrite Hp.
  - intros [= <-]. apply truth_turned; [done|lia|auto|auto|auto|]. unfold held. cbn. by rewrite Hp, app_nil_r.
Qed.

Lemma turn_truth home s s' : Truth home s → next_home home s → turn s = Some s' → Truth home s'.
Proof.
  intros HT Hh. destruct (sy_place s) as [|queue callback|dir queue callback] eqn:Hp.
  - destruct (sy_events s) as [|e events] eqn:He; [unfold turn; by rewrite Hp, He|]. by apply (poll_truth _ _ _ _ Hp He).
  - by apply (add_truth _ _ _ _ Hp).
  - unfold turn. rewrite Hp. intros [= <-]. apply truth_turned; [done|lia|auto|auto|auto|]. unfold held. cbn. by rewrite Hp.
Qed.

(** *** Every directory is watched, or will be *)

(** The event that makes the watcher watch [n] in the directory of [wd]. *)
Definition creation (wd : Z) (n : string) (e : inotify_event) : Prop :=
  ie_wd e = wd ∧ ie_name e = n ∧ has IN_IGNORED e = false ∧ has IN_CREATE e && has IN_ISDIR e = true.

Lemma disk_complete home dirs next watches events used happened moved reused s :
  let s' := disk_changed dirs next watches events used happened moved reused s in
  Complete home s →
  (∀ p n, is_Some (dirs !! (p ++ [n])) → is_Some (dirs !! p)) → (∀ p, is_Some (dirs !! p) → p ∈ used) →
  (∀ p, gone p s → gone p s') →
  (∀ e, e ∈ events → (has IN_IGNORED e = true → gone (home (ie_wd e)) s') ∧
    (has (Z.lor IN_DELETE IN_MOVED_FROM) e && has IN_ISDIR e = true → gone (home (ie_wd e) ++ [ie_name e]) s')) →
  (∀ p, watch_at p s' = if bool_decide (is_Some (dirs !! p)) then watch_at p s else None) →
  is_Some (dirs !! []) →
  (∀ p n wd, watch_at p s = Some wd → is_Some (dirs !! (p ++ [n])) →
    is_Some (sy_dirs s !! (p ++ [n])) ∨ ∃ e, e ∈ events ∧ creation wd n e) →
  Complete home s'.
Proof.
  intros s' HC Hc Hu Hg He Hw Hr Hn. split; [exact Hc|exact Hu| | | | |].
  - apply HC.
  - intros e [H|H]%elem_of_app; [|by apply He]. apply (co_gone _ _ HC) in H as [H1 H2]. split; intros H; apply Hg; auto.
  - intros p wd H. rewrite Hw in H. case_bool_decide; [|done]. by apply (co_live _ _ HC).
  - split; [done|]. rewrite Hw, bool_decide_eq_true_2 by done. apply HC.
  - intros p n wd H Hd. rewrite Hw in H. case_bool_decide; [|done].
    destruct (Hn _ _ _ H Hd) as [H1|(e & H1 & H2)].
    + destruct (co_below _ _ HC _ _ _ H H1) as [(e & H2 & H3)|[H2|H2]].
      * left. exists e. split; [apply elem_of_app; by left|done].
      * right; left. by rewrite Hw, bool_decide_eq_true_2.
      * right; right. exact H2.
    + left. exists e. split; [apply elem_of_app; by right|done].
Qed.

Lemma mkdir_complete home p name s :
  is_Some (sy_dirs s !! p) → sy_dirs s !! (p ++ [name]) = None → p ++ [name] ∉ sy_used s →
  Truth home s → Complete home s → Complete home (mkdir p name s).
Proof.
  intros Hp Hq Hu HT HC. apply disk_complete; [done| | | | | | |].
  - intros r n. rewrite !lookup_insert_is_Some'. intros [H|H]; [apply last_child in H as [<- _]; by right|].
    right. by apply (co_closed _ _ HC) in H.
  - intros r. rewrite lookup_insert_is_Some'. intros [<-|H]; [set_solver|]. apply (co_used _ _ HC) in H. set_solver.
  - intros r [H1 H2]. split; cbn; [set_solver|]. rewrite lookup_insert_ne; [done|]. by intros <-.
  - by intros e (wd & H & ->)%notify_elem.
  - intros r. unfold watch_at. cbn. destruct (decide (p ++ [name] = r)) as [<-|Hne].
    + rewrite lookup_insert_eq, Hq. cbn.
      destruct (sy_watches s !! sy_next s) eqn:H; [|done]. apply (tr_live _ _ HT) in H as [_ H].
      apply (tr_inode _ _ HT) in H. lia.
    + rewrite lookup_insert_ne by done. destruct (sy_dirs s !! r); [|done]. by rewrite bool_decide_eq_true_2.
  - apply lookup_insert_is_Some'. right. apply HC.
  - intros r n wd H. rewrite lookup_insert_is_Some'. intros [Hr|Hr]; [|by left]. apply last_child in Hr as [<- <-].
    right. eexists. split; [unfold notify; rewrite H; by left|]. by repeat split.
Qed.

Lemma change_complete home p name mask type s : file_mask mask type = true → Truth home s → Complete home s →
  Complete home (disk_changed (sy_dirs s) (sy_next s) (sy_watches s) (notify p mask name s) (sy_used s)
    [Change (p ++ [name]) type] (sy_moved s) (sy_reused s) s).
Proof.
  intros Hm HT HC. apply disk_complete; [done| | | | | | |].
  - apply HC.
  - apply HC.
  - done.
  - intros e (wd & H & ->)%notify_elem. destruct (file_mask_spec _ _ Hm wd name) as (-> & -> & _). by rewrite andb_false_r.
  - intros r. unfold watch_at. cbn. destruct (sy_dirs s !! r); [|done]. by rewrite bool_decide_eq_true_2.
  - apply HC.
  - by left.
Qed.

(** The attributes of a directory: it is told at most twice, and no watch comes or goes. *)
Lemma chattr_events p s e : e ∈ match last p with Some name => notify (removelast p) (Z.lor IN_ATTRIB IN_ISDIR) name s | None => [] end ++
    notify p (Z.lor IN_ATTRIB IN_ISDIR) "" s →
  ∃ q wd name, watch_at q s = Some wd ∧ e = mkEvent wd (Z.lor IN_ATTRIB IN_ISDIR) name.
Proof.
  intros [H|(wd & H & ->)%notify_elem]%elem_of_app; [|eauto].
  destruct (last p) as [name|]; [|by apply not_elem_of_nil in H]. apply notify_elem in H as (wd & H & ->). eauto.
Qed.

Lemma chattr_truth home p s : last p ≠ Some "" → Truth home s → Truth home (chattr p s).
Proof.
  intros Hn HT. apply disk_truth; [done| | | |].
  - intros q i H. split; [by apply (tr_inode _ _ HT) in H|by left].
  - intros i wd H. by split.
  - intros e (q & wd & name & H & ->)%chattr_events. apply (watch_home home) in H as [_ ?]; done.
  - rewrite omap_app. destruct p as [|m p _] using rev_ind; cbn [last mbind list_bind]; [by apply (notify_told home [])|].
    rewrite last_snoc in *. rewrite removelast_last, app_nil_r.
    replace (tellings (Attributes (p ++ [m]))) with ([(p ++ [m], Modified)] ++ [(p ++ [m], Modified)]) by (by destruct p).
    apply sublist_app; [apply name_told|apply (notify_told home (p ++ [m]))]; try done. by intros ->.
Qed.

Lemma chattr_complete home p s : Truth home s → Complete home s → Complete home (chattr p s).
Proof.
  intros HT HC. apply disk_complete; [done| | | | | | |].
  - apply HC.
  - apply HC.
  - done.
  - by intros e (q & wd & name & H & ->)%chattr_events.
  - intros r. unfold watch_at. cbn. destruct (sy_dirs s !! r); [|done]. by rewrite bool_decide_eq_true_2.
  - apply HC.
  - by left.
Qed.

Lemma rmdir_complete home p name i first s :
  sy_dirs s !! (p ++ [name]) = Some i → subdirectories (p ++ [name]) s = [] →
  Truth home s → Complete home s → Complete home (rmdir p name i first s).
Proof.
  intros Hq Hs HT HC. set (s' := rmdir p name i first s).
  assert (gone (p ++ [name]) s') as Hgone.
  { split; [cbn; by apply (co_used _ _ HC)|apply lookup_delete_eq]. }
  apply disk_complete; [done| | | | | | |].
  - intros r n. rewrite !lookup_delete_is_Some. intros [_ H]. split; [|by apply (co_closed _ _ HC) in H].
    intros <-. apply child_of_subdirectories in H. rewrite Hs in H. by apply not_elem_of_nil in H.
  - intros r [_ H]%lookup_delete_is_Some. by apply (co_used _ _ HC).
  - intros r [H1 H2]. split; [done|]. apply lookup_delete_None. by right.
  - intros e He.
    assert (e ∈ notify p (Z.lor IN_DELETE IN_ISDIR) name s ∨
      ∃ wd, sy_watches s !! i = Some wd ∧ e = mkEvent wd IN_IGNORED "") as [(wd & H & ->)%notify_elem|(wd & H & ->)].
    { destruct first; apply elem_of_app in He; destruct (sy_watches s !! i); set_solver. }
    + apply (watch_home home) in H as [H _]; [|done]. cbn. rewrite H. by split.
    + destruct (watch_home home (p ++ [name]) wd s HT) as [H1 _]; [apply watch_at_Some; eauto|]. cbn. rewrite H1. by split.
  - intros r. unfold watch_at. cbn. destruct (decide (p ++ [name] = r)) as [<-|Hne]; [by rewrite lookup_delete_eq|].
    rewrite lookup_delete_ne by done. destruct (sy_dirs s !! r) as [j|] eqn:Hr; [|done]. cbn.
    rewrite lookup_delete_ne; [done|]. intros <-. apply Hne. by apply (tr_inj _ _ HT _ _ i).
  - apply lookup_delete_is_Some. split; [|apply HC]. by destruct p.
  - intros r n wd _ [_ H]%lookup_delete_is_Some. by left.
Qed.

Lemma watch_at_dir p wd s : watch_at p s = Some wd → is_Some (sy_dirs s !! p).
Proof. intros (i & H & _)%watch_at_Some. eauto. Qed.

Lemma gone_dead home p wd s : gone (home wd) s → Truth home s → watch_at p s = Some wd → False.
Proof.
  intros [_ Hg] HT H. destruct (watch_home _ _ _ _ HT H) as [Hh _]. apply watch_at_dir in H as [i H]. congruence.
Qed.

Lemma full_path home event w dir :
  iw_wdToPath w !! ie_wd event = Some dir → (∀ wd p, iw_wdToPath w !! wd = Some p → home wd = p) → ie_name event ≠ "" →
  (if bool_decide (ie_name event = "") then dir else dir ++ [ie_name event]) = home (ie_wd event) ++ [ie_name event].
Proof. intros H Hh Hn. by rewrite bool_decide_eq_false_2, (Hh _ _ H). Qed.

(** An event takes away the watch of a directory that is gone. *)
Lemma ProcessEvent_gone home e s : Truth home s → Complete home s → e ∈ sy_events s →
  let r := ProcessEvent e (sy_watcher s) in
  (∀ wd, pr_remove r = Some wd → gone (home wd) s) ∧
  (pr_watcher r = sy_watcher s ∨ ∃ wd, gone (home wd) s ∧
    pr_watcher r = mkInotifyWatcher (delete wd (iw_wdToPath (sy_watcher s))) (delete (home wd) (iw_pathToWd (sy_watcher s)))).
Proof.
  intros HT HC He. destruct (co_gone _ _ HC _ He) as [Hg1 Hg2]. apply (tr_events _ _ HT) in He as [_ Hn].
  assert (∀ wd p, iw_wdToPath (sy_watcher s) !! wd = Some p → home wd = p) as Hh by apply HT.
  cbv zeta. unfold ProcessEvent. destruct (iw_wdToPath (sy_watcher s) !! ie_wd e) as [dir|] eqn:Hd; [|split; [done|by left]].
  destruct (has IN_IGNORED e) eqn:Hi.
  { split; [done|]. right. exists (ie_wd e). split; [by apply Hg1|]. by rewrite (Hh _ _ Hd). }
  destruct (has IN_CREATE e && has IN_ISDIR e); [split; [done|by left]|].
  destruct (has (Z.lor IN_DELETE IN_MOVED_FROM) e && has IN_ISDIR e) eqn:Hdel; [|split; [done|by left]].
  apply andb_true_iff in Hdel as [Hdel _].
  rewrite (full_path home e (sy_watcher s) dir) by (done || (apply Hn; unfold names; rewrite Hdel; apply orb_true_r)).
  specialize (Hg2 eq_refl). destruct (iw_pathToWd (sy_watcher s) !! (home (ie_wd e) ++ [ie_name e])) as [wd|] eqn:Hw; [|split; [done|by left]].
  apply (co_wds _ _ HC) in Hw as [_ Hw]. rewrite <-Hw in Hg2. unfold RemoveWatch.
  destruct (iw_wdToPath (sy_watcher s) !! wd) as [p|] eqn:Hp; cbn; [|split; [done|by left]].
  split; [by intros ? [= <-]|]. right. exists wd. split; [done|]. by rewrite (Hh _ _ Hp).
Qed.

Lemma ProcessEvent_adds home p e n wd s : Truth home s → Complete home s → e ∈ sy_events s →
  watch_at p s = Some wd → creation wd n e → pr_add (ProcessEvent e (sy_watcher s)) = Some (p ++ [n]).
Proof.
  intros HT HC He Hw (<- & <- & Hi & Hc). apply (co_live _ _ HC) in Hw as [Hw _]. unfold ProcessEvent.
  rewrite Hw, Hi, Hc. apply (tr_events _ _ HT) in He as [_ Hn]. apply andb_true_iff in Hc as [Hc _].
  rewrite bool_decide_eq_false_2; [done|]. apply Hn. unfold names. by rewrite Hc.
Qed.

(** Taking away a watch that is none of the disk. *)
Lemma rm_dead home wd s : gone (home wd) s → Truth home s → inotify_rm_watch wd s = (sy_watches s, []).
Proof.
  intros [_ Hg] HT. assert (∀ i, sy_watches s !! i ≠ Some wd) as H.
  { intros i H. apply (tr_live _ _ HT) in H as [_ H]. congruence. }
  unfold inotify_rm_watch. f_equal.
  - apply map_filter_id. intros i wd' Hi. cbn. intros ->. by apply H in Hi.
  - case_bool_decide as Hin; [|done]. apply list_elem_of_fmap in Hin as ((i & ?) & -> & Hin%elem_of_map_to_list). by apply H in Hin.
Qed.

Lemma poll_complete home e events s : sy_place s = Polling → sy_events s = e :: events → Truth home s → Complete home s →
  ∀ s', turn s = Some s' → Complete home s'.
Proof.
  intros Hp He HT HC s'. assert (e ∈ sy_events s) as Hin by (rewrite He; by left).
  destruct (ProcessEvent_gone home e s HT HC Hin) as [Hrm Hpr].
  destruct (ProcessEvent_sub e (sy_watcher s)) as [_ Hsub].
  unfold turn. rewrite Hp, He. set (r := ProcessEvent e (sy_watcher s)) in *.
  assert (match pr_remove r with Some wd => inotify_rm_watch wd s | None => (sy_watches s, []) end = (sy_watches s, [])) as ->.
  { destruct (pr_remove r) as [wd|]; [|done]. by apply (rm_dead home); [apply Hrm|]. }
  rewrite app_nil_r. intros [= <-]. split; cbn; [apply HC|apply HC| | | | |].
  - intros p wd H. by apply Hsub, (co_wds _ _ HC) in H.
  - intros x Hx. apply (co_gone _ _ HC). rewrite He. by right.
  - intros p wd H. change (watch_at p s = Some wd) in H. destruct (co_live _ _ HC _ _ H) as [H1 H2].
    destruct Hpr as [->|(wd' & Hg & ->)]; [done|]. cbn. destruct (watch_home _ _ _ _ HT H) as [Hh _].
    rewrite !lookup_delete_ne; [done| |].
    + intros Hx. apply (gone_dead home p wd s); [|done..]. by rewrite Hh, <-Hx.
    + intros ->. by eapply gone_dead.
  - destruct (co_root _ _ HC) as [H1 [H2|H2]]; [by split; [|left]|]. unfold waiting in H2. rewrite Hp in H2. by apply not_elem_of_nil in H2.
  - intros p n wd H Hd. change (watch_at p s = Some wd) in H.
    destruct (co_below _ _ HC _ _ _ H Hd) as [(x & H1 & H2)|[H1|[H1|(q & c & H1)]]].
    + rewrite He in H1. apply elem_of_cons in H1 as [->|H1]; [|left; by exists x].
      right; right; left. unfold waiting. cbn. unfold r. rewrite (ProcessEvent_adds home p e n wd s) by done. by left.
    + by right; left.
    + unfold waiting in H1. rewrite Hp in H1. by apply not_elem_of_nil in H1.
    + by rewrite Hp in H1.
Qed.

Lemma elem_of_last (x y : path) l : last l = Some y → x ∈ l → x = y ∨ x ∈ removelast l.
Proof.
  intros H. apply last_Some in H as [l' ->]. rewrite removelast_last, elem_of_app, list_elem_of_singleton. tauto.
Qed.

(** [inotify_add_watch] gives the directory a watch, and leaves the others alone. *)
Lemma inotify_add_watch_spec home dir s wd watches nextWd : Truth home s → home (sy_nextWd s) = dir →
  inotify_add_watch dir s = (Some wd, watches, nextWd) →
  let s' := watcher_turned watches nextWd (sy_events s) (sy_watcher s) (sy_place s) (sy_reported s) s in
  is_Some (sy_dirs s !! dir) ∧ watch_at dir s' = Some wd ∧ home wd = dir ∧ wd < nextWd ∧ sy_nextWd s ≤ nextWd ∧
  ∀ p, p ≠ dir → watch_at p s' = watch_at p s.
Proof.
  intros HT Hh. unfold inotify_add_watch. destruct (sy_dirs s !! dir) as [i|] eqn:Hd; [|done].
  destruct (sy_watches s !! i) as [wd'|] eqn:Hw; intros [= <- <- <-].
  - destruct (watch_home home dir wd' s HT) as [H1 H2]; [apply watch_at_Some; eauto|].
    split; [done|]. split; [apply watch_at_Some; eauto|]. repeat split; [done|done|lia].
  - split; [done|]. split; [unfold watch_at; cbn; rewrite Hd; cbn; apply lookup_insert_eq|]. repeat split; [done|lia|lia|].
    intros p Hne. unfold watch_at. cbn. destruct (sy_dirs s !! p) as [j|] eqn:Hp; [|done]. cbn.
    rewrite lookup_insert_ne; [done|]. intros <-. apply Hne. by apply (tr_inj _ _ HT _ _ i).
Qed.

Lemma add_complete home queue callback s : sy_place s = Adding queue callback → next_home home s →
  Truth home s → Complete home s → ∀ s', turn s = Some s' → Complete home s'.
Proof.
  intros Hp Hh HT HC s'. unfold turn. rewrite Hp. destruct (last queue) as [dir|] eqn:Hl.
  - specialize (Hh _ _ _ Hp Hl). destruct (inotify_add_watch dir s) as [[[wd|] watches] nextWd] eqn:Ha.
    + destruct (inotify_add_watch_spec _ _ _ _ _ _ HT Hh Ha) as (Hd & Hw & Hwd & Hlt & Hle & Hother).
      intros [= <-]. set (s' := watcher_turned _ _ _ _ _ _ _).
      change (watch_at dir s' = Some wd) in Hw. change (∀ p, p ≠ dir → watch_at p s' = watch_at p s) in Hother.
      split; cbn; [apply HC|apply HC| | | | |].
      * intros p wd' [[<- <-]|[_ H]]%lookup_insert_Some; [done|]. apply (co_wds _ _ HC) in H as [? ?]. split; [lia|done].
      * apply HC.
      * intros p wd' H. destruct (decide (p = dir)) as [->|Hne].
        { rewrite Hw in H. simplify_eq. by rewrite !lookup_insert_eq. }
        rewrite Hother in H by done. destruct (watch_home _ _ _ _ HT H) as [H1 _].
        rewrite !lookup_insert_ne by (intros ?; congruence). by apply (co_live _ _ HC).
      * destruct (co_root _ _ HC) as [H1 H2]. split; [done|]. destruct (decide ([] = dir)) as [<-|Hne]; [left; eauto|].
        rewrite Hother by done. destruct H2 as [H2|H2]; [by left|]. unfold waiting in *. rewrite Hp in H2. cbn.
        destruct (elem_of_last _ _ _ Hl H2); [done|by right].
      * intros p n wd' H Hpn. destruct (decide (p = dir)) as [->|Hne]; [right; right; right; cbn; eauto|].
        rewrite Hother in H by done. destruct (decide (p ++ [n] = dir)) as [He|Hne']; [right; left; rewrite He; eauto|].
        rewrite Hother by done. destruct (co_below _ _ HC _ _ _ H Hpn) as [H1|[H1|[H1|(q & c & H1)]]]; [by left|by right; left| |congruence].
        unfold waiting in H1. rewrite Hp in H1. destruct (elem_of_last _ _ _ Hl H1); [done|by right; right; left].
    + assert (sy_dirs s !! dir = None ∧ watches = sy_watches s ∧ nextWd = sy_nextWd s) as (Hd & -> & ->).
      { unfold inotify_add_watch in Ha. by repeat case_match; simplify_eq. }
      intros [= <-]. assert (∀ q, is_Some (sy_dirs s !! q) → q ∈ waiting s → q ∈ removelast queue) as Hq.
      { unfold waiting. rewrite Hp. intros q [i Hi] H. destruct (elem_of_last _ _ _ Hl H) as [->|]; [congruence|done]. }
      split; cbn; [apply HC|apply HC|apply HC|apply HC|apply HC| |].
      * destruct (co_root _ _ HC) as [H1 [H2|H2]]; [by split; [|left]|]. split; [done|right]. by apply Hq.
      * intros p n wd H Hpn. destruct (co_below _ _ HC _ _ _ H Hpn) as [H1|[H1|[H1|(q & c & H1)]]];
          [by left|by right; left|right; right; left; by apply Hq|congruence].
  - intros [= <-]. assert (∀ q, q ∉ waiting s) as Hq.
    { unfold waiting. rewrite Hp. apply last_None in Hl as ->. intros q. apply not_elem_of_nil. }
    split; cbn; [apply HC|apply HC|apply HC|apply HC|apply HC| |].
    + destruct (co_root _ _ HC) as [H1 [H2|H2]]; [by split; [|left]|]. by apply Hq in H2.
    + intros p n wd H Hpn. destruct (co_below _ _ HC _ _ _ H Hpn) as [H1|[H1|[H1|(q & c & H1)]]];
        [by left|by right; left|by apply Hq in H1|congruence].
Qed.

Lemma iterate_complete home dir queue callback s : sy_place s = Iterating dir queue callback → Complete home s →
  ∀ s', turn s = Some s' → Complete home s'.
Proof.
  intros Hp HC s'. unfold turn. rewrite Hp. intros [= <-].
  assert (∀ q, q ∈ waiting s → q ∈ queue ++ subdirectories dir s) as Hq.
  { unfold waiting. rewrite Hp. intros q H. apply elem_of_app. by left. }
  split; cbn; [apply HC|apply HC|apply HC|apply HC|apply HC| |].
  - destruct (co_root _ _ HC) as [H1 [H2|H2]]; [by split; [|left]|]. split; [done|right]. by apply Hq.
  - intros p n wd H Hpn. destruct (co_below _ _ HC _ _ _ H Hpn) as [H1|[H1|[H1|(q & c & H1)]]];
      [by left|by right; left|right; right; left; by apply Hq|].
    assert (p = dir) as -> by congruence. right; right; left. apply elem_of_app. right. by apply child_of_subdirectories.
Qed.

Lemma turn_complete home s s' : Truth home s → Complete home s → next_home home s → turn s = Some s' → Complete home s'.
Proof.
  intros HT HC Hh. destruct (sy_place s) as [|queue callback|dir queue callback] eqn:Hp.
  - destruct (sy_events s) as [|e events] eqn:He; [unfold turn; by rewrite Hp, He|]. by apply (poll_complete _ _ _ _ Hp He).
  - by apply (add_complete _ _ _ _ Hp).
  - by apply (iterate_complete _ _ _ _ _ Hp).
Qed.

(** *** The paths of the watches: what is to be watched gets the next one *)

Lemma truth_agree home home' s : (∀ wd, wd < sy_nextWd s → home' wd = home wd) → Truth home s → Truth home' s.
Proof.
  intros H HT. split; try apply HT.
  - intros i wd Hw. apply (tr_live _ _ HT) in Hw as [H1 H2]. by rewrite H.
  - intros wd p Hw. apply (tr_mapped _ _ HT) in Hw as [H1 H2]. by rewrite H.
  - replace (omap (told home') (sy_events s)) with (omap (told home) (sy_events s)); [apply HT|].
    pose proof (tr_events _ _ HT) as He. induction (sy_events s) as [|e l IH]; [done|]. rewrite !omap_cons_app, IH by set_solver.
    unfold told, subject. rewrite H; [done|]. apply He. by left.
Qed.

Lemma complete_agree home home' s : (∀ wd, wd < sy_nextWd s → home' wd = home wd) → Truth home s → Complete home s → Complete home' s.
Proof.
  intros H HT HC. split; try apply HC.
  - intros p wd Hw. apply (co_wds _ _ HC) in Hw as [H1 H2]. by rewrite H.
  - intros e He. rewrite H; [by apply (co_gone _ _ HC)|]. by apply (tr_events _ _ HT) in He as [? _].
Qed.

Lemma choose_home home s : ∃ home', (∀ wd, wd < sy_nextWd s → home' wd = home wd) ∧ next_home home' s.
Proof.
  destruct (sy_place s) as [|queue callback|dir queue callback] eqn:Hp.
  1, 3: exists home; split; [done|]; unfold next_home; by rewrite Hp.
  destruct (last queue) as [dir|] eqn:Hl.
  - exists (<[sy_nextWd s := dir]> home). split; [intros wd H; rewrite fn_lookup_insert_ne by lia; done|].
    intros q c d H1 H2. rewrite Hp in H1. injection H1 as <- <-. rewrite fn_lookup_insert. congruence.
  - exists home. split; [done|]. intros ? ? ? ? ?. congruence.
Qed.

Lemma step_inv s s' : Inv s → step s s' → Inv s'.
Proof.
  intros HI [c Hc]. destruct c as [p name|p name first|p name mask type|p|p name p' name'|]; cbn [run] in Hc.
  - case_match eqn:Hg; [|done]. apply andb_true_iff in Hg as [[Hp%bool_decide_eq_true Hq%bool_decide_eq_true]%andb_true_iff Hn%negb_true_iff%bool_decide_eq_false].
    injection Hc as <-. intros Hm. destruct (HI Hm) as (home & HT & HC). exists home. split; [by apply mkdir_truth|].
    intros [Hr Hu%bool_decide_eq_false]%orb_false_iff. apply mkdir_complete; auto.
  - apply bind_Some in Hc as (i & Hi & Hc). case_match eqn:Hg; [|done].
    apply andb_true_iff in Hg as [Hs%bool_decide_eq_true Hn%negb_true_iff%bool_decide_eq_false].
    injection Hc as <-. intros Hm. destruct (HI Hm) as (home & HT & HC). exists home. split; [by apply rmdir_truth|].
    intros Hr. apply rmdir_complete; auto.
  - case_match eqn:Hg; [|done]. apply andb_true_iff in Hg as [[_ Hn%negb_true_iff%bool_decide_eq_false]%andb_true_iff Hk].
    injection Hc as <-. intros Hm. destruct (HI Hm) as (home & HT & HC). exists home. split; [by apply change_truth|].
    intros Hr. apply change_complete; auto.
  - case_match eqn:Hg; [|done]. apply andb_true_iff in Hg as [_ Hn%negb_true_iff%bool_decide_eq_false].
    injection Hc as <-. intros Hm. destruct (HI Hm) as (home & HT & HC). exists home. split; [by apply chattr_truth|].
    intros Hr. apply chattr_complete; auto.
  - case_match; [|done]. injection Hc as <-. intros [=].
  - assert (sy_moved s' = sy_moved s ∧ sy_reused s' = sy_reused s) as [Hm Hr].
    { unfold turn in Hc. repeat case_match; by simplify_eq. }
    intros Hms. rewrite Hm in Hms. destruct (HI Hms) as (home & HT & HC).
    destruct (choose_home home s) as (home' & Ha & Hn). exists home'.
    pose proof (truth_agree _ _ _ Ha HT) as HT'. split; [by apply (turn_truth _ s)|].
    rewrite Hr. intros Hrs. apply (turn_complete _ s); [done|by apply (complete_agree home); auto|done|done].
Qed.

(** A disk to start with: directories are in directories, and have inodes of their own. *)
Definition disk_ok (dirs : gmap path Z) (next : Z) : Prop :=
  is_Some (dirs !! []) ∧ (∀ p n, is_Some (dirs !! (p ++ [n])) → is_Some (dirs !! p)) ∧
  (∀ p i, dirs !! p = Some i → i < next) ∧ ∀ p q i, dirs !! p = Some i → dirs !! q = Some i → p = q.

Lemma start_inv dirs next : disk_ok dirs next → Inv (start dirs next).
Proof.
  intros (H1 & H2 & H3 & H4) _. exists (λ _, []). split; [|intros _]; split; cbn; try done.
  - intros e H. by apply not_elem_of_nil in H.
  - intros p H. by apply elem_of_dom.
  - intros e H. by apply not_elem_of_nil in H.
  - intros p wd (i & _ & H)%watch_at_Some. done.
  - split; [done|]. right. unfold waiting. cbn. by left.
  - intros p n wd (i & _ & H)%watch_at_Some. done.
Qed.

Lemma reached_inv dirs next s : disk_ok dirs next → rtc step (start dirs next) s → Inv s.
Proof. intros H. apply rtc_invariant; [by apply start_inv|]. intros x y. apply step_inv. Qed.

(** *** The watcher comes to an end when the disk is left alone *)

Definition turned s s' : Prop := turn s = Some s'.

(** What a turn does not change. *)
Definition same_disk s s' : Prop :=
  sy_dirs s' = sy_dirs s ∧ sy_moved s' = sy_moved s ∧ sy_reused s' = sy_reused s.

Lemma turned_same s s' : turned s s' → same_disk s s'.
Proof. unfold turned, turn. intros H. repeat case_match; by simplify_eq. Qed.

Lemma turns_same s s' : rtc turned s s' → same_disk s s'.
Proof.
  induction 1 as [|x y z (H1 & H2 & H3)%turned_same _ (H4 & H5 & H6)]; [done|]. unfold same_disk. by rewrite H4, H5, H6.
Qed.

Definition depth s : nat := max_list (map length (map_to_list (sy_dirs s)).*1).

Lemma dir_depth p s : is_Some (sy_dirs s !! p) → (length p ≤ depth s)%nat.
Proof.
  intros [i H]. apply max_list_elem_of_le, list_elem_of_fmap. exists p. split; [done|].
  apply list_elem_of_fmap. exists (p, i). split; [done|]. by apply elem_of_map_to_list.
Qed.

(** A directory, and all below it, is watched in finitely many turns. *)
Lemma add_ends n : ∀ p queue callback s, sy_place s = Adding (queue ++ [p]) callback → (depth s < length p + n)%nat →
  ∃ s', rtc turned s s' ∧ sy_place s' = Adding queue callback ∧ sy_events s' = sy_events s.
Proof.
  induction n as [|n IH]; intros p queue callback s Hp Hn;
    (destruct (inotify_add_watch p s) as [[[wd|] watches] nextWd] eqn:Ha;
     [|eexists; split; [apply rtc_once; unfold turned, turn; rewrite Hp, last_snoc, removelast_last, Ha; reflexivity|done]]).
  - assert (is_Some (sy_dirs s !! p)) as H%dir_depth; [|lia].
    unfold inotify_add_watch in Ha. by case_match; simplify_eq.
  - edestruct (λ s1, ex_intro (λ s1, turned s s1 ∧ sy_place s1 = Iterating p queue callback ∧ sy_events s1 = sy_events s) s1)
      as (s1 & H1 & Hp1 & He1).
    { split; [unfold turned, turn; rewrite Hp, last_snoc, removelast_last, Ha; reflexivity|done]. }
    destruct (turned_same _ _ H1) as [Hd1 _].
    assert (∃ s2, turned s1 s2 ∧ sy_place s2 = Adding (queue ++ subdirectories p s1) callback ∧ sy_events s2 = sy_events s1 ∧
      sy_dirs s2 = sy_dirs s1) as (s2 & H2 & Hp2 & He2 & Hd2).
    { eexists. split; [unfold turned, turn; rewrite Hp1; reflexivity|done]. }
    assert (∀ q, q ∈ subdirectories p s1 → length q = S (length p)) as Hlen.
    { intros q (_ & <- & Hq)%elem_of_subdirectories. destruct (exists_last Hq) as (q' & m & ->).
      rewrite removelast_last, length_app. cbn. lia. }
    assert (∀ l s3, (∀ q, q ∈ l → length q = S (length p)) → sy_place s3 = Adding (queue ++ l) callback → sy_dirs s3 = sy_dirs s →
      ∃ s', rtc turned s3 s' ∧ sy_place s' = Adding queue callback ∧ sy_events s' = sy_events s3) as Hl.
    { induction l as [|q l IHl] using rev_ind; intros s3 Hq Hp3 Hd3; [exists s3; rewrite app_nil_r in Hp3; done|].
      rewrite app_assoc in Hp3. destruct (IH _ _ _ _ Hp3) as (s4 & H4 & Hp4 & He4).
      { unfold depth. rewrite Hd3. fold (depth s). rewrite Hq by (apply elem_of_app; right; by left). lia. }
      destruct (turns_same _ _ H4) as [Hd4 _].
      destruct (IHl s4) as (s' & H5 & Hp5 & He5); [intros; apply Hq, elem_of_app; by left|done|congruence|].
      exists s'. split; [by transitivity s4|]. split; [done|congruence]. }
    destruct (Hl _ s2 Hlen Hp2) as (s' & H3 & Hp3 & He3); [congruence|].
    exists s'. split; [|split; [done|congruence]]. eapply rtc_l; [exact H1|]. by eapply rtc_l.
Qed.

Lemma queue_ends queue callback s : sy_place s = Adding queue callback →
  ∃ s', rtc turned s s' ∧ sy_place s' = Polling ∧ sy_events s' = sy_events s.
Proof.
  revert s. induction queue as [|p queue IH] using rev_ind; intros s Hp.
  - eexists. split; [apply rtc_once; unfold turned, turn; rewrite Hp; reflexivity|done].
  - destruct (add_ends (S (depth s)) _ _ _ _ Hp) as (s1 & H1 & Hp1 & He1); [lia|].
    destruct (IH _ Hp1) as (s2 & H2 & Hp2 & He2). exists s2. split; [by transitivity s1|]. split; [done|congruence].
Qed.

Lemma place_ends s : ∃ s', rtc turned s s' ∧ sy_place s' = Polling ∧ sy_events s' = sy_events s.
Proof.
  destruct (sy_place s) as [|queue callback|dir queue callback] eqn:Hp; [by exists s|by eapply queue_ends|].
  edestruct (queue_ends (queue ++ subdirectories dir s) callback (watcher_turned (sy_watches s) (sy_nextWd s) (sy_events s)
    (sy_watcher s) (Adding (queue ++ subdirectories dir s) callback) (sy_reported s) s)) as (s' & H & Hp' & He); [done|].
  exists s'. split; [|done]. eapply rtc_l; [|exact H]. unfold turned, turn. by rewrite Hp.
Qed.

(** An event of a removal may bring one more, [IN_IGNORED], which brings none. *)
Definition effort (events : list inotify_event) : nat := sum_list_with (λ e, if has IN_IGNORED e then 1 else 2)%nat events.

Lemma poll_effort e events s : sy_place s = Polling → sy_events s = e :: events →
  ∃ s', turned s s' ∧ (effort (sy_events s') < effort (sy_events s))%nat.
Proof.
  intros Hp He. unfold turned, turn. rewrite Hp, He.
  destruct (match pr_remove (ProcessEvent e (sy_watcher s)) with Some wd => inotify_rm_watch wd s | None => (sy_watches s, []) end)
    as [watches ignored] eqn:Hrm.
  eexists. split; [reflexivity|]. cbn. unfold effort. rewrite sum_list_with_app. fold (effort events) (effort ignored). cbn.
  fold (effort events).
  destruct (has IN_IGNORED e) eqn:Hi.
  - assert (pr_remove (ProcessEvent e (sy_watcher s)) = None) as Hn by (unfold ProcessEvent; rewrite Hi; by destruct (iw_wdToPath (sy_watcher s) !! ie_wd e)).
    rewrite Hn in Hrm. injection Hrm as _ <-. cbn. lia.
  - assert (effort ignored ≤ 1)%nat; [|lia].
    destruct (pr_remove _) as [wd|]; [unfold inotify_rm_watch in Hrm|]; injection Hrm as _ <-; [case_bool_decide|]; first [exact (Nat.le_refl 1) | exact (Nat.le_0_l 1)].
Qed.

(** ** Theorems *)

(** At rest every directory of the disk is watched. *)
Lemma rest_watched dirs next s p :
  disk_ok dirs next → rtc step (start dirs next) s → sy_moved s = false → sy_reused s = false →
  sy_place s = Polling → sy_events s = [] → is_Some (sy_dirs s !! p) →
  ∃ wd, watch_at p s = Some wd ∧ iw_wdToPath (sy_watcher s) !! wd = Some p ∧ iw_pathToWd (sy_watcher s) !! p = Some wd.
Proof.
  intros Hd Hr Hm Hu Hp He. destruct (reached_inv _ _ _ Hd Hr Hm) as (home & HT & HC). specialize (HC Hu).
  assert (∀ q, q ∉ waiting s) as Hq by (unfold waiting; rewrite Hp; intros q; apply not_elem_of_nil).
  intros Hdir. cut (is_Some (watch_at p s)).
  { intros [wd H]. exists wd. split; [done|]. by apply (co_live _ _ HC). }
  revert Hdir. induction p as [|n p IH] using rev_ind; intros Hdir.
  - destruct (co_root _ _ HC) as [_ [H|H]]; [done|by apply Hq in H].
  - destruct IH as [wd Hw]; [by apply (co_closed _ _ HC _ n)|].
    destruct (co_below _ _ HC _ _ _ Hw Hdir) as [(e & H & _)|[H|[H|(q & c & H)]]];
      [rewrite He in H; by apply not_elem_of_nil in H|done|by apply Hq in H|congruence].
Qed.

(** When the disk is left alone the watcher catches up: in finitely many turns it is back
    in [poll], with no event pending. *)
Lemma watcher_catches_up s : ∃ s', rtc turned s s' ∧ sy_place s' = Polling ∧ sy_events s' = [] ∧ same_disk s s'.
Proof.
  remember (effort (sy_events s)) as n eqn:Hn. revert s Hn. induction n as [n IH] using lt_wf_ind. intros s ->.
  destruct (place_ends s) as (s1 & H1 & Hp1 & He1).
  destruct (sy_events s) as [|e events] eqn:He; [exists s1; pose proof (turns_same _ _ H1); done|].
  destruct (poll_effort e events s1 Hp1 He1) as (s2 & H2 & Hlt). rewrite He1 in Hlt.
  destruct (IH _ Hlt s2 eq_refl) as (s3 & H3 & Hp3 & He3 & _). exists s3.
  assert (rtc turned s s3) as H by (transitivity s1; [done|by eapply rtc_l]).
  split; [done|]. split; [done|]. split; [done|by apply turns_same].
Qed.

Lemma turned_steps s s' : rtc turned s s' → rtc step s s'.
Proof. induction 1 as [|x y z H _ IH]; [done|]. eapply rtc_l; [by exists Turn|done]. Qed.

(** C15: Whatever was created and removed while the watcher was at work: when the disk is left
    alone, the watcher is back in [poll] with no event pending after finitely many turns,
    and every directory of the disk is then watched, under its path.  This is so as long
    as no directory was moved and no name of a directory used again. *)
Theorem directories_watched dirs next s :
  disk_ok dirs next → rtc step (start dirs next) s → sy_moved s = false → sy_reused s = false →
  ∃ s', rtc turned s s' ∧ sy_place s' = Polling ∧ sy_events s' = [] ∧ sy_dirs s' = sy_dirs s ∧
  ∀ p, is_Some (sy_dirs s !! p) →
  ∃ wd, watch_at p s' = Some wd ∧ iw_wdToPath (sy_watcher s') !! wd = Some p ∧ iw_pathToWd (sy_watcher s') !! p = Some wd.
Proof.
  intros Hd Hr Hm Hu. destruct (watcher_catches_up s) as (s' & Ht & Hp & He & (Hd' & Hm' & Hu')).
  exists s'. repeat (split; [done|]). intros p Hdir. apply (rest_watched dirs next); [done| |congruence..].
  transitivity s; [done|by apply turned_steps].
Qed.


(** *** A history: directories are made and removed while the watcher adds them *)

Fixpoint runs (commands : list command) s : option System :=
  match commands with
  | [] => Some s
  | c :: commands => s ← run c s; runs commands s
  end.

Lemma runs_rtc commands s s' : runs commands s = Some s' → rtc step s s'.
Proof.
  revert s. induction commands as [|c commands IH]; cbn; intros s H; [by simplify_eq|].
  apply bind_Some in H as (s1 & H1 & H2). eapply rtc_l; [by exists c|by apply IH].
Qed.

Lemma disk_ok_check dirs next :
  bool_decide (is_Some (dirs !! [])) &&
  forallb (λ pi, ((bool_decide (pi.1 = []) || bool_decide (is_Some (dirs !! removelast pi.1))) && (pi.2 <? next)))
    (map_to_list dirs) &&
  forallb (λ pi, forallb (λ qj, bool_decide (pi.1 = qj.1) || negb (pi.2 =? qj.2)) (map_to_list dirs)) (map_to_list dirs) = true →
  disk_ok dirs next.
Proof.
  intros [[H1%bool_decide_eq_true H2]%andb_true_iff H3]%andb_true_iff. rewrite forallb_forall in H2, H3.
  assert (∀ p i, dirs !! p = Some i → In (p, i) (map_to_list dirs)) as Hin.
  { intros p i H. by apply list_elem_of_In, elem_of_map_to_list. }
  split; [done|]. split; [|split].
  - intros p n [i H%Hin%H2]. apply andb_true_iff in H as [H _]. cbn [fst] in H. rewrite removelast_last in H.
    apply orb_true_iff in H as [H%bool_decide_eq_true|H%bool_decide_eq_true]; [by apply app_nil in H as [_ ?]|done].
  - intros p i H%Hin%H2. apply andb_true_iff in H as [_ H]. by apply Z.ltb_lt in H.
  - intros p q i Hp%Hin Hq%Hin. apply H3 in Hp. rewrite forallb_forall in Hp. apply Hp in Hq. cbn in Hq.
    apply orb_true_iff in Hq as [H%bool_decide_eq_true|H]; [done|]. by rewrite Z.eqb_refl in H.
Qed.

Definition disk0 : gmap path Z := list_to_map [([], 1); (["a"], 2); (["a"; "b"], 3)].

Lemma disk0_ok : disk_ok disk0 4.
Proof. apply disk_ok_check. by vm_compute. Qed.

Definition turns (n : nat) : list command := replicate n Turn.

(** Two directories are made while the watcher looks for those that were there, another is
    removed, a file is written, a directory is made in the root and one gets other
    attributes. *)
Definition busy : list command :=
  turns 2 ++ [Mkdir ["a"] "c"] ++ turns 2 ++ [Mkdir ["a"; "c"] "d"; Rmdir ["a"] "b" false; ChangeFile ["a"] "f" IN_CLOSE_WRITE Modified; Mkdir [] "e"; ChangeDir ["a"]].

(** The turns that are left, when the disk is left alone. *)
Fixpoint settle (fuel : nat) s : System :=
  match fuel with
  | O => s
  | S fuel => match turn s with Some s' => settle fuel s' | None => s end
  end.

Lemma settle_rtc fuel s : rtc step s (settle fuel s).
Proof.
  revert s. induction fuel as [|fuel IH]; intros s; [done|]. cbn. destruct (turn s) as [s'|] eqn:H; [|done].
  eapply rtc_l; [by exists Turn|apply IH].
Qed.

Definition after (dirs : gmap path Z) (next : Z) (commands : list command) : option System :=
  settle 100 <$> runs commands (start dirs next).

Lemma after_rtc dirs next commands s : after dirs next commands = Some s → rtc step (start dirs next) s.
Proof.
  unfold after. rewrite fmap_Some. intros (s' & H & ->). transitivity s'; [by apply (runs_rtc commands)|apply settle_rtc].
Qed.



(** The changes are done, and the watcher is still adding. *)
Definition busy_now : System := default (start disk0 4) (runs busy (start disk0 4)).

Lemma directories_watched_witness :
  length (waiting busy_now) = 2%nat ∧ is_Some (sy_dirs busy_now !! ["a"; "c"; "d"]) ∧ watch_at ["a"; "c"; "d"] busy_now = None ∧
  ∃ s', rtc turned busy_now s' ∧ sy_place s' = Polling ∧ sy_events s' = [] ∧ sy_dirs s' = sy_dirs busy_now ∧
  ∀ p, is_Some (sy_dirs busy_now !! p) →
  ∃ wd, watch_at p s' = Some wd ∧ iw_wdToPath (sy_watcher s') !! wd = Some p ∧ iw_pathToWd (sy_watcher s') !! p = Some wd.
Proof.
  split; [by vm_compute|]. split; [vm_compute; eauto|]. split; [by vm_compute|].
  refine (directories_watched disk0 4 busy_now disk0_ok (runs_rtc busy _ _ _) _ _); by vm_compute.
Defined.


(** *** What the code gets wrong *)

(** A directory that is moved loses its watch, and gets no other: neither it nor what is
    made in it afterwards is watched. *)
Definition moved_end : System :=
  default (start disk0 4) (after disk0 4 (turns 7 ++ [MoveDir ["a"] "b" [] "m"] ++ turns 4 ++ [Mkdir ["m"] "n"])).

(** The event of a removal is about a name, and the watch that is taken away is the one
    of the directory that has the name when the event is processed. *)
Definition stale_end : System :=
  default (start disk0 4) (after disk0 4 (turns 7 ++
    [Mkdir [] "g"; Rmdir [] "g" true; Mkdir [] "g"; Mkdir ["g"] "p"; Mkdir ["g"; "p"] "n"] ++ turns 8 ++
    [Rmdir ["g"; "p"] "n" false; Rmdir ["g"] "p" false; Mkdir ["g"] "p"; Mkdir ["g"; "p"] "n"])).

(** The directory [m], and [n] in it, are on the disk, and have no watch: [ProcessEvent]
    adds one for [IN_CREATE] only, not for [IN_MOVED_TO]. *)
Lemma moved_directory_unwatched :
  rtc step (start disk0 4) moved_end ∧ sy_place moved_end = Polling ∧ sy_events moved_end = [] ∧
  is_Some (sy_dirs moved_end !! ["m"; "n"]) ∧
  watch_at ["m"] moved_end = None ∧ watch_at ["m"; "n"] moved_end = None.
Proof.
  split; [refine (after_rtc _ _ _ _ (_ : after disk0 4 (turns 7 ++ [MoveDir ["a"] "b" [] "m"] ++ turns 4 ++ [Mkdir ["m"] "n"]) = _)); by vm_compute|].
  repeat split; try by vm_compute. vm_compute. eauto.
Qed.

(** [n] was removed and made again, while its watch was being added anew: the event of its
    removal, which is late, takes the new watch away. *)
Lemma stale_event_unwatches :
  sy_place stale_end = Polling ∧ sy_events stale_end = [] ∧ sy_moved stale_end = false ∧
  is_Some (sy_dirs stale_end !! ["g"; "p"; "n"]) ∧ watch_at ["g"; "p"; "n"] stale_end = None.
Proof. repeat split; try by vm_compute. vm_compute. eauto. Qed.
