(* ===== verification/ConnStream.v ===== *)
(** * Streams of bytes over a connection
    [src/ConnectionReader.cpp], [src/ConnectionWriter.cpp] and their headers: a value is
    written into free packets, a thread sends what is flushed, and the other side reads
    values out of the packets it receives. *)
From S2P Require Import Prelude MessageIO.
Local Open Scope Z_scope.

(** A packet is its payload here too, [_packet] a position in [_packets], the end of the
    list being its length. *)

(** ** Reading *)

Module ConnectionReader.

Record ConnectionReader := mkConnectionReader {
  cr_packets : list payload;
  cr_packet : nat;
  cr_offset : nat;
  cr_error : bool;
}.
Implicit Types (r : ConnectionReader).

Definition make : ConnectionReader := mkConnectionReader [] 0 0 false.

Definition GetPacket r : res payload :=
  match cr_packets r !! cr_packet r with Some p => Ret p | None => Err Undefined end.

(** [recvs] are the lists that [Recv] is going to return, in turn; it has to wait when
    there is none.  [_freePackets], which it is given, is always empty. *)
Definition Recv (recvs : list (list payload)) : res (list payload * list (list payload)) :=
  match recvs with [] => Err OutOfFuel | packets :: recvs => Ret (packets, recvs) end.

(** Whether there is a next packet. *)
Definition GetNextPacket (stop : bool) (recvs : list (list payload)) r : res (bool * ConnectionReader * list (list payload)) :=
  if stop then Ret (false, r, recvs)
  else
    defined_if (cr_packet r <? length (cr_packets r))%nat;;
    let previouseIterator := cr_packet r in
    if (S (cr_packet r) =? length (cr_packets r))%nat then
      '(packets, recvs) ← Recv recvs;
      match packets with
      | [] => Ret (false, mkConnectionReader (cr_packets r) (S (cr_packet r)) (cr_offset r) (cr_error r), recvs)
      | _ => Ret (true, mkConnectionReader (cr_packets r ++ packets) (S previouseIterator) 0 (cr_error r), recvs)
      end
    else Ret (true, mkConnectionReader (cr_packets r) (S (cr_packet r)) 0 (cr_error r), recvs).

(** The loop of [read]. *)
Fixpoint read_loop (fuel size : nat) (dest : list Z) r : res (list Z * ConnectionReader) :=
  match size with
  | O => Ret (dest, r)
  | _ =>
      match fuel with
      | O => Err OutOfFuel
      | S fuel =>
          packet ← GetPacket r;
          defined_if (cr_offset r <=? length packet)%nat;;
          let readSize := Nat.min size (length packet - cr_offset r) in
          read_loop fuel (size - readSize) (dest ++ slice (cr_offset r) readSize packet)
            (mkConnectionReader (cr_packets r) (cr_packet r) (cr_offset r + readSize) (cr_error r))
      end
  end.

Definition set_error r : ConnectionReader := mkConnectionReader (cr_packets r) (cr_packet r) (cr_offset r) true.

(** What was put at [data].  [stop] and [stop'] are what the stop token says at the
    beginning of [read] and in [GetNextPacket]. *)
Definition read (stop stop' : bool) (fuel size : nat) (recvs : list (list payload)) r :
    res (list Z * ConnectionReader * list (list payload)) :=
  if stop then Ret ([], r, recvs)
  else
    '(r, recvs) ← (if (cr_packet r =? length (cr_packets r))%nat then
        '(packets, recvs) ← Recv recvs;
        Ret (mkConnectionReader (cr_packets r ++ packets) 0 (cr_offset r) (cr_error r), recvs)
      else Ret (r, recvs));
    packet ← GetPacket r;
    '(more, r, recvs) ← (if (cr_offset r =? length packet)%nat then GetNextPacket stop' recvs r else Ret (true, r, recvs));
    if negb more then Ret ([], set_error r, recvs)
    else '(dest, r) ← read_loop fuel size [] r; Ret (dest, r, recvs).

(** Reads of these sizes, one after the other. *)
Fixpoint reads (sizes : list nat) (recvs : list (list payload)) r : res (list (list Z) * ConnectionReader * list (list payload)) :=
  match sizes with
  | [] => Ret ([], r, recvs)
  | size :: sizes =>
      '(bytes, r, recvs) ← read false false 1 size recvs r;
      '(answers, r, recvs) ← reads sizes recvs r;
      Ret (bytes :: answers, r, recvs)
  end.

End ConnectionReader.

(** ** The reader of a list of packets *)

Module PacketReader.

Record PacketReader := mkPacketReader {
  pr_packets : list payload;
  pr_packet : nat;
  pr_offset : nat;
}.
Implicit Types (r : PacketReader).

Definition make (packets : list payload) : PacketReader := mkPacketReader packets 0 0.

Definition GetPacket r : res payload :=
  match pr_packets r !! pr_packet r with Some p => Ret p | None => Err Undefined end.

(** [operator>>] of a value of some bytes: what the value is afterwards.  The first
    [memcpy] has the packet as its destination and the value as its source. *)
Definition read (trivial : list Z) r : res (list Z * PacketReader) :=
  packet ← GetPacket r;
  defined_if (pr_offset r <=? length packet)%nat;;
  let readSize := Nat.min (length trivial) (length packet - pr_offset r) in
  let r := mkPacketReader (<[pr_packet r := store (pr_offset r) (take readSize trivial) packet]> (pr_packets r))
             (pr_packet r) (pr_offset r + readSize) in
  let size := (length trivial - readSize)%nat in
  if (0 <? size)%nat then
    let r := mkPacketReader (pr_packets r) (S (pr_packet r)) (pr_offset r) in
    packet ← GetPacket r;
    defined_if (size <=? length packet)%nat;;
    mret (take readSize trivial ++ take size packet, mkPacketReader (pr_packets r) (pr_packet r) size)
  else mret (trivial, r).

End PacketReader.

(** ** Writing *)

Module ConnectionWriter.

Record ConnectionWriter := mkConnectionWriter {
  cw_freePackets : list payload;
  cw_packetsToSend : list payload;
  cw_packets : list payload;
  cw_packet : nat;
  cw_offset : nat;
  cw_error : bool;
}.
Implicit Types (w : ConnectionWriter).

(** The constructor; [packets] is what [Send2] returned. *)
Definition make (packets : list payload) : ConnectionWriter := mkConnectionWriter [] [] packets 0 0 false.

(** Where the user's thread is: in none of the operations, in the loop of [write], in
    [flush], or in [GetNextPacket], which [write] and [flush] call.  [src] is what [write]
    has still to store.  [after] is the list
    that [operator<<] sends when [flush] has returned. *)
Inductive place :=
  | Idle
  | Writing (src : list Z)
  | WritingNext (src : list Z)
  | Flushing (after : option (list payload))
  | FlushingOffset (after : option (list payload))
  | FlushingNext (packet : nat) (after : option (list payload))
  | FlushingNotify (after : option (list payload))
  | FlushingWait (after : option (list payload))
  | Putting (packets : list payload)
  | Crashed
  | Ended.

(** Where [SendThread] is: waiting for packets, in [Send2], or returning what it gave. *)
Inductive sending :=
  | Fetching
  | Sending (packets : list payload)
  | Freeing (packets : list payload).

(** The threads, whether each of them sleeps in a [Wait], the stop token of the user, and
    what was passed to the writer and what was sent. *)
Record System := mkSystem {
  sy_writer : ConnectionWriter;
  sy_user : place;
  sy_userSleeps : bool;
  sy_sender : sending;
  sy_senderSleeps : bool;
  sy_stop : bool;
  sy_sent : list payload;
  sy_written : list Z;       (* the arguments of the calls of [write] and of [operator<<] *)
  sy_flushed : bool;         (* [flush] was called and has returned since, nobody has asked to stop *)
}.
Implicit Types (s : System).

Definition start (packets : list payload) : System :=
  mkSystem (make packets) Idle false Fetching false false [] [] false.

(** [_packetsToSend.NotifyAll()] wakes both who wait for packets to send, and who wait
    until there are none. *)
Definition notify_toSend s : System :=
  mkSystem (sy_writer s) (sy_user s) (match sy_user s with FlushingWait _ => false | _ => sy_userSleeps s end)
    (sy_sender s) (match sy_sender s with Fetching => false | _ => sy_senderSleeps s end)
    (sy_stop s) (sy_sent s) (sy_written s) (sy_flushed s).

Definition notify_free s : System :=
  mkSystem (sy_writer s) (sy_user s)
    (match sy_user s with WritingNext _ | FlushingNext _ _ => false | _ => sy_userSleeps s end)
    (sy_sender s) (sy_senderSleeps s) (sy_stop s) (sy_sent s) (sy_written s) (sy_flushed s).

(** A turn of the user's thread: what it leaves behind, and where it goes on. *)
Definition user_turn w user s : System :=
  mkSystem w user false (sy_sender s) (sy_senderSleeps s) (sy_stop s) (sy_sent s) (sy_written s) (sy_flushed s).
Definition user_sleeps s : System :=
  mkSystem (sy_writer s) (sy_user s) true (sy_sender s) (sy_senderSleeps s) (sy_stop s) (sy_sent s) (sy_written s) (sy_flushed s).
Definition wrote (bytes : list Z) s : System :=
  mkSystem (sy_writer s) (sy_user s) (sy_userSleeps s) (sy_sender s) (sy_senderSleeps s) (sy_stop s) (sy_sent s)
    (sy_written s ++ bytes) (sy_flushed s).
Definition flushed (b : bool) s : System :=
  mkSystem (sy_writer s) (sy_user s) (sy_userSleeps s) (sy_sender s) (sy_senderSleeps s) (sy_stop s) (sy_sent s)
    (sy_written s) b.

(** [GetNextPacket]: [None] when it has to wait, and whether there is a next packet. *)
Definition GetNextPacket (stop : bool) w : option (bool * ConnectionWriter) :=
  if (S (cw_packet w) =? length (cw_packets w))%nat then
    match cw_freePackets w with
    | [] =>
        if stop then
          Some (false, mkConnectionWriter [] (cw_packetsToSend w) (cw_packets w) (S (cw_packet w)) (cw_offset w) (cw_error w))
        else None
    | freePackets =>
        Some (true, mkConnectionWriter [] (cw_packetsToSend w) (cw_packets w ++ freePackets) (S (cw_packet w)) 0 (cw_error w))
    end
  else Some (true, mkConnectionWriter (cw_freePackets w) (cw_packetsToSend w) (cw_packets w) (S (cw_packet w)) 0 (cw_error w)).

(** A turn of the loop of [write]. *)
Definition write_turn (src : list Z) s : System :=
  let w := sy_writer s in
  match src with
  | [] => user_turn w Idle s
  | _ =>
      match cw_packets w !! cw_packet w with
      | None => user_turn w Crashed s
      | Some packet =>
          if (length packet <? cw_offset w)%nat then user_turn w Crashed s
          else
            let writeSize := Nat.min (length src) (length packet - cw_offset w) in
            let offset := (cw_offset w + writeSize)%nat in
            let w := mkConnectionWriter (cw_freePackets w) (cw_packetsToSend w)
              (<[cw_packet w := store (cw_offset w) (take writeSize src) packet]> (cw_packets w)) (cw_packet w) offset (cw_error w) in
            user_turn w (if (offset =? length packet)%nat then WritingNext (drop writeSize src) else Writing (drop writeSize src)) s
      end
  end.

Definition set_error w : ConnectionWriter :=
  mkConnectionWriter (cw_freePackets w) (cw_packetsToSend w) (cw_packets w) (cw_packet w) (cw_offset w) true.

(** [flush] up to the packet that is being written. *)
Definition flush_full w : ConnectionWriter :=
  if (cw_packet w =? 0)%nat then w
  else mkConnectionWriter (cw_freePackets w) (cw_packetsToSend w ++ take (cw_packet w) (cw_packets w))
    (drop (cw_packet w) (cw_packets w)) 0 (cw_offset w) (cw_error w).

(** The packet that is being written, cut to what is in it.  The pointer that is left in
    the list is null; it is erased before anybody reads it, an empty payload here. *)
Definition flush_last packet w : ConnectionWriter :=
  mkConnectionWriter (cw_freePackets w) (cw_packetsToSend w ++ [take (cw_offset w) packet])
    (<[cw_packet w := []]> (cw_packets w)) (cw_packet w) (cw_offset w) (cw_error w).

(** [_packets.erase(packet)], behind which [_packet] is. *)
Definition erase (packet : nat) w : ConnectionWriter :=
  mkConnectionWriter (cw_freePackets w) (cw_packetsToSend w) (delete packet (cw_packets w)) (pred (cw_packet w))
    (cw_offset w) (cw_error w).

Definition splice_toSend packets w : ConnectionWriter :=
  mkConnectionWriter (cw_freePackets w) (cw_packetsToSend w ++ packets) (cw_packets w) (cw_packet w) (cw_offset w) (cw_error w).

(** The user's thread. *)
Definition user s : option System :=
  let w := sy_writer s in
  if sy_userSleeps s && negb (sy_stop s) then None
  else
    match sy_user s with
    | Idle | Crashed | Ended => None
    | Writing src => Some (write_turn src s)
    | WritingNext src =>
        match GetNextPacket (sy_stop s) w with
        | None => Some (user_sleeps s)
        | Some (true, w) => Some (user_turn w (Writing src) s)
        | Some (false, w) => Some (user_turn (set_error w) Idle s)
        end
    | Flushing after => Some (user_turn (flush_full w) (FlushingOffset after) s)
    | FlushingOffset after =>
        if (0 <? cw_offset w)%nat then
          match cw_packets w !! cw_packet w with
          | None => Some (user_turn w Crashed s)
          | Some packet => Some (user_turn (flush_last packet w) (FlushingNext (cw_packet w) after) s)
          end
        else Some (user_turn w (FlushingNotify after) s)
    | FlushingNext packet after =>
        match GetNextPacket (sy_stop s) w with
        | None => Some (user_sleeps s)
        | Some (_, w) => Some (user_turn (erase packet w) (FlushingNotify after) s)
        end
    | FlushingNotify after => Some (notify_toSend (user_turn w (FlushingWait after) s))
    | FlushingWait after =>
        match cw_packetsToSend w with
        | _ :: _ =>
            if negb (sy_stop s) then Some (user_sleeps s)
            else Some (user_turn w (match after with Some packets => Putting packets | None => Idle end) s)
        | [] =>
            Some (flushed (negb (sy_stop s) && bool_decide (after = None)) (user_turn w (match after with Some packets => Putting packets | None => Idle end) s))
        end
    | Putting packets =>
        Some (flushed false (notify_toSend (user_turn (splice_toSend packets w) Idle s)))
    end.

(** [SendThread]; [free] is what [Send2] returns.  Nobody else takes packets out of
    [_packetsToSend], so waiting for them, taking them and notifying are one turn. *)
Definition sender (free : list payload) s : option System :=
  let w := sy_writer s in
  let go w sender sent s :=
    mkSystem w (sy_user s) (sy_userSleeps s) sender false (sy_stop s) sent (sy_written s) (sy_flushed s) in
  if sy_senderSleeps s then None
  else
    match sy_sender s with
    | Fetching =>
        match cw_packetsToSend w with
        | [] => Some (mkSystem w (sy_user s) (sy_userSleeps s) Fetching true (sy_stop s) (sy_sent s) (sy_written s) (sy_flushed s))
        | packets =>
            Some (notify_toSend (go (mkConnectionWriter (cw_freePackets w) [] (cw_packets w) (cw_packet w) (cw_offset w) (cw_error w))
              (Sending packets) (sy_sent s) s))
        end
    | Sending packets => Some (go w (Freeing free) (sy_sent s ++ packets) s)
    | Freeing packets =>
        Some (notify_free (go (mkConnectionWriter (cw_freePackets w ++ packets) (cw_packetsToSend w) (cw_packets w) (cw_packet w)
          (cw_offset w) (cw_error w)) Fetching (sy_sent s) s))
    end.

(** [GetFreePackets], the last operation of a writer: what was not flushed is lost. *)
Definition GetFreePackets w : list payload * ConnectionWriter :=
  (cw_packets w, mkConnectionWriter (cw_freePackets w) (cw_packetsToSend w) [] 0 (cw_offset w) (cw_error w)).

(** What can happen: the user calls an operation, which does nothing when it is to stop;
    a thread takes a turn; the user is to stop, which wakes it. *)
Inductive command :=
  | Write (src : list Z)
  | Flush
  | Put (packets : list payload)
  | Take
  | UserTurn
  | SenderTurn (free : list payload)
  | Stop.

Definition call user bytes s : option System :=
  match sy_user s with
  | Idle => Some (if sy_stop s then s else wrote bytes (user_turn (sy_writer s) user s))
  | _ => None
  end.

Definition run (c : command) s : option System :=
  match c with
  | Write src => flushed false <$> call (Writing src) src s
  | Flush => flushed false <$> call (Flushing None) [] s
  | Put packets => flushed false <$> call (Flushing (Some packets)) (concat packets) s
  | Take => match sy_user s with Idle => Some (flushed false (user_turn (GetFreePackets (sy_writer s)).2 Ended s)) | _ => None end
  | UserTurn => user s
  | SenderTurn free => sender free s
  | Stop => Some (mkSystem (sy_writer s) (sy_user s) (sy_userSleeps s) (sy_sender s) (sy_senderSleeps s) true (sy_sent s)
      (sy_written s) false)
  end.

Definition step s s' : Prop := ∃ c, run c s = Some s'.

End ConnectionWriter.

(** ** What is read *)

Section reading.
Import ConnectionReader.
Implicit Types (r : ConnectionReader).

(** The packets that are still to be read, the first of them from its offset. *)
Definition ahead r (recvs : list (list payload)) : list payload :=
  match cr_packets r !! cr_packet r with
  | Some p => drop (cr_offset r) p :: drop (S (cr_packet r)) (cr_packets r)
  | None => []
  end ++ concat recvs.

(** No value of these sizes crosses the end of a packet. *)
Inductive Fits : list nat → list payload → Prop :=
  | fits_nil packets : Fits [] packets
  | fits_next size sizes packets : Fits (size :: sizes) packets → Fits (size :: sizes) ([] :: packets)
  | fits_read size sizes packet packets :
      (0 < size)%nat → (size ≤ length packet)%nat → Fits sizes (drop size packet :: packets) → Fits (size :: sizes) (packet :: packets).

Record Reading r : Prop := {
  re_packets : Forall (λ p, p ≠ []) (cr_packets r);
  re_place : (r = make) ∨ ∃ p, cr_packets r !! cr_packet r = Some p ∧ (cr_offset r ≤ length p)%nat;
}.

(** The connection is open, and gives packets that have something in them. *)
Definition Receives (recvs : list (list payload)) : Prop := Forall (λ l, l ≠ [] ∧ Forall (λ p, p ≠ []) l) recvs.

(** Within the packet the loop takes one turn. *)
Lemma read_loop_within size r p dest :
  cr_packets r !! cr_packet r = Some p → (0 < size)%nat → (cr_offset r + size ≤ length p)%nat →
  read_loop 1 size dest r =
    Ret (dest ++ slice (cr_offset r) size p, mkConnectionReader (cr_packets r) (cr_packet r) (cr_offset r + size) (cr_error r)).
Proof.
  intros Hp H0 Hs. destruct size as [|size]; [lia|]. cbn [read_loop]. unfold GetPacket. rewrite Hp. cbn [res_bind mbind].
  rewrite (proj2 (defined_if_ret _)) by (apply Nat.leb_le; lia). cbn [res_bind mbind].
  replace (Nat.min (S size) (length p - cr_offset r)) with (S size) by lia. rewrite Nat.sub_diag. done.
Qed.

(** Where a packet has bytes left, that many are read. *)
Lemma fits_within size sizes p packets : Fits (size :: sizes) (p :: packets) → p ≠ [] →
  (0 < size)%nat ∧ (size ≤ length p)%nat ∧ Fits sizes (drop size p :: packets).
Proof. by inversion 1. Qed.

Lemma fits_behind size sizes packets : Fits (size :: sizes) ([] :: packets) → Fits (size :: sizes) packets.
Proof. inversion 1; [done|]. cbn in *. lia. Qed.

(** The packet that is read from, after [GetNextPacket]. *)
Definition current r r' (recvs recvs' : list (list payload)) : Prop :=
  Reading r' ∧ Receives recvs' ∧ ∃ p, cr_packets r' !! cr_packet r' = Some p ∧ drop (cr_offset r') p ≠ [] ∧
  concat (ahead r' recvs') = concat (ahead r recvs) ∧
  ∀ size sizes, Fits (size :: sizes) (ahead r recvs) → Fits (size :: sizes) (ahead r' recvs').

(** [_packet] moves on only when there is nothing left in the packet. *)
Definition prepare (recvs : list (list payload)) r : res (bool * ConnectionReader * list (list payload)) :=
  '(r, recvs) ← (if (cr_packet r =? length (cr_packets r))%nat then
      '(packets, recvs) ← Recv recvs;
      Ret (mkConnectionReader (cr_packets r ++ packets) 0 (cr_offset r) (cr_error r), recvs)
    else Ret (r, recvs));
  packet ← GetPacket r;
  if (cr_offset r =? length packet)%nat then GetNextPacket false recvs r else Ret (true, r, recvs).

Lemma read_prepare size recvs r r' recvs' : prepare recvs r = Ret (true, r', recvs') →
  read false false 1 size recvs r = '(dest, r) ← read_loop 1 size [] r'; Ret (dest, r, recvs').
Proof.
  unfold prepare, read. intros ([r1 recvs1] & -> & H)%bind_ret. cbn [mbind res_bind].
  apply bind_ret in H as (packet & -> & H). cbn [mbind res_bind]. by rewrite H.
Qed.

Lemma drop_not_nil (offset : nat) (p : payload) : (offset < length p)%nat → drop offset p ≠ [].
Proof. intros H He. apply (f_equal length) in He. rewrite length_drop in He. cbn in He. lia. Qed.

Lemma prepare_current recvs r : Reading r → Receives recvs → (∃ size sizes, Fits (size :: sizes) (ahead r recvs)) →
  ∃ r' recvs', prepare recvs r = Ret (true, r', recvs') ∧ current r r' recvs recvs'.
Proof.
  intros HR HV (size0 & sizes0 & Hf0). destruct (re_place _ HR) as [->|(p & Hp & Hoff)].
  - destruct recvs as [|l recvs]; [by inversion Hf0|]. apply Forall_cons in HV as [[Hl Hps] HV].
    destruct l as [|p l]; [done|]. apply Forall_cons in Hps as [Hp Hps]. destruct p as [|x p]; [done|].
    exists (mkConnectionReader ((x :: p) :: l) 0 0 false), recvs. split; [done|].
    split; [split; cbn; [by apply Forall_cons|right; eexists; split; [done|cbn; lia]]|]. split; [done|]. exists (x :: p).
    split; [done|]. split; [done|]. unfold ahead. cbn. by rewrite drop_0.
  - assert (cr_packet r < length (cr_packets r))%nat as Hlt by by apply lookup_lt_Some in Hp.
    unfold prepare. rewrite (proj2 (Nat.eqb_neq _ _)) by lia. cbn [mbind res_bind]. unfold GetPacket. rewrite Hp. cbn [mbind res_bind].
    destruct (Nat.eqb_spec (cr_offset r) (length p)) as [He|Hne].
    2:{ exists r, recvs. split; [done|]. split; [done|]. split; [done|]. exists p. split; [done|].
        split; [apply drop_not_nil; lia|done]. }
    assert (drop (cr_offset r) p = []) as Hd by (rewrite He; apply drop_all).
    unfold GetNextPacket. rewrite (proj2 (defined_if_ret _)) by by apply Nat.ltb_lt. cbn [mbind res_bind].
    unfold ahead in Hf0. rewrite Hp, Hd in Hf0. cbn [app] in Hf0. apply fits_behind in Hf0.
    destruct (Nat.eqb_spec (S (cr_packet r)) (length (cr_packets r))) as [Hlast|Hnext].
    + rewrite drop_ge in Hf0 by lia. destruct recvs as [|l recvs]; [by inversion Hf0|].
      apply Forall_cons in HV as [[Hl Hps] HV]. destruct l as [|q l]; [done|].
      assert ((cr_packets r ++ q :: l) !! S (cr_packet r) = Some q) as Hq.
      { rewrite Hlast. apply list_lookup_middle. done. }
      pose proof Hps as [Hqn _]%Forall_cons.
      eexists _, recvs. split; [reflexivity|]. split; [split; cbn; [by apply Forall_app; split; [apply HR|]|right; exists q; split; [done|lia]]|].
      split; [done|]. exists q. split; [done|]. split; [by rewrite drop_0|].
      assert (ahead r ((q :: l) :: recvs) = [] :: (q :: l) ++ concat recvs) as ->.
      { unfold ahead. rewrite Hp, Hd. rewrite drop_ge by lia. done. }
      assert (∀ o e, ahead (mkConnectionReader (cr_packets r ++ q :: l) (S (cr_packet r)) o e) recvs = drop o q :: l ++ concat recvs) as Hahead.
      { intros o e. unfold ahead. cbn [cr_packets cr_packet cr_offset]. rewrite Hq, Hlast.
        rewrite drop_app_ge by lia. replace (S (length (cr_packets r)) - length (cr_packets r))%nat with 1%nat by lia. done. }
      rewrite Hahead, drop_0. split; [done|]. intros size sizes H. by apply fits_behind.
    + destruct (lookup_lt_is_Some_2 (cr_packets r) (S (cr_packet r))) as [q Hq]; [lia|].
      assert (q ≠ []) as Hqn by (pose proof (re_packets _ HR) as HF; by apply (Forall_lookup_1 _ _ _ _ HF Hq)).
      eexists _, recvs. split; [reflexivity|]. split; [split; cbn; [apply HR|right; exists q; split; [done|lia]]|].
      split; [done|]. exists q. split; [done|]. split; [by rewrite drop_0|].
      assert (drop (S (cr_packet r)) (cr_packets r) = q :: drop (S (S (cr_packet r))) (cr_packets r)) as Hdrop by by apply drop_S.
      unfold ahead. cbn [cr_packets cr_packet cr_offset]. rewrite Hp, Hq, Hd, Hdrop, drop_0. split; [done|].
      intros size sizes H. by apply fits_behind.
Qed.

Lemma read_value_fits size sizes recvs r : Reading r → Receives recvs → Fits (size :: sizes) (ahead r recvs) →
  ∃ bytes r' recvs', read false false 1 size recvs r = Ret (bytes, r', recvs') ∧ length bytes = size ∧
    bytes ++ concat (ahead r' recvs') = concat (ahead r recvs) ∧
    Reading r' ∧ Receives recvs' ∧ Fits sizes (ahead r' recvs').
Proof.
  intros HR HV Hf. destruct (prepare_current recvs r HR HV) as (r1 & recvs1 & H1 & HR1 & HV1 & p & Hp & Hd & Hc & Hfit); [eauto|].
  apply Hfit in Hf. assert (ahead r1 recvs1 = drop (cr_offset r1) p :: drop (S (cr_packet r1)) (cr_packets r1) ++ concat recvs1) as Ha.
  { unfold ahead. by rewrite Hp. }
  rewrite Ha in Hf. apply fits_within in Hf as (H0 & Hs & Hf); [|done]. rewrite length_drop in Hs.
  eexists _, _, recvs1. split; [rewrite (read_prepare _ _ _ _ _ H1), (read_loop_within _ _ p) by (done || lia); reflexivity|].
  assert (ahead (mkConnectionReader (cr_packets r1) (cr_packet r1) (cr_offset r1 + size) (cr_error r1)) recvs1 =
    drop size (drop (cr_offset r1) p) :: drop (S (cr_packet r1)) (cr_packets r1) ++ concat recvs1) as Ha'.
  { unfold ahead. cbn [cr_packets cr_packet cr_offset]. by rewrite Hp, drop_drop. }
  split; [cbn [app]; rewrite length_slice; lia|]. split; [|split; [|split; [done|by rewrite Ha']]].
  - rewrite <-Hc, Ha, Ha'. cbn [app concat]. unfold slice. by rewrite app_assoc, take_drop.
  - split; [apply HR1|right]. exists p. split; [done|]. cbn. lia.
Qed.

Lemma reads_fit sizes recvs r : Reading r → Receives recvs → Fits sizes (ahead r recvs) →
  ∃ answers r' recvs', reads sizes recvs r = Ret (answers, r', recvs') ∧ map length answers = sizes ∧
    concat answers ++ concat (ahead r' recvs') = concat (ahead r recvs).
Proof.
  revert recvs r. induction sizes as [|size sizes IH]; intros recvs r HR HV Hf; [by exists [], r, recvs|].
  destruct (read_value_fits _ _ _ _ HR HV Hf) as (bytes & r1 & recvs1 & H1 & Hl & Hc & HR1 & HV1 & Hf1).
  destruct (IH _ _ HR1 HV1 Hf1) as (answers & r' & recvs' & H2 & Hls & Hcs).
  exists (bytes :: answers), r', recvs'. cbn [reads]. rewrite H1. cbn [mbind res_bind]. rewrite H2. cbn [mbind res_bind].
  split; [done|]. cbn. split; [by rewrite Hl, Hls|]. by rewrite <-app_assoc, Hcs.
Qed.

(** *** What is not read *)

(** A value that crosses the end of the packet: the loop goes on with 0 bytes at a time. *)
Lemma read_loop_stuck fuel size r p dest :
  cr_packets r !! cr_packet r = Some p → cr_offset r = length p → (0 < size)%nat → read_loop fuel size dest r = Err OutOfFuel.
Proof.
  revert dest r. induction fuel as [|fuel IH]; intros dest r Hp Ho H0; (destruct size as [|size]; [lia|]); [done|].
  cbn [read_loop]. unfold GetPacket. rewrite Hp. cbn [mbind res_bind].
  rewrite (proj2 (defined_if_ret _)) by (apply Nat.leb_le; lia). cbn [mbind res_bind].
  rewrite Ho, Nat.sub_diag, Nat.min_0_r, Nat.sub_0_r. apply IH; cbn; [done|lia|lia].
Qed.

Lemma read_loop_crossing fuel size r p dest :
  cr_packets r !! cr_packet r = Some p → (cr_offset r ≤ length p)%nat → (length p - cr_offset r < size)%nat →
  read_loop fuel size dest r = Err OutOfFuel.
Proof.
  intros Hp Ho Hs. destruct fuel as [|fuel]; (destruct size as [|size]; [lia|]); [done|].
  cbn [read_loop]. unfold GetPacket. rewrite Hp. cbn [mbind res_bind].
  rewrite (proj2 (defined_if_ret _)) by (apply Nat.leb_le; lia). cbn [mbind res_bind].
  rewrite Nat.min_r by lia. apply (read_loop_stuck _ _ _ p); cbn; [done|lia|lia].
Qed.

End reading.

(** ** What is written *)

Section writing.
Import ConnectionWriter.
Implicit Types (w : ConnectionWriter) (s : System).

(** What is in the packets and not flushed. *)
Definition in_packets w : list Z :=
  concat (take (cw_packet w) (cw_packets w)) ++ take (cw_offset w) (default [] (cw_packets w !! cw_packet w)).
Definition buffered s : list Z :=
  match sy_user s with FlushingNext _ _ => [] | _ => in_packets (sy_writer s) end.

(** What [Send2] has, or is about to have. *)
Definition handed s : list Z :=
  concat (sy_sent s) ++ match sy_sender s with Sending packets => concat packets | _ => [] end ++
  concat (cw_packetsToSend (sy_writer s)).

Definition place_ok s : Prop :=
  let w := sy_writer s in
  match sy_user s with
  | WritingNext _ => ∃ p, cw_packets w !! cw_packet w = Some p ∧ cw_offset w = length p
  | FlushingOffset _ => cw_packet w = 0%nat
  | FlushingNext packet _ => packet = 0%nat ∧ cw_packet w = 0%nat ∧ ∃ packets, cw_packets w = [] :: packets
  | FlushingNotify _ | FlushingWait _ | Putting _ => in_packets w = []
  | _ => True
  end.

(** What was passed to the writer and is not in the packets yet. *)
Definition pending (user : place) : list Z :=
  match user with
  | Writing src | WritingNext src => src
  | Putting packets | Flushing (Some packets) | FlushingOffset (Some packets) | FlushingNext _ (Some packets)
  | FlushingNotify (Some packets) | FlushingWait (Some packets) => concat packets
  | _ => []
  end.

(** Nothing is lost but by [GetFreePackets], a null packet, and a [write] that was told to
    stop. *)
Definition in_order s : Prop :=
  match sy_user s with
  | Ended | Crashed => handed s `prefix_of` sy_written s
  | Idle => handed s ++ buffered s `prefix_of` sy_written s ∧ (sy_stop s = false → handed s ++ buffered s = sy_written s)
  | user => handed s ++ buffered s ++ pending user = sy_written s
  end.

(** The user is in one of the operations. *)
Definition active s : Prop := match sy_user s with Idle | Crashed | Ended => False | _ => True end.

Record Inv s : Prop := {
  in_stream : in_order s;
  in_place : place_ok s;
  in_flushed : sy_flushed s = true →
    cw_packetsToSend (sy_writer s) = [] ∧ in_packets (sy_writer s) = [] ∧ sy_user s = Idle ∧ sy_stop s = false;
}.

Lemma in_packets_next w p : cw_packets w !! cw_packet w = Some p → cw_offset w = length p → ∀ packets free toSend offset error,
  in_packets (mkConnectionWriter free toSend (cw_packets w ++ packets) (S (cw_packet w)) offset error) =
  in_packets w ++ take offset (default [] ((cw_packets w ++ packets) !! S (cw_packet w))).
Proof.
  intros Hp Ho packets free toSend offset error. unfold in_packets. cbn [cw_packets cw_packet cw_offset]. rewrite Hp. cbn [default from_option id].
  rewrite Ho, firstn_all. f_equal. pose proof (lookup_lt_Some _ _ _ Hp). rewrite take_app_le by lia.
  rewrite (take_S_r _ _ _ Hp), concat_app. cbn. by rewrite app_nil_r.
Qed.

Lemma in_packets_0 w : cw_packet w = 0%nat → in_packets w = take (cw_offset w) (default [] (cw_packets w !! 0%nat)).
Proof. intros H. unfold in_packets. by rewrite H. Qed.

(** Storing more bytes into the packet that is written. *)
Lemma in_packets_store w p src free toSend error :
  cw_packets w !! cw_packet w = Some p → (cw_offset w + length src ≤ length p)%nat →
  in_packets (mkConnectionWriter free toSend (<[cw_packet w := store (cw_offset w) src p]> (cw_packets w)) (cw_packet w)
    (cw_offset w + length src) error) = in_packets w ++ src.
Proof.
  intros Hp Hl. unfold in_packets. cbn [cw_packets cw_packet cw_offset]. rewrite Hp. cbn [default from_option id].
  pose proof (lookup_lt_Some _ _ _ Hp). rewrite list_lookup_insert_eq by done. cbn [default from_option id].
  rewrite take_insert_ge by lia. rewrite <-app_assoc. f_equal. unfold store.
  apply list_eq. intros i. destruct (decide (i < cw_offset w + length src)%nat) as [Hi|Hi].
  - rewrite lookup_take_lt by lia. destruct (decide (i < cw_offset w)%nat) as [Hi'|Hi'].
    + rewrite list_lookup_inserts_lt by lia. rewrite lookup_app_l by (rewrite length_take; lia). by rewrite lookup_take_lt.
    + rewrite list_lookup_inserts by lia. rewrite lookup_app_r by (rewrite length_take; lia). rewrite length_take. f_equal. lia.
  - rewrite lookup_take_ge by lia. symmetry. apply lookup_ge_None. rewrite length_app, length_take. lia.
Qed.

Lemma active_stream s : Inv s → active s → handed s ++ buffered s ++ pending (sy_user s) = sy_written s.
Proof. intros HI Ha. pose proof (in_stream _ HI) as Hs. unfold in_order, active in *. by destruct (sy_user s). Qed.

Lemma not_flushed s : Inv s → active s → sy_flushed s = false.
Proof.
  intros HI Hp. destruct (sy_flushed s) eqn:Hf; [|done]. apply (in_flushed _ HI) in Hf as (_ & _ & H & _).
  unfold active in Hp. by rewrite H in Hp.
Qed.

(** A turn that moves bytes on. *)
Lemma user_moves_inv w place s :
  Inv s → active s → place ≠ Ended →
  handed (user_turn w place s) ++ buffered (user_turn w place s) ++ pending place = handed s ++ buffered s ++ pending (sy_user s) →
  place_ok (user_turn w place s) → Inv (user_turn w place s).
Proof.
  intros HI Ha Hne Hb Hp. pose proof (not_flushed _ HI Ha) as Hf. rewrite (active_stream _ HI Ha) in Hb.
  split; [|done|cbn; congruence]. unfold in_order. cbn [sy_user user_turn sy_written sy_stop].
  destruct place; try done; cbn [pending] in Hb; rewrite ?app_nil_r in Hb; [by rewrite Hb|].
  rewrite <- Hb. by eexists.
Qed.

(** A turn that leaves the packets as they are. *)
Lemma user_turn_inv w place s :
  Inv s → active s → place ≠ Ended →
  cw_packetsToSend w = cw_packetsToSend (sy_writer s) → buffered (user_turn w place s) = buffered s →
  pending place = pending (sy_user s) →
  place_ok (user_turn w place s) → Inv (user_turn w place s).
Proof.
  intros HI Ha Hne Ht Hb Hpe Hp. apply user_moves_inv; try done.
  assert (handed (user_turn w place s) = handed s) as -> by (unfold handed; cbn; by rewrite Ht). by rewrite Hb, Hpe.
Qed.

(** The operation is left without having done all that it was asked. *)
Lemma gives_up_inv w place s :
  Inv s → active s → cw_packetsToSend w = cw_packetsToSend (sy_writer s) →
  place = Crashed ∨ place = Idle ∧ sy_stop s = true ∧ buffered (user_turn w Idle s) = buffered s →
  Inv (user_turn w place s).
Proof.
  intros HI Ha Ht Hp. pose proof (active_stream _ HI Ha) as Hs. pose proof (not_flushed _ HI Ha) as Hf.
  assert (∀ place, handed (user_turn w place s) = handed s) as Hh by (intros ?; unfold handed; cbn; by rewrite Ht).
  destruct Hp as [->|(-> & Hstop & Hb)]; (split; [unfold in_order; cbn [sy_user user_turn]; rewrite Hh|done|cbn; congruence]).
  - cbn. rewrite <- Hs. by eexists.
  - cbn [sy_stop user_turn sy_written]. rewrite Hb. split; [|congruence]. rewrite <- Hs, app_assoc. by eexists.
Qed.

Lemma sleeps_inv b s : Inv s →
  Inv (mkSystem (sy_writer s) (sy_user s) b (sy_sender s) (sy_senderSleeps s) (sy_stop s) (sy_sent s) (sy_written s) (sy_flushed s)).
Proof. intros [H1 H2 H3]. by split. Qed.

Lemma notify_toSend_inv s : Inv s → Inv (notify_toSend s).
Proof. intros [H1 H2 H3]. by split. Qed.

Lemma notify_free_inv s : Inv s → Inv (notify_free s).
Proof. intros [H1 H2 H3]. by split. Qed.

Lemma flushed_false_inv s : Inv s → Inv (flushed false s).
Proof. intros [H1 H2 H3]. by split. Qed.

Lemma write_turn_inv src s : Inv s → sy_user s = Writing src → Inv (write_turn src s).
Proof.
  intros HI Hu. assert (active s) as Ha by (unfold active; by rewrite Hu).
  unfold write_turn. destruct src as [|x src].
  { apply user_turn_inv; try done; [unfold buffered; by rewrite Hu|by rewrite Hu]. }
  destruct (cw_packets (sy_writer s) !! cw_packet (sy_writer s)) as [packet|] eqn:Hp; [|apply gives_up_inv; auto].
  destruct (Nat.ltb_spec (length packet) (cw_offset (sy_writer s))) as [Hlt|Hle]; [apply gives_up_inv; auto|].
  set (writeSize := Nat.min (length (x :: src)) (length packet - cw_offset (sy_writer s))).
  assert (length (take writeSize (x :: src)) = writeSize) as Hlen by (rewrite length_take; unfold writeSize; lia).
  pose proof (in_packets_store (sy_writer s) packet (take writeSize (x :: src)) (cw_freePackets (sy_writer s))
    (cw_packetsToSend (sy_writer s)) (cw_error (sy_writer s)) Hp) as Hstore.
  rewrite Hlen in Hstore. specialize (Hstore ltac:(unfold writeSize; lia)).
  apply user_moves_inv; [done|done|by case_match| |].
  - unfold buffered. rewrite Hu. cbn [sy_user user_turn sy_writer pending].
    match goal with |- ?h ++ _ = _ => change h with (handed s) end.
    transitivity (handed s ++ (in_packets (sy_writer s) ++ take writeSize (x :: src)) ++ drop writeSize (x :: src)).
    + rewrite <-Hstore. by destruct (cw_offset (sy_writer s) + writeSize =? length packet)%nat.
    + by rewrite <-app_assoc, take_drop.
  - destruct (Nat.eqb_spec (cw_offset (sy_writer s) + writeSize) (length packet)) as [He|Hne]; [|done]. cbn.
    eexists. split; [apply list_lookup_insert_eq; by apply lookup_lt_Some in Hp|].
    unfold store. rewrite length_inserts. done.
Qed.

(** [GetNextPacket] moves behind a packet that is full. *)
Lemma GetNextPacket_stream stop w p more w' : cw_packets w !! cw_packet w = Some p →
  GetNextPacket stop w = Some (more, w') →
  cw_packetsToSend w' = cw_packetsToSend w ∧ cw_packet w' = S (cw_packet w) ∧ (∃ packets, cw_packets w' = cw_packets w ++ packets) ∧
  (if more then cw_offset w' = 0%nat else cw_packets w' !! cw_packet w' = None ∧ cw_packets w' = cw_packets w) ∧
  (more = false → stop = true).
Proof.
  intros Hp. unfold GetNextPacket. destruct (Nat.eqb_spec (S (cw_packet w)) (length (cw_packets w))) as [He|Hne].
  - destruct (cw_freePackets w) as [|q free]; [destruct stop; [|done]|]; intros [= <- <-]; cbn.
    + repeat split; [exists []; by rewrite app_nil_r|apply lookup_ge_None; lia].
    + repeat split; [by eexists|done].
  - intros [= <- <-]. cbn. repeat split; [|done]. exists []. by rewrite app_nil_r.
Qed.

Lemma in_packets_moved w w' p more : cw_packets w !! cw_packet w = Some p → cw_packet w' = S (cw_packet w) →
  (∃ packets, cw_packets w' = cw_packets w ++ packets) →
  (if more : bool then cw_offset w' = 0%nat else cw_packets w' !! cw_packet w' = None ∧ cw_packets w' = cw_packets w) →
  in_packets w' = concat (take (cw_packet w) (cw_packets w)) ++ p.
Proof.
  intros Hp Hi (packets & He) Hm. pose proof (lookup_lt_Some _ _ _ Hp) as Hlt. unfold in_packets.
  assert (take (cw_offset w') (default [] (cw_packets w' !! cw_packet w')) = []) as ->.
  { destruct more; [by rewrite Hm|]. destruct Hm as [-> _]. apply take_nil. }
  rewrite He, Hi, app_nil_r, take_app_le by lia. rewrite (take_S_r _ _ _ Hp), concat_app. cbn. by rewrite app_nil_r.
Qed.

Lemma write_next_inv src s : Inv s → sy_user s = WritingNext src → ∀ s',
  match GetNextPacket (sy_stop s) (sy_writer s) with
  | None => Some (user_sleeps s)
  | Some (true, w) => Some (user_turn w (Writing src) s)
  | Some (false, w) => Some (user_turn (set_error w) Idle s)
  end = Some s' → Inv s'.
Proof.
  intros HI Hu s'. assert (active s) as Ha by (unfold active; by rewrite Hu).
  pose proof (in_place _ HI) as Hpl. unfold place_ok in Hpl. rewrite Hu in Hpl. destruct Hpl as (p & Hp & Ho).
  destruct (GetNextPacket (sy_stop s) (sy_writer s)) as [[more w]|] eqn:Hg; [|intros [= <-]; by apply sleeps_inv].
  destruct (GetNextPacket_stream _ _ _ _ _ Hp Hg) as (H1 & H2 & H3 & H4 & H5).
  pose proof (in_packets_moved _ _ _ _ Hp H2 H3 H4) as Hin.
  assert (in_packets w = in_packets (sy_writer s)) as Heq.
  { rewrite Hin. unfold in_packets. rewrite Hp. cbn. by rewrite Ho, firstn_all. }
  destruct more; intros [= <-].
  - apply user_turn_inv; try done; [unfold buffered; rewrite Hu; done|by rewrite Hu].
  - apply gives_up_inv; [done|done|done|right]. split; [done|]. split; [by apply H5|].
    unfold buffered. rewrite Hu. exact Heq.
Qed.

Lemma handed_turn w place packets s : cw_packetsToSend w = cw_packetsToSend (sy_writer s) ++ packets →
  handed (user_turn w place s) = handed s ++ concat packets.
Proof. intros H. unfold handed. cbn. by rewrite H, concat_app, !app_assoc. Qed.

Lemma flush_full_inv after s : Inv s → sy_user s = Flushing after → Inv (user_turn (flush_full (sy_writer s)) (FlushingOffset after) s).
Proof.
  intros HI Hu. assert (active s) as Ha by (unfold active; by rewrite Hu).
  apply user_moves_inv; [done|done|done| |].
  - rewrite (handed_turn _ _ (take (cw_packet (sy_writer s)) (cw_packets (sy_writer s)))).
    2:{ unfold flush_full. destruct (Nat.eqb_spec (cw_packet (sy_writer s)) 0) as [->|]; [|done]. by rewrite app_nil_r. }
    unfold buffered. rewrite Hu. cbn [sy_user sy_writer user_turn]. rewrite <-app_assoc. f_equal.
    change (pending (FlushingOffset after)) with (pending (Flushing after)). rewrite app_assoc. f_equal.
    unfold in_packets, flush_full.
    destruct (Nat.eqb_spec (cw_packet (sy_writer s)) 0) as [->|Hne]; [done|]. cbn [cw_packets cw_packet cw_offset].
    cbn [take concat app]. by rewrite lookup_drop, Nat.add_0_r.
  - unfold place_ok, flush_full. cbn. by destruct (Nat.eqb_spec (cw_packet (sy_writer s)) 0).
Qed.

Lemma flush_offset_inv after s s' : Inv s → sy_user s = FlushingOffset after → sy_userSleeps s && negb (sy_stop s) = false →
  user s = Some s' → Inv s'.
Proof.
  intros HI Hu Hsl. assert (active s) as Ha by (unfold active; by rewrite Hu).
  pose proof (in_place _ HI) as Hpl. unfold place_ok in Hpl. rewrite Hu in Hpl.
  unfold user. rewrite Hsl, Hu. pose proof (in_packets_0 _ Hpl) as H0. rewrite Hpl.
  destruct (Nat.ltb_spec 0 (cw_offset (sy_writer s))) as [Hlt|Hle].
  - destruct (cw_packets (sy_writer s)) as [|packet packets] eqn:Hps; cbn [lookup list_lookup]; intros [= <-].
    + apply gives_up_inv; auto.
    + apply user_moves_inv; [done|done|done| |].
      * rewrite (handed_turn _ _ [take (cw_offset (sy_writer s)) packet]) by done.
        unfold buffered. rewrite Hu. cbn [sy_user user_turn]. rewrite H0. cbn. by rewrite !app_nil_r, <-app_assoc.
      * cbn. rewrite Hpl, Hps. cbn. repeat split. by eexists.
  - intros [= <-]. apply user_turn_inv; try done; [unfold buffered; by rewrite Hu|by rewrite Hu|].
    unfold place_ok. cbn. rewrite H0. assert (cw_offset (sy_writer s) = 0%nat) as -> by lia. done.
Qed.

Lemma flush_next_inv packet after s s' : Inv s → sy_user s = FlushingNext packet after → sy_userSleeps s && negb (sy_stop s) = false →
  user s = Some s' → Inv s'.
Proof.
  intros HI Hu Hsl. assert (active s) as Ha by (unfold active; by rewrite Hu).
  pose proof (in_place _ HI) as Hpl. unfold place_ok in Hpl. rewrite Hu in Hpl. destruct Hpl as (-> & H0 & packets & Hps).
  unfold user. rewrite Hsl, Hu. destruct (GetNextPacket (sy_stop s) (sy_writer s)) as [[more w]|] eqn:Hg.
  2:{ intros [= <-]. by apply sleeps_inv. }
  assert (cw_packets (sy_writer s) !! cw_packet (sy_writer s) = Some []) as Hp by by rewrite H0, Hps.
  destruct (GetNextPacket_stream _ _ _ _ _ Hp Hg) as (H1 & H2 & (new & H3) & H4 & _). intros [= <-].
  assert (in_packets (erase 0 w) = []) as Hin.
  { unfold in_packets, erase. cbn [cw_packet cw_packets cw_offset]. rewrite H2, H0, H3, Hps. cbn [pred take concat app delete list_delete].
    destruct more; [by rewrite H4|]. destruct H4 as [H4 H5]. rewrite H2, H0, H3, Hps in H4. cbn in H4.
    cbn [app]. destruct (packets ++ new) as [|q l]; [cbn; by destruct (cw_offset w)|done]. }
  apply user_turn_inv; try done; [unfold buffered; rewrite Hu; exact Hin|by rewrite Hu].
Qed.

Lemma flush_wait_inv after s s' : Inv s → sy_user s = FlushingWait after → sy_userSleeps s && negb (sy_stop s) = false →
  user s = Some s' → Inv s'.
Proof.
  intros HI Hu Hsl. assert (active s) as Ha by (unfold active; by rewrite Hu).
  pose proof (in_place _ HI) as Hpl. unfold place_ok in Hpl. rewrite Hu in Hpl.
  assert (Inv (user_turn (sy_writer s) (match after with Some packets => Putting packets | None => Idle end) s)) as HI'.
  { apply user_turn_inv; try done; [by destruct after| |rewrite Hu; by destruct after|by destruct after].
    unfold buffered. rewrite Hu. by destruct after. }
  unfold user. rewrite Hsl, Hu. destruct (cw_packetsToSend (sy_writer s)) as [|p toSend] eqn:Ht.
  - intros [= <-]. destruct HI' as [H1 H2 H3]. split; [exact H1|exact H2|].
    cbn. intros [Hst%negb_true_iff ->%bool_decide_eq_true]%andb_true_iff. rewrite Ht. done.
  - destruct (negb (sy_stop s)); intros [= <-]; [by apply sleeps_inv|done].
Qed.

Lemma put_inv packets s s' : Inv s → sy_user s = Putting packets → sy_userSleeps s && negb (sy_stop s) = false →
  user s = Some s' → Inv s'.
Proof.
  intros HI Hu Hsl. pose proof (in_place _ HI) as Hpl. unfold place_ok in Hpl. rewrite Hu in Hpl.
  assert (active s) as Ha by (unfold active; by rewrite Hu).
  pose proof (active_stream _ HI Ha) as Hs. unfold buffered in Hs. rewrite Hu, Hpl in Hs. cbn [app pending] in Hs.
  unfold user. rewrite Hsl, Hu. intros [= <-]. split; [|done|done].
  unfold in_order. cbn [sy_user flushed notify_toSend user_turn sy_written sy_stop]. unfold buffered. cbn [sy_user flushed notify_toSend user_turn].
  change (in_packets _) with (in_packets (sy_writer s)). rewrite Hpl, app_nil_r, <-Hs.
  match goal with |- ?h `prefix_of` _ ∧ _ =>
    replace h with (handed (user_turn (splice_toSend packets (sy_writer s)) Idle s)) by done end.
  by rewrite (handed_turn (splice_toSend packets (sy_writer s)) Idle packets).
Qed.

Lemma user_inv s s' : Inv s → user s = Some s' → Inv s'.
Proof.
  intros HI H. destruct (sy_userSleeps s && negb (sy_stop s)) eqn:Hsl; [unfold user in H; by rewrite Hsl in H|].
  destruct (sy_user s) eqn:Hu.
  1, 10, 11: unfold user in H; rewrite Hsl, Hu in H; done.
  - unfold user in H. rewrite Hsl, Hu in H. injection H as <-. by apply write_turn_inv.
  - unfold user in H. rewrite Hsl, Hu in H. by apply (write_next_inv src s).
  - unfold user in H. rewrite Hsl, Hu in H. injection H as <-. by apply flush_full_inv.
  - by apply (flush_offset_inv after s).
  - by apply (flush_next_inv packet after s).
  - unfold user in H. rewrite Hsl, Hu in H. injection H as <-. apply notify_toSend_inv.
    pose proof (in_place _ HI) as Hpl. unfold place_ok in Hpl. rewrite Hu in Hpl.
    apply user_turn_inv; try done; [unfold active; by rewrite Hu|unfold buffered; by rewrite Hu|by rewrite Hu].
  - by apply (flush_wait_inv after s).
  - by apply (put_inv packets s).
Qed.

(** The user, what it asked for, and the stream are as they were. *)
Lemma same_stream s s' :
  sy_user s' = sy_user s → sy_stop s' = sy_stop s → sy_written s' = sy_written s →
  handed s' = handed s → buffered s' = buffered s → in_order s → in_order s'.
Proof. intros H1 H2 H3 H4 H5. unfold in_order. by rewrite H1, H2, H3, H4, H5. Qed.

Lemma sender_inv free s s' : Inv s → sender free s = Some s' → Inv s'.
Proof.
  intros HI. unfold sender. destruct (sy_senderSleeps s); [done|]. pose proof (in_stream _ HI) as Hs.
  assert (∀ s', handed s' = handed s → sy_user s' = sy_user s → sy_stop s' = sy_stop s → sy_written s' = sy_written s →
    sy_flushed s' = sy_flushed s → cw_packets (sy_writer s') = cw_packets (sy_writer s) →
    cw_packet (sy_writer s') = cw_packet (sy_writer s) → cw_offset (sy_writer s') = cw_offset (sy_writer s) →
    (sy_flushed s = true → cw_packetsToSend (sy_writer s') = []) → Inv s') as Hkeep.
  { clear s'. intros s' E1 E2 E3 E4 E5 E6 E7 E8 E9.
    assert (in_packets (sy_writer s') = in_packets (sy_writer s)) as E10 by (unfold in_packets; by rewrite E6, E7, E8).
    split.
    - apply (same_stream s); try done. unfold buffered. by rewrite E2, E10.
    - pose proof (in_place _ HI) as Hpl. unfold place_ok in *. by rewrite E2, E6, E7, E8, E10.
    - rewrite E5. intros H. destruct (in_flushed _ HI H) as (? & ? & ? & ?). rewrite E2, E3, E10. auto. }
  unfold handed in Hkeep. destruct (sy_sender s) as [|packets|packets].
  - destruct (cw_packetsToSend (sy_writer s)) as [|p toSend] eqn:Ht; intros [= <-].
    + apply Hkeep; try done. cbn. by rewrite Ht.
    + apply notify_toSend_inv, Hkeep; try done. cbn. by rewrite app_nil_r.
  - intros [= <-]. apply Hkeep; try done.
    + cbn. by rewrite concat_app, <-app_assoc.
    + apply (in_flushed _ HI).
  - intros [= <-]. apply notify_free_inv, Hkeep; try done. apply (in_flushed _ HI).
Qed.

Lemma call_inv user bytes s s' : Inv s →
  match user with Writing _ | Flushing _ => pending user = bytes | _ => False end →
  flushed false <$> call user bytes s = Some s' → Inv s'.
Proof.
  intros HI Huser. unfold call. destruct (sy_user s) eqn:Hu; try done.
  destruct (sy_stop s) eqn:Hst; intros [= <-]; [by apply flushed_false_inv|].
  pose proof (in_stream _ HI) as H1. unfold in_order in H1. rewrite Hu in H1. destruct H1 as [_ H1]. specialize (H1 Hst).
  unfold buffered in H1. rewrite Hu in H1.
  split; [|by destruct user|done]. unfold in_order. cbn [sy_user flushed wrote user_turn sy_written].
  rewrite <- H1, <- app_assoc. unfold buffered. cbn [sy_user flushed wrote user_turn]. by destruct user; try done; subst bytes.
Qed.

Lemma stream_step_inv s s' : Inv s → step s s' → Inv s'.
Proof.
  intros HI [c Hc]. destruct c as [src| |packets| | |free|]; cbn [run] in Hc.
  - by apply (call_inv (Writing src) src s).
  - by apply (call_inv (Flushing None) [] s).
  - by apply (call_inv (Flushing (Some packets)) (concat packets) s).
  - destruct (sy_user s) eqn:Hu; try done. injection Hc as <-. pose proof (in_stream _ HI) as Hs.
    unfold in_order in Hs. rewrite Hu in Hs. destruct Hs as [Hs _].
    split; [|done|done]. unfold in_order. cbn [sy_user flushed user_turn sy_written].
    etransitivity; [|exact Hs]. by exists (buffered s).
  - by apply (user_inv s).
  - by apply (sender_inv free s).
  - injection Hc as <-. destruct HI as [H1 H2 H3]. split; [|done|done].
    unfold in_order in *. cbn [sy_user sy_stop]. destruct (sy_user s) eqn:Hu; try exact H1;
      try (unfold buffered in *; cbn [sy_user] in *; rewrite Hu in *; exact H1).
    destruct H1 as [H1 _]. unfold buffered in *. cbn [sy_user]. by rewrite Hu in *.
Qed.

Lemma stream_start_inv packets : Inv (start packets).
Proof. split; [|done|done]. unfold in_order, buffered, in_packets. cbn. by rewrite take_0. Qed.

Lemma stream_reached_inv packets s : rtc step (start packets) s → Inv s.
Proof. apply rtc_invariant; [apply stream_start_inv|]. intros x y. apply stream_step_inv. Qed.

End writing.

(** ** Theorems: reading *)

(** Values that were written one behind the other, none over the end of a packet, are read
    as they were written, whatever lists their packets come in: every read returns, with
    as many bytes as were asked for, and the bytes read are the beginning of what was
    received. *)
Lemma reads_in_order sizes recvs :
  Receives recvs → Fits sizes (concat recvs) →
  ∃ answers r' recvs', ConnectionReader.reads sizes recvs ConnectionReader.make = Ret (answers, r', recvs') ∧
    map length answers = sizes ∧ concat answers ++ concat (ahead r' recvs') = concat (concat recvs).
Proof. intros HV Hf. apply reads_fit; [split; [constructor|by left]|done|done]. Qed.

Lemma reads_in_order_witness :
  let recvs := [[[1; 2; 3]; [4; 5]]; [[6; 7; 8; 9]]] in
  ∃ answers r' recvs', ConnectionReader.reads [2; 1; 2; 3]%nat recvs ConnectionReader.make = Ret (answers, r', recvs') ∧
    map length answers = [2; 1; 2; 3]%nat ∧ concat answers ++ concat (ahead r' recvs') = concat (concat recvs).
Proof.
  apply (reads_in_order [2; 1; 2; 3]%nat [[[1; 2; 3]; [4; 5]]; [[6; 7; 8; 9]]]).
  - by repeat constructor.
  - repeat (first [apply fits_nil | apply fits_read; [cbn; lia|cbn; lia|cbn [drop]] | apply fits_next]).
Defined.

(** A value that lies in two packets is never read: the loop of [read] does not move on to
    the next packet, and does not end. *)
Lemma crossing_never_returns fuel size r p :
  ConnectionReader.cr_packets r !! ConnectionReader.cr_packet r = Some p → (0 < ConnectionReader.cr_offset r < length p)%nat → (length p - ConnectionReader.cr_offset r < size)%nat →
  ∀ recvs, ConnectionReader.read false false fuel size recvs r = Err OutOfFuel.
Proof.
  intros Hp Ho Hs recvs. assert (ConnectionReader.cr_packet r < length (ConnectionReader.cr_packets r))%nat by by apply lookup_lt_Some in Hp.
  unfold ConnectionReader.read. rewrite (proj2 (Nat.eqb_neq _ _)) by lia. cbn [mbind res_bind].
  unfold ConnectionReader.GetPacket. rewrite Hp. cbn [mbind res_bind]. rewrite (proj2 (Nat.eqb_neq _ _)) by lia.
  cbn [mbind res_bind negb]. by rewrite (read_loop_crossing _ _ _ p) by (done || lia).
Qed.

(** When the connection was closed a read fails, and the reads after it start again with
    the packets that were read before. *)
Lemma closed_connection_read_again :
  (let recvs := [[[1; 2]; [3; 4]]; []; []] in
   '(first, r, recvs) ← ConnectionReader.read false false 1 2 recvs ConnectionReader.make;
   '(second, r, recvs) ← ConnectionReader.read false false 1 2 recvs r;
   '(failed, r, recvs) ← ConnectionReader.read false false 1 2 recvs r;
   '(again, r, _) ← ConnectionReader.read false false 1 2 recvs r;
   Ret (first, second, failed, again)) = Ret ([1; 2], [3; 4], [], [3; 4]).
Proof. done. Qed.

(** A read of a connection that was closed before anything was received follows the end of
    the list. *)
Lemma closed_connection_undefined : ConnectionReader.read false false 1 4 [[]] ConnectionReader.make = Err Undefined.
Proof. done. Qed.

(** [PacketReader] leaves the value as it is, and writes it over the packet. *)
Lemma packet_reader_writes value packet packets : (length value ≤ length packet)%nat →
  PacketReader.read value (PacketReader.make (packet :: packets)) =
  Ret (value, PacketReader.mkPacketReader (store 0 value packet :: packets) 0 (length value)).
Proof.
  intros H. unfold PacketReader.read, PacketReader.make, PacketReader.GetPacket. cbn [PacketReader.pr_packets PacketReader.pr_packet lookup list_lookup mbind res_bind PacketReader.pr_offset].
  rewrite (proj2 (defined_if_ret _)) by done. cbn [mbind res_bind].
  rewrite Nat.sub_0_r, Nat.min_l, Nat.sub_diag, firstn_all by done. done.
Qed.

(** ** Theorems: writing *)

(** What the connection is given is the beginning of what was passed to the writer, in the
    order of the calls, the bytes of [write] and the lists of packets alike, however the
    user's thread, the sending thread and [Send2] take turns; and when [flush] has returned,
    all of it is with the sending thread. *)
Lemma writer_streams packets s :
  rtc ConnectionWriter.step (ConnectionWriter.start packets) s →
  concat (ConnectionWriter.sy_sent s) `prefix_of` ConnectionWriter.sy_written s ∧
  (ConnectionWriter.sy_flushed s = true →
    concat (ConnectionWriter.sy_sent s) ++
      match ConnectionWriter.sy_sender s with ConnectionWriter.Sending packets => concat packets | _ => [] end =
    ConnectionWriter.sy_written s).
Proof.
  intros Hr. pose proof (stream_reached_inv _ _ Hr) as HI. split.
  - assert (handed s `prefix_of` ConnectionWriter.sy_written s) as H.
    { pose proof (in_stream _ HI) as H. unfold in_order in H. destruct (ConnectionWriter.sy_user s); try done;
        try (rewrite <-H; by eexists). destruct H as [H _]. etransitivity; [|exact H]. by eexists. }
    etransitivity; [|exact H]. unfold handed. by eexists.
  - intros Hf. pose proof (in_stream _ HI) as H. destruct (in_flushed _ HI Hf) as (H1 & H2 & H3 & H4).
    unfold in_order in H. rewrite H3 in H. destruct H as [_ H]. specialize (H H4).
    unfold handed, buffered in H. rewrite H1, H2, H3 in H. cbn [concat] in H. by rewrite !app_nil_r in H.
Qed.

Section runs.
Import ConnectionWriter.

Fixpoint runs (commands : list command) (s : System) : option System :=
  match commands with
  | [] => Some s
  | c :: commands => s ← run c s; runs commands s
  end.

Lemma stream_runs_rtc commands s s' : runs commands s = Some s' → rtc step s s'.
Proof.
  revert s. induction commands as [|c commands IH]; cbn; intros s H; [by simplify_eq|].
  apply bind_Some in H as (s1 & H1 & H2). eapply rtc_l; [by exists c|by apply IH].
Qed.

(** Two values and a list of packets are written; the sending thread sleeps, is woken by
    [flush], and gives back the first packet while the second value is written. *)
Definition history : list command :=
  [SenderTurn []; Write [1; 2; 3; 4]] ++ replicate 4 UserTurn ++ [Flush] ++ replicate 4 UserTurn ++
  [SenderTurn []; UserTurn; Put [[5]; [6; 7]]] ++ replicate 3 UserTurn ++ [SenderTurn [[0; 0; 0]]; SenderTurn []; UserTurn; UserTurn].

Definition history_end : System := default (start []) (runs history (start [[0; 0; 0]; [0; 0]; [0; 0; 0]])).

(** Only [Stop] is possible. *)
Definition stuck (s : System) : Prop := ∀ c, c ≠ Stop → run c s = None.

(** A packet that is full waits for [flush], which is not called before [write] returns:
    [write] waits for a packet that nobody is going to return, even when all its bytes are
    stored. *)
Definition write_history : list command := [Write [1; 2]; UserTurn; UserTurn; SenderTurn []].
Definition write_end : System := default (start []) (runs write_history (start [[0; 0]])).

(** [flush] waits for the next packet before it notifies the thread that sends this one. *)
Definition flush_history : list command := [SenderTurn []; Write [1]; UserTurn; UserTurn; Flush] ++ replicate 3 UserTurn.
Definition flush_end : System := default (start []) (runs flush_history (start [[0; 0]])).

End runs.

Lemma writer_streams_witness :
  (ConnectionWriter.sy_sent history_end = [[1; 2; 3]; [4]] ∧ ConnectionWriter.sy_written history_end = [1; 2; 3; 4; 5; 6; 7]) ∧
  concat (ConnectionWriter.sy_sent history_end) `prefix_of` ConnectionWriter.sy_written history_end ∧
  (ConnectionWriter.sy_flushed history_end = true →
    concat (ConnectionWriter.sy_sent history_end) ++
      match ConnectionWriter.sy_sender history_end with ConnectionWriter.Sending packets => concat packets | _ => [] end =
    ConnectionWriter.sy_written history_end).
Proof.
  split; [by vm_compute|].
  apply (writer_streams [[0; 0; 0]; [0; 0]; [0; 0; 0]] history_end).
  apply (stream_runs_rtc history). by vm_compute.
Defined.

Lemma write_waits_forever :
  rtc ConnectionWriter.step (ConnectionWriter.start [[0; 0]]) write_end ∧ stuck write_end ∧
  ConnectionWriter.sy_user write_end = ConnectionWriter.WritingNext [] ∧
  ConnectionWriter.sy_written write_end = [1; 2] ∧ ConnectionWriter.sy_sent write_end = [].
Proof.
  split; [apply (stream_runs_rtc write_history); by vm_compute|]. split; [by intros [| | | | | |] Hc|]. by vm_compute.
Qed.

Lemma flush_waits_forever :
  rtc ConnectionWriter.step (ConnectionWriter.start [[0; 0]]) flush_end ∧ stuck flush_end ∧
  ConnectionWriter.cw_packetsToSend (ConnectionWriter.sy_writer flush_end) = [[1]] ∧
  ConnectionWriter.sy_senderSleeps flush_end = true ∧ ConnectionWriter.sy_sent flush_end = [].
Proof.
  split; [apply (stream_runs_rtc flush_history); by vm_compute|]. split; [by intros [| | | | | |] Hc|]. by vm_compute.
Qed.



