(* ===== verification/LocalFS.v ===== *)
(** * The callbacks of FileSystem
    [FileSystem/src/FileSystem.cpp]: the base class serves a local tree.  A remote file
    system replaces its callbacks but those for writing, copying and the start of a
    session.  [FileSystem/include/FuseRequestTracker.hpp], which knows the requests that
    were not answered, is used by both.

    The operating system and libfuse answer through arguments: what [open], [close] and
    the copying calls return, and the bytes of a directory entry. *)
From S2P Require Import Prelude Addr Packet Leaf FileTree Messages Names References NameServer.
Local Open Scope Z_scope.

Definition O_DIRECT : Z := 16384.
Definition O_NOFOLLOW : Z := 131072.

Definition FUSE_CAP_ASYNC_READ : Z := 1.
Definition FUSE_CAP_SPLICE_WRITE : Z := 128.
Definition FUSE_CAP_SPLICE_MOVE : Z := 256.
Definition FUSE_CAP_SPLICE_READ : Z := 512.

(** ** The requests that wait for an answer *)

Module FuseRequestTracker.

(** [_pending]; [emplace] leaves an entry that is there alone. *)
Definition Track (req : Z) (operation : string) (pending : gmap Z string) : gmap Z string :=
  match pending !! req with Some _ => pending | None => <[req := operation]> pending end.
Definition Untrack (req : Z) (pending : gmap Z string) : gmap Z string := delete req pending.
Definition DumpPending (pending : gmap Z string) : list (Z * string) := map_to_list pending.

(** [FuseReplyAssert] and [FuseReplyShutdown]: what libfuse returns for an answer. *)
Definition FuseReplyAssert (result : Z) : res Z := assert_that (result =? 0);; mret result.
Definition FuseReplyShutdown (result : Z) : res Z :=
  assert_that ((result =? 0) || (result =? - ENOENT));; mret result.

End FuseRequestTracker.

(** ** The callbacks *)

Module FileSystem.

(** What [Stat] fills in of a [struct stat] of zeros. *)
Record stat := mkStat { st_ino : Z; st_mode : Z; st_nlink : Z; st_size : Z }.

#[export] Instance stat_eq_dec : EqDecision stat.
Proof. solve_decision. Defined.

Inductive reply :=
  | reply_err (error : Z)
  | reply_entry (ino : Z) (attr : stat)
  | reply_attr (attr : stat)
  | reply_open (fh : Z) (direct_io : bool)
  | reply_data (fd off size : Z)
  | reply_buf (bytes : list Z)
  | reply_write (count : Z)
  | reply_none.

#[export] Instance reply_eq_dec : EqDecision reply.
Proof. solve_decision. Defined.

(** [FuseInit]: what the session wants of what the kernel is capable of. *)
Definition FuseInit (capable want : Z) : Z * Z :=
  let ask cap want := if Z.land capable cap =? 0 then want else Z.lor want cap in
  (ask FUSE_CAP_ASYNC_READ (ask FUSE_CAP_SPLICE_MOVE (ask FUSE_CAP_SPLICE_MOVE
    (ask FUSE_CAP_SPLICE_WRITE (ask FUSE_CAP_SPLICE_READ want)))), 4 * 1024 * 1024).

Section Callbacks.
Context {P J : Type} `{!IPacket P}.
(** What [fuse_add_direntry] says about the size of an entry, and writes: a name, an inode
    and the offset of the next entry. *)
Context (direntry_size : string → nat) (direntry : string → Z → Z → list Z).
Implicit Types (t : FileTree P J) (o : LeafObject P J).

Definition Stat (ino : Z) o : res stat :=
  match lo_type o with
  | ft_directory => Ret (mkStat ino (Z.lor S_IFDIR 493) 2 0)
  | ft_regular => Ret (mkStat ino (Z.lor 32768 292) 1 (LeafObject.GetSize o))
  | _ => Err (Throws "Not implemented")
  end.

(** A callback gives the tree it leaves and the answers it gives: none or one. *)
Definition FuseLookup (parentId : Z) (name : string) t : res (FileTree P J * list reply) :=
  '(_, parent) ← GetLeaf parentId t;
  match LeafObject.Find name parent with
  | None => Ret (t, [reply_err ENOENT])
  | Some file =>
      o ← FileTree.leaf_at file t;
      if LeafObject.IsDeleted o then Ret (t, [reply_err ENOENT])
      else
        t ← FileTree.AddRef file t;
        o ← FileTree.leaf_at file t;
        attr ← Stat file o;
        Ret (t, [reply_entry file attr])
  end.

Definition FuseForget (inode nlookup : Z) t : res (FileTree P J * list reply) :=
  t ← FileTree.ReleaseRef nlookup (FileTree.address inode t) t; Ret (t, [reply_none]).

Definition FuseGetattr (inode : Z) t : res (FileTree P J * list reply) :=
  '(_, file) ← GetLeaf inode t; attr ← Stat inode file; Ret (t, [reply_attr attr]).

(** [BufferAddFile]: the entry has the offset that is behind it. *)
Definition BufferAddFile (name : string) (ino : Z) (buffer : list Z) : list Z :=
  buffer ++ direntry name ino (Z.of_nat (length buffer + direntry_size name)).

(** [off] is compared as an unsigned number. *)
Definition ReplyBufferLimited (off maxSize : Z) (buffer : list Z) : reply :=
  let off := u64 off in
  if off <? Z.of_nat (length buffer) then
    reply_buf (take (Z.to_nat (Z.min (Z.of_nat (length buffer) - off) maxSize)) (drop (Z.to_nat off) buffer))
  else reply_buf [].

Fixpoint add_files (children : list (string * Z)) t (buffer : list Z) : res (list Z) :=
  match children with
  | [] => Ret buffer
  | (_, file) :: children => o ← FileTree.leaf_at file t; add_files children t (BufferAddFile (lo_name o) file buffer)
  end.

Definition FuseReaddir (inode size off : Z) t : res (FileTree P J * list reply) :=
  '(a, directory) ← GetLeaf inode t;
  let currentINode := if inode =? FUSE_ROOT_ID then FUSE_ROOT_ID else a in
  buffer ← add_files (lo_children directory) t (BufferAddFile ".." 1 (BufferAddFile "." currentINode []));
  Ret (t, [ReplyBufferLimited off size buffer]).

(** [open] is given the path, which begins with that of the root and is absolute (so that
    [root / path] is [path]), and gives [errno] or a descriptor. *)
Definition FuseOpen (open : list string → Z → Z + Z) (inode flags : Z) t : res (FileTree P J * list reply) :=
  '(a, _) ← GetLeaf inode t;
  t ← FileTree.AddRef a t;
  path ← GetFullPath a t;
  match open path (Z.ldiff flags O_NOFOLLOW) with
  | inl errno => Ret (t, [reply_err errno])
  | inr file => Ret (t, [reply_open file (negb (Z.land flags O_DIRECT =? 0))])
  end.

Definition FuseOpendir (open : list string → Z → Z + Z) (inode flags : Z) t : res (FileTree P J * list reply) :=
  '(a, _) ← GetLeaf inode t;
  path ← GetFullPath a t;
  t ← FileTree.AddRef a t;
  match open path (Z.ldiff flags O_NOFOLLOW) with
  | inl errno => Ret (t, [reply_err errno])
  | inr file => Ret (t, [reply_open file false])
  end.

Definition FuseRead (size off fh : Z) t : res (FileTree P J * list reply) := Ret (t, [reply_data fh off size]).

(** What [fuse_buf_copy] and [copy_file_range] return, and [errno]. *)
Definition FuseWriteBuf (written errno : Z) t : res (FileTree P J * list reply) :=
  if written <? 0 then assert_that (errno =? - written);; mret (t, [reply_err errno])
  else Ret (t, [reply_write written]).
Definition FuseCopyFileRange (size errno : Z) t : res (FileTree P J * list reply) :=
  if size <? 0 then assert_that (errno =? - size);; mret (t, [reply_err errno])
  else Ret (t, [reply_write size]).

Definition FuseForgetmulti (forgets : list (Z * Z)) t : res (FileTree P J * list reply) := Ret (t, [reply_none]).

(** [close] gives 0, or the [errno] of its failure. *)
Definition FuseRelease (close : Z → Z) (inode fh : Z) t : res (FileTree P J * list reply) :=
  let errno := close fh in
  if negb (errno =? 0) then Ret (t, [reply_err errno])
  else t ← FileTree.ReleaseRef 1 (FileTree.address inode t) t; Ret (t, []).

Definition FuseReleasedir (close : Z → Z) (inode fh : Z) t : res (FileTree P J * list reply) :=
  if inode =? FUSE_ROOT_ID then Ret (t, [])
  else
    let errno := close fh in
    if negb (errno =? 0) then Ret (t, [reply_err errno])
    else t ← FileTree.ReleaseRef 1 (FileTree.address inode t) t; Ret (t, []).

(** [GetTestFileTree]: the tree that is served; memory is given at these addresses. *)
Definition GetTestFileTree (root a1 a2 a3 a4 : Z) : res (FileTree P J) :=
  let t := FileTree.make "/tmp/test" root in
  '(t, folder1) ← FileTree.AddChild root "folder1" ft_directory 0 a1 t;
  '(t, _) ← FileTree.AddChild folder1 "file1" ft_regular 100 a2 t;
  '(t, folder2) ← FileTree.AddChild root "folder2" ft_directory 0 a3 t;
  '(t, _) ← FileTree.AddChild folder2 "file2" ft_regular 200 a4 t;
  Ret t.

End Callbacks.

(** ** The kernel and the callbacks *)

Inductive request :=
  | Lookup (parent : Z) (name : string)
  | Forget (inode nlookup : Z)
  | Forgetmulti (forgets : list (Z * Z))
  | Getattr (inode : Z)
  | Readdir (inode size off : Z)
  | Open (inode flags : Z)
  | Opendir (inode flags : Z)
  | Read (size off fh : Z)
  | Release (inode fh : Z)
  | Releasedir (inode fh : Z)
  | WriteBuf (inode size off fh : Z)
  | CopyFileRange (ino_in off_in fh_in ino_out off_out fh_out len : Z).

Definition operation (r : request) : string :=
  match r with
  | Lookup _ _ => "lookup" | Forget _ _ => "forget" | Forgetmulti _ => "forgetmulti" | Getattr _ => "getattr"
  | Readdir _ _ _ => "readdir" | Open _ _ => "open" | Opendir _ _ => "opendir" | Read _ _ _ => "read"
  | Release _ _ => "release" | Releasedir _ _ => "releasedir"
  | WriteBuf _ _ _ _ => "write_buf" | CopyFileRange _ _ _ _ _ _ _ => "copy_file_range"
  end.

(** What the operating system and libfuse answer while a callback runs: to [open] (the
    [errno] or a descriptor), to [close] (0, or the [errno]), to [fuse_buf_copy] and
    [copy_file_range] (the result, and [errno]), and to an answer of the callback. *)
Record System := mkSystem {
  so_open : list string → Z → Z + Z;
  so_close : Z → Z;
  so_copy : request → Z * Z;
  so_reply : reply → Z;
}.

(** The answer of a callback is the last thing it does, and its result is asserted;
    [fuse_reply_none] has none. *)
Definition answer (replied : reply → Z) (r : reply) : res unit :=
  match r with
  | reply_none => mret tt
  | _ => FuseRequestTracker.FuseReplyAssert (replied r);; mret tt
  end.

Fixpoint answers (replied : reply → Z) (replies : list reply) : res unit :=
  match replies with [] => mret tt | r :: replies => answer replied r;; answers replied replies end.

Section Session.
Context {P J : Type} `{!IPacket P}.
Context (direntry_size : string → nat) (direntry : string → Z → Z → list Z).

(** The callback that libfuse was given for a request. *)
Definition dispatch (sys : System) (r : request) (t : FileTree P J) : res (FileTree P J * list reply) :=
  match r with
  | Lookup parent name => FuseLookup parent name t
  | Forget inode nlookup => FuseForget inode nlookup t
  | Forgetmulti forgets => FuseForgetmulti forgets t
  | Getattr inode => FuseGetattr inode t
  | Readdir inode size off => FuseReaddir direntry_size direntry inode size off t
  | Open inode flags => FuseOpen (so_open sys) inode flags t
  | Opendir inode flags => FuseOpendir (so_open sys) inode flags t
  | Read size off fh => FuseRead size off fh t
  | Release inode fh => FuseRelease (so_close sys) inode fh t
  | Releasedir inode fh => FuseReleasedir (so_close sys) inode fh t
  | WriteBuf _ _ _ _ => FuseWriteBuf (so_copy sys r).1 (so_copy sys r).2 t
  | CopyFileRange _ _ _ _ _ _ _ => FuseCopyFileRange (so_copy sys r).1 (so_copy sys r).2 t
  end.

Definition callback (sys : System) (r : request) (t : FileTree P J) : res (FileTree P J * list reply) :=
  '(t, replies) ← dispatch sys r t;
  answers (so_reply sys) replies;;
  mret (t, replies).

(** What makes a callback assert: an answer that libfuse does not take, and a copy that
    fails with a result that is not the negated [errno]. *)
Definition disappoints (sys : System) (r : request) : Prop :=
  (∃ reply, so_reply sys reply ≠ 0) ∨
  match r with
  | WriteBuf _ _ _ _ | CopyFileRange _ _ _ _ _ _ _ => (so_copy sys r).1 < 0 ∧ (so_copy sys r).2 ≠ - (so_copy sys r).1
  | _ => False
  end.

(** The tree and the tracker; what the kernel holds: a reference for every entry it was
    told of, the files that are open.  [ss_lost] are references that nobody is going to
    give back. *)
Record Session := mkSession {
  ss_tree : FileTree P J;
  ss_pending : gmap Z string;
  ss_lookups : list Z;
  ss_opened : list (Z * Z);       (* the leaf, and the handle *)
  ss_lost : list Z;
  ss_asked : list (Z * request);
  ss_answered : list (Z * reply);
}.

Definition references (s : Session) : list Z := ss_lookups s ++ (ss_opened s).*1 ++ ss_lost s.

(** The kernel asks about the root, or what it was told of. *)
Definition known (inode : Z) (s : Session) : bool :=
  (inode =? FUSE_ROOT_ID) || bool_decide (inode ∈ ss_lookups s).

Definition allowed (r : request) (s : Session) : bool :=
  match r with
  | Lookup inode _ | Getattr inode | Readdir inode _ _ | Open inode _ | Opendir inode _ => known inode s
  | Forget inode nlookup => negb (inode =? FUSE_ROOT_ID) && (0 <? nlookup) && (nlookup <=? count inode (ss_lookups s))
  | Forgetmulti forgets =>
      forallb (λ f, negb (f.1 =? FUSE_ROOT_ID) && (0 <=? f.2)) forgets &&
      bool_decide (expand forgets ⊆+ ss_lookups s)
  | Read _ _ _ | WriteBuf _ _ _ _ | CopyFileRange _ _ _ _ _ _ _ => true
  | Release inode fh | Releasedir inode fh => bool_decide ((FileTree.address inode (ss_tree s), fh) ∈ ss_opened s)
  end.

(** One occurrence of an element, and one of each of some elements, taken out of a list. *)
Fixpoint remove_first {A} `{!EqDecision A} (x : A) (l : list A) : list A :=
  match l with [] => [] | y :: l => if decide (x = y) then l else y :: remove_first x l end.
Definition remove_all {A} `{!EqDecision A} (gone l : list A) : list A := foldr remove_first l gone.

(** What the kernel holds after an answer, or none: the entries it was told of, the open
    files, and what is lost.  Every handle is released once, whatever the answer. *)
Definition holds (r : request) (replies : list reply) (s : Session) : list Z * list (Z * Z) * list Z :=
  let a inode := FileTree.address inode (ss_tree s) in
  let unchanged := (ss_lookups s, ss_opened s, ss_lost s) in
  match r with
  | Lookup _ _ =>
      match replies with [reply_entry ino _] => (ino :: ss_lookups s, ss_opened s, ss_lost s) | _ => unchanged end
  | Forget inode nlookup => (remove_all (replicate (Z.to_nat nlookup) inode) (ss_lookups s), ss_opened s, ss_lost s)
  | Forgetmulti forgets => (remove_all (expand forgets) (ss_lookups s), ss_opened s, expand forgets ++ ss_lost s)
  | Open inode _ | Opendir inode _ =>
      match replies with
      | [reply_open fh _] => (ss_lookups s, (a inode, fh) :: ss_opened s, ss_lost s)
      | _ => (ss_lookups s, ss_opened s, a inode :: ss_lost s)
      end
  | Release inode fh =>
      (ss_lookups s, remove_first (a inode, fh) (ss_opened s),
       match replies with [] => ss_lost s | _ => a inode :: ss_lost s end)
  | Releasedir inode fh =>
      (ss_lookups s, remove_first (a inode, fh) (ss_opened s),
       if (inode =? FUSE_ROOT_ID) || negb (bool_decide (replies = [])) then a inode :: ss_lost s else ss_lost s)
  | Getattr _ | Readdir _ _ _ | Read _ _ _ | WriteBuf _ _ _ _ | CopyFileRange _ _ _ _ _ _ _ => unchanged
  end.

(** A request with an id of its own comes, and its callback runs. *)
Definition run (sys : System) (req : Z) (r : request) (s : Session) : option (res Session) :=
  if allowed r s && negb (bool_decide (req ∈ (ss_asked s).*1)) && (Z.of_nat (length (references s)) <? 2 ^ 63) then
    Some (
      let pending := FuseRequestTracker.Track req (operation r) (ss_pending s) in
      '(t, replies) ← callback sys r (ss_tree s);
      let '(lookups, opened, lost) := holds r replies s in
      Ret (mkSession t (match replies with [] => pending | _ => FuseRequestTracker.Untrack req pending end)
        lookups opened lost (ss_asked s ++ [(req, r)]) (ss_answered s ++ map (λ reply, (req, reply)) replies)))
  else None.

Definition step (s s' : Session) : Prop := ∃ sys req r, run sys req r s = Some (Ret s').

Definition start (t : FileTree P J) : Session := mkSession t ∅ [] [] [] [] [].

End Session.
End FileSystem.

Import FileSystem.

(** ** Lemmas *)

Section Proofs.
Context {P J : Type} `{!IPacket P}.
Context (direntry_size : string → nat) (direntry : string → Z → Z → list Z).
Implicit Types (t : FileTree P J) (o : LeafObject P J) (s : Session (P := P) (J := J)).

(** A tree whose leaves are files and directories, all below the root. *)
Record Served t : Prop := {
  sv_order : InOrder t;
  sv_leaf : ∀ a o, ft_leaves t !! a = Some o →
    a ≠ FUSE_ROOT_ID ∧ (lo_type o = ft_directory ∨ lo_type o = ft_regular) ∧ (∃ p, Path t a p) ∧
    (a = ft_root t ∨ ∃ b ob, ft_leaves t !! b = Some ob ∧ a ∈ children ob);
}.

(** The same leaves, with other references. *)
Definition same_tree t0 t : Prop :=
  ft_root t = ft_root t0 ∧
  ∀ a, match ft_leaves t0 !! a with
       | Some o0 => ∃ n b, ft_leaves t !! a = Some (LeafObject.with_refs n b o0)
       | None => ft_leaves t !! a = None
       end.

Lemma same_tree_lookup t0 t a o : same_tree t0 t → ft_leaves t !! a = Some o →
  ∃ o0 n b, ft_leaves t0 !! a = Some o0 ∧ o = LeafObject.with_refs n b o0.
Proof.
  intros [_ H] Ha. specialize (H a). destruct (ft_leaves t0 !! a) as [o0|]; [|congruence].
  destruct H as (n & b & H). exists o0, n, b. split; [done|congruence].
Qed.

Lemma same_tree_alive t0 t a o0 : same_tree t0 t → ft_leaves t0 !! a = Some o0 → ∃ n b, ft_leaves t !! a = Some (LeafObject.with_refs n b o0).
Proof. intros [_ H] Ha. specialize (H a). by rewrite Ha in H. Qed.

Lemma same_tree_refl t : same_tree t t.
Proof.
  split; [done|]. intros a. destruct (ft_leaves t !! a) as [o|]; [|done]. exists (lo_nlookup o), (lo_selfPin o). by destruct o.
Qed.

Lemma same_tree_set t0 t a o n b : same_tree t0 t → ft_leaves t !! a = Some o →
  same_tree t0 (FileTree.set_leaf a (LeafObject.with_refs n b o) t).
Proof.
  intros HS Ha. split; [apply HS|]. intros c. cbn. destruct (decide (a = c)) as [<-|Hne].
  - destruct (same_tree_lookup _ _ _ _ HS Ha) as (o0 & n0 & b0 & -> & ->). rewrite lookup_insert_eq. by exists n, b.
  - rewrite lookup_insert_ne by done. apply HS.
Qed.

Lemma same_tree_path t0 t a p : same_tree t0 t → Path t0 a p → Path t a p.
Proof.
  intros HS. apply Path_like; [apply HS|]. intros c oc Hc. destruct (same_tree_alive _ _ _ _ HS Hc) as (n & b & H).
  eexists. split; [done|]. done.
Qed.

Lemma AddRef_same t0 t a o l : InOrder t → same_tree t0 t → ft_leaves t !! a = Some o → Counted (ft_leaves t) l →
  Z.of_nat (length l) < 2 ^ 63 →
  ∃ t', FileTree.AddRef a t = Ret t' ∧ InOrder t' ∧ same_tree t0 t' ∧ Counted (ft_leaves t') (a :: l) ∧
    ft_leaves t' !! a = Some (LeafObject.with_refs (lo_nlookup o + 1) true o).
Proof.
  intros [Hok Hl] HS Ha Hc Hlen.
  destruct (AddRef_ok a o t Hok Hl Ha) as (t' & E & Hok' & Hl' & ->); [by eapply Counted_bound|].
  eexists. split; [exact E|]. split; [by split|]. split; [by apply same_tree_set|]. split; [|cbn; apply lookup_insert_eq].
  cbn. apply (Counted_add _ l a o 1 true); done.
Qed.

(** No leaf goes: the root and its descendants own all of them. *)
Lemma ReleaseRef_same t0 t a n l : Served t0 → InOrder t → same_tree t0 t → 0 < n →
  Counted (ft_leaves t) (replicate (Z.to_nat n) a ++ l) →
  ∃ t', FileTree.ReleaseRef n a t = Ret t' ∧ InOrder t' ∧ same_tree t0 t' ∧ Counted (ft_leaves t') l.
Proof.
  intros H0 [Hok Hl] HS Hn Hc. pose proof Hc as [Hc1 Hc2]. destruct (Hc2 a) as [o Ho].
  { rewrite elem_of_app, elem_of_replicate. left. split; [done|lia]. }
  pose proof (Hc1 a o Ho) as Hcount. rewrite occurrences_app, count_replicate, decide_True in Hcount by done.
  pose proof (count_nonneg a l).
  destruct (ReleaseRef_ok n a o t Hok Hl Ho) as (t' & E & Hok' & Hl' & _ & _); [lia|].
  set (o' := LeafObject.with_refs (lo_nlookup o - n) (bool_decide (n < lo_nlookup o)) o) in *.
  assert (t' = FileTree.set_leaf a o' t) as ->.
  { unfold FileTree.ReleaseRef, FileTree.leaf_at in E. rewrite Ho in E. cbn [mbind res_bind] in E.
    destruct (ok_refs _ Hok _ _ Ho) as [Hr Hp].
    rewrite (proj2 (Z.leb_le _ _)), wrap_small in E by lia. cbn [assert_that mbind res_bind] in E.
    destruct (Z.eqb_spec (lo_nlookup o) n) as [En|En].
    - unfold o'. rewrite bool_decide_false by lia.
      assert (FileTree.owned a (FileTree.set_leaf a (LeafObject.with_refs (lo_nlookup o - n) false o) t) = true) as Hown.
      { apply owned_spec. destruct (same_tree_lookup _ _ _ _ HS Ho) as (o0 & n0 & b0 & Ha0 & _).
        destruct (sv_leaf _ H0 _ _ Ha0) as (_ & _ & _ & [->|(b & ob & Hb & Hin)]); [left; apply HS|]. right; right; right.
        destruct (same_tree_alive _ _ _ _ (same_tree_set _ _ _ _ (lo_nlookup o - n) false HS Ho) Hb) as (m & c & Hb').
        exists b, (LeafObject.with_refs m c ob). split; [exact Hb'|exact Hin]. }
      unfold FileTree.release in E. destruct (size _) as [|fuel]; cbn in E; rewrite Hown in E; by simplify_eq.
    - rewrite (proj2 Hp) in E by lia. unfold o'. rewrite bool_decide_true by lia. by simplify_eq. }
  eexists. split; [exact E|]. split; [by split|]. split; [by apply same_tree_set|]. cbn.
  apply Counted_drop; [done|lia|done].
Qed.

Lemma Stat_served t0 t a o ino : Served t0 → same_tree t0 t → ft_leaves t !! a = Some o → ∃ attr, Stat ino o = Ret attr.
Proof.
  intros H0 HS Ha. destruct (same_tree_lookup _ _ _ _ HS Ha) as (o0 & n & b & Ha0 & ->).
  destruct (sv_leaf _ H0 _ _ Ha0) as (_ & Ht & _). unfold Stat. cbn. destruct Ht as [->| ->]; eauto.
Qed.

Lemma path_served t0 t a o : Served t0 → same_tree t0 t → ft_leaves t !! a = Some o → ∃ p, GetFullPath a t = Ret p.
Proof.
  intros H0 HS Ha. destruct (same_tree_lookup _ _ _ _ HS Ha) as (o0 & n & b & Ha0 & _).
  destruct (sv_leaf _ H0 _ _ Ha0) as (_ & _ & (p & Hp) & _). exists p.
  unfold GetFullPath. apply GetFullPath_Path. by apply (same_tree_path t0).
Qed.

Lemma child_served t0 t a o x c : Served t0 → same_tree t0 t → ft_leaves t !! a = Some o → (x, c) ∈ lo_children o →
  ∃ oc, ft_leaves t !! c = Some oc ∧ LeafObject.IsDeleted oc = false.
Proof.
  intros H0 HS Ha Hin. destruct (same_tree_lookup _ _ _ _ HS Ha) as (o0 & n & b & Ha0 & ->). cbn in Hin.
  destruct (child_alive t0 a o0 x c) as (oc & Hoc & _); [by apply H0|done|done|].
  destruct (same_tree_alive _ _ _ _ HS Hoc) as (m & d & Hc). eexists. split; [done|].
  destruct (sv_leaf _ H0 _ _ Hoc) as (_ & Ht & _). unfold LeafObject.IsDeleted. cbn.
  destruct Ht as [->| ->]; done.
Qed.

Lemma add_files_ret t0 t l buffer : Served t0 → same_tree t0 t →
  (∀ x c, (x, c) ∈ l → is_Some (ft_leaves t !! c)) → ∃ b, add_files direntry_size direntry l t buffer = Ret b.
Proof.
  intros H0 HS. revert buffer. induction l as [|[x c] l IH]; intros buffer Hl; [by eexists|]. cbn.
  destruct (Hl x c) as [o Ho]; [by left|]. unfold FileTree.leaf_at. rewrite Ho. cbn [mbind res_bind].
  apply IH. intros y d Hin. apply (Hl y d). by right.
Qed.

Lemma remove_first_perm {A} `{!EqDecision A} (x : A) l : x ∈ l → l ≡ₚ x :: remove_first x l.
Proof.
  induction l as [|y l IH]; [by intros ?%not_elem_of_nil|]. intros [<-|H]%elem_of_cons; cbn; [by rewrite decide_True|].
  case_decide as E; [by rewrite E|]. rewrite (IH H) at 1. apply Permutation_swap.
Qed.

Lemma remove_all_perm {A} `{!EqDecision A} (gone l : list A) : gone ⊆+ l → l ≡ₚ gone ++ remove_all gone l.
Proof.
  induction gone as [|g gone IH]; intros H; [done|].
  assert (gone ⊆+ l) as H'. { etransitivity; [|exact H]. apply submseteq_cons. done. }
  cbn [remove_all foldr]. fold (remove_all gone l).
  assert (g ∈ remove_all gone l) as Hin.
  { rewrite (IH H') in H. change (g :: gone) with ([g] ++ gone) in H. rewrite (Permutation_app_comm [g]) in H.
    apply submseteq_app_inv_l in H. eapply elem_of_submseteq; [|exact H]. by left. }
  etransitivity; [exact (IH H')|]. rewrite (remove_first_perm _ _ Hin) at 1. cbn. by rewrite <-Permutation_middle.
Qed.

(** What every callback does: it returns, and the references are those that are held. *)
Definition silent (r : request) : Prop := match r with Release _ _ | Releasedir _ _ => True | _ => False end.

Definition does t0 (outcome : res (FileTree P J * list reply)) r s : Prop :=
  ∃ t' replies, outcome = Ret (t', replies) ∧ InOrder t' ∧ same_tree t0 t' ∧
    Counted (ft_leaves t') (let '(lookups, opened, lost) := holds r replies s in lookups ++ opened.*1 ++ lost) ∧
    match replies with [] => silent r | [_] => True | _ => False end.

(** ... or it asserts, because of [sys]. *)
Definition does_or_asserts t0 (outcome : res (FileTree P J * list reply)) sys r s : Prop :=
  does t0 outcome r s ∨ outcome = Err AssertFails ∧ disappoints sys r.

(** The answers are taken, or one of them is not. *)
Lemma answers_taken sys (replies : list reply) :
  answers (so_reply sys) replies = Ret tt ∨
  answers (so_reply sys) replies = Err AssertFails ∧ ∃ reply, so_reply sys reply ≠ 0.
Proof.
  induction replies as [|reply replies IH]; [by left|]. cbn [answers].
  assert (answer (so_reply sys) reply = Ret tt ∨ answer (so_reply sys) reply = Err AssertFails ∧ so_reply sys reply ≠ 0) as [->|[-> ?]].
  { unfold answer, FuseRequestTracker.FuseReplyAssert.
    destruct reply; try (by left); match goal with |- context [(?z =? 0)] => destruct (Z.eqb_spec z 0) end; auto. }
  - cbn [mbind res_bind]. destruct IH as [->|[-> ?]]; auto.
  - right. eauto.
Qed.

Section callbacks.
Context (t0 : FileTree P J) (H0 : Served t0).
Context s (HO : InOrder (ss_tree s)) (HS : same_tree t0 (ss_tree s)) (HC : Counted (ft_leaves (ss_tree s)) (references s)).
Context (Hlen : Z.of_nat (length (references s)) < 2 ^ 63).

Lemma referenced_alive a : a ∈ references s → is_Some (ft_leaves (ss_tree s) !! a) ∧ a ≠ FUSE_ROOT_ID.
Proof.
  intros Hin. destruct HC as [_ Hal]. destruct (Hal a Hin) as [o Ho]. split; [done|].
  destruct (same_tree_lookup _ _ _ _ HS Ho) as (o0 & n & b & Ha0 & _). by apply (sv_leaf _ H0) in Ha0 as [? _].
Qed.

Lemma local_address a : a ≠ FUSE_ROOT_ID → FileTree.address a (ss_tree s) = a.
Proof. intros H. unfold FileTree.address. by rewrite (proj2 (Z.eqb_neq _ _)). Qed.

Lemma known_alive inode : known inode s = true → ∃ o, ft_leaves (ss_tree s) !! FileTree.address inode (ss_tree s) = Some o.
Proof.
  unfold known. intros [->%Z.eqb_eq|Hin%bool_decide_eq_true]%orb_true_iff.
  - destruct HO as [Hok _]. exact (ok_root _ Hok).
  - destruct (referenced_alive inode) as [[o Ho] Hne]; [apply elem_of_app; by left|]. exists o. by rewrite local_address.
Qed.

Lemma unchanged_does r reply : holds r [reply] s = (ss_lookups s, ss_opened s, ss_lost s) → does t0 (Ret (ss_tree s, [reply])) r s.
Proof. intros H. eexists _, _. split; [done|]. split; [done|]. split; [done|]. rewrite H. done. Qed.

Lemma lookup_does parent name : known parent s = true → does t0 (FuseLookup parent name (ss_tree s)) (Lookup parent name) s.
Proof.
  intros Hk. destruct (known_alive _ Hk) as [o Ho]. unfold FuseLookup. rewrite (GetLeaf_at _ _ _ Ho). cbn [mbind res_bind].
  destruct (LeafObject.Find name o) as [file|] eqn:Hf; [|by apply unchanged_does]. apply find_elem in Hf.
  destruct (child_served t0 _ _ _ _ _ H0 HS Ho Hf) as (oc & Hof & Hd). unfold FileTree.leaf_at. rewrite Hof. cbn [mbind res_bind]. rewrite Hd.
  destruct (AddRef_same t0 _ _ _ _ HO HS Hof HC Hlen) as (t' & E & HO' & HS' & HC' & Hl'). rewrite E. cbn [mbind res_bind].
  rewrite Hl'. cbn [mbind res_bind]. destruct (Stat_served t0 t' _ _ file H0 HS' Hl') as [attr ->]. cbn [mbind res_bind].
  eexists _, _. split; [done|]. split; [done|]. split; [done|]. split; [exact HC'|done].
Qed.

Lemma getattr_does inode : known inode s = true → does t0 (FuseGetattr inode (ss_tree s)) (Getattr inode) s.
Proof.
  intros Hk. destruct (known_alive _ Hk) as [o Ho]. unfold FuseGetattr. rewrite (GetLeaf_at _ _ _ Ho). cbn [mbind res_bind].
  destruct (Stat_served t0 _ _ _ inode H0 HS Ho) as [attr ->]. cbn [mbind res_bind]. by apply unchanged_does.
Qed.

Lemma readdir_does inode size off : known inode s = true →
  does t0 (FuseReaddir direntry_size direntry inode size off (ss_tree s)) (Readdir inode size off) s.
Proof.
  intros Hk. destruct (known_alive _ Hk) as [o Ho]. unfold FuseReaddir. rewrite (GetLeaf_at _ _ _ Ho). cbn [mbind res_bind].
  match goal with |- context [add_files _ _ _ _ ?b] => destruct (add_files_ret t0 (ss_tree s) (lo_children o) b H0 HS) as [b' ->] end.
  { intros x c Hin. destruct (child_served t0 _ _ _ _ _ H0 HS Ho Hin) as (oc & Hoc & _). by rewrite Hoc. }
  cbn [mbind res_bind]. by apply unchanged_does.
Qed.

Lemma forget_does inode nlookup : inode ≠ FUSE_ROOT_ID → 0 < nlookup ≤ count inode (ss_lookups s) →
  does t0 (FuseForget inode nlookup (ss_tree s)) (Forget inode nlookup) s.
Proof.
  intros Hne Hn. set (gone := replicate (Z.to_nat nlookup) inode).
  assert (ss_lookups s ≡ₚ gone ++ remove_all gone (ss_lookups s)) as Hp.
  { apply remove_all_perm. assert (filter (inode =.) (ss_lookups s) = replicate (length (filter (inode =.) (ss_lookups s))) inode) as Hrep.
    { symmetry. apply replicate_as_elem_of. split; [done|]. intros x Hx. by apply list_elem_of_filter in Hx as [? _]. }
    etransitivity; [|apply sublist_submseteq, (sublist_filter (inode =.))]. rewrite Hrep. unfold count in Hn.
    assert (Z.to_nat nlookup ≤ length (filter (inode =.) (ss_lookups s)))%nat as Hle by lia.
    apply sublist_submseteq. subst gone. clear -Hle. revert Hle. generalize (length (filter (inode =.) (ss_lookups s))) as m.
    induction (Z.to_nat nlookup) as [|k IH]; intros [|m] H; cbn; try apply sublist_nil_l; [lia|]. apply sublist_skip, IH. lia. }
  unfold FuseForget. rewrite local_address by done.
  destruct (ReleaseRef_same t0 (ss_tree s) inode nlookup (remove_all gone (ss_lookups s) ++ (ss_opened s).*1 ++ ss_lost s)) as (t' & -> & HO' & HS' & HC');
    [done|done|done|lia| |].
  { fold gone. rewrite app_assoc, <-Hp. exact HC. }
  cbn [mbind res_bind]. eexists _, _. split; [done|]. split; [done|]. split; [done|]. split; [exact HC'|done].
Qed.

Lemma forgetmulti_does forgets : expand forgets ⊆+ ss_lookups s → does t0 (FuseForgetmulti forgets (ss_tree s)) (Forgetmulti forgets) s.
Proof.
  intros Hg. unfold FuseForgetmulti. eexists _, _. split; [done|]. split; [done|]. split; [done|]. split; [|done]. cbn [holds].
  eapply Counted_perm; [|exact HC]. unfold references. rewrite (remove_all_perm _ _ Hg) at 1. rewrite <-!app_assoc.
  solve_Permutation.
Qed.

Lemma open_does sys inode flags r :
  known inode s = true → r = Open inode flags ∨ r = Opendir inode flags →
  does t0 (dispatch direntry_size direntry sys r (ss_tree s)) r s.
Proof.
  intros Hk Hr. destruct (known_alive _ Hk) as [o Ho].
  destruct (AddRef_same t0 _ _ _ _ HO HS Ho HC Hlen) as (t' & E & HO' & HS' & HC' & Hl').
  destruct (path_served t0 _ _ _ H0 HS Ho) as [p Hp]. destruct (path_served t0 _ _ _ H0 HS' Hl') as [p' Hp'].
  assert (Counted (ft_leaves t') (ss_lookups s ++ FileTree.address inode (ss_tree s) :: (ss_opened s).*1 ++ ss_lost s) ∧
    Counted (ft_leaves t') (ss_lookups s ++ (ss_opened s).*1 ++ FileTree.address inode (ss_tree s) :: ss_lost s)) as [HC1 HC2].
  { split; (eapply Counted_perm; [|exact HC']); unfold references; rewrite <-?Permutation_middle; done. }
  destruct Hr as [-> | ->]; cbn [dispatch]; [unfold FuseOpen|unfold FuseOpendir]; rewrite (GetLeaf_at _ _ _ Ho); cbn [mbind res_bind];
    [rewrite E|rewrite Hp]; cbn [mbind res_bind]; [rewrite Hp'|rewrite E]; cbn [mbind res_bind];
    destruct (so_open sys _ _) as [errno|file];
    (eexists _, _; split; [done|]; split; [done|]; split; [done|]; split; [first [exact HC1|exact HC2]|done]).
Qed.

Lemma close_does sys inode fh r :
  (FileTree.address inode (ss_tree s), fh) ∈ ss_opened s → r = Release inode fh ∨ r = Releasedir inode fh →
  does t0 (dispatch direntry_size direntry sys r (ss_tree s)) r s.
Proof.
  intros Hin Hr. set (a := FileTree.address inode (ss_tree s)) in *.
  pose proof (remove_first_perm _ _ Hin) as Hp. apply (fmap_Permutation fst) in Hp. cbn in Hp. fold a in Hp.
  assert (Counted (ft_leaves (ss_tree s)) (a :: ss_lookups s ++ (remove_first (a, fh) (ss_opened s)).*1 ++ ss_lost s)) as HC1.
  { eapply Counted_perm; [|exact HC]. unfold references. rewrite Hp. solve_Permutation. }
  assert (Counted (ft_leaves (ss_tree s)) (ss_lookups s ++ (remove_first (a, fh) (ss_opened s)).*1 ++ a :: ss_lost s)) as HC2.
  { eapply Counted_perm; [|exact HC1]. solve_Permutation. }
  destruct (ReleaseRef_same t0 (ss_tree s) a 1 _ H0 HO HS ltac:(lia) HC1) as (t' & E & HO' & HS' & HC').
  assert (does t0 (if negb (so_close sys fh =? 0) then Ret (ss_tree s, [reply_err (so_close sys fh)])
    else t ← FileTree.ReleaseRef 1 a (ss_tree s); Ret (t, [])) (Release inode fh) s) as Hrel.
  { destruct (negb (so_close sys fh =? 0)); [|rewrite E]; cbn [mbind res_bind];
      (eexists _, _; split; [done|]; split; [done|]; split; [done|]; split; [first [exact HC2|exact HC']|done]). }
  destruct Hr as [-> | ->]; [exact Hrel|]. cbn [dispatch]. unfold FuseReleasedir. fold a.
  destruct (inode =? FUSE_ROOT_ID) eqn:Hroot.
  - eexists _, _. split; [done|]. split; [done|]. split; [done|]. cbn [holds]. rewrite Hroot. cbn [orb]. split; [exact HC2|done].
  - destruct Hrel as (t2 & replies & H1 & H2 & H3 & H4 & H5). exists t2, replies. split; [exact H1|]. split; [done|]. split; [done|].
    split; [|exact H5]. cbn [holds] in *. rewrite Hroot. cbn [orb]. destruct replies; exact H4.
Qed.

Lemma copy_does sys r : match r with WriteBuf _ _ _ _ | CopyFileRange _ _ _ _ _ _ _ => True | _ => False end →
  does_or_asserts t0 (dispatch direntry_size direntry sys r (ss_tree s)) sys r s.
Proof.
  intros Hr. assert (∀ out errno, so_copy sys r = (out, errno) →
    does_or_asserts t0 (if out <? 0 then assert_that (errno =? - out);; mret (ss_tree s, [reply_err errno])
                        else Ret (ss_tree s, [reply_write out])) sys r s) as H.
  { intros out errno E. assert (∀ reply, does t0 (Ret (ss_tree s, [reply])) r s) as Hsame
      by (intros reply; apply unchanged_does; by destruct r).
    destruct (Z.ltb_spec out 0); [|left; apply Hsame]. destruct (Z.eqb_spec errno (- out)); [left; apply Hsame|]. right. split; [done|].
    right. destruct r; try done; by rewrite E. }
  destruct r; try done; cbn [dispatch]; unfold FuseWriteBuf, FuseCopyFileRange;
    match goal with |- context [so_copy sys ?q] => destruct (so_copy sys q) as [out errno] eqn:E end; by apply H.
Qed.

Lemma dispatch_does sys r : allowed r s = true →
  does_or_asserts t0 (dispatch direntry_size direntry sys r (ss_tree s)) sys r s.
Proof.
  intros Ha. destruct r as [parent name|inode nlookup|forgets|inode|inode size off|inode flags|inode flags|size off fh|inode fh|inode fh|inode size off fh|? ? ? ? ? ? ?];
    cbn [allowed] in Ha; [left..|by apply copy_does|by apply copy_does].
  - by apply lookup_does.
  - apply andb_true_iff in Ha as [[H1%negb_true_iff%Z.eqb_neq H2%Z.ltb_lt]%andb_true_iff H3%Z.leb_le]. by apply forget_does.
  - apply andb_true_iff in Ha as [_ H%bool_decide_eq_true]. by apply forgetmulti_does.
  - by apply getattr_does.
  - by apply readdir_does.
  - apply (open_does sys inode flags); auto.
  - apply (open_does sys inode flags); auto.
  - by apply unchanged_does.
  - apply bool_decide_eq_true in Ha. apply (close_does sys inode fh); auto.
  - apply bool_decide_eq_true in Ha. apply (close_does sys inode fh); auto.
Qed.

Lemma callback_does sys r : allowed r s = true →
  does_or_asserts t0 (callback direntry_size direntry sys r (ss_tree s)) sys r s.
Proof.
  intros Ha. unfold callback. destruct (dispatch_does sys r Ha) as [(t' & replies & E & H)|[E Hd]]; rewrite E; cbn [mbind res_bind].
  - destruct (answers_taken sys replies) as [->|[-> Hx]]; cbn [mbind res_bind].
    + left. exists t', replies. auto.
    + right. split; [done|]. by left.
  - by right.
Qed.

End callbacks.

(** The tracker knows the requests without an answer. *)
Record Inv t0 s : Prop := {
  iv_order : InOrder (ss_tree s);
  iv_same : same_tree t0 (ss_tree s);
  iv_counted : Counted (ft_leaves (ss_tree s)) (references s);
  iv_asked : NoDup (ss_asked s).*1;
  iv_answered : NoDup (ss_answered s).*1 ∧ ∀ req, req ∈ (ss_answered s).*1 → req ∈ (ss_asked s).*1;
  iv_pending : ∀ req op, ss_pending s !! req = Some op ↔
    ∃ r, (req, r) ∈ ss_asked s ∧ op = operation r ∧ req ∉ (ss_answered s).*1;
  iv_silent : ∀ req r, (req, r) ∈ ss_asked s → req ∉ (ss_answered s).*1 → silent r;
}.

Lemma run_inv t0 sys req r s : Served t0 → Inv t0 s → allowed r s = true → req ∉ (ss_asked s).*1 →
  Z.of_nat (length (references s)) < 2 ^ 63 →
  (∃ s', run direntry_size direntry sys req r s = Some (Ret s') ∧ Inv t0 s') ∨
  run direntry_size direntry sys req r s = Some (Err AssertFails) ∧ disappoints sys r.
Proof.
  intros H0 [HO HS HC Hn Ha Hp Hs] Hal Hreq Hlen.
  unfold run. rewrite Hal, bool_decide_eq_false_2, (proj2 (Z.ltb_lt _ _)) by done. cbn [andb negb].
  destruct (callback_does t0 H0 s HO HS HC Hlen sys r Hal) as [(t' & replies & E & HO' & HS' & HC' & Hre)|[E Hd]];
    rewrite E; cbn [mbind res_bind]; [left|by right].
  destruct (holds r replies s) as [[lookups opened] lost] eqn:Hh.
  eexists. split; [done|]. destruct Ha as [Ha1 Ha2].
  assert (req ∉ (ss_answered s).*1) as Hans by by intros H%Ha2.
  assert (ss_pending s !! req = None) as Hfree.
  { destruct (ss_pending s !! req) as [op|] eqn:He; [|done]. apply Hp in He as (r' & Hin & _). exfalso. apply Hreq.
    apply list_elem_of_fmap. by exists (req, r'). }
  unfold FuseRequestTracker.Track. rewrite Hfree.
  assert (∀ r', (req, r') ∉ ss_asked s) as Hnew.
  { intros r' Hin. apply Hreq, list_elem_of_fmap. by exists (req, r'). }
  split; cbn; [done|done|exact HC'| | | |].
  - rewrite fmap_app, NoDup_app. split; [done|]. split; [|by apply NoDup_singleton].
    intros x Hx ->%list_elem_of_singleton. done.
  - rewrite !fmap_app. destruct replies as [|reply [|]]; [|cbn|done].
    + cbn. rewrite app_nil_r. split; [done|]. intros x Hx. apply elem_of_app. left. by apply Ha2.
    + split; [apply NoDup_app; split; [done|]; split; [intros x Hx ->%list_elem_of_singleton; done|by apply NoDup_singleton]|].
      intros x [Hx|Hx]%elem_of_app; apply elem_of_app; [left; by apply Ha2|by right].
  - intros q op. destruct replies as [|reply [|]]; [| |done].
    + cbn [map app]. rewrite app_nil_r. rewrite lookup_insert_Some, Hp. split.
      * intros [[<- <-]|[Hne (r' & H1 & H2)]]; [exists r; split; [apply elem_of_app; right; by left|done]|].
        exists r'. split; [apply elem_of_app; by left|done].
      * intros (r' & [H1|H1%list_elem_of_singleton]%elem_of_app & -> & H3); [|left; by simplify_eq].
        right. split; [intros <-; by apply Hnew in H1|]. by exists r'.
    + unfold FuseRequestTracker.Untrack. rewrite delete_insert_id by done. rewrite Hp. cbn. split.
      * intros (r' & H1 & H2 & H3). exists r'. split; [apply elem_of_app; by left|]. split; [done|].
        rewrite fmap_app. intros [?|?%list_elem_of_singleton]%elem_of_app; [done|]. cbn in *. subst q. by apply Hnew in H1.
      * intros (r' & [H1|H1%list_elem_of_singleton]%elem_of_app & H2 & H3); rewrite fmap_app in H3.
        -- exists r'. split; [done|]. split; [done|]. intros ?. apply H3, elem_of_app. by left.
        -- exfalso. apply H3, elem_of_app. right. simplify_eq. by left.
  - intros q r' [H1|H1%list_elem_of_singleton]%elem_of_app Hq; rewrite fmap_app in Hq.
    + apply (Hs q r'); [done|]. intros ?. apply Hq, elem_of_app. by left.
    + simplify_eq. destruct replies as [|reply [|]]; [done| |done]. exfalso. apply Hq, elem_of_app. right. by left.
Qed.


Lemma start_inv_local t0 : Served t0 → Counted (ft_leaves t0) [] → Inv t0 (start t0).
Proof.
  intros H0 HC. split; cbn; [apply H0|apply same_tree_refl|exact HC|apply NoDup_nil_2| | |].
  - split; [apply NoDup_nil_2|]. by intros req ?%not_elem_of_nil.
  - intros req op. split; [done|]. by intros (r & ?%not_elem_of_nil & _).
  - by intros req r ?%not_elem_of_nil.
Qed.

Lemma run_guards sys req r s m : run direntry_size direntry sys req r s = Some m →
  allowed r s = true ∧ req ∉ (ss_asked s).*1 ∧ Z.of_nat (length (references s)) < 2 ^ 63.
Proof.
  unfold run. intros H. case_match eqn:Hg; [|done].
  apply andb_true_iff in Hg as [[H1 H2%negb_true_iff%bool_decide_eq_false]%andb_true_iff H3%Z.ltb_lt]. done.
Qed.

Lemma step_inv_local t0 s s' : Served t0 → Inv t0 s → step direntry_size direntry s s' → Inv t0 s'.
Proof.
  intros H0 HI (sys & req & r & E). destruct (run_guards _ _ _ _ _ E) as (H1 & H2 & H3).
  destruct (run_inv t0 sys req r s H0 HI H1 H2 H3) as [(s2 & E2 & HI2)|[E2 _]]; rewrite E in E2; by simplify_eq.
Qed.

(** C24: The callbacks of a local tree, all that libfuse is given, whatever the kernel asks
    and the system answers: every callback returns, but one whose answer libfuse does not
    take, and a write or a copy that fails with a result that is not the negated [errno],
    which fail an assertion; the references of every leaf are those of the entries the
    kernel was told of, of the open files, and of those that the callbacks lose; and every
    request is answered once, but for some of [release] and [releasedir], which the tracker
    shows. *)
Theorem local_callbacks t0 s :
  Served t0 → Counted (ft_leaves t0) [] → rtc (step direntry_size direntry) (start t0) s →
  (∀ sys req r, allowed r s = true → req ∉ (ss_asked s).*1 → Z.of_nat (length (references s)) < 2 ^ 63 →
    (∃ s', run direntry_size direntry sys req r s = Some (Ret s')) ∨
    run direntry_size direntry sys req r s = Some (Err AssertFails) ∧ disappoints sys r) ∧
  Counted (ft_leaves (ss_tree s)) (ss_lookups s ++ (ss_opened s).*1 ++ ss_lost s) ∧
  NoDup (ss_answered s).*1 ∧
  (∀ req op, ss_pending s !! req = Some op ↔ ∃ r, (req, r) ∈ ss_asked s ∧ op = operation r ∧ req ∉ (ss_answered s).*1) ∧
  (∀ req r, (req, r) ∈ ss_asked s → req ∉ (ss_answered s).*1 → match r with Release _ _ | Releasedir _ _ => True | _ => False end).
Proof.
  intros H0 HC Hr. assert (Inv t0 s) as HI.
  { revert Hr. apply (rtc_invariant _ (Inv t0)); [by apply start_inv_local|]. intros x y. by apply step_inv_local. }
  split; [|split; [apply HI|split; [apply HI|split; [apply HI|apply HI]]]].
  intros sys req r H1 H2 H3. destruct (run_inv t0 sys req r s H0 HI H1 H2 H3) as [(s' & E & _)|?]; [left; by exists s'|by right].
Qed.

(** *** What the callbacks get wrong *)

(** A file that could not be opened keeps its reference. *)
Lemma failed_open_keeps_reference open inode flags t t' error :
  FuseOpen open inode flags t = Ret (t', [reply_err error]) →
  ∃ o, ft_leaves t !! FileTree.address inode t = Some o ∧
    (0 ≤ lo_nlookup o < 2 ^ 64 - 1 → ∃ b, ft_leaves t' !! FileTree.address inode t = Some (LeafObject.with_refs (lo_nlookup o + 1) b o)).
Proof.
  unfold FuseOpen, GetLeaf, FileTree.leaf_at. destruct (ft_leaves t !! FileTree.address inode t) as [o|] eqn:Ho; [|done].
  cbn [mbind res_bind]. intros H. exists o. split; [done|]. intros Hn.
  apply bind_ret in H as (t1 & E & H). apply bind_ret in H as (path & _ & H).
  assert (t1 = t') as <- by (destruct (open _ _); by simplify_eq).
  unfold FileTree.AddRef, FileTree.leaf_at in E. rewrite Ho in E. cbn [mbind res_bind] in E. apply (inj Ret) in E as <-.
  rewrite wrap_small by lia. eexists. cbn. apply lookup_insert_eq.
Qed.

(** [forget_multi] forgets nothing. *)
Lemma forgetmulti_forgets_nothing forgets t : FuseForgetmulti forgets t = Ret (t, [reply_none]).
Proof. done. Qed.

(** The directory of the root is not closed, and its release is not answered. *)
Lemma root_never_released close fh t : FuseReleasedir close FUSE_ROOT_ID fh t = Ret (t, []).
Proof. done. Qed.

(** A release that goes well is not answered. *)
Lemma release_unanswered close inode fh t t' replies : close fh = 0 → FuseRelease close inode fh t = Ret (t', replies) → replies = [].
Proof. unfold FuseRelease. intros -> H. cbn in H. apply bind_ret in H as (t1 & _ & H). by simplify_eq. Qed.

(** [copy_file_range] returns -1 when it fails: the assertion holds for [EPERM] only. *)
Lemma failed_copy_asserts errno t : errno ≠ 1 → FuseCopyFileRange (-1) errno t = Err AssertFails.
Proof. intros H. unfold FuseCopyFileRange. cbn. by rewrite (proj2 (Z.eqb_neq _ _)). Qed.

End Proofs.

(** A session asks for nothing that the kernel cannot do. *)
Lemma FuseInit_wants capable want n : 0 ≤ n → Z.testbit (FuseInit capable want).1 n = true →
  Z.testbit want n = true ∨ Z.testbit capable n = true.
Proof.
  intros Hn. unfold FuseInit. cbn [fst].
  assert (∀ cap k w, cap = 2 ^ k → 0 ≤ k → Z.testbit (if Z.land capable cap =? 0 then w else Z.lor w cap) n = true →
    Z.testbit w n = true ∨ Z.testbit capable n = true) as H.
  { intros cap k w -> Hk. destruct (Z.eqb_spec (Z.land capable (2 ^ k)) 0) as [|Hne]; [by left|].
    rewrite Z.lor_spec, orb_true_iff. intros [?|Hbit]; [by left|right]. rewrite Z.pow2_bits_eqb in Hbit by done.
    apply Z.eqb_eq in Hbit as ->. destruct (Z.testbit capable n) eqn:Hc; [done|]. exfalso. apply Hne.
    apply Z.bits_inj'. intros m Hm. rewrite Z.land_spec, Z.pow2_bits_eqb, Z.bits_0 by done.
    destruct (Z.eqb_spec n m) as [->|]; [by rewrite Hc|by rewrite andb_false_r]. }
  intros H1. apply (H _ 0) in H1 as [H1|H1]; [|by right|done|done].
  apply (H _ 8) in H1 as [H1|H1]; [|by right|done|done]. apply (H _ 8) in H1 as [H1|H1]; [|by right|done|done].
  apply (H _ 7) in H1 as [H1|H1]; [|by right|done|done]. by apply (H _ 9) in H1.
Qed.

(** ** A session on the tree of [GetTestFileTree] *)

Abbreviation LocalTree := (FileTree Packet unit).
Definition local0 : LocalTree := FileTree.make "/tmp/test" 16.
Definition added (parent : Z) (name : string) (type : file_type) (sz a : Z) (t : LocalTree) : LocalTree :=
  (from_res (t, 0) (FileTree.AddChild parent name type sz a t)).1.
Definition local1 : LocalTree := Eval vm_compute in added 16 "folder1" ft_directory 0 32 local0.
Definition local2 : LocalTree := Eval vm_compute in added 32 "file1" ft_regular 100 48 local1.
Definition local3 : LocalTree := Eval vm_compute in added 16 "folder2" ft_directory 0 64 local2.
Definition test_tree : LocalTree := Eval vm_compute in added 64 "file2" ft_regular 200 80 local3.

Lemma test_tree_made : GetTestFileTree 16 32 48 64 80 = Ret test_tree.
Proof. here. Qed.

Lemma test_tree_reached : rtc (tree_step (λ _, True)) local0 test_tree.
Proof.
  eapply rtc_l; [eapply (step_add _ local0 local1 16 "folder1" ft_directory 0 32 32)|]; [by eexists|done|done|here|].
  eapply rtc_l; [eapply (step_add _ local1 local2 32 "file1" ft_regular 100 48 48)|]; [by eexists|done|done|here|].
  eapply rtc_l; [eapply (step_add _ local2 local3 16 "folder2" ft_directory 0 64 64)|]; [by eexists|done|done|here|].
  eapply rtc_l; [eapply (step_add _ local3 test_tree 64 "file2" ft_regular 200 80 80)|]; [by eexists|done|done|here|reflexivity].
Qed.

Definition test_leaf (a : Z) : LeafObject Packet unit := default (LeafObject.make 0 "" ft_not_found 0 None) (ft_leaves test_tree !! a).

Lemma test_leaves a o : ft_leaves test_tree !! a = Some o → a ∈ [16; 32; 48; 64; 80] ∧ o = test_leaf a.
Proof.
  intros H. split; [|unfold test_leaf; by rewrite H]. apply elem_of_map_to_list in H. apply (list_elem_of_fmap_2 fst) in H.
  assert ((map_to_list (ft_leaves test_tree)).*1 ⊆ [16; 32; 48; 64; 80]) as Hs; [|by apply Hs].
  refine (bool_decide_eq_true_1 _ _). by vm_compute.
Qed.

Lemma test_path_child a b p : ft_leaves test_tree !! a = Some (test_leaf a) → ft_leaves test_tree !! b = Some (test_leaf b) →
  lo_parent (test_leaf a) = Some b → (lo_serial (test_leaf b) < lo_serial (test_leaf a))%nat → Path test_tree b p →
  Path test_tree a (p ++ [lo_name (test_leaf a)]).
Proof. intros H1 H2 H3 H4 H5. by eapply Path_child. Qed.

Lemma test_tree_served : Served test_tree ∧ Counted (ft_leaves test_tree) [].
Proof.
  assert (Path test_tree 16 [lo_name (test_leaf 16)]) as P16 by (apply (Path_root test_tree (test_leaf 16)); here).
  pose proof (test_path_child 32 16 _ ltac:(here) ltac:(here) ltac:(here) ltac:(vm_compute; lia) P16) as P32.
  pose proof (test_path_child 48 32 _ ltac:(here) ltac:(here) ltac:(here) ltac:(vm_compute; lia) P32) as P48.
  pose proof (test_path_child 64 16 _ ltac:(here) ltac:(here) ltac:(here) ltac:(vm_compute; lia) P16) as P64.
  pose proof (test_path_child 80 64 _ ltac:(here) ltac:(here) ltac:(here) ltac:(vm_compute; lia) P64) as P80.
  split; [split|split].
  - pose proof test_tree_reached as Hr. revert Hr. apply rtc_invariant; [by apply make_in_order|]. intros x y. apply tree_step_in_order.
  - intros a o [Hin ->]%test_leaves.
    repeat (apply elem_of_cons in Hin as [->|Hin]); [..|by apply not_elem_of_nil in Hin];
      (split; [done|]; split; [first [left; here|right; here]|]; split; [eexists; eassumption|]); [by left|right..];
      [exists 16, (test_leaf 16)|exists 32, (test_leaf 32)|exists 16, (test_leaf 16)|exists 64, (test_leaf 64)];
      (split; [here|]); refine (bool_decide_eq_true_1 _ _); by vm_compute.
  - intros a o [Hin ->]%test_leaves. repeat (apply elem_of_cons in Hin as [->|Hin]); [..|by apply not_elem_of_nil in Hin]; here.
  - by intros a ?%not_elem_of_nil.
Qed.

(** What the system answers to [open] and [close], and the request; what is written is
    written whole, and the answers are taken. *)
Definition event : Type := (Z + Z) * Z * request.
Definition system (opened : Z + Z) (closed : Z) : System :=
  mkSystem (λ _ _, opened) (λ _, closed)
    (λ r, match r with WriteBuf _ size _ _ => (size, 0) | CopyFileRange _ _ _ _ _ _ len => (len, 0) | _ => (0, 0) end)
    (λ _, 0).

Definition no_entry (name : string) (ino off : Z) : list Z := replicate (24 + String.length name) 0.
Definition no_entry_size (name : string) : nat := (24 + String.length name)%nat.

Fixpoint session (req : Z) (events : list event) (s : Session (P := Packet) (J := unit)) : option (Session (P := Packet) (J := unit)) :=
  match events with
  | [] => Some s
  | (opened, closed, r) :: events =>
      match run no_entry_size no_entry (system opened closed) req r s with
      | Some (Ret s') => session (req + 1) events s'
      | _ => None
      end
  end.

Lemma session_rtc req events s s' : session req events s = Some s' → rtc (step no_entry_size no_entry) s s'.
Proof.
  revert req s. induction events as [|[[opened closed] r] events IH]; intros req s H; cbn in H; [by simplify_eq|].
  destruct (run _ _ _ _ _ _) as [[s1|]|] eqn:E; [|done|done]. eapply rtc_l; [by exists (system opened closed), req, r|by eapply IH].
Qed.

(** A file is looked up, opened, which fails at first, read and released; one of the
    entries is forgotten, and the root is listed. *)
Definition test_events : list event :=
  [(inr 5, 0, Lookup 1 "folder1"); (inr 5, 0, Lookup 32 "file1"); (inr 5, 0, Lookup 32 "none"); (inr 5, 0, Getattr 48);
   (inl 13, 0, Open 48 0); (inr 5, 0, Open 48 0); (inr 5, 0, Read 10 0 5); (inr 5, 0, Release 48 5);
   (inr 5, 0, Forgetmulti [(32, 1)]); (inr 6, 0, Opendir 1 0); (inr 6, 0, WriteBuf 48 3 0 5); (inr 6, 0, CopyFileRange 48 0 5 48 9 5 7); (inr 6, 0, Readdir 1 4096 0); (inr 6, 0, Releasedir 1 6);
   (inr 6, 0, Forget 48 1)].
Definition test_session : Session := default (start test_tree) (session 100 test_events (start test_tree)).

Lemma local_callbacks_witness :
  (ss_lost test_session = [16; 32; 48] ∧ ss_lookups test_session = [] ∧
   ss_pending test_session = {[107 := "release"; 113 := "releasedir"]}) ∧
  (∀ sys req r, allowed r test_session = true → req ∉ (ss_asked test_session).*1 →
    Z.of_nat (length (references test_session)) < 2 ^ 63 →
    (∃ s', run no_entry_size no_entry sys req r test_session = Some (Ret s')) ∨
    run no_entry_size no_entry sys req r test_session = Some (Err AssertFails) ∧ disappoints sys r) ∧
  Counted (ft_leaves (ss_tree test_session)) (ss_lookups test_session ++ (ss_opened test_session).*1 ++ ss_lost test_session) ∧
  NoDup (ss_answered test_session).*1 ∧
  (∀ req op, ss_pending test_session !! req = Some op ↔
    ∃ r, (req, r) ∈ ss_asked test_session ∧ op = operation r ∧ req ∉ (ss_answered test_session).*1) ∧
  (∀ req r, (req, r) ∈ ss_asked test_session → req ∉ (ss_answered test_session).*1 →
    match r with Release _ _ | Releasedir _ _ => True | _ => False end).
Proof.
  split; [by vm_compute|].
  apply (local_callbacks no_entry_size no_entry test_tree test_session).
  - apply test_tree_served.
  - apply test_tree_served.
  - apply (session_rtc 100 test_events). by vm_compute.
Defined.
