(* ===== verification/Periodic.v ===== *)
(** * PeriodicExecutor: a function that runs at most once per interval
    [src/PeriodicExecutor.cpp].  Times are nanoseconds of the steady clock, which the
    executor reads again and again: a list of readings, the next of them first. *)
From S2P Require Import Prelude.
Local Open Scope Z_scope.

Module PeriodicExecutor.

(** [_end], and when the function was run. *)
Record PeriodicExecutor := mkPeriodicExecutor {
  pe_interval : Z;
  pe_end : Z;
  pe_runs : list Z;
}.
Implicit Types (e : PeriodicExecutor) (readings : list Z).

(** [interval] is in microseconds. *)
Definition make (interval : Z) : PeriodicExecutor := mkPeriodicExecutor (interval * 1000) 0 [].

(** The loop that waits, up to the reading that ends it.  [None]: it goes on. *)
Fixpoint spin (interval end_ : Z) readings : option (list Z) :=
  match readings with
  | [] => None
  | now :: readings => if now - end_ <? interval then spin interval end_ readings else Some readings
  end.

(** [sleep_for]: it is at least so much later then. *)
Definition sleep_for (now duration : Z) readings : option (list Z) :=
  match readings with [] => None | later :: _ => if later <? now + duration then None else Some readings end.

Definition wait e readings : option (list Z) :=
  if pe_end e =? 0 then Some readings
  else
    match readings with
    | [] => None
    | now :: readings =>
        let waitInterval := now - pe_end e in
        if 10000000 <? pe_interval e - waitInterval then sleep_for now (pe_interval e - waitInterval) readings
        else spin (pe_interval e) (pe_end e) readings
    end.

(** [Run]: the function is called when [_end] has been read. *)
Definition Run readings e : option (PeriodicExecutor * list Z) :=
  readings ← wait e readings;
  match readings with
  | [] => None
  | now :: readings => Some (mkPeriodicExecutor (pe_interval e) now (pe_runs e ++ [now]), readings)
  end.

Fixpoint Runs (n : nat) readings e : option (PeriodicExecutor * list Z) :=
  match n with
  | O => Some (e, readings)
  | S n => '(e, readings) ← Run readings e; Runs n readings e
  end.

End PeriodicExecutor.
Import PeriodicExecutor.

(** The readings that are left are a part of the readings. *)
Lemma spin_later interval end_ readings now later :
  Sorted Z.le readings → spin interval end_ readings = Some (now :: later) →
  interval ≤ now - end_ ∧ now :: later `suffix_of` readings.
Proof.
  induction readings as [|r readings IH]; intros Hs H; [done|]. cbn in H.
  pose proof Hs as [Hs' Hhd]%Sorted_inv. destruct (Z.ltb_spec (r - end_) interval) as [Hlt|Hge].
  - destruct (IH Hs' H) as [H1 H2]. split; [done|]. by apply suffix_cons_r.
  - injection H as ->. inversion Hhd; subst. split; [lia|]. by apply suffix_cons_r.
Qed.

Lemma sorted_suffix (l k : list Z) : l `suffix_of` k → Sorted Z.le k → Sorted Z.le l.
Proof. intros [m ->]. induction m as [|x m IH]; [done|]. intros [H _]%Sorted_inv. by apply IH. Qed.

Lemma sorted_head (x y : Z) l k : x :: l `suffix_of` y :: k → Sorted Z.le (y :: k) → y ≤ x.
Proof.
  intros [m H] Hs. apply Sorted_StronglySorted in Hs; [|intros a b c; apply Z.le_trans].
  destruct m as [|z m]; [cbn in H; injection H as <- <-; lia|]. injection H as <- ->.
  apply StronglySorted_inv in Hs as [_ Hf]. rewrite Forall_forall in Hf. apply Hf, elem_of_app. right. by left.
Qed.

Definition spaced (interval : Z) (runs : list Z) : Prop :=
  ∀ i a b, runs !! i = Some a → runs !! S i = Some b → interval ≤ b - a.

Definition Inv e : Prop :=
  spaced (pe_interval e) (pe_runs e) ∧ Forall (λ t, 0 < t) (pe_runs e) ∧ match last (pe_runs e) with Some now => pe_end e = now | None => pe_end e = 0 end.

Lemma spaced_snoc interval runs now : spaced interval runs → (∀ a, last runs = Some a → interval ≤ now - a) → spaced interval (runs ++ [now]).
Proof.
  intros Hs Hl i a b Ha Hb. apply lookup_app_Some in Hb as [Hb|[Hge Hb]].
  - apply (Hs i); [|done]. apply lookup_app_Some in Ha as [Ha|[Hge _]]; [done|]. apply lookup_lt_Some in Hb. lia.
  - apply list_lookup_singleton_Some in Hb as [Hi ->]. apply Hl. rewrite last_lookup.
    rewrite lookup_app_l in Ha by lia. by replace (pred (length runs)) with i by lia.
Qed.

Lemma Run_inv e readings e' rest : Inv e → Sorted Z.le readings → (∀ t, t ∈ readings → 0 < t) → Run readings e = Some (e', rest) →
  Inv e' ∧ rest `suffix_of` readings ∧ pe_interval e' = pe_interval e ∧ length (pe_runs e') = S (length (pe_runs e)).
Proof.
  intros (Hsp & Hpos & Hl) Hs H0 H. unfold Run in H. apply bind_Some in H as (readings' & Hw & H).
  destruct readings' as [|now later]; [done|]. injection H as <- <-.
  assert (now :: later `suffix_of` readings ∧ (pe_end e ≠ 0 → pe_interval e ≤ now - pe_end e)) as [Hsuf Hint].
  { unfold wait in Hw. destruct (Z.eqb_spec (pe_end e) 0) as [|Hne]; [injection Hw as ->; split; [done|by intros ?]|].
    destruct readings as [|r readings]; [done|]. pose proof Hs as [Hs' _]%Sorted_inv.
    destruct (Z.ltb_spec 10000000 (pe_interval e - (r - pe_end e))) as [Hlt|Hge].
    - unfold sleep_for in Hw. destruct readings as [|l readings]; [done|].
      destruct (Z.ltb_spec l (r + (pe_interval e - (r - pe_end e)))) as [|Hge]; [done|]. injection Hw as -> ->.
      split; [by apply suffix_cons_r|]. intros _. lia.
    - destruct (spin_later _ _ _ _ _ Hs' Hw) as [H1 H2]. split; [by apply suffix_cons_r|done]. }
  assert (0 < now) as Hnow by (destruct Hsuf as [m ->]; apply H0, elem_of_app; right; by left).
  split; [|split; [by apply suffix_cons_l with now|split; [done|cbn; rewrite length_app; cbn; lia]]].
  split; [|split; [cbn; by apply Forall_app; split; [|apply Forall_singleton]|cbn; by rewrite last_snoc]].
  cbn. apply spaced_snoc; [done|]. intros a Ha. rewrite Ha in Hl. rewrite <-Hl. apply Hint. rewrite Hl.
  apply last_Some in Ha as [l E]. rewrite E in Hpos. apply Forall_app in Hpos as [_ Hpos]. apply Forall_cons in Hpos as [Hpos _]. lia.
Qed.

(** Two runs of the function are the interval apart at least, on a clock that does not go
    back. *)
Theorem runs_spaced n interval readings e rest :
  Sorted Z.le readings → (∀ t, t ∈ readings → 0 < t) → Runs n readings (make interval) = Some (e, rest) →
  length (pe_runs e) = n ∧
  ∀ i a b, pe_runs e !! i = Some a → pe_runs e !! S i = Some b → interval * 1000 ≤ b - a.
Proof.
  intros Hs H0. assert (∀ n e0 readings, Inv e0 → Sorted Z.le readings → (∀ t, t ∈ readings → 0 < t) →
    Runs n readings e0 = Some (e, rest) → Inv e ∧ pe_interval e = pe_interval e0 ∧ length (pe_runs e) = (length (pe_runs e0) + n)%nat) as Hruns.
  { clear. intros n. induction n as [|n IH]; intros e0 readings HI Hs H0 H; [injection H as <- <-; split; [done|split; [done|lia]]|].
    cbn in H. apply bind_Some in H as ([e1 readings1] & H1 & H2).
    destruct (Run_inv _ _ _ _ HI Hs H0 H1) as (HI1 & Hsuf & Hi & Hl).
    destruct (IH e1 readings1 HI1) as (H3 & H4 & H5); [by eapply sorted_suffix| |done|split; [done|split; [congruence|lia]]].
    intros t Ht. apply H0. destruct Hsuf as [m ->]. apply elem_of_app. by right. }
  intros H. destruct (Hruns n (make interval) readings) as ((Hsp & _) & Hi & Hl); [|done|done|done|].
  - split; [intros i a b Ha; unfold make in Ha; cbn in Ha; by rewrite lookup_nil in Ha|]. split; [apply Forall_nil_2|done].
  - split; [exact Hl|]. rewrite Hi in Hsp. exact Hsp.
Qed.

(** It runs at once, then sleeps, as 19 milliseconds are left, then spins. *)
Lemma runs_spaced_witness :
  (λ r, pe_runs r.1) <$> Runs 3 [100; 1000100; 20000100; 38000100; 39000000; 40000100; 40000200] (make 20000) =
    Some [100; 20000100; 40000200] ∧
  ∃ e rest, Runs 3 [100; 1000100; 20000100; 38000100; 39000000; 40000100; 40000200] (make 20000) = Some (e, rest) ∧
    length (pe_runs e) = 3%nat ∧ ∀ i a b, pe_runs e !! i = Some a → pe_runs e !! S i = Some b → 20000 * 1000 ≤ b - a.
Proof.
  split; [by vm_compute|]. eexists _, _. split; [vm_compute; reflexivity|].
  refine (runs_spaced 3 20000 [100; 1000100; 20000100; 38000100; 39000000; 40000100; 40000200] _ [] _ _ _).
  - repeat constructor; lia.
  - intros t Ht. repeat (apply elem_of_cons in Ht as [->|Ht]; [lia|]). by apply not_elem_of_nil in Ht.
  - by vm_compute.
Defined.
